(* ===== verification/_CoqProject ===== *)
-Q . S2P
Prelude.v
CStr.v
Workspace.v
Double.v
DoubleRound.v
DoubleError.v
TreeSpec.v
VTree.v
VPtr.v
Cookie.v
SaintMode.v
VsThrottle.v
VsThrottleGC.v
VsThrottleRate.v
XHeads.v
XKey.v
XKeyThreads.v
Var.v
Header.v
HeaderLock.v
HeaderCalls.v
BodyAccess.v
Splay.v
SplayCost.v
SoftPurge.v
Tcp.v
