(* ===== verification/Prelude.v ===== *)
(** * Verification of the Varnish module collection (vmods)

    The repository is a collection of extensions (vmods) of the Varnish HTTP
    cache, C files under src/src/ that are loaded into varnishd and called
    from VCL.  This library models the C functions one by one and proves what
    they do.  Paths below are relative to src/src/.

    ** The parts and their models

    - Prelude (this file): the outcomes of a C function, the state monad the
      functions are written in, its weakest preconditions, lists searched by
      name, and the symbolic execution tactics [wp_step] and [wp_go].
    - CStr: C strings and the string.h and ctype.h functions, on lists of
      characters.  Double: the C types double, long and unsigned as the code
      uses them (binary64 arithmetic through SpecFloat, conversions, the bytes
      of a long and a double).  DoubleRound: what rounding keeps of an exact
      result's bounds.  DoubleError: how much too large a rounded result can be.
      Workspace: what Varnish offers the modules, as type classes: request
      workspaces that run full, the shared log, and the state ([task]) a module
      function runs on.
    - TreeSpec, VTree and VPtr: the red-black trees of vtree.h.  TreeSpec is
      the interface ([OrdTree], [OrdTreeLaws]: a tree stands for a strictly
      sorted list) with the loop macros.  VTree has the macros as functions on
      a tree and the path from a node to the root, and proves the laws
      ([rb_laws], and [rb_laws_reverse] for the backward loops).  VPtr has the
      same macros as the code has them, reads and writes of the parent, left,
      right and color fields of structs in memory, and proves that they do on
      the memory what VTree's do on the tree.  Splay: the splay trees of the
      same header.  SplayCost: the iterations their loops make.
    - Cookie: vmod_cookie.c.  Parser, printer, and the list of cookies.
    - SaintMode: vmod_saintmode.c.  Trouble lists and the saintmode director.
    - VsThrottle: vmod_vsthrottle.c.  Token buckets in partitions of trees; a
      client of the tree interface and of Double.  VsThrottleGC compares
      sequences of calls with a throttle that never frees a bucket;
      VsThrottleRate bounds the calls it lets through.
    - XHeads and XKey: vmod_xkey.c.  XHeads has the two kinds of list heads
      with their trees and pools, XKey the index of objects by secondary keys
      and the purges; clients of the tree interface.  XKeyThreads has the
      calls of many threads, interleaved where the mutex is released, and the
      callback for the other kind of events.
    - Header: vmod_header.c, one call at a time.  HeaderLock: header_init_re
      as the steps of many threads.  HeaderCalls: sequences of calls.
    - Var: vmod_var.c.  BodyAccess: vmod_bodyaccess.c.  SoftPurge:
      vmod_softpurge.c.  Tcp: vmod_tcp.c.

    A definition has the name of the C function it models; a loop has its
    own Fixpoint, named after it (parse_loop, scan_trouble, ...).

    ** How C is modelled

    A function is a value of [M S A]: from a state it returns a result and a
    state, or stops in an assertion ([Panic]), or reaches behaviour the C
    standard leaves undefined ([Undef]: a NULL or freed pointer, a read of an
    indeterminate value, a signed overflow, a write behind a buffer), or runs
    out of the fuel of a loop ([NoFuel]).  [wp m Q s] is total correctness: it
    excludes the last three.  Integers are Z with the wrap-around or the
    overflow check of their type written out where it can occur; the platform
    is LP64 with 64-bit double arithmetic, and the C locale.  Structs the code
    links into lists and trees are known by their addresses ([loc]) in finite
    maps where the code frees or shares them, and are plain records where it
    does not.  VTAILQ lists enter by their contract, as sequences; an operation
    outside the contract (removing an element through a link field of another
    list) is [Undef].  A mutex makes what it protects one step; where the code
    lets go of it in between, the steps are separate (the insertions of
    XKeyThreads, the second loop of SoftPurge), and where it is read without
    the mutex, every access is a step (HeaderLock).  malloc succeeds
    unless a file says otherwise.

    Fuel: a loop over a string or a tree gets the length of the string, the
    depth of the tree or the number of its elements, plus one; the wp theorems
    and [parse_total_wf], [rb_tree_is_map], [splay_refines_dictionary] show
    that it never runs out.

    ** What the theorems show

    - Refinement of an abstract specification by any sequence of calls:
      [Cookie.operations_refine_map] (an ordered map), [XKey.operations_refine_index]
      (a relation between objects and keys), [VsThrottle.is_denied_refines] (a
      map of token buckets), [Var.vars_refine_maps] (a typed map),
      [VTree.rb_tree_is_map] and [Splay.splay_refines_dictionary] (finite maps
      and sorted lists), [VPtr.pointer_tree_refines] (the macros on memory
      against those on trees), [XKeyThreads.interleaved_calls_refine] (the
      index, for every schedule of the threads).
    - Equivalence with a simpler program: [VsThrottleGC.collection_unobservable]
      (without blocks, garbage collection changes no answer),
      [VsThrottleRate.keys_isolated] (among calls of is_denied without a block,
      those of other keys change no answer of one).
    - Quantitative bounds: [VsThrottleRate.admission_rate] (the rate limit over
      every window of time, in the doubles of the code, for calls of is_denied
      without a block) and [SplayCost.splay_amortized_cost] (the amortized
      O(log n) of the comment in vtree.h for the splay the code has, apart from
      the walks of VSPLAY_NEXT, with which it fails: [repeated_next_linear]).
    - Concurrency: [HeaderLock.init_re_once] (however threads interleave,
      a regular expression is compiled at most once for a call site) and
      [init_re_ends] (no deadlock, and a bound on the steps).
    - Safety, that is no assertion fails and nothing undefined happens, with
      the calls that are the exceptions and what they do instead: [xkey_safe],
      [vsthrottle_safe], [saintmode_safe]; and every wp theorem.  Types of the
      data kept by any calls: [header_types_preserved].
    - Functional behaviour of the single operations on every branch:
      [is_digest_healthy_exact], [director_exact], [blacklist_effective],
      [hard_purge_exact], [soft_purge_exact], [discard_exact], [tokens_exact],
      [exactly_limit_calls], [denial_blocks], [waiting_admits], [fini_frees],
      [remove_exact], [get_exact], [copy_exact], [hash_exact], [rematch_exact], [log_exact], [softpurge_exact],
      [congestion_exact], [neighbours_exact], and others.
    - Round trips and bounds: [print_parse_roundtrip], [digest_input_injective],
      [pace_bounds], [log_exact]; loops as loops over a list:
      [foreach_safe_removes], [splay_foreach_exact], [foreach_reverse_exact].
    - Where the code does not do what its documentation or its evident purpose
      says, a theorem says what it does: [remaining_refills_again],
      [gc_forgets_block], [period_zero_undefined], [threshold_zero],
      [use_after_fini], [parse_empty_keeps], [purge_counts_twice], [int_truncated],
      [set_string_lost], [global_get_null], [second_load_undefined],
      [copy_self_fills], [log_negative_overflows], [reload_undefined_again],
      [status_without_objects_panics], [null_line_panics], [repeated_next_linear].
      Where such a divergence lies in a branch of a larger theorem the comment
      of that theorem says so (NULL for an absent cookie or variable in
      [Cookie.operations_refine_map] and [Var.vars_refine_maps], a failed
      iteration in [rematch_exact], the last discard in [discard_exact]).

    A theorem with hypotheses is followed, at the end of its file, by a
    concrete instance with the suffix _witness.

    ** Not modelled

    - Varnish itself (workspaces, objects, expiry, regular expressions, the
      iteration over a request body, the hash and log functions), SHA256, the
      clock and the kernel: parameters, with the laws the theorems use stated
      as classes or hypotheses.
    - foreign/hash/hash_slinger.h and vmod_config.h: declarations and includes
      only.
    - The layout of memory behind VSB strings and VTAILQ links, and data
      races, other than that of header_init_re, of code that runs without a
      lock.
    - VRB_AUGMENT, which does nothing in the modules.
    - Branches for other releases of Varnish (VARNISH_PLUS, HAVE_REQ_BODY_ITER_F,
      the other layouts of struct objcore) where they differ in names only, and
      builds of vmod_tcp.c without TCP_INFO. *)
From stdpp Require Export base list strings gmap option pretty.
From Stdlib Require Export ZArith Lia.

(** ** Outcomes of a C function

    A C function of the collection returns, stops the process in one of the
    assertion macros of vas.h and miniobj.h ([assert], [AN], [AZ], [WRONG],
    [CHECK_OBJ_NOTNULL], [CAST_OBJ_NOTNULL]), or runs into behaviour the C
    standard leaves undefined (a wild pointer, a signed overflow, a misused
    queue).  [NoFuel] is the answer of a loop model whose bound was too
    small; every loop has a theorem that rules it out. *)
Inductive outcome (A : Type) : Type :=
| Ret (a : A)
| Panic (what : string)
| Undef (what : string)
| NoFuel.
Arguments Ret {A} _.
Arguments Panic {A} _.
Arguments Undef {A} _.
Arguments NoFuel {A}.

#[global] Instance outcome_eq_dec `{EqDecision A} : EqDecision (outcome A).
Proof. solve_decision. Defined.
#[global] Instance outcome_ret : MRet outcome := @Ret.
#[global] Instance outcome_bind : MBind outcome := λ A B f m,
  match m with
  | Ret a => f a
  | Panic w => Panic w
  | Undef w => Undef w
  | NoFuel => NoFuel
  end.
#[global] Instance outcome_fmap : FMap outcome := λ A B f m,
  match m with
  | Ret a => Ret (f a)
  | Panic w => Panic w
  | Undef w => Undef w
  | NoFuel => NoFuel
  end.

(** ** Stateful C code: a state and outcome monad *)
Definition M (S A : Type) : Type := S → outcome (A * S).

#[global] Instance M_ret {S} : MRet (M S) := λ A a s, Ret (a, s).
#[global] Instance M_bind {S} : MBind (M S) := λ A B f m s,
  match m s with
  | Ret (a, s') => f a s'
  | Panic w => Panic w
  | Undef w => Undef w
  | NoFuel => NoFuel
  end.

Lemma bind_ext {S A B} (m : M S A) (f g : A → M S B) s :
  (∀ a s', f a s' = g a s') → (m ≫= f) s = (m ≫= g) s.
Proof. intros H. unfold mbind, M_bind. by destruct (m s) as [[a s']| | |]. Qed.
Lemma bind_assoc {S A B C} (m : M S A) (f : A → M S B) (g : B → M S C) s :
  ((m ≫= f) ≫= g) s = (m ≫= λ a, f a ≫= g) s.
Proof. unfold mbind, M_bind. by destruct (m s) as [[a s']| | |]. Qed.

Section monad_ops.
Context {S : Type}.

Definition getS : M S S := λ s, Ret (s, s).
Definition getsS {A} (f : S → A) : M S A := λ s, Ret (f s, s).
Definition modifyS (f : S → S) : M S unit := λ s, Ret (tt, f s).
Definition panic {A} (w : string) : M S A := λ _, Panic w.
Definition undef {A} (w : string) : M S A := λ _, Undef w.
Definition no_fuel {A} : M S A := λ _, NoFuel.
Definition liftO {A} (o : outcome A) : M S A := λ s,
  match o with
  | Ret a => Ret (a, s)
  | Panic w => Panic w
  | Undef w => Undef w
  | NoFuel => NoFuel
  end.
(** [assert(b)], [AN(p)], [AZ(x)] and the CHECK_OBJ macros. *)
Definition assertM (b : bool) (w : string) : M S unit :=
  if b then mret tt else panic w.
(** A dereference: an absent object is a wild pointer. *)
Definition derefM {A} (o : option A) (w : string) : M S A :=
  match o with Some a => mret a | None => undef w end.

(** [VTAILQ_FOREACH] and [for] over a fixed sequence, for a body that
    does not leave the loop early. *)
Fixpoint forM_ {A} (l : list A) (body : A → M S unit) : M S unit :=
  match l with
  | [] => mret tt
  | x :: l' => _ ← body x; forM_ l' body
  end.
End monad_ops.

Notation "m1 ;;; m2" := (mbind (λ _, m2) m1)
  (at level 100, m2 at level 200, right associativity, only parsing) : stdpp_scope.

(** ** Total correctness: weakest preconditions

    [wp m Q s] says that [m], run in state [s], returns (no assertion
    fails, nothing undefined happens, no fuel runs out) and that its
    result and final state satisfy [Q]. *)
Definition wp {S A} (m : M S A) (Q : A → S → Prop) (s : S) : Prop :=
  match m s with Ret (a, s') => Q a s' | _ => False end.

Section wp_rules.
Context {S : Type}.
Implicit Types (s : S).

Lemma wp_ret {A} (a : A) Q s : wp (mret a) Q s ↔ Q a s.
Proof. done. Qed.
Lemma wp_bind {A B} (m : M S A) (f : A → M S B) Q s :
  wp (m ≫= f) Q s ↔ wp m (λ a, wp (f a) Q) s.
Proof. unfold wp, mbind, M_bind. by destruct (m s) as [[a s']| | |]. Qed.
Lemma wp_mono {A} (m : M S A) (Q Q' : A → S → Prop) s :
  wp m Q s → (∀ a s', Q a s' → Q' a s') → wp m Q' s.
Proof. unfold wp. destruct (m s) as [[a s']| | |]; naive_solver. Qed.
Lemma wp_getS Q s : wp getS Q s ↔ Q s s.
Proof. done. Qed.
Lemma wp_getsS {A} (f : S → A) Q s : wp (getsS f) Q s ↔ Q (f s) s.
Proof. done. Qed.
Lemma wp_modifyS f Q s : wp (modifyS f) Q s ↔ Q tt (f s).
Proof. done. Qed.
Lemma wp_assertM b w Q s : wp (assertM b w) Q s ↔ b = true ∧ Q tt s.
Proof. destruct b; cbv; naive_solver. Qed.
Lemma wp_derefM {A} (o : option A) w Q s :
  wp (derefM o w) Q s ↔ ∃ a, o = Some a ∧ Q a s.
Proof. destruct o; cbv; naive_solver. Qed.
Lemma wp_liftO {A} (o : outcome A) Q s :
  wp (liftO o) Q s ↔ ∃ a, o = Ret a ∧ Q a s.
Proof. destruct o; cbv; naive_solver. Qed.
Lemma wp_run {A} (m : M S A) Q s :
  wp m Q s ↔ ∃ a s', m s = Ret (a, s') ∧ Q a s'.
Proof. unfold wp. destruct (m s) as [[a s']| | |]; naive_solver. Qed.

(** The rule for a [FOREACH] loop: [I] speaks of the visited prefix. *)
Lemma wp_forM_ {A} (I : list A → S → Prop) (l : list A) body s
    (Q : unit → S → Prop) :
  I [] s →
  (∀ seen x todo s', l = seen ++ x :: todo → I seen s' →
     wp (body x) (λ _ : unit, I (seen ++ [x])) s') →
  (∀ s', I l s' → Q tt s') →
  wp (forM_ l body) Q s.
Proof.
  intros H0 Hstep Hend.
  enough (∀ todo seen s', l = seen ++ todo → I seen s' →
    wp (forM_ todo body) Q s') as H by by eapply (H l []).
  induction todo as [|x todo IH]; intros seen s' -> HI; cbn [forM_].
  - apply wp_ret, Hend. by rewrite app_nil_r.
  - apply wp_bind. eapply wp_mono; [by eapply Hstep|].
    intros [] s'' HI'. apply (IH (seen ++ [x])); [|done].
    by rewrite <-(assoc_L (++)).
Qed.
End wp_rules.

#[export] Instance wp_proper {S A} (m : M S A) :
  Proper (pointwise_relation A (pointwise_relation S iff) ==> eq ==> iff) (wp m).
Proof.
  intros Q Q' HQ s ? <-.
  split; intros H; eapply wp_mono; eauto; intros a s'; apply (HQ a s').
Qed.

(** ** Lists *)
Section lists.
Context {A : Type} (P : A → Prop) `{!∀ x, Decision (P x)}.
Implicit Types l : list A.

Lemma filter_none l : (∀ x, x ∈ l → ¬ P x) → filter P l = [].
Proof.
  induction l as [|x l IH]; intros HP; [done|].
  rewrite filter_cons_False by (apply HP; left). apply IH. intros y Hy. apply HP. by right.
Qed.
Lemma filter_all l : (∀ x, x ∈ l → P x) → filter P l = l.
Proof.
  induction l as [|x l IH]; intros HP; [done|].
  rewrite filter_cons_True by (apply HP; left). f_equal. apply IH. intros y Hy. apply HP. by right.
Qed.
End lists.

Lemma filter_ext_in {A} (P Q : A → Prop) `{!∀ x, Decision (P x), !∀ x, Decision (Q x)} (l : list A) :
  (∀ x, x ∈ l → P x ↔ Q x) → filter P l = filter Q l.
Proof.
  induction l as [|x l IH]; intros HPQ; [done|].
  rewrite !filter_cons, IH by (intros y Hy; apply HPQ; by right).
  apply decide_ext, HPQ. left.
Qed.
Lemma NoDup_fmap_filter {A B} (f : A → B) (P : A → Prop) `{!∀ x, Decision (P x)} (l : list A) :
  NoDup (f <$> l) → NoDup (f <$> filter P l).
Proof.
  induction l as [|x l IH]; [done|]. rewrite fmap_cons. intros [Hx Hl]%NoDup_cons.
  rewrite filter_cons. case_decide; [|by apply IH]. rewrite fmap_cons. constructor; [|by apply IH].
  intros (y & Hy & Hin)%list_elem_of_fmap. apply Hx. rewrite Hy.
  apply list_elem_of_fmap_2. by apply list_elem_of_filter in Hin as [_ ?].
Qed.
Lemma NoDup_fst_det {A B} (l : list (A * B)) x y y' :
  NoDup l.*1 → (x, y) ∈ l → (x, y') ∈ l → y = y'.
Proof.
  induction l as [|[a b] l IH]; [set_solver|]. rewrite fmap_cons. simpl.
  intros [Hx Hl]%NoDup_cons [[= -> ->]|H1]%elem_of_cons [[= ->]|H2]%elem_of_cons; try done.
  - by apply (list_elem_of_fmap_2 fst) in H2.
  - subst. by apply (list_elem_of_fmap_2 fst) in H1.
  - by apply IH.
Qed.

Lemma size_list_to_set_le `{Countable A} (l : list A) : size (list_to_set l : gset A) ≤ length l.
Proof.
  induction l as [|x l IH]; [done|]. simpl. rewrite size_union_alt, size_singleton.
  pose proof (subseteq_size ((list_to_set l : gset A) ∖ {[x]}) (list_to_set l)). set_solver by lia.
Qed.
Lemma size_fmap_le `{Countable A, Countable B} (f : A → B) (l : list A) :
  size (list_to_set (f <$> l) : gset B) ≤ size (list_to_set l : gset A).
Proof.
  rewrite (list_to_set_fmap_L (C:=gset A)). unfold set_map.
  etrans; [apply size_list_to_set_le|]. by rewrite length_fmap.
Qed.

(** ** Lists searched by name

    The modules look an element up by a key field with a loop that stops at
    the first hit. *)
Section named.
Context {K V : Type} `{EqDecision K} (f : V → K).
Implicit Types (l : list V) (v x : V) (n : K).

Definition find_named l n : option V := snd <$> list_find (λ v, f v = n) l.

Lemma find_named_cons x l n :
  find_named (x :: l) n = if decide (f x = n) then Some x else find_named l n.
Proof.
  unfold find_named. simpl. case_decide; [done|].
  by destruct (list_find (λ v, f v = n) l) as [[]|].
Qed.
Lemma find_named_None l n : list_find (λ v, f v = n) l = None → find_named l n = None.
Proof. unfold find_named. by intros ->. Qed.
Lemma find_named_Some l n i v :
  list_find (λ v, f v = n) l = Some (i, v) → find_named l n = Some v ∧ l !! i = Some v ∧ f v = n.
Proof. unfold find_named. intros H. rewrite H. by apply list_find_Some in H as (? & ? & _). Qed.
(** Replacing the first element of a name, and taking it out. *)
Lemma find_named_insert l n i v x n' :
  list_find (λ v, f v = n) l = Some (i, v) → f x = n →
  find_named (<[i := x]> l) n' = if decide (n = n') then Some x else find_named l n'.
Proof.
  revert i. induction l as [|y l IH]; intros i; simpl; [done|].
  destruct (decide (f y = n)) as [Hy|Hy].
  { intros Heq Hx. simplify_eq/=. rewrite !find_named_cons. repeat case_decide; congruence. }
  destruct (list_find _ l) as [[j z]|] eqn:Hj; [|done]. intros Heq Hx. simplify_eq/=.
  rewrite !find_named_cons, (IH j) by done. repeat case_decide; congruence.
Qed.
Lemma find_named_delete l n i v n' :
  list_find (λ v, f v = n) l = Some (i, v) → n' ≠ n → find_named (delete i l) n' = find_named l n'.
Proof.
  revert i. induction l as [|y l IH]; intros i; simpl; [done|].
  destruct (decide (f y = n)) as [Hy|Hy].
  { intros Heq Hx. simplify_eq/=. rewrite find_named_cons. case_decide; congruence. }
  destruct (list_find _ l) as [[j z]|] eqn:Hj; [|done]. intros Heq Hx. simplify_eq/=.
  by rewrite !find_named_cons, (IH j).
Qed.
End named.

Create HintDb vmod discriminated.
(** One symbolic-execution step of a [wp] goal, and its iteration.  A
    component adds the rules of its own primitives to [wp_hook]. *)
Ltac wp_hook := fail.
Ltac wp_step :=
  first [ wp_hook |
  lazymatch goal with
  | |- wp (mret _) _ _ => apply wp_ret
  | |- wp (mbind _ _) _ _ => apply wp_bind
  | |- wp getS _ _ => apply wp_getS
  | |- wp (getsS _) _ _ => apply wp_getsS
  | |- wp (modifyS _) _ _ => apply wp_modifyS
  | |- wp (assertM _ _) _ _ => apply wp_assertM; split
  | |- wp (derefM _ _) _ _ => apply wp_derefM; eexists; split
  | |- wp (liftO _) _ _ => apply wp_liftO; eexists; split
  end ].
Ltac wp_go := repeat (wp_step; cbn beta iota).
(** Use a component lemma [H : wp m Q s] for the head of the goal. *)
Ltac wp_use H := eapply wp_mono; [eapply H|cbn beta].
