(* ===== verification/CStr.v ===== *)
(** * C strings

    A NUL-terminated string is the list of its bytes before the NUL; a
    pointer into it is the suffix it points at, so that [*p] is the head of
    the list and [*p == '\0'] is emptiness.  Character classes are those of
    the C locale, where no byte above 127 is a space or a letter.  This file
    models what the sources use of <string.h> and <ctype.h>. *)
From S2P Require Import Prelude.
From Stdlib Require Export Ascii.

Abbreviation bytes := (list ascii).

(** String literals of the sources. *)
Definition str (s : string) : bytes := String.list_ascii_of_string s.

Definition code (c : ascii) : N := N_of_ascii c.
Definition between (lo hi : N) (c : ascii) : bool :=
  (lo <=? code c)%N && (code c <=? hi)%N.

Definition isspace (c : ascii) : bool := (code c =? 32)%N || between 9 13 c.
Definition isblank (c : ascii) : bool := (code c =? 32)%N || (code c =? 9)%N.
Definition tolower (c : ascii) : ascii :=
  if between 65 90 c then ascii_of_N (code c + 32) else c.

(** [while (f( *p)) p++;]: the NUL satisfies none of the predicates used. *)
Fixpoint skip_while (f : ascii → bool) (p : bytes) : bytes :=
  match p with
  | c :: p' => if f c then skip_while f p' else p
  | [] => []
  end.

(** The prefix such a loop walks over. *)
Fixpoint prefix_while (f : ascii → bool) (p : bytes) : bytes :=
  match p with
  | c :: p' => if f c then c :: prefix_while f p' else []
  | [] => []
  end.

(** [strchr(p, c)] for c other than NUL. *)
Fixpoint strchr (p : bytes) (c : ascii) : option bytes :=
  match p with
  | [] => None
  | d :: p' => if decide (d = c) then Some p else strchr p' c
  end.

(** [e - p] for two pointers into one string, [p <= e]. *)
Definition ptrdiff (p e : bytes) : nat := length p - length e.

Definition strndup (p : bytes) (n : nat) : bytes := take n p.

(** [strncasecmp(a, b, n) == 0]. *)
Fixpoint strncaseeq (a b : bytes) (n : nat) : bool :=
  match n, a, b with
  | O, _, _ => true
  | S _, [], [] => true
  | S n', x :: a', y :: b' =>
      if decide (tolower x = tolower y) then strncaseeq a' b' n' else false
  | _, _, _ => false
  end.

(** [memcmp] on two buffers, as the comparison of its result with 0. *)
Fixpoint memcmp (a b : bytes) : comparison :=
  match a, b with
  | x :: a', y :: b' =>
      match (code x ?= code y)%N with Eq => memcmp a' b' | c => c end
  | [], [] => Eq
  | [], _ :: _ => Lt
  | _ :: _, [] => Gt
  end.

Section scanning.
Implicit Types (p q s t : bytes) (f : ascii → bool) (c : ascii).

Lemma prefix_skip f p : prefix_while f p ++ skip_while f p = p.
Proof. induction p as [|c p IH]; simpl; [done|]. destruct (f c); simpl; congruence. Qed.

Lemma prefix_while_Forall f p : Forall (λ c, f c = true) (prefix_while f p).
Proof. induction p as [|c p IH]; simpl; [done|]. destruct (f c) eqn:E; auto. Qed.

Lemma skip_while_length f p : length (skip_while f p) ≤ length p.
Proof. induction p as [|c p IH]; simpl; [lia|]. destruct (f c); simpl; lia. Qed.

Lemma skip_while_idle f p : (∀ c, head p = Some c → f c = false) → skip_while f p = p.
Proof. destruct p as [|c p]; simpl; [done|]. intros H. by rewrite (H c). Qed.

Lemma skip_while_head f p c : head (skip_while f p) = Some c → f c = false.
Proof.
  induction p as [|d p IH]; simpl; [done|].
  destruct (f d) eqn:E; simpl; [done|]. by intros [= <-].
Qed.

Lemma skip_while_idem f p : skip_while f (skip_while f p) = skip_while f p.
Proof. apply skip_while_idle, skip_while_head. Qed.

(** Walking over a word that ends at a byte outside the class. *)
Lemma skip_while_app f w p :
  Forall (λ c, f c = true) w → (∀ c, head p = Some c → f c = false) →
  skip_while f (w ++ p) = p.
Proof.
  intros Hw Hp. induction Hw as [|c w Hc Hw IH]; simpl.
  - by apply skip_while_idle.
  - by rewrite Hc.
Qed.
Lemma prefix_while_app f w p :
  Forall (λ c, f c = true) w → (∀ c, head p = Some c → f c = false) →
  prefix_while f (w ++ p) = w.
Proof.
  intros Hw Hp. induction Hw as [|c w Hc Hw IH]; simpl.
  - destruct p as [|c p]; simpl; [done|]. by rewrite Hp.
  - by rewrite Hc, IH.
Qed.

(** The copy between two scanning pointers is the walked prefix. *)
Lemma strndup_skip f p : strndup p (ptrdiff p (skip_while f p)) = prefix_while f p.
Proof.
  unfold strndup, ptrdiff. pose proof (prefix_skip f p) as H.
  revert H. generalize (prefix_while f p) (skip_while f p). intros w r <-.
  rewrite length_app, Nat.add_sub. apply take_app_length.
Qed.

Lemma strchr_Some p c q :
  strchr p c = Some q ↔ ∃ w r, p = w ++ q ∧ q = c :: r ∧ c ∉ w.
Proof.
  induction p as [|d p IH]; simpl.
  - split; [done|]. intros (w & r & H & -> & _). by destruct w.
  - case_decide as Hd.
    + split; [intros [= <-]; exists [], p; subst; set_solver|].
      intros (w & r & H & -> & Hw).
      destruct w as [|e w]; simplify_eq/=; [done|set_solver].
    + rewrite IH. split.
      * intros (w & r & -> & -> & Hw). exists (d :: w), r. set_solver.
      * intros (w & r & H & -> & Hw).
        destruct w as [|e w]; simplify_eq/=. exists w, r. set_solver.
Qed.
Lemma strchr_None p c : strchr p c = None ↔ c ∉ p.
Proof. induction p; simpl; [set_solver|]. case_decide; set_solver. Qed.
Lemma strchr_app w c r : c ∉ w → strchr (w ++ c :: r) c = Some (c :: r).
Proof. intros H. apply strchr_Some. by exists w, r. Qed.
Lemma strchr_length p c q : strchr p c = Some q → 0 < length q ≤ length p.
Proof.
  intros (w & r & -> & -> & _)%strchr_Some. rewrite length_app. simpl. lia.
Qed.
Lemma strndup_strchr w c r : strndup (w ++ c :: r) (ptrdiff (w ++ c :: r) (c :: r)) = w.
Proof.
  unfold strndup, ptrdiff. rewrite length_app, Nat.add_sub. apply take_app_length.
Qed.

Lemma strndup_strchr_rest w r : strndup (w ++ r) (ptrdiff (w ++ r) r) = w.
Proof.
  unfold strndup, ptrdiff. rewrite length_app, Nat.add_sub. apply take_app_length.
Qed.

Lemma head_app_Some w p c : head (w ++ p) = Some c → w ≠ [] → c ∈ w.
Proof. destruct w; simpl; [done|]. intros [= <-] _. set_solver. Qed.
End scanning.

(** [memcmp] is a decidable total order on byte strings. *)
Lemma memcmp_eq a b : memcmp a b = Eq ↔ a = b.
Proof.
  revert b. induction a as [|x a IH]; intros [|y b]; simpl; try done.
  destruct (N.compare_spec (code x) (code y)) as [H|H|H].
  - rewrite IH. unfold code in H.
    apply (f_equal ascii_of_N) in H. rewrite !ascii_N_embedding in H.
    subst. split; congruence.
  - split; [done|]. intros [= -> ->]. lia.
  - split; [done|]. intros [= -> ->]. lia.
Qed.
Lemma memcmp_antisym a b : memcmp b a = CompOpp (memcmp a b).
Proof.
  revert b. induction a as [|x a IH]; intros [|y b]; simpl; try done.
  rewrite (N.compare_antisym (code x) (code y)).
  by destruct (code x ?= code y)%N; simpl.
Qed.
Lemma memcmp_trans a b c : memcmp a b = Lt → memcmp b c = Lt → memcmp a c = Lt.
Proof.
  revert b c. induction a as [|x a IH]; intros [|y b] [|z c]; simpl; try done.
  destruct (N.compare_spec (code x) (code y)) as [H|H|H];
    destruct (N.compare_spec (code y) (code z)) as [H'|H'|H']; try done;
    destruct (N.compare_spec (code x) (code z)); try lia; eauto.
Qed.

#[export] Hint Resolve skip_while_length : vmod.

Example isspace_tab : isspace "009" = true.
Proof. reflexivity. Qed.
