(* ===== verification/Workspace.v ===== *)
(** * The Varnish runtime the modules call

    Varnish itself (workspaces, the shared log) is not part of this
    repository, so it enters the models as an interface.  [Workspace] is a
    request workspace: an allocation succeeds or reports an overflow (a NULL
    in C), and moves to another workspace either way.  The strings WS_Copy
    and WS_Printf("%s") return are copies of their argument, so only the
    verdict is a parameter.  [WorkspaceLaws] states what the theorems about
    sufficiently large workspaces rely on.  The log is the list of the
    records written, oldest first. *)
From S2P Require Import Prelude CStr.

Class Workspace (W : Type) := {
  WS_Alloc : Z → W → bool * W;      (* WS_Alloc(ws, n) *)
  WS_Printf : bytes → W → bool * W; (* WS_Printf(ws, "%s", v) *)
  WS_Copy : bytes → W → bool * W;   (* WS_Copy(ws, v, -1) *)
  WS_Copyn : Z → W → bool * W;      (* WS_Copy(ws, p, n) *)
}.

(** An allocation costs at most its size and an alignment slack. *)
Definition ws_slack : Z := 16.

Class WorkspaceLaws (W : Type) `{Workspace W} := {
  ws_free : W → Z;
  WS_Alloc_room n w : (0 ≤ n → n + ws_slack ≤ ws_free w →
    (WS_Alloc n w).1 = true ∧ ws_free w - (n + ws_slack) ≤ ws_free (WS_Alloc n w).2)%Z;
  WS_Printf_room v w : (Z.of_nat (length v) + 1 + ws_slack ≤ ws_free w →
    (WS_Printf v w).1 = true ∧
    ws_free w - (Z.of_nat (length v) + 1 + ws_slack) ≤ ws_free (WS_Printf v w).2)%Z;
  WS_Copy_room v w : (Z.of_nat (length v) + 1 + ws_slack ≤ ws_free w →
    (WS_Copy v w).1 = true ∧
    ws_free w - (Z.of_nat (length v) + 1 + ws_slack) ≤ ws_free (WS_Copy v w).2)%Z;
  WS_Copyn_room n w : (0 ≤ n → n + ws_slack ≤ ws_free w →
    (WS_Copyn n w).1 = true ∧ ws_free w - (n + ws_slack) ≤ ws_free (WS_Copyn n w).2)%Z;
}.

(** A workspace that counts the bytes it has left; it runs the examples. *)
Definition take_bytes (n : Z) (w : Z) : bool * Z :=
  if (n <=? w)%Z then (true, w - n)%Z else (false, w).
#[export] Instance byte_counter : Workspace Z := {
  WS_Alloc := take_bytes;
  WS_Printf v := take_bytes (Z.of_nat (length v) + 1);
  WS_Copy v := take_bytes (Z.of_nat (length v) + 1);
  WS_Copyn := take_bytes;
}.
Lemma take_bytes_room n w : (0 ≤ n → n + ws_slack ≤ w →
  (take_bytes n w).1 = true ∧ w - (n + ws_slack) ≤ (take_bytes n w).2)%Z.
Proof.
  unfold take_bytes, ws_slack. intros H1 H2.
  destruct (Z.leb_spec n w); simpl; split; try done; lia.
Qed.
#[export] Instance byte_counter_laws : WorkspaceLaws Z.
Proof.
  refine {| ws_free w := w |}; simpl; intros; apply take_bytes_room; lia.
Defined.

(** Log tags (enum VSL_tag_e) the sources write. *)
Inductive slt := SLT_VCL_Log | SLT_VCL_Error | SLT_LostHeader | SLT_Debug | SLT_Hash.
#[export] Instance slt_eq_dec : EqDecision slt.
Proof. solve_decision. Defined.
Abbreviation vsl_log := (list (slt * bytes)).

(** ** Tasks

    What a module function sees of its caller: the module's own state [P]
    (what priv->priv points at, or the module's globals), the request
    workspace and the shared log. *)
Record task (P W : Type) := Task { priv : P; ws : W; vsl : vsl_log }.
Arguments Task {P W} _ _ _.
Arguments priv {P W} _.
Arguments ws {P W} _.
Arguments vsl {P W} _.

Section task_ops.
Context {P W : Type}.
Implicit Types (s : task P W).

Definition set_priv (p : P) : M (task P W) unit :=
  modifyS (λ s, Task p (ws s) (vsl s)).
Definition VSLb (tag : slt) (msg : bytes) : M (task P W) unit :=
  modifyS (λ s, Task (priv s) (ws s) (vsl s ++ [(tag, msg)])).
(** A workspace call: true is a pointer, false is NULL. *)
Definition ws_call (f : W → bool * W) : M (task P W) bool := λ s,
  let '(ok, w) := f (ws s) in Ret (ok, Task (priv s) w (vsl s)).

Lemma wp_set_priv p Q s : wp (set_priv p) Q s ↔ Q tt (Task p (ws s) (vsl s)).
Proof. done. Qed.
Lemma wp_VSLb t m Q s :
  wp (VSLb t m) Q s ↔ Q tt (Task (priv s) (ws s) (vsl s ++ [(t, m)])).
Proof. done. Qed.
Lemma wp_ws_call f Q s :
  wp (ws_call f) Q s ↔ Q (f (ws s)).1 (Task (priv s) (f (ws s)).2 (vsl s)).
Proof. unfold wp, ws_call. by destruct (f (ws s)). Qed.

(** The rules for the calls: the verdict is open, but it is a success
    when the workspace has room. *)
Context `{WorkspaceLaws W}.
Lemma wp_ws_call_cost f k Q s :
  (∀ w, k ≤ ws_free w → (f w).1 = true ∧ ws_free w - k ≤ ws_free (f w).2)%Z →
  (∀ ok w, (k ≤ ws_free (ws s) → ok = true ∧ ws_free (ws s) - k ≤ ws_free w)%Z →
     Q ok (Task (priv s) w (vsl s))) →
  wp (ws_call f) Q s.
Proof. intros Hf HQ. apply wp_ws_call, HQ, Hf. Qed.
Lemma wp_WS_Alloc n Q s :
  (0 ≤ n)%Z →
  (∀ ok w, (n + ws_slack ≤ ws_free (ws s) →
     ok = true ∧ ws_free (ws s) - (n + ws_slack) ≤ ws_free w)%Z →
     Q ok (Task (priv s) w (vsl s))) →
  wp (ws_call (WS_Alloc n)) Q s.
Proof. intros Hn. apply wp_ws_call_cost. intros w. by apply WS_Alloc_room. Qed.
Lemma wp_WS_Printf v Q s :
  (∀ ok w, (Z.of_nat (length v) + 1 + ws_slack ≤ ws_free (ws s) →
     ok = true ∧ ws_free (ws s) - (Z.of_nat (length v) + 1 + ws_slack) ≤ ws_free w)%Z →
     Q ok (Task (priv s) w (vsl s))) →
  wp (ws_call (WS_Printf v)) Q s.
Proof. apply wp_ws_call_cost. intros w. by apply WS_Printf_room. Qed.
Lemma wp_WS_Copy v Q s :
  (∀ ok w, (Z.of_nat (length v) + 1 + ws_slack ≤ ws_free (ws s) →
     ok = true ∧ ws_free (ws s) - (Z.of_nat (length v) + 1 + ws_slack) ≤ ws_free w)%Z →
     Q ok (Task (priv s) w (vsl s))) →
  wp (ws_call (WS_Copy v)) Q s.
Proof. apply wp_ws_call_cost. intros w. by apply WS_Copy_room. Qed.
Lemma wp_WS_Copyn n Q s :
  (0 ≤ n)%Z →
  (∀ ok w, (n + ws_slack ≤ ws_free (ws s) →
     ok = true ∧ ws_free (ws s) - (n + ws_slack) ≤ ws_free w)%Z →
     Q ok (Task (priv s) w (vsl s))) →
  wp (ws_call (WS_Copyn n)) Q s.
Proof. intros Hn. apply wp_ws_call_cost. intros w. by apply WS_Copyn_room. Qed.
End task_ops.

Ltac wp_hook ::=
  lazymatch goal with
  | |- wp (set_priv _) _ _ => apply wp_set_priv; cbn [priv ws vsl]
  | |- wp (VSLb _ _) _ _ => apply wp_VSLb; cbn [priv ws vsl]
  | |- wp (ws_call (WS_Alloc _)) _ _ => apply wp_WS_Alloc; cbn [priv ws vsl]
  | |- wp (ws_call (WS_Printf _)) _ _ => apply wp_WS_Printf; cbn [priv ws vsl]
  | |- wp (ws_call (WS_Copy _)) _ _ => apply wp_WS_Copy; cbn [priv ws vsl]
  | |- wp (ws_call (WS_Copyn _)) _ _ => apply wp_WS_Copyn; cbn [priv ws vsl]
  end.

(** [%i], [%u]: decimal numerals. *)
Definition print_Z (z : Z) : bytes := str (pretty z).
