(* ===== verification/Double.v ===== *)
(** * C doubles and longs

    A [double] is an IEEE 754 binary64 number with round-to-nearest-even,
    computed by the Standard Library's executable [SpecFloat] at precision
    53 and exponent bound 1024, so the modules' time arithmetic runs here bit
    for bit (no axiom is involved).  A [long] is a 64-bit two's complement
    integer, a [Z] whose overflow is undefined behaviour; [unsigned] is
    32 bits wide and wraps. *)
From S2P Require Import Prelude CStr Workspace.
From Stdlib Require Export Floats.SpecFloat.

Abbreviation double := spec_float.
Definition dadd : double → double → double := SFadd 53 1024.
Definition dsub : double → double → double := SFsub 53 1024.
Definition dmul : double → double → double := SFmul 53 1024.
Definition ddiv : double → double → double := SFdiv 53 1024.
(** [a < b], [a <= b]; false when an operand is a NaN. *)
Definition dltb : double → double → bool := SFltb.
Definition dleb : double → double → bool := SFleb.
Definition dzero : double := S754_zero false.
(** Conversion of an integer, rounded to nearest even. *)
Definition d_of_Z (z : Z) : double := binary_normalize 53 1024 z 0 false.

#[export] Instance double_eq_dec : EqDecision double.
Proof. solve_decision. Defined.

(** Every double of a C program is a canonical binary64 number. *)
Definition dvalid (x : double) : Prop := valid_binary 53 1024 x = true.

(** ** Integers *)
Definition LONG_MAX : Z := 2 ^ 63 - 1.
Definition LONG_MIN : Z := - 2 ^ 63.
Definition in_long (z : Z) : bool := (LONG_MIN <=? z)%Z && (z <=? LONG_MAX)%Z.
Definition u32 (z : Z) : Z := (z mod 2 ^ 32)%Z.
(** Signed 32-bit conversion (int): two's complement truncation. *)
Definition s32 (z : Z) : Z := ((z + 2 ^ 31) mod 2 ^ 32 - 2 ^ 31)%Z.

(** [(long)x]: truncation toward zero, undefined when it does not fit. *)
Definition dtrunc (x : double) : option Z :=
  match x with
  | S754_zero _ => Some 0%Z
  | S754_finite s m e =>
      let a := if (0 <=? e)%Z then (Z.pos m * 2 ^ e)%Z else (Z.pos m / 2 ^ (- e))%Z in
      let z := cond_Zopp s a in
      if in_long z then Some z else None
  | _ => None
  end.

(** printf's ["%.2f"]: the exact value rounded to hundredths, ties to even. *)
Definition hundredths (m : positive) (e : Z) : Z :=
  let n := (Z.pos m * 100)%Z in
  if (0 <=? e)%Z then (n * 2 ^ e)%Z
  else
    let d := (2 ^ (- e))%Z in
    let q := (n / d)%Z in
    match (2 * (n mod d) ?= d)%Z with
    | Lt => q
    | Eq => if Z.even q then q else (q + 1)%Z
    | Gt => (q + 1)%Z
    end.
Definition print_f2 (x : double) : bytes :=
  let sgn (s : bool) := if s then str "-" else [] in
  let num (z : Z) :=
    print_Z (z / 100) ++ str "." ++ print_Z (z / 10 mod 10) ++ print_Z (z mod 10) in
  match x with
  | S754_nan => str "nan"
  | S754_infinity s => sgn s ++ str "inf"
  | S754_zero s => sgn s ++ num 0%Z
  | S754_finite s m e => sgn s ++ num (hundredths m e)
  end.

(** ** Signs *)
(** None for a NaN, else the sign bit. *)
Definition dsign (x : double) : option bool :=
  match x with
  | S754_nan => None
  | S754_zero s | S754_infinity s | S754_finite s _ _ => Some s
  end.
(** Not a NaN and not below zero. *)
Definition dnonneg (x : double) : bool :=
  match x with
  | S754_zero _ => true
  | S754_infinity s | S754_finite s _ _ => negb s
  | S754_nan => false
  end.
(** Above zero. *)
Definition dpos (x : double) : bool :=
  match x with
  | S754_infinity s | S754_finite s _ _ => negb s
  | _ => false
  end.

Section signs.
Lemma dnonneg_leb x : dleb dzero x = dnonneg x.
Proof. by destruct x as [|[]| |[] m e]. Qed.
Lemma dpos_ltb x : dltb dzero x = dpos x.
Proof. by destruct x as [|[]| |[] m e]. Qed.

(** Rounding keeps the sign (or gives up on a NaN). *)
Lemma binary_round_aux_sign sx mx ex lx :
  dsign (binary_round_aux 53 1024 sx mx ex lx) = None ∨
  dsign (binary_round_aux 53 1024 sx mx ex lx) = Some sx.
Proof.
  unfold binary_round_aux. destruct (shr_fexp 53 1024 mx ex lx) as [mrs' e'].
  destruct (shr_fexp 53 1024 _ e' loc_Exact) as [mrs'' e''].
  destruct (shr_m mrs''); simpl; auto. case_match; simpl; auto.
Qed.
Lemma binary_round_aux_nonneg mx ex lx :
  binary_round_aux 53 1024 false mx ex lx = S754_nan ∨
  dnonneg (binary_round_aux 53 1024 false mx ex lx) = true.
Proof.
  destruct (binary_round_aux_sign false mx ex lx) as [Hs|Hs];
    destruct (binary_round_aux 53 1024 false mx ex lx) as [|[]| |[]]; simplify_eq/=; auto.
Qed.

Lemma ddiv_nonneg x y :
  dnonneg x = true → dpos y = true → ddiv x y = S754_nan ∨ dnonneg (ddiv x y) = true.
Proof.
  unfold ddiv. destruct x as [|[]| |[] mx ex], y as [|[]| |[] my ey]; simpl; try done; auto.
  intros _ _. destruct (SFdiv_core_binary _ _ _ _ _ _) as [[mz ez] lz].
  apply binary_round_aux_nonneg.
Qed.
Lemma dmul_nonneg x y :
  dnonneg x = true → dnonneg y = true → dmul x y = S754_nan ∨ dnonneg (dmul x y) = true.
Proof.
  unfold dmul. destruct x as [|[]| |[] mx ex], y as [|[]| |[] my ey]; simpl; try done; auto.
  intros _ _. apply binary_round_aux_nonneg.
Qed.
Lemma d_of_Z_nonneg z : (0 ≤ z)%Z → d_of_Z z = S754_nan ∨ dnonneg (d_of_Z z) = true.
Proof.
  unfold d_of_Z. destruct z as [|p|p]; simpl; [auto| |lia]. intros _.
  unfold binary_round. destruct (shl_align p 0 _) as [mz ez].
  apply binary_round_aux_nonneg.
Qed.
Lemma dtrunc_nonneg x z : dnonneg x = true → dtrunc x = Some z → (0 ≤ z)%Z.
Proof.
  destruct x as [|[]| |[] m e]; simpl; try done; intros _; [by intros [= <-]|].
  case_match; [|done]. intros [= <-]. case_match eqn:He.
  - apply Z.leb_le in He. apply Z.mul_nonneg_nonneg; [lia|by apply Z.pow_nonneg].
  - apply Z.leb_gt in He. apply Z.div_pos; [lia|apply Z.pow_pos_nonneg; lia].
Qed.
End signs.

(** ** Order *)
Definition dfinite (x : double) : bool :=
  match x with S754_zero _ | S754_finite _ _ _ => true | _ => false end.

Section order.
Lemma dleb_refl x : x ≠ S754_nan → dleb x x = true.
Proof.
  unfold dleb, SFleb. destruct x as [|[]| |[] m e]; simpl; try done; intros _;
    by rewrite Z.compare_refl; simpl; rewrite ?Pos.compare_cont_refl.
Qed.
(** A comparison key: sign, exponent and significand, in that order. *)
Lemma dleb_trans x y z : dleb x y = true → dleb y z = true → dleb x z = true.
Proof.
  unfold dleb, SFleb.
  destruct x as [|[]| |[] mx ex], y as [|[]| |[] my ey], z as [|[]| |[] mz ez];
    simpl; try done;
    change (Pos.compare_cont Eq ?a ?b) with (Pos.compare a b) in *;
    destruct (Z.compare_spec ex ey), (Z.compare_spec ey ez), (Z.compare_spec ex ez);
    try done; try lia; simpl;
    destruct (Pos.compare_spec mx my), (Pos.compare_spec my mz), (Pos.compare_spec mx mz);
    simpl; try done; try lia.
Qed.
Lemma dltb_dleb x y : dltb x y = true → dleb x y = true.
Proof. unfold dltb, dleb, SFltb, SFleb. by destruct (SFcompare x y) as [[]|]. Qed.
Lemma dltb_irrefl x : dltb x x = false.
Proof.
  unfold dltb, SFltb. destruct x as [|[]| |[] m e]; simpl; try done;
    by rewrite Z.compare_refl; simpl; rewrite ?Pos.compare_cont_refl.
Qed.
End order.

(** ** A later time less an earlier one is not negative *)
Section subtraction.
Lemma iter_shr_nonneg p r : (0 ≤ shr_m r)%Z → (0 ≤ shr_m (iter_pos shr_1 p r))%Z.
Proof.
  assert (∀ r, (0 ≤ shr_m r)%Z → (0 ≤ shr_m (shr_1 r))%Z) as H1.
  { intros [[|[]|]]; simpl; lia. }
  revert r. induction p as [p IH|p IH|]; intros r Hr; simpl; auto.
Qed.
Lemma shr_fexp_nonneg m e l : (0 ≤ m)%Z → (0 ≤ shr_m (shr_fexp 53 1024 m e l).1)%Z.
Proof.
  intros Hm. unfold shr_fexp, shr.
  assert (0 ≤ shr_m (shr_record_of_loc m l))%Z by by destruct l as [|[]].
  case_match; simpl; [done|by apply iter_shr_nonneg|done].
Qed.
Lemma binary_round_aux_pos mx ex lx :
  (0 ≤ mx)%Z → dnonneg (binary_round_aux 53 1024 false mx ex lx) = true.
Proof.
  intros Hm. unfold binary_round_aux.
  pose proof (shr_fexp_nonneg mx ex lx Hm) as H1.
  destruct (shr_fexp 53 1024 mx ex lx) as [r1 e1]. simpl in H1.
  assert (0 ≤ round_nearest_even (shr_m r1) (loc_of_shr_record r1))%Z as H2.
  { unfold round_nearest_even. repeat case_match; lia. }
  pose proof (shr_fexp_nonneg _ e1 loc_Exact H2) as H3.
  destruct (shr_fexp 53 1024 _ e1 loc_Exact) as [r2 e2]. simpl in H3.
  destruct (shr_m r2); simpl; [done| |lia]. by case_match.
Qed.
Lemma binary_normalize_nonneg m e :
  (0 ≤ m)%Z → dnonneg (binary_normalize 53 1024 m e false) = true.
Proof.
  intros Hm. destruct m as [|p|p]; simpl; [done| |lia].
  unfold binary_round. destruct (shl_align p e _). by apply binary_round_aux_pos.
Qed.

Lemma iter_xO p d : Z.pos (Pos.iter xO p d) = (Z.pos p * 2 ^ Z.pos d)%Z.
Proof.
  induction d as [|d IH] using Pos.peano_ind; [simpl; lia|].
  rewrite Pos.iter_succ, Pos2Z.inj_xO, IH, Pos2Z.inj_succ, Z.pow_succ_r by lia. lia.
Qed.
Lemma shl_align_value m e ez :
  (ez ≤ e)%Z → Z.pos (shl_align m e ez).1 = (Z.pos m * 2 ^ (e - ez))%Z.
Proof.
  intros He. unfold shl_align. destruct (ez - e)%Z as [|p|p] eqn:E; simpl; [|lia|].
  - replace (e - ez)%Z with 0%Z by lia. simpl. lia.
  - rewrite iter_xO. do 2 f_equal. lia.
Qed.

Lemma digits2_bounds m :
  (2 ^ (Z.pos (digits2_pos m) - 1) ≤ Z.pos m < 2 ^ Z.pos (digits2_pos m))%Z.
Proof.
  assert (∀ d m', (1 ≤ d → 2 ^ (d - 1) ≤ m' < 2 ^ d →
    ∀ b, 0 ≤ b ≤ 1 → 2 ^ (Z.succ d - 1) ≤ 2 * m' + b < 2 ^ (Z.succ d))%Z) as Hstep.
  { intros d m' Hd [H1 H2] b Hb.
    replace (Z.succ d - 1)%Z with (Z.succ (d - 1)) by lia.
    rewrite !Z.pow_succ_r by lia. lia. }
  induction m as [m IH|m IH|]; cbn [digits2_pos].
  - rewrite Pos2Z.inj_succ, Pos2Z.inj_xI. apply (Hstep (Z.pos (digits2_pos m)) (Z.pos m)); [lia|done|lia].
  - rewrite Pos2Z.inj_succ.
    replace (Z.pos m~0) with (2 * Z.pos m + 0)%Z by lia.
    apply (Hstep (Z.pos (digits2_pos m)) (Z.pos m)); [lia|done|lia].
  - done.
Qed.

(** *** Integers of 64 bits are finite doubles *)
Lemma iter_shr_le p r :
  (0 ≤ shr_m r)%Z → (shr_m (iter_pos shr_1 p r) ≤ shr_m r)%Z.
Proof.
  assert (∀ r, 0 ≤ shr_m r → 0 ≤ shr_m (shr_1 r) ≤ shr_m r)%Z as H1.
  { intros [[|[]|]]; simpl; lia. }
  intros Hr. enough (0 ≤ shr_m (iter_pos shr_1 p r) ≤ shr_m r)%Z by lia.
  revert r Hr. induction p as [p IH|p IH|]; intros r Hr; simpl; [|..|by apply H1].
  - pose proof (H1 r Hr). pose proof (IH (shr_1 r)). pose proof (IH (iter_pos shr_1 p (shr_1 r))). lia.
  - pose proof (IH r). pose proof (IH (iter_pos shr_1 p r)). lia.
Qed.
Lemma shr_fexp_small m e l :
  (0 ≤ m ≤ 2 ^ 64 → -1074 ≤ e →
   0 ≤ shr_m (shr_fexp 53 1024 m e l).1 ≤ m ∧
   -1074 ≤ (shr_fexp 53 1024 m e l).2 ≤ e + 12)%Z.
Proof.
  intros Hm He. unfold shr_fexp, shr.
  assert (shr_m (shr_record_of_loc m l) = m) as Hr by by destruct l as [|[]].
  assert (Zdigits2 m ≤ 65)%Z as Hd.
  { destruct m as [|p|p]; [done| |lia]. unfold Zdigits2. pose proof (digits2_bounds p).
    assert (Z.pos (digits2_pos p) - 1 ≤ 64)%Z; [|lia].
    apply (Z.pow_le_mono_r_iff 2); lia. }
  assert (fexp 53 1024 (Zdigits2 m + e) - e ≤ 12)%Z as Hf by (unfold fexp, SpecFloat.emin; lia).
  case_match eqn:Hp; simpl; [lia| |lia].
  pose proof (iter_shr_nonneg p (shr_record_of_loc m l)).
  pose proof (iter_shr_le p (shr_record_of_loc m l)). lia.
Qed.
Lemma binary_round_aux_small sx mx ex lx :
  (0 ≤ mx < 2 ^ 64 → -1074 ≤ ex ≤ 0 →
   dfinite (binary_round_aux 53 1024 sx mx ex lx) = true)%Z.
Proof.
  intros Hm He. unfold binary_round_aux.
  pose proof (shr_fexp_small mx ex lx) as H1.
  destruct (shr_fexp 53 1024 mx ex lx) as [r1 e1]. cbn [fst snd] in H1.
  assert (0 ≤ round_nearest_even (shr_m r1) (loc_of_shr_record r1) ≤ 2 ^ 64)%Z as H2.
  { unfold round_nearest_even. repeat case_match; lia. }
  pose proof (shr_fexp_small _ e1 loc_Exact H2) as H3.
  destruct (shr_fexp 53 1024 _ e1 loc_Exact) as [r2 e2]. cbn [fst snd] in H3.
  destruct (shr_m r2); [done| |lia].
  destruct (Z.leb_spec e2 (1024 - 53)); [done|lia].
Qed.
Lemma d_of_Z_finite z : (Z.abs z < 2 ^ 64)%Z → dfinite (d_of_Z z) = true.
Proof.
  assert (∀ sx p, Z.pos p < 2 ^ 64 → dfinite (binary_round 53 1024 sx p 0) = true)%Z as Hpos.
  { intros sx p Hp. unfold binary_round.
    set (ez := fexp 53 1024 (Z.pos (digits2_pos p) + 0)).
    pose proof (digits2_bounds p) as [Hlo Hhi].
    assert (Z.pos (digits2_pos p) ≤ 64)%Z as Hd.
    { assert (Z.pos (digits2_pos p) - 1 < 64)%Z; [|lia].
      apply (Z.pow_lt_mono_r_iff 2); lia. }
    unfold shl_align. destruct (ez - 0)%Z as [|q|q] eqn:Hz;
      [by apply binary_round_aux_small; lia..|].
    assert (ez = Z.neg q) as Hez by lia. apply binary_round_aux_small.
    - rewrite iter_xO. split; [lia|].
      assert (Z.pos q = 53 - Z.pos (digits2_pos p))%Z as Hq
        by (unfold ez, fexp, SpecFloat.emin in Hez; lia).
      rewrite Hq. assert (0 < 2 ^ (53 - Z.pos (digits2_pos p)))%Z
        by (apply Z.pow_pos_nonneg; lia).
      apply Z.lt_le_trans with (2 ^ Z.pos (digits2_pos p) * 2 ^ (53 - Z.pos (digits2_pos p)))%Z.
      { by apply Z.mul_lt_mono_pos_r. }
      rewrite <-Z.pow_add_r by lia. by apply Z.pow_le_mono_r; lia.
    - split; [unfold ez, fexp, SpecFloat.emin|]; lia. }
  unfold d_of_Z. destruct z as [|p|p]; simpl; [done|apply Hpos; lia..].
Qed.

(** Canonical significands order numbers of different exponents. *)
Lemma bounded_exponent m e m' e' :
  bounded 53 1024 m e = true → bounded 53 1024 m' e' = true → (e < e')%Z →
  (Z.pos m ≤ Z.pos m' * 2 ^ (e' - e))%Z.
Proof.
  unfold bounded, canonical_mantissa, fexp, emin.
  intros [H1%Z.eqb_eq _]%andb_true_iff [H2%Z.eqb_eq _]%andb_true_iff He.
  pose proof (digits2_bounds m). pose proof (digits2_bounds m').
  assert (Z.pos (digits2_pos m') = 53)%Z as Hd' by lia.
  assert (Z.pos (digits2_pos m) ≤ 53)%Z as Hd by lia.
  rewrite Hd' in *. change (53 - 1)%Z with 52%Z in *.
  assert (Z.pos m < 2 ^ 53)%Z.
  { eapply Z.lt_le_trans; [apply H|]. apply Z.pow_le_mono_r; lia. }
  assert (2 ^ 1 ≤ 2 ^ (e' - e))%Z by (apply Z.pow_le_mono_r; lia).
  replace (2 ^ 53)%Z with (2 ^ 52 * 2)%Z in * by done. nia.
Qed.

(** Magnitudes of canonical numbers are ordered by exponent, then
    significand. *)
Definition lexle (m : positive) (e : Z) (m' : positive) (e' : Z) : Prop :=
  (e < e' ∨ e = e' ∧ Z.pos m ≤ Z.pos m')%Z.
Lemma lexle_value m e m' e' ez :
  bounded 53 1024 m e = true → bounded 53 1024 m' e' = true →
  (ez ≤ e)%Z → (ez ≤ e')%Z → lexle m e m' e' →
  (Z.pos m * 2 ^ (e - ez) ≤ Z.pos m' * 2 ^ (e' - ez))%Z.
Proof.
  intros Hb Hb' Hz Hz' [He|[-> Hm]].
  - pose proof (bounded_exponent m e m' e' Hb Hb' He) as H.
    replace (e' - ez)%Z with ((e' - e) + (e - ez))%Z by lia.
    rewrite Z.pow_add_r by lia.
    assert (0 < 2 ^ (e - ez))%Z by (apply Z.pow_pos_nonneg; lia). nia.
  - assert (0 < 2 ^ (e' - ez))%Z by (apply Z.pow_pos_nonneg; lia). nia.
Qed.
Lemma dleb_finite s m e s' m' e' :
  dleb (S754_finite s m e) (S754_finite s' m' e') = true →
  match s, s' with
  | false, false => lexle m e m' e'
  | true, true => lexle m' e' m e
  | true, false => True
  | false, true => False
  end.
Proof.
  unfold dleb, SFleb, lexle. destruct s, s'; simpl; try done;
    change (PosDef.Pos.compare_cont Eq m m') with (Pos.compare m m');
    destruct (Z.compare_spec e e'); simpl; try done; try lia;
    destruct (Pos.compare_spec m m'); simpl; try done; lia.
Qed.

Lemma dsub_nonneg x y :
  dvalid x → dvalid y → dfinite x = true → dfinite y = true →
  dleb y x = true → dnonneg (dsub x y) = true.
Proof.
  unfold dvalid, dsub.
  destruct x as [sx| | |sx mx ex], y as [sy| | |sy my ey]; try done.
  - by destruct sx, sy.
  - intros _ _ _ _. by destruct sx, sy.
  - intros _ _ _ _. by destruct sx, sy.
  - intros Hx Hy _ _ Hc%dleb_finite. apply binary_normalize_nonneg.
    rewrite !shl_align_value by lia.
    assert (0 < 2 ^ (ex - Z.min ex ey))%Z by (apply Z.pow_pos_nonneg; lia).
    assert (0 < 2 ^ (ey - Z.min ex ey))%Z by (apply Z.pow_pos_nonneg; lia).
    destruct sx, sy; cbn [cond_Zopp] in *; try done.
    + apply (lexle_value _ _ _ _ (Z.min ex ey)) in Hc; try done; lia.
    + lia.
    + apply (lexle_value _ _ _ _ (Z.min ex ey)) in Hc; try done; lia.
Qed.

(** No time passes between equal times. *)
Lemma dsub_diag x : dfinite x = true → dsub x x = dzero.
Proof.
  unfold dsub, dzero. destruct x as [[]| | |s m e]; simpl; try done. intros _.
  by rewrite Z.sub_diag.
Qed.
End subtraction.

(** ** Representations in memory (little endian, as on LP64 targets) *)
Fixpoint le_bytes (n : nat) (z : Z) : bytes :=
  match n with
  | O => []
  | S n => ascii_of_N (Z.to_N (z mod 256)) :: le_bytes n (z / 256)
  end.
Definition sizeof_long : nat := 8.
Definition long_bytes (z : Z) : bytes := le_bytes sizeof_long (z mod 2 ^ 64).

(** The 64 bits of a double: sign, biased exponent, fraction. *)
Definition d_bits (x : double) : Z :=
  let sgn (s : bool) := (if s then 2 ^ 63 else 0)%Z in
  match x with
  | S754_zero s => sgn s
  | S754_infinity s => (sgn s + 2047 * 2 ^ 52)%Z
  | S754_nan => (2047 * 2 ^ 52 + 2 ^ 51)%Z
  | S754_finite s m e =>
      if (Z.pos m <? 2 ^ 52)%Z then (sgn s + Z.pos m)%Z
      else (sgn s + (e + 1075) * 2 ^ 52 + (Z.pos m - 2 ^ 52))%Z
  end.
Definition d_of_bits (z : Z) : double :=
  let s := (2 ^ 63 <=? z)%Z in
  let a := (z mod 2 ^ 63)%Z in
  let e := (a / 2 ^ 52)%Z in
  let m := (a mod 2 ^ 52)%Z in
  if (e =? 2047)%Z then if (m =? 0)%Z then S754_infinity s else S754_nan
  else if (e =? 0)%Z then
    match m with Z.pos p => S754_finite s p (-1074) | _ => S754_zero s end
  else S754_finite s (Z.to_pos (m + 2 ^ 52)) (e - 1075).
Definition double_bytes (x : double) : bytes := le_bytes 8 (d_bits x).

Section memory.
Lemma le_bytes_length n z : length (le_bytes n z) = n.
Proof. revert z. induction n as [|n IH]; intros z; simpl; auto. Qed.

Lemma byte_inj a b : (0 ≤ a < 256 → 0 ≤ b < 256 →
  ascii_of_N (Z.to_N a) = ascii_of_N (Z.to_N b) → a = b)%Z.
Proof.
  intros Ha Hb Heq%(f_equal N_of_ascii).
  rewrite !N_ascii_embedding in Heq by lia. lia.
Qed.
Lemma le_bytes_inj n a b :
  (0 ≤ a < 256 ^ Z.of_nat n → 0 ≤ b < 256 ^ Z.of_nat n →
   le_bytes n a = le_bytes n b → a = b)%Z.
Proof.
  revert a b. induction n as [|n IH]; intros a b; [simpl; lia|].
  rewrite Nat2Z.inj_succ, Z.pow_succ_r by lia. intros Ha Hb [= Hh Ht].
  apply byte_inj in Hh; [|apply Z.mod_pos_bound; lia..].
  apply IH in Ht; [|split; [apply Z.div_pos|apply Z.div_lt_upper_bound]; lia..].
  rewrite (Z.div_mod a 256), (Z.div_mod b 256) by lia. congruence.
Qed.

(** A canonical mantissa and exponent are in the format's ranges. *)
Lemma bounded_ranges m e : bounded 53 1024 m e = true →
  (Z.pos m < 2 ^ 53 ∧ -1074 ≤ e ≤ 971 ∧ (Z.pos m < 2 ^ 52 → e = -1074))%Z.
Proof.
  unfold bounded, canonical_mantissa. intros [Hc%Z.eqb_eq He%Z.leb_le]%andb_prop.
  unfold fexp, SpecFloat.emin in Hc. pose proof (digits2_bounds m) as [Hlo Hhi].
  set (d := Z.pos (digits2_pos m)) in *.
  assert (d ≤ 53)%Z by lia.
  assert (2 ^ d ≤ 2 ^ 53)%Z by (apply Z.pow_le_mono_r; lia).
  split; [lia|]. split; [lia|]. intros Hm.
  assert (d - 1 < 52)%Z; [|lia]. apply (Z.pow_lt_mono_r_iff 2); lia.
Qed.

(** The encoding loses nothing. *)
Lemma d_of_bits_bits x : dvalid x → d_of_bits (d_bits x) = x.
Proof.
  unfold dvalid. destruct x as [[]|[]| |s m e]; try done.
  cbn [valid_binary]. intros (Hm & He & Hsub)%bounded_ranges. unfold d_bits, d_of_bits.
  set (k := if s then (2 ^ 63)%Z else 0%Z).
  assert (∀ a, 0 ≤ a < 2 ^ 63 →
    (2 ^ 63 <=? k + a) = s ∧ (k + a) mod 2 ^ 63 = a)%Z as Hsgn.
  { intros a Ha. subst k. destruct s.
    - split; [apply Z.leb_le; lia|]. symmetry. apply Z.mod_unique with 1%Z; lia.
    - rewrite Z.add_0_l, Z.mod_small by lia. split; [apply Z.leb_gt; lia|done]. }
  destruct (Z.ltb_spec (Z.pos m) (2 ^ 52)) as [Hlt|Hge].
  - destruct (Hsgn (Z.pos m)) as [-> ->]; [lia|].
    rewrite Z.div_small, Z.mod_small by lia. by rewrite Hsub.
  - rewrite <-Z.add_assoc. set (a := ((e + 1075) * 2 ^ 52 + (Z.pos m - 2 ^ 52))%Z).
    assert (a / 2 ^ 52 = e + 1075)%Z as Hdiv by (symmetry; apply Z.div_unique with (Z.pos m - 2 ^ 52)%Z; lia).
    assert (a mod 2 ^ 52 = Z.pos m - 2 ^ 52)%Z as Hmod
      by (symmetry; apply Z.mod_unique with (e + 1075)%Z; lia).
    destruct (Hsgn a) as [-> ->]; [lia|]. rewrite Hdiv, Hmod.
    destruct (Z.eqb_spec (e + 1075) 2047); [lia|].
    destruct (Z.eqb_spec (e + 1075) 0); [lia|].
    rewrite Z.sub_add. f_equal. lia.
Qed.
Lemma d_bits_range x : dvalid x → (0 ≤ d_bits x < 2 ^ 64)%Z.
Proof.
  unfold dvalid. destruct x as [[]|[]| |s m e]; try done.
  cbn [valid_binary]. intros (Hm & He & Hsub)%bounded_ranges. unfold d_bits.
  destruct (Z.ltb_spec (Z.pos m) (2 ^ 52)); destruct s; lia.
Qed.
Lemma double_bytes_inj x y : dvalid x → dvalid y → double_bytes x = double_bytes y → x = y.
Proof.
  intros Hx Hy He. apply le_bytes_inj in He; [|by apply d_bits_range..].
  rewrite <-(d_of_bits_bits x), <-(d_of_bits_bits y), He by done. done.
Qed.
End memory.

Example twenty_seconds : print_f2 (d_of_Z 20) = str "20.00".
Proof. by vm_compute. Qed.
