(* ===== verification/DoubleRound.v ===== *)
(** * Rounding keeps lower bounds

    What the theorems about vmod_vsthrottle.c need of binary64 arithmetic
    beyond Double.v: an exact result that is at least a double [v] is rounded
    to a double that is at least [v].  From it: a quotient of a number by a
    smaller one is at least 1, a product with such a number is at least the
    other factor, and converting back to an integer keeps the bound. *)
From S2P Require Import Prelude CStr Workspace Double.

#[local] Open Scope Z_scope.
#[local] Abbreviation fexp := (fexp 53 1024).
#[local] Abbreviation bounded := (bounded 53 1024).
#[local] Abbreviation round_aux := (binary_round_aux 53 1024).

Lemma pow2_pos n : 0 ≤ n → 0 < 2 ^ n.
Proof. intros. by apply Z.pow_pos_nonneg. Qed.

(** ** Digits *)
Lemma Zdigits2_bounds m : 0 < m → 2 ^ (Zdigits2 m - 1) ≤ m < 2 ^ Zdigits2 m ∧ 1 ≤ Zdigits2 m.
Proof. destruct m as [|p|p]; try lia. intros _. split; [apply digits2_bounds|unfold Zdigits2; lia]. Qed.
Lemma Zdigits2_ge m n : 0 < m → 0 ≤ n → 2 ^ n ≤ m → n < Zdigits2 m.
Proof.
  intros Hm Hn Hle. destruct (Zdigits2_bounds m Hm) as [[_ Hlt] H1].
  apply (Z.pow_lt_mono_r_iff 2); [lia|lia|]. lia.
Qed.
Lemma Zdigits2_le m n : 0 < m → 0 ≤ n → m < 2 ^ n → Zdigits2 m ≤ n.
Proof.
  intros Hm Hn Hlt. destruct (Zdigits2_bounds m Hm) as [[Hle _] H1].
  assert (Zdigits2 m - 1 < n); [|lia]. apply (Z.pow_lt_mono_r_iff 2); lia.
Qed.
Lemma fexp_max z : fexp z = Z.max (z - 53) (-1074).
Proof. done. Qed.
Lemma bounded_spec m e : bounded m e = true ↔
  Z.max (Zdigits2 (Z.pos m) + e - 53) (-1074) = e ∧ e ≤ 971.
Proof.
  unfold SpecFloat.bounded, canonical_mantissa. rewrite andb_true_iff, Z.eqb_eq, Z.leb_le. done.
Qed.

(** ** Shifting right is division *)
Lemma shr_1_div r : 0 ≤ shr_m r → shr_m (shr_1 r) = shr_m r / 2.
Proof.
  destruct r as [[|[p|p|]|p] ? ?]; cbn; intros H; try done; try lia.
  - change (Z.pos p~1) with (2 * Z.pos p + 1). rewrite Z.mul_comm, Z.div_add_l by lia. change (1 / 2) with 0. lia.
  - change (Z.pos p~0) with (2 * Z.pos p). by rewrite Z.mul_comm, Z.div_mul.
Qed.
Lemma iter_shr_div p r : 0 ≤ shr_m r → shr_m (iter_pos shr_1 p r) = shr_m r / 2 ^ Z.pos p.
Proof.
  revert r. induction p as [p IH|p IH|]; intros r Hr; cbn [iter_pos].
  - assert (0 ≤ shr_m (shr_1 r)) as H1 by (rewrite shr_1_div by done; by apply Z.div_pos).
    rewrite IH by (rewrite IH by done; apply Z.div_pos; [done|by apply pow2_pos]).
    rewrite IH by done. rewrite shr_1_div by done.
    rewrite !Z.div_div by (try lia; by apply pow2_pos).
    f_equal. replace (Z.pos p~1) with (1 + Z.pos p + Z.pos p) by lia. rewrite !Z.pow_add_r by lia. lia.
  - rewrite IH by (rewrite IH by done; apply Z.div_pos; [done|by apply pow2_pos]).
    rewrite IH by done. rewrite Z.div_div by (try lia; by apply pow2_pos).
    f_equal. replace (Z.pos p~0) with (Z.pos p + Z.pos p) by lia. by rewrite Z.pow_add_r by lia.
  - by apply shr_1_div.
Qed.
Lemma shr_fexp_div m e l : 0 ≤ m → e ≤ fexp (Zdigits2 m + e) →
  shr_m (shr_fexp 53 1024 m e l).1 = m / 2 ^ (fexp (Zdigits2 m + e) - e) ∧
  (shr_fexp 53 1024 m e l).2 = fexp (Zdigits2 m + e).
Proof.
  intros Hm He. unfold shr_fexp, shr.
  assert (shr_m (shr_record_of_loc m l) = m) as Hr by by destruct l as [|[]].
  destruct (fexp (Zdigits2 m + e) - e) as [|k|k] eqn:Hk; cbn [fst snd]; [|split; [|lia]|lia].
  - rewrite Hr. change (2 ^ 0) with 1. rewrite Z.div_1_r. split; [done|lia].
  - rewrite iter_shr_div by lia. by rewrite Hr.
Qed.
Lemma shr_fexp_stay m e : 0 ≤ m → fexp (Zdigits2 m + e) ≤ e →
  shr_m (shr_fexp 53 1024 m e loc_Exact).1 = m ∧ (shr_fexp 53 1024 m e loc_Exact).2 = e.
Proof.
  intros Hm He. unfold shr_fexp, shr. destruct (fexp (Zdigits2 m + e) - e) eqn:Hk; [done|lia|done].
Qed.

(** ** Values *)
(** [m * 2^e], scaled by a power of two that no exponent here goes below. *)
Definition scale : Z := 4096.
Definition value (m e : Z) : Z := m * 2 ^ (e + scale).

Lemma lexle_val m e m' e' :
  bounded m e = true → bounded m' e' = true → lexle m e m' e' → value (Z.pos m) e ≤ value (Z.pos m') e'.
Proof.
  intros Hb Hb' Hle. pose proof Hb as [H1 _]%bounded_spec. pose proof Hb' as [H2 _]%bounded_spec.
  unfold value, scale. pose proof (lexle_value m e m' e' (-4096) Hb Hb') as Hv.
  replace (e + 4096) with (e - -4096) by lia. replace (e' + 4096) with (e' - -4096) by lia.
  apply Hv; [lia|lia|done].
Qed.

(** The second half of rounding: what was rounded up may need a last shift. *)
Lemma renormalise m e r : 1 ≤ m ≤ 2 ^ 53 → -1074 ≤ e → (e = -1074 ∨ 2 ^ 52 ≤ m) →
  r = shr_fexp 53 1024 m e loc_Exact →
  ∃ m' e', shr_m r.1 = Z.pos m' ∧ r.2 = e' ∧ Z.max (Zdigits2 (Z.pos m') + e' - 53) (-1074) = e' ∧
    (e' = e ∧ Z.pos m' = m ∨ e' = e + 1 ∧ m = 2 ^ 53 ∧ Z.pos m' = 2 ^ 52).
Proof.
  intros Hm He Hn ->. destruct (Z.eq_dec m (2 ^ 53)) as [->|Hne].
  - destruct (shr_fexp_div (2 ^ 53) e loc_Exact) as [H1 H2]; [lia|rewrite fexp_max; change (Zdigits2 (2 ^ 53)) with 54; lia|].
    exists (Z.to_pos (2 ^ 52)), (e + 1). rewrite H1, H2, !fexp_max.
    change (Zdigits2 (2 ^ 53)) with 54. change (Zdigits2 (Z.pos (Z.to_pos (2 ^ 52)))) with 53.
    replace (Z.max (54 + e - 53) (-1074) - e) with 1 by lia.
    split; [done|]. split; [lia|]. split; [lia|right]. split; [done|]. by split.
  - assert (Zdigits2 m ≤ 53) as Hd by (apply Zdigits2_le; lia).
    assert (e = -1074 ∨ Zdigits2 m = 53) as Hd'.
    { destruct Hn as [?|Hn]; [by left|right]. apply (Zdigits2_ge m 52) in Hn; lia. }
    destruct (shr_fexp_stay m e) as [H1 H2]; [lia|rewrite fexp_max; lia|].
    destruct m as [|m|m]; [lia| |lia]. exists m, e. rewrite H1, H2. split; [done|]. split; [done|].
    split; [lia|by left].
Qed.

(** Rounding an exact value of at least [v]. *)
Lemma round_ge mv ev m e l :
  bounded mv ev = true → 1 ≤ m → - scale ≤ e → e ≤ fexp (Zdigits2 m + e) →
  value (Z.pos mv) ev ≤ value m e →
  round_aux false m e l = S754_infinity false ∨
  ∃ m' e', round_aux false m e l = S754_finite false m' e' ∧ bounded m' e' = true ∧ lexle mv ev m' e'.
Proof.
  intros Hb Hm Hsc Hk Hv. apply bounded_spec in Hb as [Hb _]. unfold value, scale in *.
  destruct (Zdigits2_bounds m) as [[Hlo Hhi] Hd]; [lia|].
  destruct (Zdigits2_bounds (Z.pos mv)) as [[Hlo' Hhi'] Hd']; [lia|].
  set (D := Zdigits2 m) in *. set (D' := Zdigits2 (Z.pos mv)) in *.
  destruct (shr_fexp_div m e l) as [H1 H2]; [lia|done|]. fold D in H1, H2.
  rewrite fexp_max in *. set (e1 := Z.max (D + e - 53) (-1074)) in *. set (k := e1 - e) in *.
  assert (0 < 2 ^ k) as Hpk by (apply pow2_pos; lia).
  set (q := m / 2 ^ k) in *.
  assert (ev ≤ e1) as Hev.
  { destruct (Z.le_gt_cases ev e1) as [|Hgt]; [done|]. exfalso. assert (D' = 53) as HD by lia.
    rewrite HD in Hlo'. assert (2 ^ (D + e + 4096) ≤ Z.pos mv * 2 ^ (ev + 4096)).
    { etrans; [|apply Z.mul_le_mono_nonneg_r; [by apply Z.pow_nonneg|exact Hlo']].
      rewrite <-Z.pow_add_r by lia. apply Z.pow_le_mono_r; lia. }
    assert (m * 2 ^ (e + 4096) < 2 ^ (D + e + 4096)).
    { replace (D + e + 4096) with (D + (e + 4096)) by lia. rewrite (Z.pow_add_r 2 D (e + 4096)) by lia.
      apply Z.mul_lt_mono_pos_r; [apply pow2_pos; lia|done]. }
    lia. }
  assert (ev = e1 → Z.pos mv ≤ q) as Hmv.
  { intros ->. apply Z.div_le_lower_bound; [done|].
    replace (e1 + 4096) with (k + (e + 4096)) in Hv by lia. rewrite Z.pow_add_r in Hv by lia.
    assert (0 < 2 ^ (e + 4096)) by (apply pow2_pos; lia). nia. }
  assert (e1 = -1074 ∨ 2 ^ 52 ≤ q) as Hq52.
  { destruct (Z.eq_dec e1 (-1074)) as [|Hne]; [by left|right].
    assert (k = D - 53) as -> by lia. apply Z.div_le_lower_bound; [done|].
    rewrite <-Z.pow_add_r by lia. by replace (D - 53 + 52) with (D - 1) by lia. }
  assert (1 ≤ q) as Hq1 by (destruct Hq52 as [?|?]; [|lia]; assert (ev = e1) by lia; lia).
  assert (q < 2 ^ 53) as Hq53.
  { apply Z.div_lt_upper_bound; [done|]. rewrite <-Z.pow_add_r by lia.
    eapply Z.lt_le_trans; [exact Hhi|]. apply Z.pow_le_mono_r; lia. }
  unfold binary_round_aux. destruct (shr_fexp 53 1024 m e l) as [r1 e1']. cbn [fst snd] in H1, H2. subst e1'.
  rewrite H1. set (m2 := round_nearest_even q (loc_of_shr_record r1)).
  assert (q ≤ m2 ≤ q + 1) as Hm2 by (unfold m2, round_nearest_even; repeat case_match; lia).
  destruct (shr_fexp 53 1024 m2 e1 loc_Exact) as [r2 e2] eqn:Hr2.
  destruct (renormalise m2 e1 (r2, e2)) as (m' & e' & Hm' & He' & Hcan & Hor); [lia|lia|lia|done|].
  cbn [fst snd] in Hm', He'. subst e2. rewrite Hm'.
  destruct (Z.leb_spec e' (1024 - 53)); [right|by left]. exists m', e'. split; [done|].
  split; [apply bounded_spec; lia|]. unfold lexle. destruct Hor as [[-> Hmm]|[-> _]]; [|lia].
  rewrite Hmm. destruct (Z.eq_dec ev e1); [right; split; [done|]; assert (Z.pos mv ≤ q) by auto; lia|lia].
Qed.

(** A shift that loses nothing is exact. *)
Lemma iter_shr_exact p r c : 0 ≤ c → shr_m r = c * 2 ^ Z.pos p → shr_r r || shr_s r = false →
  iter_pos shr_1 p r = Build_shr_record c false false.
Proof.
  revert r c. assert (∀ r c, 0 ≤ c → shr_m r = c * 2 → shr_r r || shr_s r = false →
    shr_1 r = Build_shr_record c false false) as H1.
  { intros [[|[m|m|]|m] [] []] c Hc; cbn; intros Hm Hl; try done; try lia; f_equal; lia. }
  induction p as [p IH|p IH|]; intros r c Hc Hm Hl; cbn [iter_pos].
  - assert (0 < 2 ^ Z.pos p) by by apply pow2_pos.
    rewrite (H1 r (c * 2 ^ Z.pos p * 2 ^ Z.pos p)); [|nia| |done].
    + rewrite (IH (Build_shr_record (c * 2 ^ Z.pos p * 2 ^ Z.pos p) false false) (c * 2 ^ Z.pos p));
        [by apply IH|nia|done|done].
    + rewrite Hm. replace (Z.pos p~1) with (Z.pos p + Z.pos p + 1) by lia. rewrite !Z.pow_add_r by lia. lia.
  - assert (0 < 2 ^ Z.pos p) by by apply pow2_pos.
    rewrite (IH r (c * 2 ^ Z.pos p)); [by apply IH|nia| |done].
    rewrite Hm. replace (Z.pos p~0) with (Z.pos p + Z.pos p) by lia. rewrite !Z.pow_add_r by lia. lia.
  - by apply H1.
Qed.
Lemma shr_fexp_inexact m e r : 0 ≤ m → e ≤ fexp (Zdigits2 m + e) →
  r = shr_fexp 53 1024 m e loc_Exact → loc_of_shr_record r.1 ≠ loc_Exact →
  m / 2 ^ (fexp (Zdigits2 m + e) - e) * 2 ^ (fexp (Zdigits2 m + e) - e) < m.
Proof.
  intros Hm He -> Hloc. set (k := fexp (Zdigits2 m + e) - e) in *.
  assert (0 < 2 ^ k) as Hk by (apply pow2_pos; lia). pose proof (Z.mul_div_le m (2 ^ k) Hk) as Hle.
  destruct (Z.eq_dec (m / 2 ^ k * 2 ^ k) m) as [Heq|]; [|lia]. exfalso. apply Hloc. clear Hloc.
  unfold shr_fexp, shr. fold k. change (shr_record_of_loc m loc_Exact) with (Build_shr_record m false false).
  destruct k as [|p|p] eqn:E; [done| |done].
  rewrite (iter_shr_exact p _ (m / 2 ^ Z.pos p)); [done|by apply Z.div_pos|by cbn [shr_m]|done].
Qed.

(** Rounding an exact value of at most [v]. *)
Lemma round_le mv ev m e :
  bounded mv ev = true → 1 ≤ m → -1074 ≤ e → e ≤ fexp (Zdigits2 m + e) →
  value m e ≤ value (Z.pos mv) ev →
  ∃ m' e', round_aux false m e loc_Exact = S754_finite false m' e' ∧ lexle m' e' mv ev.
Proof.
  intros Hb Hm Hsc Hk Hv. apply bounded_spec in Hb as [Hb Hmax]. unfold value, scale in *.
  destruct (Zdigits2_bounds m) as [[Hlo Hhi] Hd]; [lia|].
  destruct (Zdigits2_bounds (Z.pos mv)) as [[Hlo' Hhi'] Hd']; [lia|].
  set (D := Zdigits2 m) in *. set (D' := Zdigits2 (Z.pos mv)) in *.
  destruct (shr_fexp_div m e loc_Exact) as [H1 H2]; [lia|done|]. fold D in H1, H2.
  pose proof (shr_fexp_inexact m e _ ltac:(lia) Hk eq_refl) as Hin. fold D in Hin.
  rewrite fexp_max in *. set (e1 := Z.max (D + e - 53) (-1074)) in *. set (k := e1 - e) in *.
  assert (0 < 2 ^ k) as Hpk by (apply pow2_pos; lia). set (q := m / 2 ^ k) in *.
  assert (Z.pos mv < 2 ^ 53) as Hmv53.
  { eapply Z.lt_le_trans; [exact Hhi'|]. apply Z.pow_le_mono_r; lia. }
  assert (e1 = -1074 ∧ k = 0 ∨ 2 ^ 52 ≤ q) as Hq52.
  { destruct (Z.eq_dec e1 (-1074)) as [|Hne]; [left; lia|right].
    assert (k = D - 53) as -> by lia. apply Z.div_le_lower_bound; [done|].
    rewrite <-Z.pow_add_r by lia. by replace (D - 53 + 52) with (D - 1) by lia. }
  assert (1 ≤ q) as Hq1.
  { destruct Hq52 as [[_ Hk0]|]; [|lia]. unfold q. rewrite Hk0. change (2 ^ 0) with 1. by rewrite Z.div_1_r. }
  assert (q < 2 ^ 53) as Hq53.
  { apply Z.div_lt_upper_bound; [done|]. rewrite <-Z.pow_add_r by lia.
    eapply Z.lt_le_trans; [exact Hhi|]. apply Z.pow_le_mono_r; lia. }
  assert (0 < 2 ^ (e + 4096)) as Hpe by (apply pow2_pos; lia).
  assert (q * 2 ^ k ≤ m) as Hqk by (rewrite Z.mul_comm; by apply Z.mul_div_le).
  assert (e1 ≤ ev) as Hev.
  { destruct (Z.le_gt_cases e1 ev) as [|Hgt]; [done|]. exfalso.
    destruct Hq52 as [[? _]|Hq52]; [lia|].
    assert (2 ^ 52 * 2 ^ (e1 + 4096) ≤ m * 2 ^ (e + 4096)).
    { replace (e1 + 4096) with (k + (e + 4096)) by lia. rewrite (Z.pow_add_r 2 k) by lia. nia. }
    assert (Z.pos mv * 2 ^ (ev + 4096) < 2 ^ 53 * 2 ^ (ev + 4096))
      by (apply Z.mul_lt_mono_pos_r; [apply pow2_pos; lia|done]).
    assert (2 ^ 53 * 2 ^ (ev + 4096) ≤ 2 ^ 52 * 2 ^ (e1 + 4096)); [|lia].
    rewrite <-!Z.pow_add_r by lia. apply Z.pow_le_mono_r; lia. }
  set (V := Z.pos mv * 2 ^ (ev - e1)).
  assert (m ≤ V * 2 ^ k) as HV.
  { apply (Z.mul_le_mono_pos_r _ _ (2 ^ (e + 4096)) Hpe). etrans; [exact Hv|].
    unfold V. rewrite <-!Z.mul_assoc, <-!Z.pow_add_r by lia.
    replace (ev - e1 + (k + (e + 4096))) with (ev + 4096) by lia. done. }
  unfold binary_round_aux. destruct (shr_fexp 53 1024 m e loc_Exact) as [r1 e1']. cbn [fst snd] in H1, H2, Hin.
  subst e1'. rewrite H1. set (m2 := round_nearest_even q (loc_of_shr_record r1)).
  assert (q ≤ m2 ≤ q + 1 ∧ m2 ≤ V) as [Hm2 HmV].
  { destruct (loc_of_shr_record r1) as [|c] eqn:El.
    - unfold m2. cbn [round_nearest_even]. split; [lia|]. apply (Z.mul_le_mono_pos_r _ _ (2 ^ k) Hpk). lia.
    - assert (q + 1 ≤ V). { specialize (Hin ltac:(done)). apply Z.le_succ_l.
        apply (Z.mul_lt_mono_pos_r (2 ^ k)); [done|]. lia. }
      assert (q ≤ m2 ≤ q + 1) by (unfold m2, round_nearest_even; repeat case_match; lia). lia. }
  destruct (shr_fexp 53 1024 m2 e1 loc_Exact) as [r2 e2] eqn:Hr2.
  destruct (renormalise m2 e1 (r2, e2)) as (m' & e' & Hm' & He' & Hcan & Hor); [lia|lia|lia|done|].
  cbn [fst snd] in Hm', He'. subst e2. rewrite Hm'.
  assert (lexle m' e' mv ev) as Hlex.
  { unfold lexle. destruct Hor as [[-> Hmm]|(-> & Hmm & Hm52)].
    - destruct (Z.eq_dec e1 ev) as [<-|]; [|lia]. right. split; [done|].
      unfold V in HmV. rewrite Z.sub_diag in HmV. change (2 ^ 0) with 1 in HmV. lia.
    - destruct (Z.eq_dec e1 ev) as [<-|Hne].
      { unfold V in HmV. rewrite Z.sub_diag in HmV. change (2 ^ 0) with 1 in HmV. lia. }
      destruct (Z.eq_dec (e1 + 1) ev) as [<-|]; [|lia]. right. split; [done|].
      unfold V in HmV. replace (e1 + 1 - e1) with 1 in HmV by lia. change (2 ^ 1) with 2 in HmV.
      change (2 ^ 53) with (2 * 2 ^ 52) in Hmm. lia. }
  destruct (Z.leb_spec e' (1024 - 53)); [by exists m', e'|]. exfalso. unfold lexle in Hlex. lia.
Qed.

(** What an operation answers: infinity, or a double that is at least [v]. *)
Definition at_least (mv : positive) (ev : Z) (x : double) : Prop :=
  x = S754_infinity false ∨
  ∃ m e, x = S754_finite false m e ∧ bounded m e = true ∧ lexle mv ev m e.

Lemma at_least_valid mv ev x : at_least mv ev x → dvalid x.
Proof. intros [-> |(m & e & -> & Hb & _)]; done. Qed.
Lemma lexle_compare m e m' e' : lexle m e m' e' →
  dleb (S754_finite false m e) (S754_finite false m' e') = true.
Proof.
  unfold lexle, dleb, SFleb. simpl. change (PosDef.Pos.compare_cont Eq m m') with (Pos.compare m m').
  intros [He|[-> Hm]].
  - by rewrite (proj2 (Z.compare_lt_iff e e') He).
  - rewrite Z.compare_refl. destruct (Pos.compare_spec m m'); [done|done|lia].
Qed.
Lemma at_least_leb mv ev x : at_least mv ev x → dleb (S754_finite false mv ev) x = true.
Proof. intros [-> |(m & e & -> & _ & Hle)]; [done|]. by apply lexle_compare. Qed.
Lemma leb_at_least mv ev x : dvalid x → dleb (S754_finite false mv ev) x = true → at_least mv ev x.
Proof.
  intros Hv Hle. destruct x as [| [] | |[] m e]; try done; [by left|right].
  exists m, e. split; [done|]. split; [exact Hv|]. by apply dleb_finite in Hle.
Qed.

(** ** Subtraction gives a canonical number *)
Lemma round_valid sx m e l : 1 ≤ m → -1074 ≤ e → e ≤ fexp (Zdigits2 m + e) →
  dvalid (round_aux sx m e l).
Proof.
  intros Hm He Hk. assert (dvalid (round_aux false m e l)) as Hf.
  { destruct (round_ge 1 (-1074) m e l) as [-> |(m' & e' & -> & Hb & _)]; try done.
    - unfold scale. lia.
    - unfold value, scale. apply Z.mul_le_mono_nonneg; [lia|lia|by apply Z.pow_nonneg|].
      apply Z.pow_le_mono_r; lia. }
  revert Hf. unfold dvalid, binary_round_aux. destruct (shr_fexp 53 1024 m e l) as [r1 e1].
  destruct (shr_fexp 53 1024 _ e1 loc_Exact) as [r2 e2]. by destruct (shr_m r2); try case_match.
Qed.
Lemma shl_align_room m e : -1074 ≤ e →
  let '(mz, ez) := shl_align m e (fexp (Z.pos (digits2_pos m) + e)) in
  -1074 ≤ ez ∧ ez ≤ fexp (Zdigits2 (Z.pos mz) + ez).
Proof.
  intros He. rewrite fexp_max. unfold shl_align.
  destruct (Z.max (Z.pos (digits2_pos m) + e - 53) (-1074) - e) as [|d|d] eqn:Hd;
    [rewrite fexp_max; change (Zdigits2 (Z.pos m)) with (Z.pos (digits2_pos m)); lia..|].
  rewrite fexp_max, iter_xO. split; [lia|]. destruct (digits2_bounds m) as [Hlo _].
  assert (Z.pos (digits2_pos m) + Z.pos d - 1 < Zdigits2 (Z.pos m * 2 ^ Z.pos d)); [|lia].
  assert (0 < 2 ^ Z.pos d) by by apply pow2_pos.
  apply Zdigits2_ge; [lia|lia|]. replace (Z.pos (digits2_pos m) + Z.pos d - 1)
    with ((Z.pos (digits2_pos m) - 1) + Z.pos d) by lia.
  rewrite Z.pow_add_r by lia. by apply Z.mul_le_mono_pos_r.
Qed.
Lemma binary_round_valid sx m e : -1074 ≤ e → dvalid (binary_round 53 1024 sx m e).
Proof.
  intros He. unfold binary_round. pose proof (shl_align_room m e He) as Hr.
  destruct (shl_align _ _ _) as [mz ez]. apply round_valid; lia.
Qed.
Lemma dsub_valid x y : dvalid x → dvalid y → dvalid (dsub x y).
Proof.
  unfold dsub. destruct x as [[]|[]| |sx mx ex], y as [[]|[]| |sy my ey]; try done; intros Hx Hy;
    cbn [SFsub]; try (exact Hx || exact Hy).
  apply bounded_spec in Hx as [Hx _]. apply bounded_spec in Hy as [Hy _].
  match goal with |- dvalid (binary_normalize _ _ ?z _ _) => generalize z end.
  intros [|z|z]; [done|apply binary_round_valid; lia..].
Qed.

(** ** Products and quotients *)
Definition done1 : double := S754_finite false 4503599627370496 (-52).
(** 1, scaled: the power is not for computing. *)
Lemma value_one : value (Z.pos 4503599627370496) (-52) = 2 ^ (0 + scale).
Proof.
  unfold value. change (Z.pos 4503599627370496) with (2 ^ 52).
  rewrite <-Z.pow_add_r by (unfold scale; lia). f_equal.
Qed.
Lemma dmul_ge q m e : dvalid q → dleb done1 q = true → bounded m e = true →
  at_least m e (dmul q (S754_finite false m e)).
Proof.
  intros Hq Hle Hb. apply (leb_at_least _ _ _ Hq) in Hle as [-> |(mq & eq & -> & Hbq & Hle)]; [by left|].
  unfold dmul. cbn [SFmul xorb]. pose proof Hb as [He _]%bounded_spec. pose proof Hbq as [Heq _]%bounded_spec.
  destruct (Zdigits2_bounds (Z.pos mq)) as [[Hlo _] _]; [lia|].
  assert (-52 ≤ eq) as Heq' by (unfold lexle in Hle; lia).
  assert (Zdigits2 (Z.pos mq) = 53) as Hd by lia. rewrite Hd in Hlo.
  apply round_ge; [done|lia|unfold scale; lia| |].
  - rewrite fexp_max. assert (52 < Zdigits2 (Z.pos (mq * m))); [|lia].
    apply Zdigits2_ge; [lia|lia|]. change (53 - 1) with 52 in Hlo. nia.
  - unfold value, scale. rewrite Pos2Z.inj_mul.
    assert (1 * 2 ^ (e + 4096) ≤ Z.pos mq * 2 ^ (eq + (e + 4096))) as Hone.
    { clear Hle. destruct (Z.le_gt_cases 0 eq).
      - apply Z.mul_le_mono_nonneg; [lia|lia|by apply Z.pow_nonneg|apply Z.pow_le_mono_r; lia].
      - assert (2 ^ (- eq) ≤ Z.pos mq) as Hm.
        { etrans; [|exact Hlo]. apply Z.pow_le_mono_r; lia. }
        replace (e + 4096) with (- eq + (eq + (e + 4096))) at 1 by lia. rewrite Z.pow_add_r by lia.
        assert (0 < 2 ^ (eq + (e + 4096))) by (apply pow2_pos; lia). nia. }
    replace (eq + e + 4096) with (eq + (e + 4096)) by lia. nia.
Qed.

(** The quotient before rounding: as many digits as are needed. *)
Lemma div_core m1 e1 m2 e2 :
  ∃ q e' l, SFdiv_core_binary 53 1024 (Z.pos m1) e1 (Z.pos m2) e2 = (q, e', l) ∧
    0 ≤ e1 - e2 - e' ∧ q = Z.pos m1 * 2 ^ (e1 - e2 - e') / Z.pos m2 ∧
    Z.min (-1074) (e1 - e2) ≤ e' ≤ fexp (Zdigits2 q + e').
Proof.
  unfold SFdiv_core_binary. destruct (Zdigits2_bounds (Z.pos m1)) as [[Hlo1 _] Hd1]; [lia|].
  destruct (Zdigits2_bounds (Z.pos m2)) as [[_ Hhi2] Hd2]; [lia|].
  set (d1 := Zdigits2 (Z.pos m1)) in *. set (d2 := Zdigits2 (Z.pos m2)) in *.
  rewrite fexp_max. set (g := d1 + e1 - (d2 + e2)) in *.
  set (e' := Z.min (Z.max (g - 53) (-1074)) (e1 - e2)). set (s := e1 - e2 - e').
  assert (0 ≤ s) as Hs by lia.
  assert (match s with Z.pos _ => Z.shiftl (Z.pos m1) s | 0 => Z.pos m1 | Z.neg _ => 0 end
          = Z.pos m1 * 2 ^ s) as ->.
  { destruct s as [|p|p] eqn:E; [lia| |lia]. rewrite Z.shiftl_mul_pow2 by lia. done. }
  destruct (Z.div_eucl (Z.pos m1 * 2 ^ s) (Z.pos m2)) as [q r] eqn:Hdiv.
  assert (q = Z.pos m1 * 2 ^ s / Z.pos m2) as Hq by (unfold Z.div; by rewrite Hdiv).
  eexists _, _, _. split; [done|]. split; [done|]. split; [exact Hq|]. split; [lia|].
  assert (2 ^ (d1 - 1 + s) ≤ Z.pos m1 * 2 ^ s) as Hlow.
  { rewrite Z.pow_add_r by lia. apply Z.mul_le_mono_nonneg_r; [by apply Z.pow_nonneg|done]. }
  assert (0 ≤ q) as Hq0 by (rewrite Hq; apply Z.div_pos; [|lia]; apply Z.mul_nonneg_nonneg; [lia|by apply Z.pow_nonneg]).
  rewrite fexp_max. assert (d1 + s - d2 ≤ Zdigits2 q); [|lia].
  destruct (Z.le_gt_cases 0 (d1 - 1 + s - d2)) as [Hn|Hn].
  - assert (2 ^ (d1 - 1 + s - d2) ≤ q) as Hqd.
    { rewrite Hq. apply Z.div_le_lower_bound; [lia|].
      etrans; [|exact Hlow]. replace (d1 - 1 + s) with (d2 + (d1 - 1 + s - d2)) at 2 by lia.
      rewrite (Z.pow_add_r 2 d2) by lia. apply Z.mul_le_mono_nonneg_r; [by apply Z.pow_nonneg|lia]. }
    assert (0 < 2 ^ (d1 - 1 + s - d2)) by (by apply pow2_pos).
    apply Zdigits2_ge in Hqd; lia.
  - destruct (Z.eq_dec q 0) as [->|]; [change (Zdigits2 0) with 0; lia|]. destruct (Zdigits2_bounds q); lia.
Qed.
Lemma ddiv_ge_one x m2 e2 : dvalid x → bounded m2 e2 = true → dleb (S754_finite false m2 e2) x = true →
  at_least 4503599627370496 (-52) (ddiv x (S754_finite false m2 e2)).
Proof.
  intros Hx Hb2 Hle. apply (leb_at_least _ _ _ Hx) in Hle as [-> |(m1 & e1 & -> & Hb1 & Hle)]; [by left|].
  unfold ddiv. cbn [SFdiv xorb]. destruct (div_core m1 e1 m2 e2) as (q & e' & l & -> & Hs & Hq & He' & Hroom).
  pose proof Hb1 as [He1 _]%bounded_spec. pose proof Hb2 as [He2 _]%bounded_spec.
  assert (e2 ≤ e1) as Hee by (unfold lexle in Hle; lia).
  assert (Z.pos m2 ≤ Z.pos m1 * 2 ^ (e1 - e2)) as Hval.
  { pose proof (lexle_value m2 e2 m1 e1 e2 Hb2 Hb1 ltac:(lia) Hee Hle) as Hv.
    rewrite Z.sub_diag in Hv. lia. }
  assert (e' ≤ 0 → 2 ^ (- e') ≤ q) as Hneg.
  { intros Hn. rewrite Hq. apply Z.div_le_lower_bound; [lia|].
    replace (e1 - e2 - e') with ((e1 - e2) + - e') by lia. rewrite Z.pow_add_r by lia.
    assert (0 < 2 ^ (- e')) by (apply pow2_pos; lia). nia. }
  assert (1 ≤ q) as Hq1.
  { destruct (Z.le_gt_cases e' 0).
    - assert (0 < 2 ^ (- e')) by (apply pow2_pos; lia). lia.
    - rewrite fexp_max in Hroom. destruct (Z.le_gt_cases 1 q); [done|]. exfalso.
      assert (Zdigits2 q ≤ 52); [|lia]. destruct q; [done|lia|].
      exfalso. assert (0 ≤ Z.pos m1 * 2 ^ (e1 - e2 - e') / Z.pos m2); [|lia].
      apply Z.div_pos; [|lia]. apply Z.mul_nonneg_nonneg; [lia|by apply Z.pow_nonneg]. }
  apply round_ge; [done|done|unfold scale; lia|done|].
  rewrite value_one. unfold value.
  destruct (Z.le_gt_cases e' 0) as [Hn|Hn].
  - etrans; [|apply Z.mul_le_mono_nonneg_r; [by apply Z.pow_nonneg|by apply Hneg]].
    rewrite <-Z.pow_add_r by (unfold scale; lia). apply Z.pow_le_mono_r; lia.
  - assert (2 ^ (0 + scale) ≤ 2 ^ (e' + scale)) as Hmono by (apply Z.pow_le_mono_r; lia).
    assert (0 < 2 ^ (0 + scale)) as H0 by (apply pow2_pos; unfold scale; lia). revert Hmono H0.
    generalize (2 ^ (0 + scale)) (2 ^ (e' + scale)). nia.
Qed.

(** ** Integers *)
Lemma round_exact m e : bounded m e = true → round_aux false (Z.pos m) e loc_Exact = S754_finite false m e.
Proof.
  intros [Hb He]%bounded_spec. unfold binary_round_aux.
  assert (shr_fexp 53 1024 (Z.pos m) e loc_Exact = (Build_shr_record (Z.pos m) false false, e)) as Hs.
  { unfold shr_fexp, shr. by rewrite fexp_max, Hb, Z.sub_diag. }
  rewrite Hs. cbn [shr_m loc_of_shr_record round_nearest_even]. rewrite Hs. cbn [shr_m].
  destruct (Z.leb_spec e (1024 - 53)); [done|lia].
Qed.
Lemma d_of_Z_exact c : 1 ≤ c ≤ 2 ^ 53 →
  ∃ m e, d_of_Z c = S754_finite false m e ∧ bounded m e = true ∧ value (Z.pos m) e = c * 2 ^ scale.
Proof.
  intros Hc. destruct (Z.eq_dec c (2 ^ 53)) as [->|Hne].
  { exists 4503599627370496%positive, 1. split; [vm_compute; reflexivity|]. split; vm_compute; reflexivity. }
  destruct c as [|p|p]; [lia| |lia]. destruct (Zdigits2_bounds (Z.pos p)) as [[Hlo Hhi] Hd]; [lia|].
  change (Zdigits2 (Z.pos p)) with (Z.pos (digits2_pos p)) in *.
  assert (Z.pos (digits2_pos p) ≤ 53) as HD.
  { apply (Zdigits2_le (Z.pos p) 53); lia. }
  unfold d_of_Z. cbn [binary_normalize]. unfold binary_round, shl_align. rewrite fexp_max, Z.add_0_r.
  replace (Z.max (Z.pos (digits2_pos p) - 53) (-1074) - 0) with (Z.pos (digits2_pos p) - 53) by lia.
  replace (Z.max (Z.pos (digits2_pos p) - 53) (-1074)) with (Z.pos (digits2_pos p) - 53) by lia.
  destruct (Z.pos (digits2_pos p) - 53) as [|d|d] eqn:E; [|lia|].
  - assert (bounded p 0 = true) as Hb
      by (apply bounded_spec; change (Zdigits2 (Z.pos p)) with (Z.pos (digits2_pos p)); lia).
    exists p, 0. split; [by apply round_exact|]. split; [done|]. unfold value, scale. by rewrite Z.add_0_l.
  - assert (0 < 2 ^ Z.pos d) by by apply pow2_pos. pose proof (iter_xO p d) as Hx.
    assert (Zdigits2 (Z.pos (Pos.iter xO p d)) = 53) as H53.
    { rewrite Hx. apply Z.le_antisymm.
      - apply Zdigits2_le; [lia|lia|]. replace 53 with (Z.pos (digits2_pos p) + Z.pos d) by lia.
        rewrite Z.pow_add_r by lia. by apply Z.mul_lt_mono_pos_r.
      - assert (52 < Zdigits2 (Z.pos p * 2 ^ Z.pos d)); [|lia]. apply Zdigits2_ge; [lia|lia|].
        replace 52 with (Z.pos (digits2_pos p) - 1 + Z.pos d) by lia.
        rewrite Z.pow_add_r by lia. by apply Z.mul_le_mono_pos_r. }
    assert (bounded (Pos.iter xO p d) (Z.neg d) = true) as Hb by (apply bounded_spec; lia).
    eexists _, _. split; [by apply round_exact|]. split; [done|]. unfold value, scale. rewrite Hx.
    rewrite <-Z.mul_assoc, <-Z.pow_add_r by lia. do 2 f_equal. lia.
Qed.

Lemma dtrunc_ge c x z : 1 ≤ c ≤ 2 ^ 53 → dvalid x → dleb (d_of_Z c) x = true → dtrunc x = Some z → c ≤ z.
Proof.
  intros Hc Hx Hle Hz. destruct (d_of_Z_exact c Hc) as (m & e & Hd & Hb & Hv). rewrite Hd in Hle.
  apply (leb_at_least _ _ _ Hx) in Hle as [-> |(mx & ex & -> & Hbx & Hle)]; [done|].
  apply lexle_val in Hle; [|done|done]. rewrite Hv in Hle. unfold value in Hle.
  apply bounded_spec in Hbx as [Hbx _]. unfold dtrunc in Hz. cbn [cond_Zopp] in Hz.
  case_match; [|done]. injection Hz as <-. assert (0 < 2 ^ scale) as H4 by (apply pow2_pos; unfold scale; lia).
  destruct (Z.leb_spec 0 ex).
  - rewrite Z.pow_add_r in Hle by (unfold scale; lia). revert H4 Hle. generalize (2 ^ scale). nia.
  - apply Z.div_le_lower_bound; [apply pow2_pos; lia|].
    replace scale with (- ex + (ex + scale)) in Hle at 1 by lia.
    rewrite Z.pow_add_r in Hle by (unfold scale; lia).
    assert (0 < 2 ^ (ex + scale)) by (apply pow2_pos; unfold scale; lia). nia.
Qed.

(** ** Differences *)
Definition dvalue (x : double) : Z :=
  match x with S754_finite _ m e => value (Z.pos m) e | _ => 0 end.

Lemma value_pos m e : - scale ≤ e → 0 < value (Z.pos m) e.
Proof. intros. unfold value. apply Z.mul_pos_pos; [lia|apply pow2_pos; lia]. Qed.
Lemma value_lt m e m' e' : bounded m e = true → bounded m' e' = true → e < e' →
  value (Z.pos m) e < value (Z.pos m') e'.
Proof.
  intros [Hb _]%bounded_spec [Hb' _]%bounded_spec He. unfold value, scale.
  destruct (Zdigits2_bounds (Z.pos m)) as [[_ Hhi] _]; [lia|].
  destruct (Zdigits2_bounds (Z.pos m')) as [[Hlo _] _]; [lia|].
  assert (Zdigits2 (Z.pos m') = 53) as Hd by lia. rewrite Hd in Hlo. change (53 - 1) with 52 in Hlo.
  assert (Z.pos m < 2 ^ 53) as Hm.
  { eapply Z.lt_le_trans; [exact Hhi|]. apply Z.pow_le_mono_r; lia. }
  apply Z.lt_le_trans with (2 ^ 53 * 2 ^ (e + 4096)).
  { apply Z.mul_lt_mono_pos_r; [apply pow2_pos; lia|done]. }
  etrans; [|apply Z.mul_le_mono_nonneg_r; [by apply Z.pow_nonneg|exact Hlo]].
  rewrite <-!Z.pow_add_r by lia. apply Z.pow_le_mono_r; lia.
Qed.
Lemma val_lexle m e m' e' : bounded m e = true → bounded m' e' = true →
  value (Z.pos m) e ≤ value (Z.pos m') e' → lexle m e m' e'.
Proof.
  intros Hb Hb' Hv. destruct (Z.lt_total e e') as [He|[->|He]]; [by left| |].
  - right. split; [done|]. unfold value in Hv. apply bounded_spec in Hb as [Hb _].
    apply Z.mul_le_mono_pos_r in Hv; [done|apply pow2_pos; unfold scale; lia].
  - pose proof (value_lt m' e' m e Hb' Hb He). lia.
Qed.
Lemma dleb_value x y : dvalid x → dvalid y → dfinite y = true → dnonneg x = true → dleb x y = true →
  dvalue x ≤ dvalue y.
Proof.
  unfold dvalid. destruct x as [sx| []| |[] mx ex], y as [sy| | |sy my ey]; try done; intros Hx Hy _ _ Hle; simpl.
  - apply bounded_spec in Hy as [Hy _]. apply Z.lt_le_incl, value_pos. unfold scale. lia.
  - apply dleb_finite in Hle. destruct sy; [done|]. by apply lexle_val.
Qed.

Lemma shl_align_same m e : -1074 ≤ e →
  let '(mz, ez) := shl_align m e (fexp (Z.pos (digits2_pos m) + e)) in
  value (Z.pos mz) ez = value (Z.pos m) e.
Proof.
  intros He. rewrite fexp_max. unfold shl_align.
  destruct (Z.max (Z.pos (digits2_pos m) + e - 53) (-1074) - e) as [|d|d] eqn:Hd; [done..|].
  unfold value, scale. rewrite iter_xO, <-Z.mul_assoc, <-Z.pow_add_r by lia. do 2 f_equal. lia.
Qed.
Lemma binary_round_bounds m e mv ev : -1074 ≤ e → bounded mv ev = true →
  (value (Z.pos mv) ev ≤ value (Z.pos m) e → at_least mv ev (binary_round 53 1024 false m e)) ∧
  (value (Z.pos m) e ≤ value (Z.pos mv) ev →
     dleb (binary_round 53 1024 false m e) (S754_finite false mv ev) = true).
Proof.
  intros He Hb. unfold binary_round. pose proof (shl_align_room m e He) as Hr.
  pose proof (shl_align_same m e He) as Hs. destruct (shl_align _ _ _) as [mz ez]. destruct Hr as [Hr1 Hr2].
  split; intros Hv.
  - apply round_ge; [done|lia|unfold scale; lia|done|lia].
  - destruct (round_le mv ev (Z.pos mz) ez) as (m' & e' & -> & Hle); [done|lia|done|done|lia|].
    by apply lexle_compare.
Qed.

(** The exact difference, on the grid of the finer operand. *)
Lemma dsub_exact mx ex my ey : -1074 ≤ ex → -1074 ≤ ey →
  value (Z.pos mx) ex - value (Z.pos my) ey =
    value (Z.pos (shl_align mx ex (Z.min ex ey)).1 - Z.pos (shl_align my ey (Z.min ex ey)).1) (Z.min ex ey) ∧
  -1074 ≤ Z.min ex ey.
Proof.
  intros Hx Hy. split; [|lia]. rewrite !shl_align_value by lia. unfold value, scale.
  rewrite Z.mul_sub_distr_r, <-!Z.mul_assoc, <-!Z.pow_add_r by lia.
  by replace (ex - Z.min ex ey + (Z.min ex ey + 4096)) with (ex + 4096) by lia;
     replace (ey - Z.min ex ey + (Z.min ex ey + 4096)) with (ey + 4096) by lia.
Qed.
Lemma dsub_threshold x y mv ev :
  dvalid x → dvalid y → dfinite x = true → dfinite y = true → dnonneg x = true → dnonneg y = true →
  bounded mv ev = true → dvalue y ≤ dvalue x →
  (value (Z.pos mv) ev ≤ dvalue x - dvalue y → dleb (S754_finite false mv ev) (dsub x y) = true) ∧
  (dvalue x - dvalue y ≤ value (Z.pos mv) ev → dleb (dsub x y) (S754_finite false mv ev) = true).
Proof.
  unfold dvalid. intros Hx Hy Hfx Hfy Hnx Hny Hb Hle. pose proof Hb as [Hev _]%bounded_spec.
  pose proof (value_pos mv ev ltac:(unfold scale; lia)) as Hpos.
  destruct x as [sx| | |[] mx ex], y as [sy| | |[] my ey]; try done; cbn [dvalue] in *.
  - split; [lia|]. by destruct sx, sy.
  - apply bounded_spec in Hy as [Hy _]. pose proof (value_pos my ey ltac:(unfold scale; lia)). lia.
  - rewrite Z.sub_0_r. split; intros Hv; apply lexle_compare; by apply val_lexle.
  - unfold dsub. cbn [SFsub cond_Zopp]. pose proof Hx as [Hex _]%bounded_spec. pose proof Hy as [Hey _]%bounded_spec.
    destruct (dsub_exact mx ex my ey) as [Hval Hez]; [lia|lia|].
    set (ez := Z.min ex ey) in *. set (M := Z.pos (shl_align mx ex ez).1 - Z.pos (shl_align my ey ez).1) in *.
    rewrite Hval. assert (0 ≤ M) as HM.
    { assert (0 ≤ value M ez) as H by lia. unfold value in H.
      assert (0 < 2 ^ (ez + scale)) by (apply pow2_pos; unfold scale; lia). nia. }
    destruct M as [|m|m]; [|cbn [binary_normalize]|lia].
    + unfold value at 2 4. simpl. split; [lia|done].
    + destruct (binary_round_bounds m ez mv ev) as [H1 H2]; [lia|done|].
      split; [|exact H2]. intros Hv. by apply at_least_leb, H1.
Qed.
Lemma dltb_not_dleb x y : dltb x y = true → dleb y x = true → False.
Proof.
  unfold dltb, dleb, SFltb, SFleb. destruct x as [[]|[]| |[] m e], y as [[]|[]| |[] m' e']; simpl; try done;
    rewrite (Z.compare_antisym e e'); destruct (Z.compare e e'); simpl; try done;
    change (PosDef.Pos.compare_cont Eq ?a ?b) with (Pos.compare a b);
    rewrite (Pos.compare_antisym m m'); by destruct (Pos.compare m m').
Qed.

(** Once the time since [y] has exceeded [p], it stays at least [p]. *)
Lemma dsub_stays_over t1 t2 y p :
  dvalid t1 → dvalid t2 → dvalid y → dvalid p →
  dfinite t1 = true → dfinite t2 = true → dfinite y = true → dfinite p = true →
  dnonneg y = true → dpos p = true → dleb y t1 = true → dleb t1 t2 = true →
  dltb p (dsub t1 y) = true → dleb p (dsub t2 y) = true.
Proof.
  intros V1 V2 Vy Vp F1 F2 Fy Fp Ny Pp Hy1 H12 Hlt.
  destruct p as [| | |[] mp ep]; try done.
  assert (dnonneg t1 = true) as N1.
  { rewrite <-dnonneg_leb in *. by eapply dleb_trans. }
  assert (dnonneg t2 = true) as N2.
  { rewrite <-dnonneg_leb in *. by eapply dleb_trans. }
  pose proof (dleb_value y t1 Vy V1 F1 Ny Hy1) as Hv1. pose proof (dleb_value t1 t2 V1 V2 F2 N1 H12) as Hv2.
  destruct (dsub_threshold t1 y mp ep) as [_ Hup]; try done.
  destruct (dsub_threshold t2 y mp ep) as [Hlow _]; try done; [lia|].
  apply Hlow. destruct (Z.le_gt_cases (value (Z.pos mp) ep) (dvalue t1 - dvalue y)); [lia|].
  exfalso. eapply dltb_not_dleb; [exact Hlt|]. apply Hup. lia.
Qed.
