(* ===== verification/DoubleError.v ===== *)
(** * Rounding errors, from above

    An upper bound on what the arithmetic of vmod_vsthrottle.c computes,
    against the exact values: a rounded result is at most the exact one and a
    2^-52nd part of it, except below the normal range, where it is at most one
    unit of 2^-1074 too large.  Overflow to infinity is taken as a number of
    2^1024 or more. *)
From S2P Require Import Prelude CStr Workspace Double DoubleRound.

#[local] Open Scope Z_scope.
#[local] Abbreviation fexp := (fexp 53 1024).
#[local] Abbreviation bounded := (bounded 53 1024).
#[local] Abbreviation round_aux := (binary_round_aux 53 1024).

(** [x] is the scaled nonnegative number [N] (see [value]), or an infinity in
    its place. *)
Definition rounds_to (N : Z) (x : double) : Prop :=
  match x with
  | S754_zero _ => N = 0
  | S754_finite false m e => bounded m e = true ∧ value (Z.pos m) e = N
  | S754_infinity false => 2 ^ (1024 + scale) ≤ N
  | _ => False
  end.
(** The smallest positive double, scaled. *)
Definition tiny : Z := 2 ^ (-1074 + scale).
(** [N] exceeds the exact value [X] by a rounding error at most. *)
Definition rounded_up (N X : Z) : Prop := 2 ^ 52 * N ≤ (2 ^ 52 + 1) * X + 2 ^ 52 * tiny.

Lemma value_nonneg m e : 0 ≤ m → 0 ≤ value m e.
Proof. intros. unfold value. apply Z.mul_nonneg_nonneg; [done|by apply Z.pow_nonneg]. Qed.
Lemma value_shift m e k : 0 ≤ k → - scale ≤ e → value m (e + k) = value (m * 2 ^ k) e.
Proof.
  intros Hk He. unfold value. rewrite <-Z.mul_assoc, <-Z.pow_add_r by lia. do 2 f_equal. lia.
Qed.

(** What rounding a number gives: the digits that fit, or one unit more. *)
Lemma round_shape m e l :
  let e1 := fexp (Zdigits2 m + e) in
  let q := m / 2 ^ (e1 - e) in
  0 ≤ m → e ≤ e1 →
  (e1 = -1074 ∨ 2 ^ 52 ≤ q) ∧
  ∃ m2, q ≤ m2 ≤ q + 1 ∧ (l = loc_Exact → e1 = e → m2 = m) ∧
    rounds_to (value m2 e1) (round_aux false m e l).
Proof.
  intros e1 q Hm Hk. destruct (shr_fexp_div m e l) as [H1 H2]; [done|done|]. fold e1 in H1, H2. fold q in H1.
  assert (e1 = Z.max (Zdigits2 m + e - 53) (-1074)) as He1 by apply fexp_max.
  assert (0 < 2 ^ (e1 - e)) as Hpk by (apply pow2_pos; lia).
  assert (Z.pow 2 (Zdigits2 m - 1) ≤ m < 2 ^ Zdigits2 m ∨ m = 0 ∧ Zdigits2 m = 0) as HD.
  { destruct (Z.eq_dec m 0) as [->|]; [by right|left]. apply Zdigits2_bounds. lia. }
  assert (e1 = -1074 ∨ 2 ^ 52 ≤ q) as Hq52.
  { destruct (Z.eq_dec e1 (-1074)) as [|Hne]; [by left|right]. destruct HD as [[Hlo _]|[_ HD]]; [|lia].
    apply Z.div_le_lower_bound; [done|]. rewrite <-Z.pow_add_r by lia.
    by replace (e1 - e + 52) with (Zdigits2 m - 1) by lia. }
  assert (0 ≤ q) as Hq0 by (by apply Z.div_pos).
  assert (q < 2 ^ 53) as Hq53.
  { apply Z.div_lt_upper_bound; [done|]. rewrite <-Z.pow_add_r by lia. destruct HD as [[_ Hhi]|[-> _]].
    - eapply Z.lt_le_trans; [exact Hhi|]. apply Z.pow_le_mono_r; lia.
    - apply pow2_pos. lia. }
  split; [done|]. unfold binary_round_aux.
  destruct (shr_fexp 53 1024 m e l) as [r1 e1'] eqn:Hr1. cbn [fst snd] in H1, H2. subst e1'.
  rewrite H1. set (m2 := round_nearest_even q (loc_of_shr_record r1)).
  assert (q ≤ m2 ≤ q + 1) as Hm2 by (unfold m2, round_nearest_even; repeat case_match; lia).
  exists m2. split; [done|]. split.
  { intros -> Heq. unfold shr_fexp, shr in Hr1. fold e1 in Hr1. rewrite Heq, Z.sub_diag in Hr1.
    injection Hr1 as Hr1. unfold m2. rewrite <-Hr1. unfold q. rewrite Heq, Z.sub_diag, Z.div_1_r. by destruct m. }
  destruct (Z.eq_dec m2 0) as [H0|H0].
  { rewrite H0. unfold shr_fexp, shr. cbn [shr_record_of_loc].
    assert (shr_m (shr (Build_shr_record 0 false false) e1 (fexp (Zdigits2 0 + e1) - e1)).1 = 0) as Hz.
    { unfold shr. destruct (fexp (Zdigits2 0 + e1) - e1) as [|p|p]; [done| |done]. cbn [fst].
      rewrite iter_shr_div by done. by rewrite Z.div_0_l by (apply Z.pow_nonzero; lia). }
    unfold shr in Hz. destruct (fexp (Zdigits2 0 + e1) - e1); cbn in Hz |- *; try done.
    by rewrite Hz. }
  destruct (shr_fexp 53 1024 m2 e1 loc_Exact) as [r2 e2] eqn:Hr2.
  destruct (renormalise m2 e1 (r2, e2)) as (m' & e' & Hm' & He' & Hcan & Hor); [lia|lia| |done|].
  { destruct Hq52; [by left|right; lia]. }
  cbn [fst snd] in Hm', He'. subst e2. rewrite Hm'.
  assert (value (Z.pos m') e' = value m2 e1) as Hval.
  { destruct Hor as [[-> Hmm]|(-> & H53 & H52)]; [by rewrite Hmm|].
    rewrite H53, H52, value_shift by (unfold scale; lia). done. }
  destruct (Z.leb_spec e' (1024 - 53)); cbn [rounds_to].
  - split; [apply bounded_spec; lia|done].
  - assert (Zdigits2 (Z.pos m') = 53) as Hd by lia.
    destruct (Zdigits2_bounds (Z.pos m')) as [[Hlo _] _]; [lia|]. rewrite Hd in Hlo.
    rewrite <-Hval. unfold value. etrans; [|apply Z.mul_le_mono_nonneg_r; [by apply Z.pow_nonneg|exact Hlo]].
    rewrite <-Z.pow_add_r by (unfold scale; lia). apply Z.pow_le_mono_r; unfold scale; lia.
Qed.

Lemma value_mono m m' e : m ≤ m' → value m e ≤ value m' e.
Proof. intros. unfold value. apply Z.mul_le_mono_nonneg_r; [by apply Z.pow_nonneg|done]. Qed.
Lemma value_succ m e : value (m + 1) e = value m e + 2 ^ (e + scale).
Proof. unfold value. lia. Qed.
(** The digits that fit are not more than the number. *)
Lemma value_quotient m e e1 : 0 ≤ m → - scale ≤ e → e ≤ e1 → value (m / 2 ^ (e1 - e)) e1 ≤ value m e.
Proof.
  intros Hm He Hk. replace e1 with (e + (e1 - e)) at 2 by lia. rewrite value_shift by lia.
  apply value_mono. rewrite Z.mul_comm. apply Z.mul_div_le, pow2_pos. lia.
Qed.
Lemma one_more_digit q e m : 2 ^ 52 ≤ q → m ≤ q + 1 → 2 ^ 52 * value m e ≤ (2 ^ 52 + 1) * value q e.
Proof.
  intros Hq Hm. unfold value. rewrite !Z.mul_assoc.
  apply Z.mul_le_mono_nonneg_r; [by apply Z.pow_nonneg|lia].
Qed.

Lemma round_up m e l : 0 ≤ m → - scale ≤ e → e ≤ fexp (Zdigits2 m + e) →
  ∃ N, rounds_to N (round_aux false m e l) ∧ 0 ≤ N ∧ rounded_up N (value m e).
Proof.
  intros Hm He Hk. destruct (round_shape m e l Hm Hk) as (Hq & m2 & Hm2 & _ & Hr).
  set (e1 := fexp (Zdigits2 m + e)) in *. set (q := m / 2 ^ (e1 - e)) in *.
  assert (0 ≤ q) as Hq0 by (apply Z.div_pos; [done|apply pow2_pos; lia]).
  exists (value m2 e1). split; [done|]. split; [apply value_nonneg; lia|].
  pose proof (value_quotient m e e1 Hm He Hk) as Hle. fold q in Hle.
  assert (0 ≤ tiny) as Ht by (apply Z.pow_nonneg; lia). unfold rounded_up.
  destruct Hq as [Heq|Hq].
  - pose proof (value_mono m2 (q + 1) e1 ltac:(lia)) as Hv. rewrite value_succ, Heq in Hv. fold tiny in Hv.
    rewrite Heq in *. pose proof (value_nonneg q (-1074) Hq0). lia.
  - pose proof (one_more_digit q e1 m2 Hq ltac:(lia)) as Hv. lia.
Qed.
(** On the grid of the doubles, nothing is lost below the normal range. *)
Lemma round_up_grid m e : 0 ≤ m → -1074 ≤ e → e ≤ fexp (Zdigits2 m + e) →
  ∃ N, rounds_to N (round_aux false m e loc_Exact) ∧ 0 ≤ N ∧ 2 ^ 52 * N ≤ (2 ^ 52 + 1) * value m e.
Proof.
  intros Hm He Hk. destruct (round_shape m e loc_Exact Hm Hk) as (Hq & m2 & Hm2 & Hex & Hr).
  set (e1 := fexp (Zdigits2 m + e)) in *. set (q := m / 2 ^ (e1 - e)) in *.
  assert (0 ≤ q) as Hq0 by (apply Z.div_pos; [done|apply pow2_pos; lia]).
  exists (value m2 e1). split; [done|]. split; [apply value_nonneg; lia|]. destruct Hq as [Heq|Hq].
  - assert (e1 = e) as He1 by lia. rewrite (Hex eq_refl He1), He1. pose proof (value_nonneg m e Hm). lia.
  - pose proof (value_quotient m e e1 Hm ltac:(unfold scale; lia) Hk) as Hle. fold q in Hle.
    pose proof (one_more_digit q e1 m2 Hq ltac:(lia)) as Hv. lia.
Qed.

(** ** Differences *)
Lemma binary_round_up m e : -1074 ≤ e →
  ∃ N, rounds_to N (binary_round 53 1024 false m e) ∧ 0 ≤ N ∧ 2 ^ 52 * N ≤ (2 ^ 52 + 1) * value (Z.pos m) e.
Proof.
  intros He. unfold binary_round. pose proof (shl_align_room m e He) as Hroom.
  pose proof (shl_align_same m e He) as Hsame.
  destruct (shl_align _ _ _) as [mz ez]. rewrite <-Hsame. apply round_up_grid; lia.
Qed.
Lemma rounds_to_self x : dvalid x → dfinite x = true → dnonneg x = true → rounds_to (dvalue x) x.
Proof. unfold dvalid. by destruct x as [| | |[] m e]. Qed.
Lemma dsub_up x y : dvalid x → dvalid y → dfinite x = true → dfinite y = true →
  dnonneg x = true → dnonneg y = true → dvalue y ≤ dvalue x →
  ∃ N, rounds_to N (dsub x y) ∧ 0 ≤ N ∧ 2 ^ 52 * N ≤ (2 ^ 52 + 1) * (dvalue x - dvalue y).
Proof.
  intros Vx Vy Fx Fy Nx Ny Hle.
  destruct y as [sy| | |[] my ey]; try done.
  { exists (dvalue x). rewrite Z.sub_0_r. destruct x as [sx| | |[] mx ex]; try done.
    - split; [by destruct sx, sy|]. simpl. lia.
    - pose proof (value_nonneg (Z.pos mx) ex ltac:(lia)). split; [by split|]. simpl. lia. }
  pose proof Vy as [Hey _]%bounded_spec. pose proof (value_pos my ey ltac:(unfold scale; lia)) as Hpos.
  destruct x as [sx| | |[] mx ex]; try done; [cbn [dvalue] in Hle; lia|].
  pose proof Vx as [Hex _]%bounded_spec. cbn [dvalue] in *. unfold dsub. cbn [SFsub cond_Zopp].
  destruct (dsub_exact mx ex my ey) as [Hval Hez]; [lia|lia|]. apply Z.le_0_sub in Hle. rewrite Hval in Hle |- *.
  set (ez := Z.min ex ey) in *. set (M := _ - _) in Hle |- *.
  destruct M as [|m|m].
  - exists 0. split; [done|]. unfold value. lia.
  - by apply binary_round_up.
  - exfalso. pose proof (value_pos m ez ltac:(unfold scale; lia)). unfold value in *. lia.
Qed.

(** ** Products and quotients *)
Lemma bounded_digits m e : bounded m e = true → -1074 ≤ e ∧ (e = -1074 ∨ Zdigits2 (Z.pos m) = 53).
Proof. intros [Hb _]%bounded_spec. lia. Qed.
Lemma product_digits m m' : Zdigits2 (Z.pos m) = 53 → 53 ≤ Zdigits2 (Z.pos (m * m')).
Proof.
  intros Hd. destruct (Zdigits2_bounds (Z.pos m)) as [[Hlo _] _]; [lia|]. rewrite Hd in Hlo.
  change (53 - 1) with 52 in Hlo. assert (52 < Zdigits2 (Z.pos (m * m'))); [|lia].
  apply Zdigits2_ge; [lia|lia|nia].
Qed.
Lemma dmul_up x y c : dvalid x → dvalid y → dfinite x = true → dfinite y = true →
  dnonneg x = true → dnonneg y = true → dvalue y = c * 2 ^ scale →
  ∃ N, rounds_to N (dmul x y) ∧ 0 ≤ N ∧ rounded_up N (dvalue x * c).
Proof.
  intros Vx Vy Fx Fy Nx Ny Hc. assert (0 < tiny) as Ht by (apply pow2_pos; unfold scale; lia).
  assert (0 < 2 ^ scale) as Hs by (apply pow2_pos; unfold scale; lia).
  assert (∀ s, ∃ N, rounds_to N (S754_zero s) ∧ 0 ≤ N ∧ rounded_up N 0) as Hzero.
  { intros s. exists 0. unfold rounded_up. split_and!; [done|lia|lia]. }
  destruct x as [sx| | |[] mx ex], y as [sy| | |[] my ey]; try done; cbn [dmul SFmul dvalue] in *;
    try apply Hzero.
  { assert (c = 0) as -> by nia. rewrite Z.mul_0_r. apply Hzero. }
  pose proof (bounded_digits _ _ Vx) as [Hex Hdx]. pose proof (bounded_digits _ _ Vy) as [Hey Hdy].
  assert (value (Z.pos (mx * my)) (ex + ey) = value (Z.pos mx) ex * c) as <-.
  { apply (Z.mul_reg_r _ _ (2 ^ scale)); [lia|]. rewrite <-Z.mul_assoc, <-Hc. unfold value.
    rewrite Pos2Z.inj_mul. rewrite <-!Z.mul_assoc, <-Z.pow_add_r by (unfold scale; lia).
    rewrite (Z.mul_comm (2 ^ (ex + scale))), <-!Z.mul_assoc, <-Z.pow_add_r by (unfold scale; lia).
    do 3 f_equal. lia. }
  apply round_up; [lia|unfold scale; lia|]. rewrite fexp_max.
  destruct Hdx as [Hdx|Hdx]; [|pose proof (product_digits mx my Hdx); lia].
  destruct Hdy as [Hdy|Hdy]; [lia|]. pose proof (product_digits my mx Hdy) as Hd.
  rewrite Pos.mul_comm in Hd. lia.
Qed.
Lemma ddiv_up x y : dvalid x → dvalid y → dfinite x = true → dfinite y = true →
  dnonneg x = true → dpos y = true →
  ∃ N, rounds_to N (ddiv x y) ∧ 0 ≤ N ∧
    2 ^ 52 * (N * dvalue y) ≤ (2 ^ 52 + 1) * (dvalue x * 2 ^ scale) + 2 ^ 52 * (tiny * dvalue y).
Proof.
  intros Vx Vy Fx Fy Nx Py. assert (0 < tiny) as Ht by (apply pow2_pos; unfold scale; lia).
  destruct y as [| | |[] my ey]; try done. pose proof Vy as [Hey Hmax]%bounded_spec.
  pose proof (value_pos my ey ltac:(unfold scale; lia)) as Hpos.
  destruct x as [sx| | |[] mx ex]; try done; cbn [ddiv SFdiv dvalue xorb].
  { exists 0. split; [done|]. split; [done|]. nia. }
  pose proof Vx as [Hex Hmax']%bounded_spec. unfold ddiv. cbn [SFdiv xorb].
  destruct (div_core mx ex my ey) as (q & e' & l & -> & Hs & Hq & He' & Hroom).
  assert (0 ≤ q) as Hq0.
  { rewrite Hq. apply Z.div_pos; [|lia]. apply Z.mul_nonneg_nonneg; [lia|by apply Z.pow_nonneg]. }
  destruct (round_up q e' l Hq0 ltac:(unfold scale; lia) Hroom) as (N & HN & HN0 & Hup).
  exists N. split; [done|]. split; [done|]. unfold rounded_up in Hup.
  assert (value q e' * value (Z.pos my) ey ≤ value (Z.pos mx) ex * 2 ^ scale) as Hle.
  { assert (value (Z.pos mx) ex * 2 ^ scale =
            Z.pos mx * 2 ^ (ex - ey - e') * (2 ^ (e' + scale) * 2 ^ (ey + scale))) as ->.
    { unfold value. rewrite <-!Z.mul_assoc, <-!Z.pow_add_r by (unfold scale; lia). do 2 f_equal. lia. }
    unfold value. assert (q * Z.pos my ≤ Z.pos mx * 2 ^ (ex - ey - e')) as Hdiv.
    { rewrite Hq, Z.mul_comm. apply Z.mul_div_le. lia. }
    apply (Z.mul_le_mono_nonneg_r _ _ (2 ^ (e' + scale) * 2 ^ (ey + scale))) in Hdiv; [lia|].
    apply Z.mul_nonneg_nonneg; by apply Z.pow_nonneg. }
  apply (Z.mul_le_mono_nonneg_r _ _ _ (Z.lt_le_incl _ _ Hpos)) in Hup. lia.
Qed.

(** ** Truncation *)
Lemma dtrunc_rounds N x : rounds_to N x → N < 2 ^ (63 + scale) → ∃ n, dtrunc x = Some n ∧ 0 ≤ n ∧ n * 2 ^ scale ≤ N.
Proof.
  intros Hr Hlt. destruct x as [s|[]| |[] m e]; try done; cbn [rounds_to] in Hr.
  - exists 0. split_and!; [done..|]. lia.
  - exfalso. assert (2 ^ (63 + scale) ≤ 2 ^ (1024 + scale)); [|lia]. apply Z.pow_le_mono_r; lia.
  - destruct Hr as [Hb Hv]. apply bounded_spec in Hb as [Hb _]. unfold dtrunc. cbn [cond_Zopp].
    set (a := if 0 <=? e then _ else _).
    assert (0 ≤ a ∧ a * 2 ^ scale ≤ N) as [Ha0 Ha].
    { unfold a. rewrite <-Hv. unfold value. destruct (Z.leb_spec 0 e).
      - split; [apply Z.mul_nonneg_nonneg; [lia|by apply Z.pow_nonneg]|].
        by rewrite Z.pow_add_r, Z.mul_assoc by (unfold scale; lia).
      - assert (0 < 2 ^ (- e)) as Hp by (apply pow2_pos; lia). split; [by apply Z.div_pos|].
        replace scale with (- e + (e + scale)) at 1 by lia. rewrite Z.pow_add_r by (unfold scale; lia).
        rewrite Z.mul_assoc. apply Z.mul_le_mono_nonneg_r; [by apply Z.pow_nonneg|].
        rewrite Z.mul_comm. by apply Z.mul_div_le. }
    assert (a < 2 ^ 63) as Ha63.
    { rewrite Z.pow_add_r in Hlt by (unfold scale; lia). apply (Z.mul_lt_mono_pos_r (2 ^ scale)); [|lia].
      apply pow2_pos. unfold scale. lia. }
    assert (in_long a = true) as ->; [|by eauto].
    unfold in_long, LONG_MIN, LONG_MAX. apply andb_true_iff. rewrite !Z.leb_le. lia.
Qed.
Lemma dtrunc_below N x n : rounds_to N x → dtrunc x = Some n → 0 ≤ N → n * 2 ^ scale ≤ N.
Proof.
  intros Hr Hn HN. destruct (Z.lt_ge_cases N (2 ^ (63 + scale))) as [Hlt|Hge].
  { destruct (dtrunc_rounds N x Hr Hlt) as (n' & Hn' & _ & Hle). by simplify_eq. }
  etrans; [|exact Hge]. rewrite Z.pow_add_r by (unfold scale; lia).
  apply Z.mul_le_mono_nonneg_r; [by apply Z.pow_nonneg|].
  destruct x as [s|[]| |[] m e]; try done; cbn [dtrunc] in Hn.
  { by simplify_eq. }
  case_match eqn:Hin; [|done]. simplify_eq. unfold in_long, LONG_MIN, LONG_MAX in Hin.
  apply andb_true_iff in Hin as [_ Hin%Z.leb_le]. lia.
Qed.

(** ** A scaled difference: (x - y) / p * c *)
Lemma rounds_to_number N x : rounds_to N x → dfinite x = true →
  dvalid x ∧ dnonneg x = true ∧ dvalue x = N.
Proof. destruct x as [s|[]| |[] m e]; try done; intros Hr _; split_and!; try done; apply Hr. Qed.
Lemma rounds_to_finite N x : rounds_to N x → N < 2 ^ (1024 + scale) → dfinite x = true.
Proof. destruct x as [s|[]| |[] m e]; try done; cbn [rounds_to]. lia. Qed.
Lemma dsub_finite x y : dvalid x → dvalid y → dfinite x = true → dfinite y = true →
  dnonneg x = true → dnonneg y = true → dvalue y ≤ dvalue x → dfinite (dsub x y) = true.
Proof.
  intros Vx Vy Fx Fy Nx Ny Hle. destruct (dsub_up x y) as (N & HN & HN0 & Hup); [done..|].
  assert (0 ≤ dvalue y) as Hy by (by destruct y as [| | |[] my ey]; try done; apply value_nonneg).
  destruct x as [sx| | |[] mx ex]; try done.
  - apply (rounds_to_finite N); [done|]. assert (0 < 2 ^ (1024 + scale)) by (apply pow2_pos; unfold scale; lia).
    cbn [dvalue] in *. lia.
  - destruct (dsub_threshold (S754_finite false mx ex) y mx ex) as [_ Hthr]; [done..|].
    specialize (Hthr ltac:(cbn [dvalue]; lia)). revert HN Hthr. by destruct (dsub _ y) as [|[]| |[]].
Qed.

(** The errors of the three operations together. *)
Lemma errors_together a q N c D B s h :
  0 ≤ a → 0 ≤ q → 0 ≤ D → 0 < B → 0 < h → 2 ^ 212 * h ≤ s → 1 ≤ c ≤ 2 ^ 53 →
  2 ^ 52 * a ≤ (2 ^ 52 + 1) * D →
  2 ^ 52 * (q * B) ≤ (2 ^ 52 + 1) * (a * s) + 2 ^ 52 * (h * B) →
  2 ^ 52 * N ≤ (2 ^ 52 + 1) * (q * c) + 2 ^ 52 * h →
  2 ^ 156 * (N * B) ≤ (2 ^ 52 + 1) ^ 3 * (c * D * s) + s * B.
Proof.
  intros Ha Hq HD HB Hh Hs Hc H1 H2 H3.
  assert (2 ^ 52 * (N * B) ≤ (2 ^ 52 + 1) * (q * B * c) + 2 ^ 52 * (h * B)) as H3' by nia.
  assert (2 ^ 52 * (q * B * c) ≤ (2 ^ 52 + 1) * (a * s * c) + 2 ^ 52 * (h * B * c)) as H2' by nia.
  assert (2 ^ 52 * (a * s * c) ≤ (2 ^ 52 + 1) * (c * D * s)) as H1'.
  { assert (0 ≤ s * c) as Hsc by nia. apply (Z.mul_le_mono_nonneg_r _ _ _ Hsc) in H1. lia. }
  assert (h * B * c ≤ h * B * 2 ^ 53) as Hhc by nia.
  assert (2 ^ 212 * (h * B) ≤ s * B) as Hhs by nia.
  assert (0 < h * B) as HhB by nia.
  revert H1' H2' H3' Hhc Hhs HhB. generalize (N * B) (q * B * c) (a * s * c) (c * D * s) (h * B * c) (h * B) (s * B).
  intros. lia.
Qed.

Lemma scaled_difference_bound x y p c :
  dvalid x → dvalid y → dvalid p → dfinite x = true → dfinite y = true → dfinite p = true →
  dnonneg x = true → dnonneg y = true → dpos p = true → dvalue y ≤ dvalue x →
  1 ≤ c ≤ 2 ^ 53 → c * (dvalue x - dvalue y) ≤ 2 ^ 61 * dvalue p →
  ∃ n, dtrunc (dmul (ddiv (dsub x y) p) (d_of_Z c)) = Some n ∧ 0 ≤ n ≤ 2 ^ 62 ∧
    2 ^ 50 * (n * dvalue p) ≤ (2 ^ 50 + 1) * (c * (dvalue x - dvalue y)).
Proof.
  intros Vx Vy Vp Fx Fy Fp Nx Ny Pp Hle Hc Hrange.
  destruct (dsub_up x y) as (a & Ha & Ha0 & H1); [done..|].
  destruct (rounds_to_number _ _ Ha (dsub_finite x y Vx Vy Fx Fy Nx Ny Hle)) as (Va & Na & Ea).
  destruct (ddiv_up (dsub x y) p) as (q & Hq & Hq0 & H2); [done|done|by apply dsub_finite|done..|].
  rewrite Ea in H2.
  assert (0 < dvalue p) as HB.
  { destruct p as [| | |[] m e]; try done. apply bounded_spec in Vp as [Vp _]. apply value_pos. unfold scale. lia. }
  assert (0 < tiny) as Ht by (apply pow2_pos; unfold scale; lia).
  assert (2 ^ 1024 * tiny ≤ 2 ^ scale) as Hts.
  { unfold tiny. rewrite <-Z.pow_add_r by (unfold scale; lia). apply Z.pow_le_mono_r; unfold scale; lia. }
  set (D := dvalue x - dvalue y) in *. set (B := dvalue p) in *.
  assert (0 ≤ D) as HD by lia.
  assert (q < 2 ^ (1024 + scale)) as Hqfin.
  { rewrite Z.pow_add_r by (unfold scale; lia). revert H2 Ht Hts. generalize tiny (2 ^ scale). intros h s H2 Ht Hts.
    assert (D ≤ c * D) by nia. assert (a ≤ 2 ^ 62 * B) by lia. assert (0 < s) by lia.
    assert (a * s ≤ 2 ^ 62 * (s * B)) by nia. assert (h * B ≤ s * B) by nia.
    assert (q * B < 2 ^ 64 * (s * B)) by nia. assert (q < 2 ^ 64 * s) by nia. lia. }
  destruct (rounds_to_number _ _ Hq (rounds_to_finite _ _ Hq Hqfin)) as (Vq & Nq & Eq).
  destruct (d_of_Z_exact c Hc) as (mc & ec & Hd & Hb & Hv).
  destruct (dmul_up (ddiv (dsub x y) p) (d_of_Z c) c) as (N & HN & HN0 & H3).
  { done. } { by rewrite Hd. } { by eapply rounds_to_finite. } { by rewrite Hd. } { done. }
  { by rewrite Hd. } { by rewrite Hd. }
  unfold rounded_up in H3. rewrite Eq in H3.
  pose proof (errors_together a q N c D B (2 ^ scale) tiny Ha0 Hq0 HD HB Ht ltac:(lia) Hc H1 H2 H3) as Hall.
  assert (0 < 2 ^ scale) as Hs by (apply pow2_pos; unfold scale; lia).
  assert (N < 2 ^ 62 * 2 ^ scale) as HN62.
  { revert Hall Hs. generalize (2 ^ scale). intros s Hall Hs.
    assert (c * D * s ≤ 2 ^ 61 * (s * B)) by nia. assert (0 < s * B) by nia.
    assert (N * B < 2 ^ 62 * (s * B)); [|nia]. lia. }
  destruct (dtrunc_rounds N _ HN) as (n & Hn & Hn0 & HnN).
  { rewrite Z.pow_add_r by (unfold scale; lia). lia. }
  exists n. split; [done|]. revert Hall Hs HN62 HnN. generalize (2 ^ scale). intros s Hall Hs HN62 HnN.
  split; [nia|]. assert (n * s * B ≤ N * B) by nia.
  assert (2 ^ 156 * (n * B) ≤ (2 ^ 52 + 1) ^ 3 * (c * D) + B) as Hfin.
  { apply (Z.mul_le_mono_pos_r _ _ s Hs). lia. }
  destruct (Z.eq_dec n 0) as [->|]; [nia|]. assert (B ≤ n * B) by nia. assert (0 ≤ c * D) by nia. lia.
Qed.
