(* ===== verification/TreeSpec.v ===== *)
(** * The interface of vtree.h's red-black trees

    [OrdTree] lists the operations the modules use (VRB_INIT, VRB_FIND,
    VRB_INSERT, VRB_REMOVE, VRB_MIN, VRB_NEXT); [OrdTreeLaws] is the abstract
    specification: a tree stands for a strictly sorted list of elements.  An
    element is its key and the address of the struct that embeds it (the code
    never changes the key of a struct that is in a tree).  vmod_vsthrottle.c
    and vmod_xkey.c are verified against this interface; VTree.v implements
    it.  The loops VRB_FOREACH and VRB_FOREACH_SAFE are defined here, with the
    rules that turn them into loops over the sorted list. *)
From Stdlib Require Export Sorted.
From S2P Require Import Prelude CStr.

Abbreviation loc := positive.

(** A comparison function in the sense of the cmp argument of VRB_GENERATE. *)
Class TotalCmp {K : Type} (cmp : K → K → comparison) : Prop := {
  cmp_eq a b : cmp a b = Eq ↔ a = b;
  cmp_antisym a b : cmp b a = CompOpp (cmp a b);
  cmp_trans a b c : cmp a b = Lt → cmp b c = Lt → cmp a c = Lt;
}.

#[export] Instance memcmp_total : TotalCmp memcmp.
Proof. split; [apply memcmp_eq|apply memcmp_antisym|apply memcmp_trans]. Qed.

(** xkey_ptrcmp, on addresses as integers (uintptr_t). *)
Abbreviation uintptr := N.
Definition ptrcmp (p q : uintptr) : comparison := (p ?= q)%N.
#[export] Instance ptrcmp_total : TotalCmp ptrcmp.
Proof.
  unfold ptrcmp. split.
  - apply N.compare_eq_iff.
  - intros a b. apply N.compare_antisym.
  - intros a b c. rewrite !N.compare_lt_iff. lia.
Qed.

Class OrdTree (K T : Type) := {
  VRB_INIT : T;
  VRB_FIND : T → K → option loc;
  (** The element with an equal key, or NULL and the new tree. *)
  VRB_INSERT : T → K → loc → outcome (option loc * T);
  VRB_REMOVE : T → K → outcome T;
  VRB_MIN : T → option (K * loc);
  VRB_NEXT : T → K → option (K * loc);
}.

Section laws.
Context {K T : Type} (cmp : K → K → comparison).

Definition key_lt (a b : K * loc) : Prop := cmp a.1 b.1 = Lt.
Abbreviation sorted := (StronglySorted key_lt).

Class OrdTreeLaws `{OrdTree K T} := {
  tree_ok : T → Prop;
  tree_list : T → list (K * loc);
  tree_sorted t : tree_ok t → sorted (tree_list t);
  tree_init : tree_ok VRB_INIT ∧ tree_list VRB_INIT = [];
  tree_find t k l : tree_ok t → VRB_FIND t k = Some l ↔ (k, l) ∈ tree_list t;
  tree_insert_hit t k l l' : tree_ok t → (k, l') ∈ tree_list t →
    VRB_INSERT t k l = Ret (Some l', t);
  tree_insert_new t k l : tree_ok t → VRB_FIND t k = None →
    ∃ t', VRB_INSERT t k l = Ret (None, t') ∧ tree_ok t' ∧
      ∃ l1 l2, tree_list t = l1 ++ l2 ∧ tree_list t' = l1 ++ (k, l) :: l2;
  tree_remove t k l l1 l2 : tree_ok t → tree_list t = l1 ++ (k, l) :: l2 →
    ∃ t', VRB_REMOVE t k = Ret t' ∧ tree_ok t' ∧ tree_list t' = l1 ++ l2;
  tree_min t : tree_ok t → VRB_MIN t = head (tree_list t);
  tree_next t k l l1 l2 : tree_ok t → tree_list t = l1 ++ (k, l) :: l2 →
    VRB_NEXT t k = head l2;
}.
End laws.
Arguments tree_ok {K T cmp _ _} _.
Arguments tree_list {K T cmp _ _} _.
Arguments tree_sorted {K T cmp _ _} _ _.
Arguments tree_init {K T cmp _ _}.
Arguments tree_find {K T cmp _ _} _ _ _ _.
Arguments tree_insert_hit {K T cmp _ _} _ _ _ _ _ _.
Arguments tree_insert_new {K T cmp _ _} _ _ _ _ _.
Arguments tree_remove {K T cmp _ _} _ _ _ _ _ _ _.
Arguments tree_min {K T cmp _ _} _ _.
Arguments tree_next {K T cmp _ _} _ _ _ _ _ _ _.

(** ** Sorted lists of elements *)
Section sorted_lists.
Context {K : Type} {cmp : K → K → comparison} `{!TotalCmp cmp}.
Abbreviation sorted := (StronglySorted (key_lt cmp)).
Implicit Types (xs ys : list (K * loc)) (k : K) (l : loc).

Lemma cmp_refl k : cmp k k = Eq.
Proof. by apply cmp_eq. Qed.
Lemma cmp_gt_lt a b : cmp a b = Gt ↔ cmp b a = Lt.
Proof. rewrite (cmp_antisym (cmp:=cmp) a b). by destruct (cmp a b). Qed.

Lemma sorted_app xs ys : sorted (xs ++ ys) ↔
  sorted xs ∧ sorted ys ∧ (∀ x y, x ∈ xs → y ∈ ys → key_lt cmp x y).
Proof.
  induction xs as [|x xs IH]; simpl.
  - split; [|tauto]. intros Hs. split; [constructor|]. split; [done|set_solver].
  - split.
    + intros Hs. inversion_clear Hs as [|?? Hs' Hall].
      apply IH in Hs' as (H1 & H2 & H3). rewrite Forall_app in Hall.
      destruct Hall as [Ha Hb]. split_and!; [by constructor|done|].
      intros a y [->|Ha']%elem_of_cons Hy; [|eauto].
      by eapply Forall_forall in Hb.
    + intros (Hs & H2 & H3). inversion_clear Hs as [|?? Hs' Hall]. constructor.
      * apply IH. split_and!; [done..|]. intros; apply H3; set_solver.
      * apply Forall_app. split; [done|]. apply Forall_forall. intros y Hy.
        apply H3; [left|done].
Qed.

Lemma sorted_mid xs k l ys : sorted (xs ++ (k, l) :: ys) →
  sorted xs ∧ sorted ys ∧ (∀ x, x ∈ xs → cmp x.1 k = Lt) ∧
  (∀ y, y ∈ ys → cmp k y.1 = Lt).
Proof.
  rewrite sorted_app. intros (H1 & H2 & H3). inversion_clear H2 as [|?? H2' Hall].
  rewrite Forall_forall in Hall. split_and!; [done|done| |apply Hall].
  intros x Hx. apply (H3 x (k, l)); [done|left].
Qed.

Lemma sorted_NoDup xs : sorted xs → NoDup xs.*1.
Proof.
  induction 1 as [|[k l] xs Hs IH Hall]; simpl; constructor; [|done].
  intros ([k' l'] & -> & Hin)%list_elem_of_fmap. rewrite Forall_forall in Hall.
  specialize (Hall _ Hin). unfold key_lt in Hall. simpl in Hall.
  by rewrite cmp_refl in Hall.
Qed.

Lemma sorted_fun xs k l l' : sorted xs → (k, l) ∈ xs → (k, l') ∈ xs → l = l'.
Proof.
  intros Hs (xs1 & xs2 & ->)%list_elem_of_split Hin.
  apply sorted_mid in Hs as (_ & _ & H1 & H2).
  apply elem_of_app in Hin as [Hin|[[=]|Hin]%elem_of_cons]; [|done|].
  - specialize (H1 _ Hin). simpl in H1. by rewrite cmp_refl in H1.
  - specialize (H2 _ Hin). simpl in H2. by rewrite cmp_refl in H2.
Qed.

(** An element splits a sorted list in one way. *)
Lemma sorted_split_inj xs ys xs' ys' k l l' :
  sorted (xs ++ (k, l) :: ys) → xs' ++ (k, l') :: ys' = xs ++ (k, l) :: ys →
  xs' = xs ∧ ys' = ys.
Proof.
  revert xs'. induction xs as [|x xs IH]; intros [|x' xs'] Hs He; simplify_list_eq.
  - done.
  - exfalso. apply (sorted_mid []) in Hs as (_ & _ & _ & H).
    specialize (H (k, l')). simpl in H. rewrite cmp_refl in H.
    discriminate H. apply elem_of_app. right. left.
  - exfalso. apply (sorted_mid (_ :: _)) in Hs as (_ & _ & H & _).
    specialize (H (k, l')). simpl in H. rewrite cmp_refl in H. discriminate H. left.
  - inversion_clear Hs. destruct (IH xs'); naive_solver.
Qed.
End sorted_lists.

(** ** Cutting a sorted list at a key *)
Section cut.
Context {K : Type} (cmp : K → K → comparison).
Abbreviation elm := (K * loc)%type.

Definition below (k : K) : list elm → list elm := filter (λ e, cmp e.1 k = Lt).
Definition at_key (k : K) : list elm → list elm := filter (λ e, cmp k e.1 = Eq).
Definition above (k : K) : list elm → list elm := filter (λ e, cmp k e.1 = Lt).
Definition all_below (k : K) (xs : list elm) : Prop := ∀ e, e ∈ xs → cmp e.1 k = Lt.
Definition all_above (k : K) (xs : list elm) : Prop := ∀ e, e ∈ xs → cmp k e.1 = Lt.
End cut.
Section cut_lemmas.
Context {K : Type} {cmp : K → K → comparison} `{!TotalCmp cmp}.
Abbreviation elm := (K * loc)%type.
Abbreviation sorted := (StronglySorted (key_lt cmp)).
Implicit Types (x y e : elm) (xs ys : list elm) (k : K).

Lemma below_not_eq k e : cmp e.1 k = Lt → cmp k e.1 = Gt.
Proof. intros H. by apply (cmp_gt_lt (cmp:=cmp)). Qed.
Lemma split_below k xs ys : all_below cmp k xs → all_above cmp k ys →
  below cmp k (xs ++ ys) = xs ∧ at_key cmp k (xs ++ ys) = [] ∧ above cmp k (xs ++ ys) = ys.
Proof.
  intros Hx Hy. unfold below, at_key, above. rewrite !filter_app.
  rewrite (filter_all (λ e, cmp e.1 k = Lt) xs) by done.
  rewrite (filter_all (λ e, cmp k e.1 = Lt) ys) by done.
  rewrite !filter_none, app_nil_r; [done|..]; intros e He; first [specialize (Hx e He)|specialize (Hy e He)];
    intros H; try apply below_not_eq in H; try apply below_not_eq in Hx; congruence.
Qed.
Lemma split_at xs e ys : all_below cmp e.1 xs → all_above cmp e.1 ys →
  below cmp e.1 (xs ++ e :: ys) = xs ∧ at_key cmp e.1 (xs ++ e :: ys) = [e] ∧
  above cmp e.1 (xs ++ e :: ys) = ys.
Proof.
  intros Hx Hy. destruct (split_below e.1 xs ys Hx Hy) as (H1 & H2 & H3).
  assert (cmp e.1 e.1 = Eq) as He by apply cmp_refl.
  unfold below, at_key, above in *. rewrite !filter_app, !filter_cons in *.
  rewrite He. rewrite !decide_False by done. rewrite decide_True by done.
  split_and!; [done| |done]. apply app_eq_nil in H2 as [-> ->]. done.
Qed.

Lemma sorted_filter P `{!∀ e, Decision (P e)} xs : sorted xs → sorted (filter P xs).
Proof.
  induction 1 as [|x xs Hs IH Hall]; [constructor|]. rewrite filter_cons.
  case_decide; [|done]. constructor; [done|]. rewrite Forall_forall in *.
  intros e [_ He]%list_elem_of_filter. by apply Hall.
Qed.
Lemma sorted_around k xs : sorted xs → sorted (below cmp k xs ++ above cmp k xs).
Proof.
  intros Hs. apply sorted_app. split_and!; [by apply sorted_filter..|].
  intros e e' [H _]%list_elem_of_filter [H' _]%list_elem_of_filter. by eapply cmp_trans.
Qed.
Lemma sorted_insert e xs : sorted xs → sorted (below cmp e.1 xs ++ e :: above cmp e.1 xs).
Proof.
  intros Hs. apply sorted_app. split_and!; [by apply sorted_filter| |].
  - constructor; [by apply sorted_filter|]. apply Forall_forall.
    intros e' [H _]%list_elem_of_filter. done.
  - intros e1 e2 [H _]%list_elem_of_filter [->|[H' _]%list_elem_of_filter]%elem_of_cons; [done|].
    by eapply cmp_trans.
Qed.
End cut_lemmas.

(** ** Consequences of the laws *)
Section derived.
Context {K T : Type} {cmp : K → K → comparison} `{!TotalCmp cmp}.
Context `{!OrdTree K T, !OrdTreeLaws cmp}.
Implicit Types (t : T) (k : K) (l : loc).

Lemma tree_fun t k l l' : tree_ok t → (k, l) ∈ tree_list t → (k, l') ∈ tree_list t → l = l'.
Proof. intros Hok. by eapply sorted_fun, tree_sorted. Qed.

Lemma tree_find_None t k : tree_ok t → VRB_FIND t k = None ↔ k ∉ (tree_list t).*1.
Proof.
  intros Hok. split.
  - intros Hf ([k' l] & -> & Hin%tree_find)%list_elem_of_fmap; [simpl in *; congruence|done].
  - intros Hn. destruct (VRB_FIND t k) as [l|] eqn:Hf; [|done]. exfalso. apply Hn.
    apply tree_find in Hf; [|done]. by apply (list_elem_of_fmap_2 fst) in Hf.
Qed.

(** Insertion and removal in terms of membership. *)
Lemma tree_insert_elem t k l : tree_ok t → VRB_FIND t k = None →
  ∃ t', VRB_INSERT t k l = Ret (None, t') ∧ tree_ok t' ∧
    tree_list t' ≡ₚ (k, l) :: tree_list t.
Proof.
  intros Hok Hf. destruct (tree_insert_new t k l Hok Hf) as (t' & Hi & Hok' & l1 & l2 & Hl & Hl').
  exists t'. split; [done|]. split; [done|]. rewrite Hl, Hl'. symmetry. apply Permutation_middle.
Qed.
Lemma tree_remove_elem t k l : tree_ok t → (k, l) ∈ tree_list t →
  ∃ t', VRB_REMOVE t k = Ret t' ∧ tree_ok t' ∧
    tree_list t ≡ₚ (k, l) :: tree_list t' ∧
    (∀ x, x ∈ tree_list t' ↔ x ∈ tree_list t ∧ x.1 ≠ k).
Proof.
  intros Hok (l1 & l2 & Hl)%list_elem_of_split.
  destruct (tree_remove t k l l1 l2 Hok Hl) as (t' & Hr & Hok' & Hl').
  exists t'. split; [done|]. split; [done|]. rewrite Hl, Hl'.
  split; [symmetry; apply Permutation_middle|].
  pose proof (tree_sorted t Hok) as Hs. rewrite Hl in Hs.
  apply sorted_mid in Hs as (_ & _ & H1 & H2). intros [k' l'].
  rewrite !elem_of_app, elem_of_cons. simpl. split; [|naive_solver].
  intros [Hin|Hin]; (split; [tauto|]); intros ->.
  - specialize (H1 _ Hin). simpl in H1. by rewrite cmp_refl in H1.
  - specialize (H2 _ Hin). simpl in H2. by rewrite cmp_refl in H2.
Qed.
End derived.

(** ** The loops *)
Section loops.
Context {K T St : Type} {cmp : K → K → comparison} `{!TotalCmp cmp}.
Context `{!OrdTree K T, !OrdTreeLaws cmp}.
(** Where the state keeps the tree. *)
Context (tree : St → T).

(** VRB_FOREACH_SAFE(x, tree, head, y) from [x] on: [y] is computed before
    the body runs. *)
Fixpoint foreach_safe (fuel : nat) (x : option (K * loc)) (body : K * loc → M St unit)
    : M St unit :=
  match x with
  | None => mret tt
  | Some x =>
      match fuel with
      | O => no_fuel
      | S fuel =>
          t ← getsS tree;
          let y := VRB_NEXT t x.1 in
          body x;;; foreach_safe fuel y body
      end
  end.
(** VRB_FOREACH(x, tree, head): the step is taken after the body. *)
Fixpoint foreach (fuel : nat) (x : option (K * loc)) (body : K * loc → M St unit)
    : M St unit :=
  match x with
  | None => mret tt
  | Some x =>
      match fuel with
      | O => no_fuel
      | S fuel =>
          body x;;;
          t ← getsS tree;
          foreach fuel (VRB_NEXT t x.1) body
      end
  end.

(** A body may remove the element it is run on (or an earlier one): as long
    as the elements still to come stay in the tree, the loop visits the
    elements the tree held when it started, in order, and ends. *)
Lemma wp_foreach_safe (I : list (K * loc) → St → Prop) (s : St) body fuel
    (Q : unit → St → Prop) :
  tree_ok (tree s) → length (tree_list (tree s)) ≤ fuel →
  I [] s →
  (∀ seen x todo s', tree_list (tree s) = seen ++ x :: todo → I seen s' →
     (∃ kept, tree_ok (tree s') ∧ tree_list (tree s') = kept ++ x :: todo) ∧
     wp (body x) (λ _ : unit, I (seen ++ [x])) s') →
  (∀ s', I (tree_list (tree s)) s' → Q tt s') →
  wp (foreach_safe fuel (VRB_MIN (tree s)) body) Q s.
Proof.
  intros Hok Hfuel H0 Hstep Hend. rewrite (tree_min _ Hok).
  enough (∀ todo seen fuel s', tree_list (tree s) = seen ++ todo → length todo ≤ fuel →
    I seen s' → wp (foreach_safe fuel (head todo) body) Q s') as H by by eapply (H _ []).
  clear fuel Hfuel. induction todo as [|[k l] todo IH]; intros seen fuel s' Hl Hf HI.
  - destruct fuel; apply Hend; by rewrite Hl, app_nil_r.
  - destruct fuel as [|fuel]; simpl in Hf; [lia|]. cbn [head foreach_safe].
    destruct (Hstep _ _ _ _ Hl HI) as [(kept & Hok' & Hl') Hbody]. wp_go. cbn [fst].
    rewrite (tree_next _ _ _ _ _ Hok' Hl'). eapply wp_mono; [exact Hbody|].
    intros [] s'' HI'. apply (IH (seen ++ [(k, l)])); [|lia|done].
    by rewrite Hl, <-(assoc_L (++)).
Qed.

(** The loop without removal, for a body that leaves the tree alone. *)
Lemma wp_foreach (I : list (K * loc) → St → Prop) (s : St) body fuel
    (Q : unit → St → Prop) :
  tree_ok (tree s) → length (tree_list (tree s)) ≤ fuel →
  I [] s →
  (∀ seen x todo s', tree_list (tree s) = seen ++ x :: todo → I seen s' →
     wp (body x) (λ _ : unit, λ s'', I (seen ++ [x]) s'' ∧ tree s'' = tree s) s') →
  (∀ s', I (tree_list (tree s)) s' → Q tt s') →
  wp (foreach fuel (VRB_MIN (tree s)) body) Q s.
Proof.
  intros Hok Hfuel H0 Hstep Hend. rewrite (tree_min _ Hok).
  enough (∀ todo seen fuel s', tree_list (tree s) = seen ++ todo → length todo ≤ fuel →
    I seen s' → wp (foreach fuel (head todo) body) Q s') as H by by eapply (H _ []).
  clear fuel Hfuel. induction todo as [|[k l] todo IH]; intros seen fuel s' Hl Hf HI.
  - destruct fuel; apply Hend; by rewrite Hl, app_nil_r.
  - destruct fuel as [|fuel]; simpl in Hf; [lia|]. cbn [head foreach]. wp_go.
    eapply wp_mono; [by eapply Hstep|].
    intros [] s'' [HI' Ht]. wp_go. cbn [fst]. rewrite Ht, (tree_next _ _ _ _ _ Hok Hl).
    apply (IH (seen ++ [(k, l)])); [|lia|done]. by rewrite Hl, <-(assoc_L (++)).
Qed.
End loops.
