(* ===== verification/VTree.v ===== *)
(** * vtree.h: the red-black tree macros

    The functions VRB_GENERATE defines.  A node is [Node color left elm right];
    the parent pointers are the path from a node to the root: a [frame] is a
    parent whose left ([InLeft]) or right ([InRight]) field holds the subtree
    below.  A function that walks up by VRB_PARENT consumes the path.  Every
    access to a field of a NULL pointer is [Undef].  The macros on the structs
    in memory, parent pointers included, are in VPtr.v, which shows that they
    do what the ones of this file do; the splay trees of the same header are
    in Splay.v. *)
From S2P Require Import Prelude CStr TreeSpec.

Inductive color := VRB_BLACK | VRB_RED.
#[export] Instance color_eq_dec : EqDecision color.
Proof. solve_decision. Defined.

Section rb.
Context {K : Type} (cmp : K → K → comparison).
Abbreviation elm := (K * loc)%type.

Inductive rbtree :=
| Nil
| Node (c : color) (left : rbtree) (x : elm) (right : rbtree).
Inductive frame :=
| InLeft (c : color) (x : elm) (right : rbtree)
| InRight (c : color) (left : rbtree) (x : elm).
Abbreviation path := (list frame).

Definition plug (t : rbtree) (f : frame) : rbtree :=
  match f with
  | InLeft c x r => Node c t x r
  | InRight c l x => Node c l x t
  end.
(** From a node back to the root. *)
Fixpoint zip (t : rbtree) (p : path) : rbtree :=
  match p with [] => t | f :: p' => zip (plug t f) p' end.

Definition is_red (t : rbtree) : bool :=
  match t with Node VRB_RED _ _ _ => true | _ => false end.
Definition set_color (c : color) (t : rbtree) : rbtree :=
  match t with Nil => Nil | Node _ l x r => Node c l x r end.
(** VRB_COLOR(t) = c, for a pointer t. *)
Definition put_color (c : color) (t : rbtree) : outcome rbtree :=
  match t with Nil => Undef "VRB_COLOR(NULL)" | Node _ l x r => Ret (Node c l x r) end.

Definition VRB_ROTATE_LEFT (t : rbtree) : outcome rbtree :=
  match t with
  | Node c l x (Node c' l' x' r') => Ret (Node c' (Node c l x l') x' r')
  | _ => Undef "VRB_ROTATE_LEFT"
  end.
Definition VRB_ROTATE_RIGHT (t : rbtree) : outcome rbtree :=
  match t with
  | Node c (Node c' l' x' r') x r => Ret (Node c' l' x' (Node c r' x r))
  | _ => Undef "VRB_ROTATE_RIGHT"
  end.

(** [t] is elm, the first frame its parent, the second its gparent.  After
    the rotations elm's parent is black, which ends the loop. *)
Fixpoint insert_color_loop (t : rbtree) (p : path) {struct p} : outcome rbtree :=
  match p with
  | InLeft VRB_RED px pr :: InLeft gc gx uncle :: p' =>
      if is_red uncle then
        insert_color_loop
          (Node VRB_RED (Node VRB_BLACK t px pr) gx (set_color VRB_BLACK uncle)) p'
      else
        g ← VRB_ROTATE_RIGHT (Node VRB_RED (Node VRB_BLACK t px pr) gx uncle);
        Ret (zip g p')
  | InRight VRB_RED pl px :: InLeft gc gx uncle :: p' =>
      if is_red uncle then
        insert_color_loop
          (Node VRB_RED (Node VRB_BLACK pl px t) gx (set_color VRB_BLACK uncle)) p'
      else
        parent ← VRB_ROTATE_LEFT (Node VRB_RED pl px t);
        parent ← put_color VRB_BLACK parent;
        g ← VRB_ROTATE_RIGHT (Node VRB_RED parent gx uncle);
        Ret (zip g p')
  | InRight VRB_RED pl px :: InRight gc uncle gx :: p' =>
      if is_red uncle then
        insert_color_loop
          (Node VRB_RED (set_color VRB_BLACK uncle) gx (Node VRB_BLACK pl px t)) p'
      else
        g ← VRB_ROTATE_LEFT (Node VRB_RED uncle gx (Node VRB_BLACK pl px t));
        Ret (zip g p')
  | InLeft VRB_RED px pr :: InRight gc uncle gx :: p' =>
      if is_red uncle then
        insert_color_loop
          (Node VRB_RED (set_color VRB_BLACK uncle) gx (Node VRB_BLACK t px pr)) p'
      else
        parent ← VRB_ROTATE_RIGHT (Node VRB_RED t px pr);
        parent ← put_color VRB_BLACK parent;
        g ← VRB_ROTATE_LEFT (Node VRB_RED uncle gx parent);
        Ret (zip g p')
  | [InLeft VRB_RED _ _] | [InRight VRB_RED _ _] => Undef "VRB_LEFT(NULL gparent)"
  | _ => Ret (zip t p)   (* no parent, or a black one *)
  end.
Definition VRB_INSERT_COLOR (t : rbtree) (p : path) : outcome rbtree :=
  root ← insert_color_loop t p; put_color VRB_BLACK root.

(** The descent of VRB_INSERT: an equal element, or the place of the new
    one. *)
Fixpoint insert_at (t : rbtree) (k : K) (p : path) : loc + path :=
  match t with
  | Nil => inr p
  | Node c l x r =>
      match cmp k x.1 with
      | Lt => insert_at l k (InLeft c x r :: p)
      | Gt => insert_at r k (InRight c l x :: p)
      | Eq => inl x.2
      end
  end.
Definition rb_insert (t : rbtree) (k : K) (l : loc) : outcome (option loc * rbtree) :=
  match insert_at t k [] with
  | inl tmp => Ret (Some tmp, t)
  | inr p => t' ← VRB_INSERT_COLOR (Node VRB_RED Nil (k, l) Nil) p; Ret (None, t')
  end.

(** The loop of VRB_REMOVE_COLOR: elm is [t] (possibly NULL), parent is the
    first frame; the result is the whole tree.  Leaving the loop by [break]
    sets elm to the root, which is then painted black. *)
Fixpoint remove_color_loop (fuel : nat) (t : rbtree) (p : path) : outcome rbtree :=
  match fuel with
  | O => NoFuel
  | S fuel =>
      match p with
      | [] => Ret (set_color VRB_BLACK t)          (* elm == VRB_ROOT(head) *)
      | f :: p' =>
          if is_red t then Ret (zip (set_color VRB_BLACK t) p)
          else
            match f with
            | InLeft c x sib =>
                match sib with
                | Nil => Undef "VRB_COLOR(NULL)"
                | Node VRB_RED tl tx tr =>
                    (* SET_BLACKRED, ROTATE_LEFT(parent): parent keeps elm
                       and gets the sibling's left child *)
                    remove_left fuel t VRB_RED x tl (InLeft VRB_BLACK tx tr :: p')
                | Node VRB_BLACK _ _ _ => remove_left fuel t c x sib p'
                end
            | InRight c sib x =>
                match sib with
                | Nil => Undef "VRB_COLOR(NULL)"
                | Node VRB_RED tl tx tr =>
                    remove_right fuel t VRB_RED tr x (InRight VRB_BLACK tl tx :: p')
                | Node VRB_BLACK _ _ _ => remove_right fuel t c sib x p'
                end
            end
      end
  end
(** The rest of the loop's body when elm is parent's left child; [c], [x]
    are parent's, [tmp] is VRB_RIGHT(parent). *)
with remove_left (fuel : nat) (t : rbtree) (c : color) (x : elm) (tmp : rbtree) (p : path)
    : outcome rbtree :=
  match fuel with
  | O => NoFuel
  | S fuel =>
      match tmp with
      | Nil => Undef "VRB_LEFT(NULL)"
      | Node tc tl tx tr =>
          if negb (is_red tl) && negb (is_red tr) then
            remove_color_loop fuel (Node c t x (Node VRB_RED tl tx tr)) p
          else
            tmp ← (if is_red tr then Ret tmp else
                     VRB_ROTATE_RIGHT (Node VRB_RED (set_color VRB_BLACK tl) tx tr));
            match tmp with
            | Nil => Undef "VRB_COLOR(NULL)"
            | Node _ tl tx tr =>
                parent ← VRB_ROTATE_LEFT
                  (Node VRB_BLACK t x (Node c tl tx (set_color VRB_BLACK tr)));
                Ret (set_color VRB_BLACK (zip parent p))
            end
      end
  end
with remove_right (fuel : nat) (t : rbtree) (c : color) (tmp : rbtree) (x : elm) (p : path)
    : outcome rbtree :=
  match fuel with
  | O => NoFuel
  | S fuel =>
      match tmp with
      | Nil => Undef "VRB_LEFT(NULL)"
      | Node tc tl tx tr =>
          if negb (is_red tl) && negb (is_red tr) then
            remove_color_loop fuel (Node c (Node VRB_RED tl tx tr) x t) p
          else
            tmp ← (if is_red tl then Ret tmp else
                     VRB_ROTATE_LEFT (Node VRB_RED tl tx (set_color VRB_BLACK tr)));
            match tmp with
            | Nil => Undef "VRB_COLOR(NULL)"
            | Node _ tl tx tr =>
                parent ← VRB_ROTATE_RIGHT
                  (Node VRB_BLACK (Node c (set_color VRB_BLACK tl) tx tr) x t);
                Ret (set_color VRB_BLACK (zip parent p))
            end
      end
  end.
(** Each turn but the last of the loop climbs, and a red sibling adds one
    level. *)
Definition VRB_REMOVE_COLOR (t : rbtree) (p : path) : outcome rbtree :=
  remove_color_loop (4 + 2 * length p) t p.

(** The element with key [k] and the path to it: the C code holds a pointer
    to it, which fixes its place in the tree. *)
Fixpoint locate (t : rbtree) (k : K) (p : path) : option (rbtree * path) :=
  match t with
  | Nil => None
  | Node c l x r =>
      match cmp k x.1 with
      | Lt => locate l k (InLeft c x r :: p)
      | Gt => locate r k (InRight c l x :: p)
      | Eq => Some (t, p)
      end
  end.
(** The loop to the leftmost node of [Node c l x r]: its color, its
    element, its right child and the path to it. *)
Fixpoint leftmost (c : color) (l : rbtree) (x : elm) (r : rbtree) (p : path)
    : color * elm * rbtree * path :=
  match l with
  | Nil => (c, x, r, p)
  | Node c' l' x' r' => leftmost c' l' x' r' (InLeft c x r :: p)
  end.
(** From the label [color:] on. *)
Definition finish_remove (color : color) (child : rbtree) (parent : path) : outcome rbtree :=
  match color with
  | VRB_BLACK => VRB_REMOVE_COLOR child parent
  | VRB_RED => Ret (zip child parent)
  end.
Definition rb_remove (t : rbtree) (k : K) : outcome rbtree :=
  match locate t k [] with
  | Some (Node c l x r, p) =>
      match l, r with
      | Nil, _ => finish_remove c r p
      | _, Nil => finish_remove c l p
      | _, Node rc rl rx rr =>
          (* the successor takes the place, the children and the color of
             the removed node *)
          let '(color, x', child, sp) := leftmost rc rl rx rr [] in
          finish_remove color child (sp ++ InRight c l x' :: p)
      end
  | _ => Undef "VRB_REMOVE of an element that is not in the tree"
  end.

Fixpoint rb_find (t : rbtree) (k : K) : option loc :=
  match t with
  | Nil => None
  | Node c l x r =>
      match cmp k x.1 with
      | Lt => rb_find l k
      | Gt => rb_find r k
      | Eq => Some x.2
      end
  end.
(** The first element whose key is at least [k]. *)
Fixpoint rb_nfind (t : rbtree) (k : K) (res : option elm) : option elm :=
  match t with
  | Nil => res
  | Node c l x r =>
      match cmp k x.1 with
      | Lt => rb_nfind l k (Some x)
      | Gt => rb_nfind r k res
      | Eq => Some x
      end
  end.
(** VRB_MINMAX: the leftmost element for a negative [val], or the rightmost
    one. *)
Fixpoint rb_minmax (t : rbtree) (val : Z) (parent : option elm) : option elm :=
  match t with
  | Nil => parent
  | Node c l x r =>
      if (val <? 0)%Z then rb_minmax l val (Some x) else rb_minmax r val (Some x)
  end.
Definition rb_min (t : rbtree) : option elm := rb_minmax t (-1) None.

(** VRB_NEXT: down to the right's leftmost, or up. *)
Fixpoint climb (p : path) : option elm :=
  match p with
  | [] => None
  | InLeft _ x _ :: _ => Some x
  | InRight _ _ _ :: p' => climb p'
  end.
Definition rb_next (t : rbtree) (k : K) : option elm :=
  match locate t k [] with
  | Some (Node _ _ _ (Node c l x r), _) => let '(_, x', _, _) := leftmost c l x r [] in Some x'
  | Some (_, p) => climb p
  | None => None
  end.

(** VRB_PREV and VRB_MAX, the mirror images. *)
Fixpoint rightmost (x : elm) (r : rbtree) : elm :=
  match r with Nil => x | Node _ _ x' r' => rightmost x' r' end.
Fixpoint climb_prev (p : path) : option elm :=
  match p with
  | [] => None
  | InRight _ _ x :: _ => Some x
  | InLeft _ _ _ :: p' => climb_prev p'
  end.
Definition rb_prev (t : rbtree) (k : K) : option elm :=
  match locate t k [] with
  | Some (Node _ (Node c l x r) _ _, _) => Some (rightmost x r)
  | Some (_, p) => climb_prev p
  | None => None
  end.
Definition rb_max (t : rbtree) : option elm := rb_minmax t 1 None.
End rb.
Arguments rbtree K : clear implicits.
Arguments frame K : clear implicits.
Arguments Nil {K}.

Example insert_remove_123 :
  (t ← (let ins t k := r ← rb_insert ptrcmp t k (N.succ_pos k); Ret r.2 in
        t ← ins Nil 1%N; t ← ins t 2%N; t ← ins t 3%N; t ← ins t 4%N; ins t 5%N);
   t ← rb_remove ptrcmp t 2%N;
   rb_remove ptrcmp t 1%N)
  = Ret (Node VRB_BLACK (Node VRB_BLACK Nil (3%N, 4%positive) Nil) (4%N, 5%positive)
           (Node VRB_BLACK Nil (5%N, 6%positive) Nil)).
Proof. vm_compute. reflexivity. Qed.

(** ** The elements in order *)
Section elements.
Context {K : Type} (cmp : K → K → comparison) `{!TotalCmp cmp}.
Abbreviation elm := (K * loc)%type.
Abbreviation sorted := (StronglySorted (key_lt cmp)).
Implicit Types (t l r : rbtree K) (p : list (frame K)) (x : elm) (k : K).

Fixpoint elems t : list elm :=
  match t with Nil => [] | Node _ l x r => elems l ++ x :: elems r end.
(** What stands before and after the hole of a path. *)
Fixpoint lefts p : list elm :=
  match p with
  | [] => []
  | InLeft _ _ _ :: p' => lefts p'
  | InRight _ l x :: p' => lefts p' ++ elems l ++ [x]
  end.
Fixpoint rights p : list elm :=
  match p with
  | [] => []
  | InLeft _ x r :: p' => x :: elems r ++ rights p'
  | InRight _ _ _ :: p' => rights p'
  end.

Lemma elems_zip t p : elems (zip t p) = lefts p ++ elems t ++ rights p.
Proof.
  revert t. induction p as [|[c x r|c l x] p IH]; intros t; simpl.
  - by rewrite app_nil_r.
  - rewrite IH. simpl. by rewrite <-(assoc_L (++)).
  - rewrite IH. simpl. by rewrite <-!(assoc_L (++)).
Qed.
Lemma elems_set_color c t : elems (set_color c t) = elems t.
Proof. by destruct t. Qed.

Lemma zip_app t p q : zip t (p ++ q) = zip (zip t p) q.
Proof. revert t. induction p; simpl; auto. Qed.
Lemma lefts_app p q : lefts (p ++ q) = lefts q ++ lefts p.
Proof.
  induction p as [|[] p IH]; simpl; [by rewrite app_nil_r|done|].
  by rewrite IH, <-(assoc_L (++)).
Qed.
Lemma rights_app p q : rights (p ++ q) = rights p ++ rights q.
Proof.
  induction p as [|[] p IH]; simpl; [done| |done]. by rewrite IH, <-(assoc_L (++)).
Qed.

Lemma leftmost_spec c l x r p c' x' r' p' :
  leftmost c l x r p = (c', x', r', p') →
  zip (Node c l x r) p = zip (Node c' Nil x' r') p' ∧
  (lefts p = [] → lefts p' = []) ∧ elems (Node c l x r) ++ rights p =
    x' :: elems r' ++ rights p'.
Proof.
  revert c x r p. induction l as [|c1 l1 IH x1 r1 _]; intros c x r p; simpl.
  - by intros [= -> -> -> ->].
  - intros (H1 & H2 & H3)%IH. simpl in *. rewrite <-!(assoc_L (++)). simpl.
    rewrite <-H3, <-!(assoc_L (++)). by split_and!.
Qed.

(** *** Searching *)
(** The hole of [p] is where [k] belongs. *)
Definition brackets p k : Prop :=
  (∀ y, y ∈ lefts p → cmp y.1 k = Lt) ∧ (∀ y, y ∈ rights p → cmp k y.1 = Lt).

Lemma sorted_node c l x r : sorted (elems (Node c l x r)) →
  sorted (elems l) ∧ sorted (elems r) ∧
  (∀ y, y ∈ elems l → cmp y.1 x.1 = Lt) ∧ (∀ y, y ∈ elems r → cmp x.1 y.1 = Lt).
Proof. destruct x as [k v]. apply sorted_mid. Qed.

Lemma brackets_left p k c x r : brackets p k → cmp k x.1 = Lt →
  (∀ y, y ∈ elems r → cmp x.1 y.1 = Lt) → brackets (InLeft c x r :: p) k.
Proof.
  intros [H1 H2] Hk Hr. split; simpl; [done|].
  intros y [->|[Hy|Hy]%elem_of_app]%elem_of_cons; [done| |by auto].
  by eapply cmp_trans, Hr.
Qed.
Lemma brackets_right p k c l x : brackets p k → cmp k x.1 = Gt →
  (∀ y, y ∈ elems l → cmp y.1 x.1 = Lt) → brackets (InRight c l x :: p) k.
Proof.
  rewrite cmp_gt_lt. intros [H1 H2] Hk Hl. split; simpl; [|done].
  intros y [Hy|[Hy| ->%list_elem_of_singleton]%elem_of_app]%elem_of_app; [by auto| |done].
  by eapply cmp_trans; [apply Hl|].
Qed.

Lemma insert_at_inr t k p p' :
  sorted (elems t) → brackets p k → insert_at cmp t k p = inr p' →
  lefts p' ++ rights p' = lefts p ++ elems t ++ rights p ∧ brackets p' k.
Proof.
  revert p. induction t as [|c l IHl x r IHr]; intros p Hs Hb; simpl.
  { intros [= <-]. done. }
  apply sorted_node in Hs as (Hl & Hr & Hlx & Hxr).
  destruct (cmp k x.1) eqn:Hc; [done| |].
  - intros [-> Hb']%IHl; [|done|by apply brackets_left].
    split; [|done]. simpl. by rewrite <-!(assoc_L (++)).
  - intros [-> Hb']%IHr; [|done|by apply brackets_right].
    split; [|done]. simpl. by rewrite <-!(assoc_L (++)).
Qed.
Lemma insert_at_find t k p :
  insert_at cmp t k p = match rb_find cmp t k with
                        | Some v => inl v
                        | None => insert_at cmp t k p
                        end ∧
  (rb_find cmp t k = None → ∃ p', insert_at cmp t k p = inr p').
Proof.
  revert p. induction t as [|c l IHl x r IHr]; intros p; simpl; [by eauto|].
  destruct (cmp k x.1); [done|apply IHl|apply IHr].
Qed.

Lemma rb_find_spec t k (v : loc) :
  sorted (elems t) → rb_find cmp t k = Some v ↔ (k, v) ∈ elems t.
Proof.
  induction t as [|c l IHl x r IHr]; intros Hs; simpl; [set_solver|].
  apply sorted_node in Hs as (Hl & Hr & Hlx & Hxr).
  rewrite elem_of_app, elem_of_cons.
  destruct (cmp k x.1) eqn:Hc.
  - apply cmp_eq in Hc as ->. destruct x as [k v']. simpl. split.
    + intros [= ->]. by right; left.
    + intros [Hin%Hlx|[[= ->]|Hin%Hxr]]; simpl in *; [|done|].
      * by rewrite cmp_refl in Hin.
      * by rewrite cmp_refl in Hin.
  - rewrite IHl by done. split; [by left|]. intros [?|[<-|Hin%Hxr]]; [done| |].
    + simpl in Hc. by rewrite cmp_refl in Hc.
    + simpl in *. by rewrite (cmp_antisym (cmp:=cmp) k x.1), Hc in Hin.
  - rewrite IHr by done. split; [by right; right|].
    intros [Hin%Hlx|[<-|?]]; [| |done]; simpl in *.
    + congruence.
    + by rewrite cmp_refl in Hc.
Qed.

Lemma locate_elem t k p (v : loc) :
  sorted (elems t) → (k, v) ∈ elems t →
  ∃ c l r p', locate cmp t k p = Some (Node c l (k, v) r, p') ∧
    zip (Node c l (k, v) r) p' = zip t p.
Proof.
  revert p. induction t as [|c l IHl x r IHr]; intros p Hs; simpl; [set_solver|].
  apply sorted_node in Hs as (Hl & Hr & Hlx & Hxr).
  intros [Hin|[<-|Hin]%elem_of_cons]%elem_of_app; simpl.
  - pose proof (Hlx _ Hin) as Hc. simpl in Hc. rewrite Hc.
    by destruct (IHl (InLeft c x r :: p)) as (c' & l' & r' & p' & -> & Hz); eauto 6.
  - rewrite (proj2 (cmp_eq k k) eq_refl). eauto 6.
  - pose proof (Hxr _ Hin) as Hc. apply cmp_gt_lt in Hc. simpl in Hc. rewrite Hc.
    by destruct (IHr (InRight c l x :: p)) as (c' & l' & r' & p' & -> & Hz); eauto 6.
Qed.
Lemma locate_spec t k (v : loc) xs ys :
  sorted (elems t) → elems t = xs ++ (k, v) :: ys →
  ∃ c l r p, locate cmp t k [] = Some (Node c l (k, v) r, p) ∧
    zip (Node c l (k, v) r) p = t ∧
    lefts p ++ elems l = xs ∧ elems r ++ rights p = ys.
Proof.
  intros Hs He. destruct (locate_elem t k [] v) as (c & l & r & p & Hl & Hz); [done| |].
  { rewrite He. apply elem_of_app. right. left. }
  exists c, l, r, p. split; [done|]. split; [done|].
  pose proof (f_equal elems Hz) as Hz'. rewrite elems_zip in Hz'. simpl in Hz'.
  rewrite He, <-(assoc_L (++)), (assoc_L (++) (lefts p)) in Hz'. rewrite He in Hs.
  simpl in Hz'. by apply (sorted_split_inj (cmp:=cmp)) in Hz' as [-> ->].
Qed.

Lemma climb_spec p : climb p = head (rights p).
Proof. by induction p as [|[] p IH]. Qed.
Lemma rb_next_spec t k (v : loc) xs ys :
  sorted (elems t) → elems t = xs ++ (k, v) :: ys → rb_next cmp t k = head ys.
Proof.
  intros Hs He. destruct (locate_spec t k v xs ys Hs He) as (c & l & r & p & Hl & _ & _ & <-).
  unfold rb_next. rewrite Hl. destruct r as [|rc rl rx rr]; [apply climb_spec|].
  destruct (leftmost rc rl rx rr []) as [[[c' x'] r'] p'] eqn:Hm.
  apply leftmost_spec in Hm as (_ & _ & H3). simpl in H3. rewrite app_nil_r in H3.
  simpl. by rewrite H3.
Qed.

Lemma rb_minmax_spec t d : rb_minmax t (-1) d = match elems t with [] => d | x :: _ => Some x end.
Proof.
  revert d. induction t as [|c l IHl x r _]; intros d; simpl; [done|].
  rewrite IHl. by destruct (elems l).
Qed.
Lemma rb_min_spec t : rb_min t = head (elems t).
Proof. unfold rb_min. rewrite rb_minmax_spec. by destruct (elems t). Qed.

(** *** Walking backwards *)
Lemma rightmost_spec x r : Some (rightmost x r) = last (x :: elems r).
Proof.
  revert x. induction r as [|c l _ x' r IH]; intros x; [done|]. cbn [rightmost elems]. rewrite IH.
  change (x :: elems l ++ x' :: elems r) with ((x :: elems l) ++ x' :: elems r).
  rewrite last_app. by destruct (last (x' :: elems r)) eqn:Hl; [|apply last_None in Hl].
Qed.
Lemma climb_prev_spec p : climb_prev p = last (lefts p).
Proof.
  induction p as [|[c x r|c l x] p IH]; [done..|]. simpl.
  by rewrite (assoc_L (++)), last_snoc.
Qed.
Lemma rb_prev_spec t k (v : loc) xs ys :
  sorted (elems t) → elems t = xs ++ (k, v) :: ys → rb_prev cmp t k = last xs.
Proof.
  intros Hs He. destruct (locate_spec t k v xs ys Hs He) as (c & l & r & p & Hl & _ & <- & _).
  unfold rb_prev. rewrite Hl. destruct l as [|lc ll lx lr].
  - simpl. by rewrite app_nil_r, climb_prev_spec.
  - rewrite rightmost_spec. simpl. rewrite !last_app.
    by destruct (last (lx :: elems lr)) eqn:Hn; [|apply last_None in Hn].
Qed.
Lemma rb_max_spec t : rb_max t = last (elems t).
Proof.
  unfold rb_max. assert (∀ d, rb_minmax t 1 d = match last (elems t) with None => d | Some x => Some x end) as ->;
    [|by destruct (last (elems t))].
  induction t as [|c l _ x r IH]; intros d; [done|]. cbn [rb_minmax elems]. change (1 <? 0)%Z with false.
  cbn iota. rewrite IH, last_app. destruct (elems r) as [|y ys]; [done|].
  rewrite last_cons_cons. by destruct (last (y :: ys)) eqn:Hn; [|apply last_None in Hn].
Qed.

(** VRB_NFIND: the first element that is not below [k]. *)
Lemma rb_nfind_spec t k d :
  sorted (elems t) →
  rb_nfind cmp t k d =
    match filter (λ x, cmp k x.1 ≠ Gt) (elems t) with [] => d | x :: _ => Some x end.
Proof.
  revert d. induction t as [|c l IHl x r IHr]; intros d Hs; simpl; [done|].
  apply sorted_node in Hs as (Hl & Hr & Hlx & Hxr).
  rewrite filter_app, filter_cons.
  destruct (cmp k x.1) eqn:Hc.
  - rewrite decide_True by done.
    assert (filter (λ x : elm, cmp k x.1 ≠ Gt) (elems l) = []) as ->; [|done].
    apply filter_none. intros y Hy Hn. apply Hn.
    apply cmp_eq in Hc as ->. by apply cmp_gt_lt, Hlx.
  - rewrite decide_True, IHl by done. by destruct (filter _ (elems l)).
  - rewrite decide_False, IHr by naive_solver.
    assert (filter (λ x : elm, cmp k x.1 ≠ Gt) (elems l) = []) as ->; [|done].
    apply filter_none. intros y Hy Hn. apply Hn.
    apply cmp_gt_lt. apply cmp_gt_lt in Hc. by eapply cmp_trans; [apply Hlx|].
Qed.
End elements.

(** Equalities between concatenations. *)
Ltac list_eq := simpl; rewrite ?elems_zip, ?elems_set_color; simpl;
  repeat first [progress simpl | rewrite <-(assoc_L (++))]; reflexivity.

(** ** The red-black invariant *)
Section balance.
Context {K : Type}.
Abbreviation elm := (K * loc)%type.
Implicit Types (t l r : rbtree K) (p : list (frame K)) (x : elm) (n m : nat).

(** [rbt c n t]: the root has color [c] (NULL is black), no red node has a
    red child, and every way down meets [n] black nodes. *)
Inductive rbt : color → nat → rbtree K → Prop :=
| rbt_nil : rbt VRB_BLACK 0 Nil
| rbt_red n l x r : rbt VRB_BLACK n l → rbt VRB_BLACK n r → rbt VRB_RED n (Node VRB_RED l x r)
| rbt_black c1 c2 n l x r : rbt c1 n l → rbt c2 n r →
    rbt VRB_BLACK (S n) (Node VRB_BLACK l x r).
(** [path_ok c n p]: a tree of root color [c] and black height [n] fits the
    hole. *)
Inductive path_ok : color → nat → list (frame K) → Prop :=
| path_nil n : path_ok VRB_BLACK n []
| path_left_red n x r p : path_ok VRB_RED n p → rbt VRB_BLACK n r →
    path_ok VRB_BLACK n (InLeft VRB_RED x r :: p)
| path_right_red n l x p : path_ok VRB_RED n p → rbt VRB_BLACK n l →
    path_ok VRB_BLACK n (InRight VRB_RED l x :: p)
| path_left_black c c' n x r p : path_ok VRB_BLACK (S n) p → rbt c' n r →
    path_ok c n (InLeft VRB_BLACK x r :: p)
| path_right_black c c' n l x p : path_ok VRB_BLACK (S n) p → rbt c' n l →
    path_ok c n (InRight VRB_BLACK l x :: p).
#[local] Hint Constructors rbt path_ok : core.

Lemma path_ok_black c n p : path_ok c n p → path_ok VRB_BLACK n p.
Proof. destruct 1; eauto. Qed.
Lemma zip_ok c n t p : rbt c n t → path_ok c n p → ∃ m, rbt VRB_BLACK m (zip t p).
Proof.
  intros Ht Hp. revert t Ht. induction Hp; intros t Ht; simpl; eauto.
Qed.
Lemma rbt_color c n t : rbt c n t → c = if is_red t then VRB_RED else VRB_BLACK.
Proof. by destruct 1. Qed.
Lemma rbt_blacken c n t : rbt c n t → ∃ m, rbt VRB_BLACK m (set_color VRB_BLACK t).
Proof. destruct 1; simpl; eauto. Qed.

(** What the recoloring loops promise: they return a red-black tree with
    the given elements. *)
Definition good (o : outcome (rbtree K)) (xs : list elm) : Prop :=
  ∃ t m, o = Ret t ∧ rbt VRB_BLACK m t ∧ elems t = xs.

Ltac rb_inv := repeat match goal with
  | H : rbt _ _ Nil |- _ => inversion H; clear H; subst
  | H : rbt _ _ (Node _ _ _ _) |- _ => inversion H; clear H; subst
  | H : rbt VRB_RED _ ?t |- _ => is_var t; inversion H; clear H; subst
  | H : path_ok _ _ (_ :: _) |- _ => inversion H; clear H; subst
  | H : path_ok VRB_RED _ [] |- _ => inversion H
  | H : is_red ?t = true, H' : rbt _ _ ?t |- _ =>
      inversion H'; clear H'; subst; simpl in H; try discriminate H; clear H
  end.

(** *** Insertion *)
Definition nearly (o : outcome (rbtree K)) (xs : list elm) : Prop :=
  ∃ t c m, o = Ret t ∧ rbt c m t ∧ elems t = xs.
Lemma nearly_zip c n t p xs : rbt c n t → path_ok c n p →
  elems (zip t p) = xs → nearly (Ret (zip t p)) xs.
Proof. intros Ht Hp <-. destruct (zip_ok _ _ _ _ Ht Hp) as [m Hm]. by exists (zip t p), VRB_BLACK, m. Qed.

Lemma nearly_eq o xs ys : nearly o xs → xs = ys → nearly o ys.
Proof. by intros ? <-. Qed.

Lemma insert_color_loop_ok n t p :
  rbt VRB_RED n t → path_ok VRB_BLACK n p →
  nearly (insert_color_loop t p) (lefts p ++ elems t ++ rights p).
Proof.
  remember (length p) as len eqn:Hlen. revert n t p Hlen.
  induction len as [len IH] using lt_wf_ind. intros n t p -> Ht Hp.
  destruct p as [|f p]; [by exists t, VRB_RED, n; rewrite app_nil_r|].
  destruct f as [[] x r|[] l x].
  1,3: rewrite <-elems_zip; inversion_clear Hp; eapply nearly_zip; eauto; done.
  all: inversion Hp; clear Hp; subst.
  all: match goal with H : path_ok VRB_RED _ _ |- _ => inversion H; clear H; subst end.
  all: cbn [insert_color_loop].
  all: match goal with |- context [if is_red ?u then _ else _] =>
         destruct (is_red u) eqn:Hu end.
  all: try (rb_inv; cbn [set_color];
            eapply nearly_eq; [eapply IH; [|reflexivity|eauto..]; simpl; lia|list_eq]).
  all: repeat match goal with
    | H : rbt _ _ ?u, Hu : is_red ?u = false |- _ =>
        pose proof (rbt_color _ _ _ H) as ->; rewrite Hu in H; clear Hu end.
  all: rb_inv; cbn; eapply nearly_zip; [eauto..|list_eq].
Qed.

Lemma VRB_INSERT_COLOR_ok n x p :
  path_ok VRB_BLACK n p → rbt VRB_RED n (Node VRB_RED Nil x Nil) →
  good (VRB_INSERT_COLOR (Node VRB_RED Nil x Nil) p) (lefts p ++ x :: rights p).
Proof.
  intros Hp Ht. destruct (insert_color_loop_ok n _ p Ht Hp) as (t & c & m & Hi & Hr & He).
  unfold VRB_INSERT_COLOR. rewrite Hi. simpl in *.
  destruct t as [|c' l y r]; [by destruct (lefts p)|].
  destruct (rbt_blacken _ _ _ Hr) as [m' Hm]. by exists (Node VRB_BLACK l y r), m'.
Qed.

(** *** Removal *)
Lemma good_zip c n t p xs : rbt c n t → path_ok c n p →
  elems (zip t p) = xs → good (Ret (set_color VRB_BLACK (zip t p))) xs.
Proof.
  intros Ht Hp <-. destruct (zip_ok _ _ _ _ Ht Hp) as [m Hm].
  destruct (rbt_blacken _ _ _ Hm) as [m' Hm']. eexists _, m'.
  split; [done|]. split; [done|]. apply elems_set_color.
Qed.
Lemma good_eq o xs ys : good o xs → xs = ys → good o ys.
Proof. by intros ? <-. Qed.

(** elm in the loop of REMOVE_COLOR: one black node short, or red. *)
Definition deficit n t : Prop :=
  rbt VRB_BLACK n t ∨ is_red t = true ∧ rbt VRB_BLACK (S n) (set_color VRB_BLACK t).
Definition below_height (c : color) n : nat := match c with VRB_RED => n | VRB_BLACK => S n end.

Lemma parent_deficit c n l x r :
  rbt VRB_BLACK n l → rbt VRB_RED n r ∨ rbt VRB_BLACK n r → rbt VRB_BLACK n r ∨ rbt VRB_BLACK n l →
  deficit (below_height c n) (Node c l x r).
Proof. unfold deficit, below_height. destruct c; simpl; intros ? [?|?] _; eauto 8. Qed.

Section sides.
Context (fuel n : nat) (c : color) (x : elm) (t tmp : rbtree K) (p : list (frame K)).
Context (Ht : rbt VRB_BLACK n t) (Htmp : rbt VRB_BLACK (S n) tmp).
Context (Hp : path_ok c (S (below_height c n)) p).
Context (Hrec : ∀ t', is_red t' = bool_decide (c = VRB_RED) → deficit (below_height c n) t' →
  good (remove_color_loop fuel t' p) (lefts p ++ elems t' ++ rights p)).

Lemma remove_left_ok :
  good (remove_left (S fuel) t c x tmp p) (lefts p ++ elems t ++ x :: elems tmp ++ rights p).
Proof using Ht Htmp Hp Hrec.
  inversion Htmp as [| |c1 c2 ? tl tx tr Htl Htr]; subst. cbn [remove_left].
  destruct (is_red tl) eqn:Hl, (is_red tr) eqn:Hr; cbn [negb andb];
    pose proof (rbt_color _ _ _ Htl) as ->; pose proof (rbt_color _ _ _ Htr) as ->;
    rewrite ?Hl in Htl; rewrite ?Hr in Htr.
  4: { eapply good_eq; [apply Hrec|list_eq]; [by destruct c|].
       unfold deficit. destruct c; simpl; eauto 8. }
  all: rb_inv; cbn; eapply (good_zip c (S (below_height c n))); [destruct c; simpl in *; eauto|done|list_eq].
Qed.
Lemma remove_right_ok :
  good (remove_right (S fuel) t c tmp x p) (lefts p ++ elems tmp ++ x :: elems t ++ rights p).
Proof using Ht Htmp Hp Hrec.
  inversion Htmp as [| |c1 c2 ? tl tx tr Htl Htr]; subst. cbn [remove_right].
  destruct (is_red tl) eqn:Hl, (is_red tr) eqn:Hr; cbn [negb andb];
    pose proof (rbt_color _ _ _ Htl) as ->; pose proof (rbt_color _ _ _ Htr) as ->;
    rewrite ?Hl in Htl; rewrite ?Hr in Htr.
  4: { eapply good_eq; [apply Hrec|list_eq]; [by destruct c|].
       unfold deficit. destruct c; simpl; eauto 8. }
  all: rb_inv; cbn; eapply (good_zip c (S (below_height c n))); [destruct c; simpl in *; eauto|done|list_eq].
Qed.
End sides.

(** A red elm ends the loop. *)
Lemma remove_loop_red fuel n t p :
  is_red t = true → path_ok VRB_BLACK (S n) p → deficit n t →
  good (remove_color_loop (S fuel) t p) (lefts p ++ elems t ++ rights p).
Proof.
  intros Hr Hp [Hd|[_ Hd]]; [apply rbt_color in Hd; by rewrite Hr in Hd|].
  destruct (zip_ok _ _ _ _ Hd Hp) as [m Hm].
  exists (zip (set_color VRB_BLACK t) p), m. split.
  - destruct p; cbn [remove_color_loop]; [done|by rewrite Hr].
  - split; [done|]. by rewrite elems_zip, elems_set_color.
Qed.

Lemma remove_color_loop_ok fuel n t p :
  path_ok VRB_BLACK (S n) p → deficit n t → 2 * length p + 3 ≤ fuel →
  good (remove_color_loop fuel t p) (lefts p ++ elems t ++ rights p).
Proof.
  revert fuel n t. induction p as [|f p IH]; intros fuel n t Hp Hd Hf;
    (destruct fuel as [|fuel]; [simpl in Hf; lia|]).
  { destruct Hd as [Hd|[_ Hd]]; simpl; [apply rbt_blacken in Hd|]; [destruct Hd as [m Hd]|];
      eexists _, _; (split; [done|]); (split; [done|]);
      by rewrite elems_set_color, app_nil_r. }
  destruct (is_red t) eqn:Hr; [by eapply remove_loop_red|].
  destruct Hd as [Hd|[? _]]; [|congruence]. cbn [length] in Hf.
  destruct fuel as [|[|fuel]]; [lia|lia|].
  assert (∀ c m, path_ok c (S m) p → ∀ t', deficit m t' →
    good (remove_color_loop (S fuel) t' p) (lefts p ++ elems t' ++ rights p)) as IH'.
  { intros c m Hpm t' Ht'. eapply IH; [by eapply path_ok_black|done|lia]. }
  inversion Hp; subst; cbn [remove_color_loop]; rewrite Hr;
    match goal with H : rbt _ (S n) _ |- _ => inversion H; subst end.
  - eapply good_eq; [eapply (remove_left_ok _ n VRB_RED); eauto|list_eq].
  - eapply good_eq; [eapply (remove_right_ok _ n VRB_RED); eauto|list_eq].
  - eapply good_eq; [eapply (remove_left_ok _ n VRB_RED); cbn [below_height]; eauto|list_eq].
    intros t' Ht' Hd'. eapply remove_loop_red; eauto.
  - eapply good_eq; [eapply (remove_left_ok _ n VRB_BLACK); cbn [below_height]; eauto|list_eq].
  - eapply good_eq; [eapply (remove_right_ok _ n VRB_RED); cbn [below_height]; eauto|list_eq].
    intros t' Ht' Hd'. eapply remove_loop_red; eauto.
  - eapply good_eq; [eapply (remove_right_ok _ n VRB_BLACK); cbn [below_height]; eauto|list_eq].
Qed.
End balance.

(** ** The operations keep the tree sorted and balanced *)
Section operations_ok.
Context {K : Type} {cmp : K → K → comparison} `{!TotalCmp cmp}.
Abbreviation elm := (K * loc)%type.
Implicit Types (t l r : rbtree K) (p : list (frame K)) (x : elm) (k : K).

Definition rb_ok t : Prop :=
  StronglySorted (key_lt cmp) (elems t) ∧ ∃ n, rbt VRB_BLACK n t.

Lemma insert_at_path c n t k p p' :
  rbt c n t → path_ok c n p → insert_at cmp t k p = inr p' → path_ok VRB_BLACK 0 p'.
Proof.
  intros Ht. revert p. induction Ht as [|n l x r Hl IHl Hr IHr|c1 c2 n l x r Hl IHl Hr IHr];
    intros p Hp; simpl; [by intros [= <-]|..];
    (destruct (cmp k x.1); [done| |]);
    by (apply IHl || apply IHr); econstructor.
Qed.
Lemma locate_path c n t k p t' p' :
  rbt c n t → path_ok c n p → locate cmp t k p = Some (t', p') →
  ∃ c' n', rbt c' n' t' ∧ path_ok c' n' p'.
Proof.
  intros Ht. revert p. induction Ht as [|n l x r Hl IHl Hr IHr|c1 c2 n l x r Hl IHl Hr IHr];
    intros p Hp; simpl; [done|..];
    (destruct (cmp k x.1); [intros [= <- <-]; eauto using rbt| |]);
    by (apply IHl || apply IHr); econstructor.
Qed.
Lemma leftmost_path c n l x r p c' x' r' p' :
  rbt c n (Node c l x r) → path_ok c n p → leftmost c l x r p = (c', x', r', p') →
  ∃ n', rbt c' n' (Node c' Nil x' r') ∧ path_ok c' n' p'.
Proof.
  revert c n x r p. induction l as [|c1 l1 IH x1 r1 _]; intros c n x r p Ht Hp; simpl.
  { intros [= <- <- <- <-]. eauto. }
  inversion Ht as [|? ? ? ? Hl Hr|? ? ? ? ? ? Hl Hr]; subst;
    pose proof Hl as Hl'; inversion Hl'; subst; eapply IH; eauto; by econstructor.
Qed.
Lemma leftmost_app c l x r p q :
  leftmost c l x r (p ++ q) =
    let '(c', x', r', p') := leftmost c l x r p in (c', x', r', p' ++ q).
Proof.
  revert c x r p. induction l as [|c1 l1 IH x1 r1 _]; intros c x r p; simpl; [done|].
  apply (IH c1 x1 r1 (InLeft c x r :: p)).
Qed.

(** Unlinking a node with at most one child. *)
Lemma finish_remove_ok c n x child p :
  rbt c n (Node c Nil x child) ∨ rbt c n (Node c child x Nil) → path_ok c n p →
  good (finish_remove c child p) (lefts p ++ elems child ++ rights p).
Proof.
  intros Ht Hp. destruct c; cbn [finish_remove].
  - unfold VRB_REMOVE_COLOR. apply (remove_color_loop_ok _ 0); [| |lia].
    + destruct Ht as [Ht|Ht]; inversion Ht as [| |? ? ? ? ? ? Hl Hr]; subst;
        [inversion Hl|inversion Hr]; subst; by eapply path_ok_black.
    + unfold deficit. destruct Ht as [Ht|Ht];
        inversion Ht as [| |? ? ? ? ? ? Hl Hr]; subst;
        [inversion Hl; subst; destruct Hr|inversion Hr; subst; destruct Hl];
        simpl; eauto using rbt.
  - destruct (zip_ok VRB_BLACK n child p) as [m Hm].
    + destruct Ht as [Ht|Ht]; by inversion Ht.
    + by eapply path_ok_black.
    + exists (zip child p), m. split; [done|]. split; [done|]. apply elems_zip.
Qed.

Lemma rb_remove_ok t k v xs ys :
  rb_ok t → elems t = xs ++ (k, v) :: ys →
  ∃ t', rb_remove cmp t k = Ret t' ∧ rb_ok t' ∧ elems t' = xs ++ ys.
Proof.
  intros [Hs [n Hn]] He.
  enough (good (rb_remove cmp t k) (xs ++ ys)) as (t' & m & Hr & Hm & He').
  { exists t'. split; [done|]. split; [|done]. split; [|by eauto].
    rewrite He'. rewrite He in Hs. apply sorted_app in Hs as (H1 & H2 & H3).
    apply sorted_app. inversion_clear H2. split_and!; [done..|].
    intros; apply H3; [done|by right]. }
  destruct (locate_spec cmp t k v xs ys Hs He) as (c & l & r & p & Hl & _ & <- & <-).
  destruct (locate_path _ _ _ _ _ _ _ Hn (path_nil n) Hl) as (c' & n' & Ht & Hp).
  assert (c' = c) as -> by (by inversion Ht). unfold rb_remove. rewrite Hl.
  destruct l as [|lc ll lx lr]; [|destruct r as [|rc rl rx rr]].
  - eapply good_eq; [by eapply finish_remove_ok; eauto|]. simpl. by rewrite app_nil_r.
  - eapply good_eq; [by eapply finish_remove_ok; eauto|]. list_eq.
  - destruct (leftmost rc rl rx rr []) as [[[sc x'] child] sp] eqn:Hm.
    pose proof (leftmost_spec _ _ _ _ _ _ _ _ _ Hm) as (_ & HL & HE).
    specialize (HL eq_refl). cbn [rights] in HE. rewrite (app_nil_r (elems (Node rc rl rx rr))) in HE.
    set (l' := Node lc ll lx lr) in *. set (old := InRight c l' x').
    assert (∃ n, rbt sc n (Node sc Nil x' child) ∧ path_ok sc n (sp ++ old :: p))
      as (m & Hsc & Hsp).
    { pose proof (leftmost_app rc rl rx rr [] (old :: p)) as Ha. rewrite Hm in Ha.
      simpl in Ha. inversion Ht as [|? ? ? ? Hl1 Hr1|? ? ? ? ? ? Hl1 Hr1]; subst;
        pose proof Hr1 as Hr2; inversion Hr2; subst;
        eapply leftmost_path; try exact Ha; try done; by econstructor. }
    eapply good_eq; [by eapply finish_remove_ok; eauto|].
    rewrite lefts_app, rights_app, HL, HE. subst old. rewrite app_nil_r. list_eq.
Qed.

Lemma rb_insert_hit t k v v' :
  rb_ok t → (k, v') ∈ elems t → rb_insert cmp t k v = Ret (Some v', t).
Proof.
  intros [Hs _] Hin. apply (rb_find_spec cmp) in Hin; [|done]. unfold rb_insert.
  destruct (insert_at_find cmp t k []) as [-> _]. by rewrite Hin.
Qed.
Lemma rb_insert_new t k v :
  rb_ok t → rb_find cmp t k = None →
  ∃ t', rb_insert cmp t k v = Ret (None, t') ∧ rb_ok t' ∧
    ∃ xs ys, elems t = xs ++ ys ∧ elems t' = xs ++ (k, v) :: ys.
Proof.
  intros [Hs [n Hn]] Hf. destruct (insert_at_find cmp t k []) as [_ Hi].
  destruct (Hi Hf) as [p Hp]. unfold rb_insert. rewrite Hp.
  pose proof (insert_at_path _ _ _ _ _ _ Hn (path_nil n) Hp) as Hpath.
  destruct (VRB_INSERT_COLOR_ok 0 (k, v) p Hpath) as (t' & m & -> & Hm & He).
  { repeat constructor. }
  destruct (insert_at_inr cmp t k [] p Hs) as [Hl [HL HR]]; [by split; set_solver|done|].
  simpl in Hl. rewrite app_nil_r in Hl.
  exists t'. split; [done|]. split; [|by exists (lefts p), (rights p)].
  split; [|by eauto]. rewrite He. rewrite <-Hl in Hs.
  apply sorted_app in Hs as (H1 & H2 & H3). apply sorted_app. split_and!; [done| |].
  - constructor; [done|]. apply Forall_forall. exact HR.
  - intros a b Ha [->|Hb]%elem_of_cons; [by apply HL|by apply H3].
Qed.

Lemma rb_find_ok t k v : rb_ok t → rb_find cmp t k = Some v ↔ (k, v) ∈ elems t.
Proof. intros [Hs _]. by apply rb_find_spec. Qed.

(** *** The height *)
Fixpoint height t : nat :=
  match t with Nil => 0 | Node _ l _ r => S (height l `max` height r) end.
Lemma rbt_height c n t : rbt c n t →
  height t ≤ (match c with VRB_RED => S (2 * n) | VRB_BLACK => 2 * n end) ∧
  2 ^ n ≤ S (length (elems t)).
Proof.
  induction 1 as [|n l x r _ [H1 H2] _ [H3 H4]|c1 c2 n l x r _ [H1 H2] _ [H3 H4]];
    cbn [height elems]; rewrite ?length_app; cbn [length].
  - simpl. lia.
  - split; lia.
  - rewrite Nat.pow_succ_r'. split; [destruct c1, c2; lia|lia].
Qed.
Lemma rb_height t : rb_ok t → height t ≤ 2 * Nat.log2 (S (length (elems t))).
Proof.
  intros [_ [n Hn]]. apply rbt_height in Hn as [H1 H2].
  apply Nat.log2_le_mono in H2. rewrite Nat.log2_pow2 in H2; lia.
Qed.
End operations_ok.

(** vtree.h implements the interface. *)
Definition rb_ordtree {K} (cmp : K → K → comparison) : OrdTree K (rbtree K) := {|
  VRB_INIT := Nil;
  VRB_FIND := rb_find cmp;
  VRB_INSERT := rb_insert cmp;
  VRB_REMOVE := rb_remove cmp;
  VRB_MIN := rb_min;
  VRB_NEXT := rb_next cmp;
|}.
Definition rb_laws {K} (cmp : K → K → comparison) `{!TotalCmp cmp} :
  @OrdTreeLaws K (rbtree K) cmp (rb_ordtree cmp).
Proof.
  refine (@Build_OrdTreeLaws _ _ cmp (rb_ordtree cmp) (@rb_ok _ cmp) elems _ _ _ _ _ _ _ _).
  - by intros t [Hs _].
  - split; [|done]. split; [constructor|]. exists 0. constructor.
  - intros t k v. apply rb_find_ok.
  - intros t k v v'. apply rb_insert_hit.
  - intros t k v. apply rb_insert_new.
  - intros t k v xs ys. apply rb_remove_ok.
  - intros t _. apply rb_min_spec.
  - intros t k v xs ys [Hs _]. by apply rb_next_spec.
Defined.

(** The same tree read from its other end: the loops VRB_FOREACH_REVERSE and
    VRB_FOREACH_REVERSE_SAFE are those of the interface on this instance. *)
Definition rb_ordtree_reverse {K} (cmp : K → K → comparison) : OrdTree K (rbtree K) := {|
  VRB_INIT := Nil;
  VRB_FIND := rb_find cmp;
  VRB_INSERT := rb_insert cmp;
  VRB_REMOVE := rb_remove cmp;
  VRB_MIN := rb_max;
  VRB_NEXT := rb_prev cmp;
|}.
#[export] Instance flip_total {K} (cmp : K → K → comparison) `{!TotalCmp cmp} : TotalCmp (flip cmp).
Proof.
  split; unfold flip.
  - intros a b. rewrite (cmp_eq (cmp:=cmp)). naive_solver.
  - intros a b. apply (cmp_antisym (cmp:=cmp)).
  - intros a b c H1 H2. by eapply cmp_trans.
Qed.
Lemma sorted_reverse {K} (cmp : K → K → comparison) `{!TotalCmp cmp} (xs : list (K * loc)) :
  StronglySorted (key_lt cmp) xs → StronglySorted (key_lt (flip cmp)) (reverse xs).
Proof.
  induction 1 as [|x xs Hs IH Hall]; [constructor|]. rewrite reverse_cons.
  apply (sorted_app (cmp:=flip cmp)). split_and!; [done|repeat constructor|].
  intros a b Ha Hb. rewrite elem_of_reverse in Ha. apply list_elem_of_singleton in Hb as ->.
  rewrite Forall_forall in Hall. by apply Hall.
Qed.
Lemma reverse_mid {A} (t xs ys : list A) x : reverse t = xs ++ x :: ys → t = reverse ys ++ x :: reverse xs.
Proof.
  intros H. rewrite <-(reverse_involutive t), H, reverse_app, reverse_cons, <-(assoc_L (++)). done.
Qed.
Definition rb_laws_reverse {K} (cmp : K → K → comparison) `{!TotalCmp cmp} :
  @OrdTreeLaws K (rbtree K) (flip cmp) (rb_ordtree_reverse cmp).
Proof.
  refine (@Build_OrdTreeLaws _ _ (flip cmp) (rb_ordtree_reverse cmp) (@rb_ok _ cmp)
            (λ t, reverse (elems t)) _ _ _ _ _ _ _ _).
  - intros t [Hs _]. by apply sorted_reverse.
  - split; [|done]. split; [constructor|]. exists 0. constructor.
  - intros t k v Hok. rewrite elem_of_reverse. by apply rb_find_ok.
  - intros t k v v' Hok Hin. apply rb_insert_hit; [done|]. by apply elem_of_reverse.
  - intros t k v Hok Hf. destruct (rb_insert_new t k v Hok Hf) as (t' & Ht & Hok' & xs & ys & H1 & H2).
    exists t'. split; [done|]. split; [done|]. exists (reverse ys), (reverse xs).
    rewrite H1, H2, !reverse_app, reverse_cons, <-(assoc_L (++)). done.
  - intros t k v xs ys Hok He. destruct (rb_remove_ok t k v _ _ Hok (reverse_mid _ _ _ _ He)) as (t' & Ht & Hok' & He').
    exists t'. split; [done|]. split; [done|]. by rewrite He', reverse_app, !reverse_involutive.
  - intros t _. simpl. by rewrite rb_max_spec, head_reverse.
  - intros t k v xs ys [Hs _] He. simpl. rewrite (rb_prev_spec cmp t k v _ _ Hs (reverse_mid _ _ _ _ He)).
    by rewrite last_reverse.
Defined.

(** The trees of vmod_vsthrottle.c and vmod_xkey.c: keyed by digests, and by
    the addresses of objcores. *)
#[export] Instance digest_tree : OrdTree bytes (rbtree bytes) := rb_ordtree memcmp.
#[export] Instance digest_tree_laws : OrdTreeLaws memcmp := rb_laws memcmp.
#[export] Instance ptr_tree : OrdTree uintptr (rbtree uintptr) := rb_ordtree ptrcmp.
#[export] Instance ptr_tree_laws : OrdTreeLaws ptrcmp := rb_laws ptrcmp.

(** ** Properties *)
Section properties.
Context {K : Type} `{Countable K} {cmp : K → K → comparison} `{!TotalCmp cmp}.
Implicit Types (t : rbtree K) (m : gmap K loc).

Inductive tree_op := Tree_insert (k : K) (l : loc) | Tree_remove (k : K).
(** The modules remove an element only after they found it. *)
Definition tree_step t (op : tree_op) : outcome (rbtree K) :=
  match op with
  | Tree_insert k l => r ← rb_insert cmp t k l; Ret r.2
  | Tree_remove k => match rb_find cmp t k with Some _ => rb_remove cmp t k | None => Ret t end
  end.
Fixpoint tree_run (ops : list tree_op) t : outcome (rbtree K) :=
  match ops with [] => Ret t | op :: ops' => t' ← tree_step t op; tree_run ops' t' end.
(** The same on a map: insertion keeps a present element. *)
Definition map_step m (op : tree_op) : gmap K loc :=
  match op with
  | Tree_insert k l => match m !! k with Some _ => m | None => <[k := l]> m end
  | Tree_remove k => delete k m
  end.

Definition represents t m : Prop :=
  rb_ok (cmp:=cmp) t ∧ ∀ k v, (k, v) ∈ elems t ↔ m !! k = Some v.

Lemma represents_find t m k : represents t m → rb_find cmp t k = m !! k.
Proof.
  intros [Hok Hm]. destruct (m !! k) as [v|] eqn:Hk.
  - by apply rb_find_ok, Hm.
  - destruct (rb_find cmp t k) as [v|] eqn:Hf; [|done].
    apply rb_find_ok, Hm in Hf; [congruence|done].
Qed.
Lemma represents_perm t m : represents t m → elems t ≡ₚ map_to_list m.
Proof.
  intros [[Hs _] Hm]. apply NoDup_Permutation.
  - by eapply NoDup_fmap_1, sorted_NoDup.
  - apply NoDup_map_to_list.
  - intros [k v]. by rewrite Hm, elem_of_map_to_list.
Qed.
Lemma tree_step_ok t m op : represents t m →
  ∃ t', tree_step t op = Ret t' ∧ represents t' (map_step m op).
Proof.
  intros Hr. pose proof Hr as [Hok Hm]. destruct op as [k l|k]; simpl.
  - destruct (m !! k) as [l'|] eqn:Hk.
    + rewrite (rb_insert_hit t k l l') by (done || by apply Hm). by exists t.
    + rewrite <-(represents_find t m k Hr) in Hk.
      destruct (rb_insert_new t k l Hok Hk) as (t' & -> & Hok' & xs & ys & He & He').
      exists t'. split; [done|]. split; [done|]. intros k' v'.
      rewrite He', lookup_insert_Some, <-Hm, He, !elem_of_app, elem_of_cons.
      rewrite (represents_find t m k Hr) in Hk.
      destruct (decide (k = k')) as [<-|]; [|naive_solver].
      assert (∀ v, (k, v) ∉ elems t) as Hn by (intros v Hv%Hm; congruence).
      specialize (Hn v'). rewrite He in Hn. set_solver.
  - rewrite (represents_find t m k Hr). destruct (m !! k) as [l|] eqn:Hk.
    + pose proof (proj2 (Hm k l) Hk) as Hin.
      destruct (tree_remove_elem (OrdTreeLaws0 := rb_laws cmp) t k l Hok Hin) as (t' & Hrm & Hok' & _ & He).
      exists t'. split; [exact Hrm|]. split; [exact Hok'|]. intros k' v'.
      rewrite lookup_delete_Some. specialize (He (k', v')). simpl in He.
      rewrite He, Hm. naive_solver.
    + exists t. split; [done|]. by rewrite delete_id.
Qed.

(** C5: any sequence of insertions and removals on a red-black tree that
    starts empty returns (no NULL pointer is followed, the loops end), and
    the tree then answers every search like a finite map given the same
    operations, lists its elements in strictly increasing key order, and is
    at most [2 log2 (n + 1)] nodes high. *)
Theorem rb_tree_is_map (ops : list tree_op) :
  let m := foldl map_step ∅ ops in
  ∃ t, tree_run ops Nil = Ret t ∧
    (∀ k, rb_find cmp t k = m !! k) ∧
    StronglySorted (key_lt cmp) (elems t) ∧
    elems t ≡ₚ map_to_list m ∧
    height t ≤ 2 * Nat.log2 (S (size m)).
Proof.
  assert (∀ t m, represents t m →
    ∃ t', tree_run ops t = Ret t' ∧ represents t' (foldl map_step m ops)) as Hrun.
  { induction ops as [|op ops IH]; intros t m Hr; simpl; [by exists t|].
    destruct (tree_step_ok t m op Hr) as (t' & -> & Hr'). by apply IH. }
  destruct (Hrun Nil ∅) as (t & Ht & Hr).
  { split; [split; [constructor|exists 0; constructor]|]. intros k v. simpl.
    rewrite lookup_empty. set_solver. }
  exists t. split; [done|]. split; [intros k; by apply represents_find|].
  pose proof (represents_perm _ _ Hr) as Hp. destruct Hr as [Hok _].
  split; [apply Hok|]. split; [done|].
  assert (size (foldl map_step ∅ ops) = length (elems t)) as ->.
  { rewrite Hp. symmetry. apply length_map_to_list. }
  by apply (rb_height (cmp:=cmp)).
Qed.

(** VRB_FOREACH_SAFE with a body that removes some of the elements it is
    run on visits every element of the tree exactly once, in order, and
    leaves exactly the others. *)
Theorem foreach_safe_removes (P : K * loc → Prop) `{∀ x, Decision (P x)} t fuel :
  rb_ok (cmp:=cmp) t → length (elems t) ≤ fuel →
  wp (foreach_safe (OrdTree0 := rb_ordtree cmp) (St := rbtree K * list (K * loc)) fst fuel (rb_min t) (λ x,
        modifyS (λ s, (s.1, s.2 ++ [x]));;;
        if decide (P x) then
          s ← getS; t' ← liftO (rb_remove cmp s.1 x.1); modifyS (λ s, (t', s.2))
        else mret tt))
     (λ _ s, rb_ok (cmp:=cmp) s.1 ∧ elems s.1 = filter (λ x, ¬ P x) (elems t) ∧
             s.2 = elems t) (t, []).
Proof.
  intros Hok Hf.
  apply (wp_foreach_safe (OrdTreeLaws0 := rb_laws cmp) fst (λ seen s, rb_ok (cmp:=cmp) s.1 ∧
    (∀ todo, elems t = seen ++ todo →
       elems s.1 = filter (λ x, ¬ P x) seen ++ todo) ∧ s.2 = seen) (t, [])); simpl.
  - exact Hok.
  - exact Hf.
  - split; [done|]. split; [|done]. by intros todo ->.
  - intros seen [k v] todo [t1 log] He (Hok1 & Hel & Hlog). simpl in *. subst log.
    specialize (Hel _ He). split; [by eexists|]. wp_go. cbn [fst snd].
    case_decide as HP.
    + destruct (rb_remove_ok t1 k v _ _ Hok1 Hel) as (t2 & Hrm & Hok2 & Hel2).
      wp_go; cbn [fst snd]; [exact Hrm|]. cbn [fst snd]. split; [done|]. split; [|done].
      intros todo' He'. rewrite He, <-(assoc_L (++)) in He'. simplify_list_eq.
      rewrite filter_app, filter_cons_False, app_nil_r by naive_solver. done.
    + wp_go. split; [done|]. split; [|done].
      intros todo' He'. rewrite He, <-(assoc_L (++)) in He'. simplify_list_eq.
      rewrite filter_app, filter_cons_True by done. by rewrite <-(assoc_L (++)).
  - intros [t1 log] (Hok1 & Hel & Hlog). simpl in *. subst log. split; [done|]. split; [|done].
    rewrite (Hel []) by (by rewrite app_nil_r). by rewrite app_nil_r.
Qed.

(** The queries of a red-black tree that do not look for one key: NEXT
    and PREV of the element in place [i] are the elements in the places after
    and before it, and NULL at the ends; MIN and MAX are the ends of the tree;
    NFIND is the first element not below the key. *)
Theorem neighbours_exact t : rb_ok (cmp:=cmp) t →
  (∀ i e, elems t !! i = Some e →
     rb_next cmp t e.1 = elems t !! S i ∧
     rb_prev cmp t e.1 = (if decide (i = 0) then None else elems t !! (i - 1))) ∧
  rb_min t = head (elems t) ∧ rb_max t = last (elems t) ∧
  ∀ k, rb_nfind cmp t k None = head (filter (λ e, cmp k e.1 ≠ Gt) (elems t)).
Proof.
  intros [Hs _]. split_and!; [|apply rb_min_spec|apply rb_max_spec|].
  - intros i [k v] Hi. pose proof (take_drop_middle _ _ _ Hi) as He. symmetry in He.
    cbn [fst]. rewrite (rb_next_spec cmp t k v _ _ Hs He), (rb_prev_spec cmp t k v _ _ Hs He). split.
    + by rewrite head_lookup, lookup_drop, Nat.add_0_r.
    + case_decide as H0; [by rewrite H0|]. apply lookup_lt_Some in Hi. rewrite last_lookup, length_take.
      rewrite lookup_take_lt by lia. f_equal. lia.
  - intros k. rewrite rb_nfind_spec by done. by destruct (filter _ _).
Qed.

(** VRB_FOREACH_REVERSE with a body that leaves the tree alone visits every
    element once, from the greatest to the smallest. *)
Lemma foreach_reverse_exact t fuel :
  rb_ok (cmp:=cmp) t → length (elems t) ≤ fuel →
  wp (foreach (OrdTree0 := rb_ordtree_reverse cmp) (St := rbtree K * list (K * loc)) fst fuel (rb_max t)
        (λ x, modifyS (λ s, (s.1, s.2 ++ [x]))))
     (λ _ s, s = (t, reverse (elems t))) (t, []).
Proof.
  intros Hok Hf.
  apply (wp_foreach (cmp := flip cmp) (OrdTreeLaws0 := rb_laws_reverse cmp) fst
           (λ seen s, s = (t, seen)) (t, [])); simpl; [done|by rewrite length_reverse|done| |done].
  intros seen x todo s _ ->. by apply wp_modifyS.
Qed.
End properties.

Lemma neighbours_exact_witness :
  let t := Node VRB_BLACK (Node VRB_RED Nil (1%N, 1%positive) Nil) (2%N, 2%positive)
             (Node VRB_RED Nil (3%N, 3%positive) Nil) in
  (∀ i e, elems t !! i = Some e →
     rb_next ptrcmp t e.1 = elems t !! S i ∧
     rb_prev ptrcmp t e.1 = (if decide (i = 0) then None else elems t !! (i - 1))) ∧
  rb_min t = head (elems t) ∧ rb_max t = last (elems t) ∧
  ∀ k, rb_nfind ptrcmp t k None = head (filter (λ e, ptrcmp k e.1 ≠ Gt) (elems t)).
Proof.
  apply (neighbours_exact (cmp:=ptrcmp)). split; [repeat constructor|].
  exists 1. econstructor; repeat constructor.
Defined.

Lemma rb_tree_is_map_witness :
  let ops := [Tree_insert 3%N 3%positive; Tree_insert 1%N 1%positive; Tree_insert 2%N 2%positive;
              Tree_insert 2%N 7%positive; Tree_remove 3%N] in
  let m := foldl map_step ∅ ops in
  ∃ t, tree_run (cmp:=ptrcmp) ops Nil = Ret t ∧
    (∀ k, rb_find ptrcmp t k = m !! k) ∧
    StronglySorted (key_lt ptrcmp) (elems t) ∧
    elems t ≡ₚ map_to_list m ∧
    height t ≤ 2 * Nat.log2 (S (size m)).
Proof. apply (rb_tree_is_map (cmp:=ptrcmp)). Defined.

Lemma foreach_safe_removes_witness :
  let t := Node VRB_BLACK (Node VRB_RED Nil (1%N, 1%positive) Nil) (2%N, 2%positive)
             (Node VRB_RED Nil (3%N, 3%positive) Nil) in
  wp (foreach_safe (OrdTree0 := rb_ordtree ptrcmp) (St := rbtree uintptr * list (uintptr * loc))
        fst 3 (rb_min t) (λ x,
        modifyS (λ s, (s.1, s.2 ++ [x]));;;
        if decide (x.1 ≠ 3%N) then
          s ← getS; t' ← liftO (rb_remove ptrcmp s.1 x.1); modifyS (λ s, (t', s.2))
        else mret tt))
     (λ _ s, rb_ok (cmp:=ptrcmp) s.1 ∧ elems s.1 = filter (λ x, ¬ x.1 ≠ 3%N) (elems t) ∧
             s.2 = elems t) (t, []).
Proof.
  apply (foreach_safe_removes (cmp:=ptrcmp) (λ x, x.1 ≠ 3%N)); [|simpl; lia].
  split; [repeat constructor|]. exists 1. econstructor; repeat constructor.
Defined.
