(* ===== verification/VPtr.v ===== *)
(** * vtree.h: the red-black tree macros on memory

    VTree.v models the macros on trees as values; here they are the C code
    itself, a sequence of reads and writes of the left, right and parent
    pointers and the colors of the structs in memory ([pheap]).  The elements
    are known by their addresses; a read through NULL or through the address
    of no struct is [Undef].  [foc s t p] says that the memory holds the tree
    [t] below the path [p] of VTree.v; every operation is shown to take such a
    memory to the memory of the tree VTree.v computes. *)
From S2P Require Import Prelude CStr TreeSpec VTree.

(** A struct with a VRB_ENTRY, and the key its cmp function reads. *)
Record rbe (K : Type) := Rbe {
  rbe_left : option loc;
  rbe_right : option loc;
  rbe_parent : option loc;
  rbe_color : color;
  elm_key : K;
}.
Arguments Rbe {K} _ _ _ _ _.
Arguments rbe_left {K} _.
Arguments rbe_right {K} _.
Arguments rbe_parent {K} _.
Arguments rbe_color {K} _.
Arguments elm_key {K} _.
Record pheap (K : Type) := PHeap { mem : gmap loc (rbe K); rbh_root : option loc }.
Arguments PHeap {K} _ _.
Arguments mem {K} _.
Arguments rbh_root {K} _.

Section macros.
Context {K : Type} (cmp : K → K → comparison).
Abbreviation pm := (M (pheap K)).
Abbreviation ptr := (option loc).

(** ** Fields *)
Definition get_node (p : ptr) : pm (rbe K) :=
  o ← derefM p "NULL"; s ← getS; derefM (mem s !! o) "wild pointer".
Definition put_node (p : ptr) (f : rbe K → rbe K) : pm unit :=
  o ← derefM p "NULL"; n ← get_node p;
  modifyS (λ s, PHeap (<[o := f n]> (mem s)) (rbh_root s)).

Definition VRB_LEFT (p : ptr) : pm ptr := n ← get_node p; mret (rbe_left n).
Definition VRB_RIGHT (p : ptr) : pm ptr := n ← get_node p; mret (rbe_right n).
Definition VRB_PARENT (p : ptr) : pm ptr := n ← get_node p; mret (rbe_parent n).
Definition VRB_COLOR (p : ptr) : pm color := n ← get_node p; mret (rbe_color n).
Definition VRB_ROOT : pm ptr := getsS rbh_root.
Definition KEY (p : ptr) : pm K := n ← get_node p; mret (elm_key n).
(** Assignments to them. *)
Definition set_VRB_LEFT (p v : ptr) : pm unit :=
  put_node p (λ n, Rbe v (rbe_right n) (rbe_parent n) (rbe_color n) (elm_key n)).
Definition set_VRB_RIGHT (p v : ptr) : pm unit :=
  put_node p (λ n, Rbe (rbe_left n) v (rbe_parent n) (rbe_color n) (elm_key n)).
Definition set_VRB_PARENT (p v : ptr) : pm unit :=
  put_node p (λ n, Rbe (rbe_left n) (rbe_right n) v (rbe_color n) (elm_key n)).
Definition set_VRB_COLOR (p : ptr) (c : color) : pm unit :=
  put_node p (λ n, Rbe (rbe_left n) (rbe_right n) (rbe_parent n) c (elm_key n)).
Definition set_VRB_ROOT (v : ptr) : pm unit := modifyS (λ s, PHeap (mem s) v).

Definition INIT : pm unit := set_VRB_ROOT None.

Definition VRB_SET (elm parent : ptr) : pm unit :=
  set_VRB_PARENT elm parent;;;
  set_VRB_RIGHT elm None;;; set_VRB_LEFT elm None;;;
  set_VRB_COLOR elm VRB_RED.
Definition VRB_SET_BLACKRED (black red : ptr) : pm unit :=
  set_VRB_COLOR black VRB_BLACK;;; set_VRB_COLOR red VRB_RED.

(** [if (parent) { if (VRB_LEFT(parent) == elm) VRB_LEFT(parent) = child; else
    VRB_RIGHT(parent) = child; } else VRB_ROOT(head) = child;] *)
Definition replace_child (parent elm child : ptr) : pm unit :=
  match parent with
  | Some _ =>
      l ← VRB_LEFT parent;
      if decide (l = elm) then set_VRB_LEFT parent child else set_VRB_RIGHT parent child
  | None => set_VRB_ROOT child
  end.

Definition ROTATE_LEFT (elm : ptr) : pm unit :=
  tmp ← VRB_RIGHT elm;
  tl ← VRB_LEFT tmp;
  set_VRB_RIGHT elm tl;;;
  (match tl with Some _ => set_VRB_PARENT tl elm | None => mret tt end);;;
  p ← VRB_PARENT elm;
  set_VRB_PARENT tmp p;;;
  replace_child p elm tmp;;;
  set_VRB_LEFT tmp elm;;;
  set_VRB_PARENT elm tmp.
Definition ROTATE_RIGHT (elm : ptr) : pm unit :=
  tmp ← VRB_LEFT elm;
  tr ← VRB_RIGHT tmp;
  set_VRB_LEFT elm tr;;;
  (match tr with Some _ => set_VRB_PARENT tr elm | None => mret tt end);;;
  p ← VRB_PARENT elm;
  set_VRB_PARENT tmp p;;;
  replace_child p elm tmp;;;
  set_VRB_RIGHT tmp elm;;;
  set_VRB_PARENT elm tmp.

(** ** Insertion *)
(** [tmp && VRB_COLOR(tmp) == VRB_RED] *)
Definition red_ptr (p : ptr) : pm bool :=
  match p with
  | None => mret false
  | Some _ => c ← VRB_COLOR p; mret (bool_decide (c = VRB_RED))
  end.

Fixpoint INSERT_COLOR_loop (fuel : nat) (elm : ptr) : pm unit :=
  match fuel with
  | O => no_fuel
  | S fuel =>
      parent ← VRB_PARENT elm;
      red ← red_ptr parent;
      if negb red then mret tt
      else
        gparent ← VRB_PARENT parent;
        gl ← VRB_LEFT gparent;
        if decide (parent = gl) then
          tmp ← VRB_RIGHT gparent;
          uncle_red ← red_ptr tmp;
          if uncle_red : bool then
            set_VRB_COLOR tmp VRB_BLACK;;;
            VRB_SET_BLACKRED parent gparent;;;
            INSERT_COLOR_loop fuel gparent
          else
            r ← VRB_RIGHT parent;
            '(parent, elm) ← (if decide (r = elm)
                              then ROTATE_LEFT parent;;; mret (elm, parent)
                              else mret (parent, elm));
            VRB_SET_BLACKRED parent gparent;;;
            ROTATE_RIGHT gparent;;;
            INSERT_COLOR_loop fuel elm
        else
          tmp ← VRB_LEFT gparent;
          uncle_red ← red_ptr tmp;
          if uncle_red : bool then
            set_VRB_COLOR tmp VRB_BLACK;;;
            VRB_SET_BLACKRED parent gparent;;;
            INSERT_COLOR_loop fuel gparent
          else
            l ← VRB_LEFT parent;
            '(parent, elm) ← (if decide (l = elm)
                              then ROTATE_RIGHT parent;;; mret (elm, parent)
                              else mret (parent, elm));
            VRB_SET_BLACKRED parent gparent;;;
            ROTATE_LEFT gparent;;;
            INSERT_COLOR_loop fuel elm
  end.
Definition INSERT_COLOR (elm : ptr) : pm unit :=
  s ← getS;
  INSERT_COLOR_loop (2 + size (mem s)) elm;;;
  root ← VRB_ROOT;
  set_VRB_COLOR root VRB_BLACK.

(** The descent: an element with an equal key, or the last one passed and
    the side of it that is free. *)
Fixpoint descend (fuel : nat) (k : K) (tmp parent : ptr) (comp : comparison)
    : pm (ptr * ptr * comparison) :=
  match tmp with
  | None => mret (None, parent, comp)
  | Some _ =>
      match fuel with
      | O => no_fuel
      | S fuel =>
          k' ← KEY tmp;
          match cmp k k' with
          | Lt => l ← VRB_LEFT tmp; descend fuel k l tmp Lt
          | Gt => r ← VRB_RIGHT tmp; descend fuel k r tmp Gt
          | Eq => mret (tmp, tmp, Eq)
          end
      end
  end.
Definition INSERT (elm : ptr) : pm ptr :=
  s ← getS;
  k ← KEY elm;
  root ← VRB_ROOT;
  '(found, parent, comp) ← descend (size (mem s)) k root None Eq;
  match found with
  | Some _ => mret found
  | None =>
      VRB_SET elm parent;;;
      (match parent with
       | Some _ => match comp with Lt => set_VRB_LEFT parent elm | _ => set_VRB_RIGHT parent elm end
       | None => set_VRB_ROOT elm
       end);;;
      INSERT_COLOR elm;;;
      mret None
  end.

(** ** Removal *)
(** [p == NULL || VRB_COLOR(p) == VRB_BLACK] *)
Definition black_ptr (p : ptr) : pm bool :=
  match p with
  | None => mret true
  | Some _ => c ← VRB_COLOR p; mret (bool_decide (c = VRB_BLACK))
  end.
Definition black_children (tmp : ptr) : pm bool :=
  l ← VRB_LEFT tmp;
  b ← black_ptr l;
  if b : bool then r ← VRB_RIGHT tmp; black_ptr r else mret false.
(** [if (p) VRB_COLOR(p) = c;] *)
Definition paint (p : ptr) (c : color) : pm unit :=
  match p with Some _ => set_VRB_COLOR p c | None => mret tt end.

(** The loop; the answer is elm as the loop leaves it. *)
Fixpoint REMOVE_COLOR_loop (fuel : nat) (parent elm : ptr) : pm ptr :=
  match fuel with
  | O => no_fuel
  | S fuel =>
      black ← black_ptr elm;
      root ← VRB_ROOT;
      if black && bool_decide (elm ≠ root) then
        assertM (bool_decide (parent ≠ None)) "AN(parent)";;;
        l ← VRB_LEFT parent;
        if decide (l = elm) then
          tmp ← VRB_RIGHT parent;
          c ← VRB_COLOR tmp;
          tmp ← (if decide (c = VRB_RED) then
                   VRB_SET_BLACKRED tmp parent;;;
                   ROTATE_LEFT parent;;;
                   VRB_RIGHT parent
                 else mret tmp);
          both ← black_children tmp;
          if both : bool then
            set_VRB_COLOR tmp VRB_RED;;;
            parent' ← VRB_PARENT parent;
            REMOVE_COLOR_loop fuel parent' parent
          else
            r ← VRB_RIGHT tmp;
            b ← black_ptr r;
            tmp ← (if b : bool then
                     oleft ← VRB_LEFT tmp;
                     paint oleft VRB_BLACK;;;
                     set_VRB_COLOR tmp VRB_RED;;;
                     ROTATE_RIGHT tmp;;;
                     VRB_RIGHT parent
                   else mret tmp);
            c ← VRB_COLOR parent;
            set_VRB_COLOR tmp c;;;
            set_VRB_COLOR parent VRB_BLACK;;;
            r ← VRB_RIGHT tmp;
            paint r VRB_BLACK;;;
            ROTATE_LEFT parent;;;
            VRB_ROOT
        else
          tmp ← VRB_LEFT parent;
          c ← VRB_COLOR tmp;
          tmp ← (if decide (c = VRB_RED) then
                   VRB_SET_BLACKRED tmp parent;;;
                   ROTATE_RIGHT parent;;;
                   VRB_LEFT parent
                 else mret tmp);
          both ← black_children tmp;
          if both : bool then
            set_VRB_COLOR tmp VRB_RED;;;
            parent' ← VRB_PARENT parent;
            REMOVE_COLOR_loop fuel parent' parent
          else
            r ← VRB_LEFT tmp;
            b ← black_ptr r;
            tmp ← (if b : bool then
                     oright ← VRB_RIGHT tmp;
                     paint oright VRB_BLACK;;;
                     set_VRB_COLOR tmp VRB_RED;;;
                     ROTATE_LEFT tmp;;;
                     VRB_LEFT parent
                   else mret tmp);
            c ← VRB_COLOR parent;
            set_VRB_COLOR tmp c;;;
            set_VRB_COLOR parent VRB_BLACK;;;
            r ← VRB_LEFT tmp;
            paint r VRB_BLACK;;;
            ROTATE_RIGHT parent;;;
            VRB_ROOT
      else mret elm
  end.
Definition REMOVE_COLOR (parent elm : ptr) : pm unit :=
  s ← getS;
  elm ← REMOVE_COLOR_loop (4 + 2 * size (mem s)) parent elm;
  paint elm VRB_BLACK.

(** [while ((left = VRB_LEFT(elm)) != NULL) elm = left;] *)
Fixpoint go_left (fuel : nat) (elm : ptr) : pm ptr :=
  match fuel with
  | O => no_fuel
  | S fuel =>
      left ← VRB_LEFT elm;
      match left with Some _ => go_left fuel left | None => mret elm end
  end.
(** [do { VRB_AUGMENT(left); } while ((left = VRB_PARENT(left)) != NULL);] *)
Fixpoint augment_loop (fuel : nat) (left : ptr) : pm unit :=
  match fuel with
  | O => no_fuel
  | S fuel =>
      left ← VRB_PARENT left;
      match left with Some _ => augment_loop fuel left | None => mret tt end
  end.

(** From the label [color:] on. *)
Definition color_label (color : color) (parent child : ptr) : pm unit :=
  if decide (color = VRB_BLACK) then REMOVE_COLOR parent child else mret tt.
(** Taking [elm], with the only child [child], out of its place. *)
Definition unlink (elm child : ptr) : pm (ptr * color) :=
  parent ← VRB_PARENT elm;
  color ← VRB_COLOR elm;
  (match child with Some _ => set_VRB_PARENT child parent | None => mret tt end);;;
  replace_child parent elm child;;;
  mret (parent, color).
(** Putting [elm] in the place of [old]: line 560 to 571. *)
Definition take_place (old elm : ptr) : pm unit :=
  o ← get_node old;
  put_node elm (λ n, Rbe (rbe_left o) (rbe_right o) (rbe_parent o) (rbe_color o) (elm_key n));;;
  p ← VRB_PARENT old;
  replace_child p old elm;;;
  l ← VRB_LEFT old;
  set_VRB_PARENT l elm;;;
  r ← VRB_RIGHT old;
  match r with Some _ => set_VRB_PARENT r elm | None => mret tt end.

Definition REMOVE (elm : ptr) : pm ptr :=
  let old := elm in
  s ← getS;
  l ← VRB_LEFT elm;
  r ← VRB_RIGHT elm;
  match l, r with
  | Some _, Some _ =>
      elm ← go_left (size (mem s)) r;
      child ← VRB_RIGHT elm;
      '(parent, color) ← unlink elm child;
      p ← VRB_PARENT elm;
      let parent := if decide (p = old) then elm else parent in
      take_place old elm;;;
      (match parent with Some _ => augment_loop (size (mem s)) parent | None => mret tt end);;;
      color_label color parent child;;;
      mret old
  | _, _ =>
      child ← (match l with None => mret r | Some _ => mret l end);
      '(parent, color) ← unlink elm child;
      color_label color parent child;;;
      mret old
  end.

(** ** Searching and walking *)
Fixpoint FIND_loop (fuel : nat) (k : K) (tmp : ptr) : pm ptr :=
  match tmp with
  | None => mret None
  | Some _ =>
      match fuel with
      | O => no_fuel
      | S fuel =>
          k' ← KEY tmp;
          match cmp k k' with
          | Lt => l ← VRB_LEFT tmp; FIND_loop fuel k l
          | Gt => r ← VRB_RIGHT tmp; FIND_loop fuel k r
          | Eq => mret tmp
          end
      end
  end.
Definition FIND (k : K) : pm ptr :=
  s ← getS; root ← VRB_ROOT; FIND_loop (size (mem s)) k root.

Fixpoint NFIND_loop (fuel : nat) (k : K) (tmp res : ptr) : pm ptr :=
  match tmp with
  | None => mret res
  | Some _ =>
      match fuel with
      | O => no_fuel
      | S fuel =>
          k' ← KEY tmp;
          match cmp k k' with
          | Lt => l ← VRB_LEFT tmp; NFIND_loop fuel k l tmp
          | Gt => r ← VRB_RIGHT tmp; NFIND_loop fuel k r res
          | Eq => mret tmp
          end
      end
  end.
Definition NFIND (k : K) : pm ptr :=
  s ← getS; root ← VRB_ROOT; NFIND_loop (size (mem s)) k root None.

Fixpoint MINMAX_loop (fuel : nat) (val : Z) (tmp parent : ptr) : pm ptr :=
  match tmp with
  | None => mret parent
  | Some _ =>
      match fuel with
      | O => no_fuel
      | S fuel =>
          next ← (if (val <? 0)%Z then VRB_LEFT tmp else VRB_RIGHT tmp);
          MINMAX_loop fuel val next tmp
      end
  end.
Definition MINMAX (val : Z) : pm ptr :=
  s ← getS; root ← VRB_ROOT; MINMAX_loop (size (mem s)) val root None.

Fixpoint go_right (fuel : nat) (elm : ptr) : pm ptr :=
  match fuel with
  | O => no_fuel
  | S fuel =>
      right ← VRB_RIGHT elm;
      match right with Some _ => go_right fuel right | None => mret elm end
  end.
(** [while (VRB_PARENT(elm) && elm == VRB_RIGHT(VRB_PARENT(elm))) elm =
    VRB_PARENT(elm);], and the same for the left field. *)
Fixpoint up_right (fuel : nat) (elm : ptr) : pm ptr :=
  match fuel with
  | O => no_fuel
  | S fuel =>
      p ← VRB_PARENT elm;
      match p with
      | None => mret elm
      | Some _ => r ← VRB_RIGHT p; if decide (elm = r) then up_right fuel p else mret elm
      end
  end.
Fixpoint up_left (fuel : nat) (elm : ptr) : pm ptr :=
  match fuel with
  | O => no_fuel
  | S fuel =>
      p ← VRB_PARENT elm;
      match p with
      | None => mret elm
      | Some _ => l ← VRB_LEFT p; if decide (elm = l) then up_left fuel p else mret elm
      end
  end.
Definition NEXT (elm : ptr) : pm ptr :=
  s ← getS;
  r ← VRB_RIGHT elm;
  match r with
  | Some _ => go_left (size (mem s)) r
  | None =>
      p ← VRB_PARENT elm;
      first ← (match p with Some _ => l ← VRB_LEFT p; mret (bool_decide (elm = l)) | None => mret false end);
      if first : bool then mret p
      else elm ← up_right (size (mem s)) elm; VRB_PARENT elm
  end.
Definition PREV (elm : ptr) : pm ptr :=
  s ← getS;
  l ← VRB_LEFT elm;
  match l with
  | Some _ => go_right (size (mem s)) l
  | None =>
      p ← VRB_PARENT elm;
      first ← (match p with Some _ => r ← VRB_RIGHT p; mret (bool_decide (elm = r)) | None => mret false end);
      if first : bool then mret p
      else elm ← up_left (size (mem s)) elm; VRB_PARENT elm
  end.
End macros.

(** ** What the memory holds *)
Section layout.
Context {K : Type}.
Abbreviation elm := (K * loc)%type.
Implicit Types (m : gmap loc (rbe K)) (s : pheap K) (t l r : rbtree K) (p : list (frame K)) (x : elm).

Definition node_ptr t : option loc := match t with Nil => None | Node _ _ x _ => Some x.2 end.
Definition path_ptr p : option loc :=
  match p with [] => None | InLeft _ x _ :: _ => Some x.2 | InRight _ _ x :: _ => Some x.2 end.
Definition locs t : list loc := (elems t).*2.
Fixpoint plocs p : list loc :=
  match p with
  | [] => []
  | InLeft _ x r :: p => x.2 :: locs r ++ plocs p
  | InRight _ l x :: p => x.2 :: locs l ++ plocs p
  end.

(** The tree [t] with the parent pointer [par]; the path [p] to the root,
    with the pointer [child] at its end. *)
Fixpoint tree m (par : option loc) t : Prop :=
  match t with
  | Nil => True
  | Node c l x r =>
      m !! x.2 = Some (Rbe (node_ptr l) (node_ptr r) par c x.1) ∧
      tree m (Some x.2) l ∧ tree m (Some x.2) r
  end.
Fixpoint ctx m (root child : option loc) p : Prop :=
  match p with
  | [] => root = child
  | InLeft c x r :: p =>
      m !! x.2 = Some (Rbe child (node_ptr r) (path_ptr p) c x.1) ∧
      tree m (Some x.2) r ∧ ctx m root (Some x.2) p
  | InRight c l x :: p =>
      m !! x.2 = Some (Rbe (node_ptr l) child (path_ptr p) c x.1) ∧
      tree m (Some x.2) l ∧ ctx m root (Some x.2) p
  end.
(** The keys of the structs, which nothing changes. *)
Definition keys s : gmap loc K := elm_key <$> mem s.
Record foc (ks : gmap loc K) s t p : Prop := Foc {
  foc_tree : tree (mem s) (path_ptr p) t;
  foc_ctx : ctx (mem s) (rbh_root s) (node_ptr t) p;
  foc_nodup : NoDup (locs t ++ plocs p);
  foc_keys : keys s = ks;
}.

Lemma locs_node c l x r : locs (Node c l x r) = locs l ++ x.2 :: locs r.
Proof. unfold locs. simpl. by rewrite fmap_app. Qed.
Lemma node_ptr_elem t o : node_ptr t = Some o → o ∈ locs t.
Proof. destruct t as [|c l x r]; [done|]. intros [= <-]. rewrite locs_node. set_solver. Qed.
Lemma path_ptr_elem p o : path_ptr p = Some o → o ∈ plocs p.
Proof. destruct p as [|[] p]; simpl; [done|..]; intros [= <-]; left. Qed.

Lemma tree_frame m m' par t :
  tree m par t → (∀ o, o ∈ locs t → m' !! o = m !! o) → tree m' par t.
Proof.
  revert par. induction t as [|c l IHl x r IHr]; intros par; [done|]. rewrite locs_node.
  intros (Hx & Hl & Hr) Hm. simpl. split; [rewrite Hm; [done|set_solver]|].
  split; [apply IHl|apply IHr]; try done; intros; apply Hm; set_solver.
Qed.
Lemma ctx_frame m m' root child p :
  ctx m root child p → (∀ o, o ∈ plocs p → m' !! o = m !! o) → ctx m' root child p.
Proof.
  revert child. induction p as [|[c x r|c l x] p IH]; intros child; [done|..]; simpl;
    intros (Hx & Ht & Hp) Hm;
    (split; [rewrite Hm; [done|set_solver]|]);
    (split; [eapply tree_frame; [done|]|apply IH; [done|]]); intros; apply Hm; set_solver.
Qed.

Lemma foc_zip ks s t f p : foc ks s t (f :: p) ↔ foc ks s (plug t f) p.
Proof.
  split; intros [Ht Hc Hn Hk]; destruct f as [c x r|c l x]; simpl in *; destruct_and?;
    (split; simpl; [done|done| |done]); rewrite locs_node in *.
  - by rewrite <-(assoc_L (++)).
  - eapply NoDup_Permutation_proper; [|exact Hn]. solve_Permutation.
  - by rewrite <-(assoc_L (++)) in Hn.
  - eapply NoDup_Permutation_proper; [|exact Hn]. solve_Permutation.
Qed.
Lemma foc_node ks s c l x r p : foc ks s (Node c l x r) p →
  mem s !! x.2 = Some (Rbe (node_ptr l) (node_ptr r) (path_ptr p) c x.1).
Proof. by intros [(? & _) _ _ _]. Qed.
Lemma foc_root ks s t p : foc ks s t p → rbh_root s = node_ptr (zip t p).
Proof.
  revert t. induction p as [|f p IH]; intros t H; [by destruct H|].
  by apply foc_zip, IH in H.
Qed.
Lemma keys_insert m o n n' : m !! o = Some n → elm_key n' = elm_key n →
  elm_key <$> <[o := n']> m = elm_key <$> m.
Proof.
  intros Hn Hk. rewrite fmap_insert, Hk. apply insert_id. by rewrite lookup_fmap, Hn.
Qed.
End layout.

(** ** Separation *)
Definition disj (A B : list loc) : Prop := ∀ o, o ∈ A → o ∈ B → False.
Section disj.
Implicit Types (A B C : list loc) (o : loc).
Lemma disj_app_l A B C : disj (A ++ B) C ↔ disj A C ∧ disj B C.
Proof. unfold disj. setoid_rewrite elem_of_app. naive_solver. Qed.
Lemma disj_app_r A B C : disj A (B ++ C) ↔ disj A B ∧ disj A C.
Proof. unfold disj. setoid_rewrite elem_of_app. naive_solver. Qed.
Lemma disj_cons_l o A C : disj (o :: A) C ↔ (o ∉ C) ∧ disj A C.
Proof. unfold disj. setoid_rewrite elem_of_cons. naive_solver. Qed.
Lemma disj_cons_r o A C : disj A (o :: C) ↔ (o ∉ A) ∧ disj A C.
Proof. unfold disj. setoid_rewrite elem_of_cons. naive_solver. Qed.
Lemma NoDup_disj A B : NoDup (A ++ B) ↔ NoDup A ∧ disj A B ∧ NoDup B.
Proof. rewrite NoDup_app. unfold disj. naive_solver. Qed.
End disj.

(** Take a [NoDup] apart, down to single addresses and whole subtrees. *)
Ltac nodup H :=
  rewrite ?locs_node in H; simpl in H;
  repeat first
    [ rewrite NoDup_disj in H | rewrite NoDup_cons in H
    | rewrite disj_app_l in H | rewrite disj_app_r in H
    | rewrite disj_cons_l in H | rewrite disj_cons_r in H
    | rewrite not_elem_of_app in H | rewrite not_elem_of_cons in H ];
  destruct_and? H.
(** Solve [o ∉ L] and [o ≠ o'] from such facts. *)
Ltac apart :=
  rewrite ?locs_node; simpl;
  repeat match goal with
  | H : _ ∈ locs (Node _ _ _ _) |- _ => rewrite locs_node in H
  | H : _ ∈ _ ++ _ |- _ => apply elem_of_app in H as [H|H]
  | H : _ ∈ _ :: _ |- _ => apply elem_of_cons in H as [->|H]
  | H : _ ∉ locs (Node _ _ _ _) |- _ => rewrite locs_node in H
  | H : _ ∉ _ ++ _ |- _ => apply not_elem_of_app in H as [? H]
  | H : _ ∉ _ :: _ |- _ => apply not_elem_of_cons in H as [? H]
  | |- _ ∉ _ ++ _ => apply not_elem_of_app; split
  | |- _ ∉ _ :: _ => apply not_elem_of_cons; split
  end;
  first
    [ assumption
    | by apply not_eq_sym
    | match goal with H : ?o ∈ ?A |- (?x ≠ ?o) => intros ?; subst; contradiction end
    | match goal with H : ?o ∈ ?A |- (?o ≠ ?x) => intros ?; subst; contradiction end
    | match goal with D : disj ?A ?B, H : ?o ∈ ?A |- ?o ∉ ?B => intros ?; exact (D o H ltac:(assumption)) end
    | match goal with D : disj ?B ?A, H : ?o ∈ ?A |- ?o ∉ ?B => intros ?; exact (D o ltac:(assumption) H) end
    | by apply not_elem_of_nil ].

Section rules.
Context {K : Type} (ks : gmap loc K).
Abbreviation elm := (K * loc)%type.
Implicit Types (m : gmap loc (rbe K)) (s : pheap K) (t l r : rbtree K) (p : list (frame K)) (x : elm).

(** ** Reads and writes *)
Lemma wp_get_node o n (Q : rbe K → pheap K → Prop) s :
  mem s !! o = Some n → Q n s → wp (get_node (Some o)) Q s.
Proof. intros Hn HQ. unfold get_node. cbn [derefM]. wp_go; [exact Hn|done]. Qed.
Lemma wp_put_node o n f (Q : unit → pheap K → Prop) s :
  mem s !! o = Some n → Q tt (PHeap (<[o := f n]> (mem s)) (rbh_root s)) →
  wp (put_node (Some o) f) Q s.
Proof.
  intros Hn HQ. unfold put_node. cbn [derefM]. apply wp_bind, wp_ret, wp_bind.
  eapply wp_get_node; [exact Hn|]. by apply wp_modifyS.
Qed.
Lemma wp_LEFT o n (Q : option loc → pheap K → Prop) s :
  mem s !! o = Some n → Q (rbe_left n) s → wp (VRB_LEFT (Some o)) Q s.
Proof. intros Hn HQ. apply wp_bind. eapply wp_get_node; [exact Hn|]. by apply wp_ret. Qed.
Lemma wp_RIGHT o n (Q : option loc → pheap K → Prop) s :
  mem s !! o = Some n → Q (rbe_right n) s → wp (VRB_RIGHT (Some o)) Q s.
Proof. intros Hn HQ. apply wp_bind. eapply wp_get_node; [exact Hn|]. by apply wp_ret. Qed.
Lemma wp_PARENT o n (Q : option loc → pheap K → Prop) s :
  mem s !! o = Some n → Q (rbe_parent n) s → wp (VRB_PARENT (Some o)) Q s.
Proof. intros Hn HQ. apply wp_bind. eapply wp_get_node; [exact Hn|]. by apply wp_ret. Qed.
Lemma wp_COLOR o n (Q : color → pheap K → Prop) s :
  mem s !! o = Some n → Q (rbe_color n) s → wp (VRB_COLOR (Some o)) Q s.
Proof. intros Hn HQ. apply wp_bind. eapply wp_get_node; [exact Hn|]. by apply wp_ret. Qed.
Lemma wp_KEY o n (Q : K → pheap K → Prop) s :
  mem s !! o = Some n → Q (elm_key n) s → wp (KEY (Some o)) Q s.
Proof. intros Hn HQ. apply wp_bind. eapply wp_get_node; [exact Hn|]. by apply wp_ret. Qed.

(** Redirecting the pointer at the end of a path. *)
Lemma wp_replace_child p o child (Q : unit → pheap K → Prop) s :
  ctx (mem s) (rbh_root s) (Some o) p → keys s = ks → NoDup (plocs p) → o ∉ plocs p →
  (∀ s', ctx (mem s') (rbh_root s') child p → keys s' = ks →
     (∀ o', o' ∉ plocs p → mem s' !! o' = mem s !! o') → Q tt s') →
  wp (replace_child (path_ptr p) (Some o) child) Q s.
Proof.
  intros Hc Hk Hn Ho HQ. destruct p as [|[c x r|c l x] p]; simpl in *.
  { apply wp_modifyS, HQ; done. }
  - destruct Hc as (Hx & Hr & Hp). nodup Hn. apply wp_bind. eapply wp_LEFT; [exact Hx|]. cbn [rbe_left].
    rewrite decide_True by done. eapply wp_put_node; [exact Hx|]. apply HQ; simpl.
    + split; [by rewrite lookup_insert_eq|].
      split; [eapply tree_frame; [exact Hr|]|eapply ctx_frame; [exact Hp|]];
        intros o' Ho'; by rewrite lookup_insert_ne by apart.
    + rewrite <-Hk. unfold keys. simpl. by erewrite keys_insert.
    + intros o' Ho'. by rewrite lookup_insert_ne by apart.
  - destruct Hc as (Hx & Hl & Hp). nodup Hn. apply wp_bind. eapply wp_LEFT; [exact Hx|]. cbn [rbe_left].
    rewrite decide_False by (intros He%node_ptr_elem; apply Ho; right; set_solver).
    eapply wp_put_node; [exact Hx|]. apply HQ; simpl.
    + split; [by rewrite lookup_insert_eq|].
      split; [eapply tree_frame; [exact Hl|]|eapply ctx_frame; [exact Hp|]];
        intros o' Ho'; by rewrite lookup_insert_ne by apart.
    + rewrite <-Hk. unfold keys. simpl. by erewrite keys_insert.
    + intros o' Ho'. by rewrite lookup_insert_ne by apart.
Qed.

(** [if (t) VRB_PARENT(t) = v;] *)
Lemma wp_set_parent par t v (Q : unit → pheap K → Prop) s :
  tree (mem s) par t → NoDup (locs t) →
  (∀ s', tree (mem s') v t → rbh_root s' = rbh_root s → keys s' = keys s →
     (∀ o, o ∉ locs t → mem s' !! o = mem s !! o) → Q tt s') →
  wp (match node_ptr t with Some _ => set_VRB_PARENT (node_ptr t) v | None => mret tt end) Q s.
Proof.
  intros Ht Hn HQ. destruct t as [|c l x r]; simpl; [by apply wp_ret, HQ|].
  destruct Ht as (Hx & Hl & Hr). nodup Hn. eapply wp_put_node; [exact Hx|]. apply HQ; simpl.
  - split; [by rewrite lookup_insert_eq|].
    split; [eapply tree_frame; [exact Hl|]|eapply tree_frame; [exact Hr|]];
      intros o' Ho'; by rewrite lookup_insert_ne by apart.
  - done.
  - unfold keys. simpl. by erewrite keys_insert.
  - rewrite locs_node. intros o' Ho'. by rewrite lookup_insert_ne by apart.
Qed.
End rules.

(** Read a struct in a memory that agrees with an earlier one there; [Hs] are
    hypotheses on where the memories agree. *)
Ltac look :=
  repeat first
    [ progress cbn [mem rbh_root]
    | rewrite lookup_insert_eq
    | rewrite lookup_insert_ne by apart
    | match goal with
      | H : ∀ o, o ∉ _ → mem ?s' !! o = _ |- context [mem ?s' !! _] =>
          rewrite H by apart
      end ].
Ltac frame H :=
  first [eapply tree_frame; [exact H|] | eapply ctx_frame; [exact H|]];
  intros ??; look; done.

Ltac same_keys :=
  unfold keys in *; simpl in *;
  repeat first
    [ assumption | reflexivity
    | erewrite keys_insert; [|look; first [eassumption|reflexivity]|reflexivity]
    | match goal with H : elm_key <$> mem ?s' = _ |- context [mem ?s'] => rewrite H end ].

Section rotations.
Context {K : Type} (ks : gmap loc K).
Implicit Types (s : pheap K) (l r : rbtree K) (p : list (frame K)).

Lemma wp_ROTATE_LEFT c l x c' l' x' r' p (Q : unit → pheap K → Prop) s :
  foc ks s (Node c l x (Node c' l' x' r')) p →
  (∀ s', foc ks s' (Node c' (Node c l x l') x' r') p → Q tt s') →
  wp (ROTATE_LEFT (Some x.2)) Q s.
Proof.
  intros [Ht Hc Hn Hk] HQ. destruct Ht as (Hx & Hl & Hx' & Hl' & Hr'). simpl in Hx, Hc.
  pose proof Hn as Hnd. nodup Hn.
  unfold ROTATE_LEFT. apply wp_bind. eapply wp_RIGHT; [exact Hx|]. cbn [rbe_right].
  apply wp_bind. eapply wp_LEFT; [exact Hx'|]. cbn [rbe_left].
  apply wp_bind. eapply wp_put_node; [exact Hx|]. cbn [rbe_left rbe_right rbe_parent rbe_color elm_key].
  apply wp_bind. eapply wp_set_parent; [by frame Hl'|done|]. intros s2 Hl2 Hroot2 Hk2 Hag2. 
  apply wp_bind. eapply wp_PARENT; [by look|]. cbn [rbe_parent].
  apply wp_bind. eapply wp_put_node; [by look|]. cbn [rbe_left rbe_right rbe_parent rbe_color elm_key].
  apply wp_bind. eapply (wp_replace_child ks); [| |done|apart|].
  { rewrite Hroot2. frame Hc. }
  { same_keys. }
  intros s4 Hc4 Hk4 Hag4.
  apply wp_bind. eapply wp_put_node; [by look|]. cbn [rbe_left rbe_right rbe_parent rbe_color elm_key].
  eapply wp_put_node; [by look|]. cbn [rbe_left rbe_right rbe_parent rbe_color elm_key].
  apply HQ. split; simpl.
  - split; [by look|]. split; [split; [by look|]|]; [split; [frame Hl|frame Hl2]|frame Hr'].
  - frame Hc4.
  - eapply NoDup_Permutation_proper; [|exact Hnd]. rewrite !locs_node. solve_Permutation.
  - same_keys.
Qed.

Lemma wp_ROTATE_RIGHT c r x c' l' x' r' p (Q : unit → pheap K → Prop) s :
  foc ks s (Node c (Node c' l' x' r') x r) p →
  (∀ s', foc ks s' (Node c' l' x' (Node c r' x r)) p → Q tt s') →
  wp (ROTATE_RIGHT (Some x.2)) Q s.
Proof.
  intros [Ht Hc Hn Hk] HQ. destruct Ht as (Hx & (Hx' & Hl' & Hr') & Hr). simpl in Hx, Hc.
  pose proof Hn as Hnd. nodup Hn.
  unfold ROTATE_RIGHT. apply wp_bind. eapply wp_LEFT; [exact Hx|]. cbn [rbe_left].
  apply wp_bind. eapply wp_RIGHT; [exact Hx'|]. cbn [rbe_right].
  apply wp_bind. eapply wp_put_node; [exact Hx|]. cbn [rbe_left rbe_right rbe_parent rbe_color elm_key].
  apply wp_bind. eapply wp_set_parent; [by frame Hr'|done|]. intros s2 Hr2 Hroot2 Hk2 Hag2.
  apply wp_bind. eapply wp_PARENT; [by look|]. cbn [rbe_parent].
  apply wp_bind. eapply wp_put_node; [by look|]. cbn [rbe_left rbe_right rbe_parent rbe_color elm_key].
  apply wp_bind. eapply (wp_replace_child ks); [| |done|apart|].
  { rewrite Hroot2. frame Hc. }
  { same_keys. }
  intros s4 Hc4 Hk4 Hag4.
  apply wp_bind. eapply wp_put_node; [by look|]. cbn [rbe_left rbe_right rbe_parent rbe_color elm_key].
  eapply wp_put_node; [by look|]. cbn [rbe_left rbe_right rbe_parent rbe_color elm_key].
  apply HQ. split; simpl.
  - split; [by look|]. split; [frame Hl'|]. split; [by look|]. split; [frame Hr2|frame Hr].
  - frame Hc4.
  - eapply NoDup_Permutation_proper; [|exact Hnd]. rewrite !locs_node. solve_Permutation.
  - same_keys.
Qed.

(** ** Colors *)
Lemma wp_foc_color c' c l x r p (Q : unit → pheap K → Prop) s :
  foc ks s (Node c l x r) p → (∀ s', foc ks s' (Node c' l x r) p → Q tt s') →
  wp (set_VRB_COLOR (Some x.2) c') Q s.
Proof.
  intros [Ht Hc Hn Hk] HQ. destruct Ht as (Hx & Hl & Hr). pose proof Hn as Hnd. nodup Hn.
  eapply wp_put_node; [exact Hx|]. cbn [rbe_left rbe_right rbe_parent rbe_color elm_key].
  apply HQ. split; simpl.
  - split; [by look|]. split; [frame Hl|frame Hr].
  - frame Hc.
  - by rewrite !locs_node in *.
  - same_keys.
Qed.
Lemma wp_foc_paint c' t p (Q : unit → pheap K → Prop) s :
  foc ks s t p → (∀ s', foc ks s' (set_color c' t) p → Q tt s') →
  wp (paint (node_ptr t) c') Q s.
Proof.
  intros Hf HQ. destruct t as [|c l x r]; simpl; [by apply wp_ret, HQ|]. by eapply wp_foc_color.
Qed.
Lemma wp_foc_red t p (Q : bool → pheap K → Prop) s :
  foc ks s t p → Q (is_red t) s → wp (red_ptr (node_ptr t)) Q s.
Proof.
  intros Hf HQ. destruct t as [|c l x r]; simpl; [by apply wp_ret|].
  apply wp_bind. eapply wp_COLOR; [by eapply foc_node|]. apply wp_ret. by destruct c.
Qed.
Lemma wp_foc_black t p (Q : bool → pheap K → Prop) s :
  foc ks s t p → Q (negb (is_red t)) s → wp (black_ptr (node_ptr t)) Q s.
Proof.
  intros Hf HQ. destruct t as [|c l x r]; simpl; [by apply wp_ret|].
  apply wp_bind. eapply wp_COLOR; [by eapply foc_node|]. apply wp_ret. by destruct c.
Qed.
End rotations.

(** ** Moving the focus *)
Section focus.
Context {K : Type} (ks : gmap loc K).
Implicit Types (s : pheap K) (t l r : rbtree K) (p : list (frame K)).

Lemma foc_zips s t p : foc ks s t p ↔ foc ks s (zip t p) [].
Proof. revert t. induction p as [|f p IH]; intros t; [done|]. rewrite foc_zip. apply IH. Qed.
Lemma foc_move s t p t' p' : foc ks s t p → zip t p = zip t' p' → foc ks s t' p'.
Proof. rewrite (foc_zips s t p), (foc_zips s t' p'). by intros ? <-. Qed.

(** The other child is another struct. *)
Lemma foc_other s c l x r f p : foc ks s (Node c l x r) (f :: p) →
  node_ptr (match f with InLeft _ _ r => r | InRight _ l _ => l end) ≠ Some x.2.
Proof. intros [_ _ Hn _] He%node_ptr_elem. destruct f; nodup Hn; contradiction. Qed.

(** Every element is a struct, so the number of structs bounds the loops. *)
Lemma tree_dom m par t o : tree m par t → o ∈ locs t → is_Some (m !! o).
Proof.
  revert par. induction t as [|c l IHl x r IHr]; intros par; [by intros _ ?%elem_of_nil|].
  intros (Hx & Hl & Hr). rewrite locs_node.
  intros [?|[->|?]%elem_of_cons]%elem_of_app; [by eapply IHl|by eexists|by eapply IHr].
Qed.
Lemma foc_size s t p : foc ks s t p → length (locs t) + length p ≤ size (mem s).
Proof.
  intros Hf. assert (length (locs (zip t p)) ≤ size (mem s)) as Hz.
  { apply foc_zips in Hf as [Ht _ Hn _]. simpl in Hn. rewrite app_nil_r in Hn.
    rewrite <-size_dom, <-(size_list_to_set (C:=gset loc)) by done. apply subseteq_size.
    intros o Ho%elem_of_list_to_set. apply elem_of_dom. by eapply tree_dom. }
  etrans; [|exact Hz]. clear. revert t. induction p as [|f p IH]; intros t; simpl; [lia|].
  etrans; [|apply IH]. destruct f; simpl; rewrite locs_node, length_app; simpl; lia.
Qed.
Lemma zip_locs t p o : o ∈ locs (zip t p) ↔ o ∈ locs t ++ plocs p.
Proof.
  revert t. induction p as [|f p IH]; intros t; simpl; [by rewrite app_nil_r|].
  rewrite IH. destruct f; simpl; rewrite locs_node; set_solver.
Qed.
Lemma foc_mem s t p k o : foc ks s t p → (k, o) ∈ elems (zip t p) → ks !! o = Some k.
Proof.
  intros [Ht _ _ <-]%foc_zips. revert Ht. generalize (path_ptr ([] : list (frame K))), (zip t p).
  intros par u. revert par. induction u as [|c l IHl x r IHr]; intros par; simpl; [by intros _ ?%elem_of_nil|].
  intros (Hx & Hl & Hr) [?|[<-|?]%elem_of_cons]%elem_of_app; [by eapply IHl| |by eapply IHr].
  unfold keys. rewrite lookup_fmap. simpl in Hx. by rewrite Hx.
Qed.
End focus.
Section insertion.
Context {K : Type} (cmp : K → K → comparison) (ks : gmap loc K).
Implicit Types (s : pheap K) (t l r : rbtree K) (p : list (frame K)).

(** The two ends of the loop's body, uncle red and uncle black, for either
    side: SET_BLACKRED repaints parent and gparent. *)
Lemma wp_SET_BLACKRED_left c l x r gc gx u p (Q : unit → pheap K → Prop) s :
  foc ks s (Node c l x r) (InLeft gc gx u :: p) →
  (∀ s', foc ks s' (Node VRB_BLACK l x r) (InLeft VRB_RED gx u :: p) → Q tt s') →
  wp (VRB_SET_BLACKRED (Some x.2) (Some gx.2)) Q s.
Proof.
  intros Hf HQ. apply wp_bind. eapply wp_foc_color; [exact Hf|]. intros s1 Hf1.
  eapply wp_foc_color; [exact (proj1 (foc_zip _ _ _ _ _) Hf1)|].
  intros s2 Hf2. apply HQ. by apply foc_zip.
Qed.
Lemma wp_SET_BLACKRED_right c l x r gc gx u p (Q : unit → pheap K → Prop) s :
  foc ks s (Node c l x r) (InRight gc u gx :: p) →
  (∀ s', foc ks s' (Node VRB_BLACK l x r) (InRight VRB_RED u gx :: p) → Q tt s') →
  wp (VRB_SET_BLACKRED (Some x.2) (Some gx.2)) Q s.
Proof.
  intros Hf HQ. apply wp_bind. eapply wp_foc_color; [exact Hf|]. intros s1 Hf1.
  eapply wp_foc_color; [exact (proj1 (foc_zip _ _ _ _ _) Hf1)|].
  intros s2 Hf2. apply HQ. by apply foc_zip.
Qed.

(** The loop stops below a black parent, or at the root. *)
Lemma wp_loop_stop fuel t p (Q : unit → pheap K → Prop) s :
  foc ks s t p → t ≠ Nil →
  match p with InLeft VRB_RED _ _ :: _ | InRight VRB_RED _ _ :: _ => False | _ => True end →
  Q tt s → wp (INSERT_COLOR_loop (S fuel) (node_ptr t)) Q s.
Proof.
  intros Hf Ht Hp HQ. destruct t as [|c l x r]; [done|]. cbn [INSERT_COLOR_loop node_ptr].
  apply wp_bind. eapply wp_PARENT; [by eapply foc_node|]. cbn [rbe_parent]. apply wp_bind.
  destruct p as [|[[] y t|[] t y] p]; try done; cbn [path_ptr].
  - apply foc_zip in Hf. eapply (wp_foc_red ks (plug _ (InLeft VRB_BLACK y t))); [exact Hf|exact HQ].
  - apply foc_zip in Hf. eapply (wp_foc_red ks (plug _ (InRight VRB_BLACK t y))); [exact Hf|exact HQ].
Qed.

(** A turn of the loop below a red parent that is a left child, and one
    below a right child. *)
Lemma wp_turn_left fuel t f gc gx u p (Q : unit → pheap K → Prop) s t' :
  foc ks s t (f :: InLeft gc gx u :: p) → t ≠ Nil →
  match f with InLeft VRB_RED _ _ | InRight VRB_RED _ _ => True | _ => False end →
  insert_color_loop t (f :: InLeft gc gx u :: p) = Ret t' →
  (∀ t1 s1, foc ks s1 t1 p → t1 ≠ Nil → insert_color_loop t1 p = Ret t' →
     wp (INSERT_COLOR_loop (S fuel) (node_ptr t1)) Q s1) →
  (∀ s1, foc ks s1 t' [] → Q tt s1) →
  wp (INSERT_COLOR_loop (S (S fuel)) (node_ptr t)) Q s.
Proof.
  intros Hf Ht Hred Hz Hrec Hstop. destruct t as [|c l x r]; [done|].
  pose proof (foc_other _ _ _ _ _ _ _ _ Hf) as Hx.
  pose proof (proj1 (foc_zip _ _ _ _ _) Hf) as Hfp.
  remember (S fuel) as fuel' eqn:Hfuel. cbn [INSERT_COLOR_loop node_ptr].
  destruct f as [[] px pr|[] pl px]; try done; cbn [plug] in Hfp;
    pose proof (proj1 (foc_zip _ _ _ _ _) Hfp) as Hfg; cbn [plug] in Hfg;
    apply wp_bind; (eapply wp_PARENT; [by eapply foc_node|]); cbn [rbe_parent path_ptr];
    apply wp_bind; (eapply (wp_foc_red ks (Node VRB_RED _ px _)); [exact Hfp|]); cbn [is_red negb];
    apply wp_bind; (eapply wp_PARENT; [by eapply foc_node|]); cbn [rbe_parent path_ptr];
    apply wp_bind; (eapply wp_LEFT; [by eapply foc_node|]); cbn [rbe_left node_ptr];
    rewrite decide_True by done;
    apply wp_bind; (eapply wp_RIGHT; [by eapply foc_node|]); cbn [rbe_right];
    apply wp_bind; (eapply (wp_foc_red ks u); [exact (proj2 (foc_zip _ _ u (InRight gc _ gx) p) Hfg)|]);
    cbn [insert_color_loop] in Hz;
    destruct (is_red u) eqn:Hu.
  1, 3: destruct u as [|[] ul ux ur]; try done; cbn [node_ptr];
    apply wp_bind; (eapply (wp_foc_color ks VRB_BLACK); [exact (proj2 (foc_zip _ _ (Node VRB_RED ul ux ur) (InRight gc _ gx) p) Hfg)|]);
    intros s1 Hf1; apply foc_zip in Hf1; cbn [plug] in Hf1; apply wp_bind;
    (eapply (wp_SET_BLACKRED_left _ _ px _ gc gx); [exact (proj2 (foc_zip _ _ (Node VRB_RED _ px _) (InLeft gc gx _) p) Hf1)|]);
    intros s2 Hf2; apply foc_zip in Hf2; by apply Hrec in Hf2.
  - apply wp_bind. eapply wp_RIGHT; [by eapply foc_node|]. cbn [rbe_right node_ptr].
    rewrite decide_False by exact Hx. apply wp_bind, wp_ret. cbn beta iota.
    apply wp_bind. eapply wp_SET_BLACKRED_left; [exact Hfp|]. intros s1 Hf1. apply foc_zip in Hf1. cbn [plug] in Hf1.
    apply wp_bind. eapply wp_ROTATE_RIGHT; [exact Hf1|]. intros s2 Hf2. rewrite Hfuel.
    eapply (wp_loop_stop _ (Node c l x r)); [exact (proj2 (foc_zip _ _ (Node c l x r) (InLeft VRB_BLACK px (Node VRB_RED _ gx _)) p) Hf2)|done|done|].
    simpl in Hz. injection Hz as <-. apply Hstop. exact (proj1 (foc_zips _ _ _ _) Hf2).
  - apply wp_bind. eapply wp_RIGHT; [by eapply foc_node|]. cbn [rbe_right node_ptr].
    rewrite decide_True by done. apply wp_bind, wp_bind. eapply wp_ROTATE_LEFT; [exact Hfp|]. intros s0 Hf0.
    apply wp_ret. cbn beta iota.
    apply wp_bind. eapply wp_SET_BLACKRED_left; [exact Hf0|]. intros s1 Hf1. apply foc_zip in Hf1. cbn [plug] in Hf1.
    apply wp_bind. eapply wp_ROTATE_RIGHT; [exact Hf1|]. intros s2 Hf2. rewrite Hfuel.
    eapply (wp_loop_stop _ (Node VRB_RED pl px l)); [exact (proj2 (foc_zip _ _ (Node VRB_RED pl px l) (InLeft VRB_BLACK x (Node VRB_RED _ gx _)) p) Hf2)|done|done|].
    simpl in Hz. injection Hz as <-. apply Hstop. exact (proj1 (foc_zips _ _ _ _) Hf2).
Qed.
Lemma wp_turn_right fuel t f gc gx u p (Q : unit → pheap K → Prop) s t' :
  foc ks s t (f :: InRight gc u gx :: p) → t ≠ Nil →
  match f with InLeft VRB_RED _ _ | InRight VRB_RED _ _ => True | _ => False end →
  insert_color_loop t (f :: InRight gc u gx :: p) = Ret t' →
  (∀ t1 s1, foc ks s1 t1 p → t1 ≠ Nil → insert_color_loop t1 p = Ret t' →
     wp (INSERT_COLOR_loop (S fuel) (node_ptr t1)) Q s1) →
  (∀ s1, foc ks s1 t' [] → Q tt s1) →
  wp (INSERT_COLOR_loop (S (S fuel)) (node_ptr t)) Q s.
Proof.
  intros Hf Ht Hred Hz Hrec Hstop. destruct t as [|c l x r]; [done|].
  pose proof (foc_other _ _ _ _ _ _ _ _ Hf) as Hx.
  pose proof (proj1 (foc_zip _ _ _ _ _) Hf) as Hfp.
  remember (S fuel) as fuel' eqn:Hfuel. cbn [INSERT_COLOR_loop node_ptr].
  destruct f as [[] px pr|[] pl px]; try done; cbn [plug] in Hfp;
    pose proof (proj1 (foc_zip _ _ _ _ _) Hfp) as Hfg; cbn [plug] in Hfg;
    apply wp_bind; (eapply wp_PARENT; [by eapply foc_node|]); cbn [rbe_parent path_ptr];
    apply wp_bind; (eapply (wp_foc_red ks (Node VRB_RED _ px _)); [exact Hfp|]); cbn [is_red negb];
    apply wp_bind; (eapply wp_PARENT; [by eapply foc_node|]); cbn [rbe_parent path_ptr];
    apply wp_bind; (eapply wp_LEFT; [by eapply foc_node|]); cbn [rbe_left node_ptr];
    rewrite decide_False by (intros E; exact (foc_other _ _ _ _ _ _ _ _ Hfp (eq_sym E)));
    apply wp_bind; (eapply wp_LEFT; [by eapply foc_node|]); cbn [rbe_left];
    apply wp_bind; (eapply (wp_foc_red ks u); [exact (proj2 (foc_zip _ _ u (InLeft gc gx _) p) Hfg)|]);
    cbn [insert_color_loop] in Hz;
    destruct (is_red u) eqn:Hu.
  1, 3: destruct u as [|[] ul ux ur]; try done; cbn [node_ptr];
    apply wp_bind; (eapply (wp_foc_color ks VRB_BLACK); [exact (proj2 (foc_zip _ _ (Node VRB_RED ul ux ur) (InLeft gc gx _) p) Hfg)|]);
    intros s1 Hf1; apply foc_zip in Hf1; cbn [plug] in Hf1; apply wp_bind;
    (eapply (wp_SET_BLACKRED_right _ _ px _ gc gx); [exact (proj2 (foc_zip _ _ (Node VRB_RED _ px _) (InRight gc _ gx) p) Hf1)|]);
    intros s2 Hf2; apply foc_zip in Hf2; by apply Hrec in Hf2.
  - apply wp_bind. eapply wp_LEFT; [by eapply foc_node|]. cbn [rbe_left node_ptr].
    rewrite decide_True by done. apply wp_bind, wp_bind. eapply wp_ROTATE_RIGHT; [exact Hfp|]. intros s0 Hf0.
    apply wp_ret. cbn beta iota.
    apply wp_bind. eapply wp_SET_BLACKRED_right; [exact Hf0|]. intros s1 Hf1. apply foc_zip in Hf1. cbn [plug] in Hf1.
    apply wp_bind. eapply wp_ROTATE_LEFT; [exact Hf1|]. intros s2 Hf2. rewrite Hfuel.
    eapply (wp_loop_stop _ (Node VRB_RED r px pr)); [exact (proj2 (foc_zip _ _ (Node VRB_RED r px pr) (InRight VRB_BLACK (Node VRB_RED _ gx _) x) p) Hf2)|done|done|].
    simpl in Hz. injection Hz as <-. apply Hstop. exact (proj1 (foc_zips _ _ _ _) Hf2).
  - apply wp_bind. eapply wp_LEFT; [by eapply foc_node|]. cbn [rbe_left node_ptr].
    rewrite decide_False by exact Hx. apply wp_bind, wp_ret. cbn beta iota.
    apply wp_bind. eapply wp_SET_BLACKRED_right; [exact Hfp|]. intros s1 Hf1. apply foc_zip in Hf1. cbn [plug] in Hf1.
    apply wp_bind. eapply wp_ROTATE_LEFT; [exact Hf1|]. intros s2 Hf2. rewrite Hfuel.
    eapply (wp_loop_stop _ (Node c l x r)); [exact (proj2 (foc_zip _ _ (Node c l x r) (InRight VRB_BLACK (Node VRB_RED _ gx _) px) p) Hf2)|done|done|].
    simpl in Hz. injection Hz as <-. apply Hstop. exact (proj1 (foc_zips _ _ _ _) Hf2).
Qed.

Lemma INSERT_COLOR_loop_ok fuel t p (Q : unit → pheap K → Prop) s t' :
  foc ks s t p → t ≠ Nil → length p + 2 ≤ fuel → insert_color_loop t p = Ret t' →
  (∀ s', foc ks s' t' [] → Q tt s') → wp (INSERT_COLOR_loop fuel (node_ptr t)) Q s.
Proof.
  revert t p s. induction fuel as [fuel IH] using lt_wf_ind. intros t p s Hf Ht Hlen Hz HQ.
  destruct fuel as [|[|fuel]]; [lia..|].
  assert (∀ f g q, p = f :: g :: q →
    match f with InLeft VRB_RED _ _ | InRight VRB_RED _ _ => True | _ => False end →
    wp (INSERT_COLOR_loop (S (S fuel)) (node_ptr t)) Q s) as Hturn.
  { intros f g q -> Hred.
    assert (∀ t1 s1, foc ks s1 t1 q → t1 ≠ Nil → insert_color_loop t1 q = Ret t' →
      wp (INSERT_COLOR_loop (S fuel) (node_ptr t1)) Q s1).
    { intros t1 s1 ???. eapply IH; eauto; simpl in *; lia. }
    destruct g as [gc gx u|gc u gx]; [by eapply wp_turn_left|by eapply wp_turn_right]. }
  destruct p as [|[[] y r|[] l y] [|g q]];
    first [discriminate Hz | eapply Hturn; [reflexivity|exact I] | idtac];
    simpl in Hz; injection Hz as <-; (eapply wp_loop_stop; [exact Hf|done|done|]);
    apply HQ; exact (proj1 (foc_zips _ _ _ _) Hf).
Qed.
Lemma INSERT_COLOR_ok t p (Q : unit → pheap K → Prop) s t' :
  foc ks s t p → t ≠ Nil → VRB_INSERT_COLOR t p = Ret t' →
  (∀ s', foc ks s' t' [] → Q tt s') → wp (INSERT_COLOR (node_ptr t)) Q s.
Proof.
  intros Hf Ht Hz HQ. unfold VRB_INSERT_COLOR in Hz.
  destruct (insert_color_loop t p) as [t1| | |] eqn:Hl; try discriminate. cbn in Hz.
  unfold INSERT_COLOR. apply wp_bind, wp_getS, wp_bind.
  pose proof (foc_size _ _ _ _ Hf).
  eapply INSERT_COLOR_loop_ok; [exact Hf|done|lia|done|]. intros s1 Hf1.
  apply wp_bind, wp_getsS. rewrite (foc_root _ _ _ _ Hf1). destruct t1 as [|c l x r]; [done|].
  injection Hz as <-. by eapply wp_foc_color.
Qed.

(** The side of its parent a path ends at, as the last comparison says it. *)
Definition side p : comparison :=
  match p with [] => Eq | InLeft _ _ _ :: _ => Lt | InRight _ _ _ :: _ => Gt end.
Lemma descend_ok fuel k t p (Q : option loc * option loc * comparison → pheap K → Prop) s :
  foc ks s t p → length (locs t) ≤ fuel →
  match insert_at cmp t k p with
  | inl o => Q (Some o, Some o, Eq) s
  | inr p' => foc ks s Nil p' → zip Nil p' = zip t p → Q (None, path_ptr p', side p') s
  end →
  wp (descend cmp fuel k (node_ptr t) (path_ptr p) (side p)) Q s.
Proof.
  revert fuel p. induction t as [|c l IHl x r IHr]; intros fuel p Hf Hlen HQ.
  { destruct fuel; apply wp_ret, HQ; done. }
  rewrite locs_node, length_app in Hlen. simpl in Hlen. destruct fuel as [|fuel]; [lia|].
  cbn [descend node_ptr]. apply wp_bind. eapply wp_KEY; [by eapply foc_node|]. cbn [elm_key].
  cbn [insert_at] in HQ. destruct (cmp k x.1) eqn:Hc; [by apply wp_ret| |]; apply wp_bind.
  - eapply wp_LEFT; [by eapply foc_node|]. cbn [rbe_left].
    apply (IHl fuel (InLeft c x r :: p)); [by apply foc_zip|lia|done].
  - eapply wp_RIGHT; [by eapply foc_node|]. cbn [rbe_right].
    apply (IHr fuel (InRight c l x :: p)); [by apply foc_zip|lia|done].
Qed.

(** Linking a struct that is in no tree at the end of a path. *)
Lemma wp_link o k p (Q : unit → pheap K → Prop) s :
  foc ks s Nil p → ks !! o = Some k → o ∉ plocs p →
  (∀ s', foc ks s' (Node VRB_RED Nil (k, o) Nil) p → Q tt s') →
  wp (VRB_SET (Some o) (path_ptr p);;;
      match path_ptr p with
      | Some _ => match side p with
                  | Lt => set_VRB_LEFT (path_ptr p) (Some o)
                  | _ => set_VRB_RIGHT (path_ptr p) (Some o)
                  end
      | None => set_VRB_ROOT (Some o)
      end) Q s.
Proof.
  intros [_ Hc Hn Hk] Ho Hop HQ. simpl in Hc, Hn. rewrite <-Hk in Ho.
  unfold keys in Ho. rewrite lookup_fmap in Ho. destruct (mem s !! o) as [n|] eqn:Hmo; [|done].
  simpl in Ho. injection Ho as Ho.
  assert (∀ Q' : unit → pheap K → Prop,
    (∀ s', rbh_root s' = rbh_root s → keys s' = ks → mem s' !! o = Some (Rbe None None (path_ptr p) VRB_RED k) →
       (∀ o', o' ≠ o → mem s' !! o' = mem s !! o') → Q' tt s') → wp (VRB_SET (Some o) (path_ptr p)) Q' s) as Hset.
  { intros Q' HQ'. unfold VRB_SET.
    apply wp_bind. eapply wp_put_node; [exact Hmo|]. cbn [rbe_left rbe_right rbe_parent rbe_color elm_key].
    do 2 (apply wp_bind; eapply wp_put_node; [by look|]; cbn [rbe_left rbe_right rbe_parent rbe_color elm_key]).
    eapply wp_put_node; [by look|]. cbn [rbe_left rbe_right rbe_parent rbe_color elm_key].
    apply HQ'; simpl; [done| | |].
    - same_keys.
    - rewrite lookup_insert_eq. by rewrite Ho.
    - intros o' Ho'. by rewrite !lookup_insert_ne. }
  apply wp_bind, Hset. intros s1 Hroot1 Hk1 Ho1 Hag1.
  destruct p as [|[c x r|c l x] p]; simpl in *.
  - apply wp_modifyS, HQ. split; simpl; [by rewrite Ho1|done|by apply NoDup_singleton|done].
  - destruct Hc as (Hx & Hr & Hp). pose proof Hn as Hnd. nodup Hn. nodup Hop.
    eapply wp_put_node; [by rewrite Hag1|]. cbn [rbe_left rbe_right rbe_parent rbe_color elm_key].
    apply HQ. split; simpl.
    + split; [by rewrite lookup_insert_ne|done].
    + split; [by look|]. rewrite Hroot1. 
      split; [eapply tree_frame; [exact Hr|]|eapply ctx_frame; [exact Hp|]]; intros o' Ho'; look; apply Hag1; apart.
    + rewrite NoDup_cons. split; [|done]. apart.
    + same_keys. by erewrite keys_insert; [|by rewrite Hag1|].
  - destruct Hc as (Hx & Hl & Hp). pose proof Hn as Hnd. nodup Hn. nodup Hop.
    eapply wp_put_node; [by rewrite Hag1|]. cbn [rbe_left rbe_right rbe_parent rbe_color elm_key].
    apply HQ. split; simpl.
    + split; [by rewrite lookup_insert_ne|done].
    + split; [by look|]. rewrite Hroot1. 
      split; [eapply tree_frame; [exact Hl|]|eapply ctx_frame; [exact Hp|]]; intros o' Ho'; look; apply Hag1; apart.
    + rewrite NoDup_cons. split; [|done]. apart.
    + same_keys. by erewrite keys_insert; [|by rewrite Hag1|].
Qed.

(** VRB_INSERT. *)
Lemma INSERT_ok o k t (Q : option loc → pheap K → Prop) s res t' :
  foc ks s t [] → ks !! o = Some k → (res = None → o ∉ locs t) → rb_insert cmp t k o = Ret (res, t') →
  (∀ s', foc ks s' t' [] → Q res s') → wp (INSERT cmp (Some o)) Q s.
Proof.
  intros Hf Ho Hot Hz HQ. unfold INSERT. apply wp_bind, wp_getS, wp_bind.
  assert (∃ n, mem s !! o = Some n ∧ elm_key n = k) as (n & Hn & Hnk).
  { destruct Hf as [_ _ _ <-]. unfold keys in Ho. rewrite lookup_fmap in Ho.
    destruct (mem s !! o) as [n|]; [|done]. injection Ho as Ho. eauto. }
  eapply wp_KEY; [exact Hn|]. rewrite Hnk. apply wp_bind, wp_getsS, wp_bind.
  rewrite (foc_root _ _ _ _ Hf). cbn [zip]. pose proof (foc_size _ _ _ _ Hf).
  eapply (descend_ok _ k t []); [exact Hf|simpl in *; lia|]. unfold rb_insert in Hz.
  destruct (insert_at cmp t k []) as [o'|p'].
  { injection Hz as <- <-. by apply wp_ret, HQ. }
  intros Hf' Hzip. cbn beta iota. destruct (VRB_INSERT_COLOR _ p') as [t1| | |] eqn:Hi; try discriminate.
  injection Hz as <- <-.
  assert (o ∉ plocs p').
  { intros Hin. apply Hot; [done|]. rewrite <-(zip_locs Nil p'), Hzip in Hin. done. }
  apply wp_bind. eapply wp_mono;
    [eapply (proj1 (wp_bind _ _ _ _)), (wp_link o k); [exact Hf'|exact Ho|done|]|
     intros [] s1 HW; apply wp_bind; exact HW].
  intros s2 Hf2. apply wp_bind. eapply (INSERT_COLOR_ok (Node VRB_RED Nil (k, o) Nil)); [exact Hf2|done|done|].
  intros s3 Hf3. by apply wp_ret, HQ.
Qed.
End insertion.

Section removal.
Context {K : Type} (cmp : K → K → comparison) (ks : gmap loc K).
Implicit Types (s : pheap K) (t l r : rbtree K) (p : list (frame K)).

(** What the loop leaves: painting its answer black finishes the tree [T]. *)
Definition removed (T : rbtree K) (e : option loc) s : Prop :=
  ∃ t p, foc ks s t p ∧ e = node_ptr t ∧ zip (set_color VRB_BLACK t) p = T.

Lemma wp_black_children c l x r p (Q : bool → pheap K → Prop) s :
  foc ks s (Node c l x r) p → Q (negb (is_red l) && negb (is_red r)) s →
  wp (black_children (Some x.2)) Q s.
Proof.
  intros Hf HQ. unfold black_children. apply wp_bind. eapply wp_LEFT; [by eapply foc_node|]. cbn [rbe_left].
  apply wp_bind. eapply (wp_foc_black ks l); [exact (proj2 (foc_zip _ _ l (InLeft c x r) p) Hf)|].
  destruct (negb (is_red l)); [|by apply wp_ret].
  apply wp_bind. eapply wp_RIGHT; [by eapply foc_node|]. cbn [rbe_right].
  by eapply (wp_foc_black ks r); [exact (proj2 (foc_zip _ _ r (InRight c l x) p) Hf)|].
Qed.

(** The first half of the loop's body when elm is a left child: a red
    sibling is rotated up. *)
Lemma wp_sibling_left fuel t c x sc sl sx sr p (Q : option loc → pheap K → Prop) s T :
  foc ks s t (InLeft c x (Node sc sl sx sr) :: p) →
  match sc with
  | VRB_RED => remove_left fuel t VRB_RED x sl (InLeft VRB_BLACK sx sr :: p)
  | VRB_BLACK => remove_left fuel t c x (Node sc sl sx sr) p
  end = Ret T →
  (∀ c' tmp p' s', foc ks s' t (InLeft c' x tmp :: p') →
     remove_left fuel t c' x tmp (p') = Ret T → Q (node_ptr tmp) s') →
  wp (if decide (sc = VRB_RED) then
        VRB_SET_BLACKRED (Some sx.2) (Some x.2);;; ROTATE_LEFT (Some x.2);;; VRB_RIGHT (Some x.2)
      else mret (Some sx.2)) Q s.
Proof.
  intros Hf HT HQ. destruct sc; [by apply wp_ret, (HQ c (Node VRB_BLACK sl sx sr) p)|].
  rewrite decide_True by done. apply foc_zip in Hf.
  apply wp_bind. eapply (wp_SET_BLACKRED_right _ _ _ sx _ c x t);
    [exact (proj2 (foc_zip _ _ (Node VRB_RED sl sx sr) (InRight c t x) p) Hf)|].
  intros s1 Hf1. apply foc_zip in Hf1. apply wp_bind. eapply wp_ROTATE_LEFT; [exact Hf1|].
  intros s2 Hf2.
  apply (foc_zip _ _ (Node VRB_RED t x sl) (InLeft VRB_BLACK sx sr)) in Hf2.
  eapply wp_RIGHT; [by eapply foc_node|].
  eapply HQ; [exact (proj2 (foc_zip _ _ t (InLeft VRB_RED x sl) _) Hf2)|exact HT].
Qed.
(** The repair of the sibling when its outer child is black. *)
Lemma wp_outer_left tc tl tx tr t c x p (Q : option loc → pheap K → Prop) s tmp :
  foc ks s t (InLeft c x (Node tc tl tx tr) :: p) →
  negb (is_red tl) && negb (is_red tr) = false →
  (if is_red tr then Ret (Node tc tl tx tr) else
     VRB_ROTATE_RIGHT (Node VRB_RED (set_color VRB_BLACK tl) tx tr)) = Ret tmp →
  (∀ s', foc ks s' t (InLeft c x tmp :: p) → Q (node_ptr tmp) s') →
  wp (if negb (is_red tr) then
        o ← VRB_LEFT (Some tx.2); paint o VRB_BLACK;;; set_VRB_COLOR (Some tx.2) VRB_RED;;;
        ROTATE_RIGHT (Some tx.2);;; VRB_RIGHT (Some x.2)
      else mret (Some tx.2)) Q s.
Proof.
  intros Hf Hred Htmp HQ.
  destruct (is_red tr) eqn:Ho; [injection Htmp as <-; by apply wp_ret, HQ|]. cbn [negb] in *.
  destruct tl as [|[] ll lx lr] eqn:HI; simpl in Hred; try discriminate.
  apply foc_zip in Hf. cbn [plug] in Hf.
  pose proof (proj2 (foc_zip _ _ (Node tc (Node VRB_RED ll lx lr) tx tr) (InRight c t x) p) Hf) as Hs.
  apply wp_bind. eapply wp_LEFT; [by eapply foc_node|]. cbn [rbe_left node_ptr].
  apply wp_bind. eapply (wp_foc_color _ VRB_BLACK _ ll lx lr);
    [exact (proj2 (foc_zip _ _ (Node VRB_RED ll lx lr) (InLeft tc tx tr) _) Hs)|].
  intros s1 Hf1. apply foc_zip in Hf1. cbn [plug] in Hf1.
  apply wp_bind. eapply wp_foc_color; [exact Hf1|]. intros s2 Hf2.
  apply wp_bind. eapply wp_ROTATE_RIGHT; [exact Hf2|]. intros s3 Hf3.
  injection Htmp as <-. apply foc_zip in Hf3. cbn [plug] in Hf3.
  eapply wp_RIGHT; [by eapply foc_node|]. apply HQ.
  exact (proj2 (foc_zip _ _ t (InLeft c x (Node VRB_BLACK ll lx (Node VRB_RED lr tx tr))) p) Hf3).
Qed.
(** The second half of the body. *)
Lemma wp_rest_left F fuel t c x tmp p (Q : option loc → pheap K → Prop) s T :
  foc ks s t (InLeft c x tmp :: p) → remove_left fuel t c x tmp p = Ret T →
  (∀ fuel' t1 s1, fuel = S fuel' → foc ks s1 t1 p → node_ptr t1 = Some x.2 →
     remove_color_loop fuel' t1 p = Ret T →
     wp (REMOVE_COLOR_loop F (path_ptr p) (Some x.2)) Q s1) →
  (∀ e s1, removed T e s1 → Q e s1) →
  wp (both ← black_children (node_ptr tmp);
      if both : bool then
        set_VRB_COLOR (node_ptr tmp) VRB_RED;;;
        parent' ← VRB_PARENT (Some x.2);
        REMOVE_COLOR_loop F parent' (Some x.2)
      else
        r ← VRB_RIGHT (node_ptr tmp);
        b ← black_ptr r;
        tmp ← (if b : bool then
                 o ← VRB_LEFT (node_ptr tmp); paint o VRB_BLACK;;;
                 set_VRB_COLOR (node_ptr tmp) VRB_RED;;;
                 ROTATE_RIGHT (node_ptr tmp);;; VRB_RIGHT (Some x.2)
               else mret (node_ptr tmp));
        c ← VRB_COLOR (Some x.2);
        set_VRB_COLOR tmp c;;;
        set_VRB_COLOR (Some x.2) VRB_BLACK;;;
        r ← VRB_RIGHT tmp;
        paint r VRB_BLACK;;;
        ROTATE_LEFT (Some x.2);;;
        VRB_ROOT) Q s.
Proof.
  intros Hf HT Hrec HQ. destruct fuel as [|fuel]; [done|]. destruct tmp as [|tc tl tx tr]; [done|].
  cbn [remove_left] in HT. cbn [node_ptr]. apply foc_zip in Hf. cbn [plug] in Hf.
  pose proof (proj2 (foc_zip _ _ (Node tc tl tx tr) (InRight c t x) p) Hf) as Hs.
  apply wp_bind. eapply wp_black_children; [exact Hs|].
  destruct (negb (is_red tl) && negb (is_red tr)) eqn:Hb.
  { apply wp_bind. eapply wp_foc_color; [exact Hs|]. intros s1 Hf1.
    apply foc_zip in Hf1. cbn [plug] in Hf1. apply wp_bind.
    eapply wp_PARENT; [by eapply foc_node|]. by eapply Hrec. }
  apply wp_bind. eapply wp_RIGHT; [by eapply foc_node|]. cbn [rbe_right].
  apply wp_bind. eapply (wp_foc_black ks tr);
    [exact (proj2 (foc_zip _ _ tr (InRight tc tl tx) _) Hs)|].
  destruct (if is_red tr then _ else _) as [tmp| | |] eqn:Htmp; try discriminate. cbn in HT.
  destruct tmp as [|tc2 tl2 tx2 tr2]; [done|]. cbn in HT. injection HT as <-.
  apply wp_bind. eapply wp_outer_left;
    [exact (proj2 (foc_zip _ _ t (InLeft c x (Node tc tl tx tr)) p) Hf)|exact Hb|exact Htmp|].
  intros s1 Hf1. apply foc_zip in Hf1. cbn [plug node_ptr] in *. clear dependent s.
  apply wp_bind. eapply wp_COLOR; [by eapply foc_node|]. cbn [rbe_color].
  apply wp_bind. eapply (wp_foc_color _ c _ tl2 tx2 tr2);
    [exact (proj2 (foc_zip _ _ (Node tc2 tl2 tx2 tr2) (InRight c t x) p) Hf1)|].
  intros s2 Hf2. apply foc_zip in Hf2. cbn [plug] in Hf2.
  apply wp_bind. eapply (wp_foc_color _ VRB_BLACK); [exact Hf2|]. intros s3 Hf3.
  pose proof (proj2 (foc_zip _ _ (Node c tl2 tx2 tr2) (InRight VRB_BLACK t x) p) Hf3) as Hs3.
  apply wp_bind. eapply wp_RIGHT; [by eapply foc_node|]. cbn [rbe_right].
  apply wp_bind. eapply (wp_foc_paint _ VRB_BLACK tr2);
    [exact (proj2 (foc_zip _ _ tr2 (InRight c tl2 tx2) _) Hs3)|].
  intros s4 Hf4. apply foc_zip in Hf4. cbn [plug] in Hf4. apply foc_zip in Hf4. cbn [plug] in Hf4.
  apply wp_bind. eapply wp_ROTATE_LEFT; [exact Hf4|]. intros s5 Hf5.
  apply wp_getsS, HQ. eexists _, []. split; [exact (proj1 (foc_zips _ _ _ _) Hf5)|].
  split; [exact (foc_root _ _ _ _ Hf5)|done].
Qed.

(** The first half of the loop's body when elm is a right child: a red
    sibling is rotated up. *)
Lemma wp_sibling_right fuel t c x sc sl sx sr p (Q : option loc → pheap K → Prop) s T :
  foc ks s t (InRight c (Node sc sl sx sr) x :: p) →
  match sc with
  | VRB_RED => remove_right fuel t VRB_RED sr x (InRight VRB_BLACK sl sx :: p)
  | VRB_BLACK => remove_right fuel t c (Node sc sl sx sr) x p
  end = Ret T →
  (∀ c' tmp p' s', foc ks s' t (InRight c' tmp x :: p') →
     remove_right fuel t c' tmp x (p') = Ret T → Q (node_ptr tmp) s') →
  wp (if decide (sc = VRB_RED) then
        VRB_SET_BLACKRED (Some sx.2) (Some x.2);;; ROTATE_RIGHT (Some x.2);;; VRB_LEFT (Some x.2)
      else mret (Some sx.2)) Q s.
Proof.
  intros Hf HT HQ. destruct sc; [by apply wp_ret, (HQ c (Node VRB_BLACK sl sx sr) p)|].
  rewrite decide_True by done. apply foc_zip in Hf.
  apply wp_bind. eapply (wp_SET_BLACKRED_left _ _ _ sx _ c x t);
    [exact (proj2 (foc_zip _ _ (Node VRB_RED sl sx sr) (InLeft c x t) p) Hf)|].
  intros s1 Hf1. apply foc_zip in Hf1. apply wp_bind. eapply wp_ROTATE_RIGHT; [exact Hf1|].
  intros s2 Hf2.
  apply (foc_zip _ _ (Node VRB_RED sr x t) (InRight VRB_BLACK sl sx)) in Hf2.
  eapply wp_LEFT; [by eapply foc_node|].
  eapply HQ; [exact (proj2 (foc_zip _ _ t (InRight VRB_RED sr x) _) Hf2)|exact HT].
Qed.
(** The repair of the sibling when its outer child is black. *)
Lemma wp_outer_right tc tl tx tr t c x p (Q : option loc → pheap K → Prop) s tmp :
  foc ks s t (InRight c (Node tc tl tx tr) x :: p) →
  negb (is_red tl) && negb (is_red tr) = false →
  (if is_red tl then Ret (Node tc tl tx tr) else
     VRB_ROTATE_LEFT (Node VRB_RED tl tx (set_color VRB_BLACK tr))) = Ret tmp →
  (∀ s', foc ks s' t (InRight c tmp x :: p) → Q (node_ptr tmp) s') →
  wp (if negb (is_red tl) then
        o ← VRB_RIGHT (Some tx.2); paint o VRB_BLACK;;; set_VRB_COLOR (Some tx.2) VRB_RED;;;
        ROTATE_LEFT (Some tx.2);;; VRB_LEFT (Some x.2)
      else mret (Some tx.2)) Q s.
Proof.
  intros Hf Hred Htmp HQ.
  destruct (is_red tl) eqn:Ho; [injection Htmp as <-; by apply wp_ret, HQ|]. cbn [negb] in *.
  destruct tr as [|[] ll lx lr] eqn:HI; simpl in Hred; try discriminate.
  apply foc_zip in Hf. cbn [plug] in Hf.
  pose proof (proj2 (foc_zip _ _ (Node tc tl tx (Node VRB_RED ll lx lr)) (InLeft c x t) p) Hf) as Hs.
  apply wp_bind. eapply wp_RIGHT; [by eapply foc_node|]. cbn [rbe_right node_ptr].
  apply wp_bind. eapply (wp_foc_color _ VRB_BLACK _ ll lx lr);
    [exact (proj2 (foc_zip _ _ (Node VRB_RED ll lx lr) (InRight tc tl tx) _) Hs)|].
  intros s1 Hf1. apply foc_zip in Hf1. cbn [plug] in Hf1.
  apply wp_bind. eapply wp_foc_color; [exact Hf1|]. intros s2 Hf2.
  apply wp_bind. eapply wp_ROTATE_LEFT; [exact Hf2|]. intros s3 Hf3.
  injection Htmp as <-. apply foc_zip in Hf3. cbn [plug] in Hf3.
  eapply wp_LEFT; [by eapply foc_node|]. apply HQ.
  exact (proj2 (foc_zip _ _ t (InRight c (Node VRB_BLACK (Node VRB_RED tl tx ll) lx lr) x) p) Hf3).
Qed.
(** The second half of the body. *)
Lemma wp_rest_right F fuel t c x tmp p (Q : option loc → pheap K → Prop) s T :
  foc ks s t (InRight c tmp x :: p) → remove_right fuel t c tmp x p = Ret T →
  (∀ fuel' t1 s1, fuel = S fuel' → foc ks s1 t1 p → node_ptr t1 = Some x.2 →
     remove_color_loop fuel' t1 p = Ret T →
     wp (REMOVE_COLOR_loop F (path_ptr p) (Some x.2)) Q s1) →
  (∀ e s1, removed T e s1 → Q e s1) →
  wp (both ← black_children (node_ptr tmp);
      if both : bool then
        set_VRB_COLOR (node_ptr tmp) VRB_RED;;;
        parent' ← VRB_PARENT (Some x.2);
        REMOVE_COLOR_loop F parent' (Some x.2)
      else
        r ← VRB_LEFT (node_ptr tmp);
        b ← black_ptr r;
        tmp ← (if b : bool then
                 o ← VRB_RIGHT (node_ptr tmp); paint o VRB_BLACK;;;
                 set_VRB_COLOR (node_ptr tmp) VRB_RED;;;
                 ROTATE_LEFT (node_ptr tmp);;; VRB_LEFT (Some x.2)
               else mret (node_ptr tmp));
        c ← VRB_COLOR (Some x.2);
        set_VRB_COLOR tmp c;;;
        set_VRB_COLOR (Some x.2) VRB_BLACK;;;
        r ← VRB_LEFT tmp;
        paint r VRB_BLACK;;;
        ROTATE_RIGHT (Some x.2);;;
        VRB_ROOT) Q s.
Proof.
  intros Hf HT Hrec HQ. destruct fuel as [|fuel]; [done|]. destruct tmp as [|tc tl tx tr]; [done|].
  cbn [remove_right] in HT. cbn [node_ptr]. apply foc_zip in Hf. cbn [plug] in Hf.
  pose proof (proj2 (foc_zip _ _ (Node tc tl tx tr) (InLeft c x t) p) Hf) as Hs.
  apply wp_bind. eapply wp_black_children; [exact Hs|].
  destruct (negb (is_red tl) && negb (is_red tr)) eqn:Hb.
  { apply wp_bind. eapply wp_foc_color; [exact Hs|]. intros s1 Hf1.
    apply foc_zip in Hf1. cbn [plug] in Hf1. apply wp_bind.
    eapply wp_PARENT; [by eapply foc_node|]. by eapply Hrec. }
  apply wp_bind. eapply wp_LEFT; [by eapply foc_node|]. cbn [rbe_left].
  apply wp_bind. eapply (wp_foc_black ks tl);
    [exact (proj2 (foc_zip _ _ tl (InLeft tc tx tr) _) Hs)|].
  destruct (if is_red tl then _ else _) as [tmp| | |] eqn:Htmp; try discriminate. cbn in HT.
  destruct tmp as [|tc2 tl2 tx2 tr2]; [done|]. cbn in HT. injection HT as <-.
  apply wp_bind. eapply wp_outer_right;
    [exact (proj2 (foc_zip _ _ t (InRight c (Node tc tl tx tr) x) p) Hf)|exact Hb|exact Htmp|].
  intros s1 Hf1. apply foc_zip in Hf1. cbn [plug node_ptr] in *. clear dependent s.
  apply wp_bind. eapply wp_COLOR; [by eapply foc_node|]. cbn [rbe_color].
  apply wp_bind. eapply (wp_foc_color _ c _ tl2 tx2 tr2);
    [exact (proj2 (foc_zip _ _ (Node tc2 tl2 tx2 tr2) (InLeft c x t) p) Hf1)|].
  intros s2 Hf2. apply foc_zip in Hf2. cbn [plug] in Hf2.
  apply wp_bind. eapply (wp_foc_color _ VRB_BLACK); [exact Hf2|]. intros s3 Hf3.
  pose proof (proj2 (foc_zip _ _ (Node c tl2 tx2 tr2) (InLeft VRB_BLACK x t) p) Hf3) as Hs3.
  apply wp_bind. eapply wp_LEFT; [by eapply foc_node|]. cbn [rbe_left].
  apply wp_bind. eapply (wp_foc_paint _ VRB_BLACK tl2);
    [exact (proj2 (foc_zip _ _ tl2 (InLeft c tx2 tr2) _) Hs3)|].
  intros s4 Hf4. apply foc_zip in Hf4. cbn [plug] in Hf4. apply foc_zip in Hf4. cbn [plug] in Hf4.
  apply wp_bind. eapply wp_ROTATE_RIGHT; [exact Hf4|]. intros s5 Hf5.
  apply wp_getsS, HQ. eexists _, []. split; [exact (proj1 (foc_zips _ _ _ _) Hf5)|].
  split; [exact (foc_root _ _ _ _ Hf5)|done].
Qed.

Lemma foc_not_root s t f p : foc ks s t (f :: p) → node_ptr t ≠ rbh_root s.
Proof.
  intros [_ Hc Hn _]. revert Hc Hn. generalize (node_ptr t) at 1 as child. intros child Hc Hn He.
  assert (∀ q child', ctx (mem s) (rbh_root s) child' q → q ≠ [] →
    ∃ o, rbh_root s = Some o ∧ o ∈ plocs q) as Hroot.
  { intros q. induction q as [|g [|h q] IH]; intros child' Hq Hne; [done| |].
    - destruct g; simpl in *; destruct_and!; eexists; (split; [done|left]).
    - assert (∃ y, ctx (mem s) (rbh_root s) y (h :: q)) as [y Hy]
        by (destruct g; simpl in *; destruct_and!; eexists; eauto).
      destruct (IH _ Hy) as (o & ? & ?); [done|]. exists o. split; [done|].
      destruct g; cbn [plocs]; set_solver. }
  destruct (Hroot _ _ Hc) as (o & Ho & Hin); [done|]. rewrite Ho in He. apply node_ptr_elem in He.
  apply NoDup_app in Hn as (_ & Hd & _). by eapply Hd.
Qed.

Lemma REMOVE_COLOR_loop_ok fuel F t p (Q : option loc → pheap K → Prop) s T :
  foc ks s t p → fuel ≤ F → remove_color_loop fuel t p = Ret T →
  (∀ e s1, removed T e s1 → Q e s1) →
  wp (REMOVE_COLOR_loop F (path_ptr p) (node_ptr t)) Q s.
Proof.
  revert F t p s. induction fuel as [fuel IH] using lt_wf_ind. intros F t p s Hf HF HT HQ.
  destruct fuel as [|fuel]; [done|]. destruct F as [|F]; [lia|]. cbn [REMOVE_COLOR_loop].
  apply wp_bind. eapply wp_foc_black; [exact Hf|]. apply wp_bind, wp_getsS.
  destruct p as [|f p].
  { injection HT as <-. rewrite (foc_root _ _ _ _ Hf), bool_decide_false, andb_false_r by naive_solver.
    apply wp_ret, HQ. by exists t, []. }
  cbn [remove_color_loop] in HT. destruct (is_red t) eqn:Hred.
  { injection HT as <-. apply wp_ret, HQ. by exists t, (f :: p). }
  rewrite bool_decide_true by by eapply foc_not_root. cbn [negb andb].
  pose proof (proj1 (foc_zip _ _ _ _ _) Hf) as Hp.
  assert (∀ fuel' t1 s1 o q, fuel = S fuel' → foc ks s1 t1 q → node_ptr t1 = Some o →
    remove_color_loop fuel' t1 q = Ret T → wp (REMOVE_COLOR_loop F (path_ptr q) (Some o)) Q s1) as Hrec.
  { intros fuel' t1 s1 o q -> Hf1 <- HT1. apply (IH fuel'); [lia|exact Hf1|lia|exact HT1|exact HQ]. }
  destruct f as [c x sib|c sib x]; cbn [path_ptr plug] in *; apply wp_bind, wp_assertM;
    (split; [by apply bool_decide_true|]); apply wp_bind;
    (eapply wp_LEFT; [by eapply foc_node|]); cbn [rbe_left]; destruct sib as [|sc sl sx sr]; try discriminate.
  - rewrite decide_True by done. apply wp_bind. eapply wp_RIGHT; [by eapply foc_node|]. cbn [rbe_right node_ptr].
    apply wp_bind. eapply wp_COLOR;
      [by eapply foc_node; exact (proj2 (foc_zip _ _ (Node sc sl sx sr) (InRight c t x) p) Hp)|].
    cbn [rbe_color]. apply wp_bind.
    eapply (wp_sibling_left fuel t c x sc sl sx sr); [exact Hf|by destruct sc|].
    intros c' tmp p' s' Hf' HT'. eapply wp_rest_left; [exact Hf'|exact HT'| |exact HQ]. eauto.
  - rewrite decide_False.
    2: { intros He. destruct t as [|tc tl tx tr]; [done|]. exact (foc_other _ _ _ _ _ _ _ _ Hf He). }
    apply wp_bind. eapply wp_LEFT; [by eapply foc_node|]. cbn [rbe_left node_ptr].
    apply wp_bind. eapply wp_COLOR;
      [by eapply foc_node; exact (proj2 (foc_zip _ _ (Node sc sl sx sr) (InLeft c x t) p) Hp)|].
    cbn [rbe_color]. apply wp_bind.
    eapply (wp_sibling_right fuel t c x sc sl sx sr); [exact Hf|by destruct sc|].
    intros c' tmp p' s' Hf' HT'. eapply wp_rest_right; [exact Hf'|exact HT'| |exact HQ]. eauto.
Qed.
Lemma color_label_ok color t p (Q : unit → pheap K → Prop) s T :
  foc ks s t p → finish_remove color t p = Ret T →
  (∀ s1, foc ks s1 T [] → Q tt s1) → wp (color_label color (path_ptr p) (node_ptr t)) Q s.
Proof.
  intros Hf HT HQ. unfold color_label. destruct color; cbn [finish_remove] in HT.
  - rewrite decide_True by done. unfold REMOVE_COLOR. apply wp_bind, wp_getS, wp_bind.
    pose proof (foc_size _ _ _ _ Hf).
    eapply REMOVE_COLOR_loop_ok; [exact Hf| |exact HT|]; [lia|].
    intros e s1 (t1 & p1 & Hf1 & -> & <-). eapply wp_foc_paint; [exact Hf1|].
    intros s2 Hf2. apply HQ. exact (proj1 (foc_zips _ _ _ _) Hf2).
  - injection HT as <-. apply wp_ret, HQ. exact (proj1 (foc_zips _ _ _ _) Hf).
Qed.
End removal.

Section remove.
Context {K : Type} (cmp : K → K → comparison) `{!TotalCmp cmp} (ks : gmap loc K).
Implicit Types (s : pheap K) (t l r : rbtree K) (p : list (frame K)) (x : K * loc).

Lemma go_left_ok fuel c l x r p c' x' r' p' (Q : option loc → pheap K → Prop) s :
  foc ks s (Node c l x r) p → leftmost c l x r p = (c', x', r', p') → length (locs l) < fuel →
  (foc ks s (Node c' Nil x' r') p' → Q (Some x'.2) s) → wp (go_left fuel (Some x.2)) Q s.
Proof using Type.
  clear cmp TotalCmp0.
  revert fuel c x r p. induction l as [|c1 l1 IH x1 r1 _]; intros fuel c x r p Hf Hm Hlen HQ;
    (destruct fuel as [|fuel]; [lia|]); cbn [go_left]; apply wp_bind;
    (eapply wp_LEFT; [by eapply foc_node|]); cbn [rbe_left node_ptr].
  - injection Hm as <- <- <- <-. by apply wp_ret, HQ.
  - rewrite locs_node, length_app in Hlen. simpl in Hlen.
    eapply IH; [exact (proj2 (foc_zip _ _ _ (InLeft c x r) p) Hf)|exact Hm|lia|done].
Qed.
Lemma augment_loop_ok fuel t p (Q : unit → pheap K → Prop) s :
  foc ks s t p → t ≠ Nil → length p < fuel → Q tt s → wp (augment_loop fuel (node_ptr t)) Q s.
Proof using Type.
  clear cmp TotalCmp0.
  revert fuel t. induction p as [|f p IH]; intros fuel t Hf Ht Hlen HQ;
    (destruct fuel as [|fuel]; [lia|]); (destruct t as [|c l x r]; [done|]); cbn [augment_loop node_ptr];
    apply wp_bind; (eapply wp_PARENT; [by eapply foc_node|]); cbn [rbe_parent]; [by apply wp_ret|].
  apply foc_zip, (IH fuel) in Hf; [|by destruct f|simpl in *; lia|done]. by destruct f.
Qed.

(** Taking a node with one child out; its own fields are left as they were. *)
Lemma wp_unlink c l x r child p (Q : option loc * color → pheap K → Prop) s :
  foc ks s (Node c l x r) p → (l = Nil ∧ r = child ∨ r = Nil ∧ l = child) →
  (∀ s', foc ks s' child p → mem s' !! x.2 = mem s !! x.2 → Q (path_ptr p, c) s') →
  wp (unlink (Some x.2) (node_ptr child)) Q s.
Proof using Type.
  clear cmp TotalCmp0. intros [Ht Hc Hn Hk] Hlr HQ. destruct Ht as (Hx & Hl & Hr).
  assert (tree (mem s) (Some x.2) child ∧ NoDup (x.2 :: locs child ++ plocs p)) as [Hch Hnd].
  { rewrite locs_node in Hn. destruct Hlr as [[-> ->]|[-> ->]]; (split; [done|]).
    - done.
    - eapply NoDup_Permutation_proper; [|exact Hn]. solve_Permutation. }
  clear Hl Hr Hn Hlr. simpl in Hc. pose proof Hnd as Hnd'. nodup Hnd.
  unfold unlink. apply wp_bind. eapply wp_PARENT; [exact Hx|]. cbn [rbe_parent].
  apply wp_bind. eapply wp_COLOR; [exact Hx|]. cbn [rbe_color].
  apply wp_bind. eapply wp_set_parent; [exact Hch|done|]. intros s1 Hch1 Hroot1 Hk1 Hag1.
  apply wp_bind. eapply (wp_replace_child ks); [rewrite Hroot1; frame Hc|by rewrite Hk1|done|done|].
  intros s2 Hc2 Hk2 Hag2. apply wp_ret, HQ; [|by look].
  split; [frame Hch1|done| |done]. by apply NoDup_cons in Hnd' as [_ ?].
Qed.

(** A struct outside the tree takes the place of [x]. *)
Lemma wp_take_place c l x r p x' n (Q : unit → pheap K → Prop) s :
  foc ks s (Node c l x r) p → l ≠ Nil →
  mem s !! x'.2 = Some n → elm_key n = x'.1 → x'.2 ∉ locs (Node c l x r) ++ plocs p →
  (∀ s', foc ks s' (Node c l x' r) p → Q tt s') → wp (take_place (Some x.2) (Some x'.2)) Q s.
Proof using Type.
  clear cmp TotalCmp0. intros [Ht Hc Hn Hk] Hlne Hx' Hkey Hout HQ. destruct Ht as (Hx & Hl & Hr). simpl in Hc.
  assert (NoDup (locs (Node c l x' r) ++ plocs p)) as Hn'.
  { rewrite locs_node in *. apply (NoDup_Permutation_proper _ (x'.2 :: locs l ++ locs r ++ plocs p)); [solve_Permutation|].
    apply (NoDup_Permutation_proper _ (x.2 :: locs l ++ locs r ++ plocs p)) in Hn; [|solve_Permutation].
    apply NoDup_cons in Hn as [_ Hn]. apply NoDup_cons. split; [set_solver|done]. }
  nodup Hn. nodup Hout. unfold take_place.
  apply wp_bind. eapply wp_get_node; [exact Hx|]. cbn [rbe_left rbe_right rbe_parent rbe_color elm_key].
  apply wp_bind. eapply wp_put_node; [exact Hx'|]. rewrite Hkey.
  apply wp_bind. eapply wp_PARENT; [by look|]. cbn [rbe_parent].
  apply wp_bind. eapply (wp_replace_child ks); [simpl; frame Hc|unfold keys; simpl; by erewrite keys_insert; [|exact Hx'|]|done|done|].
  intros s1 Hc1 Hk1 Hag1.
  apply wp_bind. eapply wp_LEFT; [by look|]. cbn [rbe_left].
  apply wp_bind. assert (tree (mem s1) (Some x.2) l) as Hl1 by frame Hl.
  assert (∀ Q' : unit → pheap K → Prop,
    (∀ s', tree (mem s') (Some x'.2) l → rbh_root s' = rbh_root s1 → keys s' = keys s1 →
      (∀ o, o ∉ locs l → mem s' !! o = mem s1 !! o) → Q' tt s') →
    wp (set_VRB_PARENT (node_ptr l) (Some x'.2)) Q' s1) as Hset.
  { intros Q' HQ'. destruct l as [|lc ll lx lr]; [done|].
    eapply (wp_set_parent (Some x.2) (Node lc ll lx lr)); [exact Hl1|done|exact HQ']. }
  apply Hset. intros s2 Hl2 Hroot2 Hk2 Hag2.
  apply wp_bind. eapply wp_RIGHT; [by look|]. cbn [rbe_right].
  eapply wp_set_parent; [frame Hr|done|]. intros s3 Hr3 Hroot3 Hk3 Hag3.
  apply HQ. split; simpl.
  - split; [by look|]. split; [frame Hl2|exact Hr3].
  - rewrite Hroot3, Hroot2. frame Hc1.
  - done.
  - by rewrite Hk3, Hk2.
Qed.

(** The successor takes the place of a node with two children. *)
Lemma wp_replace c l k o rc rl rx rr p (Q : option loc → pheap K → Prop) s color x' child sp T :
  foc ks s (Node c l (k, o) (Node rc rl rx rr)) p → l ≠ Nil →
  leftmost rc rl rx rr [] = (color, x', child, sp) →
  finish_remove color child (sp ++ InRight c l x' :: p) = Ret T →
  (∀ s', foc ks s' T [] → Q (Some o) s') →
  wp (elm ← go_left (size (mem s)) (Some rx.2);
      child ← VRB_RIGHT elm;
      '(parent, color) ← unlink elm child;
      p ← VRB_PARENT elm;
      let parent := if decide (p = Some o) then elm else parent in
      take_place (Some o) elm;;;
      (match parent with Some _ => augment_loop (size (mem s)) parent | None => mret tt end);;;
      color_label color parent child;;;
      mret (Some o)) Q s.
Proof using Type.
  clear cmp TotalCmp0. intros Hf Hl Hm HT HQ. pose proof (foc_size _ _ _ _ Hf) as Hsz.
  pose proof (leftmost_app rc rl rx rr [] (InRight c l (k, o) :: p)) as Hm'. rewrite Hm in Hm'.
  rewrite !locs_node, !length_app in Hsz. simpl in Hsz. rewrite length_app in Hsz. simpl in Hsz.
  apply wp_bind. eapply go_left_ok;
    [exact (proj2 (foc_zip _ _ (Node rc rl rx rr) (InRight c l (k, o)) p) Hf)|exact Hm'|lia|].
  intros Hf1. pose proof (foc_node _ _ _ _ _ _ _ Hf1) as Hx'.
  apply wp_bind. eapply wp_RIGHT; [exact Hx'|]. cbn [rbe_right].
  apply wp_bind. eapply wp_unlink; [exact Hf1|by left|]. intros s2 Hf2 Hag. cbn beta iota.
  rewrite Hx' in Hag. apply wp_bind. eapply wp_PARENT; [exact Hag|]. cbn [rbe_parent].
  assert (x'.2 ∉ locs child ++ plocs (sp ++ InRight c l (k, o) :: p)) as Hout.
  { destruct Hf1 as [_ _ Hn _]. rewrite locs_node in Hn. by apply NoDup_cons in Hn as [? _]. }
  assert (zip child (sp ++ InRight c l (k, o) :: p) = zip (Node c l (k, o) (zip child sp)) p) as Hz
    by by rewrite zip_app.
  apply wp_bind. eapply (wp_take_place c l (k, o) (zip child sp) p x'); [by eapply foc_move|done|exact Hag|done| |].
  { intros Hin. apply Hout. apply (zip_locs (Node c l (k, o) (zip child sp)) p) in Hin.
    rewrite <-Hz in Hin. by apply zip_locs in Hin. }
  intros s3 Hf3. assert (foc ks s3 child (sp ++ InRight c l x' :: p)) as Hf4.
  { eapply foc_move; [exact Hf3|]. by rewrite zip_app. }
  assert ((if decide (path_ptr (sp ++ InRight c l (k, o) :: p) = Some o) then Some x'.2
           else path_ptr (sp ++ InRight c l (k, o) :: p)) = path_ptr (sp ++ InRight c l x' :: p)) as ->.
  { destruct sp as [|f sp]; simpl; [by rewrite decide_True|]. rewrite decide_False; [by destruct f|].
    intros He. destruct Hf2 as [_ _ Hn _]. apply NoDup_app in Hn as (_ & _ & Hn).
    assert (o ∈ plocs (sp ++ InRight c l (k, o) :: p)) as Ho.
    { clear. induction sp as [|[] sp IH]; simpl; [left|set_solver..]. }
    destruct f; simpl in *; injection He as <-; apply NoDup_cons in Hn as [Hn _]; set_solver. }
  apply wp_bind. assert (∃ f q, sp ++ InRight c l x' :: p = f :: q) as (f & q & Hq)
    by (destruct sp; simpl; eauto).
  rewrite Hq in *. assert (path_ptr (f :: q) = node_ptr (plug child f)) as -> by by destruct f.
  pose proof (proj1 (foc_zip _ _ _ _ _) Hf4) as Hf5. pose proof (foc_size _ _ _ _ Hf4) as Hsz4.
  assert (size (mem s3) = size (mem s)) as Hsame.
  { destruct Hf as [_ _ _ Hk], Hf4 as [_ _ _ Hk4]. rewrite <-Hk4 in Hk. unfold keys in Hk.
    apply (f_equal size) in Hk. by rewrite !map_size_fmap in Hk. }
  assert (∀ (R : unit → pheap K → Prop), R tt s3 →
    wp (match node_ptr (plug child f) with
        | Some _ => augment_loop (size (mem s)) (node_ptr (plug child f)) | None => mret tt end) R s3) as Haug.
  { intros R HR. assert (wp (augment_loop (size (mem s)) (node_ptr (plug child f))) R s3).
    { eapply augment_loop_ok; [exact Hf5|by destruct f| |done]. simpl in Hsz4. lia. }
    by destruct f. }
  apply Haug. apply wp_bind.
  assert (node_ptr (plug child f) = path_ptr (f :: q)) as -> by by destruct f.
  eapply color_label_ok; [exact Hf4|exact HT|]. intros s5 Hf6. by apply wp_ret, HQ.
Qed.

(** VRB_REMOVE. *)
Lemma REMOVE_ok o k t (Q : option loc → pheap K → Prop) s T :
  foc ks s t [] → StronglySorted (key_lt cmp) (elems t) → (k, o) ∈ elems t → rb_remove cmp t k = Ret T →
  (∀ s', foc ks s' T [] → Q (Some o) s') → wp (REMOVE (Some o)) Q s.
Proof.
  intros Hf Hs Hin HT HQ. destruct (locate_elem cmp t k [] o Hs Hin) as (c & l & r & p & Hloc & Hz).
  unfold rb_remove in HT. rewrite Hloc in HT. apply (foc_move _ _ _ _ (Node c l (k, o) r) p) in Hf; [|done].
  clear Hloc Hz Hin Hs. pose proof (foc_node _ _ _ _ _ _ _ Hf) as Hx. cbn [snd fst] in Hx.
  unfold REMOVE. apply wp_bind, wp_getS, wp_bind. eapply wp_LEFT; [exact Hx|]. cbn [rbe_left].
  apply wp_bind. eapply wp_RIGHT; [exact Hx|]. cbn [rbe_right].
  assert (∀ child, (l = Nil ∧ r = child ∨ r = Nil ∧ l = child) → finish_remove c child p = Ret T →
    wp ('(parent, color) ← unlink (Some o) (node_ptr child);
        color_label color parent (node_ptr child);;; mret (Some o)) Q s) as Hone.
  { intros child Hlr HT'. apply wp_bind. eapply (wp_unlink c l (k, o) r); [exact Hf|exact Hlr|].
    intros s1 Hf1 _. cbn beta iota. apply wp_bind. eapply color_label_ok; [exact Hf1|exact HT'|].
    intros s2 Hf2. by apply wp_ret, HQ. }
  destruct l as [|lc ll lx lr]; [|destruct r as [|rc rl rx rr]]; cbn [node_ptr].
  - apply wp_bind, wp_ret. by apply (Hone r); [left|].
  - apply wp_bind, wp_ret. by apply (Hone (Node lc ll lx lr)); [right|].
  - destruct (leftmost rc rl rx rr []) as [[[color x'] child] sp] eqn:Hm.
    eapply wp_replace; [exact Hf|done|exact Hm|exact HT|exact HQ].
Qed.
End remove.

Section walking.
Context {K : Type} (cmp : K → K → comparison) `{!TotalCmp cmp} (ks : gmap loc K).
Implicit Types (s : pheap K) (t l r : rbtree K) (p : list (frame K)) (x : K * loc).

Lemma FIND_ok k t (Q : option loc → pheap K → Prop) s :
  foc ks s t [] → Q (rb_find cmp t k) s → wp (FIND cmp k) Q s.
Proof using Type.
  clear TotalCmp0. intros Hf HQ. unfold FIND. apply wp_bind, wp_getS, wp_bind, wp_getsS.
  rewrite (foc_root _ _ _ _ Hf). cbn [zip].
  assert (length (locs t) ≤ size (mem s)) as Hlen by (pose proof (foc_size _ _ _ _ Hf); simpl in *; lia).
  revert Hf Hlen HQ.
  generalize (@nil (frame K)). generalize (size (mem s)). induction t as [|c l IHl x r IHr]; intros fuel p Hf Hlen HQ.
  { by destruct fuel; apply wp_ret. }
  rewrite locs_node, length_app in Hlen. simpl in Hlen. destruct fuel as [|fuel]; [lia|].
  cbn [FIND_loop node_ptr]. apply wp_bind. eapply wp_KEY; [by eapply foc_node|]. cbn [elm_key].
  cbn [rb_find] in HQ. destruct (cmp k x.1); [by apply wp_ret| |]; apply wp_bind.
  - eapply wp_LEFT; [by eapply foc_node|]. cbn [rbe_left].
    eapply IHl; [by apply (foc_zip _ _ _ (InLeft c x r))|lia|done].
  - eapply wp_RIGHT; [by eapply foc_node|]. cbn [rbe_right].
    eapply IHr; [by apply (foc_zip _ _ _ (InRight c l x))|lia|done].
Qed.
Lemma NFIND_ok k t (Q : option loc → pheap K → Prop) s :
  foc ks s t [] → Q (snd <$> rb_nfind cmp t k None) s → wp (NFIND cmp k) Q s.
Proof using Type.
  clear TotalCmp0. intros Hf HQ. unfold NFIND. apply wp_bind, wp_getS, wp_bind, wp_getsS.
  rewrite (foc_root _ _ _ _ Hf). cbn [zip].
  assert (length (locs t) ≤ size (mem s)) as Hlen by (pose proof (foc_size _ _ _ _ Hf); simpl in *; lia).
  change (@None loc) with (snd <$> @None (K * loc)). revert Hf Hlen HQ. generalize (@None (K * loc)).
  generalize (@nil (frame K)). generalize (size (mem s)).
  induction t as [|c l IHl x r IHr]; intros fuel p res Hf Hlen HQ.
  { by destruct fuel; apply wp_ret. }
  rewrite locs_node, length_app in Hlen. simpl in Hlen. destruct fuel as [|fuel]; [lia|].
  cbn [NFIND_loop node_ptr]. apply wp_bind. eapply wp_KEY; [by eapply foc_node|]. cbn [elm_key].
  cbn [rb_nfind] in HQ. destruct (cmp k x.1); [by apply wp_ret| |]; apply wp_bind.
  - eapply wp_LEFT; [by eapply foc_node|]. cbn [rbe_left].
    eapply (IHl fuel _ (Some x)); [by apply (foc_zip _ _ _ (InLeft c x r))|lia|done].
  - eapply wp_RIGHT; [by eapply foc_node|]. cbn [rbe_right].
    eapply IHr; [by apply (foc_zip _ _ _ (InRight c l x))|lia|done].
Qed.
Lemma MINMAX_ok val t (Q : option loc → pheap K → Prop) s :
  foc ks s t [] → Q (snd <$> rb_minmax t val None) s → wp (MINMAX val) Q s.
Proof using Type.
  clear cmp TotalCmp0. intros Hf HQ. unfold MINMAX. apply wp_bind, wp_getS, wp_bind, wp_getsS.
  rewrite (foc_root _ _ _ _ Hf). cbn [zip].
  assert (length (locs t) ≤ size (mem s)) as Hlen by (pose proof (foc_size _ _ _ _ Hf); simpl in *; lia).
  change (@None loc) with (snd <$> @None (K * loc)). revert Hf Hlen HQ. generalize (@None (K * loc)).
  generalize (@nil (frame K)). generalize (size (mem s)).
  induction t as [|c l IHl x r IHr]; intros fuel p res Hf Hlen HQ.
  { by destruct fuel; apply wp_ret. }
  rewrite locs_node, length_app in Hlen. simpl in Hlen. destruct fuel as [|fuel]; [lia|].
  cbn [MINMAX_loop node_ptr]. cbn [rb_minmax] in HQ. apply wp_bind. destruct (val <? 0)%Z.
  - eapply wp_LEFT; [by eapply foc_node|]. cbn [rbe_left].
    eapply (IHl fuel _ (Some x)); [by apply (foc_zip _ _ _ (InLeft c x r))|lia|done].
  - eapply wp_RIGHT; [by eapply foc_node|]. cbn [rbe_right].
    eapply (IHr fuel _ (Some x)); [by apply (foc_zip _ _ _ (InRight c l x))|lia|done].
Qed.

Lemma go_right_ok fuel c l x r p (Q : option loc → pheap K → Prop) s :
  foc ks s (Node c l x r) p → length (locs r) < fuel →
  Q (Some (rightmost x r).2) s → wp (go_right fuel (Some x.2)) Q s.
Proof using Type.
  clear cmp TotalCmp0.
  revert fuel c l x p. induction r as [|c1 l1 _ x1 r1 IH]; intros fuel c l x p Hf Hlen HQ;
    (destruct fuel as [|fuel]; [lia|]); cbn [go_right]; apply wp_bind;
    (eapply wp_RIGHT; [by eapply foc_node|]); cbn [rbe_right node_ptr]; [by apply wp_ret|].
  rewrite locs_node, length_app in Hlen. simpl in Hlen.
  eapply IH; [exact (proj2 (foc_zip _ _ _ (InRight c l x) p) Hf)|lia|done].
Qed.

(** Climbing to the first ancestor on the other side. *)
Lemma up_right_ok fuel t p (Q : option loc → pheap K → Prop) s :
  foc ks s t p → t ≠ Nil → length p < fuel → Q (snd <$> climb p) s →
  wp (up_right fuel (node_ptr t)) (λ e, wp (VRB_PARENT e) Q) s.
Proof using Type.
  clear cmp TotalCmp0.
  revert fuel t. induction p as [|f p IH]; intros fuel t Hf Ht Hlen HQ;
    (destruct fuel as [|fuel]; [lia|]); (destruct t as [|c l x r]; [done|]); cbn [up_right node_ptr];
    apply wp_bind; (eapply wp_PARENT; [by eapply foc_node|]); cbn [rbe_parent].
  { apply wp_ret. by eapply wp_PARENT; [by eapply foc_node|]. }
  pose proof (foc_other _ _ _ _ _ _ _ _ Hf) as Hx. pose proof (foc_node _ _ _ _ _ _ _ Hf) as Hn.
  apply foc_zip in Hf. destruct f as [fc y u|fc u y]; cbn [path_ptr plug] in *;
    apply wp_bind; (eapply wp_RIGHT; [by eapply foc_node|]); cbn [rbe_right node_ptr].
  - rewrite decide_False by naive_solver. apply wp_ret. by eapply wp_PARENT.
  - rewrite decide_True by done. by eapply (IH fuel (Node fc u y (Node c l x r))); [|done|simpl in *; lia|].
Qed.
(** VRB_NEXT. *)
Lemma NEXT_ok o k t (Q : option loc → pheap K → Prop) s :
  foc ks s t [] → StronglySorted (key_lt cmp) (elems t) → (k, o) ∈ elems t →
  Q (snd <$> rb_next cmp t k) s → wp (NEXT (Some o)) Q s.
Proof.
  intros Hf Hs Hin HQ. destruct (locate_elem cmp t k [] o Hs Hin) as (c & l & r & p & Hloc & Hz).
  unfold rb_next in HQ. rewrite Hloc in HQ. apply (foc_move _ _ _ _ (Node c l (k, o) r) p) in Hf; [|done].
  clear Hloc Hz Hin Hs. pose proof (foc_node _ _ _ _ _ _ _ Hf) as Hx. cbn [snd fst] in Hx.
  pose proof (foc_size _ _ _ _ Hf) as Hlen. rewrite locs_node, length_app in Hlen. simpl in Hlen.
  unfold NEXT. apply wp_bind, wp_getS, wp_bind. eapply wp_RIGHT; [exact Hx|]. cbn [rbe_right].
  destruct r as [|rc rl rx rr]; cbn [node_ptr].
  2: {
    rewrite locs_node, length_app in Hlen. simpl in Hlen.
    destruct (leftmost rc rl rx rr []) as [[[c' x'] r'] p'] eqn:Hm.
    pose proof (leftmost_app rc rl rx rr [] (InRight c l (k, o) :: p)) as Hm'. rewrite Hm in Hm'.
    eapply go_left_ok; [exact (proj2 (foc_zip _ _ _ (InRight c l (k, o)) p) Hf)|exact Hm'|lia|done]. }
  apply wp_bind. eapply wp_PARENT; [exact Hx|]. cbn [rbe_parent].
  assert (wp (elm ← up_right (size (mem s)) (Some o); VRB_PARENT elm) Q s) as Hup.
  { apply wp_bind. eapply (up_right_ok _ (Node c l (k, o) Nil)); [exact Hf|done|lia|]. done. }
  destruct p as [|f p]; cbn [path_ptr]; [by apply wp_bind, wp_ret|].
  pose proof (foc_other _ _ _ _ _ _ _ _ Hf) as Hot. pose proof (proj1 (foc_zip _ _ _ _ _) Hf) as Hp.
  destruct f as [fc y u|fc u y]; cbn [path_ptr plug] in *;
    apply wp_bind, wp_bind; (eapply wp_LEFT; [by eapply foc_node|]); cbn [rbe_left node_ptr]; apply wp_ret.
  - rewrite bool_decide_true by done. by apply wp_ret.
  - rewrite bool_decide_false by naive_solver. done.
Qed.

(** Climbing to the first ancestor on the other side. *)
Lemma up_left_ok fuel t p (Q : option loc → pheap K → Prop) s :
  foc ks s t p → t ≠ Nil → length p < fuel → Q (snd <$> climb_prev p) s →
  wp (up_left fuel (node_ptr t)) (λ e, wp (VRB_PARENT e) Q) s.
Proof using Type.
  clear cmp TotalCmp0.
  revert fuel t. induction p as [|f p IH]; intros fuel t Hf Ht Hlen HQ;
    (destruct fuel as [|fuel]; [lia|]); (destruct t as [|c l x r]; [done|]); cbn [up_left node_ptr];
    apply wp_bind; (eapply wp_PARENT; [by eapply foc_node|]); cbn [rbe_parent].
  { apply wp_ret. by eapply wp_PARENT; [by eapply foc_node|]. }
  pose proof (foc_other _ _ _ _ _ _ _ _ Hf) as Hx. pose proof (foc_node _ _ _ _ _ _ _ Hf) as Hn.
  apply foc_zip in Hf. destruct f as [fc y u|fc u y]; cbn [path_ptr plug] in *;
    apply wp_bind; (eapply wp_LEFT; [by eapply foc_node|]); cbn [rbe_left node_ptr].
  - rewrite decide_True by done. by eapply (IH fuel (Node fc (Node c l x r) y u)); [|done|simpl in *; lia|].
  - rewrite decide_False by naive_solver. apply wp_ret. by eapply wp_PARENT.
Qed.
(** VRB_PREV. *)
Lemma PREV_ok o k t (Q : option loc → pheap K → Prop) s :
  foc ks s t [] → StronglySorted (key_lt cmp) (elems t) → (k, o) ∈ elems t →
  Q (snd <$> rb_prev cmp t k) s → wp (PREV (Some o)) Q s.
Proof.
  intros Hf Hs Hin HQ. destruct (locate_elem cmp t k [] o Hs Hin) as (c & l & r & p & Hloc & Hz).
  unfold rb_prev in HQ. rewrite Hloc in HQ. apply (foc_move _ _ _ _ (Node c l (k, o) r) p) in Hf; [|done].
  clear Hloc Hz Hin Hs. pose proof (foc_node _ _ _ _ _ _ _ Hf) as Hx. cbn [snd fst] in Hx.
  pose proof (foc_size _ _ _ _ Hf) as Hlen. rewrite locs_node, length_app in Hlen. simpl in Hlen.
  unfold PREV. apply wp_bind, wp_getS, wp_bind. eapply wp_LEFT; [exact Hx|]. cbn [rbe_left].
  destruct l as [|rc rl rx rr]; cbn [node_ptr].
  2: {
    rewrite locs_node, length_app in Hlen. simpl in Hlen.
    eapply go_right_ok; [exact (proj2 (foc_zip _ _ _ (InLeft c (k, o) r) p) Hf)|lia|done]. }
  apply wp_bind. eapply wp_PARENT; [exact Hx|]. cbn [rbe_parent].
  assert (wp (elm ← up_left (size (mem s)) (Some o); VRB_PARENT elm) Q s) as Hup.
  { apply wp_bind. eapply (up_left_ok _ (Node c Nil (k, o) r)); [exact Hf|done|lia|]. done. }
  destruct p as [|f p]; cbn [path_ptr]; [by apply wp_bind, wp_ret|].
  pose proof (foc_other _ _ _ _ _ _ _ _ Hf) as Hot. pose proof (proj1 (foc_zip _ _ _ _ _) Hf) as Hp.
  destruct f as [fc y u|fc u y]; cbn [path_ptr plug] in *;
    apply wp_bind, wp_bind; (eapply wp_RIGHT; [by eapply foc_node|]); cbn [rbe_right node_ptr]; apply wp_ret.
  - rewrite bool_decide_false by naive_solver. done.
  - rewrite bool_decide_true by done. by apply wp_ret.
Qed.
End walking.

(** ** The tree in memory as a sorted list *)
Section sorted_list.
Context {K : Type} (cmp : K → K → comparison) `{!TotalCmp cmp} (ks : gmap loc K).
Abbreviation elm := (K * loc)%type.
Implicit Types (s : pheap K) (t : rbtree K) (xs : list elm) (o : loc).

(** The operations, on structs that exist. *)
Inductive ptr_op :=
| Ptr_insert (o : loc) | Ptr_remove (o : loc) | Ptr_find (k : K) | Ptr_nfind (k : K)
| Ptr_min | Ptr_max | Ptr_next (o : loc) | Ptr_prev (o : loc).
Definition ptr_step (op : ptr_op) : M (pheap K) (option loc) :=
  match op with
  | Ptr_insert o => INSERT cmp (Some o)
  | Ptr_remove o => REMOVE (Some o)
  | Ptr_find k => FIND cmp k
  | Ptr_nfind k => NFIND cmp k
  | Ptr_min => MINMAX (-1)
  | Ptr_max => MINMAX 1
  | Ptr_next o => NEXT (Some o)
  | Ptr_prev o => PREV (Some o)
  end.
Fixpoint ptr_run (ops : list ptr_op) : M (pheap K) (list (option loc)) :=
  match ops with
  | [] => mret []
  | op :: ops => a ← ptr_step op; rest ← ptr_run ops; mret (a :: rest)
  end.

(** What an operation answers for the sorted list [xs], and the new list;
    [ks] are the keys of the structs. *)
Definition list_step xs (op : ptr_op) : option loc * list elm :=
  match op with
  | Ptr_insert o =>
      match ks !! o with
      | Some k => match head (at_key cmp k xs) with
                  | Some e => (Some e.2, xs)
                  | None => (None, below cmp k xs ++ (k, o) :: above cmp k xs)
                  end
      | None => (None, xs)
      end
  | Ptr_remove o => (Some o, filter (λ e, e.2 ≠ o) xs)
  | Ptr_find k => (snd <$> head (at_key cmp k xs), xs)
  | Ptr_nfind k => (snd <$> head (filter (λ e, cmp k e.1 ≠ Gt) xs), xs)
  | Ptr_min => (snd <$> head xs, xs)
  | Ptr_max => (snd <$> last xs, xs)
  | Ptr_next o => (k ← ks !! o; snd <$> head (above cmp k xs), xs)
  | Ptr_prev o => (k ← ks !! o; snd <$> last (below cmp k xs), xs)
  end.
(** An insertion is of a struct; a removal or a step is from an element of
    the tree. *)
Definition step_allowed xs (op : ptr_op) : Prop :=
  match op with
  | Ptr_insert o => is_Some (ks !! o)
  | Ptr_remove o | Ptr_next o | Ptr_prev o => o ∈ xs.*2
  | _ => True
  end.
Fixpoint list_run xs (ops : list ptr_op) : list (option loc) * list elm :=
  match ops with
  | [] => ([], xs)
  | op :: ops =>
      let '(a, xs) := list_step xs op in let '(rest, xs) := list_run xs ops in (a :: rest, xs)
  end.
Fixpoint run_allowed xs (ops : list ptr_op) : Prop :=
  match ops with
  | [] => True
  | op :: ops => step_allowed xs op ∧ run_allowed (list_step xs op).2 ops
  end.
#[global] Instance step_allowed_dec xs op : Decision (step_allowed xs op).
Proof using Type. destruct op; simpl; apply _. Defined.
#[global] Instance run_allowed_dec ops xs : Decision (run_allowed xs ops).
Proof using Type. revert xs. induction ops as [|op ops IH]; intros xs; simpl; apply _. Defined.

(** The memory holds a red-black tree with the elements [xs]. *)
Definition holds s xs : Prop :=
  ∃ t, foc ks s t [] ∧ rb_ok (cmp:=cmp) t ∧ elems t = xs.

Lemma holds_key s xs k o : holds s xs → (k, o) ∈ xs → ks !! o = Some k.
Proof using Type. intros (t & Hf & _ & <-) Hin. by apply (foc_mem ks s t []). Qed.
Lemma holds_split s xs o : holds s xs → o ∈ xs.*2 →
  ∃ k ys zs, ks !! o = Some k ∧ xs = ys ++ (k, o) :: zs ∧
    below cmp k xs = ys ∧ at_key cmp k xs = [(k, o)] ∧ above cmp k xs = zs.
Proof.
  intros Hh ([k o'] & -> & Hin)%list_elem_of_fmap. pose proof (holds_key _ _ _ _ Hh Hin) as Hk.
  destruct Hh as (t & _ & [Hs _] & <-). apply list_elem_of_split in Hin as (ys & zs & He).
  exists k, ys, zs. split; [done|]. split; [done|]. rewrite He in *.
  apply sorted_mid in Hs as (_ & _ & Hy & Hz). by apply (split_at ys (k, o') zs).
Qed.
Lemma find_at_key t k : rb_ok (cmp:=cmp) t → rb_find cmp t k = snd <$> head (at_key cmp k (elems t)).
Proof.
  intros Hok. destruct (rb_find cmp t k) as [v|] eqn:Hf.
  - apply rb_find_ok in Hf; [|done]. destruct Hok as [Hs _].
    apply list_elem_of_split in Hf as (ys & zs & He). rewrite He in *.
    apply sorted_mid in Hs as (_ & _ & Hy & Hz).
    destruct (split_at (cmp:=cmp) ys (k, v) zs Hy Hz) as (_ & Hat & _). cbn [fst] in Hat. by rewrite Hat.
  - destruct (at_key cmp k (elems t)) as [|[k' v] r] eqn:Hat; [done|]. exfalso.
    assert ((k', v) ∈ at_key cmp k (elems t)) as [Hk Hin]%list_elem_of_filter by (rewrite Hat; left).
    cbn [fst] in Hk. apply (cmp_eq (cmp:=cmp)) in Hk. subst k'.
    apply (rb_find_ok (cmp:=cmp)) in Hin; [|done]. rewrite Hf in Hin. discriminate Hin.
Qed.

Lemma ptr_insert_ok o xs (Q : option loc → pheap K → Prop) s :
  holds s xs → is_Some (ks !! o) →
  (∀ s', holds s' (list_step xs (Ptr_insert o)).2 → Q (list_step xs (Ptr_insert o)).1 s') →
  wp (INSERT cmp (Some o)) Q s.
Proof.
  intros Hh [k Hk] HQ. cbn [list_step] in HQ. rewrite Hk in HQ. pose proof Hh as (t & Hf & Hok & Ht).
  pose proof (find_at_key t k Hok) as Hfind. rewrite Ht in Hfind.
  destruct (head (at_key cmp k xs)) as [e|]; cbn [fmap option_fmap option_map fst snd] in *.
  - pose proof (proj1 (rb_find_ok t k _ Hok) Hfind) as Hin.
    eapply (INSERT_ok cmp ks o k t Q s (Some e.2) t); [exact Hf|exact Hk|done|by apply rb_insert_hit|].
    intros s' Hf'. apply HQ. by exists t.
  - destruct (rb_insert_new t k o Hok Hfind) as (t' & Hi & Hok' & ys & zs & He & He').
    eapply INSERT_ok; [exact Hf|exact Hk| |exact Hi|].
    + intros _ ([k' o'] & Ho & Hin)%list_elem_of_fmap. cbn [snd] in Ho. subst o'. rewrite Ht in Hin.
      rewrite (holds_key _ _ _ _ Hh Hin) in Hk. injection Hk as ->.
      rewrite <-Ht in Hin. apply (rb_find_ok (cmp:=cmp)) in Hin; [congruence|done].
    + intros s' Hf'. apply HQ. exists t'. split; [done|]. split; [done|].
      destruct Hok' as [Hs _]. rewrite He' in Hs |- *. apply sorted_mid in Hs as (_ & _ & Hy & Hz).
      rewrite <-Ht, He. by destruct (split_below (cmp:=cmp) k ys zs Hy Hz) as (-> & _ & ->).
Qed.
Lemma ptr_step_ok op xs (Q : option loc → pheap K → Prop) s :
  holds s xs → step_allowed xs op →
  (∀ s', holds s' (list_step xs op).2 → Q (list_step xs op).1 s') → wp (ptr_step op) Q s.
Proof.
  intros Hh Hal HQ. destruct op as [o|o|k|k| | |o|o]; cbn [ptr_step]; [by eapply ptr_insert_ok|..];
    cbn [list_step step_allowed fst snd] in *; pose proof Hh as (t & Hf & Hok & Ht);
    pose proof Hok as [Hs _].
  - destruct (holds_split _ _ _ Hh Hal) as (k & ys & zs & Hk & Hxs & _). rewrite <-Ht in Hxs.
    destruct (rb_remove_ok t k o ys zs Hok Hxs) as (t' & Hr & Hok' & He').
    eapply (REMOVE_ok cmp ks o k); [exact Hf|exact Hs|rewrite Hxs; apply elem_of_app; right; left|exact Hr|].
    intros s' Hf'. apply HQ. exists t'. split; [done|]. split; [done|]. rewrite He', <-Ht, Hxs.
    destruct Hf as [_ _ Hn _]. simpl in Hn. rewrite app_nil_r in Hn. unfold locs in Hn.
    rewrite Hxs, fmap_app, fmap_cons in Hn. apply NoDup_app in Hn as (_ & Hd & [Hz _]%NoDup_cons).
    assert (∀ l, (o ∉ l.*2) → filter (λ e : elm, e.2 ≠ o) l = l) as Hall.
    { intros l Hl. apply filter_all. intros e He Heo. apply Hl. rewrite <-Heo.
      by apply (list_elem_of_fmap_2 snd). }
    rewrite filter_app, filter_cons_False, !Hall by (done || (simpl; tauto) || (intros Hy; by eapply Hd; [exact Hy|left])).
    done.
  - eapply FIND_ok; [exact Hf|]. rewrite (find_at_key t k Hok), Ht. by apply HQ.
  - eapply NFIND_ok; [exact Hf|]. rewrite rb_nfind_spec, Ht by done.
    assert (∀ l : list elm, match l with [] => None | x :: _ => Some x end = head l) as -> by by intros [].
    by apply HQ.
  - eapply MINMAX_ok; [exact Hf|]. change (rb_minmax t (-1) None) with (rb_min t).
    rewrite rb_min_spec, Ht. by apply HQ.
  - eapply MINMAX_ok; [exact Hf|]. change (rb_minmax t 1 None) with (rb_max t).
    rewrite rb_max_spec, Ht. by apply HQ.
  - destruct (holds_split _ _ _ Hh Hal) as (k & ys & zs & Hk & Hxs & _ & _ & Ha). rewrite Hk in HQ. cbn in HQ.
    eapply (NEXT_ok cmp ks o k); [exact Hf|exact Hs|rewrite Ht, Hxs; apply elem_of_app; right; left|].
    rewrite (rb_next_spec cmp t k o ys zs Hs) by by rewrite Ht. rewrite <-Ha. by apply HQ.
  - destruct (holds_split _ _ _ Hh Hal) as (k & ys & zs & Hk & Hxs & Hb & _). rewrite Hk in HQ. cbn in HQ.
    eapply (PREV_ok cmp ks o k); [exact Hf|exact Hs|rewrite Ht, Hxs; apply elem_of_app; right; left|].
    rewrite (rb_prev_spec cmp t k o ys zs Hs) by by rewrite Ht. rewrite <-Hb. by apply HQ.
Qed.

Lemma ptr_run_ok ops xs s :
  holds s xs → run_allowed xs ops →
  wp (ptr_run ops) (λ answers s', (answers, (list_run xs ops).2) = list_run xs ops ∧
    holds s' (list_run xs ops).2) s.
Proof.
  revert xs s. induction ops as [|op ops IH]; intros xs s Hh Hal; cbn [ptr_run list_run]; [by apply wp_ret|].
  destruct Hal as [Hop Hal]. apply wp_bind. eapply ptr_step_ok; [exact Hh|exact Hop|]. intros s' Hh'.
  destruct (list_step xs op) as [a xs']. cbn [fst snd] in *. apply wp_bind. eapply wp_mono; [by apply IH|].
  intros answers s'' [Ha Hh'']. apply wp_ret. destruct (list_run xs' ops) as [rest ys]. cbn [snd] in *.
  by injection Ha as ->.
Qed.
End sorted_list.
Arguments ptr_op K : clear implicits.

(** C3: the red-black macros on memory, from any structs and after VRB_INIT:
    every sequence of VRB_INSERT, VRB_REMOVE, VRB_FIND, VRB_NFIND, VRB_MIN,
    VRB_MAX, VRB_NEXT and VRB_PREV in which only structs are inserted and only
    elements of the tree are removed or stepped from returns (no NULL or wild
    pointer is followed, the loops end), with the answers of the same
    operations on a sorted list; no key is written, and the memory then holds
    that list as a red-black tree, at most [2 log2 (n + 1)] nodes high, in
    which each child's parent field is its parent. *)
Theorem pointer_tree_refines {K} (cmp : K → K → comparison) `{!TotalCmp cmp} (structs : gmap loc (rbe K)) root ops :
  let ks := elm_key <$> structs in
  run_allowed cmp ks [] ops →
  let '(answers, xs) := list_run cmp ks [] ops in
  ∃ s t, (INIT;;; ptr_run cmp ops) (PHeap structs root) = Ret (answers, s) ∧
    elm_key <$> mem s = ks ∧ rbh_root s = node_ptr t ∧ tree (mem s) None t ∧
    elems t = xs ∧ StronglySorted (key_lt cmp) xs ∧
    height t ≤ 2 * Nat.log2 (S (length xs)).
Proof.
  intros ks Hal. pose proof (ptr_run_ok cmp ks ops [] (PHeap structs None)) as Hrun.
  apply wp_run in Hrun as (answers & s & Hr & Ha & t & Hf & Hok & Ht); [| |done].
  - destruct (list_run cmp ks [] ops) as [answers' xs]. cbn [snd] in *. injection Ha as <-.
    exists s, t. pose proof (rb_height _ Hok) as Hh. destruct Hok as [Hs _]. rewrite Ht in Hs, Hh.
    destruct Hf as [Htr Hroot _ Hk]. by split_and!.
  - exists Nil. split; [by split; [done|done|constructor|]|]. split; [|done].
    split; [constructor|]. exists 0. constructor.
Qed.
Lemma pointer_tree_refines_witness :
  let structs : gmap loc (rbe N) := list_to_map (imap (λ i k, (Pos.of_succ_nat i, Rbe None None None VRB_BLACK k))
    [30; 10; 20; 50; 40; 60; 20]%N) in
  let ks := elm_key <$> structs in
  let ops := (Ptr_insert <$> [1; 2; 3; 4; 5; 6; 7])%positive ++
    [Ptr_next 3%positive; Ptr_remove 1%positive; Ptr_prev 5%positive; Ptr_find 30%N; Ptr_nfind 30%N;
     Ptr_remove 3%positive; Ptr_min; Ptr_max] in
  run_allowed ptrcmp ks [] ops ∧
  (list_run ptrcmp ks [] ops).1 = [None; None; None; None; None; None; Some 3; Some 1; Some 1; Some 3; None; Some 5; Some 3; Some 2; Some 6]%positive ∧
  let '(answers, xs) := list_run ptrcmp ks [] ops in
  ∃ s t, (INIT;;; ptr_run ptrcmp ops) (PHeap structs (Some 9%positive)) = Ret (answers, s) ∧
    elm_key <$> mem s = ks ∧ rbh_root s = node_ptr t ∧ tree (mem s) None t ∧
    elems t = xs ∧ StronglySorted (key_lt ptrcmp) xs ∧
    height t ≤ 2 * Nat.log2 (S (length xs)).
Proof.
  intros structs ks ops. assert (run_allowed ptrcmp ks [] ops) as Hal.
  { apply (bool_decide_unpack _). vm_compute. exact I. }
  split; [exact Hal|]. split; [vm_compute; reflexivity|].
  exact (pointer_tree_refines ptrcmp structs (Some 9%positive) ops Hal).
Defined.
