(* ===== verification/Cookie.v ===== *)
(** * vmod_cookie: the Cookie request header

    Models vmod_cookie.c: the per-task cookie list, its parser, the
    accessors, the two filters and the printer.  The state is the task's
    private pointer (the list, once cobj_get has made it), the request
    workspace and the log.  A tail queue of cookies is the list of its
    elements; a pointer to one is its position. *)
From S2P Require Import Prelude CStr Workspace Double.

Record cookie := Cookie { name : bytes; value : bytes }.
#[export] Instance cookie_eq_dec : EqDecision cookie.
Proof. solve_decision. Defined.

(** priv->priv is NULL until cobj_get makes the vmod_cookie. *)
Abbreviation state W := (task (option (list cookie)) W).

Definition FILTER_ACTION_BLACKLIST := false.
Definition FILTER_ACTION_WHITELIST := true.

(** sizeof(struct cookie) on an LP64 machine. *)
Definition sizeof_cookie : Z := 40.

Definition nonempty (s : option bytes) : option bytes :=
  match s with
  | Some (c :: s') => Some (c :: s')
  | _ => None
  end.

Section operations.
Context {W : Type} `{Workspace W}.
Abbreviation cm := (M (state W)).

Definition set_cookielist (l : list cookie) : cm unit :=
  set_priv (Some l).
Definition cobj_get : cm (list cookie) :=
  p ← getsS priv;
  match p with
  | None => set_cookielist [];;; mret []
  | Some l => mret l
  end.

Definition find_cookie (vcp : list cookie) (nm : bytes) : option (nat * cookie) :=
  list_find (λ c, name c = nm) vcp.

Definition vmod_clean : cm unit :=
  _ ← cobj_get; set_cookielist [].

Definition vmod_set (nm val : option bytes) : cm unit :=
  vcp ← cobj_get;
  match nonempty nm, nonempty val with
  | Some nm, Some val =>
      match find_cookie vcp nm with
      | Some (i, c) =>
          ok ← ws_call (WS_Printf val);
          if ok : bool then set_cookielist (<[i := Cookie (name c) val]> vcp)
          else VSLb SLT_VCL_Log (str "cookie: Workspace overflow in set()")
      | None =>
          ok ← ws_call (WS_Alloc sizeof_cookie);
          if ok : bool then
            ok1 ← ws_call (WS_Printf nm);
            ok2 ← ws_call (WS_Printf val);
            if ok1 && ok2 then set_cookielist (vcp ++ [Cookie nm val])
            else VSLb SLT_VCL_Log (str "cookie: unable to get storage for cookie")
          else VSLb SLT_VCL_Log (str "cookie: unable to get storage for cookie")
      end
  | _, _ => mret tt
  end.

(** The [while ( *p != '\0')] loop; [i] counts the cookies seen. *)
Fixpoint parse_loop (fuel : nat) (p : bytes) (i : Z) : cm Z :=
  match fuel with
  | O => no_fuel
  | S fuel =>
      match p with
      | [] => mret i
      | _ :: _ =>
          let p := skip_while isspace p in
          match strchr p "=" with
          | None => mret i
          | Some sep =>
              let nm := strndup p (ptrdiff p sep) in
              let p := tail sep in
              let sep := skip_while (λ c, bool_decide (c ≠ ";"%char)) p in
              let val := strndup p (ptrdiff p sep) in
              vmod_set (Some nm) (Some val);;;
              match sep with
              | [] => mret (i + 1)%Z
              | _ :: p => parse_loop fuel p (i + 1)%Z
              end
          end
      end
  end.

Definition vmod_parse (cookieheader : option bytes) : cm unit :=
  vcp ← cobj_get;
  match nonempty cookieheader with
  | None => VSLb SLT_VCL_Log (str "cookie: nothing to parse")
  | Some h =>
      (match vcp with [] => mret tt | _ :: _ => vmod_clean end);;;
      i ← parse_loop (S (length h)) h 0;
      VSLb SLT_VCL_Log (str "cookie: parsed " ++ print_Z i ++ str " cookies.")
  end.

Definition vmod_isset (nm : option bytes) : cm bool :=
  vcp ← cobj_get;
  match nonempty nm with
  | None => mret false
  | Some nm => mret (match find_cookie vcp nm with Some _ => true | None => false end)
  end.

Definition vmod_get (nm : option bytes) : cm (option bytes) :=
  vcp ← cobj_get;
  match nonempty nm with
  | None => mret None
  | Some nm => mret ((λ ic, value ic.2) <$> find_cookie vcp nm)
  end.

Definition vmod_delete (nm : option bytes) : cm unit :=
  vcp ← cobj_get;
  match nonempty nm with
  | None => mret tt
  | Some nm =>
      match find_cookie vcp nm with
      | Some (i, _) => set_cookielist (delete i vcp)
      | None => mret tt
      end
  end.

(** First loop of filter_cookies: the names of the match list. *)
Fixpoint matchlist_loop (fuel : nat) (p : bytes) (ml : list bytes) : outcome (list bytes) :=
  match fuel with
  | O => NoFuel
  | S fuel =>
      match p with
      | [] => Ret ml
      | _ :: _ =>
          let p := skip_while isspace p in
          match p with
          | [] => Ret ml
          | _ :: p1 =>
              let q := skip_while (λ c, bool_decide (c ≠ ","%char)) p in
              if decide (length q = length p) then matchlist_loop fuel p1 ml
              else
                let ml := ml ++ [strndup p (ptrdiff p q)] in
                match q with
                | [] => matchlist_loop fuel [] ml
                | _ :: p => matchlist_loop fuel p ml
                end
          end
      end
  end.

(** Second loop: [VTAILQ_FOREACH_SAFE] with the removal of the current
    element, so the survivors keep their order. *)
Fixpoint filter_loop (ml : list bytes) (filter_action : bool) (l : list cookie) : list cookie :=
  match l with
  | [] => []
  | c :: l' =>
      let matched := existsb (λ m, bool_decide (name c = m)) ml in
      if negb (Bool.eqb matched filter_action) then filter_loop ml filter_action l'
      else c :: filter_loop ml filter_action l'
  end.

Definition filter_cookies (list_s : option bytes) (filter_action : bool) : cm unit :=
  vcp ← cobj_get;
  ml ← (match list_s with
        | None => mret []
        | Some p => liftO (matchlist_loop (S (length p)) p [])
        end);
  set_cookielist (filter_loop ml filter_action vcp).

Definition vmod_filter_except (whitelist_s : option bytes) : cm unit :=
  filter_cookies whitelist_s FILTER_ACTION_WHITELIST.
Definition vmod_filter (blacklist_s : option bytes) : cm unit :=
  filter_cookies blacklist_s FILTER_ACTION_BLACKLIST.

(** What the VSB holds after the loop of vmod_get_string. *)
Definition cookie_vsb (l : list cookie) : bytes :=
  concat (imap (λ i c,
    (if decide (i = 0) then [] else [" "%char]) ++
    name c ++ ["="%char] ++ value c ++ [";"%char]) l).

Definition vmod_get_string : cm (option bytes) :=
  vcp ← cobj_get;
  let output := cookie_vsb vcp in
  u ← ws_call (WS_Alloc (Z.of_nat (length output) + 1));
  if u : bool then mret (Some output)
  else VSLb SLT_VCL_Log (str "cookie: Workspace overflow");;; mret None.

(** The text of the time [duration] after [ts], by Varnish's VRT_TIME_string. *)
Definition vmod_format_rfc1123 (VRT_TIME_string : double → cm (option bytes)) (ts duration : double)
    : cm (option bytes) :=
  VRT_TIME_string (dadd ts duration).
End operations.

(** ** Pure view of the list operations *)
Definition upsert (nm val : bytes) (l : list cookie) : list cookie :=
  match find_cookie l nm with
  | Some (i, c) => <[i := Cookie (name c) val]> l
  | None => l ++ [Cookie nm val]
  end.

(** The list a task sees: none made yet reads as empty. *)
Definition cookies {W} (s : state W) : list cookie := default [] (priv s).

(** The abstract content: names to values. *)
Definition cookie_map (l : list cookie) : gmap bytes bytes :=
  list_to_map ((λ c, (name c, value c)) <$> l).

(** What the parser puts in the list: a name is not empty, does not start
    with white space and holds no '='; a value is not empty and holds no ';'. *)
Definition name_ok (n : bytes) : Prop :=
  n ≠ [] ∧ ("="%char ∉ n) ∧ ∀ c, head n = Some c → isspace c = false.
Definition value_ok (v : bytes) : Prop := v ≠ [] ∧ (";"%char ∉ v).
Definition cookie_ok (c : cookie) : Prop := name_ok (name c) ∧ value_ok (value c).
Definition cookies_ok (l : list cookie) : Prop :=
  NoDup (name <$> l) ∧ Forall cookie_ok l.

Section pure_facts.
Implicit Types (l : list cookie) (nm val : bytes).

Lemma nonempty_Some nm : nm ≠ [] → nonempty (Some nm) = Some nm.
Proof. by destruct nm. Qed.

Lemma find_cookie_Some l nm i c :
  find_cookie l nm = Some (i, c) →
  l !! i = Some c ∧ name c = nm ∧ ∀ j c', l !! j = Some c' → j < i → name c' ≠ nm.
Proof. by intros ?%list_find_Some. Qed.

Lemma find_cookie_None l nm : find_cookie l nm = None ↔ nm ∉ name <$> l.
Proof.
  unfold find_cookie. rewrite list_find_None, Forall_forall, list_elem_of_fmap.
  naive_solver.
Qed.

Lemma cookie_map_cons c l : cookie_map (c :: l) = <[name c := value c]> (cookie_map l).
Proof. done. Qed.

(** find_cookie looks the map up. *)
Lemma find_cookie_map l nm :
  (λ ic : nat * cookie, value ic.2) <$> find_cookie l nm = cookie_map l !! nm.
Proof.
  induction l as [|c l IH]; [done|]. rewrite cookie_map_cons.
  unfold find_cookie in *. simpl. case_decide as Hc.
  - subst. by rewrite lookup_insert_eq.
  - rewrite lookup_insert_ne by done. rewrite <-IH.
    by destruct (list_find _ l) as [[??]|].
Qed.

Lemma upsert_cons c l nm val :
  upsert nm val (c :: l) =
    if decide (name c = nm) then Cookie (name c) val :: l else c :: upsert nm val l.
Proof.
  unfold upsert, find_cookie. simpl. case_decide; [done|].
  by destruct (list_find _ l) as [[??]|].
Qed.

Lemma upsert_names l nm val :
  name <$> upsert nm val l =
    if decide (nm ∈ name <$> l) then name <$> l else (name <$> l) ++ [nm].
Proof.
  induction l as [|c l IH].
  - rewrite decide_False; [done|set_solver].
  - rewrite upsert_cons. destruct (decide (name c = nm)) as [Hc|Hc];
      rewrite !fmap_cons.
    + rewrite decide_True; [done|set_solver].
    + rewrite IH. repeat case_decide; try done; set_solver.
Qed.

Lemma upsert_map l nm val : cookie_map (upsert nm val l) = <[nm := val]> (cookie_map l).
Proof.
  induction l as [|c l IH]; [done|].
  rewrite upsert_cons. case_decide as Hc; rewrite !cookie_map_cons; simpl.
  - subst. by rewrite insert_insert_eq.
  - rewrite IH. by apply insert_insert_ne.
Qed.

Lemma upsert_ok l nm val :
  name_ok nm → value_ok val → cookies_ok l → cookies_ok (upsert nm val l).
Proof.
  intros Hn Hv [Hd Hf]. split.
  - rewrite upsert_names. case_decide; [done|].
    apply NoDup_app. split; [done|]. set_solver by eauto using NoDup_singleton.
  - clear Hd. induction Hf as [|c l Hc Hf IH].
    + by apply Forall_singleton.
    + rewrite upsert_cons. case_decide; constructor; try done. by destruct Hc.
Qed.

(** A new name goes to the end of the list. *)
Lemma upsert_fresh l nm val : nm ∉ name <$> l → upsert nm val l = l ++ [Cookie nm val].
Proof. intros H%find_cookie_None. unfold upsert. by rewrite H. Qed.

Lemma delete_map l nm i c :
  NoDup (name <$> l) → find_cookie l nm = Some (i, c) →
  cookie_map (delete i l) = delete nm (cookie_map l).
Proof.
  revert i. induction l as [|d l IH]; intros i Hd; [done|].
  apply NoDup_cons in Hd as [Hn Hd].
  unfold find_cookie in *. simpl. case_decide as Hc.
  - intros [= <- <-]. rewrite cookie_map_cons, Hc, delete_insert_id; [done|].
    rewrite <-find_cookie_map. apply fmap_None, find_cookie_None. by rewrite <-Hc.
  - destruct (list_find _ l) as [[j e]|] eqn:E; [|done]. intros [= <- <-].
    rewrite !cookie_map_cons. simpl. rewrite cookie_map_cons, (IH j) by done.
    by rewrite delete_insert_ne.
Qed.
End pure_facts.

(** ** Behaviour of the operations *)
Section behaviour.
Context {W : Type} `{WorkspaceLaws W}.
Implicit Types (s : state W) (l : list cookie).

(** What one stored cookie may cost: the struct and the two copies. *)
Definition cookie_cost (nm val : bytes) : Z :=
  sizeof_cookie + Z.of_nat (length nm) + Z.of_nat (length val) + 2 + 3 * ws_slack.

Lemma wp_cobj_get (Q : list cookie → state W → Prop) s :
  (∀ s', cookies s' = cookies s → ws s' = ws s → priv s' = Some (cookies s) →
    Q (cookies s) s') →
  wp cobj_get Q s.
Proof.
  intros HQ. unfold cobj_get. wp_go. unfold cookies in *.
  destruct (priv s) as [l|] eqn:E; wp_go; apply HQ; rewrite ?E; done.
Qed.

(** vmod_set either stores the pair or leaves the list as it was, and
    stores it when the workspace has room. *)
Definition stored (nm val : bytes) (s s' : state W) : Prop :=
  (cookies s' = upsert nm val (cookies s) ∨ cookies s' = cookies s) ∧
  (cookie_cost nm val ≤ ws_free (ws s) →
   cookies s' = upsert nm val (cookies s) ∧
   ws_free (ws s) - cookie_cost nm val ≤ ws_free (ws s'))%Z.

Lemma wp_vmod_set nm val s (Q : unit → state W → Prop) :
  nm ≠ [] → val ≠ [] → (∀ s', stored nm val s s' → Q tt s') →
  wp (vmod_set (Some nm) (Some val)) Q s.
Proof.
  intros Hn Hv HQ. unfold vmod_set. wp_go.
  apply wp_cobj_get. intros s1 Hc Hw Hp. rewrite !nonempty_Some by done.
  assert (∀ ok l w g,
    (ok = true → l = upsert nm val (cookies s)) → (ok = false → l = cookies s) →
    (cookie_cost nm val ≤ ws_free (ws s) →
       ok = true ∧ ws_free (ws s) - cookie_cost nm val ≤ ws_free w)%Z →
    Q tt (Task (Some l) w g)) as Hend.
  { intros ok l w g Hl1 Hl2 Hw'. apply HQ. unfold stored, cookies at 1 3 5. simpl.
    split; [destruct ok; auto|naive_solver]. }
  clear HQ. unfold cookie_cost, sizeof_cookie, ws_slack, upsert in *.
  unfold set_cookielist. rewrite <-Hw in *.
  destruct (find_cookie (cookies s) nm) as [[i c]|]; wp_go.
  - unfold ws_slack. intros [] w Hw1; wp_go; rewrite ?Hp;
      [apply (Hend true)|apply (Hend false)]; naive_solver lia.
  - lia.
  - unfold ws_slack. intros [] w1 Hw1; wp_go.
    + unfold ws_slack. intros ok2 w2 Hw2. wp_go. unfold ws_slack. intros ok3 w3 Hw3.
      destruct (ok2 && ok3) eqn:E; wp_go; rewrite ?Hp;
      [apply (Hend true)|apply (Hend false)];
      destruct ok2, ok3; naive_solver lia.
    + rewrite Hp. apply (Hend false); naive_solver lia.
Qed.

Lemma wp_vmod_set_empty nm val s (Q : unit → state W → Prop) :
  nm = [] ∨ val = [] →
  (∀ s', cookies s' = cookies s → ws s' = ws s → Q tt s') →
  wp (vmod_set (Some nm) (Some val)) Q s.
Proof.
  intros Hn HQ. unfold vmod_set. wp_go. apply wp_cobj_get. intros s1 Hc Hw Hp.
  destruct nm, val; simpl; try (by destruct Hn); apply wp_ret, HQ;
    try done; unfold cookies at 1; by rewrite Hp.
Qed.

Lemma wp_vmod_clean (Q : unit → state W → Prop) s :
  (∀ s', cookies s' = [] → ws s' = ws s → Q tt s') → wp vmod_clean Q s.
Proof.
  intros HQ. unfold vmod_clean, set_cookielist. wp_go.
  apply wp_cobj_get. intros s1 _ Hw _. wp_go. by apply HQ.
Qed.

(** *** The parser *)
Definition not_semi (c : ascii) : bool := bool_decide (c ≠ ";"%char).

(** One turn of the loop on [nm=val] followed by the end or a ';'. *)
Lemma parse_loop_entry fuel w nm val r i :
  Forall (λ c, isspace c = true) w → name_ok nm → (";"%char ∉ val) →
  (∀ c, head r = Some c → c = ";"%char) →
  parse_loop (S fuel) (w ++ nm ++ "="%char :: val ++ r) i =
    (vmod_set (Some nm) (Some val);;;
     match r with [] => mret (i + 1)%Z | _ :: p => parse_loop fuel p (i + 1)%Z end
     : M (state W) Z).
Proof.
  intros Hw (Hn & Heq & Hsp) Hv Hr.
  assert (∃ c p, w ++ nm ++ "="%char :: val ++ r = c :: p) as (c & p & Hp).
  { destruct (w ++ nm ++ "="%char :: val ++ r) as [|c p] eqn:E; [|eauto].
    apply app_eq_nil in E as [_ E]. by destruct nm. }
  cbn [parse_loop]. rewrite Hp, <-Hp.
  rewrite skip_while_app; [|done|intros d; destruct nm; simpl; naive_solver].
  rewrite strchr_app by done. cbn [tail]. rewrite strndup_strchr.
  rewrite (skip_while_app _ val r), strndup_strchr_rest.
  - done.
  - apply Forall_forall. intros d Hd. apply bool_decide_eq_true. by intros ->.
  - intros d ->%Hr. reflexivity.
Qed.

(** The parser always returns, whatever the header and the workspace,
    and keeps the list well formed. *)
Lemma wp_parse_loop_ok fuel p i s :
  length p < fuel → cookies_ok (cookies s) →
  wp (parse_loop fuel p i) (λ _ s', cookies_ok (cookies s')) s.
Proof.
  revert p i s. induction fuel as [|fuel IH]; intros p i s Hlen Hok; [lia|].
  cbn [parse_loop]. destruct p as [|c p]; [by wp_go|].
  set (p0 := c :: p) in *. clearbody p0. clear c p.
  assert (length (skip_while isspace p0) ≤ length p0) as Hlen1 by auto with vmod.
  pose proof (skip_while_head isspace p0) as Hsp. revert Hlen1 Hsp.
  generalize (skip_while isspace p0). intros p Hlen1 Hsp.
  destruct (strchr p "=") as [sep|] eqn:E; [|by wp_go].
  apply strchr_Some in E as (nm & r & -> & -> & Heq). rewrite strndup_strchr.
  cbn [tail]. rewrite strndup_skip.
  pose proof (skip_while_length (λ c, bool_decide (c ≠ ";"%char)) r) as Hlen2.
  pose proof (prefix_while_Forall (λ c, bool_decide (c ≠ ";"%char)) r) as Hval.
  revert Hlen2 Hval. generalize (skip_while (λ c, bool_decide (c ≠ ";"%char)) r).
  generalize (prefix_while (λ c, bool_decide (c ≠ ";"%char)) r).
  intros val q Hlen2 Hval. rewrite length_app in Hlen1. simpl in Hlen1.
  wp_go. apply (wp_mono _ (λ _ s', cookies_ok (cookies s'))).
  - destruct (decide (nm = [] ∨ val = [])) as [He|He].
    + apply wp_vmod_set_empty; [done|]. by intros s' ->.
    + apply wp_vmod_set; [tauto|tauto|]. intros s' [[-> | ->] _]; [|done].
      apply upsert_ok; [|split; [tauto|]|done].
      * split_and!; [tauto|done|]. intros d Hd. apply Hsp. by destruct nm; [tauto|].
      * intros Hin. rewrite Forall_forall in Hval.
        by specialize (Hval _ Hin); apply bool_decide_eq_true in Hval.
  - intros [] s' Hok'. destruct q as [|c q]; [by wp_go|].
    apply IH; [simpl in *; lia|done].
Qed.

(** A well-formed Cookie header for a list of pairs: each pair is
    preceded by optional white space and ended by a ';', which the last
    one may lack. *)
Inductive cookie_header : list cookie → bytes → Prop :=
| header_nil w :
    Forall (λ c, isspace c = true) w → cookie_header [] w
| header_last w c :
    Forall (λ c, isspace c = true) w → cookie_ok c →
    cookie_header [c] (w ++ name c ++ "="%char :: value c)
| header_cons w c l t :
    Forall (λ c, isspace c = true) w → cookie_ok c → cookie_header l t →
    cookie_header (c :: l) (w ++ name c ++ "="%char :: value c ++ ";"%char :: t).

Definition upserts (l0 l : list cookie) : list cookie :=
  foldl (λ acc c, upsert (name c) (value c) acc) l0 l.
Fixpoint cookies_cost (l : list cookie) : Z :=
  match l with
  | [] => 0
  | c :: l => cookie_cost (name c) (value c) + cookies_cost l
  end.

Lemma cookie_cost_pos nm val : (0 ≤ cookie_cost nm val)%Z.
Proof. unfold cookie_cost, sizeof_cookie, ws_slack. lia. Qed.
Lemma cookies_cost_pos l : (0 ≤ cookies_cost l)%Z.
Proof. induction l as [|c l IH]; simpl; [done|]. pose proof (cookie_cost_pos (name c) (value c)). lia. Qed.

Lemma wp_parse_loop_header l h fuel i s :
  cookie_header l h → length h < fuel →
  (cookies_cost l ≤ ws_free (ws s))%Z →
  wp (parse_loop fuel h i) (λ _ s', cookies s' = upserts (cookies s) l) s.
Proof.
  intros Hh. revert fuel i s.
  induction Hh as [w Hw|w c Hw [Hn [Hv Hsemi]]|w c l t Hw [Hn [Hv Hsemi]] Ht IH];
    intros [|fuel] i s Hlen Hcost; try lia.
  - cbn [parse_loop]. destruct w as [|d w]; [by wp_go|]. cbv zeta.
    rewrite <-(app_nil_r (d :: w)), skip_while_app by done. by wp_go.
  - rewrite <-(app_nil_r (value c)), parse_loop_entry by done. wp_go.
    simpl in Hcost. apply wp_vmod_set; [by destruct Hn|done|].
    intros s' [_ Hst]. wp_go. apply Hst. lia.
  - rewrite parse_loop_entry; [|done|done|done|by intros d [= <-]]. wp_go.
    simpl in Hcost. apply wp_vmod_set; [by destruct Hn|done|].
    intros s' [_ Hst]. pose proof (cookies_cost_pos l).
    destruct Hst as [Hc Hf]; [lia|]. cbn [upserts foldl]. rewrite <-Hc.
    rewrite !length_app in Hlen. simpl in Hlen. rewrite length_app in Hlen. simpl in Hlen.
    apply IH; lia.
Qed.

Lemma wp_vmod_parse h s (Q : unit → state W → Prop) :
  h ≠ [] →
  (∀ s1, cookies s1 = [] → ws s1 = ws s →
     wp (parse_loop (S (length h)) h 0) (λ _ s', ∀ s'', cookies s'' = cookies s' → Q tt s'') s1) →
  wp (vmod_parse (Some h)) Q s.
Proof.
  intros Hh HQ. unfold vmod_parse. wp_go. apply wp_cobj_get. intros s1 Hc Hw Hp.
  rewrite nonempty_Some by done. wp_go.
  apply (wp_mono _ (λ _ s', cookies s' = [] ∧ ws s' = ws s)).
  - destruct (cookies s) as [|c l] eqn:E; [by wp_go|].
    apply wp_vmod_clean. intros s' ? ->. by rewrite Hw.
  - intros [] s2 [Hc2 Hw2]. wp_go. eapply wp_mono; [by apply HQ|].
    intros i s3 Hs3. wp_go. by apply Hs3.
Qed.

(** *** The printer *)
Definition cookie_text (c : cookie) : bytes :=
  name c ++ "="%char :: value c ++ [";"%char].

Lemma cookie_vsb_imap (l : list cookie) n :
  concat (imap (λ i c, (if decide (n + S i = 0) then [] else [" "%char]) ++
    name c ++ ["="%char] ++ value c ++ [";"%char]) l) =
  concat ((λ c, " "%char :: cookie_text c) <$> l).
Proof.
  revert n. induction l as [|c l IH]; intros n; [done|].
  rewrite imap_cons, fmap_cons. cbn [concat].
  rewrite decide_False by lia. f_equal.
  rewrite <-(IH (S n)). f_equal. apply imap_ext. intros i d _. simpl.
  by rewrite (Nat.add_succ_r n (S i)).
Qed.

Lemma cookie_vsb_cons c l :
  cookie_vsb (c :: l) = cookie_text c ++ concat ((λ c, " "%char :: cookie_text c) <$> l).
Proof.
  unfold cookie_vsb. rewrite imap_cons. cbn [concat]. rewrite decide_True by done.
  f_equal. apply (cookie_vsb_imap l 0).
Qed.

(** The printer's output is a well-formed header of the list. *)
Lemma cookie_vsb_header l : Forall cookie_ok l → cookie_header l (cookie_vsb l).
Proof.
  intros Hl.
  assert (∀ l, Forall cookie_ok l →
    cookie_header l (concat ((λ c, " "%char :: cookie_text c) <$> l))) as Htl.
  { clear l Hl. induction 1 as [|c l Hc Hl IH]; [by apply header_nil|].
    rewrite fmap_cons. cbn [concat]. unfold cookie_text.
    rewrite <-app_comm_cons, <-(assoc_L (++)), <-app_comm_cons, <-(assoc_L (++)).
    apply (header_cons [" "%char]); [by apply Forall_singleton|done|done]. }
  destruct Hl as [|c l Hc Hl]; [by apply header_nil|].
  rewrite cookie_vsb_cons. unfold cookie_text.
  rewrite <-(assoc_L (++)), <-app_comm_cons, <-(assoc_L (++)).
  apply (header_cons []); auto.
Qed.

Lemma upserts_fresh l0 l :
  NoDup (name <$> (l0 ++ l)) → upserts l0 l = l0 ++ l.
Proof.
  revert l0. induction l as [|c l IH]; intros l0 Hd; [by rewrite app_nil_r|].
  cbn [upserts foldl]. rewrite upsert_fresh.
  - fold (upserts (l0 ++ [Cookie (name c) (value c)]) l).
    destruct c as [n v]. simpl. rewrite IH, <-(assoc_L (++)); [done|].
    by rewrite <-(assoc_L (++)).
  - rewrite fmap_app in Hd. apply NoDup_app in Hd as (_ & Hd & _).
    intros Hin. apply (Hd _ Hin). set_solver.
Qed.
End behaviour.

(** ** Filters: the reference reading of a match list *)

(** The pieces of [s] between commas. *)
Fixpoint split_commas (s : bytes) : list bytes :=
  match s with
  | [] => [[]]
  | c :: s' =>
      if decide (c = ","%char) then [] :: split_commas s'
      else match split_commas s' with
           | x :: r => (c :: x) :: r
           | [] => [[c]]
           end
  end.
(** The names a match list denotes: its pieces less their leading white
    space, those that are not empty. *)
Definition match_names (s : bytes) : list bytes :=
  filter (λ n, n ≠ []) (skip_while isspace <$> split_commas s).

Definition not_comma (c : ascii) : bool := bool_decide (c ≠ ","%char).

Section filter_facts.
Lemma split_commas_next w r :
  Forall (λ c, not_comma c = true) w →
  split_commas (w ++ r) = match split_commas r with
                          | x :: l => (w ++ x) :: l
                          | [] => [w]
                          end.
Proof.
  induction 1 as [|c w Hc Hw IH]; simpl.
  - by destruct r as [|d r]; simpl; [|case_decide; [|destruct (split_commas r)]].
  - apply bool_decide_eq_true in Hc. rewrite decide_False by done. rewrite IH.
    by destruct (split_commas r).
Qed.

Lemma split_commas_head w r :
  Forall (λ c, not_comma c = true) w →
  split_commas (w ++ ","%char :: r) = w :: split_commas r.
Proof.
  intros Hw. rewrite split_commas_next by done. simpl. by rewrite app_nil_r.
Qed.
Lemma split_commas_last w :
  Forall (λ c, not_comma c = true) w → split_commas w = [w].
Proof.
  intros Hw. rewrite <-(app_nil_r w) at 1.
  rewrite split_commas_next by done. simpl. by rewrite app_nil_r.
Qed.

(** Leading white space of the whole list does not change its names. *)
Lemma match_names_skip p : match_names (skip_while isspace p) = match_names p.
Proof.
  induction p as [|c p IH]; [done|]. simpl. destruct (isspace c) eqn:Hc; [|done].
  rewrite IH. unfold match_names. simpl.
  rewrite decide_False by by intros ->.
  destruct (split_commas p) as [|x l] eqn:E.
  - by destruct p as [|d p]; simpl in E; [|case_decide; [|destruct (split_commas p)]].
  - cbn [fmap list_fmap]. simpl. by rewrite Hc.
Qed.

Lemma match_names_cons x r :
  skip_while isspace x = x → x ≠ [] →
  Forall (λ c, not_comma c = true) x →
  match_names (x ++ ","%char :: r) = x :: match_names r.
Proof.
  intros Hx Hne Hw. unfold match_names. rewrite split_commas_head by done.
  cbn [fmap list_fmap]. rewrite Hx. by rewrite filter_cons_True.
Qed.
Lemma match_names_last x :
  skip_while isspace x = x → x ≠ [] →
  Forall (λ c, not_comma c = true) x → match_names x = [x].
Proof.
  intros Hx Hne Hw. unfold match_names. rewrite split_commas_last by done.
  cbn [fmap list_fmap]. rewrite Hx. by rewrite filter_cons_True.
Qed.

Lemma matchlist_loop_names fuel p ml :
  length p < fuel → matchlist_loop fuel p ml = Ret (ml ++ match_names p).
Proof.
  revert p ml. induction fuel as [|fuel IH]; intros p ml Hlen; [lia|].
  cbn [matchlist_loop]. destruct p as [|c0 p0] eqn:E0; [by rewrite app_nil_r|].
  rewrite <-E0 in *. clear c0 p0 E0. rewrite <-(match_names_skip p).
  pose proof (skip_while_length isspace p) as Hlen1.
  pose proof (skip_while_idem isspace p) as Hid. revert Hlen1 Hid.
  generalize (skip_while isspace p). intros x Hlen1 Hid.
  destruct x as [|c p1]; [by rewrite app_nil_r|].
  fold not_comma. set (x := c :: p1) in *.
  pose proof (prefix_skip not_comma x) as Hx. rewrite strndup_skip.
  pose proof (prefix_while_Forall not_comma x) as Hw.
  pose proof (skip_while_head not_comma x) as Hq.
  revert Hx Hw Hq. change (λ c, bool_decide (c ≠ ","%char)) with not_comma.
  generalize (prefix_while not_comma x) (skip_while not_comma x).
  intros w q Hx Hw Hq. case_decide as Hd.
  - assert (w = []) as -> by (rewrite <-Hx, length_app in Hd; destruct w; [done|simpl in *; lia]).
    simpl in Hx. subst q. assert (c = ","%char) as ->.
    { specialize (Hq c eq_refl). by apply bool_decide_eq_false, dec_stable in Hq. }
    rewrite IH by (simpl in *; lia). done.
  - assert (w ≠ []) as Hne by (intros ->; simpl in Hx; congruence).
    assert (skip_while isspace w = w) as Hidw.
    { apply skip_while_idle. intros d Hdh.
      apply (skip_while_head isspace x). rewrite Hid, <-Hx.
      by destruct w. }
    destruct q as [|d q].
    + rewrite app_nil_r in Hx. subst w. rewrite IH by (simpl in *; lia).
      change (match_names []) with (@nil bytes).
      by rewrite match_names_last, app_nil_r.
    + assert (d = ","%char) as ->.
      { specialize (Hq d eq_refl). by apply bool_decide_eq_false, dec_stable in Hq. }
      rewrite IH; [|rewrite <-Hx, length_app in Hlen1; simpl in *; lia].
      rewrite <-Hx, match_names_cons by done. by rewrite <-(assoc_L (++)).
Qed.

Lemma existsb_names ml c :
  existsb (λ m, bool_decide (name c = m)) ml = bool_decide (name c ∈ ml).
Proof.
  apply Bool.eq_iff_eq_true. rewrite existsb_exists, bool_decide_eq_true.
  setoid_rewrite bool_decide_eq_true. setoid_rewrite <-list_elem_of_In. naive_solver.
Qed.
Lemma filter_loop_whitelist ml l :
  filter_loop ml FILTER_ACTION_WHITELIST l = filter (λ c, name c ∈ ml) l.
Proof.
  induction l as [|c l IH]; [done|]. simpl. rewrite existsb_names, IH, filter_cons.
  by case_bool_decide; case_decide.
Qed.
Lemma filter_loop_blacklist ml l :
  filter_loop ml FILTER_ACTION_BLACKLIST l = filter (λ c, name c ∉ ml) l.
Proof.
  induction l as [|c l IH]; [done|]. simpl. rewrite existsb_names, IH, filter_cons.
  by case_bool_decide; case_decide.
Qed.
End filter_facts.

(** ** The abstract specification: a map from names to values *)
Inductive op :=
| OSet (nm val : option bytes)
| OGet (nm : option bytes)
| OIsset (nm : option bytes)
| ODelete (nm : option bytes)
| OFilter (list_s : option bytes)
| OFilterExcept (list_s : option bytes)
| OClean.
Inductive answer := ADone | ABool (b : bool) | AString (v : option bytes).

Definition list_names (list_s : option bytes) : list bytes :=
  default [] (match_names <$> list_s).

Definition spec_step (o : op) (m : gmap bytes bytes) : gmap bytes bytes * answer :=
  match o with
  | OSet nm val =>
      (match nonempty nm, nonempty val with
       | Some nm, Some val => <[nm := val]> m
       | _, _ => m
       end, ADone)
  | OGet nm => (m, AString (nm ← nonempty nm; m !! nm))
  | OIsset nm => (m, ABool (bool_decide (is_Some (nm ← nonempty nm; m !! nm))))
  | ODelete nm =>
      (match nonempty nm with Some nm => delete nm m | None => m end, ADone)
  | OFilter ls => (filter (λ kv, kv.1 ∉ list_names ls) m, ADone)
  | OFilterExcept ls => (filter (λ kv, kv.1 ∈ list_names ls) m, ADone)
  | OClean => (∅, ADone)
  end.
Fixpoint spec_run (os : list op) (m : gmap bytes bytes) : gmap bytes bytes * list answer :=
  match os with
  | [] => (m, [])
  | o :: os =>
      let '(m1, a) := spec_step o m in
      let '(m2, l) := spec_run os m1 in (m2, a :: l)
  end.

Section refinement.
Context {W : Type} `{WorkspaceLaws W}.
Implicit Types (s : state W) (l : list cookie) (m : gmap bytes bytes).

Definition run_op (o : op) : M (state W) answer :=
  match o with
  | OSet nm val => vmod_set nm val;;; mret ADone
  | OGet nm => v ← vmod_get nm; mret (AString v)
  | OIsset nm => b ← vmod_isset nm; mret (ABool b)
  | ODelete nm => vmod_delete nm;;; mret ADone
  | OFilter ls => vmod_filter ls;;; mret ADone
  | OFilterExcept ls => vmod_filter_except ls;;; mret ADone
  | OClean => vmod_clean;;; mret ADone
  end.
Fixpoint run_ops (os : list op) : M (state W) (list answer) :=
  match os with
  | [] => mret []
  | o :: os => a ← run_op o; l ← run_ops os; mret (a :: l)
  end.

Definition op_cost (o : op) : Z :=
  match o with
  | OSet nm val => cookie_cost (default [] nm) (default [] val)
  | _ => 0
  end.
Definition ops_cost (os : list op) : Z := foldr (λ o z, (op_cost o + z)%Z) 0%Z os.
Lemma op_cost_pos o : (0 ≤ op_cost o)%Z.
Proof. destruct o; simpl; try done. apply cookie_cost_pos. Qed.
Lemma ops_cost_pos os : (0 ≤ ops_cost os)%Z.
Proof. induction os as [|o os IH]; simpl; [done|]. pose proof (op_cost_pos o). lia. Qed.

(** The refinement relation: no name twice, and the list's content. *)
Definition refines s m : Prop :=
  NoDup (name <$> cookies s) ∧ cookie_map (cookies s) = m.

Lemma cookie_map_lookup l nm :
  cookie_map l !! nm = (λ ic : nat * cookie, value ic.2) <$> find_cookie l nm.
Proof. symmetry. apply find_cookie_map. Qed.

Lemma NoDup_filter_names (P : cookie → Prop) `{∀ c, Decision (P c)} l :
  NoDup (name <$> l) → NoDup (name <$> filter P l).
Proof.
  induction l as [|c l IH]; [done|]. rewrite filter_cons, fmap_cons.
  intros [Hc Hd]%NoDup_cons. case_decide; [|by apply IH].
  rewrite fmap_cons. apply NoDup_cons. split; [|by apply IH].
  intros (d & Hd1 & Hd2)%list_elem_of_fmap. apply Hc.
  apply list_elem_of_filter in Hd2 as [_ Hd2]. apply list_elem_of_fmap. eauto.
Qed.

Lemma cookie_map_filter (P : bytes → Prop) `{∀ x, Decision (P x)} l :
  NoDup (name <$> l) →
  cookie_map (filter (λ c, P (name c)) l) = filter (λ kv, P kv.1) (cookie_map l).
Proof.
  induction l as [|c l IH].
  { change (cookie_map []) with (∅ : gmap bytes bytes). by rewrite map_filter_empty. }
  rewrite fmap_cons. intros [Hc Hd]%NoDup_cons.
  assert (cookie_map l !! name c = None) as Hn.
  { rewrite cookie_map_lookup. apply fmap_None. by apply find_cookie_None. }
  rewrite filter_cons, cookie_map_cons. case_decide as HP.
  - rewrite map_filter_insert_True by done. rewrite cookie_map_cons. by rewrite IH.
  - rewrite map_filter_insert_not by (intros; done). by apply IH.
Qed.

Lemma refines_upsert s s' nm val m :
  refines s m → cookies s' = upsert nm val (cookies s) → refines s' (<[nm := val]> m).
Proof.
  intros [Hd <-] Hs'. split; rewrite Hs'; [|apply upsert_map].
  rewrite upsert_names. case_decide; [done|].
  apply NoDup_app. split; [done|]. set_solver by eauto using NoDup_singleton.
Qed.
Lemma refines_same s s' m : refines s m → cookies s' = cookies s → refines s' m.
Proof. unfold refines. by intros ? ->. Qed.
Lemma refines_cobj_get l w g s m :
  refines s m → l = cookies s → refines (Task (Some l) w g) m.
Proof. intros ? ->. by eapply refines_same. Qed.

(** What is owed after an operation [o] started in [s] against [m]. *)
Definition op_post (o : op) s m (a : answer) s' : Prop :=
  refines s' (spec_step o m).1 ∧ a = (spec_step o m).2 ∧
  (op_cost o ≤ ws_free (ws s) → ws_free (ws s) - op_cost o ≤ ws_free (ws s'))%Z.

(** Queries and removals leave the workspace alone. *)
Lemma op_post_free (o : op) s m a s' :
  op_cost o = 0%Z → ws s' = ws s → refines s' (spec_step o m).1 →
  a = (spec_step o m).2 → op_post o s m a s'.
Proof. intros Ho Hw ? ?. split_and!; [done..|]. rewrite Ho, Hw. lia. Qed.

Lemma op_set_post nm val s m :
  refines s m → (op_cost (OSet nm val) ≤ ws_free (ws s))%Z →
  wp (run_op (OSet nm val)) (op_post (OSet nm val) s m) s.
Proof.
  intros Hr Hcost. cbn [run_op]. wp_go.
  destruct (nonempty nm) as [n|] eqn:En; [destruct (nonempty val) as [v|] eqn:Ev|].
  - assert (nm = Some n ∧ val = Some v ∧ n ≠ [] ∧ v ≠ []) as (-> & -> & ? & ?).
    { destruct nm as [[|??]|], val as [[|??]|]; naive_solver. }
    apply wp_vmod_set; [done|done|]. intros s' [_ [Hs' Hf]]; [done|]. wp_go.
    split_and!; cbn [spec_step]; rewrite ?En, ?Ev; [by eapply refines_upsert|done|done].
  - unfold vmod_set. wp_go. apply wp_cobj_get. intros s1 Hc Hw _. rewrite En, Ev. wp_go.
    split_and!; cbn [spec_step]; rewrite ?En, ?Ev, ?Hw; [by eapply refines_same|done|].
    pose proof (cookie_cost_pos (default [] nm) (default [] val)). simpl. lia.
  - unfold vmod_set. wp_go. apply wp_cobj_get. intros s1 Hc Hw _. rewrite En. wp_go.
    split_and!; cbn [spec_step]; rewrite ?En, ?Hw; [by eapply refines_same|done|].
    pose proof (cookie_cost_pos (default [] nm) (default [] val)). simpl. lia.
Qed.

Lemma op_lookup_post nm s m :
  refines s m →
  wp (run_op (OGet nm)) (op_post (OGet nm) s m) s ∧
  wp (run_op (OIsset nm)) (op_post (OIsset nm) s m) s.
Proof.
  intros Hr. cbn [run_op]. unfold vmod_get, vmod_isset.
  split; wp_go; apply wp_cobj_get; intros s1 Hc Hw Hp;
    destruct (nonempty nm) as [n|] eqn:En; wp_go;
    (apply op_post_free; cbn [spec_step fst snd]; rewrite ?En;
      [done|done|by eapply refines_same|]); destruct Hr as [Hd <-]; simpl; try done.
  - by rewrite cookie_map_lookup.
  - f_equal. rewrite cookie_map_lookup.
    by destruct (find_cookie (cookies s) n) as [[??]|].
Qed.

Lemma op_delete_post nm s m :
  refines s m → wp (run_op (ODelete nm)) (op_post (ODelete nm) s m) s.
Proof.
  intros Hr. cbn [run_op]. unfold vmod_delete, set_cookielist. wp_go.
  apply wp_cobj_get. intros s1 Hc Hw Hp. destruct (nonempty nm) as [n|] eqn:En; wp_go.
  - destruct (find_cookie (cookies s) n) as [[i c]|] eqn:Ef; wp_go;
      (apply op_post_free; cbn [spec_step fst snd]; rewrite ?En; [done|done| |done]).
    + destruct Hr as [Hd <-]. split; unfold cookies at 1; simpl; [|by eapply delete_map].
      rewrite list_fmap_delete. by eapply sublist_NoDup, sublist_delete.
    + eapply refines_same; [|done]. destruct Hr as [Hd Hm]. split; [done|].
      rewrite Hm, delete_id; [done|]. rewrite <-Hm, cookie_map_lookup. by rewrite Ef.
  - apply op_post_free; cbn [spec_step fst snd]; rewrite ?En; [done..| |done].
    by eapply refines_same.
Qed.

Lemma op_filter_post ls s m :
  refines s m →
  wp (run_op (OFilter ls)) (op_post (OFilter ls) s m) s ∧
  wp (run_op (OFilterExcept ls)) (op_post (OFilterExcept ls) s m) s.
Proof.
  intros [Hd <-]. cbn [run_op].
  unfold vmod_filter, vmod_filter_except, filter_cookies, set_cookielist.
  split; wp_go; apply wp_cobj_get; intros s1 _ Hw _; wp_go; destruct ls as [p|]; wp_go;
    try (by apply matchlist_loop_names; lia); wp_go;
    (apply op_post_free; [done|done| |done]); cbn [spec_step fst snd];
    unfold refines, cookies at 1 2; simpl;
    rewrite ?filter_loop_blacklist, ?filter_loop_whitelist;
    (split; [by apply NoDup_filter_names|]);
    first [exact (cookie_map_filter (λ x, x ∉ _) _ Hd)
          |exact (cookie_map_filter (λ x, x ∈ _) _ Hd)].
Qed.

Lemma wp_run_op o s m :
  refines s m → (op_cost o ≤ ws_free (ws s))%Z → wp (run_op o) (op_post o s m) s.
Proof.
  intros Hr Hcost. destruct o as [nm val|nm|nm|nm|ls|ls|].
  - by apply op_set_post.
  - by apply op_lookup_post.
  - by apply op_lookup_post.
  - by apply op_delete_post.
  - by apply op_filter_post.
  - by apply op_filter_post.
  - cbn [run_op]. wp_go. apply wp_vmod_clean. intros s' Hc Hw. wp_go.
    apply op_post_free; [done..| |done]. split; rewrite Hc; [constructor|done].
Qed.
End refinement.

(** ** Properties *)
Section properties.
Context {W : Type} `{WorkspaceLaws W}.
Implicit Types (s : state W) (l : list cookie).

(** C24: parsing a well-formed Cookie header (pairs separated by ';', with
    optional white space before each name and an optional final ';')
    leaves exactly the header's cookies, in order of first appearance
    with the last value of each, whatever was stored before. *)
Theorem parse_header h l s :
  cookie_header l h → h ≠ [] → (cookies_cost l ≤ ws_free (ws s))%Z →
  wp (vmod_parse (Some h)) (λ _ s', cookies s' = upserts [] l) s.
Proof.
  intros Hh Hne Hcost. apply wp_vmod_parse; [done|]. intros s1 Hc1 Hw1.
  eapply wp_mono; [apply (wp_parse_loop_header l); [done|lia|by rewrite Hw1]|].
  intros i s2 Hs2 s3 ->. by rewrite Hs2, Hc1.
Qed.

(** C33: the printed form of a well-formed cookie list parses back to
    that list: get_string followed by parse changes nothing. *)
Theorem print_parse_roundtrip s :
  cookies_ok (cookies s) →
  (Z.of_nat (length (cookie_vsb (cookies s))) + 1 + ws_slack + cookies_cost (cookies s)
     ≤ ws_free (ws s))%Z →
  wp (out ← vmod_get_string; vmod_parse out) (λ _ s', cookies s' = cookies s) s.
Proof.
  intros [Hd Hok] Hroom. pose proof (cookies_cost_pos (cookies s)).
  unfold vmod_get_string. wp_go. apply wp_cobj_get. intros s1 Hc Hw Hp. wp_go; [lia|].
  rewrite Hw. intros ok w Hw2. destruct Hw2 as [-> Hw2]; [lia|]. wp_go.
  destruct (cookies s) as [|c l] eqn:E.
  - unfold vmod_parse. wp_go. apply wp_cobj_get. intros s2 Hc2 _ _. wp_go.
    transitivity (cookies s2); [done|]. rewrite Hc2. unfold cookies. simpl. by rewrite Hp.
  - rewrite <-E in *. apply wp_vmod_parse; [by rewrite E, cookie_vsb_cons; destruct c, name0|].
    intros s2 Hc2 Hw3. eapply wp_mono.
    + apply (wp_parse_loop_header (cookies s)); [by apply cookie_vsb_header|lia|].
      rewrite Hw3. simpl. lia.
    + intros i s3 Hs3 s4 ->. rewrite Hs3, Hc2. by apply upserts_fresh.
Qed.

(** parse() returns for every header and every workspace (no assertion
    fails and the scan terminates), and the cookies it leaves are well
    formed: distinct non-empty names without '=' or leading white space,
    non-empty values without ';'. *)
Theorem parse_total_wf h s :
  h ≠ [] → wp (vmod_parse (Some h)) (λ _ s', cookies_ok (cookies s')) s.
Proof.
  intros Hne. apply wp_vmod_parse; [done|]. intros s1 Hc1 _.
  eapply wp_mono; [apply wp_parse_loop_ok; [lia|]|].
  - rewrite Hc1. split; constructor.
  - by intros i s2 Hs2 s3 ->.
Qed.

(** A NULL or empty header is ignored: the cookies of an earlier
    parse in the same task stay (the manual says clean() runs first). *)
Theorem parse_empty_keeps h s :
  nonempty h = None → wp (vmod_parse h) (λ _ s', cookies s' = cookies s) s.
Proof.
  intros Hh. unfold vmod_parse. wp_go. apply wp_cobj_get. intros s1 Hc _ Hp.
  rewrite Hh. wp_go. unfold cookies at 1. by rewrite Hp.
Qed.

(** The two filters: filter_except keeps exactly the cookies named in
    its comma-separated argument and filter exactly the others, in the
    stored order; a NULL argument names nothing. *)
Theorem filters_select (list_s : option bytes) s :
  let ml := default [] (match_names <$> list_s) in
  wp (vmod_filter_except list_s)
     (λ _ s', cookies s' = filter (λ c, name c ∈ ml) (cookies s)) s ∧
  wp (vmod_filter list_s)
     (λ _ s', cookies s' = filter (λ c, name c ∉ ml) (cookies s)) s.
Proof.
  cbv zeta. unfold vmod_filter_except, vmod_filter, filter_cookies, set_cookielist.
  split; wp_go; apply wp_cobj_get; intros s1 _ _ _; wp_go; destruct list_s as [p|]; wp_go;
    try (by apply matchlist_loop_names; lia); wp_go;
    unfold cookies at 1; simpl; by rewrite ?filter_loop_whitelist, ?filter_loop_blacklist.
Qed.

(** C6: any sequence of set, get, isset, delete, filter, filter_except and
    clean behaves as the same sequence on a finite map from names to
    values: same answers, same final content, as long as the workspace
    has room for what is set. get of a name that is not in the map answers
    NULL, where the documentation (vmod_cookie.vcc) promises an empty
    string. *)
Theorem operations_refine_map os s m :
  refines s m → (ops_cost os ≤ ws_free (ws s))%Z →
  wp (run_ops os) (λ ans s', refines s' (spec_run os m).1 ∧ ans = (spec_run os m).2) s.
Proof.
  revert s m. induction os as [|o os IH]; intros s m Hr Hcost; [by wp_go|].
  cbn [run_ops spec_run ops_cost foldr] in *. wp_go.
  assert (0 ≤ op_cost o ∧ 0 ≤ ops_cost os)%Z as [Ho Hos] by auto using op_cost_pos, ops_cost_pos.
  unfold ops_cost in Hos.
  eapply wp_mono; [apply wp_run_op; [done|lia]|].
  intros a s1 (Hr1 & -> & Hw1). wp_go.
  eapply wp_mono; [apply IH; [done|unfold ops_cost; lia]|].
  intros ans s2 [Hr2 ->]. wp_go. revert Hr2.
  destruct (spec_step o m) as [m1 a]; simpl.
  by destruct (spec_run os m1) as [m2 l2].
Qed.
End properties.

(** *** The properties at concrete inputs *)
Definition fresh_task : state Z := Task None 4096%Z [].
Definition two_cookies : list cookie :=
  [Cookie (str "foo") (str "bar"); Cookie (str "zip") (str "a=b")].

Lemma two_cookies_ok : cookies_ok two_cookies.
Proof.
  split; [by apply (bool_decide_unpack _); vm_compute|].
  repeat constructor; simpl; try done;
    try (apply (bool_decide_unpack _); by vm_compute); by intros c [= <-].
Qed.

Lemma parse_header_witness :
  wp (vmod_parse (Some (str "foo=bar; zip=a=b")))
    (λ _ s', cookies s' = upserts [] two_cookies) fresh_task.
Proof.
  apply parse_header; [|done|by vm_compute].
  refine (header_cons [] (Cookie (str "foo") (str "bar"))
    [Cookie (str "zip") (str "a=b")] (str " zip=a=b") _ _ _).
  - constructor.
  - exact (Forall_inv (proj2 two_cookies_ok)).
  - refine (header_last [" "%char] (Cookie (str "zip") (str "a=b")) _ _).
    + by repeat constructor.
    + exact (Forall_inv (Forall_inv_tail (proj2 two_cookies_ok))).
Defined.

Lemma print_parse_roundtrip_witness :
  wp (out ← vmod_get_string; vmod_parse out)
    (λ _ s', cookies s' = two_cookies) (Task (Some two_cookies) 4096%Z []).
Proof.
  apply (print_parse_roundtrip (Task (Some two_cookies) 4096%Z [])).
  - exact two_cookies_ok.
  - by vm_compute.
Defined.

Lemma parse_total_wf_witness :
  wp (vmod_parse (Some (str "a;=; b c; d=e"))) (λ _ s', cookies_ok (cookies s')) fresh_task.
Proof. by apply parse_total_wf. Defined.

Lemma parse_empty_keeps_witness :
  wp (vmod_parse (Some [])) (λ _ s', cookies s' = two_cookies) (Task (Some two_cookies) 0%Z []).
Proof. by apply (parse_empty_keeps (Some []) (Task (Some two_cookies) 0%Z [])). Defined.

Definition some_ops : list op :=
  [OSet (Some (str "a")) (Some (str "1")); OSet (Some (str "b")) (Some (str "2"));
   OFilter (Some (str " b")); OGet (Some (str "a")); OIsset (Some (str "b"))].
Lemma operations_refine_map_witness :
  wp (run_ops some_ops)
    (λ l s', refines s' {[str "a" := str "1"]} ∧
      l = [ADone; ADone; ADone; AString (Some (str "1")); ABool false]) fresh_task.
Proof.
  eapply wp_mono; [apply (operations_refine_map some_ops fresh_task ∅)|].
  - split; [constructor|done].
  - by vm_compute.
  - intros l s' [Hr Hl]. split; [|by rewrite Hl; vm_compute].
    destruct Hr as [Hd Hm]. split; [done|]. rewrite Hm. by vm_compute.
Defined.
