(* ===== verification/SaintMode.v ===== *)
(** * vmod_saintmode: per-object and per-backend blacklists

    Models vmod_saintmode.c.  A saintmode object wraps a backend director;
    its trouble list holds the objects (hash digests) blacklisted until a
    timeout, and [n_trouble] counts them.  Objects live in a store indexed by
    their addresses; the VCL's private pointer holds the list of addresses
    (saintmode_objs).  The wrapped director is not part of the repository:
    its health function is the parameter [be_healthy].  The mutex of an
    object is held from the first to the last access of its trouble list in
    each function, so a function is one step. *)
From S2P Require Import Prelude CStr Workspace Double.

Abbreviation loc := positive.
(** A [const struct director *]. *)
Abbreviation director := positive.

Record trouble := Trouble { digest : bytes; timeout : double }.

Record saintmode := Saintmode {
  vcl_name : bytes;        (* sdir->vcl_name *)
  be : director;
  threshold : Z;           (* unsigned *)
  n_trouble : Z;           (* unsigned *)
  troublelist : list trouble;
}.

Record sm_state := SmState {
  objects : gmap loc saintmode;   (* allocated objects *)
  sm_objs : option (list loc);    (* priv->priv: NULL or its sm_list *)
  next_loc : loc;                 (* malloc: the next free address *)
}.

Inductive vcl_method :=
| VCL_MET_RECV | VCL_MET_HASH | VCL_MET_HIT | VCL_MET_MISS | VCL_MET_DELIVER
| VCL_MET_BACKEND_FETCH | VCL_MET_BACKEND_RESPONSE | VCL_MET_OTHER.
#[export] Instance vcl_method_eq_dec : EqDecision vcl_method.
Proof. solve_decision. Defined.

Record busyobj := Busyobj {
  bo_digest : bytes;
  bo_t_prev : double;
  bo_director_resp : option director;
}.
Record request := Request { req_digest : bytes; req_t_prev : double }.
(** What the functions read of [ctx]. *)
Record vrt_ctx := VrtCtx {
  method : vcl_method;
  req : option request;
  bo : option busyobj;
}.

Section operations.
Context {W : Type} `{Workspace W}.
Context (be_healthy : director → option busyobj → bool).
Context (be_name : director → bytes).   (* be->vcl_name *)
Abbreviation sm_m := (M (task sm_state W)).

Definition get_sm (sm : loc) : sm_m saintmode :=
  st ← getsS priv; derefM (objects st !! sm) "struct vmod_saintmode_saintmode".
Definition put_sm (sm : loc) (o : saintmode) : sm_m unit :=
  st ← getsS priv;
  set_priv (SmState (<[sm := o]> (objects st)) (sm_objs st) (next_loc st)).

Definition set_trouble (o : saintmode) (l : list trouble) (n : Z) : saintmode :=
  Saintmode (vcl_name o) (be o) (threshold o) n l.

(** &sm->sdir: the director and its object share an address. *)
Definition vmod_saintmode_backend (sm : loc) : sm_m loc := _ ← get_sm sm; mret sm.

(** The loop over sm_list; every element is dereferenced on the way. *)
Fixpoint find_sm_in (l : list loc) (d : director) : sm_m (option loc) :=
  match l with
  | [] => mret None
  | sm :: l' =>
      o ← get_sm sm;
      if decide (be o = d) then mret (Some sm) else find_sm_in l' d
  end.
Definition find_sm (l : list loc) (d : option director) : sm_m (option loc) :=
  match d with
  | None => panic "CHECK_OBJ_NOTNULL(be)"
  | Some d => find_sm_in l d
  end.

Definition vmod_blacklist (ctx : vrt_ctx) (expires : double) : sm_m unit :=
  st ← getsS priv;
  match sm_objs st with
  | None => VSLb SLT_VCL_Error
      (str "saintmode.blacklist(): Saintmode is not configured")
  | Some objs =>
      if decide (method ctx ≠ VCL_MET_BACKEND_RESPONSE) then
        VSLb SLT_VCL_Error
          (str "saintmode.blacklist() called outside of vcl_backend_response")
      else
        match bo ctx with
        | None => panic "CHECK_OBJ_NOTNULL(ctx->bo)"
        | Some b =>
            r ← find_sm objs (bo_director_resp b);
            match r with
            | None => VSLb SLT_VCL_Error
                (str "Error: saintmode.blacklist(): Saintmode not configured for this backend.")
            | Some sm =>
                o ← get_sm sm;
                let tp := Trouble (bo_digest b) (dadd (bo_t_prev b) expires) in
                put_sm sm (set_trouble o (tp :: troublelist o) (u32 (n_trouble o + 1)));;;
                VSLb SLT_VCL_Log
                  (str "saintmode: object put on blacklist for backend " ++ be_name (be o)
                   ++ str " for " ++ print_f2 expires ++ str " seconds")
            end
        end
  end.

Definition vmod_saintmode_blacklist_count (sm : loc) : sm_m Z :=
  o ← get_sm sm; mret (n_trouble o).

(** The VTAILQ_FOREACH_SAFE of is_digest_healthy: the verdict, the list
    and the count it leaves. *)
Fixpoint scan_trouble (now : double) (dg : option bytes) (l : list trouble) (n : Z)
    : bool * list trouble * Z :=
  match l with
  | [] => (true, [], n)
  | tr :: l' =>
      if dltb (timeout tr) now then scan_trouble now dg l' (u32 (n - 1))
      else
        if (match dg with Some d => bool_decide (digest tr = d) | None => false end)
        then (false, tr :: l', n)
        else
          let '(retval, kept, n) := scan_trouble now dg l' n in (retval, tr :: kept, n)
  end.

Definition is_digest_healthy (sm : loc) (dg : option bytes) (t_prev : double)
    (vsl : bool) : sm_m bool :=
  o ← get_sm sm;
  let '(retval, kept, n) := scan_trouble t_prev dg (troublelist o) (n_trouble o) in
  put_sm sm (set_trouble o kept n);;;
  let bl := negb retval in
  let retval := if (threshold o <=? n)%Z then false else retval in
  (if vsl then
     if bl then VSLb SLT_VCL_Log
       (str "saintmode: unhealthy: object blacklisted for backend " ++ be_name (be o))
     else if negb retval then VSLb SLT_VCL_Log
       (str "saintmode: unhealthy: hit threshold for backend " ++ be_name (be o))
     else mret tt
   else mret tt);;;
  mret retval.

(** [vtim_real] is what VTIM_real() returns when it is called. *)
Definition healthy (sm : loc) (b : option busyobj) (vtim_real : double) : sm_m bool :=
  o ← get_sm sm;
  if (threshold o =? 0)%Z || (n_trouble o =? 0)%Z then mret (be_healthy (be o) b)
  else
    let '(dg, t_prev, vsl) :=
      match b with
      | None => (None, vtim_real, false)
      | Some b => (Some (bo_digest b), bo_t_prev b, true)
      end in
    retval ← is_digest_healthy sm dg t_prev vsl;
    mret (if retval : bool then be_healthy (be o) b else false).

Definition vmod_saintmode_is_healthy (ctx : vrt_ctx) (sm : loc) (vtim_real : double)
    : sm_m bool :=
  match req ctx with
  | Some r =>
      let dg := if bool_decide (method ctx = VCL_MET_RECV ∨ method ctx = VCL_MET_HASH)
                then None else Some (req_digest r) in
      is_digest_healthy sm dg (req_t_prev r) true
  | None => healthy sm (bo ctx) vtim_real
  end.

Definition resolve (sm : loc) (b : option busyobj) (vtim_real : double)
    : sm_m (option director) :=
  h ← healthy sm b vtim_real;
  if negb h then mret None else o ← get_sm sm; mret (Some (be o)).

Definition vmod_saintmode__init (name : bytes) (d : option director) (thr : Z)
    : sm_m loc :=
  st ← getsS priv;
  let sm := next_loc st in
  match d with
  | None => panic "CHECK_OBJ_NOTNULL(be)"
  | Some d =>
      let objs := match sm_objs st with None => [] | Some l => l end in
      set_priv (SmState (<[sm := Saintmode name d (u32 thr) 0 []]> (objects st))
                  (Some (objs ++ [sm])) (Pos.succ sm));;;
      mret sm
  end.

(** The object is freed; it is not taken off sm_list. *)
Definition vmod_saintmode__fini (sm : loc) : sm_m unit :=
  _ ← get_sm sm;
  st ← getsS priv;
  set_priv (SmState (delete sm (objects st)) (sm_objs st) (next_loc st)).

(** *** The status report *)
Definition dq : bytes := ["034"%char].
Definition nl : bytes := ["010"%char].
Definition tab : bytes := ["009"%char].
(** A printf of ["\"k\": \"v\"sep"]. *)
Definition member (k : string) (v sep : bytes) : bytes :=
  dq ++ str k ++ dq ++ str ": " ++ dq ++ v ++ dq ++ sep.

(** What one turn of the loop appends; [next] is VTAILQ_NEXT(sm) != NULL. *)
Definition status_line (o : saintmode) (next : bool) : bytes :=
  tab ++ tab ++ str "{ " ++
  member "name" (vcl_name o) (str ", ") ++
  member "backend" (be_name (be o)) (str ", ") ++
  member "count" (print_Z (n_trouble o)) (str ", ") ++
  member "threshold" (print_Z (threshold o)) (str " ") ++
  str "}" ++ (if next then str "," else []) ++ nl.
Fixpoint status_loop (l : list loc) (vsb : bytes) : sm_m bytes :=
  match l with
  | [] => mret vsb
  | sm :: l' =>
      o ← get_sm sm;
      status_loop l' (vsb ++ status_line o (negb (bool_decide (l' = []))))
  end.
Definition vmod_status : sm_m (option bytes) :=
  st ← getsS priv;
  match sm_objs st with
  | None => panic "CAST_OBJ_NOTNULL(sm_objs)"
  | Some objs =>
      vsb ← status_loop objs
        (str "{" ++ nl ++ tab ++ dq ++ str "saintmode" ++ dq ++ str ": [" ++ nl);
      let vsb := vsb ++ tab ++ str "]" ++ nl ++ str "}" ++ nl in
      p ← ws_call (WS_Copy vsb);
      if p : bool then mret (Some vsb)
      else VSLb SLT_VCL_Log (str "saintmode.vmod_status: workspace overflow");;; mret None
  end.
End operations.

(** ** The trouble list *)

(** An entry is live at [now] until its timeout has passed. *)
Definition live (now : double) (tr : trouble) : Prop := dltb (timeout tr) now = false.
#[export] Instance live_dec now tr : Decision (live now tr).
Proof. unfold live. apply _. Defined.
Definition names (dg : option bytes) (tr : trouble) : Prop := Some (digest tr) = dg.
#[export] Instance names_dec dg tr : Decision (names dg tr).
Proof. unfold names. apply _. Defined.

(** n_trouble counts the entries (modulo its width). *)
Definition sm_ok (o : saintmode) : Prop :=
  n_trouble o = u32 (Z.of_nat (length (troublelist o))).

(** An object is blacklisted: a live entry holds its digest. *)
Definition blacklisted (now : double) (dg : option bytes) (l : list trouble) : Prop :=
  Exists (λ tr, live now tr ∧ names dg tr) l.

Section scanning.
Implicit Types (l : list trouble) (now : double) (dg : option bytes).

Lemma u32_succ n : u32 (u32 n + 1) = u32 (n + 1).
Proof. unfold u32. by rewrite Zplus_mod_idemp_l. Qed.
Lemma u32_pred n : u32 (u32 n - 1) = u32 (n - 1).
Proof. unfold u32. by rewrite Zminus_mod_idemp_l. Qed.

Lemma names_match dg tr :
  (match dg with Some d => bool_decide (digest tr = d) | None => false end) =
    bool_decide (names dg tr).
Proof.
  unfold names. destruct dg as [d|]; [|by rewrite bool_decide_eq_false_2].
  apply bool_decide_ext. naive_solver.
Qed.

Lemma blacklisted_cons now dg tr l :
  blacklisted now dg (tr :: l) ↔ live now tr ∧ names dg tr ∨ blacklisted now dg l.
Proof. unfold blacklisted. by rewrite Exists_cons. Qed.

(** The scan in one statement: its verdict, that it drops only expired
    entries, and the count. *)
Lemma scan_trouble_spec now dg l k :
  let '(retval, kept, n) := scan_trouble now dg l (u32 (k + Z.of_nat (length l))) in
  (retval = true ↔ ¬ blacklisted now dg l) ∧
  (retval = true → kept = filter (live now) l) ∧
  filter (live now) kept = filter (live now) l ∧
  kept `sublist_of` l ∧
  n = u32 (k + Z.of_nat (length kept)).
Proof.
  revert k. induction l as [|tr l IH]; intros k; cbn [scan_trouble].
  { split; [|done]. split; [by intros _ ?%Exists_nil|done]. }
  rewrite names_match. cbn [length].
  destruct (dltb (timeout tr) now) eqn:Elive.
  - rewrite u32_pred. replace (k + Z.of_nat (S (length l)) - 1)%Z
      with (k + Z.of_nat (length l))%Z by lia.
    specialize (IH k). destruct (scan_trouble _ _ _ _) as [[retval kept] n].
    destruct IH as (H1 & H2 & H3 & H4 & H5).
    assert (¬ live now tr) as Hl by (unfold live; congruence).
    rewrite blacklisted_cons, filter_cons, decide_False by done.
    split; [rewrite H1; tauto|]. split_and!; try done. by apply sublist_cons.
  - assert (live now tr) as Hl by done.
    case_bool_decide as Hn.
    + rewrite blacklisted_cons, filter_cons, decide_True by done.
      split; [naive_solver|]. split_and!; done.
    + replace (u32 (k + Z.of_nat (S (length l))))
        with (u32 ((k + 1) + Z.of_nat (length l))) by (f_equal; lia).
      specialize (IH (k + 1)%Z). destruct (scan_trouble _ _ _ _) as [[retval kept] n].
      destruct IH as (H1 & H2 & H3 & H4 & H5).
      rewrite blacklisted_cons, !filter_cons, !decide_True by done.
      split; [rewrite H1; tauto|]. split_and!.
      * intros Hr. by rewrite H2.
      * by rewrite H3.
      * by apply sublist_skip.
      * subst n. f_equal. simpl. lia.
Qed.
End scanning.

(** ** The state invariant *)
Record st_ok (st : sm_state) : Prop := StOk {
  ok_counts : map_Forall (λ _ o, sm_ok o) (objects st);
  ok_listed : ∀ l, sm_objs st = Some l →
    Forall (λ sm, is_Some (objects st !! sm)) l;
  ok_fresh : ∀ sm, is_Some (objects st !! sm) → (sm < next_loc st)%positive;
}.

Lemma st_ok_sm st sm o : st_ok st → objects st !! sm = Some o → sm_ok o.
Proof. intros [Hc _ _] Ho. exact (map_Forall_lookup_1 _ _ _ _ Hc Ho). Qed.

(** [tr] is on the trouble list of [sm]. *)
Definition held (sm : loc) (tr : trouble) (st : sm_state) : Prop :=
  ∃ o, objects st !! sm = Some o ∧ tr ∈ troublelist o.

(** ** The life of a VCL: load, run, unload *)
Inductive sm_op :=
| Op_init (name : bytes) (d : option director) (thr : Z)
| Op_backend (sm : loc)
| Op_blacklist (ctx : vrt_ctx) (expires : double)
| Op_status
| Op_count (sm : loc)
| Op_is_healthy (ctx : vrt_ctx) (sm : loc) (vtim_real : double)
| Op_healthy (sm : loc) (b : option busyobj) (vtim_real : double)
| Op_resolve (sm : loc) (b : option busyobj) (vtim_real : double).

(** What the VCL compiler and Varnish guarantee of a call: the object
    argument was made by the constructor, and a fetch in vcl_backend_response
    has a busyobj with its backend. *)
Definition op_pre (op : sm_op) (st : sm_state) : Prop :=
  match op with
  | Op_init _ _ _ => True
  | Op_backend sm | Op_count sm | Op_is_healthy _ sm _ | Op_healthy sm _ _
  | Op_resolve sm _ _ => is_Some (objects st !! sm)
  | Op_blacklist ctx _ => method ctx = VCL_MET_BACKEND_RESPONSE →
      ∃ b d, bo ctx = Some b ∧ bo_director_resp b = Some d
  | Op_status => True
  end.

(** The calls a VCL may make that fail: status() before any object was made,
    CAST_OBJ_NOTNULL(sm_objs, priv->priv, ..), and a constructor whose
    backend argument is NULL. *)
Definition op_fails (op : sm_op) (st : sm_state) : bool :=
  match op, sm_objs st with
  | Op_init _ None _, _ | Op_status, None => true
  | _, _ => false
  end.

(** The instant a check compares the timeouts with. *)
Definition op_time (op : sm_op) : option double :=
  match op with
  | Op_is_healthy ctx _ now =>
      Some match req ctx with
           | Some r => req_t_prev r
           | None => default now (bo_t_prev <$> bo ctx)
           end
  | Op_healthy _ b now | Op_resolve _ b now => Some (default now (bo_t_prev <$> b))
  | _ => None
  end.
(** [op] is not a check at an instant later than the timeout of [tr]. *)
Definition op_before (tr : trouble) (op : sm_op) : Prop :=
  ∀ t, op_time op = Some t → live t tr.

Section runs.
Context {W : Type} `{Workspace W}.
Context (be_healthy : director → option busyobj → bool).
Context (be_name : director → bytes).

Definition run_op (op : sm_op) : M (task sm_state W) unit :=
  match op with
  | Op_init name d thr => _ ← vmod_saintmode__init name d thr; mret tt
  | Op_backend sm => _ ← vmod_saintmode_backend sm; mret tt
  | Op_blacklist ctx expires => vmod_blacklist be_name ctx expires
  | Op_status => _ ← vmod_status be_name; mret tt
  | Op_count sm => _ ← vmod_saintmode_blacklist_count sm; mret tt
  | Op_is_healthy ctx sm now =>
      _ ← vmod_saintmode_is_healthy be_healthy be_name ctx sm now; mret tt
  | Op_healthy sm b now => _ ← healthy be_healthy be_name sm b now; mret tt
  | Op_resolve sm b now => _ ← resolve be_healthy be_name sm b now; mret tt
  end.

Definition sm_fresh_state : sm_state := SmState ∅ None 1.
(** The calls [ops], one after the other; each of them returns. *)
Inductive runs : list sm_op → relation (task sm_state W) :=
| runs_nil s : runs [] s s
| runs_cons op ops s s1 s2 :
    op_pre op (priv s) → run_op op s = Ret (tt, s1) → runs ops s1 s2 →
    runs (op :: ops) s s2.
Definition reachable (s : task sm_state W) : Prop :=
  ∃ ops w g, runs ops (Task sm_fresh_state w g) s.

(** Unloading: the destructors, one per object. *)
Fixpoint unload (sms : list loc) : M (task sm_state W) unit :=
  match sms with
  | [] => mret tt
  | sm :: sms' => vmod_saintmode__fini sm;;; unload sms'
  end.
End runs.

Section behaviour.
Context {W : Type} `{Workspace W}.
Implicit Types (s : task sm_state W) (st : sm_state) (o : saintmode).

Lemma wp_get_sm sm (Q : saintmode → task sm_state W → Prop) s :
  wp (get_sm sm) Q s ↔ ∃ o, objects (priv s) !! sm = Some o ∧ Q o s.
Proof. unfold get_sm. rewrite wp_bind, wp_getsS. apply wp_derefM. Qed.
Lemma wp_put_sm sm o (Q : unit → task sm_state W → Prop) s :
  wp (put_sm sm o) Q s ↔
  Q tt (Task (SmState (<[sm := o]> (objects (priv s))) (sm_objs (priv s))
                (next_loc (priv s))) (ws s) (vsl s)).
Proof. done. Qed.

(** Replacing an object by another keeps the invariant. *)
Lemma st_ok_put st sm o o' :
  st_ok st → objects st !! sm = Some o → sm_ok o' →
  st_ok (SmState (<[sm := o']> (objects st)) (sm_objs st) (next_loc st)).
Proof.
  intros [Hc Hl Hf] Ho Ho'. split; simpl.
  - by apply map_Forall_insert_2.
  - intros l Hsl. eapply Forall_impl; [by apply Hl|]. intros sm' Hsm'.
    apply lookup_insert_is_Some'. by right.
  - intros sm' [->|Hsm']%lookup_insert_is_Some'; apply Hf; [by eexists|done].
Qed.

Lemma held_put st sm o o' sm' tr :
  objects st !! sm = Some o → (tr ∈ troublelist o → tr ∈ troublelist o') →
  held sm' tr st →
  held sm' tr (SmState (<[sm := o']> (objects st)) (sm_objs st) (next_loc st)).
Proof.
  intros Ho Hin (o1 & Ho1 & Htr). unfold held. simpl. destruct (decide (sm = sm')) as [<-|Hne].
  - exists o'. rewrite lookup_insert_eq. split; [done|]. apply Hin. congruence.
  - exists o1. by rewrite lookup_insert_ne.
Qed.

(** What every call keeps: the invariant, and the entries it does not find
    expired. *)
Definition kept_by (t : option double) st st' : Prop :=
  st_ok st' ∧
  ∀ sm tr, (∀ now, t = Some now → live now tr) → held sm tr st → held sm tr st'.

Lemma wp_find_sm_in d l s (Q : option loc → task sm_state W → Prop) :
  Forall (λ sm, is_Some (objects (priv s) !! sm)) l →
  (∀ sm o, sm ∈ l → objects (priv s) !! sm = Some o → be o = d → Q (Some sm) s) →
  ((∀ sm o, sm ∈ l → objects (priv s) !! sm = Some o → be o ≠ d) → Q None s) →
  wp (find_sm_in l d) Q s.
Proof.
  intros Hl HS HN. induction Hl as [|sm l [o Ho] Hl IH]; cbn [find_sm_in]; wp_go.
  - apply HN. set_solver.
  - apply wp_get_sm. exists o. split; [done|]. case_decide as Hd; wp_go.
    + by eapply HS; [set_solver|..].
    + apply IH; [intros; eapply HS; eauto; set_solver|].
      intros Hn. apply HN. intros sm' o' [->|Hin]%elem_of_cons Ho'; [congruence|eauto].
Qed.

Context (be_name : director → bytes).

(** is_digest_healthy, completely. *)
Definition health_post (sm : loc) (dg : option bytes) (now : double) s o
    (ret : bool) s' : Prop :=
  ∃ kept,
    priv s' = SmState
      (<[sm := set_trouble o kept (u32 (Z.of_nat (length kept)))]> (objects (priv s)))
      (sm_objs (priv s)) (next_loc (priv s)) ∧
    filter (live now) kept = filter (live now) (troublelist o) ∧
    kept `sublist_of` troublelist o ∧
    (ret = true ↔
       ¬ blacklisted now dg (troublelist o) ∧
       (u32 (Z.of_nat (length (filter (live now) (troublelist o)))) < threshold o)%Z).

Lemma wp_is_digest_healthy sm dg now v s o :
  objects (priv s) !! sm = Some o → sm_ok o →
  wp (is_digest_healthy be_name sm dg now v) (health_post sm dg now s o) s.
Proof.
  intros Ho Hok. unfold is_digest_healthy. wp_go. apply wp_get_sm. exists o.
  split; [done|]. rewrite Hok. pose proof (scan_trouble_spec now dg (troublelist o) 0) as Hs.
  rewrite Z.add_0_l in Hs. destruct (scan_trouble _ _ _ _) as [[retval kept] n].
  destruct Hs as (H1 & H2 & H3 & H4 & ->). wp_go. apply wp_put_sm.
  assert (∀ ret g, ret = (if (threshold o <=? u32 (Z.of_nat (length kept)))%Z
                          then false else retval) →
    health_post sm dg now s o ret (Task (SmState
      (<[sm := set_trouble o kept (u32 (Z.of_nat (length kept)))]> (objects (priv s)))
      (sm_objs (priv s)) (next_loc (priv s))) (ws s) g)) as Hend.
  { intros ret g ->. exists kept. do 3 (split; [done|]).
    destruct (Z.leb_spec (threshold o) (u32 (Z.of_nat (length kept)))) as [Ht|Ht].
    - split; [done|]. intros [Hb%H1 Hlt]. rewrite <-(H2 Hb) in Hlt. lia.
    - rewrite H1. split; [|tauto]. intros Hb. split; [done|].
      by rewrite <-(H2 (proj2 H1 Hb)). }
  rewrite Z.add_0_l. destruct v, retval; simpl; wp_go; try (by apply Hend);
    case_match eqn:E; wp_go; by apply Hend; rewrite ?E.
Qed.

Lemma health_post_kept sm dg now s o ret s' :
  st_ok (priv s) → objects (priv s) !! sm = Some o →
  health_post sm dg now s o ret s' → kept_by (Some now) (priv s) (priv s').
Proof.
  intros Hok Ho (kept & -> & Hf & _). split; [by eapply st_ok_put|].
  intros sm' tr Hlive. eapply held_put; [done|]. simpl. intros Hin.
  assert (tr ∈ filter (live now) kept) as Hk; [|by apply list_elem_of_filter in Hk as [_ ?]].
  rewrite Hf. apply list_elem_of_filter. auto.
Qed.
Lemma health_post_ok sm dg now s o ret s' :
  st_ok (priv s) → objects (priv s) !! sm = Some o →
  health_post sm dg now s o ret s' → st_ok (priv s').
Proof. intros Hok Ho Hp. apply (health_post_kept _ _ _ _ _ _ _ Hok Ho Hp). Qed.
Lemma kept_by_refl t st : st_ok st → kept_by t st st.
Proof. by split. Qed.

(** The loop of find_sm stops at the first object of the backend. *)
Lemma wp_find_sm_first d l1 sm l2 o s (Q : option loc → task sm_state W → Prop) :
  Forall (λ sm, ∃ o, objects (priv s) !! sm = Some o ∧ be o ≠ d) l1 →
  objects (priv s) !! sm = Some o → be o = d →
  Q (Some sm) s → wp (find_sm_in (l1 ++ sm :: l2) d) Q s.
Proof.
  intros Hl Ho Hbe HQ. induction Hl as [|sm1 l1 (o1 & Ho1 & Hne) Hl IH];
    cbn [find_sm_in app]; wp_go; apply wp_get_sm.
  - exists o. split; [done|]. rewrite decide_True by done. by wp_go.
  - exists o1. split; [done|]. by rewrite decide_False.
Qed.

(** vmod_blacklist on its successful path. *)
Lemma wp_vmod_blacklist_ok ctx expires b d sm o s (Q : unit → task sm_state W → Prop) l1 l2 :
  sm_objs (priv s) = Some (l1 ++ sm :: l2) →
  method ctx = VCL_MET_BACKEND_RESPONSE → bo ctx = Some b →
  bo_director_resp b = Some d →
  Forall (λ sm, ∃ o, objects (priv s) !! sm = Some o ∧ be o ≠ d) l1 →
  objects (priv s) !! sm = Some o → be o = d →
  (∀ g, Q tt (Task (SmState (<[sm := set_trouble o
          (Trouble (bo_digest b) (dadd (bo_t_prev b) expires) :: troublelist o)
          (u32 (n_trouble o + 1))]> (objects (priv s)))
          (sm_objs (priv s)) (next_loc (priv s))) (ws s) g)) →
  wp (vmod_blacklist be_name ctx expires) Q s.
Proof.
  intros Hobjs Hm Hb Hd Hl1 Ho Hbe HQ. unfold vmod_blacklist. wp_go.
  rewrite Hobjs, decide_False, Hb by (rewrite Hm; tauto). wp_go. unfold find_sm.
  rewrite Hd. apply (wp_find_sm_first _ _ _ _ o); [done..|]. wp_go.
  apply wp_get_sm. exists o. split; [done|]. wp_go. apply wp_put_sm. wp_go. apply HQ.
Qed.

(** One more entry at the head of the list, and one more counted. *)
Lemma sm_ok_cons o tr :
  sm_ok o → sm_ok (set_trouble o (tr :: troublelist o) (u32 (n_trouble o + 1))).
Proof. unfold sm_ok. simpl. intros ->. rewrite u32_succ. f_equal. lia. Qed.

Context (be_healthy : director → option busyobj → bool).

(** The director's health function. *)
Lemma wp_healthy sm b now s o :
  st_ok (priv s) → objects (priv s) !! sm = Some o →
  let dg := bo_digest <$> b in
  let t := default now (bo_t_prev <$> b) in
  wp (healthy be_healthy be_name sm b now) (λ ret s',
    kept_by (Some t) (priv s) (priv s') ∧
    (∃ o', objects (priv s') !! sm = Some o' ∧ be o' = be o) ∧
    (ret = true ↔ be_healthy (be o) b = true ∧
      (threshold o = 0%Z ∨ n_trouble o = 0%Z ∨
       ¬ blacklisted t dg (troublelist o) ∧
       (u32 (Z.of_nat (length (filter (live t) (troublelist o)))) < threshold o)%Z))) s.
Proof.
  intros Hok Ho dg t. unfold healthy. wp_go. apply wp_get_sm. exists o. split; [done|].
  destruct ((threshold o =? 0)%Z || (n_trouble o =? 0)%Z) eqn:Hoff; wp_go.
  - apply orb_true_iff in Hoff. rewrite !Z.eqb_eq in Hoff.
    split; [by apply kept_by_refl|split; [by exists o|]]. tauto.
  - apply orb_false_iff in Hoff as [H1%Z.eqb_neq H2%Z.eqb_neq].
    assert (∀ v, wp (is_digest_healthy be_name sm dg t v) (health_post sm dg t s o) s) as Hh.
    { intros v. apply wp_is_digest_healthy; [done|]. by eapply st_ok_sm. }
    assert (∀ ret s', health_post sm dg t s o ret s' →
      kept_by (Some t) (priv s) (priv s') ∧
      (∃ o', objects (priv s') !! sm = Some o' ∧ be o' = be o) ∧
      ((if ret : bool then be_healthy (be o) b else false) = true ↔
        be_healthy (be o) b = true ∧
        (threshold o = 0%Z ∨ n_trouble o = 0%Z ∨
         ¬ blacklisted t dg (troublelist o) ∧
         (u32 (Z.of_nat (length (filter (live t) (troublelist o)))) < threshold o)%Z))) as Hend.
    { intros ret s' Hp. split; [by eapply health_post_kept|].
      destruct Hp as (kept & -> & _ & _ & Hret). simpl. split.
      { exists (set_trouble o kept (u32 (Z.of_nat (length kept)))).
        split; [apply lookup_insert_eq|done]. }
      destruct ret.
      - destruct (proj1 Hret eq_refl). tauto.
      - split; [done|]. intros [_ [?|[?|?%Hret]]]; done. }
    destruct b as [b|]; wp_go; (eapply wp_mono; [apply Hh|]);
      intros ret s' Hp; wp_go; by apply Hend.
Qed.
Lemma st_ok_init st name d thr :
  st_ok st →
  st_ok (SmState (<[next_loc st := Saintmode name d (u32 thr) 0 []]> (objects st))
           (Some (default [] (sm_objs st) ++ [next_loc st])) (Pos.succ (next_loc st))).
Proof.
  intros [Hc Hl Hf]. split; simpl.
  - by apply map_Forall_insert_2.
  - intros l [= <-]. apply Forall_app. split; [|apply Forall_singleton].
    + destruct (sm_objs st) as [l|]; [|constructor]. simpl.
      eapply Forall_impl; [by apply Hl|]. intros sm ?.
      apply lookup_insert_is_Some'. by right.
    + apply lookup_insert_is_Some'. by left.
  - intros sm [<-|Hsm]%lookup_insert_is_Some'; [lia|]. specialize (Hf sm Hsm). lia.
Qed.

Lemma wp_status_loop l vsb s (Q : bytes → task sm_state W → Prop) :
  Forall (λ sm, is_Some (objects (priv s) !! sm)) l →
  (∀ v, Q v s) → wp (status_loop be_name l vsb) Q s.
Proof.
  intros Hl HQ. revert vsb. induction Hl as [|sm l [o Ho] Hl IH]; intros vsb;
    cbn [status_loop]; wp_go; [done|].
  apply wp_get_sm. exists o. split; [done|]. wp_go. apply IH.
Qed.

(** Every operation that does not fail runs to its end and keeps the
    invariant and the live entries. *)
Lemma wp_sm_op op s :
  st_ok (priv s) → op_pre op (priv s) → op_fails op (priv s) = false →
  wp (run_op be_healthy be_name op) (λ _ s', kept_by (op_time op) (priv s) (priv s')) s.
Proof.
  intros Hok Hpre Hf.
  destruct op as [name d thr|sm|ctx expires| |sm|ctx sm now|sm b now|sm b now];
    cbn [run_op op_pre op_fails op_time] in *.
  - destruct d as [d|]; [|done]. unfold vmod_saintmode__init. wp_go. simpl. wp_go.
    replace (match sm_objs (priv s) with None => [] | Some l => l end)
      with (default [] (sm_objs (priv s))) by (by destruct (sm_objs _)).
    split; [by apply st_ok_init|]. intros sm tr _ (o & Ho & Htr). exists o. split; [|done].
    simpl. rewrite lookup_insert_ne; [done|]. intros Heq.
    pose proof (ok_fresh _ Hok sm (mk_is_Some _ _ Ho)). lia.
  - destruct Hpre as [o Ho]. unfold vmod_saintmode_backend. wp_go.
    apply wp_get_sm. exists o. split; [done|]. wp_go. by apply kept_by_refl.
  - unfold vmod_blacklist. wp_go. destruct (sm_objs (priv s)) as [l|] eqn:Hl;
      [|wp_go; by apply kept_by_refl].
    case_decide as Hm; wp_go; [by apply kept_by_refl|].
    destruct (Hpre Hm) as (b & d & -> & Hd). wp_go. unfold find_sm.
    rewrite Hd. apply wp_find_sm_in;
      [by apply (ok_listed _ Hok)| |intros _; wp_go; by apply kept_by_refl].
    intros sm o Hin Ho Hbe. wp_go. apply wp_get_sm. exists o. split; [done|]. wp_go.
    apply wp_put_sm. wp_go. split.
    + eapply st_ok_put; [done..|]. apply sm_ok_cons. by eapply st_ok_sm.
    + intros sm' tr _. eapply held_put; [done|]. simpl. set_solver.
  - destruct (sm_objs (priv s)) as [l|] eqn:Hl; [|done]. unfold vmod_status. wp_go.
    rewrite Hl. wp_go. apply wp_status_loop; [by apply (ok_listed _ Hok)|]. intros v. wp_go.
    apply wp_ws_call. case_match; wp_go; by apply kept_by_refl.
  - destruct Hpre as [o Ho]. unfold vmod_saintmode_blacklist_count. wp_go.
    apply wp_get_sm. exists o. split; [done|]. wp_go. by apply kept_by_refl.
  - destruct Hpre as [o Ho]. unfold vmod_saintmode_is_healthy. wp_go.
    destruct (req ctx) as [r|].
    + eapply wp_mono; [by apply wp_is_digest_healthy; eauto using st_ok_sm|].
      intros ret s' Hp. wp_go. by eapply health_post_kept.
    + eapply wp_mono; [by apply wp_healthy|]. intros ret s' (? & _). by wp_go.
  - destruct Hpre as [o Ho]. wp_go.
    eapply wp_mono; [by apply wp_healthy|]. intros ret s' (? & _). by wp_go.
  - destruct Hpre as [o Ho]. unfold resolve. wp_go.
    eapply wp_mono; [by apply wp_healthy|].
    intros [] s' (? & (o' & Ho' & _) & _); wp_go; simpl; wp_go; [|done].
    apply wp_get_sm. exists o'. split; [done|]. by wp_go.
Qed.

(** The calls [op_fails] lists stop at an assertion. *)
Lemma failing_op op s :
  op_fails op (priv s) = true → ∃ w, run_op be_healthy be_name op s = Panic w.
Proof.
  destruct op as [name [d|] thr|sm|ctx expires| |sm|ctx sm now|sm b now|sm b now];
    cbn [op_fails]; try (by destruct (sm_objs (priv s))); intros Hf.
  - by eexists.
  - destruct (sm_objs (priv s)) as [l|] eqn:Hl; [done|].
    exists "CAST_OBJ_NOTNULL(sm_objs)"%string. unfold run_op, vmod_status.
    unfold mbind, M_bind, getsS. by rewrite Hl.
Qed.

(** A call that returned is none of them. *)
Lemma returned_op op s s' :
  run_op be_healthy be_name op s = Ret (tt, s') → op_fails op (priv s) = false.
Proof.
  intros Hrun. destruct (op_fails op (priv s)) eqn:Hf; [|done].
  destruct (failing_op op s Hf) as [w Hw]. congruence.
Qed.

(** The invariant, and an entry until its timeout, along a sequence. *)
Lemma runs_kept ops s s' :
  runs be_healthy be_name ops s s' → st_ok (priv s) →
  st_ok (priv s') ∧
  ∀ sm tr, Forall (op_before tr) ops → held sm tr (priv s) → held sm tr (priv s').
Proof.
  induction 1 as [s|op ops s s1 s2 Hpre Hrun _ IH]; intros Hok; [done|].
  pose proof (wp_sm_op op s Hok Hpre (returned_op _ _ _ Hrun)) as Hwp.
  unfold wp in Hwp. rewrite Hrun in Hwp. destruct Hwp as [Hok1 Hk].
  destruct (IH Hok1) as [Hok2 Hk2]. split; [done|].
  intros sm tr [Hop Hops]%Forall_cons Hheld. apply Hk2; [done|]. by apply Hk.
Qed.
Lemma reachable_ok s : reachable be_healthy be_name s → st_ok (priv s).
Proof.
  intros (ops & w & g & Hruns). apply (runs_kept _ _ _ Hruns). split; simpl.
  - by apply map_Forall_empty.
  - done.
  - intros sm. rewrite lookup_empty. by intros [? [=]].
Qed.

Lemma wp_unload sms s :
  NoDup sms → Forall (λ sm, is_Some (objects (priv s) !! sm)) sms →
  wp (unload sms) (λ _ s',
    ∀ sm, objects (priv s') !! sm = if decide (sm ∈ sms) then None else objects (priv s) !! sm) s.
Proof.
  clear be_name be_healthy.
  intros Hnd. revert s. induction Hnd as [|sm sms Hin Hnd IH]; intros s Hall;
    cbn [unload]; wp_go.
  - done.
  - apply Forall_cons in Hall as [[o Ho] Hall]. unfold vmod_saintmode__fini. wp_go.
    apply wp_get_sm. exists o. split; [done|]. wp_go. eapply wp_mono; [apply IH; simpl|].
    + apply Forall_forall. intros sm' Hsm'. rewrite lookup_delete_ne by (by intros ->).
      by apply (proj1 (Forall_forall _ _) Hall).
    + intros [] s' Hs' sm'. rewrite Hs'. simpl.
      destruct (decide (sm' = sm)) as [->|Hne].
      * rewrite (decide_True (P := sm ∈ sm :: sms)) by set_solver.
        case_decide; [done|]. apply lookup_delete_eq.
      * rewrite lookup_delete_ne by done. repeat case_decide; set_solver.
Qed.
End behaviour.

(** ** Properties *)
Section properties.
Context {W : Type} `{Workspace W}.
Context (be_name : director → bytes).
Implicit Types (s : task sm_state W) (o : saintmode).

(** C7: the saintmode verdict is exact: an object is healthy at a backend
    iff no unexpired entry holds its digest and fewer than [threshold]
    unexpired entries remain; the scan drops only expired entries, keeps
    every live one in order, and keeps n_trouble equal to the length of the
    list. *)
Theorem is_digest_healthy_exact sm dg now v s o :
  st_ok (priv s) → objects (priv s) !! sm = Some o →
  (Z.of_nat (length (troublelist o)) < 2 ^ 32)%Z →
  wp (is_digest_healthy be_name sm dg now v) (λ ret s',
    st_ok (priv s') ∧
    (ret = true ↔
       (∀ tr, tr ∈ troublelist o → live now tr → Some (digest tr) ≠ dg) ∧
       (Z.of_nat (length (filter (live now) (troublelist o))) < threshold o)%Z) ∧
    ∃ kept, objects (priv s') = <[sm := set_trouble o kept (Z.of_nat (length kept))]>
              (objects (priv s)) ∧
      kept `sublist_of` troublelist o ∧
      filter (live now) kept = filter (live now) (troublelist o)) s.
Proof.
  intros Hok Ho Hlen.
  eapply wp_mono; [by apply wp_is_digest_healthy; eauto using st_ok_sm|].
  intros ret s' Hp. split; [by eapply health_post_ok|].
  destruct Hp as (kept & -> & Hf & Hs & Hret).
  pose proof (sublist_length _ _ Hs). pose proof (length_filter (live now) (troublelist o)).
  unfold u32 in *. rewrite !Z.mod_small in * by lia. split.
  - rewrite Hret. unfold blacklisted. rewrite Exists_exists. unfold names. naive_solver.
  - by exists kept.
Qed.

(** The error branches of blacklist(): an unconfigured VCL, a call
    from another method than vcl_backend_response, and a backend without a
    saintmode object are reported by one SLT_VCL_Error record each and
    change neither the trouble lists nor the workspace. *)
Theorem blacklist_refused ctx expires s :
  st_ok (priv s) →
  (sm_objs (priv s) = None ∨
   (∃ l, sm_objs (priv s) = Some l) ∧ method ctx ≠ VCL_MET_BACKEND_RESPONSE ∨
   ∃ l b d, sm_objs (priv s) = Some l ∧ method ctx = VCL_MET_BACKEND_RESPONSE ∧
     bo ctx = Some b ∧ bo_director_resp b = Some d ∧
     (∀ sm o, sm ∈ l → objects (priv s) !! sm = Some o → be o ≠ d)) →
  wp (vmod_blacklist be_name ctx expires) (λ _ s',
    priv s' = priv s ∧ ws s' = ws s ∧
    ∃ msg, vsl s' = vsl s ++ [(SLT_VCL_Error, msg)]) s.
Proof.
  intros Hok Hcase. unfold vmod_blacklist. wp_go.
  destruct Hcase as [->|[[[l ->] Hm]|(l & b & d & Hl & Hm & Hb & Hd & Hno)]].
  - wp_go. eauto.
  - rewrite decide_True by done. wp_go. eauto.
  - rewrite Hl, decide_False, Hb by (rewrite Hm; tauto). wp_go. unfold find_sm. rewrite Hd.
    apply wp_find_sm_in; [by apply (ok_listed _ Hok)|intros sm o Hin Ho Hbe; by destruct (Hno sm o Hin Ho)|].
    intros _. wp_go. eauto.
Qed.

(** The lifetime restriction the destructor's comment states: once an
    object is finalised it is freed but stays on the list, so the next
    blacklist() that walks over it uses freed memory. *)
Theorem use_after_fini ctx expires b d sm o l s :
  objects (priv s) !! sm = Some o → sm_objs (priv s) = Some (sm :: l) →
  method ctx = VCL_MET_BACKEND_RESPONSE → bo ctx = Some b →
  bo_director_resp b = Some d →
  ∃ w, (vmod_saintmode__fini sm;;; vmod_blacklist be_name ctx expires) s = Undef w.
Proof.
  intros Ho Hl Hm Hb Hd. exists "struct vmod_saintmode_saintmode".
  unfold vmod_saintmode__fini, get_sm, derefM, getsS, set_priv, modifyS.
  unfold mbind, M_bind. rewrite Ho. cbn [mret M_ret].
  unfold vmod_blacklist, getsS, mbind, M_bind. cbn [priv ws vsl sm_objs objects].
  rewrite Hl, decide_False, Hb by (rewrite Hm; tauto). unfold find_sm. rewrite Hd.
  cbn [find_sm_in]. unfold get_sm, mbind, M_bind, getsS, derefM.
  cbn [priv objects]. by rewrite lookup_delete_eq.
Qed.
Context (be_healthy : director → option busyobj → bool).

(** C30: the health function the director exports: it asks the wrapped
    backend exactly when saintmode is off (threshold 0), has nothing
    recorded, or finds the object healthy; it never repairs a sick
    backend. resolve returns the wrapped backend exactly then. *)
Theorem director_exact sm b now s o :
  st_ok (priv s) → objects (priv s) !! sm = Some o →
  let t := default now (bo_t_prev <$> b) in
  let dg := bo_digest <$> b in
  let ok := be_healthy (be o) b = true ∧
    (threshold o = 0%Z ∨ n_trouble o = 0%Z ∨
     ¬ blacklisted t dg (troublelist o) ∧
     (u32 (Z.of_nat (length (filter (live t) (troublelist o)))) < threshold o)%Z) in
  wp (healthy be_healthy be_name sm b now) (λ ret _, ret = true ↔ ok) s ∧
  wp (resolve be_healthy be_name sm b now)
     (λ r _, r = Some (be o) ∧ ok ∨ r = None ∧ ¬ ok) s.
Proof.
  intros Hok Ho. cbv zeta.
  pose proof (wp_healthy be_name be_healthy sm b now s o Hok Ho) as Hh. cbv zeta in Hh.
  split; [eapply wp_mono; [apply Hh|]; naive_solver|].
  unfold resolve. wp_go. eapply wp_mono; [apply Hh|].
  intros [] s' (_ & (o' & Ho' & Hbe) & Hret); simpl; wp_go.
  - apply wp_get_sm. exists o'. split; [done|]. wp_go. rewrite Hbe. left.
    split; [done|by apply Hret].
  - right. split; [done|]. by intros ?%Hret.
Qed.

(** C34: saintmode.blacklist(expires) in vcl_backend_response records the
    object at the first saintmode object of the list that wraps the fetch's
    backend ([l1] are the objects before it), and from then on
    is_digest_healthy answers false for that digest there up to and including
    the instant t_prev + expires: the calls [ops] in between may be any calls
    of the module (further blacklistings, status, new objects, checks of any
    object) as long as none of them is a check at an instant past that
    timeout, which would drop the entry. *)
Theorem blacklist_effective ctx expires b d sm o s l1 l2 :
  st_ok (priv s) → sm_objs (priv s) = Some (l1 ++ sm :: l2) →
  method ctx = VCL_MET_BACKEND_RESPONSE → bo ctx = Some b →
  bo_director_resp b = Some d →
  Forall (λ sm, ∃ o, objects (priv s) !! sm = Some o ∧ be o ≠ d) l1 →
  objects (priv s) !! sm = Some o → be o = d →
  let tp := Trouble (bo_digest b) (dadd (bo_t_prev b) expires) in
  ∃ s1, vmod_blacklist be_name ctx expires s = Ret (tt, s1) ∧
    ∀ ops s2 now v, runs be_healthy be_name ops s1 s2 → Forall (op_before tp) ops →
      dltb (timeout tp) now = false →
      ∃ s3, is_digest_healthy be_name sm (Some (bo_digest b)) now v s2 = Ret (false, s3).
Proof.
  intros Hok Hl Hm Hb Hd Hl1 Ho Hbe tp.
  assert (wp (vmod_blacklist be_name ctx expires)
            (λ _ s1, st_ok (priv s1) ∧ held sm tp (priv s1)) s) as Hbl.
  { eapply wp_vmod_blacklist_ok; eauto. intros g. split.
    - eapply st_ok_put; [done..|]. apply sm_ok_cons. by eapply st_ok_sm.
    - eexists. split; [apply lookup_insert_eq|]. simpl. set_solver. }
  apply wp_run in Hbl as ([] & s1 & Hrun & Hok1 & Hheld). exists s1. split; [done|].
  intros ops s2 now v Hruns Hops Hlive.
  destruct (runs_kept _ _ _ _ _ Hruns Hok1) as [Hok2 Hk].
  destruct (Hk _ _ Hops Hheld) as (o2 & Ho2 & Htr).
  pose proof (wp_is_digest_healthy be_name sm (Some (bo_digest b)) now v s2 o2 Ho2
                (st_ok_sm _ _ _ Hok2 Ho2)) as Hh.
  apply wp_run in Hh as (ret & s3 & Hrun3 & kept & _ & _ & _ & Hret).
  exists s3. rewrite Hrun3. destruct ret; [|done].
  destruct (proj1 Hret eq_refl) as [Hn _]. destruct Hn. apply Exists_exists. by exists tp.
Qed.

(** With threshold 0, documented to disable saintmode, the director
    follows the backend while .is_healthy() called from a client
    transaction answers false whatever the backend and the list say. *)
Theorem threshold_zero ctx r sm now s o b :
  st_ok (priv s) → objects (priv s) !! sm = Some o → threshold o = 0%Z →
  req ctx = Some r →
  wp (healthy be_healthy be_name sm b now) (λ ret _, ret = be_healthy (be o) b) s ∧
  wp (vmod_saintmode_is_healthy be_healthy be_name ctx sm now) (λ ret _, ret = false) s.
Proof.
  intros Hok Ho Hthr Hreq. split.
  - unfold healthy. wp_go. apply wp_get_sm. exists o. split; [done|].
    rewrite Hthr. simpl. by wp_go.
  - unfold vmod_saintmode_is_healthy. rewrite Hreq.
    eapply wp_mono; [by apply wp_is_digest_healthy; eauto using st_ok_sm|].
    intros [] s' (kept & _ & _ & _ & Hret); [|done].
    destruct (proj1 Hret eq_refl) as [_ Hlt]. rewrite Hthr in Hlt.
    unfold u32 in Hlt. pose proof (Z.mod_pos_bound
      (Z.of_nat (length (filter (live (req_t_prev r)) (troublelist o)))) (2 ^ 32)). lia.
Qed.
(** C23: whatever sequence of VCL calls led to the present state, the
    invariant holds (n_trouble counts the trouble list, every listed object
    is allocated), and a further call that Varnish may issue returns with the
    invariant kept: no assertion fails and no freed object is touched, with
    two exceptions, [op_fails]. status() in a VCL that has not made a
    saintmode object yet, and a constructor given no backend, stop the worker
    at an assertion. When the VCL is unloaded the destructors of any of the
    objects, once each and in any order, return and free exactly them. *)
Theorem saintmode_safe s op :
  reachable be_healthy be_name s → op_pre op (priv s) →
  st_ok (priv s) ∧
  (if op_fails op (priv s) then ∃ w, run_op be_healthy be_name op s = Panic w
   else ∃ s', run_op be_healthy be_name op s = Ret (tt, s') ∧ st_ok (priv s')) ∧
  (∀ sms, NoDup sms → Forall (λ sm, is_Some (objects (priv s) !! sm)) sms →
     ∃ s', unload sms s = Ret (tt, s') ∧
       ∀ sm, objects (priv s') !! sm =
               if decide (sm ∈ sms) then None else objects (priv s) !! sm).
Proof.
  intros Hr Hpre. pose proof (reachable_ok _ _ _ Hr) as Hok.
  split; [done|split].
  - destruct (op_fails op (priv s)) eqn:Hf; [by apply failing_op|].
    pose proof (wp_sm_op be_name be_healthy op s Hok Hpre Hf) as Hwp.
    apply wp_run in Hwp as ([] & s' & ? & ? & _). by exists s'.
  - intros sms Hnd Hall. pose proof (wp_unload sms s Hnd Hall) as Hwp.
    apply wp_run in Hwp as ([] & s' & ? & ?). by exists s'.
Qed.

(** status() in a VCL that imports the vmod and makes no saintmode object
    stops the worker, while blacklist() in the same VCL only logs that
    saintmode is not configured. *)
Theorem status_without_objects_panics w g ctx expires :
  let s := Task sm_fresh_state w g in
  (∃ e, vmod_status be_name s = Panic e) ∧
  (∃ s', vmod_blacklist be_name ctx expires s = Ret (tt, s') ∧ priv s' = priv s).
Proof. split; by eexists. Qed.
End properties.

(** ** Concrete runs *)
Module Examples.
(** A backend, 1, with one expired and one live entry. *)
Definition dg1 : bytes := str "one".
Definition dg2 : bytes := str "two".
Definition sm1 : saintmode :=
  Saintmode (str "sm1") 1 3%Z 2%Z [Trouble dg1 (d_of_Z 10); Trouble dg2 (d_of_Z 2)].
Definition st1 : sm_state := SmState {[ 7%positive := sm1 ]} (Some [7%positive]) 8.
Definition s1 : task sm_state Z := Task st1 100%Z [].
Definition up (d : director) (b : option busyobj) : bool := true.
Definition backend_name (d : director) : bytes := str "be".
Definition bo1 : busyobj := Busyobj dg2 (d_of_Z 5) (Some 1%positive).
Definition ctx1 : vrt_ctx := VrtCtx VCL_MET_BACKEND_RESPONSE None (Some bo1).

Lemma st1_ok : st_ok (priv s1).
Proof.
  split; simpl.
  - apply map_Forall_singleton. reflexivity.
  - intros l [= <-]. constructor; [|constructor]. by exists sm1.
  - intros sm [o [<- _]%lookup_singleton_Some]. reflexivity.
Qed.
End Examples.
Import Examples.

Lemma is_digest_healthy_exact_witness :
  wp (is_digest_healthy backend_name 7 (Some dg2) (d_of_Z 5) true) (λ ret s',
      st_ok (priv s') ∧
      (ret = true ↔
         (∀ tr, tr ∈ troublelist sm1 → live (d_of_Z 5) tr → Some (digest tr) ≠ Some dg2) ∧
         (Z.of_nat (length (filter (live (d_of_Z 5)) (troublelist sm1))) < threshold sm1)%Z) ∧
      ∃ kept, objects (priv s') = <[7%positive := set_trouble sm1 kept (Z.of_nat (length kept))]>
                (objects (priv s1)) ∧
        kept `sublist_of` troublelist sm1 ∧
        filter (live (d_of_Z 5)) kept = filter (live (d_of_Z 5)) (troublelist sm1)) s1.
Proof. apply (is_digest_healthy_exact backend_name 7 (Some dg2) (d_of_Z 5) true s1 sm1); [exact st1_ok|reflexivity|reflexivity]. Defined.

(** Another blacklisting and a check at 7 seconds in between. *)
Definition between : list sm_op :=
  [Op_blacklist ctx1 (d_of_Z 1); Op_healthy 7 None (d_of_Z 7)].
Definition after_blacklist : task sm_state Z :=
  match vmod_blacklist backend_name ctx1 (d_of_Z 4) s1 with Ret (_, s) => s | _ => s1 end.
Definition after_between : task sm_state Z :=
  match run_op up backend_name (Op_blacklist ctx1 (d_of_Z 1)) after_blacklist with
  | Ret (_, s) =>
      match run_op up backend_name (Op_healthy 7 None (d_of_Z 7)) s with
      | Ret (_, s) => s
      | _ => s1
      end
  | _ => s1
  end.
Lemma between_runs : runs up backend_name between after_blacklist after_between.
Proof.
  eapply runs_cons; [intros _; by exists bo1, 1%positive|vm_compute; reflexivity|].
  eapply runs_cons; [eexists; vm_compute; reflexivity|vm_compute; reflexivity|].
  vm_compute. constructor.
Qed.
Lemma blacklist_effective_witness :
  ∃ s3, is_digest_healthy backend_name 7 (Some dg2) (d_of_Z 9) true after_between
        = Ret (false, s3).
Proof.
  destruct (blacklist_effective backend_name up ctx1 (d_of_Z 4) bo1 1 7 sm1 s1 [] [])
    as (s1' & Hrun & Hlater); try reflexivity; [exact st1_ok|constructor|].
  assert (s1' = after_blacklist) as ->.
  { unfold after_blacklist. by rewrite Hrun. }
  apply (Hlater between after_between (d_of_Z 9) true between_runs); [|reflexivity].
  repeat constructor; intros t [=]; subst; reflexivity.
Defined.

Lemma director_exact_witness :
  let ok := up (be sm1) (Some bo1) = true ∧
    (threshold sm1 = 0%Z ∨ n_trouble sm1 = 0%Z ∨
     ¬ blacklisted (d_of_Z 5) (Some dg2) (troublelist sm1) ∧
     (u32 (Z.of_nat (length (filter (live (d_of_Z 5)) (troublelist sm1)))) < threshold sm1)%Z) in
  wp (healthy up backend_name 7 (Some bo1) dzero) (λ ret _, ret = true ↔ ok) s1 ∧
  wp (resolve up backend_name 7 (Some bo1) dzero)
     (λ r _, r = Some (be sm1) ∧ ok ∨ r = None ∧ ¬ ok) s1.
Proof. apply (director_exact backend_name up 7 (Some bo1) dzero s1 sm1 st1_ok). reflexivity. Defined.

Lemma threshold_zero_witness :
  let o := Saintmode (str "sm") 1 0%Z 0%Z [] in
  let s := Task (SmState {[ 7%positive := o ]} (Some [7%positive]) 8) 100%Z [] in
  let ctx := VrtCtx VCL_MET_DELIVER (Some (Request dg1 dzero)) None in
  wp (healthy up backend_name 7 None dzero) (λ ret _, ret = up (be o) None) s ∧
  wp (vmod_saintmode_is_healthy up backend_name ctx 7 dzero) (λ ret _, ret = false) s.
Proof.
  apply (threshold_zero backend_name up _ (Request dg1 dzero) 7 dzero _
           (Saintmode (str "sm") 1 0%Z 0%Z [])); try reflexivity.
  split; simpl.
  - apply map_Forall_singleton. reflexivity.
  - intros l [= <-]. constructor; [|constructor]. by eexists.
  - intros sm [o [<- _]%lookup_singleton_Some]. reflexivity.
Defined.

(** A VCL with one object: a further constructor, then the unloading. *)
Lemma saintmode_safe_witness :
  let op := Op_init (str "sm") (Some 1%positive) 5 in
  let s := Task (SmState {[ 1%positive := Saintmode (str "sm") 1 5 0 [] ]}
             (Some [1%positive]) 2) 100%Z [] in
  st_ok (priv s) ∧
  (∃ s', run_op up backend_name op s = Ret (tt, s') ∧ st_ok (priv s')) ∧
  (∃ s', unload [1%positive] s = Ret (tt, s') ∧ objects (priv s') !! 1%positive = None).
Proof.
  intros op s.
  destruct (saintmode_safe backend_name up s op) as (Hok & Hrun & Hun).
  - exists [op], 100%Z, []. eapply runs_cons; [exact I|vm_compute; reflexivity|constructor].
  - exact I.
  - split; [exact Hok|split; [exact Hrun|]].
    destruct (Hun [1%positive]) as (s' & Hs' & Hobj).
    + apply NoDup_singleton.
    + repeat constructor. by eexists.
    + exists s'. split; [exact Hs'|]. rewrite Hobj. reflexivity.
Defined.

Lemma blacklist_refused_witness :
  wp (vmod_blacklist backend_name
        (VrtCtx VCL_MET_BACKEND_RESPONSE None (Some (Busyobj dg1 dzero (Some 2%positive))))
        dzero)
     (λ _ s', priv s' = priv s1 ∧ ws s' = ws s1 ∧
       ∃ msg, vsl s' = vsl s1 ++ [(SLT_VCL_Error, msg)]) s1.
Proof.
  apply blacklist_refused; [exact st1_ok|]. right. right.
  exists [7%positive], (Busyobj dg1 dzero (Some 2%positive)), 2%positive.
  do 4 (split; [reflexivity|]).
  intros sm o ->%list_elem_of_singleton Ho. vm_compute in Ho. by injection Ho as <-.
Defined.

Lemma use_after_fini_witness :
  ∃ w, (vmod_saintmode__fini 7;;; vmod_blacklist backend_name ctx1 dzero) s1 = Undef w.
Proof. apply (use_after_fini backend_name ctx1 dzero bo1 1 7 sm1 []); reflexivity. Defined.
