(* ===== verification/VsThrottle.v ===== *)
(** * vmod_vsthrottle: token bucket rate limiting

    Models vmod_vsthrottle.c.  The token buckets are in a heap; each of the
    16 partitions holds a red-black tree (the interface of TreeSpec) of the
    buckets whose digest selects it, and a call counter that starts the
    garbage collector.  VTIM_mono() is not part of the repository: the time a
    call reads is its argument [now].  SHA256 is the parameter [SHA256] of the
    bytes a digest is computed from.  The partition's mutex is held over the
    whole of a call, so a call is one step; what is kept of the mutex is
    whether it is initialised, since a LOAD may initialise it twice. *)
From S2P Require Import Prelude CStr Workspace Double TreeSpec.

Record tbucket := Tbucket {
  digest : bytes;
  last_used : double;
  period : double;
  tb_block : double;     (* block *)
  tokens : Z;            (* long *)
  capacity : Z;          (* long *)
}.
Definition set_last_used (d : double) (b : tbucket) : tbucket :=
  Tbucket (digest b) d (period b) (tb_block b) (tokens b) (capacity b).
Definition set_block (d : double) (b : tbucket) : tbucket :=
  Tbucket (digest b) (last_used b) (period b) d (tokens b) (capacity b).
Definition set_tokens (n : Z) (b : tbucket) : tbucket :=
  Tbucket (digest b) (last_used b) (period b) (tb_block b) n (capacity b).

Definition SHA256_LEN : nat := 32.
Definition N_PART : nat := 16.
Definition N_PART_MASK : N := 15.
Definition GC_INTVL : Z := 1000.

(** [mtx] says whether the mutex is initialised. *)
Record vsthrottle (T : Type) := Vsthrottle { buckets : T; gc_count : Z; mtx : bool }.
Arguments Vsthrottle {T} _ _ _.
Arguments buckets {T} _.
Arguments gc_count {T} _.
Arguments mtx {T} _.

Record tb_state (T : Type) := TbState {
  tb_heap : gmap loc tbucket;        (* malloc'ed buckets *)
  parts : list (vsthrottle T);       (* vsthrottle[N_PART] *)
  n_init : Z;                        (* unsigned *)
  next_loc : loc;
}.
Arguments TbState {T} _ _ _ _.
Arguments tb_heap {T} _.
Arguments parts {T} _.
Arguments n_init {T} _.
Arguments next_loc {T} _.

Inductive vcl_event := VCL_EVENT_LOAD | VCL_EVENT_WARM | VCL_EVENT_COLD | VCL_EVENT_DISCARD.
#[export] Instance vcl_event_eq_dec : EqDecision vcl_event.
Proof. solve_decision. Defined.

(** digest[0] & N_PART_MASK *)
Definition part_of (d : bytes) : nat :=
  N.to_nat (N.land (code (hd "000"%char d)) N_PART_MASK).

Section operations.
Context {T : Type} `{!OrdTree bytes T}.
Context (SHA256 : bytes → bytes).
Abbreviation tb_m := (M (tb_state T)).

Definition get_tb (b : loc) : tb_m tbucket :=
  st ← getS; derefM (tb_heap st !! b) "struct tbucket".
Definition put_tb (b : loc) (o : tbucket) : tb_m unit :=
  modifyS (λ st, TbState (<[b := o]> (tb_heap st)) (parts st) (n_init st) (next_loc st)).
Definition free_tb (b : loc) : tb_m unit :=
  modifyS (λ st, TbState (delete b (tb_heap st)) (parts st) (n_init st) (next_loc st)).
Definition get_part (p : nat) : tb_m (vsthrottle T) :=
  st ← getS; derefM (parts st !! p) "vsthrottle[]".
Definition put_part (p : nat) (v : vsthrottle T) : tb_m unit :=
  modifyS (λ st, TbState (tb_heap st) (<[p := v]> (parts st)) (n_init st) (next_loc st)).

(** AZ(pthread_mutex_lock(&v->mtx)); the unlock of the same mutex fails only
    if the lock did. *)
Definition lock_mtx (p : nat) : tb_m unit :=
  v ← get_part p;
  if mtx v then mret tt else undef "pthread_mutex_lock of an uninitialised mutex".

Definition tb_alloc (dg : bytes) (limit : Z) (period now : double) : tb_m loc :=
  st ← getS;
  let tb := next_loc st in
  modifyS (λ st, TbState (<[tb := Tbucket dg now period dzero limit limit]> (tb_heap st))
                   (parts st) (n_init st) (Pos.succ tb));;;
  mret tb.

Definition get_bucket (dg : bytes) (limit : Z) (period now : double) : tb_m loc :=
  let part := part_of dg in
  v ← get_part part;
  match VRB_FIND (buckets v) dg with
  | Some b => _ ← get_tb b; mret b
  | None =>
      b ← tb_alloc dg limit period now;
      r ← liftO (VRB_INSERT (buckets v) dg b);
      assertM (bool_decide (r.1 = None)) "AZ(VRB_INSERT)";;;
      put_part part (Vsthrottle r.2 (gc_count v) (mtx v));;;
      mret b
  end.

(** (long)((delta / b->period) * b->capacity) *)
Definition refill (b : tbucket) (now : double) : option Z :=
  dtrunc (dmul (ddiv (dsub now (last_used b)) (period b)) (d_of_Z (capacity b))).
Definition calc_tokens (b : loc) (now : double) : tb_m unit :=
  o ← get_tb b;
  let delta := dsub now (last_used o) in
  assertM (dleb dzero delta) "delta >= 0";;;
  match refill o now with
  | None => undef "conversion to long out of range"
  | Some n =>
      if in_long (tokens o + n) then
        put_tb b (set_tokens (tokens o + n) o);;;
        o ← get_tb b;
        if (capacity o <? tokens o)%Z then put_tb b (set_tokens (capacity o) o) else mret tt
      else undef "long overflow"
  end.

(** The bytes SHA256 is fed. *)
Definition digest_input (s : bytes) (l : Z) (p b : double) : bytes :=
  s ++ long_bytes l ++ double_bytes p ++ double_bytes b.
Definition do_digest (s : bytes) (l : Z) (p b : double) : bytes :=
  SHA256 (digest_input s l p b).

Definition part_tree (p : nat) (st : tb_state T) : T :=
  default VRB_INIT (buckets <$> parts st !! p).
Definition remove_tb (part : nat) (x : bytes * loc) : tb_m unit :=
  v ← get_part part;
  t ← liftO (VRB_REMOVE (buckets v) x.1);
  put_part part (Vsthrottle t (gc_count v) (mtx v));;;
  free_tb x.2.
Definition run_gc (now : double) (part : nat) : tb_m unit :=
  st ← getS;
  foreach_safe (part_tree part) (size (tb_heap st)) (VRB_MIN (part_tree part st)) (λ x,
    o ← get_tb x.2;
    if dltb (period o) (dsub now (last_used o)) then remove_tb part x else mret tt).

Definition vmod_is_denied (key : option bytes) (limit : Z) (period block now : double)
    : tb_m bool :=
  match key with
  | None => mret true
  | Some key =>
      let dg := do_digest key limit period block in
      let part := part_of dg in
      lock_mtx part;;;
      b ← get_bucket dg limit period now;
      calc_tokens b now;;;
      o ← get_tb b;
      let blocked := dltb dzero block && dltb now (tb_block o) in
      (if blocked then put_tb b (set_last_used now o) else mret tt);;;
      o ← get_tb b;
      ret ← (if (0 <? tokens o)%Z then
               put_tb b (set_last_used now (set_tokens (tokens o - 1) o));;;
               mret blocked
             else
               (if dltb dzero block && negb blocked
                then put_tb b (set_block (dadd now block) o) else mret tt);;;
               mret true);
      (if dltb dzero block && negb ret && negb blocked
       then o ← get_tb b; put_tb b (set_block dzero o) else mret tt);;;
      v ← get_part part;
      put_part part (Vsthrottle (buckets v) (u32 (gc_count v + 1)) (mtx v));;;
      v ← get_part part;
      (if (gc_count v =? GC_INTVL)%Z then
         run_gc now part;;;
         v ← get_part part; put_part part (Vsthrottle (buckets v) 0 (mtx v))
       else mret tt);;;
      mret ret
  end.

Definition vmod_remaining (key : option bytes) (limit : Z) (period block now : double)
    : tb_m Z :=
  match key with
  | None => mret (-1)%Z
  | Some key =>
      let dg := do_digest key limit period block in
      lock_mtx (part_of dg);;;
      b ← get_bucket dg limit period now;
      calc_tokens b now;;;
      o ← get_tb b;
      mret (u32 (tokens o))      (* unsigned ret *)
  end.

Definition vmod_blocked (key : option bytes) (limit : Z) (period block now : double)
    : tb_m double :=
  match key with
  | None => mret (d_of_Z (-1))
  | Some key =>
      let dg := do_digest key limit period block in
      lock_mtx (part_of dg);;;
      b ← get_bucket dg limit period now;
      o ← get_tb b;
      let ret := dsub (tb_block o) now in
      mret (if dleb ret dzero then dzero else ret)
  end.

Definition fini : tb_m unit :=
  st ← getS;
  assertM (0 <? n_init st)%Z "n_init > 0";;;
  modifyS (λ st, TbState (tb_heap st) (parts st) (n_init st - 1) (next_loc st));;;
  st ← getS;
  if (n_init st =? 0)%Z then
    forM_ (seq 0 N_PART) (λ p,
      st ← getS;
      foreach_safe (part_tree p) (size (tb_heap st)) (VRB_MIN (part_tree p st)) (λ x,
        _ ← get_tb x.2; remove_tb p x))
  else mret tt.

(** POSIX leaves the initialisation of a mutex that is initialised already
    undefined; nothing destroys these. *)
Definition event_function (e : vcl_event) : tb_m Z :=
  if decide (e = VCL_EVENT_LOAD) then
    st ← getS;
    (if (n_init st =? 0)%Z then
       forM_ (seq 0 N_PART) (λ p,
         v ← get_part p;
         if mtx v then undef "pthread_mutex_init of an initialised mutex"
         else put_part p (Vsthrottle VRB_INIT (gc_count v) true))
     else mret tt);;;
    modifyS (λ st, TbState (tb_heap st) (parts st) (u32 (n_init st + 1)) (next_loc st));;;
    mret 0%Z
  else mret 0%Z.

(** The module's data when the process starts. *)
Definition tb_boot : tb_state T :=
  TbState ∅ (replicate N_PART (Vsthrottle VRB_INIT 0 false)) 0 1.
End operations.

(** ** The structure of the state *)
Section shape.
Context {T : Type} `{!OrdTree bytes T, !OrdTreeLaws memcmp}.
Implicit Types (st : tb_state T) (b : tbucket) (dg : bytes) (p : nat).

(** Partition [p]'s tree holds exactly the buckets whose digest selects
    [p]; nothing else is allocated. *)
Record shape st : Prop := Shape {
  sh_len : length (parts st) = N_PART;
  sh_part p v : parts st !! p = Some v → tree_ok (buckets v);
  sh_elem p v k l : parts st !! p = Some v → (k, l) ∈ tree_list (buckets v) →
    part_of k = p ∧ ∃ b, tb_heap st !! l = Some b ∧ digest b = k;
  sh_heap l b : tb_heap st !! l = Some b →
    ∃ v, parts st !! part_of (digest b) = Some v ∧ (digest b, l) ∈ tree_list (buckets v);
  sh_fresh l : is_Some (tb_heap st !! l) → (l < next_loc st)%positive;
}.

(** What the state of a module that was loaded means: a map from digests to
    buckets, the counters of the partitions, and the number of loaded VCLs. *)
Record throttle := Throttle {
  a_map : gmap bytes tbucket;
  a_gc : list Z;
  a_init : Z;
}.
Record rep st (a : throttle) : Prop := Rep {
  rep_shape : shape st;
  rep_map dg b : a_map a !! dg = Some b ↔
    digest b = dg ∧ ∃ l, tb_heap st !! l = Some b;
  rep_gc : gc_count <$> parts st = a_gc a;
  rep_init : n_init st = a_init a;
  rep_mtx : Forall (λ v, mtx v = true) (parts st);
}.

Lemma part_of_lt dg : part_of dg < N_PART.
Proof.
  unfold part_of, N_PART, N_PART_MASK. set (x := code _).
  assert (N.land x 15 < 16)%N; [|lia].
  change 15%N with (N.ones 4). rewrite N.land_ones. by apply N.mod_lt.
Qed.
Lemma shape_part st dg : shape st → ∃ v, parts st !! part_of dg = Some v.
Proof.
  intros Hs. apply lookup_lt_is_Some. rewrite (sh_len _ Hs). apply part_of_lt.
Qed.

(** Digests are unique: two buckets of one digest are the same. *)
Lemma shape_unique st l l' b b' :
  shape st → tb_heap st !! l = Some b → tb_heap st !! l' = Some b' →
  digest b = digest b' → l = l'.
Proof.
  intros Hs Hl Hl' Hd. destruct (sh_heap _ Hs _ _ Hl) as (v & Hv & Hin).
  destruct (sh_heap _ Hs _ _ Hl') as (v' & Hv' & Hin'). rewrite Hd in Hv, Hin.
  rewrite Hv in Hv'. injection Hv' as <-.
  pose proof (sh_part _ Hs _ _ Hv) as Hok. by eapply tree_fun.
Qed.
Lemma rep_lookup st a l b :
  rep st a → tb_heap st !! l = Some b → a_map a !! digest b = Some b.
Proof. intros Hr Hl. apply (rep_map _ _ Hr). eauto. Qed.
Lemma shape_find st dg v l b :
  shape st → parts st !! part_of dg = Some v → tb_heap st !! l = Some b →
  digest b = dg → VRB_FIND (buckets v) dg = Some l.
Proof.
  intros Hs Hv Hl <-. pose proof (sh_part _ Hs _ _ Hv) as Hok.
  apply tree_find; [done|]. destruct (sh_heap _ Hs _ _ Hl) as (v' & Hv' & ?). congruence.
Qed.
Lemma rep_absent st a dg v :
  rep st a → parts st !! part_of dg = Some v → VRB_FIND (buckets v) dg = None ↔ a_map a !! dg = None.
Proof.
  intros Hr Hv. pose proof (rep_shape _ _ Hr) as Hs.
  pose proof (sh_part _ Hs _ _ Hv) as Hok. split.
  - intros Hf. destruct (a_map a !! dg) as [b|] eqn:Hb; [|done].
    apply (rep_map _ _ Hr) in Hb as (<- & l & Hl).
    by rewrite (shape_find _ _ _ _ _ Hs Hv Hl) in Hf.
  - intros Hb. destruct (VRB_FIND (buckets v) dg) as [l|] eqn:Hf; [|done].
    apply tree_find in Hf; [|done].
    destruct (sh_elem _ Hs _ _ _ _ Hv Hf) as (_ & b & Hl & <-).
    by rewrite (rep_lookup _ _ _ _ Hr Hl) in Hb.
Qed.

(** A tree is no larger than the heap: the fuel of the loops. *)
Lemma shape_fuel st p v :
  shape st → parts st !! p = Some v → length (tree_list (buckets v)) ≤ size (tb_heap st).
Proof.
  intros Hs Hv. pose proof (sh_part _ Hs _ _ Hv) as Hok.
  rewrite <-(length_fmap snd), <-size_dom.
  assert (NoDup (tree_list (buckets v)).*2) as Hnd.
  { apply NoDup_fmap_2_strong.
    - intros [k l] [k' l'] Hin Hin' Heq. simpl in Heq. subst l'.
      destruct (sh_elem _ Hs _ _ _ _ Hv Hin) as (_ & b & Hb & <-).
      destruct (sh_elem _ Hs _ _ _ _ Hv Hin') as (_ & b' & Hb' & <-). congruence.
    - by eapply NoDup_fmap_1, sorted_NoDup, tree_sorted. }
  rewrite <-(size_list_to_set (C := gset loc)) by done. apply subseteq_size.
  intros l. rewrite elem_of_list_to_set, elem_of_dom.
  intros ([k l'] & -> & Hin)%list_elem_of_fmap.
  destruct (sh_elem _ Hs _ _ _ _ Hv Hin) as (_ & b & Hb & _). by exists b.
Qed.
End shape.

Section steps.
Context {T : Type} `{!OrdTree bytes T, !OrdTreeLaws memcmp}.
Implicit Types (st : tb_state T) (b o : tbucket) (dg : bytes) (p : nat) (a : throttle).

Lemma wp_get_tb l (Q : tbucket → tb_state T → Prop) st :
  wp (get_tb l) Q st ↔ ∃ o, tb_heap st !! l = Some o ∧ Q o st.
Proof. unfold get_tb. rewrite wp_bind, wp_getS. apply wp_derefM. Qed.
Lemma wp_get_part p (Q : vsthrottle T → tb_state T → Prop) st :
  wp (get_part p) Q st ↔ ∃ v, parts st !! p = Some v ∧ Q v st.
Proof. unfold get_part. rewrite wp_bind, wp_getS. apply wp_derefM. Qed.
Lemma wp_get_part_of dg (Q : vsthrottle T → tb_state T → Prop) st :
  shape st → (∀ v, parts st !! part_of dg = Some v → Q v st) →
  wp (get_part (part_of dg)) Q st.
Proof.
  intros Hs HQ. destruct (shape_part _ dg Hs) as [v Hv]. apply wp_get_part. eauto.
Qed.

(** Writing a bucket back, with its digest. *)
Lemma rep_put st a l b b' :
  rep st a → tb_heap st !! l = Some b → digest b' = digest b →
  rep (TbState (<[l := b']> (tb_heap st)) (parts st) (n_init st) (next_loc st))
      (Throttle (<[digest b := b']> (a_map a)) (a_gc a) (a_init a)).
Proof.
  intros Hr Hl Hd. pose proof (rep_shape _ _ Hr) as Hs. split; simpl.
  - split; simpl; try apply Hs.
    + intros p v k l' Hv Hin. destruct (sh_elem _ Hs _ _ _ _ Hv Hin) as (? & b1 & Hb1 & ?).
      split; [done|]. destruct (decide (l = l')) as [<-|Hne].
      * exists b'. rewrite lookup_insert_eq. naive_solver congruence.
      * exists b1. by rewrite lookup_insert_ne.
    + intros l' b1 [[<- <-]|[Hne Hb1]]%lookup_insert_Some; [rewrite Hd|]; by eapply sh_heap.
    + intros l' [->|Hl']%lookup_insert_is_Some'; apply (sh_fresh _ Hs); eauto.
  - intros dg b1. rewrite lookup_insert_Some, (rep_map _ _ Hr). split.
    + intros [[<- <-]|[Hne (<- & l' & Hl')]].
      * split; [done|]. exists l. by rewrite lookup_insert_eq.
      * split; [done|]. exists l'. rewrite lookup_insert_ne; [done|]. congruence.
    + intros (<- & l' & [[<- <-]|[Hne Hl']]%lookup_insert_Some); [by left|right].
      split; [|by eauto]. intros Heq. apply Hne. by eapply shape_unique.
  - apply Hr.
  - apply Hr.
  - apply Hr.
Qed.

Lemma mtx_kept st a p v t n :
  rep st a → parts st !! p = Some v → Forall (λ v, mtx v = true) (<[p := Vsthrottle t n (mtx v)]> (parts st)).
Proof. intros Hr Hv. apply Forall_insert; [apply Hr|]. exact (Forall_lookup_1 _ _ _ _ (rep_mtx _ _ Hr) Hv). Qed.
(** A new bucket for a digest that has none. *)
Lemma rep_new st a b v t' :
  rep st a → parts st !! part_of (digest b) = Some v →
  VRB_FIND (buckets v) (digest b) = None →
  tree_ok t' → tree_list t' ≡ₚ (digest b, next_loc st) :: tree_list (buckets v) →
  rep (TbState (<[next_loc st := b]> (tb_heap st))
         (<[part_of (digest b) := Vsthrottle t' (gc_count v) (mtx v)]> (parts st))
         (n_init st) (Pos.succ (next_loc st)))
      (Throttle (<[digest b := b]> (a_map a)) (a_gc a) (a_init a)).
Proof.
  intros Hr Hv Hf Ht' Hp. pose proof (rep_shape _ _ Hr) as Hs.
  assert (tb_heap st !! next_loc st = None) as Hfresh.
  { apply eq_None_not_Some. intros ?%(sh_fresh _ Hs). lia. }
  pose proof Hf as Habs. apply (rep_absent _ _ _ _ Hr Hv) in Habs.
  pose proof (lookup_lt_Some _ _ _ Hv) as Hlt. split; simpl.
  - split; simpl.
    + rewrite length_insert. apply Hs.
    + intros p v' [(<- & <- & _)|[_ Hv']]%list_lookup_insert_Some; [done|by eapply sh_part].
    + intros p v' k l [(<- & <- & _)|[Hne Hv']]%list_lookup_insert_Some; simpl.
      * rewrite Hp. intros [[= -> ->]|Hin]%elem_of_cons.
        { split; [done|]. exists b. by rewrite lookup_insert_eq. }
        destruct (sh_elem _ Hs _ _ _ _ Hv Hin) as (Hk & b1 & Hb1 & Hd1). split; [done|].
        exists b1. rewrite lookup_insert_ne by congruence. done.
      * intros Hin. destruct (sh_elem _ Hs _ _ _ _ Hv' Hin) as (Hk & b1 & Hb1 & Hd1).
        split; [done|]. exists b1. rewrite lookup_insert_ne by congruence. done.
    + intros l b1 [[<- <-]|[Hne Hb1]]%lookup_insert_Some.
      * exists (Vsthrottle t' (gc_count v) (mtx v)). rewrite list_lookup_insert_eq by done.
        split; [done|]. simpl. rewrite Hp. left.
      * destruct (sh_heap _ Hs _ _ Hb1) as (v1 & Hv1 & Hin1).
        destruct (decide (part_of (digest b1) = part_of (digest b))) as [Heq|Hneq].
        { rewrite Heq in *. exists (Vsthrottle t' (gc_count v) (mtx v)).
          rewrite list_lookup_insert_eq by done. split; [done|]. simpl. rewrite Hp.
          right. congruence. }
        exists v1. rewrite list_lookup_insert_ne by done. done.
    + intros l [<-|Hl]%lookup_insert_is_Some'; [lia|]. apply (sh_fresh _ Hs) in Hl. lia.
  - intros dg b1. rewrite lookup_insert_Some, (rep_map _ _ Hr). split.
    + intros [[<- <-]|[Hne (<- & l' & Hl')]].
      * split; [done|]. exists (next_loc st). by rewrite lookup_insert_eq.
      * split; [done|]. exists l'. rewrite lookup_insert_ne; congruence.
    + intros (<- & l' & [[<- <-]|[Hne Hl']]%lookup_insert_Some); [by left|right].
      split; [|by eauto]. intros Heq. pose proof (rep_lookup _ _ _ _ Hr Hl') as Hm.
      rewrite <-Heq in Hm. congruence.
  - rewrite list_fmap_insert. simpl. rewrite (rep_gc _ _ Hr).
    apply list_insert_id. rewrite <-(rep_gc _ _ Hr), list_lookup_fmap, Hv. done.
  - apply Hr.
  - by eapply mtx_kept.
Qed.
(** Unlinking and freeing a bucket. *)
Lemma rep_remove st a l b v t' :
  rep st a → tb_heap st !! l = Some b → parts st !! part_of (digest b) = Some v →
  tree_ok t' → (∀ x, x ∈ tree_list t' ↔ x ∈ tree_list (buckets v) ∧ x.1 ≠ digest b) →
  rep (TbState (delete l (tb_heap st))
         (<[part_of (digest b) := Vsthrottle t' (gc_count v) (mtx v)]> (parts st))
         (n_init st) (next_loc st))
      (Throttle (delete (digest b) (a_map a)) (a_gc a) (a_init a)).
Proof.
  intros Hr Hl Hv Ht' Hp. pose proof (rep_shape _ _ Hr) as Hs.
  pose proof (lookup_lt_Some _ _ _ Hv) as Hlt.
  assert (∀ l' b', tb_heap st !! l' = Some b' → digest b' ≠ digest b → l' ≠ l) as Hne
    by congruence.
  split; simpl.
  - split; simpl.
    + rewrite length_insert. apply Hs.
    + intros p v' [(<- & <- & _)|[_ Hv']]%list_lookup_insert_Some; [done|by eapply sh_part].
    + intros p v' k l' [(<- & <- & _)|[Hp' Hv']]%list_lookup_insert_Some; simpl.
      * intros [Hin Hk]%Hp. simpl in Hk.
        destruct (sh_elem _ Hs _ _ _ _ Hv Hin) as (Hk' & b1 & Hb1 & <-).
        split; [done|]. exists b1. rewrite lookup_delete_ne; [done|]. symmetry. eauto.
      * intros Hin. destruct (sh_elem _ Hs _ _ _ _ Hv' Hin) as (Hk & b1 & Hb1 & <-).
        split; [done|]. exists b1. rewrite lookup_delete_ne; [done|]. symmetry. apply (Hne l' b1); [done|].
        intros Heq. apply Hp'. by rewrite <-Heq.
    + intros l' b1 [Hl' Hb1]%lookup_delete_Some.
      destruct (sh_heap _ Hs _ _ Hb1) as (v1 & Hv1 & Hin1).
      destruct (decide (part_of (digest b1) = part_of (digest b))) as [Heq|Hneq].
      { rewrite Heq in *. exists (Vsthrottle t' (gc_count v) (mtx v)).
        rewrite list_lookup_insert_eq by done. split; [done|]. apply Hp.
        split; [congruence|]. simpl. intros Hd. apply Hl'. symmetry. by eapply shape_unique. }
      exists v1. by rewrite list_lookup_insert_ne.
    + intros l' [b' [_ Hl']%lookup_delete_Some]. by apply (sh_fresh _ Hs); exists b'.
  - intros dg b1. rewrite lookup_delete_Some, (rep_map _ _ Hr). split.
    + intros (Hdg & <- & l' & Hl'). split; [done|]. exists l'.
      rewrite lookup_delete_ne; [done|]. symmetry. eauto.
    + intros (<- & l' & [Hl' Hb1]%lookup_delete_Some). split; [|by eauto].
      intros Hd. apply Hl'. by eapply shape_unique.
  - rewrite list_fmap_insert. simpl. rewrite (rep_gc _ _ Hr).
    apply list_insert_id. rewrite <-(rep_gc _ _ Hr), list_lookup_fmap, Hv. done.
  - apply Hr.
  - by eapply mtx_kept.
Qed.

(** Counting a call. *)
Lemma rep_count st a p v n :
  rep st a → parts st !! p = Some v →
  rep (TbState (tb_heap st) (<[p := Vsthrottle (buckets v) n (mtx v)]> (parts st))
         (n_init st) (next_loc st))
      (Throttle (a_map a) (<[p := n]> (a_gc a)) (a_init a)).
Proof.
  intros Hr Hv. pose proof (rep_shape _ _ Hr) as Hs.
  pose proof (lookup_lt_Some _ _ _ Hv) as Hlt. split; simpl; [|apply Hr| |apply Hr|by eapply mtx_kept].
  - split; simpl; [by rewrite length_insert; apply Hs| | | |apply Hs].
    + intros p' v' [(<- & <- & _)|[_ Hv']]%list_lookup_insert_Some;
        [exact (sh_part _ Hs _ _ Hv)|by eapply sh_part].
    + intros p' v' k l [(<- & <- & _)|[_ Hv']]%list_lookup_insert_Some;
        [by apply (sh_elem _ Hs p v)|by apply (sh_elem _ Hs p' v')].
    + intros l b Hl. destruct (sh_heap _ Hs _ _ Hl) as (v1 & Hv1 & Hin1).
      destruct (decide (p = part_of (digest b))) as [->|Hne].
      * eexists. rewrite list_lookup_insert_eq by done. split; [done|]. simpl. congruence.
      * exists v1. by rewrite list_lookup_insert_ne.
  - by rewrite list_fmap_insert, (rep_gc _ _ Hr).
Qed.

Lemma wp_lock_mtx dg st a (Q : unit → tb_state T → Prop) :
  rep st a → Q tt st → wp (lock_mtx (part_of dg)) Q st.
Proof.
  intros Hr HQ. unfold lock_mtx. wp_go. apply wp_get_part_of; [apply Hr|]. intros v Hv.
  by rewrite (Forall_lookup_1 _ _ _ _ (rep_mtx _ _ Hr) Hv).
Qed.
Lemma wp_get_bucket dg limit period now st a (Q : loc → tb_state T → Prop) :
  rep st a →
  (∀ l b st', b = default (Tbucket dg now period dzero limit limit) (a_map a !! dg) →
     tb_heap st' !! l = Some b → digest b = dg →
     rep st' (Throttle (<[dg := b]> (a_map a)) (a_gc a) (a_init a)) → Q l st') →
  wp (get_bucket dg limit period now) Q st.
Proof.
  intros Hr HQ. pose proof (rep_shape _ _ Hr) as Hs. unfold get_bucket. wp_go.
  apply wp_get_part_of; [done|]. intros v Hv.
  destruct (VRB_FIND (buckets v) dg) as [l|] eqn:Hf.
  - wp_go. apply tree_find in Hf; [|by eapply sh_part].
    destruct (sh_elem _ Hs _ _ _ _ Hv Hf) as (_ & b & Hl & Hd).
    apply wp_get_tb. exists b. split; [done|]. wp_go.
    pose proof (rep_lookup _ _ _ _ Hr Hl) as Hm. rewrite Hd in Hm.
    apply (HQ l b); [by rewrite Hm|done|done|].
    rewrite insert_id by done. by destruct a.
  - destruct (tree_insert_elem (buckets v) dg (next_loc st)) as (t' & Hi & Ht' & Hp);
      [by eapply sh_part|done|].
    unfold tb_alloc. wp_go; [exact Hi|by rewrite bool_decide_eq_true_2|].
    pose proof (proj1 (rep_absent _ _ _ _ Hr Hv) Hf) as Hm. unfold put_part. wp_go.
    set (b := Tbucket dg now period dzero limit limit).
    apply (HQ _ b); simpl; [by rewrite Hm|apply lookup_insert_eq|done|].
    by apply (rep_new st a b v t').
Qed.

(** Topping up a bucket. *)
Definition topped_up (n : Z) (b : tbucket) : tbucket :=
  set_tokens (Z.min (capacity b) (tokens b + n)) b.
Definition chargeable (now : double) (b : tbucket) (n : Z) : Prop :=
  dleb dzero (dsub now (last_used b)) = true ∧ refill b now = Some n ∧
  in_long (tokens b + n) = true.

Lemma wp_put_tb l b' (Q : unit → tb_state T → Prop) st a b :
  rep st a → tb_heap st !! l = Some b → digest b' = digest b →
  (∀ st', tb_heap st' !! l = Some b' →
     rep st' (Throttle (<[digest b := b']> (a_map a)) (a_gc a) (a_init a)) → Q tt st') →
  wp (put_tb l b') Q st.
Proof.
  intros Hr Hl Hd HQ. unfold put_tb. wp_go. apply HQ; [apply lookup_insert_eq|].
  by eapply rep_put.
Qed.

Lemma wp_calc_tokens l now (Q : unit → tb_state T → Prop) st a b n :
  rep st a → tb_heap st !! l = Some b → chargeable now b n →
  (∀ st', tb_heap st' !! l = Some (topped_up n b) →
     rep st' (Throttle (<[digest b := topped_up n b]> (a_map a)) (a_gc a) (a_init a)) →
     Q tt st') →
  wp (calc_tokens l now) Q st.
Proof.
  intros Hr Hl (Hd & Hn & Hlong) HQ. unfold calc_tokens. wp_go. apply wp_get_tb.
  exists b. split; [done|]. wp_go; [done|]. rewrite Hn, Hlong. wp_go.
  eapply wp_put_tb; [done|done|done|]. intros st1 Hl1 Hr1. wp_go. apply wp_get_tb.
  eexists. split; [done|]. unfold topped_up in HQ. simpl.
  destruct (Z.ltb_spec (capacity b) (tokens b + n)).
  - eapply wp_put_tb; [done|done|done|]. intros st2 Hl2 Hr2. simpl in Hr2.
    rewrite insert_insert_eq in Hr2. rewrite Z.min_l in HQ by lia. by apply HQ.
  - wp_go. rewrite Z.min_r in HQ by lia. by apply HQ.
Qed.

Lemma part_tree_lookup p v st : parts st !! p = Some v → part_tree p st = buckets v.
Proof. intros Hv. unfold part_tree. by rewrite Hv. Qed.

(** *** Sweeping a partition *)
Lemma wp_remove_tb l b st a kept todo :
  rep st a → tb_heap st !! l = Some b →
  tree_list (part_tree (part_of (digest b)) st) = kept ++ (digest b, l) :: todo →
  wp (remove_tb (part_of (digest b)) (digest b, l)) (λ _ st',
    rep st' (Throttle (delete (digest b) (a_map a)) (a_gc a) (a_init a)) ∧
    tree_list (part_tree (part_of (digest b)) st') = kept ++ todo) st.
Proof.
  intros Hr Hl Hlist. pose proof (rep_shape _ _ Hr) as Hs. unfold remove_tb. wp_go.
  apply wp_get_part_of; [done|]. intros v Hv. rewrite (part_tree_lookup _ _ _ Hv) in Hlist.
  pose proof (sh_part _ Hs _ _ Hv) as Hok.
  destruct (tree_remove _ _ _ _ _ Hok Hlist) as (t' & Hrm & Ht' & Hlist').
  destruct (tree_remove_elem (buckets v) (digest b) l) as (t'' & Hrm' & _ & _ & Hel);
    [done|rewrite Hlist; apply elem_of_app; right; left|].
  rewrite Hrm in Hrm'. injection Hrm' as <-. wp_go; [exact Hrm|].
  unfold put_part, free_tb. wp_go. split; [by apply (rep_remove st a l b v t')|].
  unfold part_tree. simpl. rewrite list_lookup_insert_eq by (by eapply lookup_lt_Some).
  exact Hlist'.
Qed.

Definition swept (P : tbucket → bool) (p : nat) (m : gmap bytes tbucket) : gmap bytes tbucket :=
  filter (λ '(dg, b), ¬ (part_of dg = p ∧ P b = true)) m.

Lemma wp_sweep (P : tbucket → bool) p body st a (Q : unit → tb_state T → Prop) :
  rep st a → p < N_PART →
  (∀ x o st' Q', tb_heap st' !! x.2 = Some o →
     wp (if P o then remove_tb p x else mret tt) Q' st' → wp (body x) Q' st') →
  (∀ st', rep st' (Throttle (swept P p (a_map a)) (a_gc a) (a_init a)) → Q tt st') →
  wp (foreach_safe (part_tree p) (size (tb_heap st)) (VRB_MIN (part_tree p st)) body) Q st.
Proof.
  intros Hr Hp Hbody HQ. pose proof (rep_shape _ _ Hr) as Hs.
  destruct (lookup_lt_is_Some_2 (parts st) p) as [v Hv]; [by rewrite (sh_len _ Hs)|].
  set (kept_map (seen : list (bytes * loc)) := filter (λ '(dg, b), ¬ (dg ∈ seen.*1 ∧ P b = true)) (a_map a)).
  apply (wp_foreach_safe (part_tree p) (λ (seen : list (bytes * loc)) s,
    rep s (Throttle (kept_map seen) (a_gc a) (a_init a)) ∧
    ∀ todo, tree_list (part_tree p st) = seen ++ todo →
      ∃ kept, tree_list (part_tree p s) = kept ++ todo)).
  - rewrite (part_tree_lookup _ _ _ Hv). by eapply sh_part.
  - rewrite (part_tree_lookup _ _ _ Hv). by eapply shape_fuel.
  - split; [|by intros todo ->; exists []].
    replace (kept_map []) with (a_map a); [by destruct a|].
    unfold kept_map. symmetry. apply map_filter_id. intros dg b _ [Hn _]. set_solver.
  - intros seen [k l] todo s' Hlist [Hr' Hkept].
    destruct (Hkept _ Hlist) as [kept Hl']. pose proof (rep_shape _ _ Hr') as Hs'.
    destruct (lookup_lt_is_Some_2 (parts s') p) as [v' Hv']; [by rewrite (sh_len _ Hs')|].
    split.
    { exists kept. split; [|done]. rewrite (part_tree_lookup _ _ _ Hv'). by eapply sh_part. }
    rewrite (part_tree_lookup _ _ _ Hv') in Hl'.
    destruct (sh_elem _ Hs' _ _ k l Hv') as (Hpk & o & Ho & <-).
    { rewrite Hl'. apply elem_of_app. right. left. }
    pose proof (rep_lookup _ _ _ _ Hr' Ho) as Hm. simpl in Hm.
    apply map_lookup_filter_Some in Hm as [Hm _].
    assert (∀ todo', tree_list (part_tree p st) = (seen ++ [(digest o, l)]) ++ todo' →
      todo' = todo) as Htodo.
    { intros todo' He. rewrite Hlist, <-(assoc_L (++)) in He. by simplify_list_eq. }
    apply (Hbody _ o); [done|]. destruct (P o) eqn:HP.
    + subst p. eapply wp_mono; [eapply wp_remove_tb; [exact Hr'|done|]|].
      { by rewrite (part_tree_lookup _ _ _ Hv'). }
      intros [] s2 [Hr2 Hl2]. split; [|intros todo' ->%Htodo; by exists kept].
      replace (kept_map (seen ++ [(digest o, l)])) with (delete (digest o) (kept_map seen));
        [done|].
      apply map_eq. intros dg. apply option_eq. intros b. unfold kept_map.
      rewrite lookup_delete_Some, !map_lookup_filter_Some, fmap_app, elem_of_app.
      cbn [fmap list_fmap fst]. rewrite list_elem_of_singleton. naive_solver congruence.
    + wp_go. split.
      * replace (kept_map (seen ++ [(digest o, l)])) with (kept_map seen); [done|].
        apply map_filter_ext. intros dg b Hb. rewrite fmap_app, elem_of_app.
        cbn [fmap list_fmap fst]. rewrite list_elem_of_singleton. naive_solver congruence.
      * intros todo' ->%Htodo. exists (kept ++ [(digest o, l)]).
        rewrite (part_tree_lookup _ _ _ Hv'), Hl'. by rewrite <-(assoc_L (++)).
  - intros s' [Hr' _]. apply HQ.
    replace (swept P p (a_map a)) with (kept_map (tree_list (part_tree p st))); [done|].
    apply map_filter_ext. intros dg b (<- & l & Hl)%(rep_map _ _ Hr).
    rewrite (part_tree_lookup _ _ _ Hv). split; intros Hn [Hin HP]; apply Hn; (split; [|done]).
    + subst p. destruct (sh_heap _ Hs _ _ Hl) as (v' & Hv' & Hin).
      assert (v' = v) as -> by congruence. by apply (list_elem_of_fmap_2 fst) in Hin.
    + apply list_elem_of_fmap in Hin as ([k l'] & Hk & Hin). simpl in Hk. subst k.
      by eapply sh_elem in Hin as [? _].
Qed.

Definition expired (now : double) (b : tbucket) : bool :=
  dltb (period b) (dsub now (last_used b)).
Lemma wp_run_gc now p st a (Q : unit → tb_state T → Prop) :
  rep st a → p < N_PART →
  (∀ st', rep st' (Throttle (swept (expired now) p (a_map a)) (a_gc a) (a_init a)) → Q tt st') →
  wp (run_gc now p) Q st.
Proof.
  intros Hr Hp HQ. unfold run_gc. wp_go. eapply wp_sweep; [done|done| |done].
  intros x o st' Q' Ho Hwp. wp_go. apply wp_get_tb. by exists o.
Qed.
End steps.

(** ** The abstract throttle: a map of buckets *)
Section specification.
Implicit Types (b : tbucket) (a : throttle) (dg : bytes).

Definition fresh_bucket dg (limit : Z) (period now : double) : tbucket :=
  Tbucket dg now period dzero limit limit.
Definition bucket_of a dg limit period now : tbucket :=
  default (fresh_bucket dg limit period now) (a_map a !! dg).

(** One call on a topped-up bucket: is it denied, and what becomes of the
    bucket. *)
Definition charge (block now : double) b : bool * tbucket :=
  if dltb dzero block && dltb now (tb_block b) then
    (true, set_last_used now (if (0 <? tokens b)%Z then set_tokens (tokens b - 1) b else b))
  else if (0 <? tokens b)%Z then
    (false, set_block (if dltb dzero block then dzero else tb_block b)
              (set_last_used now (set_tokens (tokens b - 1) b)))
  else (true, if dltb dzero block then set_block (dadd now block) b else b).

(** Counting the call in its partition; every 1000th call drops the
    partition's expired buckets. *)
Definition tick (now : double) (p : nat) a : throttle :=
  let n := (default 0 (a_gc a !! p) + 1)%Z in
  if (n =? GC_INTVL)%Z
  then Throttle (swept (expired now) p (a_map a)) (<[p := 0%Z]> (a_gc a)) (a_init a)
  else Throttle (a_map a) (<[p := n]> (a_gc a)) (a_init a).

Definition spec_is_denied dg limit period block now (n : Z) a : bool * throttle :=
  let '(ret, b) := charge block now (topped_up n (bucket_of a dg limit period now)) in
  (ret, tick now (part_of dg) (Throttle (<[dg := b]> (a_map a)) (a_gc a) (a_init a))).
End specification.

Section refinement.
Context {T : Type} `{!OrdTree bytes T, !OrdTreeLaws memcmp}.
Implicit Types (st : tb_state T) (b o : tbucket) (dg : bytes) (p : nat) (a : throttle).

Lemma rep_gc_lookup st a p v : rep st a → parts st !! p = Some v → a_gc a !! p = Some (gc_count v).
Proof. intros Hr Hv. by rewrite <-(rep_gc _ _ Hr), list_lookup_fmap, Hv. Qed.

(** The bucket a call works on, whatever digest it was stored under. *)
Lemma bucket_of_digest st a dg limit period now :
  rep st a → digest (bucket_of a dg limit period now) = dg.
Proof.
  intros Hr. unfold bucket_of. destruct (a_map a !! dg) as [b|] eqn:Hb; [|done].
  by apply (rep_map _ _ Hr) in Hb as [? _].
Qed.

Definition gc_ok a : Prop := Forall (λ n, 0 ≤ n < GC_INTVL)%Z (a_gc a).

(** The end of is_denied: the counter and the garbage collector. *)
Lemma wp_tick now dg (ret : bool) st a (Q : bool → tb_state T → Prop) :
  rep st a → gc_ok a → (∀ st', rep st' (tick now (part_of dg) a) → Q ret st') →
  wp (v ← get_part (part_of dg);
      put_part (part_of dg) (Vsthrottle (buckets v) (u32 (gc_count v + 1)) (mtx v));;;
      v ← get_part (part_of dg);
      (if (gc_count v =? GC_INTVL)%Z then
         run_gc now (part_of dg);;;
         v ← get_part (part_of dg); put_part (part_of dg) (Vsthrottle (buckets v) 0 (mtx v))
       else mret tt);;;
      mret ret) Q st.
Proof.
  intros Hr Hgc HQ. pose proof (rep_shape _ _ Hr) as Hs. wp_go.
  apply wp_get_part_of; [done|]. intros v Hv.
  pose proof (rep_gc_lookup _ _ _ _ Hr Hv) as Hc.
  assert (0 ≤ gc_count v < GC_INTVL)%Z as Hn by exact (Forall_lookup_1 _ _ _ _ Hgc Hc).
  unfold GC_INTVL in Hn. pose proof (lookup_lt_Some _ _ _ Hv) as Hlt.
  assert (u32 (gc_count v + 1) = gc_count v + 1)%Z as ->
    by (unfold u32; rewrite Z.mod_small; lia).
  unfold tick in HQ. rewrite Hc in HQ. simpl in HQ.
  wp_go. unfold put_part at 1. wp_go.
  pose proof (rep_count _ _ _ _ (gc_count v + 1)%Z Hr Hv) as Hr1.
  apply wp_get_part_of; [apply Hr1|]. simpl. rewrite list_lookup_insert_eq by done.
  intros ? [= <-]. simpl.
  destruct (Z.eqb_spec (gc_count v + 1) GC_INTVL) as [Heq|Hne]; wp_go; [|by apply HQ].
  eapply wp_run_gc; [exact Hr1|apply part_of_lt|]. simpl. intros st2 Hr2.
  wp_go. apply wp_get_part_of; [apply Hr2|]. intros v2 Hv2. unfold put_part. wp_go.
  apply HQ. pose proof (rep_count _ _ _ _ 0%Z Hr2 Hv2) as Hr3. simpl in Hr3.
  by rewrite list_insert_insert_eq in Hr3.
Qed.

Lemma gc_ok_tick now p a : gc_ok a → gc_ok (tick now p a).
Proof.
  intros Hgc. unfold tick, gc_ok in *.
  destruct (Z.eqb_spec (default 0 (a_gc a !! p) + 1) GC_INTVL)%Z as [Heq|Hne]; simpl.
  - apply Forall_insert; [done|]. unfold GC_INTVL. lia.
  - destruct (a_gc a !! p) as [n|] eqn:Hp; simpl in *.
    + apply Forall_insert; [done|]. pose proof (Forall_lookup_1 _ _ _ _ Hgc Hp) as Hn.
      simpl in Hn. lia.
    + by rewrite list_insert_ge by (by apply lookup_ge_None).
Qed.

(** The bucket a call works on. *)
Definition current dg (m : gmap bytes tbucket) gc ini l b st : Prop :=
  tb_heap st !! l = Some b ∧ digest b = dg ∧ rep st (Throttle (<[dg := b]> m) gc ini).
Lemma wp_get_current dg m gc ini l b (Q : tbucket → tb_state T → Prop) st :
  current dg m gc ini l b st → Q b st → wp (get_tb l) Q st.
Proof. intros (Hl & _ & _) HQ. apply wp_get_tb. eauto. Qed.
Lemma wp_put_current dg m gc ini l b b' (Q : unit → tb_state T → Prop) st :
  current dg m gc ini l b st → digest b' = dg →
  (∀ st', current dg m gc ini l b' st' → Q tt st') → wp (put_tb l b') Q st.
Proof.
  intros (Hl & Hd & Hr) Hd' HQ. eapply wp_put_tb; [done|done|congruence|].
  intros st' Hl' Hr'. apply HQ. split; [done|]. split; [done|]. simpl in Hr'.
  by rewrite Hd, insert_insert_eq in Hr'.
Qed.
Lemma wp_bucket dg limit period now st a (Q : loc → tb_state T → Prop) :
  rep st a →
  (∀ l st', current dg (a_map a) (a_gc a) (a_init a) l
              (bucket_of a dg limit period now) st' → Q l st') →
  wp (get_bucket dg limit period now) Q st.
Proof.
  intros Hr HQ. eapply wp_get_bucket; [done|]. intros l b st1 -> Hl Hd Hr1.
  apply HQ. split; [done|]. by split.
Qed.
Lemma wp_calc_current dg m gc ini l b now n (Q : unit → tb_state T → Prop) st :
  current dg m gc ini l b st → chargeable now b n →
  (∀ st', current dg m gc ini l (topped_up n b) st' → Q tt st') →
  wp (calc_tokens l now) Q st.
Proof.
  intros (Hl & Hd & Hr) Hch HQ. eapply wp_calc_tokens; [done..|]. intros st' Hl' Hr'.
  apply HQ. split; [done|]. split; [done|]. simpl in Hr'.
  by rewrite Hd, insert_insert_eq in Hr'.
Qed.

Context (SHA256 : bytes → bytes).

(** vmod_is_denied implements the specification. *)
Lemma wp_is_denied key limit period block now n st a (Q : bool → tb_state T → Prop) :
  let dg := do_digest SHA256 key limit period block in
  rep st a → gc_ok a → chargeable now (bucket_of a dg limit period now) n →
  (∀ st', let '(r, a') := spec_is_denied dg limit period block now n a in
          rep st' a' → gc_ok a' → Q r st') →
  wp (vmod_is_denied SHA256 (Some key) limit period block now) Q st.
Proof.
  intros dg Hr Hgc Hch HQ. unfold vmod_is_denied. fold dg. cbv zeta. wp_go.
  eapply wp_lock_mtx; [exact Hr|]. wp_go.
  eapply wp_bucket; [done|]. intros l st1 Hcur. wp_go.
  eapply wp_calc_current; [done|exact Hch|]. clear st1 Hcur. intros st2 Hcur.
  unfold spec_is_denied in HQ.
  set (b := topped_up n (bucket_of a dg limit period now)) in *.
  assert (∀ ret b' st', charge block now b = (ret, b') →
    current dg (a_map a) (a_gc a) (a_init a) l b' st' →
    wp (v ← get_part (part_of dg);
        put_part (part_of dg) (Vsthrottle (buckets v) (u32 (gc_count v + 1)) (mtx v));;;
        v ← get_part (part_of dg);
        (if (gc_count v =? GC_INTVL)%Z then
           run_gc now (part_of dg);;;
           v ← get_part (part_of dg); put_part (part_of dg) (Vsthrottle (buckets v) 0 (mtx v))
         else mret tt);;;
        mret ret) Q st') as Hend.
  { intros ret b' st' Hc (_ & _ & Hr'). rewrite Hc in HQ. eapply wp_tick; [exact Hr'|done|].
    intros st3 Hr3. apply HQ; [done|]. by apply gc_ok_tick. }
  clearbody b. clear HQ. unfold charge in Hend.
  assert (digest b = dg) as Hd by by destruct Hcur as (_ & ? & _).
  wp_go. eapply wp_get_current; [done|]. wp_go.
  destruct (dltb dzero block) eqn:Hblk, (dltb now (tb_block b)) eqn:Hnow;
    cbn [andb negb] in *.
  1: eapply wp_put_current; [done|done|]; clear st2 Hcur; intros st2 Hcur.
  all: wp_go; eapply wp_get_current; [done|]; wp_go; cbn [tokens set_last_used].
  all: destruct (Z.ltb_spec 0 (tokens b)) as [Htok|Htok]; wp_go.
  all: try (eapply wp_put_current; [done|done|]; clear st2 Hcur; intros st2 Hcur).
  all: wp_go; cbn [andb negb]; wp_go.
  all: try (apply (proj1 (wp_bind _ _ _ _)); by eapply Hend).
  eapply wp_get_current; [done|]. wp_go.
  eapply wp_put_current; [done|done|]. clear st2 Hcur. intros st2 Hcur. wp_go.
  apply (proj1 (wp_bind _ _ _ _)). by eapply Hend.
Qed.

Lemma wp_remaining key limit period block now n st a (Q : Z → tb_state T → Prop) :
  let dg := do_digest SHA256 key limit period block in
  let b := topped_up n (bucket_of a dg limit period now) in
  rep st a → chargeable now (bucket_of a dg limit period now) n →
  (∀ st', rep st' (Throttle (<[dg := b]> (a_map a)) (a_gc a) (a_init a)) →
     Q (u32 (tokens b)) st') →
  wp (vmod_remaining SHA256 (Some key) limit period block now) Q st.
Proof.
  intros dg b Hr Hch HQ. unfold vmod_remaining. fold dg. cbv zeta. wp_go.
  eapply wp_lock_mtx; [exact Hr|]. wp_go.
  eapply wp_bucket; [done|]. intros l st1 Hcur. wp_go.
  eapply wp_calc_current; [done|exact Hch|]. intros st2 Hcur2. wp_go.
  eapply wp_get_current; [done|]. wp_go. apply HQ, Hcur2.
Qed.
Lemma wp_blocked key limit period block now st a (Q : double → tb_state T → Prop) :
  let dg := do_digest SHA256 key limit period block in
  let b := bucket_of a dg limit period now in
  rep st a →
  (∀ st', rep st' (Throttle (<[dg := b]> (a_map a)) (a_gc a) (a_init a)) →
     Q (if dleb (dsub (tb_block b) now) dzero then dzero else dsub (tb_block b) now) st') →
  wp (vmod_blocked SHA256 (Some key) limit period block now) Q st.
Proof.
  intros dg b Hr HQ. unfold vmod_blocked. fold dg. cbv zeta. wp_go.
  eapply wp_lock_mtx; [exact Hr|]. wp_go.
  eapply wp_bucket; [done|]. intros l st1 Hcur. wp_go.
  eapply wp_get_current; [done|]. wp_go. apply HQ, Hcur.
Qed.

End refinement.

(** *** Loading and unloading *)
Section loading.
Context {T : Type} `{!OrdTree bytes T, !OrdTreeLaws memcmp}.
Implicit Types (st : tb_state T) (b : tbucket) (dg : bytes) (p : nat) (a : throttle).

Lemma rep_empty_heap st a : rep st a → a_map a = ∅ → tb_heap st = ∅.
Proof.
  intros Hr Hm. apply map_empty. intros l. apply eq_None_not_Some. intros [b Hb].
  pose proof (rep_lookup _ _ _ _ Hr Hb) as Hl. by rewrite Hm, lookup_empty in Hl.
Qed.
Lemma rep_init_count st a n :
  rep st a → rep (TbState (tb_heap st) (parts st) n (next_loc st))
                 (Throttle (a_map a) (a_gc a) n).
Proof.
  intros Hr. pose proof (rep_shape _ _ Hr) as Hs.
  split; simpl; [by split; apply Hs|apply Hr|apply Hr|done|apply Hr].
Qed.

(** The first LOAD of the process, a later one while VCLs are loaded, and
    the first one after all were unloaded. *)
Definition loaded : tb_state T := TbState ∅ (replicate N_PART (Vsthrottle VRB_INIT 0 true)) 1 1.
Lemma event_first_load : event_function VCL_EVENT_LOAD tb_boot = Ret (0%Z, loaded).
Proof. reflexivity. Qed.
Lemma wp_event_load st a (Q : Z → tb_state T → Prop) :
  rep st a → (0 < a_init a < 2 ^ 32 - 1)%Z →
  (∀ st', rep st' (Throttle (a_map a) (a_gc a) (a_init a + 1)) → Q 0%Z st') →
  wp (event_function VCL_EVENT_LOAD) Q st.
Proof.
  intros Hr Hn HQ. unfold event_function. rewrite decide_True by done. wp_go.
  rewrite (rep_init _ _ Hr), (proj2 (Z.eqb_neq _ _)) by lia. wp_go.
  rewrite ?(rep_init _ _ Hr). apply HQ. replace (u32 (a_init a + 1)) with (a_init a + 1)%Z
    by (unfold u32; rewrite Z.mod_small; lia).
  by apply rep_init_count.
Qed.
Lemma event_reload st a :
  rep st a → a_init a = 0%Z → ∃ w, event_function VCL_EVENT_LOAD st = Undef w.
Proof.
  intros Hr Hi. unfold event_function. rewrite decide_True by done.
  unfold mbind, M_bind, getS. rewrite (rep_init _ _ Hr), Hi. cbn [Z.eqb seq N_PART forM_].
  destruct (lookup_lt_is_Some_2 (parts st) 0) as [v Hv].
  { rewrite (sh_len _ (rep_shape _ _ Hr)). unfold N_PART. lia. }
  unfold get_part, mbind, M_bind, getS, derefM. rewrite Hv. cbn.
  rewrite (Forall_lookup_1 _ _ _ _ (rep_mtx _ _ Hr) Hv). by eexists.
Qed.

Lemma wp_fini st a (Q : unit → tb_state T → Prop) :
  rep st a → (0 < a_init a)%Z →
  (∀ st', rep st' (Throttle (if (a_init a =? 1)%Z then ∅ else a_map a) (a_gc a)
                     (a_init a - 1)) → Q tt st') →
  wp fini Q st.
Proof.
  intros Hr Hn HQ. unfold fini. wp_go.
  { apply Z.ltb_lt. by rewrite (rep_init _ _ Hr). }
  cbn [n_init]. rewrite (rep_init _ _ Hr).
  pose proof (rep_init_count _ _ (a_init a - 1)%Z Hr) as Hr1.
  destruct (Z.eqb_spec (a_init a) 1) as [H1|H1].
  - replace (a_init a - 1 =? 0)%Z with true by (symmetry; apply Z.eqb_eq; lia).
    apply (wp_forM_ (λ seen st', rep st' (Throttle
      (filter (λ '(dg, b), part_of dg ∉ seen) (a_map a)) (a_gc a) (a_init a - 1)))).
    + rewrite map_filter_id; [done|]. set_solver.
    + intros seen p todo st' Hseq Hr'. wp_go.
      apply (wp_sweep (λ _, true) p _ st' _ _ Hr').
      { assert (p ∈ seq 0 N_PART) as Hp by (rewrite Hseq; apply elem_of_app; right; left).
        apply elem_of_seq in Hp. lia. }
      { intros x o st2 Q' Ho Hwp. wp_go. apply wp_get_tb. by exists o. }
      simpl. intros st2 Hr2. unfold swept in Hr2. rewrite map_filter_filter in Hr2.
      match type of Hr2 with rep _ (Throttle ?m _ _) =>
        match goal with |- rep _ (Throttle ?m' _ _) => replace m' with m; [exact Hr2|] end end.
      apply map_filter_ext. intros dg b _. simpl. set_solver.
    + intros st' Hr'. apply HQ.
      replace (filter _ (a_map a)) with (∅ : gmap bytes tbucket) in Hr'; [done|].
      symmetry. apply map_empty. intros dg. apply map_lookup_filter_None. right.
      intros b _ Hn'. apply Hn'.
      apply elem_of_seq. pose proof (part_of_lt dg). lia.
  - replace (a_init a - 1 =? 0)%Z with false by (symmetry; apply Z.eqb_neq; lia).
    wp_go. by apply HQ.
Qed.

Lemma rep_idle n i : rep (T:=T) (TbState ∅ (replicate N_PART (Vsthrottle VRB_INIT n true)) i 1)
                       (Throttle ∅ (replicate N_PART n) i).
Proof.
  destruct (tree_init (cmp:=memcmp) (T:=T)) as [Hi Hi'].
  split; cbn [a_map a_gc a_init]; [|intros; simpl; setoid_rewrite lookup_empty; naive_solver|done|done|by apply Forall_replicate].
  split; cbn [parts tb_heap]; [done| | |intros l b; by rewrite lookup_empty|
    intros l; rewrite lookup_empty; by intros [? ?]].
  - by intros p v [-> _]%lookup_replicate.
  - intros p v k l [-> _]%lookup_replicate. simpl. rewrite Hi'. set_solver.
Qed.
Lemma rep_loaded : rep loaded (Throttle ∅ (replicate N_PART 0%Z) 1).
Proof. apply rep_idle. Qed.
Lemma shape_boot : shape (T:=T) tb_boot.
Proof.
  destruct (tree_init (cmp:=memcmp) (T:=T)) as [Hi Hi'].
  split; cbn [parts tb_heap tb_boot]; [done| | |intros l b; by rewrite lookup_empty|
    intros l; rewrite lookup_empty; by intros [? ?]].
  - by intros p v [-> _]%lookup_replicate.
  - intros p v k l [-> _]%lookup_replicate. simpl. rewrite Hi'. set_solver.
Qed.
End loading.

(** ** Buckets over time *)
Section buckets.
Implicit Types (b : tbucket) (a : throttle) (dg : bytes).

Definition bucket_ok b : Prop :=
  dpos (period b) = true ∧ (0 ≤ tokens b ≤ capacity b)%Z.

Lemma refill_nonneg b now n : bucket_ok b → chargeable now b n → (0 ≤ n)%Z.
Proof.
  intros [Hp Ht] (Hd & Hr & _). rewrite dnonneg_leb in Hd.
  unfold refill in Hr.
  destruct (ddiv_nonneg (dsub now (last_used b)) (period b) Hd Hp) as [Hq|Hq];
    [rewrite Hq in Hr; by destruct (d_of_Z _)|].
  destruct (d_of_Z_nonneg (capacity b)) as [Hc|Hc]; [lia| |].
  - rewrite Hc in Hr. by destruct (ddiv _ _).
  - destruct (dmul_nonneg _ _ Hq Hc) as [Hm|Hm]; [by rewrite Hm in Hr|].
    by eapply dtrunc_nonneg.
Qed.
Lemma topped_up_ok b now n : bucket_ok b → chargeable now b n → bucket_ok (topped_up n b).
Proof.
  intros Hb Hch. pose proof (refill_nonneg _ _ _ Hb Hch). destruct Hb as [Hp Ht].
  split; [done|]. simpl. lia.
Qed.
Lemma charge_ok block now b : bucket_ok b → bucket_ok (charge block now b).2.
Proof.
  intros [Hp Ht]. unfold charge, bucket_ok.
  destruct (dltb dzero block && dltb now (tb_block b)), (Z.ltb_spec 0 (tokens b)),
    (dltb dzero block); simpl; (split; [done|lia]).
Qed.
Lemma charge_digest block now b : digest (charge block now b).2 = digest b.
Proof. unfold charge. by repeat case_match. Qed.

(** No time has passed: nothing is refilled. *)
Lemma chargeable_now b now :
  last_used b = now → dfinite now = true → dpos (period b) = true →
  in_long (tokens b) = true → in_long (capacity b) = true → chargeable now b 0.
Proof.
  intros <- Hf Hp Ht Hc. unfold chargeable, refill. rewrite dsub_diag by done.
  split; [done|]. rewrite Z.add_0_r. split; [|done].
  assert (dfinite (d_of_Z (capacity b)) = true) as Hd.
  { apply d_of_Z_finite. unfold in_long, LONG_MIN, LONG_MAX in Hc.
    apply andb_true_iff in Hc as [?%Z.leb_le ?%Z.leb_le]. lia. }
  destruct (period b) as [[]|[]| |[] m e]; try done;
    by destruct (d_of_Z (capacity b)) as [[]|[]| |[] m' e'].
Qed.
Lemma topped_up_0 b : (tokens b ≤ capacity b)%Z → topped_up 0 b = b.
Proof. intros Ht. unfold topped_up. rewrite Z.add_0_r, Z.min_r by done. by destruct b. Qed.

Lemma expired_now b now :
  last_used b = now → dfinite now = true → dpos (period b) = true → expired now b = false.
Proof.
  intros <- Hf Hp. unfold expired. rewrite dsub_diag by done.
  by destruct (period b) as [[]|[]| |[] m e].
Qed.
Lemma tick_lookup now p a dg b :
  a_map a !! dg = Some b → expired now b = false → a_map (tick now p a) !! dg = Some b.
Proof.
  intros Hb He. unfold tick. case_match; simpl; [|done].
  apply map_lookup_filter_Some. split; [done|]. intros [_ ?]. congruence.
Qed.
Lemma tick_lookup_cases now p a dg b :
  a_map a !! dg = Some b → a_map (tick now p a) !! dg = Some b ∨ a_map (tick now p a) !! dg = None.
Proof.
  intros Hb. destruct (a_map (tick now p a) !! dg) as [b'|] eqn:Hb'; [left|by right].
  unfold tick in Hb'. case_match; simpl in Hb'; [|congruence].
  apply map_lookup_filter_Some in Hb' as [Hb' _]. congruence.
Qed.
(** A bucket with a token and no pending block lets the call through. *)
Lemma charge_admits block now b :
  (0 < tokens b)%Z → dltb now (tb_block b) = false → (charge block now b).1 = false.
Proof.
  intros Ht Hb. unfold charge. rewrite Hb, andb_false_r. by rewrite (proj2 (Z.ltb_lt _ _) Ht).
Qed.
Lemma tick_sub now p a : a_map (tick now p a) ⊆ a_map a.
Proof. unfold tick. case_match; simpl; [apply map_filter_subseteq|done]. Qed.
Lemma tick_init now p a : a_init (tick now p a) = a_init a.
Proof. unfold tick. by case_match. Qed.
Lemma bucket_of_Some a dg limit period now b :
  a_map a !! dg = Some b → bucket_of a dg limit period now = b.
Proof. unfold bucket_of. by intros ->. Qed.

(** A call on the bucket just used at this instant. *)
Definition at_instant now limit per (k : nat) b : Prop :=
  last_used b = now ∧ period b = per ∧ capacity b = limit ∧ tokens b = Z.of_nat k ∧
  (Z.of_nat k ≤ limit)%Z ∧ (0 < k → dltb now (tb_block b) = false).
Lemma charge_at_instant block now limit per k b :
  at_instant now limit per k b → dleb dzero now = true →
  let '(r, b') := charge block now b in
  r = bool_decide (k = 0) ∧ at_instant now limit per (k - 1) b'.
Proof.
  intros (Hl & Hp & Hc & Ht & Hk & Hblk) Hnow. unfold charge. rewrite Ht.
  destruct k as [|k].
  - change (0 <? Z.of_nat 0)%Z with false. cbv iota.
    destruct (dltb dzero block), (dltb now (tb_block b)); simpl;
      (split; [done|]); unfold at_instant; simpl; (split_and!; try done; lia).
  - rewrite Hblk, andb_false_r by lia.
    replace (0 <? Z.of_nat (S k))%Z with true by (symmetry; apply Z.ltb_lt; lia).
    split; [by rewrite bool_decide_eq_false_2|]. unfold at_instant. simpl.
    split_and!; try done; try lia. intros _. destruct (dltb dzero block); [|apply Hblk; lia].
    rewrite dnonneg_leb in Hnow. by destruct now as [[]|[]| |[] m e].
Qed.
End buckets.

(** A call of is_denied. *)
Record dcall := DCall {
  dc_key : bytes; dc_limit : Z; dc_period : double; dc_block : double; dc_now : double;
}.

(** ** Properties *)
Section properties.
Context {T : Type} `{!OrdTree bytes T, !OrdTreeLaws memcmp}.
Context (SHA256 : bytes → bytes).
Implicit Types (st : tb_state T) (b : tbucket) (dg : bytes) (a : throttle).
#[local] Abbreviation digest_of := (do_digest SHA256).

(** C2: vmod_is_denied implements the token bucket specification: on the
    bucket of the call's digest (a full one when there is none) it adds the
    refill, answers and updates as [charge] says, and every 1000th call of a
    partition drops exactly that partition's expired buckets; no other
    bucket changes. *)
Theorem is_denied_refines key limit period block now n st a :
  let dg := digest_of key limit period block in
  rep st a → gc_ok a → chargeable now (bucket_of a dg limit period now) n →
  wp (vmod_is_denied SHA256 (Some key) limit period block now)
     (λ r st', let '(r', a') := spec_is_denied dg limit period block now n a in
        r = r' ∧ rep st' a' ∧ gc_ok a') st.
Proof.
  intros dg Hr Hgc Hch. eapply wp_is_denied; [done|done|exact Hch|]. intros st'.
  fold dg. by destruct (spec_is_denied _ _ _ _ _ _ _).
Qed.

(** [n] calls in a row. *)
Fixpoint calls (n : nat) (m : M (tb_state T) bool) : M (tb_state T) (list bool) :=
  match n with
  | O => mret []
  | S n => r ← m; rs ← calls n m; mret (r :: rs)
  end.

Lemma calls_at_instant key limit period block now n k st a b :
  let dg := digest_of key limit period block in
  rep st a → gc_ok a → bucket_of a dg limit period now = b →
  at_instant now limit period k b →
  dfinite now = true → dleb dzero now = true → dpos period = true → in_long limit = true →
  wp (calls n (vmod_is_denied SHA256 (Some key) limit period block now))
     (λ rs _, rs = replicate (n `min` k) false ++ replicate (n - k) true) st.
Proof.
  intros dg. revert k st a b.
  induction n as [|n IH]; intros k st a b Hr Hgc Hb Hat Hf Hz Hp Hlim; [done|].
  cbn [calls]. wp_go. pose proof Hat as (Hl & Hper & Hc & Ht & Hk & _).
  assert (in_long (Z.of_nat k) = true) as Hlk.
  { unfold in_long, LONG_MIN, LONG_MAX in *. rewrite andb_true_iff, !Z.leb_le in *. lia. }
  assert (chargeable now b 0) as Hch by (apply chargeable_now; congruence).
  eapply wp_is_denied; [done|done|fold dg; by rewrite Hb|]. intros st'. fold dg.
  unfold spec_is_denied. rewrite Hb, topped_up_0 by lia.
  pose proof (charge_at_instant block now limit period k b Hat Hz) as Hcharge.
  destruct (charge block now b) as [r b'] eqn:Hcb. destruct Hcharge as [-> Hat'].
  intros Hr' Hgc'. wp_go.
  eapply wp_mono; [eapply (IH (k - 1) st' _ b'); [exact Hr'|exact Hgc'| |done..]|].
  - apply bucket_of_Some, tick_lookup; [apply lookup_insert_eq|].
    destruct Hat' as (? & ? & _). apply expired_now; congruence.
  - intros rs st2 ->. wp_go. destruct k as [|k]; simpl.
    + by rewrite Nat.min_0_r, Nat.sub_0_r.
    + by rewrite Nat.sub_0_r.
Qed.

(** C11: the limit is a hard limit: of [n] calls with the same arguments at
    one instant, starting from no bucket, exactly the first [limit] are let
    through and all others are denied, even across garbage collections. *)
Theorem exactly_limit_calls key (limit : nat) period block now n st a :
  rep st a → gc_ok a → a_map a !! digest_of key (Z.of_nat limit) period block = None →
  dfinite now = true → dleb dzero now = true → dpos period = true →
  in_long (Z.of_nat limit) = true →
  wp (calls n (vmod_is_denied SHA256 (Some key) (Z.of_nat limit) period block now))
     (λ rs _, rs = replicate (n `min` limit) false ++ replicate (n - limit) true) st.
Proof.
  intros Hr Hgc Hnone Hf Hz Hp Hlim. eapply calls_at_instant; try done.
  unfold bucket_of. rewrite Hnone. simpl. unfold at_instant. simpl.
  split_and!; try done. intros _. rewrite dnonneg_leb in Hz.
  by destruct now as [[]|[]| |[] m e].
Qed.

(** Calls of is_denied with any arguments, in order. *)
Fixpoint run_denied (cs : list dcall) : M (tb_state T) (list bool) :=
  match cs with
  | [] => mret []
  | c :: cs =>
      r ← vmod_is_denied SHA256 (Some (dc_key c)) (dc_limit c) (dc_period c) (dc_block c) (dc_now c);
      rs ← run_denied cs;
      mret (r :: rs)
  end.
Definition dc_digest (c : dcall) : bytes := digest_of (dc_key c) (dc_limit c) (dc_period c) (dc_block c).
(** Each call finds a clock that has not run backwards since its bucket was
    used, and a refill within the range of a long. *)
Fixpoint answerable (cs : list dcall) a : bool :=
  match cs with
  | [] => true
  | c :: cs =>
      let b := bucket_of a (dc_digest c) (dc_limit c) (dc_period c) (dc_now c) in
      dleb dzero (dsub (dc_now c) (last_used b)) &&
      match refill b (dc_now c) with
      | None => false
      | Some n =>
          in_long (tokens b + n) &&
          answerable cs (spec_is_denied (dc_digest c) (dc_limit c) (dc_period c) (dc_block c) (dc_now c) n a).2
      end
  end.
(** At no call, of whatever key, the bucket of [dg] is older than its period
    [per]: [last] is its last use before the calls. *)
Fixpoint stays_used dg (per last : double) (cs : list dcall) : bool :=
  match cs with
  | [] => true
  | c :: cs =>
      let last := if decide (dc_digest c = dg) then dc_now c else last in
      negb (dltb per (dsub (dc_now c) last)) && stays_used dg per last cs
  end.

Lemma wp_run_denied_cons c cs (Q : list bool → tb_state T → Prop) st a :
  rep st a → gc_ok a → answerable (c :: cs) a = true →
  (∀ n st', let b := bucket_of a (dc_digest c) (dc_limit c) (dc_period c) (dc_now c) in
     let '(r, a') := spec_is_denied (dc_digest c) (dc_limit c) (dc_period c) (dc_block c) (dc_now c) n a in
     chargeable (dc_now c) b n → rep st' a' → gc_ok a' → answerable cs a' = true →
     wp (run_denied cs) (λ rs, Q (r :: rs)) st') →
  wp (run_denied (c :: cs)) Q st.
Proof.
  intros Hr Hgc Hans HQ. cbn [run_denied answerable] in *. cbv zeta in Hans.
  set (b := bucket_of _ _ _ _ _) in *. apply andb_true_iff in Hans as [Hd Hans].
  destruct (refill b (dc_now c)) as [n|] eqn:Hn; [|done]. apply andb_true_iff in Hans as [Hl Hans].
  assert (chargeable (dc_now c) b n) as Hch by by split.
  apply wp_bind. eapply wp_is_denied; [exact Hr|exact Hgc|exact Hch|]. intros st'.
  specialize (HQ n st'). fold (dc_digest c).
  destruct (spec_is_denied (dc_digest c) _ _ _ _ _ _) as [r a']. intros Hr' Hgc'.
  apply wp_bind. eapply wp_mono; [by apply HQ|]. intros rs s' HQ'. by apply wp_ret.
Qed.

(** The calls while a block is pending. *)
Lemma blocked_run dg block until per cs last st a b :
  rep st a → gc_ok a → a_map a !! dg = Some b → tb_block b = until → period b = per → last_used b = last →
  dltb dzero block = true → answerable cs a = true →
  Forall (λ c, dc_digest c = dg → dc_block c = block ∧ dltb (dc_now c) until = true) cs →
  stays_used dg per last cs = true →
  wp (run_denied cs) (λ rs _, ∀ i c, cs !! i = Some c → dc_digest c = dg → rs !! i = Some true) st.
Proof.
  intros Hr Hgc Hb Hu Hp Hl Hblk. revert last st a b Hr Hgc Hb Hu Hp Hl.
  induction cs as [|c cs IH]; intros last st a b Hr Hgc Hb Hu Hp Hl Hans Hcs Huse; [by apply wp_ret|].
  apply Forall_cons in Hcs as [Hc Hcs]. cbn [stays_used] in Huse. cbv zeta in Huse.
  apply andb_true_iff in Huse as [Hexp%negb_true_iff Huse].
  eapply wp_run_denied_cons; [exact Hr|exact Hgc|exact Hans|]. intros n st'. cbv zeta. unfold spec_is_denied.
  destruct (decide (dc_digest c = dg)) as [Hd|Hd].
  - destruct (Hc Hd) as [Hcb Hnow]. rewrite Hd, Hcb, (bucket_of_Some _ _ _ _ _ _ Hb).
    unfold charge. cbn [tb_block topped_up set_tokens]. rewrite Hblk, Hu, Hnow. cbn [andb].
    set (b' := set_last_used _ _). intros _ Hr' Hgc' Hans'.
    assert (tb_block b' = until ∧ period b' = per ∧ last_used b' = dc_now c) as (H1 & H2 & H3).
    { subst b'. by destruct (0 <? _)%Z. }
    eapply wp_mono; [eapply (IH (dc_now c) st' _ b'); try done|].
    + apply tick_lookup; [apply lookup_insert_eq|]. unfold expired. by rewrite H2, H3.
    + intros rs s' Hrs [|i] c' Hi; [done|]. by apply Hrs.
  - destruct (charge _ _ _) as [r b1]. intros _ Hr' Hgc' Hans'.
    eapply wp_mono; [eapply (IH last st' _ b); try done|].
    + apply tick_lookup; [simpl; by rewrite lookup_insert_ne|]. unfold expired. by rewrite Hp, Hl.
    + intros rs s' Hrs [|i] c' Hi; [by injection Hi as ->|]. by apply Hrs.
Qed.

(** C31: a denial opens the block: after a call at [t1] that finds no token
    (and no pending block), however many calls follow, of this key and of
    others, every call of the key before [t1 + block] is denied, whatever the
    refill in between, as long as the collector cannot take the bucket, that
    is, as at no call the key's last use is more than its period ago (a
    blocked call is a use; the first denial itself is not).  Without this
    condition the block may end early, see [gc_forgets_block]. *)
Theorem denial_blocks key limit period block t1 n1 cs st a :
  let dg := digest_of key limit period block in
  let b1 := topped_up n1 (bucket_of a dg limit period t1) in
  rep st a → gc_ok a → dltb dzero block = true →
  chargeable t1 (bucket_of a dg limit period t1) n1 →
  (tokens b1 ≤ 0)%Z → dltb t1 (tb_block b1) = false → expired t1 b1 = false →
  answerable cs (spec_is_denied dg limit period block t1 n1 a).2 = true →
  Forall (λ c, dc_digest c = dg → dc_block c = block ∧ dltb (dc_now c) (dadd t1 block) = true) cs →
  stays_used dg (VsThrottle.period b1) (last_used b1) cs = true →
  wp (r ← vmod_is_denied SHA256 (Some key) limit period block t1;
      rs ← run_denied cs;
      mret (r, rs))
     (λ res _, res.1 = true ∧
        ∀ i c, cs !! i = Some c → dc_digest c = dg → res.2 !! i = Some true) st.
Proof.
  intros dg b1 Hr Hgc Hblk Hch1 Htok Hnb Hexp Hans Hcs Huse. apply wp_bind.
  eapply wp_is_denied; [done|done|exact Hch1|]. intros st1. fold dg. revert Hans.
  unfold spec_is_denied. fold b1. unfold charge. rewrite Hblk, Hnb. cbn [andb].
  destruct (Z.ltb_spec 0 (tokens b1)); [lia|]. cbn [snd]. intros Hans Hr1 Hgc1. apply wp_bind.
  eapply wp_mono; [eapply (blocked_run dg block (dadd t1 block) (VsThrottle.period b1) cs (last_used b1) st1 _
    (set_block (dadd t1 block) b1)); try done|].
  - apply tick_lookup; [apply lookup_insert_eq|exact Hexp].
  - intros rs s' Hrs. by apply wp_ret.
Qed.

(** The calls of other keys leave a bucket alone, or the collector takes it. *)
Lemma others_run dg b cs st a :
  rep st a → gc_ok a → a_map a !! dg = Some b ∨ a_map a !! dg = None → answerable cs a = true →
  Forall (λ c, dc_digest c ≠ dg) cs →
  wp (run_denied cs) (λ _ st', ∃ a', rep st' a' ∧ gc_ok a' ∧
    (a_map a' !! dg = Some b ∨ a_map a' !! dg = None)) st.
Proof.
  revert st a. induction cs as [|c cs IH]; intros st a Hr Hgc Hb Hans Hcs; [apply wp_ret; eauto|].
  apply Forall_cons in Hcs as [Hc Hcs].
  eapply wp_run_denied_cons; [exact Hr|exact Hgc|exact Hans|]. intros n st'. cbv zeta. unfold spec_is_denied.
  destruct (charge _ _ _) as [r b1]. intros _ Hr' Hgc' Hans'. eapply IH; [exact Hr'|done| |done|done].
  destruct Hb as [Hb|Hb].
  - apply tick_lookup_cases. simpl. by rewrite lookup_insert_ne.
  - right. eapply lookup_weaken_None; [|apply tick_sub]. simpl. by rewrite lookup_insert_ne.
Qed.

(** C32: nobody is locked out for good: whatever the call at [t1] answered,
    and whatever calls of other keys follow, the next call of the key at [t2]
    is let through once no block is pending at [t2] and the time since has
    refilled a token, whether the garbage collector, which any of these calls
    may have started, dropped the bucket in between or not. *)
Theorem waiting_admits key limit period block t1 t2 n1 n2 cs st a :
  let dg := digest_of key limit period block in
  let b1 := (charge block t1 (topped_up n1 (bucket_of a dg limit period t1))).2 in
  rep st a → gc_ok a → chargeable t1 (bucket_of a dg limit period t1) n1 →
  answerable cs (spec_is_denied dg limit period block t1 n1 a).2 = true →
  Forall (λ c, dc_digest c ≠ dg) cs →
  chargeable t2 b1 n2 → (0 < tokens b1 + n2)%Z → (0 < capacity b1)%Z →
  dltb t2 (tb_block b1) = false →
  (0 < limit)%Z → in_long limit = true → dpos period = true →
  dfinite t2 = true → dleb dzero t2 = true →
  wp (_ ← vmod_is_denied SHA256 (Some key) limit period block t1;
      _ ← run_denied cs;
      vmod_is_denied SHA256 (Some key) limit period block t2) (λ r _, r = false) st.
Proof.
  intros dg b1 Hr Hgc Hch1 Hans Hcs Hch2 Htok Hcap Hblk Hlim Hlong Hper Hfin Hpos. apply wp_bind.
  eapply wp_is_denied; [done|done|exact Hch1|]. intros st1. fold dg. revert Hans.
  unfold spec_is_denied. unfold b1 in *. clear b1.
  destruct (charge block t1 _) as [r b1]. cbn [snd] in *. intros Hans Hr1 Hgc1. apply wp_bind.
  eapply wp_mono; [eapply (others_run dg b1); [exact Hr1|done| |done|done]|].
  { apply tick_lookup_cases, lookup_insert_eq. }
  intros _ st2 (a2 & Hr2 & Hgc2 & Hb).
  assert (∃ n, chargeable t2 (bucket_of a2 dg limit period t2) n ∧
    (charge block t2 (topped_up n (bucket_of a2 dg limit period t2))).1 = false) as (n & Hch & Hadm).
  { destruct Hb as [Hb|Hb]; unfold bucket_of; rewrite Hb; simpl.
    - exists n2. split; [done|]. apply charge_admits; [simpl; lia|done].
    - exists 0%Z. split; [by apply chargeable_now|]. apply charge_admits; [simpl; lia|].
      simpl. rewrite dnonneg_leb in Hpos. by destruct t2 as [[]|[]| |[] m e]. }
  eapply wp_is_denied; [exact Hr2|exact Hgc2|exact Hch|]. intros st3. fold dg.
  unfold spec_is_denied. destruct (charge block t2 _) as [r2 b2]. simpl in Hadm. done.
Qed.

(** [vmod_remaining] reports the topped-up tokens (as an unsigned 32-bit
    number) but stores them without moving last_used, so asking again at the
    same instant refills the same time span again: the second answer is the
    first plus the refill, up to the capacity. *)
Theorem remaining_refills_again key limit period block now n st a :
  let dg := digest_of key limit period block in
  let b := bucket_of a dg limit period now in
  rep st a → chargeable now b n → in_long (tokens (topped_up n b) + n) = true →
  wp (r1 ← vmod_remaining SHA256 (Some key) limit period block now;
      r2 ← vmod_remaining SHA256 (Some key) limit period block now;
      mret (r1, r2))
     (λ r st', r = (u32 (Z.min (capacity b) (tokens b + n)),
                    u32 (Z.min (capacity b) (Z.min (capacity b) (tokens b + n) + n))) ∧
        rep st' (Throttle (<[dg := topped_up n (topped_up n b)]> (a_map a)) (a_gc a) (a_init a)))
     st.
Proof.
  intros dg b Hr Hch Hlong. wp_go. eapply wp_remaining; [done|exact Hch|]. fold dg b.
  intros st1 Hr1. wp_go.
  assert (bucket_of (Throttle (<[dg := topped_up n b]> (a_map a)) (a_gc a) (a_init a))
            dg limit period now = topped_up n b) as Hb
    by apply bucket_of_Some, lookup_insert_eq.
  eapply (wp_remaining _ _ _ _ _ _ n); [exact Hr1|fold dg; rewrite Hb|].
  - destruct Hch as (H1 & H2 & _). by split_and!.
  - fold dg. rewrite Hb. simpl. intros st2 Hr2. wp_go. split; [done|].
    by rewrite insert_insert_eq in Hr2.
Qed.

(** Garbage collection forgets a pending block: once the bucket of a
    blocked key has been idle for longer than its period, the collector
    drops it, and the next call is let through before the block's end. *)
Theorem gc_forgets_block key limit period block now st a b :
  let dg := digest_of key limit period block in
  rep st a → gc_ok a → a_map a !! dg = Some b →
  dltb dzero block = true → dltb now (tb_block b) = true → expired now b = true →
  dfinite now = true → dleb dzero now = true → dpos period = true →
  in_long limit = true → (0 < limit)%Z →
  wp (run_gc now (part_of dg);;;
      vmod_is_denied SHA256 (Some key) limit period block now) (λ r _, r = false) st.
Proof.
  intros dg Hr Hgc Hb Hblk Hpend Hexp Hf Hz Hp Hlim H0. wp_go.
  eapply wp_run_gc; [done|apply part_of_lt|]. intros st1 Hr1. set (a1 := Throttle _ _ _) in Hr1.
  assert (bucket_of a1 dg limit period now = fresh_bucket dg limit period now) as Hfresh.
  { unfold bucket_of. simpl. unfold swept.
    replace (filter _ _ !! dg) with (@None tbucket); [done|]. symmetry.
    apply map_lookup_filter_None. right. intros b' Hb' Hn. apply Hn. split; [done|].
    congruence. }
  eapply (wp_is_denied SHA256 _ _ _ _ _ 0); [exact Hr1|done|fold dg; rewrite Hfresh|].
  - apply chargeable_now; done.
  - fold dg. unfold spec_is_denied, charge. rewrite Hfresh, topped_up_0 by done. simpl.
    rewrite dnonneg_leb in Hz.
    replace (dltb now dzero) with false by (by destruct now as [[]|[]| |[] m e]).
    rewrite andb_false_r. destruct (Z.ltb_spec 0 limit); [done|lia].
Qed.

(** A call's bucket is identified by the exact bytes of its key, limit,
    period and block: distinct argument tuples feed SHA256 distinct
    inputs. *)
Theorem digest_input_injective (s s' : bytes) (l l' : Z) (p p' b b' : double) :
  in_long l = true → in_long l' = true →
  dvalid p → dvalid p' → dvalid b → dvalid b' →
  digest_input s l p b = digest_input s' l' p' b' → s = s' ∧ l = l' ∧ p = p' ∧ b = b'.
Proof.
  intros Hl Hl' Hp Hp' Hb Hb'. unfold digest_input.
  intros Heq. rewrite !(assoc_L (++)) in Heq.
  apply app_inj_2 in Heq as [Heq Hbb]; [|by unfold double_bytes; rewrite !le_bytes_length].
  apply app_inj_2 in Heq as [Heq Hpp]; [|by unfold double_bytes; rewrite !le_bytes_length].
  apply app_inj_2 in Heq as [-> Hll]; [|by unfold long_bytes; rewrite !le_bytes_length].
  apply double_bytes_inj in Hbb as ->; [|done..].
  apply double_bytes_inj in Hpp as ->; [|done..].
  split_and!; try done. apply le_bytes_inj in Hll; [|apply Z.mod_pos_bound; done..].
  unfold in_long, LONG_MIN, LONG_MAX in *. rewrite andb_true_iff, !Z.leb_le in *.
  assert (∀ z, (- 2 ^ 63 ≤ z ≤ 2 ^ 63 - 1)%Z →
    (z mod 2 ^ 64 = if z <? 0 then z + 2 ^ 64 else z)%Z) as Hmod.
  { intros z Hz. destruct (Z.ltb_spec z 0); symmetry;
      [apply Z.mod_unique with (-1)%Z|apply Z.mod_unique with 0%Z]; lia. }
  rewrite !Hmod in Hll by lia.
  destruct (Z.ltb_spec l 0), (Z.ltb_spec l' 0); lia.
Qed.

(** Nothing guards against a period of zero: the first call divides 0
    by 0 and converts the NaN to a long, which is undefined. *)
Theorem period_zero_undefined key limit block now st a :
  let dg := digest_of key limit dzero block in
  rep st a → a_map a !! dg = None → dfinite now = true →
  ∃ w, vmod_is_denied SHA256 (Some key) limit dzero block now st = Undef w.
Proof.
  intros dg Hr Hnone Hf. exists "conversion to long out of range".
  assert (wp (get_bucket dg limit dzero now) (λ l st', tb_heap st' !! l =
    Some (fresh_bucket dg limit dzero now)) st) as Hwp.
  { eapply wp_bucket; [done|]. intros l st' (Hl & _). unfold bucket_of in Hl.
    by rewrite Hnone in Hl. }
  apply wp_run in Hwp as (l & st' & Hrun & Hl).
  assert (lock_mtx (part_of dg) st = Ret (tt, st)) as Hlock.
  { pose proof (wp_lock_mtx dg st a (λ _ s, s = st) Hr eq_refl) as Hwp. unfold wp in Hwp.
    by destruct (lock_mtx _ st) as [[[] s]| | |]; [rewrite Hwp|..]. }
  unfold vmod_is_denied. fold dg. cbv zeta. unfold mbind at 1, M_bind at 1. rewrite Hlock.
  unfold mbind at 1, M_bind at 1. rewrite Hrun.
  unfold mbind at 1, M_bind at 1. unfold calc_tokens.
  assert (get_tb l st' = Ret (fresh_bucket dg limit dzero now, st')) as Hget.
  { unfold get_tb, mbind, M_bind, getS. by rewrite Hl. }
  unfold mbind at 1, M_bind at 1. rewrite Hget. cbv zeta. simpl last_used.
  rewrite dsub_diag by done. unfold refill. simpl last_used. rewrite dsub_diag by done.
  simpl. by destruct (d_of_Z limit).
Qed.
End properties.

(** ** The life of the module *)
Inductive tb_op :=
| Op_event (e : vcl_event)
| Op_fini
| Op_is_denied (key : option bytes) (limit : Z) (period block now : double)
| Op_remaining (key : option bytes) (limit : Z) (period block now : double)
| Op_blocked (key : option bytes) (limit : Z) (period block now : double).

Section life.
Context {T : Type} `{!OrdTree bytes T, !OrdTreeLaws memcmp}.
Context (SHA256 : bytes → bytes).
Implicit Types (st : tb_state T) (b : tbucket) (dg : bytes) (a : throttle).

Definition run_op (op : tb_op) : M (tb_state T) unit :=
  match op with
  | Op_event e => _ ← event_function e; mret tt
  | Op_fini => fini
  | Op_is_denied key limit period block now =>
      _ ← vmod_is_denied SHA256 key limit period block now; mret tt
  | Op_remaining key limit period block now =>
      _ ← vmod_remaining SHA256 key limit period block now; mret tt
  | Op_blocked key limit period block now =>
      _ ← vmod_blocked SHA256 key limit period block now; mret tt
  end.

(** The arguments of a call are sane (a positive period, a limit that is a
    non-negative long, a clock that has not run backwards), and no refill
    leaves the range of a long. *)
Definition call_ok (limit : Z) (period now : double) st : Prop :=
  (0 < n_init st)%Z ∧ (0 ≤ limit)%Z ∧ in_long limit = true ∧
  dpos period = true ∧ dfinite now = true ∧
  ∀ l b, tb_heap st !! l = Some b → ∃ n, chargeable now b n.
Definition op_pre (op : tb_op) st : Prop :=
  match op with
  | Op_event _ => (n_init st < 2 ^ 32 - 1)%Z
  | Op_fini => (0 < n_init st)%Z
  | Op_is_denied _ limit period _ now | Op_remaining _ limit period _ now
  | Op_blocked _ limit period _ now => call_ok limit period now st
  end.

Inductive reachable : tb_state T → Prop :=
| reach_boot : reachable tb_boot
| reach_step st op st' :
    reachable st → op_pre op st → run_op op st = Ret (tt, st') → reachable st'.

Record abs_ok a : Prop := AbsOk {
  ao_gc : gc_ok a;
  ao_init : (0 ≤ a_init a < 2 ^ 32)%Z;
  ao_empty : a_init a = 0%Z → a_map a = ∅;
  ao_buckets : map_Forall (λ _ b, bucket_ok b) (a_map a);
}.
(** Before the first LOAD, or after it. *)
Definition inv st : Prop := st = tb_boot ∨ ∃ a, rep st a ∧ abs_ok a.
(** A LOAD after all VCLs were unloaded. *)
Definition reloads (op : tb_op) st : bool :=
  match op with
  | Op_event VCL_EVENT_LOAD => (n_init st =? 0)%Z && forallb mtx (parts st)
  | _ => false
  end.

Lemma bucket_of_ok st a limit period now dg :
  rep st a → abs_ok a → call_ok limit period now st →
  bucket_ok (bucket_of a dg limit period now) ∧
  ∃ n, chargeable now (bucket_of a dg limit period now) n.
Proof.
  intros Hr Ha (_ & Hl0 & Hl & Hp & Hf & Hall). unfold bucket_of.
  destruct (a_map a !! dg) as [b|] eqn:Hb; simpl.
  - split; [exact (map_Forall_lookup_1 _ _ _ _ (ao_buckets _ Ha) Hb)|].
    apply (rep_map _ _ Hr) in Hb as (_ & l & Hb). eauto.
  - split; [split; [done|simpl; lia]|]. exists 0%Z. by apply chargeable_now.
Qed.

(** Storing a good bucket keeps the invariant. *)
Lemma abs_ok_store a dg b :
  abs_ok a → (0 < a_init a)%Z → bucket_ok b →
  abs_ok (Throttle (<[dg := b]> (a_map a)) (a_gc a) (a_init a)).
Proof.
  intros [H1 H2 H3 H4] Hn Hb. split; simpl; [done|done|lia|].
  by apply map_Forall_insert_2.
Qed.
Lemma abs_ok_tick now p a : abs_ok a → (0 < a_init a)%Z → abs_ok (tick now p a).
Proof.
  intros [H1 H2 H3 H4] Hn. split; rewrite ?tick_init; [by apply gc_ok_tick|done|lia|].
  intros dg b Hb. eapply (map_Forall_lookup_1 _ _ _ _ H4), lookup_weaken;
    [done|apply (tick_sub now p a)].
Qed.

Lemma rep_forallb st a : rep st a → forallb mtx (parts st) = true.
Proof.
  intros Hr. apply forallb_forall. intros v Hv.
  apply list_elem_of_In in Hv. exact (proj1 (Forall_forall _ _) (rep_mtx _ _ Hr) v Hv).
Qed.
Lemma reload_undefined op st : inv st → reloads op st = true → ∃ w, run_op op st = Undef w.
Proof.
  intros [->|(a & Hr & Ha)] Hre; destruct op as [[]| | | |]; try done. cbn [reloads] in Hre.
  apply andb_true_iff in Hre as [Hi%Z.eqb_eq _]. rewrite (rep_init _ _ Hr) in Hi.
  destruct (event_reload st a Hr Hi) as [w Hw]. exists w. cbn [run_op]. unfold mbind, M_bind. by rewrite Hw.
Qed.
Lemma wp_tb_op op st : inv st → op_pre op st → reloads op st = false → wp (run_op op) (λ _ st', inv st') st.
Proof.
  intros [->|(a & Hr & Ha)] Hpre Hre.
  { destruct op as [e| | | |];
      [|exfalso; cbv [op_pre call_ok tb_boot n_init] in Hpre; lia..]. cbn [run_op]. wp_go.
    destruct (decide (e = VCL_EVENT_LOAD)) as [->|He].
    - unfold wp. rewrite event_first_load. right. eexists. split; [apply rep_loaded|].
      split; cbn [a_init a_map]; [|lia|done|by apply map_Forall_empty]. by apply Forall_replicate.
    - unfold event_function. rewrite decide_False by done. wp_go. by left. }
  pose proof (rep_init _ _ Hr) as Hn. pose proof Ha as [Hgc Hi H0 Hb].
  destruct op as [e| |key limit period block now|key limit period block now
                 |key limit period block now]; cbn [run_op op_pre] in *.
  - wp_go. destruct (decide (e = VCL_EVENT_LOAD)) as [->|He].
    + cbn [reloads] in Hre. rewrite (rep_forallb _ _ Hr), andb_true_r in Hre. apply Z.eqb_neq in Hre.
      eapply wp_event_load; [done|lia|]. intros st' Hr'. wp_go. right.
      eexists. split; [done|]. split; simpl; [done|lia|lia|done].
    + unfold event_function. rewrite decide_False by done. wp_go. right. by exists a.
  - eapply wp_fini; [done|lia|]. intros st' Hr'. right. eexists. split; [done|].
    destruct (Z.eqb_spec (a_init a) 1); split; simpl; try done; try lia.
  - destruct key as [key|]; [|by right; exists a]. wp_go.
    destruct (bucket_of_ok st a limit period now (do_digest SHA256 key limit period block))
      as (Hok & n & Hch); [done..|].
    assert (0 < a_init a)%Z as Hpos by (destruct Hpre; lia).
    eapply wp_is_denied; [done|done|exact Hch|]. intros st'. unfold spec_is_denied.
    pose proof (charge_ok block now _ (topped_up_ok _ _ _ Hok Hch)) as Hok'.
    destruct (charge _ _ _) as [r b']. intros Hr' _. wp_go. right. eexists. split; [exact Hr'|].
    apply abs_ok_tick; [by apply abs_ok_store|done].
  - destruct key as [key|]; [|by right; exists a]. wp_go.
    destruct (bucket_of_ok st a limit period now (do_digest SHA256 key limit period block))
      as (Hok & n & Hch); [done..|].
    eapply wp_remaining; [done|exact Hch|]. intros st' Hr'. wp_go. right. eexists.
    split; [exact Hr'|]. apply abs_ok_store; [done|destruct Hpre; lia|by eapply topped_up_ok].
  - destruct key as [key|]; [|by right; exists a]. wp_go.
    destruct (bucket_of_ok st a limit period now (do_digest SHA256 key limit period block))
      as (Hok & n & Hch); [done..|].
    eapply wp_blocked; [done|]. intros st' Hr'. wp_go. right. eexists.
    split; [exact Hr'|]. apply abs_ok_store; [done|destruct Hpre; lia|done].
Qed.

Lemma reachable_inv st : reachable st → inv st.
Proof.
  induction 1 as [|st op st' Hr IH Hpre Hrun]; [by left|].
  destruct (reloads op st) eqn:Hre.
  - destruct (reload_undefined op st IH Hre) as [w Hw]. congruence.
  - pose proof (wp_tb_op op st IH Hpre Hre) as Hwp. unfold wp in Hwp. by rewrite Hrun in Hwp.
Qed.

(** C16: in every state the module can reach, each allocated bucket is in the
    tree of the partition its digest selects and nowhere else, digests are
    unique, every bucket holds between 0 and [capacity] tokens, and every
    further operation returns (no assertion fails, no mutex is used before it
    is initialised, no freed bucket is used, the loops end), with one
    exception: a LOAD after all VCLs were unloaded initialises the mutexes of
    the partitions again, which were never destroyed, and is undefined.
    Calls are made while a VCL is loaded, with sane arguments ([op_pre]): a
    positive period, a non-negative limit, a clock that does not run backwards
    and no refill beyond the range of a long. *)
Theorem vsthrottle_safe st op :
  reachable st → op_pre op st →
  shape st ∧
  (∀ l b, tb_heap st !! l = Some b → (0 ≤ tokens b ≤ capacity b)%Z) ∧
  (∀ l l' b b', tb_heap st !! l = Some b → tb_heap st !! l' = Some b' →
     digest b = digest b' → l = l') ∧
  if reloads op st then ∃ w, run_op op st = Undef w else ∃ st', run_op op st = Ret (tt, st').
Proof.
  intros Hreach Hpre. pose proof (reachable_inv _ Hreach) as Hinv.
  assert (shape st) as Hs by (destruct Hinv as [->|(a & Hr & _)]; [apply shape_boot|apply Hr]).
  split; [done|]. split; [|split; [intros l l' b b'; by apply shape_unique|]].
  - intros l b Hl. destruct Hinv as [->|(a & Hr & Ha)].
    { cbn [tb_boot tb_heap] in Hl. by rewrite lookup_empty in Hl. }
    pose proof (rep_lookup _ _ _ _ Hr Hl) as Hb.
    by destruct (map_Forall_lookup_1 _ _ _ _ (ao_buckets _ Ha) Hb).
  - destruct (reloads op st) eqn:Hre; [by apply reload_undefined|].
    pose proof (wp_tb_op op st Hinv Hpre Hre) as Hwp. apply wp_run in Hwp as ([] & st' & ? & _).
    by exists st'.
Qed.

(** Loading a VCL after the last one was unloaded, which a long-running
    varnishd may do, initialises every partition's mutex a second time. *)
Theorem reload_undefined_again :
  ∃ st, run_op (Op_event VCL_EVENT_LOAD) tb_boot = Ret (tt, loaded) ∧
    run_op Op_fini loaded = Ret (tt, st) ∧ reachable st ∧
    ∃ w, run_op (Op_event VCL_EVENT_LOAD) st = Undef w.
Proof.
  assert (run_op (Op_event VCL_EVENT_LOAD) tb_boot = Ret (tt, loaded)) as Hload.
  { cbn [run_op]. unfold mbind, M_bind. by rewrite event_first_load. }
  assert (reachable loaded) as Hl by (eapply (reach_step _ (Op_event VCL_EVENT_LOAD)); [constructor|done|exact Hload]).
  assert (wp (run_op Op_fini) (λ _ st, rep st (Throttle ∅ (replicate N_PART 0%Z) 0)) loaded) as Hf.
  { eapply (wp_fini loaded); [apply rep_loaded|simpl; lia|]. intros st' Hr'. exact Hr'. }
  apply wp_run in Hf as ([] & st & Hf & Hr). exists st. split; [done|]. split; [done|].
  split; [by eapply (reach_step loaded Op_fini)|].
  destruct (event_reload st _ Hr eq_refl) as [w Hw]. exists w. cbn [run_op]. unfold mbind, M_bind. by rewrite Hw.
Qed.

(** Unloading the last VCL frees every bucket and leaves every
    partition's tree empty; unloading an earlier one touches none. *)
Theorem fini_frees st :
  reachable st → (0 < n_init st)%Z →
  wp fini (λ _ st', n_init st' = (n_init st - 1)%Z ∧
    if decide (n_init st = 1%Z)
    then tb_heap st' = ∅ ∧ (∀ p v, parts st' !! p = Some v → tree_list (buckets v) = [])
    else ∀ b, (∃ l, tb_heap st' !! l = Some b) ↔ (∃ l, tb_heap st !! l = Some b)) st.
Proof.
  intros Hreach Hpos. destruct (reachable_inv _ Hreach) as [->|(a & Hr & Ha)]; [simpl in Hpos; lia|].
  pose proof (rep_init _ _ Hr) as Hn.
  eapply wp_fini; [done|lia|]. intros st' Hr'. pose proof (rep_init _ _ Hr') as Hn'.
  simpl in Hn'. split; [lia|]. rewrite Hn.
  destruct (Z.eqb_spec (a_init a) 1); case_decide; try lia.
  - pose proof (rep_empty_heap _ _ Hr' eq_refl) as He. split; [done|].
    intros p v Hv. destruct (tree_list (buckets v)) as [|[k l] xs] eqn:Hl; [done|].
    destruct (sh_elem _ (rep_shape _ _ Hr') p v k l Hv) as (_ & b & Hb & _);
      [rewrite Hl; left|]. by rewrite He, lookup_empty in Hb.
  - intros b. split; intros [l Hl].
    + pose proof (rep_lookup _ _ _ _ Hr' Hl) as Hb. by apply (rep_map _ _ Hr) in Hb as [_ ?].
    + pose proof (rep_lookup _ _ _ _ Hr Hl) as Hb. by apply (rep_map _ _ Hr') in Hb as [_ ?].
Qed.
End life.

(** ** Concrete runs, on the red-black trees of vtree.h *)
From S2P Require Import VTree.

Module Examples.
(** Any function will do for the digests of these runs. *)
Definition sha (s : bytes) : bytes := s.
Definition boot : tb_state (rbtree bytes) := tb_boot.
Definition after_load : tb_state (rbtree bytes) := loaded.
Definition loaded_abs : throttle := Throttle ∅ (replicate N_PART 0%Z) 1.
Definition key : bytes := str "key".
Definition seconds (n : Z) : double := d_of_Z n.
Definition dg (limit period block : Z) : bytes :=
  do_digest sha key limit (seconds period) (seconds block).

(** A state with one bucket. *)
Definition one (b : tbucket) : tb_state (rbtree bytes) :=
  TbState {[ 1%positive := b ]}
    (<[part_of (digest b) := Vsthrottle (Node VRB_BLACK Nil (digest b, 1%positive) Nil) 0 true]>
       (replicate N_PART (Vsthrottle Nil 0 true))) 1 2.
Definition one_abs (b : tbucket) : throttle :=
  Throttle {[ digest b := b ]} (replicate N_PART 0%Z) 1.
Lemma one_rep b : rep (one b) (one_abs b).
Proof.
  pose proof (part_of_lt (digest b)) as Hlt.
  assert (parts after_load !! part_of (digest b) = Some (Vsthrottle Nil 0 true)) as Hv
    by by apply lookup_replicate.
  assert (tree_ok (Node VRB_BLACK Nil (digest b, 1%positive) Nil)) as Hok.
  { split; [repeat constructor|]. exists 1. by econstructor; constructor. }
  pose proof (rep_new after_load loaded_abs b _ _ rep_loaded Hv eq_refl Hok (reflexivity _)) as H.
  exact H.
Qed.
Lemma zeros_ok m n : gc_ok (Throttle m (replicate N_PART 0%Z) n).
Proof. by apply Forall_replicate. Qed.

(** An exhausted bucket, last used at time 0. *)
Definition empty_bucket (limit period block : Z) : tbucket :=
  Tbucket (dg limit period block) dzero (seconds period) dzero 0 limit.
(** The same, blocked until time 101. *)
Definition blocked_bucket (limit period block : Z) : tbucket :=
  set_block (seconds 101) (empty_bucket limit period block).
End Examples.
Import Examples.

Lemma is_denied_refines_witness :
  wp (vmod_is_denied sha (Some key) 2 (seconds 10) dzero (seconds 5))
     (λ r st', let '(r', a') := spec_is_denied (do_digest sha key 2 (seconds 10) dzero) 2
                                 (seconds 10) dzero (seconds 5) 0 loaded_abs in
        r = r' ∧ rep st' a' ∧ gc_ok a') after_load.
Proof.
  apply (is_denied_refines sha key 2 (seconds 10) dzero (seconds 5) 0 after_load loaded_abs);
    [apply rep_loaded|apply zeros_ok|].
  unfold bucket_of. simpl. apply chargeable_now; reflexivity.
Defined.

Lemma exactly_limit_calls_witness :
  wp (calls 5 (vmod_is_denied sha (Some key) (Z.of_nat 2) (seconds 10) (seconds 1) (seconds 5)))
     (λ rs _, rs = replicate 2 false ++ replicate 3 true) after_load.
Proof.
  apply (exactly_limit_calls sha key 2 (seconds 10) (seconds 1) (seconds 5) 5 after_load loaded_abs);
    [apply rep_loaded|apply zeros_ok|reflexivity..].
Defined.

(** The key again while it is blocked, and another one of its partition. *)
Definition later_calls : list dcall :=
  [DCall key 1 (seconds 10) (seconds 100) (seconds 9); DCall (str "kez") 1 (seconds 10) dzero (seconds 12);
   DCall key 1 (seconds 10) (seconds 100) (seconds 19); DCall key 1 (seconds 10) (seconds 100) (seconds 25)].
Lemma empty_bucket_found limit period block now :
  bucket_of (one_abs (empty_bucket limit period block)) (do_digest sha key limit (seconds period) (seconds block))
    limit (seconds period) now = empty_bucket limit period block.
Proof. apply bucket_of_Some, lookup_singleton_eq. Qed.
Lemma denial_blocks_witness :
  wp (r ← vmod_is_denied sha (Some key) 1 (seconds 10) (seconds 100) (seconds 1);
      rs ← run_denied sha later_calls;
      mret (r, rs))
     (λ res _, res.1 = true ∧
        ∀ i c, later_calls !! i = Some c → dc_digest sha c = dg 1 10 100 → res.2 !! i = Some true)
     (one (empty_bucket 1 10 100)).
Proof.
  pose proof (empty_bucket_found 1 10 100) as Hb.
  pose proof (denial_blocks sha key 1 (seconds 10) (seconds 100) (seconds 1) 0 later_calls
           (one (empty_bucket 1 10 100)) (one_abs (empty_bucket 1 10 100))) as H.
  cbv zeta in H. rewrite Hb in H. apply H;
    [apply one_rep|apply zeros_ok|reflexivity|split_and!; vm_compute; reflexivity|vm_compute; done|
     vm_compute; reflexivity..| |vm_compute; reflexivity].
  apply (bool_decide_unpack _). vm_compute. exact I.
Defined.

(** A state of which the next but one call collects. *)
Definition near_gc (b : tbucket) : tb_state (rbtree bytes) :=
  TbState {[ 1%positive := b ]}
    (<[part_of (digest b) := Vsthrottle (Node VRB_BLACK Nil (digest b, 1%positive) Nil) 998 true]>
       (replicate N_PART (Vsthrottle Nil 0 true))) 1 2.
Definition near_gc_abs (b : tbucket) : throttle :=
  Throttle {[ digest b := b ]} (<[part_of (digest b) := 998%Z]> (replicate N_PART 0%Z)) 1.
Lemma near_gc_rep b : rep (near_gc b) (near_gc_abs b).
Proof.
  pose proof (part_of_lt (digest b)) as Hlt.
  assert (parts (one b) !! part_of (digest b) =
    Some (Vsthrottle (Node VRB_BLACK Nil (digest b, 1%positive) Nil) 0 true)) as Hv
    by by apply list_lookup_insert_eq.
  pose proof (rep_count (one b) (one_abs b) _ _ 998%Z (one_rep b) Hv) as H.
  simpl in H. rewrite list_insert_insert_eq in H. exact H.
Qed.
Lemma waiting_admits_witness :
  let others := [DCall (str "kez") 5 (seconds 10) dzero (seconds 50)] in
  wp (_ ← vmod_is_denied sha (Some key) 1 (seconds 10) (seconds 100) (seconds 1);
      _ ← run_denied sha others;
      vmod_is_denied sha (Some key) 1 (seconds 10) (seconds 100) (seconds 101))
    (λ r _, r = false) (near_gc (empty_bucket 1 10 100)).
Proof.
  intros others. assert (∀ now, bucket_of (near_gc_abs (empty_bucket 1 10 100))
    (do_digest sha key 1 (seconds 10) (seconds 100)) 1 (seconds 10) now = empty_bucket 1 10 100) as Hb
    by (intros now; apply bucket_of_Some, lookup_singleton_eq).
  pose proof (waiting_admits sha key 1 (seconds 10) (seconds 100) (seconds 1) (seconds 101) 0 10 others
    (near_gc (empty_bucket 1 10 100)) (near_gc_abs (empty_bucket 1 10 100))) as H.
  cbv zeta in H. rewrite Hb in H. apply H;
    [apply near_gc_rep|apply (bool_decide_unpack _); vm_compute; exact I|
     split_and!; vm_compute; reflexivity|vm_compute; reflexivity|
     apply (bool_decide_unpack _); vm_compute; exact I|
     split_and!; vm_compute; reflexivity|vm_compute; reflexivity..].
Defined.

Lemma remaining_refills_again_witness :
  let b := empty_bucket 10 10 0 in
  wp (r1 ← vmod_remaining sha (Some key) 10 (seconds 10) (seconds 0) (seconds 3);
      r2 ← vmod_remaining sha (Some key) 10 (seconds 10) (seconds 0) (seconds 3);
      mret (r1, r2))
     (λ r st', r = (3, 6)%Z ∧
        rep st' (Throttle (<[digest b := topped_up 3 (topped_up 3 b)]> {[ digest b := b ]})
                   (replicate N_PART 0%Z) 1)) (one b).
Proof.
  assert (bucket_of (one_abs (empty_bucket 10 10 0)) (do_digest sha key 10 (seconds 10) (seconds 0))
            10 (seconds 10) (seconds 3) = empty_bucket 10 10 0) as Hb
    by (apply bucket_of_Some, lookup_singleton_eq).
  pose proof (remaining_refills_again sha key 10 (seconds 10) (seconds 0) (seconds 3) 3
    (one (empty_bucket 10 10 0)) (one_abs (empty_bucket 10 10 0)) (one_rep _)) as H.
  cbv zeta in H. rewrite Hb in H. apply H; [|vm_compute; reflexivity].
  split_and!; vm_compute; reflexivity.
Defined.

Lemma gc_forgets_block_witness :
  wp (run_gc (seconds 20) (part_of (dg 1 10 100));;;
      vmod_is_denied sha (Some key) 1 (seconds 10) (seconds 100) (seconds 20))
     (λ r _, r = false) (one (blocked_bucket 1 10 100)).
Proof.
  apply (gc_forgets_block sha key 1 (seconds 10) (seconds 100) (seconds 20)
           (one (blocked_bucket 1 10 100)) (one_abs (blocked_bucket 1 10 100))
           (blocked_bucket 1 10 100)); [apply one_rep|apply zeros_ok|..];
    try (vm_compute; reflexivity).
Defined.

Lemma digest_input_injective_witness :
  key = str "key" ∧ 5%Z = (2 + 3)%Z ∧ seconds 10 = ddiv (seconds 20) (seconds 2) ∧
  dzero = dsub (seconds 1) (seconds 1).
Proof.
  apply (digest_input_injective key (str "key") 5 (2 + 3) (seconds 10)
           (ddiv (seconds 20) (seconds 2)) dzero (dsub (seconds 1) (seconds 1)));
    vm_compute; reflexivity.
Defined.

Lemma period_zero_undefined_witness :
  ∃ w, vmod_is_denied sha (Some key) 15 dzero dzero (seconds 5) after_load = Undef w.
Proof.
  apply (period_zero_undefined sha key 15 dzero (seconds 5) after_load loaded_abs);
    [apply rep_loaded|reflexivity..].
Defined.

Lemma vsthrottle_safe_witness :
  shape boot ∧
  (∀ l b, tb_heap boot !! l = Some b → (0 ≤ tokens b ≤ capacity b)%Z) ∧
  (∀ l l' b b', tb_heap boot !! l = Some b → tb_heap boot !! l' = Some b' →
     digest b = digest b' → l = l') ∧
  ∃ st', run_op sha (Op_event VCL_EVENT_LOAD) boot = Ret (tt, st').
Proof. apply (vsthrottle_safe sha boot (Op_event VCL_EVENT_LOAD)); [constructor|done]. Defined.

Lemma fini_frees_witness :
  wp fini (λ _ st', n_init st' = (1 - 1)%Z ∧
    tb_heap st' = ∅ ∧ (∀ p v, parts st' !! p = Some v → tree_list (buckets v) = [])) after_load.
Proof.
  apply (fini_frees sha after_load); [|done].
  apply (reach_step sha boot (Op_event VCL_EVENT_LOAD)); [constructor|done|reflexivity].
Defined.
