(* ===== verification/VsThrottleGC.v ===== *)
(** * vmod_vsthrottle: what the garbage collector may be seen to do

    run_gc frees every bucket of a partition that has not been used for
    longer than its period.  For callers that do not use the block argument
    this cannot be observed: the bucket would have been refilled to its
    limit by the time of the next call, which is what a new bucket holds.
    (With a pending block it can, see [gc_forgets_block].)  The arithmetic is
    that of the code, binary64 with its rounding; see DoubleRound.v. *)
From S2P Require Import Prelude CStr Workspace TreeSpec Double DoubleRound VsThrottle.

(** A call of is_denied without a block. *)
Record throttle_call := ThrottleCall { tc_key : bytes; tc_limit : Z; tc_period : double; tc_now : double }.

Section calls.
Context {T : Type} `{!OrdTree bytes T, !OrdTreeLaws memcmp}.
Context (SHA256 : bytes → bytes).
Implicit Types (st : tb_state T) (b : tbucket) (c : throttle_call) (dg : bytes) (m g : gmap bytes tbucket).

Fixpoint run_throttle (cs : list throttle_call) : M (tb_state T) (list bool) :=
  match cs with
  | [] => mret []
  | c :: cs =>
      r ← vmod_is_denied SHA256 (Some (tc_key c)) (tc_limit c) (tc_period c) dzero (tc_now c);
      rs ← run_throttle cs;
      mret (r :: rs)
  end.

(** The specification: a map of buckets from which nothing is ever removed.
    [None] when a refill is not defined (a NaN, or out of the range of long). *)
Definition tc_digest c : bytes := do_digest SHA256 (tc_key c) (tc_limit c) (tc_period c) dzero.
Definition uncollected_call c g : option (bool * gmap bytes tbucket) :=
  let dg := tc_digest c in
  let b := default (fresh_bucket dg (tc_limit c) (tc_period c) (tc_now c)) (g !! dg) in
  if dleb dzero (dsub (tc_now c) (last_used b)) then
    n ← refill b (tc_now c);
    if in_long (tokens b + n) then
      let '(r, b) := charge dzero (tc_now c) (topped_up n b) in Some (r, <[dg := b]> g)
    else None
  else None.
Fixpoint uncollected_run (cs : list throttle_call) g : option (list bool) :=
  match cs with
  | [] => Some []
  | c :: cs =>
      '(r, g) ← uncollected_call c g;
      rs ← uncollected_run cs g;
      Some (r :: rs)
  end.

(** The arguments of the calls: the limit and the period of a digest (SHA256
    is taken not to confuse two calls), a limit that a double holds exactly,
    a positive period, and a clock that does not run backwards. *)
Context (lim : bytes → Z) (per : bytes → double).
Record sane_time (t : double) : Prop := SaneTime {
  st_valid : dvalid t; st_finite : dfinite t = true; st_nonneg : dnonneg t = true;
}.
Record sane_call c : Prop := SaneCall {
  sc_limit : tc_limit c = lim (tc_digest c);
  sc_period : tc_period c = per (tc_digest c);
  sc_range : (1 ≤ tc_limit c ≤ 2 ^ 53)%Z;
  sc_valid : dvalid (tc_period c);
  sc_finite : dfinite (tc_period c) = true;
  sc_pos : dpos (tc_period c) = true;
  sc_now : sane_time (tc_now c);
}.
Fixpoint in_order (t : double) (cs : list throttle_call) : Prop :=
  match cs with [] => True | c :: cs => dleb t (tc_now c) = true ∧ in_order (tc_now c) cs end.

(** ** Buckets *)
Record bucket_sane (t : double) dg b : Prop := BucketSane {
  bs_digest : digest b = dg;
  bs_period : period b = per dg;
  bs_capacity : capacity b = lim dg;
  bs_tokens : (0 ≤ tokens b ≤ capacity b)%Z;
  bs_block : tb_block b = dzero;
  bs_used : sane_time (last_used b);
  bs_past : dleb (last_used b) t = true;
}.
(** At some time until [t] the bucket was old enough to be collected. *)
Definition collected (t : double) b : Prop :=
  ∃ t0, sane_time t0 ∧ dleb (last_used b) t0 = true ∧ dleb t0 t = true ∧ expired t0 b = true.

(** A bucket of that age is full at the next call. *)
Lemma refill_full t dg c b n :
  tc_digest c = dg → sane_call c → bucket_sane t dg b → collected (tc_now c) b →
  refill b (tc_now c) = Some n → (capacity b ≤ n)%Z.
Proof.
  intros Hd Hc Hb (t0 & [V0 F0 N0] & Hlu & Ht0 & Hexp) Hn.
  destruct Hb as [_ Hper Hcap _ _ [Vl Fl Nl] _], Hc as [Hl Hp Hr Vp Fp Pp [Vn Fn Nn]].
  rewrite Hd in Hl, Hp. rewrite <-Hl in Hcap. rewrite <-Hp in Hper. unfold expired in Hexp. rewrite Hper in Hexp.
  assert (dleb (tc_period c) (dsub (tc_now c) (last_used b)) = true) as Hover.
  { by apply (dsub_stays_over t0 (tc_now c) (last_used b) (tc_period c)). }
  unfold refill in Hn. rewrite Hper, Hcap in Hn. rewrite Hcap.
  destruct (d_of_Z_exact (tc_limit c) Hr) as (m & e & Hlim & Hbd & _).
  assert (dvalid (dsub (tc_now c) (last_used b))) as Vd by by apply dsub_valid.
  destruct (tc_period c) as [| | |[] mp ep]; try done.
  pose proof (ddiv_ge_one _ mp ep Vd Vp Hover) as Hq.
  pose proof (dmul_ge _ m e (at_least_valid _ _ _ Hq) (at_least_leb _ _ _ Hq) Hbd) as Hm.
  pose proof (at_least_valid _ _ _ Hm) as Vm. apply at_least_leb in Hm. rewrite <-Hlim in Hm, Vm.
  exact (dtrunc_ge _ _ _ Hr Vm Hm Hn).
Qed.

Lemma fresh_sane t c : sane_call c → dleb (tc_now c) t = true →
  bucket_sane t (tc_digest c) (fresh_bucket (tc_digest c) (tc_limit c) (tc_period c) (tc_now c)).
Proof. intros [Hl Hp Hr _ _ _ Hn] Ht. split; simpl; try done. lia. Qed.
Lemma bucket_sane_later t t' dg b : bucket_sane t dg b → dleb t t' = true → bucket_sane t' dg b.
Proof. intros [] Ht. split; try done. by eapply dleb_trans. Qed.

(** A call on a bucket and on a full one. *)
Lemma charge_full now b : (0 < capacity b)%Z → tb_block b = dzero →
  charge dzero now (set_tokens (capacity b) b) =
    (false, Tbucket (digest b) now (period b) dzero (capacity b - 1) (capacity b)).
Proof.
  intros Hc Hb. unfold charge. cbn [tokens set_tokens]. rewrite (proj2 (Z.ltb_lt _ _) Hc).
  destruct b. simpl in *. by subst.
Qed.
Lemma charge_sane t dg c b n :
  sane_call c → tc_digest c = dg → bucket_sane t dg b → dleb t (tc_now c) = true → (0 ≤ n)%Z →
  bucket_sane (tc_now c) dg (charge dzero (tc_now c) (topped_up n b)).2.
Proof.
  intros Hc Hd [H1 H2 H3 H4 H5 H6 H7] Ht Hn. pose proof (sc_now _ Hc) as Hnow.
  assert (dleb (tc_now c) (tc_now c) = true) as Hrefl.
  { apply dleb_refl. destruct Hnow as [_ F _]. by destruct (tc_now c). }
  assert (dleb (last_used b) (tc_now c) = true) as Hpast by by eapply dleb_trans.
  unfold charge. cbn [dltb dzero SFltb SFcompare andb]. cbn [tokens topped_up set_tokens].
  destruct (Z.ltb_spec 0 (Z.min (capacity b) (tokens b + n))); simpl; split; simpl; try done; lia.
Qed.

(** ** The simulation: the specification keeps what was collected *)
Record simulates (t : double) m g : Prop := Simulates {
  sim_sub : m ⊆ g;
  sim_sane dg b : g !! dg = Some b → bucket_sane t dg b;
  sim_gone dg b : g !! dg = Some b → m !! dg = None → collected t b;
}.
Lemma collected_later t t' b : collected t b → dleb t t' = true → collected t' b.
Proof. intros (t0 & H0 & H1 & H2 & H3) Ht. exists t0. split_and!; try done. by eapply dleb_trans. Qed.

Lemma sane_bucket_ok t dg c b :
  tc_digest c = dg → sane_call c → bucket_sane t dg b → bucket_ok b ∧ in_long (capacity b) = true ∧ (0 < capacity b)%Z.
Proof.
  intros <- [Hl Hp Hr _ _ Hpos _] [_ Hper Hcap Htok _ _ _].
  rewrite <-Hp in Hper. rewrite <-Hl in Hcap. split_and!; [split; [by rewrite Hper|done]| |lia].
  rewrite Hcap. unfold in_long, LONG_MIN, LONG_MAX. apply andb_true_iff. rewrite !Z.leb_le. lia.
Qed.

(** A new bucket is charged what a collected one would have been. *)
Lemma charge_collected t c b n :
  let dg := tc_digest c in
  let fresh := fresh_bucket dg (tc_limit c) (tc_period c) (tc_now c) in
  sane_call c → bucket_sane t dg b → collected (tc_now c) b → refill b (tc_now c) = Some n →
  chargeable (tc_now c) fresh 0 ∧
  charge dzero (tc_now c) (topped_up 0 fresh) = charge dzero (tc_now c) (topped_up n b).
Proof.
  intros dg fresh Hc Hb Hcol Hn. pose proof (refill_full t dg c b n eq_refl Hc Hb Hcol Hn) as Hfull.
  destruct (sane_bucket_ok t dg c b eq_refl Hc Hb) as ([_ Htok] & Hlong & Hpos).
  destruct Hb as [Hdg Hper Hcap _ Hblk _ _], Hc as [Hl Hp Hr _ _ Hppos [_ Fn _]].
  assert (tc_limit c = capacity b) as Hlim by (rewrite Hl, Hcap; done).
  split; [apply chargeable_now; try done; simpl; by rewrite Hlim|].
  unfold topped_up at 2. rewrite Z.min_l by lia. rewrite (charge_full _ b Hpos Hblk).
  transitivity (charge dzero (tc_now c) (set_tokens (capacity fresh) fresh)).
  { unfold topped_up. simpl. by rewrite Z.add_0_r, Z.min_id. }
  rewrite charge_full by (simpl; first [done|lia]). simpl. by rewrite Hdg, Hper, Hp, Hlim.
Qed.

(** The real map and the specification's give a call the same bucket. *)
Lemma same_charge t c a g n :
  let dg := tc_digest c in
  let gb := default (fresh_bucket dg (tc_limit c) (tc_period c) (tc_now c)) (g !! dg) in
  let rb := bucket_of a dg (tc_limit c) (tc_period c) (tc_now c) in
  sane_call c → dleb t (tc_now c) = true → simulates t (a_map a) g → chargeable (tc_now c) gb n →
  ∃ n', chargeable (tc_now c) rb n' ∧
    charge dzero (tc_now c) (topped_up n' rb) = charge dzero (tc_now c) (topped_up n gb).
Proof.
  intros dg gb rb Hc Ht [Hsub Hsane Hgone] Hch. subst gb rb. unfold bucket_of.
  destruct (a_map a !! dg) as [b|] eqn:Hm.
  { rewrite (lookup_weaken _ _ _ _ Hm Hsub) in *. eauto. }
  destruct (g !! dg) as [b|] eqn:Hg; [|eauto]. exists 0%Z. simpl in Hch.
  apply (charge_collected t); [done|by apply Hsane| |by destruct Hch as (_ & ? & _)].
  by eapply collected_later; [eapply Hgone|].
Qed.

(** Both maps store the bucket, and the real one may be swept. *)
Lemma simulates_store t now p dg b gc ini m g :
  sane_time now → dleb t now = true → simulates t m g → bucket_sane now dg b →
  simulates now (a_map (tick now p (Throttle (<[dg := b]> m) gc ini))) (<[dg := b]> g).
Proof.
  intros Hnow Ht [Hsub Hsane Hgone] Hb.
  assert (∀ dg' b', <[dg := b]> g !! dg' = Some b' → bucket_sane now dg' b') as Hsane'.
  { intros dg' b' [[<- <-]|[_ Hg]]%lookup_insert_Some; [done|]. by eapply bucket_sane_later; [eapply Hsane|]. }
  split; [|done|].
  - etrans; [apply tick_sub|]. simpl. by apply insert_mono.
  - intros dg' b' Hg Hm. unfold tick in Hm. pose proof (Hsane' _ _ Hg) as Hb'.
    assert (<[dg := b]> m !! dg' = None → collected now b') as Hold.
    { intros [Hm' Hne]%lookup_insert_None. rewrite lookup_insert_ne in Hg by done.
      by eapply collected_later; [eapply Hgone|]. }
    case_match; simpl in Hm; [|by apply Hold].
    apply map_lookup_filter_None in Hm as [Hm|Hm]; [by apply Hold|].
    destruct (<[dg := b]> m !! dg') as [b1|] eqn:Hm1; [|by apply Hold].
    assert (b1 = b') as ->.
    { pose proof (lookup_weaken _ _ _ _ Hm1 (insert_mono m g dg b Hsub)). congruence. }
    specialize (Hm _ eq_refl). exists now. split; [done|]. split; [apply Hb'|]. split.
    { destruct Hnow as [_ F _]. apply dleb_refl. by destruct now. }
    destruct (expired now b') eqn:He; [done|]. exfalso. apply Hm. by intros [_ ?].
Qed.

(** ** A sequence of calls *)
Lemma uncollected_call_inv c g r g' :
  uncollected_call c g = Some (r, g') →
  let dg := tc_digest c in
  let b := default (fresh_bucket dg (tc_limit c) (tc_period c) (tc_now c)) (g !! dg) in
  ∃ n, chargeable (tc_now c) b n ∧
    (r, g') = ((charge dzero (tc_now c) (topped_up n b)).1,
               <[dg := (charge dzero (tc_now c) (topped_up n b)).2]> g).
Proof.
  unfold uncollected_call. cbv zeta. set (b := default _ _). intros H.
  destruct (dleb dzero (dsub (tc_now c) (last_used b))) eqn:Hd; [|done].
  destruct (refill b (tc_now c)) as [n|] eqn:Hn; [|done]. simpl in H.
  destruct (in_long (tokens b + n)) eqn:Hl; [|done]. exists n. split; [by split|].
  destruct (charge dzero (tc_now c) (topped_up n b)) as [r1 b1]. by simplify_eq/=.
Qed.

Lemma call_simulates t c st a g r g' (Q : bool → tb_state T → Prop) :
  sane_call c → dleb t (tc_now c) = true → rep st a → gc_ok a → simulates t (a_map a) g →
  uncollected_call c g = Some (r, g') →
  (∀ st' a', rep st' a' → gc_ok a' → simulates (tc_now c) (a_map a') g' → Q r st') →
  wp (vmod_is_denied SHA256 (Some (tc_key c)) (tc_limit c) (tc_period c) dzero (tc_now c)) Q st.
Proof.
  intros Hc Ht Hr Hgc Hsim (n & Hch & Heq)%uncollected_call_inv HQ.
  destruct (same_charge t c a g n Hc Ht Hsim Hch) as (n' & Hch' & Hsame).
  set (gb := default _ _) in Hch, Heq, Hsame.
  assert (bucket_sane (tc_now c) (tc_digest c) (charge dzero (tc_now c) (topped_up n gb)).2) as Hsane.
  { assert (bucket_sane (tc_now c) (tc_digest c) gb) as Hgb.
    { destruct (g !! tc_digest c) as [b|] eqn:Hg; subst gb; simpl.
      - eapply bucket_sane_later; [by eapply sim_sane|done].
      - apply fresh_sane; [done|]. destruct (sc_now _ Hc) as [_ F _]. apply dleb_refl. by destruct (tc_now c). }
    eapply charge_sane; [done|done|exact Hgb| |].
    - destruct (sc_now _ Hc) as [_ F _]. apply dleb_refl. by destruct (tc_now c).
    - eapply refill_nonneg; [|exact Hch]. by eapply (sane_bucket_ok _ _ c). }
  eapply (wp_is_denied SHA256 _ _ _ _ _ n'); [exact Hr|done|exact Hch'|].
  intros st'. fold (tc_digest c). unfold spec_is_denied. rewrite Hsame.
  destruct (charge dzero (tc_now c) (topped_up n gb)) as [r1 b1]. injection Heq as -> ->.
  intros Hr' Hgc'. eapply HQ; [exact Hr'|done|]. eapply simulates_store; [apply Hc|done|done|done].
Qed.

Lemma run_simulates cs t st a g answers :
  Forall sane_call cs → in_order t cs → rep st a → gc_ok a → simulates t (a_map a) g →
  uncollected_run cs g = Some answers →
  wp (run_throttle cs) (λ rs _, rs = answers) st.
Proof.
  revert t st a g answers. induction cs as [|c cs IH]; intros t st a g answers Hcs Ht Hr Hgc Hsim Hrun.
  { by injection Hrun as <-. }
  apply Forall_cons in Hcs as [Hc Hcs]. destruct Ht as [Ht Hts]. cbn [uncollected_run run_throttle] in *.
  apply bind_Some in Hrun as ([r g'] & Hcall & (rs & Hrs & [= <-])%bind_Some).
  apply wp_bind. eapply (call_simulates t c); [done..|]. intros st' a' Hr' Hgc' Hsim'.
  apply wp_bind. eapply wp_mono; [by eapply (IH (tc_now c) st' a' g')|].
  intros rs' st2 ->. by apply wp_ret.
Qed.

(** C12: garbage collection cannot be observed by callers that do not use
    the block argument: whenever the specification that never removes a
    bucket answers a sequence of calls (the clock not running backwards, the
    arithmetic in range), is_denied gives the same answers, for every
    partition, however often the collector runs and whatever it removes, with
    the rounding of the code's doubles. *)
Theorem collection_unobservable cs t st a answers :
  Forall sane_call cs → in_order t cs → rep st a → gc_ok a → a_map a = ∅ →
  uncollected_run cs ∅ = Some answers →
  wp (run_throttle cs) (λ rs _, rs = answers) st.
Proof.
  intros Hcs Ht Hr Hgc Hm. apply (run_simulates cs t st a); [done..|]. rewrite Hm.
  split; [done| |]; intros dg b Hb; by rewrite lookup_empty in Hb.
Qed.
End calls.

(** ** A concrete run, in which the collector removes a bucket *)
From S2P Require Import VTree.

Module Examples.
Import VsThrottle.Examples.
(** Every partition is two calls away from a collection. *)
Definition idle : tb_state (rbtree bytes) :=
  TbState ∅ (replicate N_PART (Vsthrottle Nil 998 true)) 1 1.
Definition call (k : string) (t : Z) : throttle_call :=
  ThrottleCall (str k) 2 (seconds 10) (seconds t).
(** Two keys of one partition; the second call collects the first key's bucket. *)
Definition three_calls : list throttle_call := [call "key" 1; call "kez" 20; call "key" 21].

Example collects :
  wp (run_throttle sha three_calls) (λ _ st', size (tb_heap st') = 2) idle ∧
  wp (run_throttle sha (take 2 three_calls)) (λ _ st', size (tb_heap st') = 1) idle.
Proof. vm_compute. done. Qed.
End Examples.

Lemma collection_unobservable_witness :
  wp (run_throttle VsThrottle.Examples.sha Examples.three_calls)
    (λ rs _, rs = [false; false; false]) Examples.idle.
Proof.
  apply (collection_unobservable VsThrottle.Examples.sha (λ _, 2%Z) (λ _, VsThrottle.Examples.seconds 10)
    Examples.three_calls dzero Examples.idle (Throttle ∅ (replicate N_PART 998%Z) 1)).
  - repeat constructor; done.
  - vm_compute. done.
  - exact (rep_idle (T:=rbtree bytes) 998 1).
  - apply Forall_replicate. done.
  - reflexivity.
  - vm_compute. reflexivity.
Defined.
