(* ===== verification/VsThrottleRate.v ===== *)
(** * vmod_vsthrottle: how many calls are let through

    The rate limit itself, for any mix of is_denied calls of any keys without
    a block, with the doubles of the code: between two calls of a window, a
    key is let through at most its limit plus the share of the limit that the elapsed time is of the
    period, up to a rounding error of one part in 2^50.  And what a key is
    answered does not depend on the calls of other keys.  Both are proved on
    the specification of VsThrottleGC.v, which the code implements with its
    garbage collector. *)
From S2P Require Import Prelude CStr Workspace TreeSpec Double DoubleRound DoubleError VsThrottle VsThrottleGC.

(** The clock, in periods, times the limit is below 2^61: no refill
    overflows a long. *)
Definition in_range (c : throttle_call) : Prop :=
  (tc_limit c * dvalue (tc_now c) ≤ 2 ^ 61 * dvalue (tc_period c))%Z.

(** [k] calls in a time [elapsed]: k <= limit + limit * elapsed / period, with
    a relative error of 2^-50 on the last term.  Times are scaled as in
    [dvalue]; the scale cancels. *)
Definition within_rate (limit : Z) (period : double) (elapsed k : Z) : Prop :=
  (2 ^ 50 * (k * dvalue period) ≤ 2 ^ 50 * (limit * dvalue period) + (2 ^ 50 + 1) * (limit * elapsed))%Z.

Section rate.
Context {T : Type} `{!OrdTree bytes T, !OrdTreeLaws memcmp}.
Context (SHA256 : bytes → bytes) (lim : bytes → Z) (per : bytes → double).
Implicit Types (st : tb_state T) (b : tbucket) (c : throttle_call) (dg : bytes) (m g : gmap bytes tbucket).
Abbreviation tc_digest := (tc_digest SHA256).
Abbreviation sane_call := (sane_call SHA256 lim per).
Abbreviation bucket_sane := (bucket_sane lim per).

(** The calls of one key that are let through. *)
Fixpoint admitted dg (cs : list throttle_call) (rs : list bool) : Z :=
  match cs, rs with
  | c :: cs, r :: rs =>
      (if decide (tc_digest c = dg ∧ r = false) then 1 else 0) + admitted dg cs rs
  | _, _ => 0
  end%Z.
(** From the first to the last of some calls. *)
Fixpoint last_now (t : double) (cs : list throttle_call) : double :=
  match cs with [] => t | c :: cs => last_now (tc_now c) cs end.
Definition elapsed (cs : list throttle_call) : Z :=
  match cs with [] => 0 | c :: cs => dvalue (last_now (tc_now c) cs) - dvalue (tc_now c) end.
(** The answers to one key. *)
Fixpoint answers_to dg (cs : list throttle_call) (rs : list bool) : list bool :=
  match cs, rs with
  | c :: cs, r :: rs => (if decide (tc_digest c = dg) then [r] else []) ++ answers_to dg cs rs
  | _, _ => []
  end.

Definition all_sane (t : double) g : Prop := ∀ dg b, g !! dg = Some b → bucket_sane t dg b.
Lemma sane_value t t' : sane_time t → sane_time t' → dleb t t' = true → (dvalue t ≤ dvalue t')%Z.
Proof. intros [V _ N] [V' F' _] Hle. by apply dleb_value. Qed.
Lemma sane_refl t : sane_time t → dleb t t = true.
Proof. intros [_ F _]. apply dleb_refl. by destruct t. Qed.
Lemma sane_nonneg t : sane_time t → (0 ≤ dvalue t)%Z.
Proof. intros [V _ N]. destruct t as [| | |[] m e]; try done. by apply value_nonneg. Qed.
Lemma sane_period c : sane_call c → (0 < dvalue (tc_period c))%Z.
Proof.
  intros [_ _ _ V F P _]. destruct (tc_period c) as [| | |[] m e]; try done.
  apply value_pos. apply bounded_spec in V as [V _]. unfold scale. lia.
Qed.

(** Every call in range is answered, and credits no more than the time since
    the last one is worth. *)
Definition bucket_at c g : tbucket :=
  default (fresh_bucket (tc_digest c) (tc_limit c) (tc_period c) (tc_now c)) (g !! tc_digest c).
Lemma bucket_at_sane t c g : sane_call c → dleb t (tc_now c) = true → all_sane t g →
  bucket_sane (tc_now c) (tc_digest c) (bucket_at c g).
Proof.
  intros Hc Ht Hg. unfold bucket_at. destruct (g !! tc_digest c) as [b|] eqn:Hb; simpl.
  - eapply bucket_sane_later; [by apply Hg|done].
  - apply fresh_sane; [done|]. apply sane_refl, Hc.
Qed.
Lemma call_answered t c g : sane_call c → in_range c → dleb t (tc_now c) = true → all_sane t g →
  ∃ n, (0 ≤ n)%Z ∧
    uncollected_call SHA256 c g =
      Some ((charge dzero (tc_now c) (topped_up n (bucket_at c g))).1,
            <[tc_digest c := (charge dzero (tc_now c) (topped_up n (bucket_at c g))).2]> g) ∧
    (2 ^ 50 * (n * dvalue (tc_period c)) ≤
       (2 ^ 50 + 1) * (tc_limit c * (dvalue (tc_now c) - dvalue (last_used (bucket_at c g)))))%Z.
Proof.
  intros Hc Hrange Ht Hg. pose proof (bucket_at_sane t c g Hc Ht Hg) as Hb.
  pose proof (sane_bucket_ok SHA256 lim per _ _ c _ eq_refl Hc Hb) as ([_ Htok] & _).
  unfold uncollected_call. fold (tc_digest c). fold (bucket_at c g). set (b := bucket_at c g) in *.
  destruct Hb as [_ Hper Hcap _ _ Hu Hpast], Hc as [Hl Hp Hr Vp Fp Pp Hn].
  pose proof (sane_value _ _ Hu Hn Hpast) as Hle. pose proof (sane_nonneg _ Hu) as Hu0.
  destruct Hu as [Vu Fu Nu], Hn as [Vn Fn Nn]. rewrite <-Hp in Hper. rewrite <-Hl in Hcap.
  destruct (scaled_difference_bound (tc_now c) (last_used b) (tc_period c) (tc_limit c))
    as (n & Hdef & Hn62 & Hbound); try done.
  { unfold in_range in Hrange. nia. }
  exists n. split; [lia|]. split; [|done]. rewrite dnonneg_leb.
  rewrite (dsub_nonneg _ _ Vn Vu Fn Fu Hpast).
  unfold refill. rewrite Hper, Hcap, Hdef. simpl.
  assert (in_long (tokens b + n) = true) as ->; [|by destruct (charge _ _ _)].
  unfold in_long, LONG_MIN, LONG_MAX. apply andb_true_iff. rewrite !Z.leb_le. lia.
Qed.
Lemma all_sane_store t c g n : sane_call c → dleb t (tc_now c) = true → all_sane t g → (0 ≤ n)%Z →
  all_sane (tc_now c)
    (<[tc_digest c := (charge dzero (tc_now c) (topped_up n (bucket_at c g))).2]> g).
Proof.
  intros Hc Ht Hg Hn dg b [[<- <-]|[_ Hb]]%lookup_insert_Some.
  - eapply charge_sane; [done|done|by eapply bucket_at_sane|apply sane_refl, Hc|done].
  - eapply bucket_sane_later; [by apply Hg|done].
Qed.

(** ** The budget of a key

    [k] calls of the key were let through since the time [t1]: with the tokens
    that are left they are no more than the limit and what was credited. *)
Definition budget (t1 : Z) dg (k : Z) g : Prop :=
  match g !! dg with
  | None => k = 0
  | Some b =>
      k = 0 ∨
      t1 ≤ dvalue (last_used b) ∧
      2 ^ 50 * ((k + tokens b) * dvalue (per dg)) ≤
        2 ^ 50 * (lim dg * dvalue (per dg)) + (2 ^ 50 + 1) * (lim dg * (dvalue (last_used b) - t1))
  end%Z.

Lemma budget_call t1 t k c g n :
  let b := bucket_at c g in
  let '(r, b') := charge dzero (tc_now c) (topped_up n b) in
  sane_call c → dleb t (tc_now c) = true → all_sane t g → (0 ≤ n)%Z → (t1 ≤ dvalue (tc_now c))%Z → (0 ≤ k)%Z →
  (2 ^ 50 * (n * dvalue (tc_period c)) ≤
     (2 ^ 50 + 1) * (tc_limit c * (dvalue (tc_now c) - dvalue (last_used b))))%Z →
  budget t1 (tc_digest c) k g →
  budget t1 (tc_digest c) (k + if decide (r = false) then 1 else 0) (<[tc_digest c := b']> g).
Proof.
  intros b. destruct (charge dzero (tc_now c) (topped_up n b)) as [r b'] eqn:Hch.
  intros Hc Ht Hg Hn Ht1 Hk Hbound Hbud. pose proof (bucket_at_sane t c g Hc Ht Hg) as Hb. fold b in Hb.
  pose proof (sane_period c Hc) as HB.
  destruct Hb as [_ Hper Hcap Htok _ _ _], Hc as [Hl Hp Hr _ _ _ _].
  unfold budget. rewrite lookup_insert_eq, <-Hl, <-Hp. rewrite <-Hl in Hcap.
  unfold charge in Hch. cbn [dltb dzero SFltb SFcompare andb] in Hch. cbn [tokens topped_up set_tokens capacity] in Hch.
  assert (k = 0 ∨ t1 ≤ dvalue (last_used b) ∧
    2 ^ 50 * ((k + tokens b) * dvalue (tc_period c)) ≤
      2 ^ 50 * (tc_limit c * dvalue (tc_period c)) +
        (2 ^ 50 + 1) * (tc_limit c * (dvalue (last_used b) - t1)))%Z as Hbud'.
  { unfold budget in Hbud. subst b. unfold bucket_at. rewrite <-Hl, <-Hp in Hbud.
    destruct (g !! tc_digest c); [exact Hbud|by left]. }
  clear Hbud. set (B := dvalue (tc_period c)) in *. set (L := tc_limit c) in *.
  destruct (Z.ltb_spec 0 (Z.min (capacity b) (tokens b + n))) as [Hpos|Hpos]; injection Hch as <- <-;
    cbn [set_block set_last_used set_tokens last_used tokens].
  - rewrite decide_True by done. right. split; [done|]. destruct Hbud' as [->|[Hlast Hbud]].
    + assert (0 ≤ L * (dvalue (tc_now c) - t1))%Z by nia. rewrite Hcap. nia.
    + assert (Z.min (capacity b) (tokens b + n) ≤ tokens b + n)%Z as Hmin by lia.
      assert ((k + 1 + (Z.min (capacity b) (tokens b + n) - 1)) * B ≤ (k + tokens b) * B + n * B)%Z by nia. lia.
  - rewrite decide_False by done. rewrite Z.add_0_r. destruct Hbud' as [->|[Hlast Hbud]]; [by left|right].
    cbn [topped_up set_tokens tokens last_used]. split; [done|].
    replace (Z.min (capacity b) (tokens b + n)) with (tokens b) by lia. done.
Qed.
Lemma budget_other t1 dg k c g b : tc_digest c ≠ dg → budget t1 dg k g → budget t1 dg k (<[tc_digest c := b]> g).
Proof. intros Hne. unfold budget. by rewrite lookup_insert_ne. Qed.

(** ** Runs *)
Lemma budget_end t1 t dg k g : (t1 ≤ dvalue t)%Z → all_sane t g → sane_time t → (1 ≤ lim dg)%Z → (0 < dvalue (per dg))%Z →
  budget t1 dg k g → within_rate (lim dg) (per dg) (dvalue t - t1) k.
Proof.
  intros Ht1 Hg Ht HL HB Hbud. unfold within_rate.
  assert (0 ≤ lim dg * (dvalue t - t1))%Z by nia. unfold budget in Hbud.
  destruct (g !! dg) as [b|] eqn:Hb; [|nia]. destruct (Hg _ _ Hb) as [_ _ _ Htok _ Hu Hpast].
  pose proof (sane_value _ _ Hu Ht Hpast) as Hle. destruct Hbud as [->|[Hlast Hbud]]; [nia|].
  assert (lim dg * (dvalue (last_used b) - t1) ≤ lim dg * (dvalue t - t1))%Z by nia.
  assert (k * dvalue (per dg) ≤ (k + tokens b) * dvalue (per dg))%Z by nia. lia.
Qed.

Lemma run_within_rate t1 dg cs t g k :
  Forall sane_call cs → Forall in_range cs → in_order t cs → sane_time t → all_sane t g →
  (1 ≤ lim dg)%Z → (0 < dvalue (per dg))%Z → (t1 ≤ dvalue t)%Z → (0 ≤ k)%Z → budget t1 dg k g →
  ∃ rs, uncollected_run SHA256 cs g = Some rs ∧
    within_rate (lim dg) (per dg) (dvalue (last_now t cs) - t1) (k + admitted dg cs rs).
Proof.
  intros Hcs Hrange Hord Ht Hg HL HB. revert t g k Hcs Hrange Hord Ht Hg.
  induction cs as [|c cs IH]; intros t g k Hcs Hrange Hord Ht Hg Ht1 Hk Hbud.
  { exists []. split; [done|]. cbn [admitted last_now]. rewrite Z.add_0_r. by eapply budget_end. }
  apply Forall_cons in Hcs as [Hc Hcs]. apply Forall_cons in Hrange as [Hr Hrange].
  destruct Hord as [Htc Hord]. destruct (call_answered t c g) as (n & Hn & Hcall & Hbound); [done..|].
  pose proof (all_sane_store t c g n Hc Htc Hg Hn) as Hg'.
  pose proof (sane_value _ _ Ht (sc_now _ _ _ _ Hc) Htc) as Hle.
  pose proof (budget_call t1 t k c g n) as Hstep. cbv zeta in Hstep.
  destruct (charge dzero (tc_now c) (topped_up n (bucket_at c g))) as [r b'].
  cbn [uncollected_run admitted last_now]. rewrite Hcall. cbn [mbind option_bind fst snd] in *.
  destruct (IH (tc_now c) (<[tc_digest c := b']> g)
              (k + if decide (tc_digest c = dg ∧ r = false) then 1 else 0)%Z) as (rs & Hrs & Hrate).
  { done. } { done. } { done. } { apply Hc. } { done. } { lia. } { clear Hstep. case_decide; lia. }
  { destruct (decide (tc_digest c = dg)) as [<-|Hne].
    - specialize (Hstep Hc Htc Hg Hn ltac:(lia) Hk Hbound Hbud).
      destruct (decide (r = false)) as [Hr0|Hr0]; [rewrite decide_True by done|rewrite decide_False by tauto]; done.
    - rewrite decide_False by tauto. rewrite Z.add_0_r. by apply budget_other. }
  exists (r :: rs). rewrite Hrs. split; [done|]. by rewrite Z.add_assoc.
Qed.

(** The calls before a window leave every bucket sane. *)
Lemma run_before before during t g :
  Forall sane_call (before ++ during) → Forall in_range (before ++ during) → in_order t (before ++ during) →
  sane_time t → all_sane t g →
  ∃ t' g' rs, in_order t' during ∧ sane_time t' ∧ all_sane t' g' ∧ length rs = length before ∧
    uncollected_run SHA256 (before ++ during) g = (λ rs', rs ++ rs') <$> uncollected_run SHA256 during g'.
Proof.
  revert t g. induction before as [|c before IH]; intros t g Hcs Hrange Hord Ht Hg.
  { exists t, g, []. split_and!; try done. by destruct (uncollected_run _ _ _). }
  apply Forall_cons in Hcs as [Hc Hcs]. apply Forall_cons in Hrange as [Hr Hrange].
  destruct Hord as [Htc Hord]. destruct (call_answered t c g) as (n & Hn & Hcall & _); [done..|].
  pose proof (all_sane_store t c g n Hc Htc Hg Hn) as Hg'.
  destruct (IH (tc_now c) _ Hcs Hrange Hord (sc_now _ _ _ _ Hc) Hg')
    as (t' & g' & rs & H1 & H2 & H3 & H4 & H5).
  exists t', g', ((charge dzero (tc_now c) (topped_up n (bucket_at c g))).1 :: rs).
  split_and!; [done..|simpl; by rewrite H4|].
  cbn [app uncollected_run]. rewrite Hcall. cbn [mbind option_bind]. rewrite H5.
  by destruct (uncollected_run SHA256 during g').
Qed.

(** C9: the rate limit of is_denied without a block, over every window.  A run
    from an empty throttle consists of is_denied calls of any keys with block
    0 only, each with a limit from 1 to 2^53 and a positive finite period, by
    a clock that does not run backwards, and with limit * now / period at most
    2^61; SHA256 does not give calls of different limits or periods one digest.  Of its calls, take any consecutive ones and any call among them;
    from the first to the last of them no more calls with its key, limit and
    period are let through than the limit and the share of the limit that the
    elapsed time is of the period, up to one part in 2^50 of that share for
    the rounding of the doubles, whatever the other calls are and however
    often buckets are collected; and every call is answered.  The bound is
    not claimed for a run with remaining() on the same key, limit and period,
    which credits an interval again (see [remaining_refills_again]); calls
    with a block have other buckets. *)
Theorem admission_rate before during t st a :
  Forall sane_call (before ++ during) → Forall in_range (before ++ during) →
  in_order t (before ++ during) → sane_time t → rep st a → gc_ok a → a_map a = ∅ →
  wp (run_throttle SHA256 (before ++ during)) (λ rs _, ∀ c, c ∈ during →
    within_rate (tc_limit c) (tc_period c) (elapsed during)
      (admitted (tc_digest c) during (drop (length before) rs))) st.
Proof.
  intros Hcs Hrange Hord Ht Hr Hgc Hm.
  assert (all_sane t ∅) as Hg by (intros dg b Hb; by rewrite lookup_empty in Hb).
  destruct (run_before before during t ∅) as (t' & g' & rs & Hord' & Ht' & Hg' & Hlen & Hrun); [done..|].
  apply Forall_app in Hcs as [Hcs1 Hcs2]. apply Forall_app in Hrange as [Hr1 Hr2].
  destruct during as [|c0 during].
  { eapply wp_mono; [apply (collection_unobservable SHA256 lim per _ t st a rs); try done|].
    - by apply Forall_app.
    - rewrite Hrun. cbn. by rewrite app_nil_r.
    - intros rs' st' _ c Hc. set_solver. }
  assert (∀ c, c ∈ c0 :: during → ∃ rs', uncollected_run SHA256 (c0 :: during) g' = Some rs' ∧
    within_rate (tc_limit c) (tc_period c) (elapsed (c0 :: during)) (admitted (tc_digest c) (c0 :: during) rs')) as Hall.
  { intros c Hc. pose proof (proj1 (Forall_forall _ _) Hcs2 _ Hc) as Hsane.
    pose proof (sane_period _ Hsane) as HB. destruct Hsane as [Hl Hp HL _ _ _ _]. rewrite Hl in HL |- *. rewrite Hp in HB |- *.
    destruct Hord' as [Hle Hord']. apply Forall_cons in Hcs2 as Hc0.
    destruct (run_within_rate (dvalue (tc_now c0)) (tc_digest c) (c0 :: during) (tc_now c0) g' 0)
      as (rs' & Hrs' & Hrate); try done.
    - split; [apply sane_refl, Hc0|done].
    - apply Hc0.
    - intros dg b Hb. eapply bucket_sane_later; [by apply Hg'|done].
    - lia.
    - unfold budget. case_match; [by left|done].
    - exists rs'. split; [done|]. exact Hrate. }
  destruct (Hall c0 ltac:(set_solver)) as (rs' & Hrs' & _).
  eapply wp_mono; [apply (collection_unobservable SHA256 lim per _ t st a (rs ++ rs')); try done|].
  - by apply Forall_app.
  - by rewrite Hrun, Hrs'.
  - intros rs1 st' -> c Hc. destruct (Hall c Hc) as (rs2 & Hrs2 & Hrate). rewrite Hrs' in Hrs2. injection Hrs2 as <-.
    rewrite <-Hlen, drop_app_length. exact Hrate.
Qed.

(** ** Keys do not affect each other *)
Lemma call_same_bucket t c g g0 : sane_call c → in_range c → dleb t (tc_now c) = true → all_sane t g →
  g !! tc_digest c = g0 !! tc_digest c →
  ∃ r b, uncollected_call SHA256 c g = Some (r, <[tc_digest c := b]> g) ∧
    uncollected_call SHA256 c g0 = Some (r, <[tc_digest c := b]> g0).
Proof.
  intros Hc Hr Ht Hg Heq. destruct (call_answered t c g) as (n & _ & Hcall & _); [done..|].
  unfold uncollected_call in *. fold (tc_digest c) in *. rewrite <-Heq.
  case_match; [|done]. destruct (refill _ _) as [n'|]; [|done]. simpl in *.
  case_match; [|done]. destruct (charge _ _ _) as [r b]. by exists r, b.
Qed.
Lemma run_isolated dg cs t g g0 :
  Forall sane_call cs → Forall in_range cs → in_order t cs → all_sane t g → g !! dg = g0 !! dg →
  ∃ rs, uncollected_run SHA256 cs g = Some rs ∧
    uncollected_run SHA256 (filter (λ c, tc_digest c = dg) cs) g0 = Some (answers_to dg cs rs).
Proof.
  revert t g g0. induction cs as [|c cs IH]; intros t g g0 Hcs Hrange Hord Hg Heq; [by exists []|].
  apply Forall_cons in Hcs as [Hc Hcs]. apply Forall_cons in Hrange as [Hr Hrange].
  destruct Hord as [Htc Hord]. destruct (call_answered t c g) as (n & Hn & Hcall & _); [done..|].
  pose proof (all_sane_store t c g n Hc Htc Hg Hn) as Hg'.
  destruct (charge dzero (tc_now c) (topped_up n (bucket_at c g))) as [r1 b1]. cbn [fst snd] in *.
  rewrite filter_cons. destruct (decide (tc_digest c = dg)) as [Hd|Hne].
  - subst dg. destruct (call_same_bucket t c g g0) as (r & b & Hcall1 & Hcall0); [done..|].
    pose proof Hcall as Hsame. rewrite Hcall1 in Hsame. injection Hsame as <- Hmap. rewrite <-Hmap in Hg'.
    destruct (IH (tc_now c) _ (<[tc_digest c := b]> g0) Hcs Hrange Hord Hg') as (rs & Hrs & Hrs0).
    { by rewrite !lookup_insert_eq. }
    exists (r :: rs). cbn [uncollected_run answers_to]. rewrite Hcall1, Hcall0.
    cbn [mbind option_bind]. rewrite Hrs, Hrs0. by rewrite decide_True.
  - destruct (IH (tc_now c) _ g0 Hcs Hrange Hord Hg') as (rs & Hrs & Hrs0).
    { by rewrite lookup_insert_ne. }
    exists (r1 :: rs). cbn [uncollected_run answers_to]. rewrite Hcall. cbn [mbind option_bind].
    rewrite Hrs. split; [done|]. by rewrite decide_False.
Qed.
Lemma in_order_filter dg cs t t' : dleb t' t = true → in_order t cs →
  in_order t' (filter (λ c, tc_digest c = dg) cs).
Proof.
  revert t t'. induction cs as [|c cs IH]; intros t t' Ht Hord; [done|]. destruct Hord as [Hc Hord].
  rewrite filter_cons. destruct (decide _).
  - split; [by eapply dleb_trans|]. eapply IH; [|done].
    apply dleb_refl. intros Hnan. rewrite Hnan in Hc. by destruct t as [|[]| |[]].
  - eapply IH; [|done]. by eapply dleb_trans.
Qed.

(** C13: without blocks, what a key is answered does not depend on the calls
    of other keys: in a run from an empty throttle of is_denied calls with
    block 0 (limits from 1 to 2^53, positive finite periods, a clock that does
    not run backwards, limit * now / period at most 2^61, no two limits or
    periods with one digest), the answers to the
    calls of one key, limit and period are the answers they get in a run of
    their own, for all partitions, counters and addresses at the start.  (With
    blocks this is not so: the call of another key may start the collector,
    which drops a blocked bucket, see [gc_forgets_block].) *)
Theorem keys_isolated cs t st a st0 a0 dg :
  Forall sane_call cs → Forall in_range cs → in_order t cs → sane_time t →
  rep st a → gc_ok a → a_map a = ∅ → rep st0 a0 → gc_ok a0 → a_map a0 = ∅ →
  ∃ rs, wp (run_throttle SHA256 cs) (λ rs' _, rs' = rs) st ∧
    wp (run_throttle SHA256 (filter (λ c, tc_digest c = dg) cs)) (λ rs' _, rs' = answers_to dg cs rs) st0.
Proof.
  intros Hcs Hrange Hord Ht Hr Hgc Hm Hr0 Hgc0 Hm0.
  destruct (run_isolated dg cs t ∅ ∅) as (rs & Hrs & Hrs0); [done..| |done|].
  { intros dg' b Hb. by rewrite lookup_empty in Hb. }
  exists rs. split.
  - by apply (collection_unobservable SHA256 lim per cs t st a).
  - apply (collection_unobservable SHA256 lim per _ t st0 a0); try done.
    + apply Forall_forall. intros c [_ Hc]%list_elem_of_filter. by eapply Forall_forall in Hcs.
    + eapply in_order_filter; [by apply sane_refl|done].
Qed.
End rate.

(** ** Concrete runs *)
From S2P Require Import VTree.

Module Examples.
Import VsThrottle.Examples VsThrottleGC.Examples.
(** Two keys with 2 calls in 10 seconds, the first of them called five times. *)
Definition calls : list throttle_call :=
  [call "key" 1; call "kez" 1; call "key" 1; call "key" 2; call "key" 6; call "key" 7].
Example calls_answered :
  wp (run_throttle sha calls) (λ rs _, rs = [false; false; false; true; false; true]) idle.
Proof. vm_compute. done. Qed.
End Examples.

Lemma calls_sane : Forall (sane_call VsThrottle.Examples.sha (λ _, 2%Z) (λ _, VsThrottle.Examples.seconds 10)) Examples.calls.
Proof. repeat constructor; done. Qed.
Lemma calls_in_range : Forall in_range Examples.calls.
Proof. repeat constructor; by apply (bool_decide_unpack _); vm_compute. Qed.

Lemma admission_rate_witness :
  wp (run_throttle VsThrottle.Examples.sha ([] ++ Examples.calls)) (λ rs _, ∀ c, c ∈ Examples.calls →
    within_rate (tc_limit c) (tc_period c) (elapsed Examples.calls)
      (admitted VsThrottle.Examples.sha (tc_digest VsThrottle.Examples.sha c) Examples.calls
         (drop (length (A:=throttle_call) []) rs))) VsThrottleGC.Examples.idle.
Proof.
  apply (admission_rate VsThrottle.Examples.sha (λ _, 2%Z) (λ _, VsThrottle.Examples.seconds 10)
    [] Examples.calls dzero VsThrottleGC.Examples.idle (Throttle ∅ (replicate N_PART 998%Z) 1)).
  - exact calls_sane.
  - exact calls_in_range.
  - vm_compute. done.
  - done.
  - exact (rep_idle (T:=rbtree bytes) 998 1).
  - apply Forall_replicate. done.
  - reflexivity.
Defined.

Lemma keys_isolated_witness :
  ∃ rs, wp (run_throttle VsThrottle.Examples.sha Examples.calls) (λ rs' _, rs' = rs) VsThrottleGC.Examples.idle ∧
    wp (run_throttle VsThrottle.Examples.sha
          (filter (λ c, tc_digest VsThrottle.Examples.sha c = VsThrottle.Examples.dg 2 10 0) Examples.calls))
      (λ rs' _, rs' = answers_to VsThrottle.Examples.sha (VsThrottle.Examples.dg 2 10 0) Examples.calls rs)
      VsThrottle.Examples.after_load.
Proof.
  apply (keys_isolated VsThrottle.Examples.sha (λ _, 2%Z) (λ _, VsThrottle.Examples.seconds 10)
    Examples.calls dzero VsThrottleGC.Examples.idle (Throttle ∅ (replicate N_PART 998%Z) 1)
    VsThrottle.Examples.after_load VsThrottle.Examples.loaded_abs).
  - exact calls_sane.
  - exact calls_in_range.
  - vm_compute. done.
  - done.
  - exact (rep_idle (T:=rbtree bytes) 998 1).
  - apply Forall_replicate. done.
  - reflexivity.
  - exact rep_loaded.
  - apply Forall_replicate. done.
  - reflexivity.
Defined.
