(* ===== verification/XHeads.v ===== *)
(** * vmod_xkey: queues, heads and their pools

    vmod_xkey.c keeps two kinds of heads, [xkey_hashhead] (one per key
    digest) and [xkey_ochead] (one per tagged object), with the same life: a
    head holds a queue of xkey_oc's, is found through a red-black tree by its
    key, and goes to a pool of at most POOL_MAX heads when its queue is
    empty.  A [table] is one of the two: its heap of heads, its tree and its
    pool; the functions below are the pairs of C functions of the same text.

    A queue (VTAILQ) is used by its contract: it is the list of its elements,
    and all of them are linked through one of the two entry fields of
    xkey_oc.  An operation that names the other field on a queue that is not
    empty is outside of the contract and answers [Undef]. *)
From S2P Require Import Prelude CStr Workspace TreeSpec.

(** *** Queues *)
Inductive link := list_ochead | list_hashhead.
#[export] Instance link_eq_dec : EqDecision link.
Proof. solve_decision. Defined.

Record queue := Queue { q_link : link; q_elems : list loc }.

Section queues.
Definition linked (f : link) (q : queue) : bool :=
  bool_decide (q_elems q = [] ∨ q_link q = f).
Definition wrong_link {A} : outcome A := Undef "VTAILQ linked through another field".

Definition VTAILQ_EMPTY (q : queue) : bool := bool_decide (q_elems q = []).
Definition VTAILQ_FIRST (q : queue) : option loc := head (q_elems q).
Definition VTAILQ_INSERT_HEAD (q : queue) (x : loc) (f : link) : outcome queue :=
  if linked f q then Ret (Queue f (x :: q_elems q)) else wrong_link.
Definition VTAILQ_INSERT_TAIL (q : queue) (x : loc) (f : link) : outcome queue :=
  if linked f q then Ret (Queue f (q_elems q ++ [x])) else wrong_link.
Definition VTAILQ_REMOVE (q : queue) (x : loc) (f : link) : outcome queue :=
  if linked f q && bool_decide (x ∈ q_elems q)
  then Ret (Queue f (filter (λ y, y ≠ x) (q_elems q))) else wrong_link.
(** Appends the second queue to the first and empties it. *)
Definition VTAILQ_CONCAT (q1 q2 : queue) (f : link) : outcome (queue * queue) :=
  if VTAILQ_EMPTY q2 then Ret (q1, q2)
  else if linked f q1 && linked f q2
  then Ret (Queue f (q_elems q1 ++ q_elems q2), Queue f []) else wrong_link.
(** The elements VTAILQ_FOREACH visits. *)
Definition VTAILQ_FOREACH (q : queue) (f : link) : outcome (list loc) :=
  if linked f q then Ret (q_elems q) else wrong_link.

(** A queue of the elements [xs], linked through [f]. *)
Definition queue_is (f : link) (q : queue) (xs : list loc) : Prop :=
  q_elems q = xs ∧ linked f q = true.

Lemma linked_intro f q : q_link q = f → linked f q = true.
Proof. intros H. apply bool_decide_eq_true_2. by right. Qed.
Lemma insert_tail_is f q xs x : queue_is f q xs →
  VTAILQ_INSERT_TAIL q x f = Ret (Queue f (xs ++ [x])) ∧
  queue_is f (Queue f (xs ++ [x])) (xs ++ [x]).
Proof.
  intros [<- Hl]. unfold VTAILQ_INSERT_TAIL. rewrite Hl. split; [done|].
  split; [done|by apply linked_intro].
Qed.
Lemma insert_head_is f q xs x : queue_is f q xs →
  VTAILQ_INSERT_HEAD q x f = Ret (Queue f (x :: xs)) ∧
  queue_is f (Queue f (x :: xs)) (x :: xs).
Proof.
  intros [<- Hl]. unfold VTAILQ_INSERT_HEAD. rewrite Hl. split; [done|].
  split; [done|by apply linked_intro].
Qed.
Lemma remove_is f q xs x : queue_is f q xs → x ∈ xs →
  ∃ q', VTAILQ_REMOVE q x f = Ret q' ∧ queue_is f q' (filter (λ y, y ≠ x) xs).
Proof.
  intros [<- Hl] Hx. unfold VTAILQ_REMOVE. rewrite Hl, bool_decide_eq_true_2 by done.
  eexists. split; [done|]. split; [done|by apply linked_intro].
Qed.
Lemma foreach_is f q xs : queue_is f q xs → VTAILQ_FOREACH q f = Ret xs.
Proof. intros [<- Hl]. unfold VTAILQ_FOREACH. by rewrite Hl. Qed.
End queues.

(** *** Heads *)
Definition POOL_MAX : Z := 5.

Record head_ (K : Type) := Head { h_key : K; h_ocs : queue }.
Arguments Head {K} _ _.
Arguments h_key {K} _.
Arguments h_ocs {K} _.

Record table (K T : Type) := Table {
  t_heap : gmap loc (head_ K);
  t_tree : T;
  t_pool : list loc;     (* xkey_pool.hashheads, xkey_pool.ocheads *)
  t_npool : Z;           (* xkey_pool.n_hashhead, xkey_pool.n_ochead *)
  t_next : loc;
}.
Arguments Table {K T} _ _ _ _ _.
Arguments t_heap {K T} _.
Arguments t_tree {K T} _.
Arguments t_pool {K T} _.
Arguments t_npool {K T} _.
Arguments t_next {K T} _.

Section operations.
Context {K T : Type} `{!OrdTree K T}.
(** The key after memset(&head->key, 0, sizeof(head->key)). *)
Context (key0 : K).
(** xkey_hashhead_new checks the head it takes from the pool,
    xkey_ochead_new does not. *)
Context (checked : bool).
Abbreviation tb_m := (M (table K T)).

Definition get_head (h : loc) : tb_m (head_ K) :=
  tb ← getS; derefM (t_heap tb !! h) "struct xkey head".
Definition put_head (h : loc) (o : head_ K) : tb_m unit :=
  modifyS (λ tb, Table (<[h := o]> (t_heap tb)) (t_tree tb) (t_pool tb) (t_npool tb) (t_next tb)).
Definition set_tree (t : T) : tb_m unit :=
  modifyS (λ tb, Table (t_heap tb) t (t_pool tb) (t_npool tb) (t_next tb)).
Definition set_pool (p : list loc) (n : Z) : tb_m unit :=
  modifyS (λ tb, Table (t_heap tb) (t_tree tb) p n (t_next tb)).
(** FREE_OBJ *)
Definition free_head (h : loc) : tb_m unit :=
  modifyS (λ tb, Table (delete h (t_heap tb)) (t_tree tb) (t_pool tb) (t_npool tb) (t_next tb)).
(** ALLOC_OBJ (zeroed) and VTAILQ_INIT. *)
Definition alloc_head : tb_m loc :=
  tb ← getS;
  let h := t_next tb in
  modifyS (λ tb, Table (<[h := Head key0 (Queue list_ochead [])]> (t_heap tb)) (t_tree tb)
                   (t_pool tb) (t_npool tb) (Pos.succ h));;;
  mret h.

Definition head_new : tb_m loc :=
  tb ← getS;
  if (0 <? t_npool tb)%Z then
    match t_pool tb with
    | [] => if checked then panic "CHECK_OBJ_NOTNULL(head)" else undef "VTAILQ_REMOVE(pool, NULL)"
    | h :: pool => _ ← get_head h; set_pool pool (t_npool tb - 1);;; mret h
    end
  else alloc_head.

Definition head_delete (h : loc) : tb_m unit :=
  o ← get_head h;
  assertM (VTAILQ_EMPTY (h_ocs o)) "VTAILQ_EMPTY(&head->ocs)";;;
  tb ← getS;
  if (t_npool tb <? POOL_MAX)%Z then
    put_head h (Head key0 (h_ocs o));;;
    set_pool (h :: t_pool tb) (t_npool tb + 1)
  else free_head h.

Definition table_lookup (k : K) : tb_m (option loc) :=
  tb ← getS;
  match VRB_FIND (t_tree tb) k with
  | None => mret None
  | Some h => _ ← get_head h; mret (Some h)
  end.

Definition table_insert (k : K) : tb_m loc :=
  h ← head_new;
  o ← get_head h;
  put_head h (Head k (h_ocs o));;;
  tb ← getS;
  r ← liftO (VRB_INSERT (t_tree tb) k h);
  match r.1 with
  | Some h' => head_delete h;;; _ ← get_head h'; mret h'
  | None => set_tree r.2;;; mret h
  end.

(** VRB_REMOVE(tree, &head->key); head_delete(&head) *)
Definition table_remove (h : loc) : tb_m unit :=
  o ← get_head h;
  tb ← getS;
  t ← liftO (VRB_REMOVE (t_tree tb) (h_key o));
  set_tree t;;;
  head_delete h.

Definition table0 : table K T := Table ∅ VRB_INIT [] 0 1.
End operations.

(** ** The invariant of a table *)
Section invariant.
Context {K T : Type} `{Countable K} {cmp : K → K → comparison} `{!TotalCmp cmp}.
Context `{!OrdTree K T, !OrdTreeLaws cmp}.
Context (key0 : K) (checked : bool) (f : link).
Implicit Types (tb : table K T) (m : gmap K (list loc)) (k : K) (h : loc).

(** [table_ok tb m]: the tree holds one head for each key of [m], whose
    queue is the list [m] gives; every other allocated head is in the pool,
    blank; the pool holds at most POOL_MAX heads and t_npool counts them. *)
Record table_ok tb m : Prop := TableOk {
  tk_tree : tree_ok (t_tree tb);
  tk_elem k h : (k, h) ∈ tree_list (t_tree tb) →
    ∃ xs q, m !! k = Some xs ∧ t_heap tb !! h = Some (Head k q) ∧ queue_is f q xs;
  tk_dom k xs : m !! k = Some xs → ∃ h, (k, h) ∈ tree_list (t_tree tb);
  tk_pool h : h ∈ t_pool tb → ∃ q, t_heap tb !! h = Some (Head key0 q) ∧ q_elems q = [];
  tk_pool_nodup : NoDup (t_pool tb);
  tk_pool_tree k h : (k, h) ∈ tree_list (t_tree tb) → h ∉ t_pool tb;
  tk_npool : t_npool tb = Z.of_nat (length (t_pool tb));
  tk_pool_max : (t_npool tb ≤ POOL_MAX)%Z;
  tk_inj k k' h : (k, h) ∈ tree_list (t_tree tb) → (k', h) ∈ tree_list (t_tree tb) → k = k';
  tk_heap h : is_Some (t_heap tb !! h) →
    h ∈ t_pool tb ∨ ∃ k, (k, h) ∈ tree_list (t_tree tb);
  tk_fresh h : is_Some (t_heap tb !! h) → (h < t_next tb)%positive;
}.

(** The state between taking a head from the pool and putting it in the
    tree: [h] is allocated, blank and nowhere. *)
Definition owned tb m h : Prop :=
  ∃ o, t_heap tb !! h = Some o ∧ q_elems (h_ocs o) = [] ∧ (h ∉ t_pool tb) ∧
  (∀ k, (k, h) ∉ tree_list (t_tree tb)) ∧
  table_ok (Table (delete h (t_heap tb)) (t_tree tb) (t_pool tb) (t_npool tb) (t_next tb)) m ∧
  (h < t_next tb)%positive.

Lemma wp_get_head h (Q : head_ K → table K T → Prop) tb :
  wp (get_head h) Q tb ↔ ∃ o, t_heap tb !! h = Some o ∧ Q o tb.
Proof. unfold get_head. rewrite wp_bind, wp_getS. apply wp_derefM. Qed.

Lemma table_ok_elem tb m k h : table_ok tb m → (k, h) ∈ tree_list (t_tree tb) →
  ∃ xs q, m !! k = Some xs ∧ t_heap tb !! h = Some (Head k q) ∧ queue_is f q xs.
Proof. intros Hok. apply (tk_elem _ _ Hok). Qed.
Lemma table_find tb m k h : table_ok tb m →
  VRB_FIND (t_tree tb) k = Some h ↔ (k, h) ∈ tree_list (t_tree tb).
Proof. intros Hok. apply tree_find, Hok. Qed.
Lemma table_find_None tb m k : table_ok tb m → VRB_FIND (t_tree tb) k = None ↔ m !! k = None.
Proof.
  intros Hok. split.
  - intros Hf. destruct (m !! k) as [xs|] eqn:Hm; [|done].
    destruct (tk_dom _ _ Hok _ _ Hm) as [h Hh%(table_find _ _ _ _ Hok)]. congruence.
  - intros Hm. destruct (VRB_FIND (t_tree tb) k) as [h|] eqn:Hf; [|done].
    apply (table_find _ _ _ _ Hok), (tk_elem _ _ Hok) in Hf as (xs & q & ? & _). congruence.
Qed.

Lemma wp_head_new (Q : loc → table K T → Prop) tb m :
  table_ok tb m →
  (∀ h tb', owned tb' m h → t_tree tb' = t_tree tb → Q h tb') →
  wp (head_new key0 checked) Q tb.
Proof.
  intros Hok HQ. unfold head_new. wp_go. destruct (Z.ltb_spec 0 (t_npool tb)) as [Hn|Hn].
  - rewrite (tk_npool _ _ Hok) in Hn. destruct (t_pool tb) as [|h pool] eqn:Hp;
      [simpl in Hn; lia|].
    destruct (tk_pool _ _ Hok h) as (q & Hh & Hq); [rewrite Hp; left|].
    pose proof (tk_pool_nodup _ _ Hok) as Hnd. rewrite Hp in Hnd.
    apply NoDup_cons in Hnd as [Hnin Hnd].
    wp_go. apply wp_get_head. eexists. split; [done|]. unfold set_pool. wp_go. apply HQ; [|done].
    eexists. split; [done|]. simpl. split; [done|]. split; [done|]. split.
    { intros k Hk. apply (tk_pool_tree _ _ Hok _ _ Hk). rewrite Hp. left. }
    split; [|by apply (tk_fresh _ _ Hok)].
    assert (∀ k h', (k, h') ∈ tree_list (t_tree tb) → h ≠ h') as Hne.
    { intros k h' Hk ->. apply (tk_pool_tree _ _ Hok _ _ Hk). rewrite Hp. left. }
    split; simpl; try apply Hok.
    + intros k h' Hk. destruct (tk_elem _ _ Hok _ _ Hk) as (xs & q' & ? & ? & ?).
      exists xs, q'. rewrite lookup_delete_ne by eauto. done.
    + intros h' Hh'. destruct (tk_pool _ _ Hok h') as (q' & ? & ?); [rewrite Hp; by right|].
      exists q'. rewrite lookup_delete_ne by congruence. done.
    + done.
    + intros k h' Hk Hin. apply (tk_pool_tree _ _ Hok _ _ Hk). rewrite Hp. by right.
    + rewrite (tk_npool _ _ Hok), Hp. simpl. lia.
    + pose proof (tk_pool_max _ _ Hok). lia.
    + intros h' [? [Hne' Hh']%lookup_delete_Some].
      destruct (tk_heap _ _ Hok h') as [Hin|?]; [by eexists| |by right].
      rewrite Hp in Hin. left. set_solver.
    + intros h' [? [_ Hh']%lookup_delete_Some]. by apply (tk_fresh _ _ Hok); eexists.
  - assert (t_heap tb !! t_next tb = None) as Hfresh.
    { apply eq_None_not_Some. intros ?%(tk_fresh _ _ Hok). lia. }
    unfold alloc_head. wp_go. apply HQ; [|done].
    eexists. simpl. split; [apply lookup_insert_eq|]. split; [done|].
    split; [intros Hin%(tk_pool _ _ Hok); destruct Hin as (q & ? & _); congruence|].
    split; [intros k (xs & q & _ & ? & _)%(tk_elem _ _ Hok); congruence|].
    split; [|lia]. rewrite delete_insert_id by done.
    split; simpl; try apply Hok.
    intros h Hh%(tk_fresh _ _ Hok). lia.
Qed.

(** Retiring an owned head. *)
Lemma wp_head_delete h (Q : unit → table K T → Prop) tb m :
  owned tb m h → (∀ tb', table_ok tb' m → t_tree tb' = t_tree tb → Q tt tb') →
  wp (head_delete key0 h) Q tb.
Proof.
  intros (o & Hh & Hq & Hnp & Hnt & Hok & Hlt) HQ. unfold head_delete. wp_go.
  apply wp_get_head. eexists. split; [done|]. wp_go.
  { by apply bool_decide_eq_true_2. }
  destruct (Z.ltb_spec (t_npool tb) POOL_MAX) as [Hn|Hn].
  - unfold put_head, set_pool. wp_go. apply HQ; [|done].
    assert (∀ h', h' ≠ h → ∀ v, delete h (t_heap tb) !! h' = Some v →
      <[h:=Head key0 (h_ocs o)]> (t_heap tb) !! h' = Some v) as Hother.
    { intros h' Hne v. rewrite lookup_delete_ne, lookup_insert_ne by done. done. }
    split; simpl.
    + apply Hok.
    + intros k h' Hk. destruct (tk_elem _ _ Hok _ _ Hk) as (xs & q' & ? & ? & ?).
      exists xs, q'. split; [done|]. split; [|done]. apply Hother; [|done].
      intros ->. by apply (Hnt k).
    + apply (tk_dom _ _ Hok).
    + intros h' [->|Hin]%elem_of_cons.
      * eexists. by rewrite lookup_insert_eq.
      * destruct (tk_pool _ _ Hok _ Hin) as (q' & ? & ?). exists q'.
        split; [|done]. apply Hother; [by intros ->|done].
    + constructor; [done|]. apply (tk_pool_nodup _ _ Hok).
    + intros k h' Hk [->|Hin]%elem_of_cons; [by apply (Hnt k)|].
      by apply (tk_pool_tree _ _ Hok _ _ Hk).
    + pose proof (tk_npool _ _ Hok) as Hnp'. simpl in Hnp'. lia.
    + lia.
    + apply (tk_inj _ _ Hok).
    + intros h' [->|Hh']%lookup_insert_is_Some'; [left; left|].
      destruct (decide (h' = h)) as [->|Hne]; [left; left|].
      destruct (tk_heap _ _ Hok h') as [?|?]; [|left; by right|by right].
      simpl. by rewrite lookup_delete_ne.
    + intros h' [<-|Hh']%lookup_insert_is_Some'; [done|].
      destruct (decide (h' = h)) as [->|Hne]; [done|].
      apply (tk_fresh _ _ Hok). simpl. by rewrite lookup_delete_ne.
  - unfold free_head. wp_go. by apply HQ.
Qed.

Lemma wp_table_lookup k (Q : option loc → table K T → Prop) tb m :
  table_ok tb m →
  (∀ h, (k, h) ∈ tree_list (t_tree tb) → Q (Some h) tb) →
  (m !! k = None → Q None tb) →
  wp (table_lookup k) Q tb.
Proof.
  intros Hok HS HN. unfold table_lookup. wp_go.
  destruct (VRB_FIND (t_tree tb) k) as [h|] eqn:Hf; wp_go.
  - apply (table_find _ _ _ _ Hok) in Hf. apply wp_get_head.
    destruct (tk_elem _ _ Hok _ _ Hf) as (xs & q & _ & Hh & _).
    eexists. split; [done|]. wp_go. by apply HS.
  - apply HN. by apply (table_find_None _ _ _ Hok).
Qed.

(** Writing a head that is in the tree back, with another queue. *)
Lemma table_ok_put tb m k h q xs :
  table_ok tb m → (k, h) ∈ tree_list (t_tree tb) → queue_is f q xs →
  table_ok (Table (<[h := Head k q]> (t_heap tb)) (t_tree tb) (t_pool tb) (t_npool tb)
              (t_next tb)) (<[k := xs]> m).
Proof.
  intros Hok Hk Hq. split; simpl; try apply Hok.
  - intros k' h' Hk'. destruct (decide (h' = h)) as [->|Hne].
    + assert (k' = k) as -> by by eapply (tk_inj _ _ Hok).
      exists xs, q. by rewrite !lookup_insert_eq.
    + destruct (tk_elem _ _ Hok _ _ Hk') as (xs' & q' & Hm & Hh' & Hq').
      exists xs', q'. rewrite (lookup_insert_ne _ h) by congruence.
      split; [|done]. rewrite lookup_insert_ne; [done|]. intros ->.
      apply Hne. by eapply tree_fun; [apply (tk_tree _ _ Hok)|..].
  - intros k' xs' [[<- _]|[_ Hm]]%lookup_insert_Some; [by eexists|]. by eapply tk_dom.
  - intros h' Hin. destruct (tk_pool _ _ Hok _ Hin) as (q' & ? & ?). exists q'.
    split; [|done]. rewrite lookup_insert_ne; [done|]. intros ->.
    by apply (tk_pool_tree _ _ Hok _ _ Hk).
  - intros h' [->|Hh']%lookup_insert_is_Some'; [by right; eexists|]. by apply (tk_heap _ _ Hok).
  - intros h' [<-|Hh']%lookup_insert_is_Some'; [|by apply (tk_fresh _ _ Hok)].
    apply (tk_fresh _ _ Hok). destruct (tk_elem _ _ Hok _ _ Hk) as (? & ? & _ & Hh & _).
    by eexists.
Qed.

Lemma owned_rekey tb m h k q0 :
  owned tb m h → t_heap tb !! h = Some q0 →
  owned (Table (<[h := Head k (h_ocs q0)]> (t_heap tb)) (t_tree tb) (t_pool tb) (t_npool tb)
           (t_next tb)) m h.
Proof.
  intros (o & Hh & Hq & Hrest) Hq0. assert (o = q0) as -> by congruence.
  eexists. simpl. rewrite lookup_insert_eq. split; [done|]. split; [done|].
  by rewrite delete_insert_eq.
Qed.

(** An owned head whose key is set becomes a head of the tree. *)
Lemma owned_insert tb m h k q t' :
  owned tb m h → t_heap tb !! h = Some (Head k q) → m !! k = None →
  tree_ok t' → tree_list t' ≡ₚ (k, h) :: tree_list (t_tree tb) →
  table_ok (Table (t_heap tb) t' (t_pool tb) (t_npool tb) (t_next tb)) (<[k := []]> m).
Proof.
  intros (o & Hh & Hq & Hnp & Hnt & Hok & Hlt) Hh' Hk Ht' Hp.
  rewrite Hh in Hh'. injection Hh' as ->. simpl in Hq.
  assert (∀ k' h', (k', h') ∈ tree_list (t_tree tb) → h' ≠ h) as Hne
    by (intros k' h' Hin ->; by apply (Hnt k')).
  split; simpl.
  - done.
  - intros k' h'. rewrite Hp, elem_of_cons. intros [[= -> ->]|Hin].
    + exists [], q. rewrite lookup_insert_eq. split; [done|]. split; [done|]. split; [done|].
      apply bool_decide_eq_true_2. by left.
    + destruct (tk_elem _ _ Hok _ _ Hin) as (xs & q' & Hm & Hl & ?). simpl in Hl.
      rewrite lookup_delete_ne in Hl by (symmetry; eauto).
      exists xs, q'. split; [|done]. rewrite lookup_insert_ne; [done|]. congruence.
  - intros k' xs. setoid_rewrite Hp. setoid_rewrite elem_of_cons.
    intros [[<- _]|[_ Hm]]%lookup_insert_Some; [by eauto|].
    destruct (tk_dom _ _ Hok _ _ Hm) as [h' ?]. eauto.
  - intros h' Hin. destruct (tk_pool _ _ Hok _ Hin) as (q' & Hl & ?). simpl in Hl.
    exists q'. split; [|done]. rewrite lookup_delete_ne in Hl; [done|by intros ->].
  - apply (tk_pool_nodup _ _ Hok).
  - intros k' h'. rewrite Hp, elem_of_cons. intros [[= -> ->]|Hin]; [done|].
    by apply (tk_pool_tree _ _ Hok _ _ Hin).
  - apply (tk_npool _ _ Hok).
  - apply (tk_pool_max _ _ Hok).
  - intros k1 k2 h'. rewrite Hp, !elem_of_cons.
    intros [[= -> ->]|H1] [[= ->]|H2]; [done|by apply Hne in H2|by subst; apply Hne in H1|].
    by eapply (tk_inj _ _ Hok).
  - intros h' Hh'. setoid_rewrite Hp. setoid_rewrite elem_of_cons.
    destruct (decide (h' = h)) as [->|Hn]; [right; eauto|].
    destruct (tk_heap _ _ Hok h') as [?|[? ?]]; [simpl; by rewrite lookup_delete_ne|by left|].
    right. eauto.
  - intros h' Hh'. destruct (decide (h' = h)) as [->|Hn]; [done|].
    apply (tk_fresh _ _ Hok). simpl. by rewrite lookup_delete_ne.
Qed.

Lemma wp_table_insert k (Q : loc → table K T → Prop) tb m :
  table_ok tb m →
  (∀ h tb', (k, h) ∈ tree_list (t_tree tb') → table_ok tb' (<[k := default [] (m !! k)]> m) →
     (∀ x, x ∈ tree_list (t_tree tb) → x ∈ tree_list (t_tree tb')) → Q h tb') →
  wp (table_insert key0 checked k) Q tb.
Proof.
  intros Hok HQ. unfold table_insert. wp_go. eapply wp_head_new; [done|].
  intros h tb1 Hown Htree. wp_go. apply wp_get_head.
  pose proof Hown as (o & Hh & _). exists o. split; [done|]. unfold put_head.
  pose proof (owned_rekey _ _ _ k _ Hown Hh) as Hown'.
  set (tb2 := Table _ _ _ _ _) in Hown'.
  assert (t_tree tb1 = t_tree tb2) as Ht2 by done.
  pose proof Hown' as (_ & _ & _ & _ & _ & Hok' & _).
  destruct (m !! k) as [xs|] eqn:Hm; simpl in HQ.
  - destruct (tk_dom _ _ Hok _ _ Hm) as [h' Hh'].
    assert ((k, h') ∈ tree_list (t_tree tb1)) as Hh1 by by rewrite Htree.
    wp_go; [apply (tree_insert_hit (t_tree tb1) k h h'); [apply Hok'|done]|].
    cbn [fst]. wp_go. eapply wp_head_delete; [exact Hown'|]. intros tb3 Hok3 Ht3. wp_go.
    apply wp_get_head. assert ((k, h') ∈ tree_list (t_tree tb3)) as Hh3 by by rewrite Ht3.
    destruct (tk_elem _ _ Hok3 _ _ Hh3) as (xs' & q & Hm' & Hl & _).
    eexists. split; [done|]. wp_go. apply HQ; [done|by rewrite insert_id|].
    intros x. by rewrite Ht3, <-Htree.
  - assert (VRB_FIND (t_tree tb1) k = None) as Hf.
    { apply tree_find_None; [apply Hok'|]. intros ([k' h'] & -> & Hin)%list_elem_of_fmap.
      rewrite Htree in Hin. apply (tk_elem _ _ Hok) in Hin as (? & ? & ? & _).
      simpl in Hm. congruence. }
    destruct (tree_insert_elem (t_tree tb1) k h) as (t' & Hi & Ht' & Hp); [apply Hok'|done|].
    wp_go; [exact Hi|]. cbn [fst snd]. unfold set_tree. wp_go. simpl.
    apply HQ; [simpl; rewrite Hp; left| |].
    + eapply (owned_insert tb2); [exact Hown'|apply lookup_insert_eq|done|done|done].
    + intros x Hx. simpl. rewrite Hp, Htree. by right.
Qed.

Lemma wp_table_remove k h (Q : unit → table K T → Prop) tb m :
  table_ok tb m → (k, h) ∈ tree_list (t_tree tb) → m !! k = Some [] →
  (∀ tb', table_ok tb' (delete k m) →
     (∀ x, x ∈ tree_list (t_tree tb) → x.1 ≠ k → x ∈ tree_list (t_tree tb')) → Q tt tb') →
  wp (table_remove key0 h) Q tb.
Proof.
  intros Hok Hk Hm HQ. unfold table_remove. wp_go. apply wp_get_head.
  destruct (tk_elem _ _ Hok _ _ Hk) as (xs & q & Hm' & Hh & Hq).
  assert (xs = []) as -> by congruence. eexists. split; [done|]. simpl.
  destruct (tree_remove_elem (t_tree tb) k h) as (t' & Hr & Ht' & Hp & Hel);
    [apply Hok|done|].
  wp_go; [exact Hr|]. unfold set_tree. wp_go. eapply wp_head_delete;
    [|intros tb' ? Htr; apply HQ; [done|]; intros x ? ?; rewrite Htr; by apply Hel].
  assert (∀ k' h', (k', h') ∈ tree_list t' → h' ≠ h) as Hne.
  { intros k' h' [Hin Hk']%Hel ->. apply Hk'. by eapply (tk_inj _ _ Hok). }
  eexists. simpl. split; [done|]. split; [apply Hq|].
  split; [by apply (tk_pool_tree _ _ Hok _ _ Hk)|].
  split; [intros k' Hin; by apply Hne in Hin|].
  split; [|apply (tk_fresh _ _ Hok); by eexists]. split; simpl; try apply Hok.
  - done.
  - intros k' h' Hin. pose proof (Hne _ _ Hin). apply Hel in Hin as [Hin Hk'].
    destruct (tk_elem _ _ Hok _ _ Hin) as (xs & q' & ? & ? & ?). exists xs, q'.
    by rewrite !lookup_delete_ne.
  - intros k' xs [Hk' Hm1]%lookup_delete_Some. destruct (tk_dom _ _ Hok _ _ Hm1) as [h' Hh'].
    exists h'. apply Hel. split; [done|]. simpl. congruence.
  - intros h' Hin. destruct (tk_pool _ _ Hok _ Hin) as (q' & ? & ?). exists q'.
    split; [|done]. rewrite lookup_delete_ne; [done|]. intros <-.
    by apply (tk_pool_tree _ _ Hok _ _ Hk).
  - intros k' h' [Hin _]%Hel. by apply (tk_pool_tree _ _ Hok _ _ Hin).
  - intros k1 k2 h' [H1 _]%Hel [H2 _]%Hel. by eapply (tk_inj _ _ Hok).
  - intros h' [? [Hne' Hh']%lookup_delete_Some].
    destruct (tk_heap _ _ Hok h') as [?|[k' Hin]]; [by eexists|by left|]. right. exists k'.
    apply Hel. split; [done|]. simpl. intros ->. apply Hne'.
    by eapply tree_fun; [apply (tk_tree _ _ Hok)|..].
  - intros h' [? [_ Hh']%lookup_delete_Some]. by apply (tk_fresh _ _ Hok); eexists.
Qed.

Lemma table0_ok : table_ok table0 ∅.
Proof.
  destruct (tree_init (cmp:=cmp) (T:=T)) as [Hi Hl].
  split; simpl; try done; rewrite ?Hl; try set_solver.
  - constructor.
  - intros h. rewrite lookup_empty. by intros [? ?].
  - intros h. rewrite lookup_empty. by intros [? ?].
Qed.

(** Nothing leaks: the heads in use and those in the pool are all there is. *)
Lemma table_ok_size tb m : table_ok tb m → size (t_heap tb) = size m + length (t_pool tb).
Proof.
  intros Hok. pose proof (tk_tree _ _ Hok) as Htree.
  assert (size m = length (tree_list (t_tree tb))) as ->.
  { rewrite <-size_dom, <-(length_fmap fst).
    rewrite <-(size_list_to_set (C := gset K)) by (by eapply sorted_NoDup, tree_sorted).
    f_equal. apply set_eq. intros k. rewrite elem_of_dom, elem_of_list_to_set, list_elem_of_fmap.
    split.
    - intros [xs [h Hh]%(tk_dom _ _ Hok)]. by exists (k, h).
    - intros ([k' h] & -> & Hin). destruct (tk_elem _ _ Hok _ _ Hin) as (xs & ? & ? & _).
      by exists xs. }
  rewrite <-(length_fmap snd), <-length_app, <-size_dom.
  assert (NoDup ((tree_list (t_tree tb)).*2 ++ t_pool tb)) as Hnd.
  { apply NoDup_app. split; [|split; [|apply (tk_pool_nodup _ _ Hok)]].
    - apply NoDup_fmap_2_strong; [|by eapply NoDup_fmap_1, sorted_NoDup, tree_sorted].
      intros [k h] [k' h'] Hin Hin' Heq. simpl in Heq. subst h'. f_equal.
      by eapply (tk_inj _ _ Hok).
    - intros h ([k h'] & -> & Hin)%list_elem_of_fmap. by apply (tk_pool_tree _ _ Hok _ _ Hin). }
  rewrite <-(size_list_to_set (C := gset loc)) by done. f_equal. apply set_eq. intros h.
  rewrite elem_of_dom, elem_of_list_to_set, elem_of_app, list_elem_of_fmap. split.
  - intros [Hin|[k Hk]]%(tk_heap _ _ Hok); [by right|left; by exists (k, h)].
  - intros [([k h'] & -> & Hin)|Hin].
    + destruct (tk_elem _ _ Hok _ _ Hin) as (? & ? & _ & ? & _). by eexists.
    + destruct (tk_pool _ _ Hok _ Hin) as (? & ? & _). by eexists.
Qed.
End invariant.
