(* ===== verification/XKey.v ===== *)
(** * vmod_xkey: purging by secondary keys

    Models vmod_xkey.c.  An object (an objcore of Varnish, known by its
    address) is tagged with the keys its xkey headers list; a tagging is an
    xkey_oc, linked into the queue of its object's ochead and into the queue
    of its key's hashhead (both kinds of heads are tables of XHeads).  The
    objcores themselves, SHA256 and EXP_Rearm belong to Varnish: an objcore is
    the record of the fields purge reads, EXP_Rearm is the parameter
    [exp_rearm] that says how it changes them, and every call of it is kept in
    [rearmed].  Of the VRT_CTX, purge has ctx->now and the request
    ([ctx_req]).  The mutex is held over each public operation; xkey_cb_insert
    takes it once per key, so its steps are the single insertions. *)
From S2P Require Import Prelude CStr Workspace Double TreeSpec XHeads.

Record xkey_oc := XOc { oc_hashhead : option loc; oc_objcore : option loc }.

(** The fields of struct objcore that purge reads. *)
Record objcore := Objcore {
  oc_busy : bool;      (* flags & OC_F_BUSY *)
  t_origin : double;
  ttl : double;
  grace : double;
  keep : double;
}.
(** A call EXP_Rearm(oc, now, ttl, grace, keep). *)
Record rearm := Rearm {
  r_oc : loc; r_now : double; r_ttl : double; r_grace : double; r_keep : double;
}.

Definition DIGEST_LEN : nat := 32.
Definition zero_digest : bytes := replicate DIGEST_LEN "000"%char.

Record xkey (T1 T2 : Type) := Xkey {
  hashes : table bytes T1;       (* xkey_hashtree and xkey_pool.hashheads *)
  objects : table uintptr T2;    (* xkey_octree and xkey_pool.ocheads *)
  ocs : gmap loc xkey_oc;        (* the allocated xkey_oc's *)
  pool_ocs : queue;              (* xkey_pool.ocs *)
  n_oc : Z;                      (* xkey_pool.n_oc *)
  next_oc : loc;
  n_init : Z;
  xkey_cb_handle : bool;         (* non-zero *)
  objcores : gmap loc objcore;
  rearmed : list rearm;
}.
Arguments Xkey {T1 T2} _ _ _ _ _ _ _ _ _ _.
Arguments hashes {T1 T2} _.
Arguments objects {T1 T2} _.
Arguments ocs {T1 T2} _.
Arguments pool_ocs {T1 T2} _.
Arguments n_oc {T1 T2} _.
Arguments next_oc {T1 T2} _.
Arguments n_init {T1 T2} _.
Arguments xkey_cb_handle {T1 T2} _.
Arguments objcores {T1 T2} _.
Arguments rearmed {T1 T2} _.

(** OEV_INSERT, OEV_EXPIRE and the events that were not subscribed. *)
Inductive oev := OEV_INSERT | OEV_EXPIRE | OEV_OTHER.
Inductive vcl_event := VCL_EVENT_LOAD | VCL_EVENT_WARM | VCL_EVENT_COLD | VCL_EVENT_DISCARD.

(** *** Tokens *)
(** xkey_tok: the new [*b], the new [*e] and the return value. *)
Definition xkey_tok (t : bytes) : bytes * bytes * bool :=
  let b := skip_while isblank t in
  let e := skip_while (λ c, negb (isblank c)) b in
  (b, e, (length e <? length b)%nat).

Section operations.
Context {T1 T2 : Type} `{!OrdTree bytes T1, !OrdTree uintptr T2}.
Context (SHA256 : bytes → bytes).
(** EXP_Rearm(oc, now, ttl, grace, keep) *)
Context (exp_rearm : objcore → double → double → double → double → objcore).
Abbreviation xk_m := (M (xkey T1 T2)).

Definition in_hashes {A} (m : M (table bytes T1) A) : xk_m A := λ st,
  match m (hashes st) with
  | Ret (a, tb) => Ret (a, Xkey tb (objects st) (ocs st) (pool_ocs st) (n_oc st) (next_oc st)
                             (n_init st) (xkey_cb_handle st) (objcores st) (rearmed st))
  | Panic w => Panic w
  | Undef w => Undef w
  | NoFuel => NoFuel
  end.
Definition in_objects {A} (m : M (table uintptr T2) A) : xk_m A := λ st,
  match m (objects st) with
  | Ret (a, tb) => Ret (a, Xkey (hashes st) tb (ocs st) (pool_ocs st) (n_oc st) (next_oc st)
                             (n_init st) (xkey_cb_handle st) (objcores st) (rearmed st))
  | Panic w => Panic w
  | Undef w => Undef w
  | NoFuel => NoFuel
  end.
Definition set_ocs (m : gmap loc xkey_oc) : xk_m unit := modifyS (λ st,
  Xkey (hashes st) (objects st) m (pool_ocs st) (n_oc st) (next_oc st) (n_init st)
    (xkey_cb_handle st) (objcores st) (rearmed st)).
Definition set_pool_ocs (q : queue) (n : Z) : xk_m unit := modifyS (λ st,
  Xkey (hashes st) (objects st) (ocs st) q n (next_oc st) (n_init st)
    (xkey_cb_handle st) (objcores st) (rearmed st)).
Definition set_init (n : Z) (h : bool) : xk_m unit := modifyS (λ st,
  Xkey (hashes st) (objects st) (ocs st) (pool_ocs st) (n_oc st) (next_oc st) n h
    (objcores st) (rearmed st)).
Definition set_objcores (m : gmap loc objcore) (l : list rearm) : xk_m unit := modifyS (λ st,
  Xkey (hashes st) (objects st) (ocs st) (pool_ocs st) (n_oc st) (next_oc st) (n_init st)
    (xkey_cb_handle st) m l).

Definition get_oc (x : loc) : xk_m xkey_oc :=
  st ← getS; derefM (ocs st !! x) "struct xkey_oc".
Definition put_oc (x : loc) (o : xkey_oc) : xk_m unit :=
  st ← getS; set_ocs (<[x := o]> (ocs st)).
Definition alloc_oc : xk_m loc :=
  st ← getS;
  let x := next_oc st in
  modifyS (λ st, Xkey (hashes st) (objects st) (<[x := XOc None None]> (ocs st)) (pool_ocs st)
    (n_oc st) (Pos.succ x) (n_init st) (xkey_cb_handle st) (objcores st) (rearmed st));;;
  mret x.
Definition free_oc (x : loc) : xk_m unit := st ← getS; set_ocs (delete x (ocs st)).
Definition get_objcore (o : loc) : xk_m objcore :=
  st ← getS; derefM (objcores st !! o) "struct objcore".

(** A queue operation on the head [h]. *)
Definition upd_ocs {K T : Type} (h : loc) (op : queue → outcome queue) : M (table K T) unit :=
  o ← get_head h;
  q ← liftO (op (h_ocs o));
  put_head h (Head (h_key o) q).

Definition xkey_oc_new : xk_m loc :=
  st ← getS;
  if (0 <? n_oc st)%Z then
    match VTAILQ_FIRST (pool_ocs st) with
    | None => undef "VTAILQ_REMOVE(pool, NULL)"
    | Some x =>
        q ← liftO (VTAILQ_REMOVE (pool_ocs st) x list_hashhead);
        set_pool_ocs q (n_oc st - 1);;;
        mret x
    end
  else alloc_oc.

Definition xkey_oc_delete (x : loc) : xk_m unit :=
  o ← get_oc x;
  assertM (bool_decide (oc_objcore o = None)) "AZ(oc->objcore)";;;
  st ← getS;
  if (n_oc st <? POOL_MAX)%Z then
    q ← liftO (VTAILQ_INSERT_HEAD (pool_ocs st) x list_hashhead);
    set_pool_ocs q (n_oc st + 1)
  else free_oc x.

(** The heads of objects; see [xkey_octree_insert_calls]. *)
Definition xkey_ochead_new : xk_m loc := in_objects (head_new 0%N false).
Definition xkey_ochead_delete (head : loc) : xk_m unit := in_objects (head_delete 0%N head).

Definition xkey_hashtree_lookup (digest : bytes) : xk_m (option loc) :=
  assertM (length digest =? DIGEST_LEN)%nat "len == sizeof(key.digest)";;;
  in_hashes (table_lookup digest).
Definition xkey_hashtree_insert (digest : bytes) : xk_m loc :=
  assertM (length digest =? DIGEST_LEN)%nat "len == sizeof(head->key.digest)";;;
  in_hashes (table_insert zero_digest true digest).
Definition xkey_octree_lookup (ptr : uintptr) : xk_m (option loc) :=
  assertM (negb (ptr =? 0)%N) "AN(ptr)";;;
  in_objects (table_lookup ptr).
Definition xkey_octree_insert (ptr : uintptr) : xk_m loc :=
  assertM (negb (ptr =? 0)%N) "AN(ptr)";;;
  in_objects (table_insert 0%N false ptr).

Definition xkey_insert (objcore : loc) (digest : bytes) : xk_m unit :=
  _ ← get_objcore objcore;
  assertM (length digest =? DIGEST_LEN)%nat "len == DIGEST_LEN";;;
  ochead ← xkey_octree_insert (N.pos objcore);
  hashhead ← xkey_hashtree_insert digest;
  oc ← xkey_oc_new;
  in_objects (upd_ocs ochead (λ q, VTAILQ_INSERT_TAIL q oc list_ochead));;;
  in_hashes (upd_ocs hashhead (λ q, VTAILQ_INSERT_TAIL q oc list_hashhead));;;
  _ ← get_oc oc;
  put_oc oc (XOc (Some hashhead) (Some objcore)).

(** The body of the loop of xkey_remove: the hashhead's part, and all. *)
Definition leave_hashhead (hashhead oc : loc) : M (table bytes T1) unit :=
  upd_ocs hashhead (λ q, VTAILQ_REMOVE q oc list_hashhead);;;
  hh ← get_head hashhead;
  if VTAILQ_EMPTY (h_ocs hh) then table_remove zero_digest hashhead else mret tt.
Definition remove_oc (ochead oc : loc) : xk_m unit :=
  x ← get_oc oc;
  hashhead ← derefM (oc_hashhead x) "oc->hashhead";
  put_oc oc (XOc None (oc_objcore x));;;
  in_hashes (leave_hashhead hashhead oc);;;
  x ← get_oc oc;
  put_oc oc (XOc (oc_hashhead x) None);;;
  in_objects (upd_ocs ochead (λ q, VTAILQ_REMOVE q oc list_ochead));;;
  xkey_oc_delete oc.
Definition xkey_remove (ochead : loc) : xk_m unit :=
  o ← in_objects (get_head ochead);
  l ← liftO (VTAILQ_FOREACH (h_ocs o) list_ochead);
  forM_ l (remove_oc ochead);;;
  o ← in_objects (get_head ochead);
  assertM (VTAILQ_EMPTY (h_ocs o)) "VTAILQ_EMPTY(&ochead->ocs)";;;
  in_objects (table_remove 0%N ochead).

(** *** The callbacks *)
(** [while (xkey_tok(&sp, &ep)) { ...; sp = ep; }] *)
Fixpoint tok_loop {A} (fuel : nat) (sp : bytes) (acc : A) (body : bytes → A → xk_m A) : xk_m A :=
  match fuel with
  | O => no_fuel
  | S fuel =>
      let '(sp, ep, more) := xkey_tok sp in
      if more : bool then
        acc ← body (strndup sp (ptrdiff sp ep)) acc;
        tok_loop fuel ep acc body
      else mret acc
  end.

Definition hdr_xkey : bytes := str "xkey:".
Definition hdr_h2 : bytes := str "X-HashTwo:".
(** [hdrs] are the header lines of the stored object (HTTP_FOREACH_PACK). *)
Definition xkey_cb_insert (objcore : loc) (hdrs : list bytes) : xk_m unit :=
  _ ← get_objcore objcore;
  forM_ hdrs (λ sp,
    if negb (strncaseeq sp hdr_xkey (length hdr_xkey)) &&
       negb (strncaseeq sp hdr_h2 (length hdr_h2)) then mret tt
    else
      match strchr sp ":" with
      | None => panic "AN(sp)"
      | Some sp =>
          let sp := drop 1 sp in
          tok_loop (S (length sp)) sp tt (λ tok _, xkey_insert objcore (SHA256 tok))
      end).

Definition xkey_cb_remove (objcore : loc) : xk_m unit :=
  _ ← get_objcore objcore;
  ochead ← xkey_octree_lookup (N.pos objcore);
  match ochead with None => mret tt | Some ochead => xkey_remove ochead end.

(** [priv] is the callback's argument (NULL is false). *)
Definition xkey_cb (priv : bool) (objcore : loc) (hdrs : list bytes) (ev : oev) : xk_m unit :=
  _ ← get_objcore objcore;
  assertM (negb priv) "AZ(priv)";;;
  match ev with
  | OEV_INSERT => xkey_cb_insert objcore hdrs
  | OEV_EXPIRE => xkey_cb_remove objcore
  | OEV_OTHER => panic "WRONG(Unexpected event)"
  end.

(** *** Purging *)
(** What purge reads of its VRT_CTX besides ctx->now: the request, NULL in
    the VCL of a backend task ([None]), and of the request whether its worker
    is set. *)
Definition ctx_req : Type := option bool.
Definition has_request (req : ctx_req) : bool := default false req.
(** One turn of the VTAILQ_FOREACH of purge. *)
Definition purge_oc (now : double) (do_soft : bool) (oc : loc) (i : Z) : xk_m Z :=
  x ← get_oc oc;
  match oc_objcore x with
  | None => panic "CHECK_OBJ_NOTNULL(oc->objcore)"
  | Some o =>
      c ← get_objcore o;
      if oc_busy c then mret i
      else if do_soft && dleb (ttl c) (dsub now (t_origin c)) then mret i
      else
        let call := if do_soft then Rearm o now dzero (grace c) (keep c)
                    else Rearm o (t_origin c) dzero dzero dzero in
        st ← getS;
        set_objcores
          (<[o := exp_rearm c (r_now call) (r_ttl call) (r_grace call) (r_keep call)]>
             (objcores st)) (rearmed st ++ [call]);;;
        mret (i + 1)%Z
  end.
Fixpoint purge_ocs (now : double) (do_soft : bool) (l : list loc) (i : Z) : xk_m Z :=
  match l with
  | [] => mret i
  | oc :: l' => i ← purge_oc now do_soft oc i; purge_ocs now do_soft l' i
  end.
Definition purge (req : ctx_req) (now : double) (key : option bytes) (do_soft : bool) : xk_m Z :=
  match req with
  | None => panic "CHECK_OBJ_NOTNULL(ctx->req)"
  | Some wrk => assertM wrk "CHECK_OBJ_NOTNULL(ctx->req->wrk)"
  end;;;
  match key with
  | None | Some [] => mret 0%Z
  | Some sp =>
      tok_loop (S (length sp)) sp 0%Z (λ tok i,
        h ← xkey_hashtree_lookup (SHA256 tok);
        match h with
        | None => mret i
        | Some hashhead =>
            hh ← in_hashes (get_head hashhead);
            l ← liftO (VTAILQ_FOREACH (h_ocs hh) list_hashhead);
            purge_ocs now do_soft l i
        end)
  end.
Definition vmod_purge (req : ctx_req) (now : double) (key : option bytes) : xk_m Z :=
  purge req now key false.
Definition vmod_softpurge (req : ctx_req) (now : double) (key : option bytes) : xk_m Z :=
  purge req now key true.

(** *** Loading and unloading *)
Definition hashtree (st : xkey T1 T2) : T1 := t_tree (hashes st).
Definition octree (st : xkey T1 T2) : T2 := t_tree (objects st).
(** [while (!VTAILQ_EMPTY(pool)) { remove the first; FREE_OBJ }] *)
Fixpoint drain_heads {K T : Type} (fuel : nat) : M (table K T) unit :=
  tb ← getS;
  match t_pool tb, fuel with
  | [], _ => mret tt
  | _ :: _, O => no_fuel
  | h :: pool, S fuel =>
      _ ← get_head h; set_pool pool (t_npool tb);;; free_head h;;; drain_heads fuel
  end.
Fixpoint drain_ocs (fuel : nat) : xk_m unit :=
  st ← getS;
  match VTAILQ_FIRST (pool_ocs st), fuel with
  | None, _ => mret tt
  | Some _, O => no_fuel
  | Some x, S fuel =>
      q ← liftO (VTAILQ_REMOVE (pool_ocs st) x list_ochead);
      set_pool_ocs q (n_oc st);;; free_oc x;;; drain_ocs fuel
  end.
Definition xkey_cleanup : xk_m unit :=
  st ← getS;
  foreach hashtree (size (t_heap (hashes st))) (VRB_MIN (hashtree st)) (λ x,
    hh ← in_hashes (get_head x.2);
    st ← getS;
    r ← liftO (VTAILQ_CONCAT (pool_ocs st) (h_ocs hh) list_ochead);
    set_pool_ocs r.1 (n_oc st);;;
    in_hashes (put_head x.2 (Head (h_key hh) r.2);;;
               tb ← getS; set_pool (x.2 :: t_pool tb) (t_npool tb)));;;
  in_hashes (set_tree VRB_INIT);;;
  st ← getS;
  foreach octree (size (t_heap (objects st))) (VRB_MIN (octree st)) (λ x,
    _ ← in_objects (get_head x.2);
    in_objects (tb ← getS; set_pool (x.2 :: t_pool tb) (t_npool tb)));;;
  in_objects (set_tree VRB_INIT);;;
  st ← getS;
  in_hashes (drain_heads (length (t_pool (hashes st))));;;
  in_objects (drain_heads (length (t_pool (objects st))));;;
  drain_ocs (length (q_elems (pool_ocs st))).

(** [handle] is what the registration returns (non-NULL is true). *)
Definition vmod_event (e : vcl_event) (handle : bool) : xk_m Z :=
  match e with
  | VCL_EVENT_LOAD =>
      st ← getS;
      (if (n_init st =? 0)%Z then set_init (n_init st) handle else mret tt);;;
      st ← getS;
      assertM (xkey_cb_handle st) "AN(xkey_cb_handle)";;;
      set_init (n_init st + 1) (xkey_cb_handle st);;;
      mret 0%Z
  | VCL_EVENT_DISCARD =>
      st ← getS;
      assertM (0 <? n_init st)%Z "n_init > 0";;;
      set_init (n_init st - 1) (xkey_cb_handle st);;;
      assertM (xkey_cb_handle st) "AN(xkey_cb_handle)";;;
      (if (n_init st - 1 =? 0)%Z then
         set_init (n_init st - 1) false;;;    (* the handle is reset *)
         xkey_cleanup
       else mret tt);;;
      mret 0%Z
  | _ => mret 0%Z
  end.

(** The insertion of an object, spelled out: a head is taken or allocated, and
    given back if the tree has one for the object. *)
Lemma in_objects_bind {A B} (m : M (table uintptr T2) A) (f : A → M (table uintptr T2) B) st :
  in_objects (m ≫= f) st = (in_objects m ≫= λ a, in_objects (f a)) st.
Proof.
  unfold in_objects, mbind, M_bind. destruct (m (objects st)) as [[a tb]| | |]; [|done..]. by destruct st.
Qed.
Lemma in_objects_ext {A} (m m' : M (table uintptr T2) A) st :
  m (objects st) = m' (objects st) → in_objects m st = in_objects m' st.
Proof. unfold in_objects. by intros ->. Qed.
Lemma xkey_octree_insert_calls ptr st :
  xkey_octree_insert ptr st =
    (assertM (negb (ptr =? 0)%N) "AN(ptr)";;;
     head ← xkey_ochead_new;
     o ← in_objects (get_head head);
     in_objects (put_head head (Head ptr (h_ocs o)));;;
     r ← in_objects (tb ← getS; liftO (VRB_INSERT (t_tree tb) ptr head));
     match r.1 with
     | Some head' => xkey_ochead_delete head;;; _ ← in_objects (get_head head'); mret head'
     | None => in_objects (set_tree r.2);;; mret head
     end) st.
Proof.
  unfold xkey_octree_insert, table_insert. apply bind_ext. intros _ st1. rewrite in_objects_bind.
  apply bind_ext. intros head st2. rewrite in_objects_bind. apply bind_ext. intros o st3.
  rewrite in_objects_bind. apply bind_ext. intros _ st4.
  erewrite in_objects_ext by (symmetry; apply bind_assoc). rewrite in_objects_bind. apply bind_ext. intros r st5.
  destruct (r.1) as [head'|]; rewrite in_objects_bind; apply bind_ext; intros _ st6.
  - rewrite in_objects_bind. apply bind_ext. intros _ st7. by destruct st7.
  - by destruct st6.
Qed.

(** The module's data when the process starts; the objects are Varnish's. *)
Definition xkey_boot (cores : gmap loc objcore) : xkey T1 T2 :=
  Xkey table0 table0 ∅ (Queue list_hashhead []) 0 1 0 false cores [].
End operations.

(** ** The meaning of a state *)

(** A tagging: the xkey_oc, the object and the key's digest. *)
Abbreviation entry := (loc * (loc * bytes))%type.
Definition e_obj (e : entry) : uintptr := N.pos e.2.1.
Definition e_dig (e : entry) : bytes := e.2.2.
(** The taggings of [L] with key [k] under [f], oldest first. *)
Definition group {K} `{EqDecision K} (f : entry → K) (L : list entry) (k : K) : list loc :=
  (filter (λ e, f e = k) L).*1.
(** [m] groups [L] under [f]; the keys [E] are present even when empty. *)
Definition groups {K} `{Countable K} (f : entry → K) (L : list entry) (E : list K)
    (m : gmap K (list loc)) : Prop :=
  ∀ k, m !! k = if decide (k ∈ f <$> L ∨ k ∈ E) then Some (group f L k) else None.

Section grouping.
Context {K : Type} `{Countable K} (f : entry → K).
Implicit Types (L : list entry) (e : entry) (k : K).

Lemma group_nil L k : group f L k = [] ↔ k ∉ f <$> L.
Proof.
  unfold group. split.
  - intros Hn%fmap_nil_inv (e & -> & He)%list_elem_of_fmap.
    by eapply (filter_nil_not_elem_of (λ e', f e' = f e)) in Hn.
  - intros Hn. rewrite filter_none; [done|]. intros e He <-.
    by apply Hn, list_elem_of_fmap_2.
Qed.
Lemma group_app L e k :
  group f (L ++ [e]) k = group f L k ++ (if decide (f e = k) then [e.1] else []).
Proof. unfold group. rewrite filter_app, fmap_app. f_equal. unfold filter at 1. simpl. by case_decide. Qed.
Lemma group_elem L k x : x ∈ group f L k ↔ ∃ e, e ∈ L ∧ f e = k ∧ e.1 = x.
Proof.
  unfold group. rewrite list_elem_of_fmap. setoid_rewrite list_elem_of_filter. naive_solver.
Qed.

(** Registering a key and adding a tagging to its queue. *)
Lemma groups_touch L E m k :
  groups f L E m → groups f L (k :: E) (<[k := default [] (m !! k)]> m).
Proof.
  intros Hg k'. destruct (decide (k = k')) as [<-|Hne].
  - rewrite lookup_insert_eq, Hg. rewrite (decide_True (P := _ ∨ k ∈ k :: E)) by (right; left).
    case_decide as Hk; [done|]. simpl. f_equal. symmetry. apply group_nil. tauto.
  - rewrite lookup_insert_ne, Hg by done.
    apply decide_ext. rewrite elem_of_cons. naive_solver.
Qed.
Lemma groups_push L E m k e :
  groups f L (k :: E) m → f e = k →
  groups f (L ++ [e]) E (<[k := group f L k ++ [e.1]]> m).
Proof.
  intros Hg <- k'. destruct (decide (f e = k')) as [<-|Hne].
  - rewrite lookup_insert_eq, decide_True
      by (left; apply list_elem_of_fmap; exists e; set_solver).
    by rewrite group_app, decide_True.
  - rewrite lookup_insert_ne, Hg, group_app by done.
    rewrite (decide_False (P := f e = k')), app_nil_r by done.
    apply decide_ext. rewrite fmap_app, elem_of_app, elem_of_cons. set_solver.
Qed.
(** Taking one tagging out of its queue. *)
Lemma groups_pop L1 e L2 E m :
  NoDup (L1 ++ e :: L2).*1 → groups f (L1 ++ e :: L2) E m →
  groups f (L1 ++ L2) (f e :: E)
    (<[f e := filter (λ y, y ≠ e.1) (group f (L1 ++ e :: L2) (f e))]> m).
Proof.
  intros Hnd Hg. rewrite fmap_app, fmap_cons in Hnd.
  apply NoDup_app in Hnd as (Hnd1 & Hdis & [Hnin Hnd2]%NoDup_cons).
  assert (∀ L, e.1 ∉ L.*1 → filter (λ y, y ≠ e.1) (group f L (f e)) = group f L (f e)) as Hid.
  { intros L HL. apply filter_all. intros y (e' & He' & _ & <-)%group_elem Heq.
    apply HL. rewrite <-Heq. by apply list_elem_of_fmap_2. }
  intros k'. destruct (decide (f e = k')) as [<-|Hne].
  - rewrite lookup_insert_eq, decide_True by (right; left). f_equal.
    unfold group at 1 2. rewrite !filter_app, filter_cons_True by done.
    rewrite !fmap_app, filter_app. cbn [fmap list_fmap].
    rewrite filter_cons_False by (intros Hn; by apply Hn).
    f_equal; apply Hid; [|done]. intros Hin. apply (Hdis _ Hin). left.
  - rewrite lookup_insert_ne, Hg by done. unfold group.
    rewrite !filter_app, filter_cons_False by done.
    apply decide_ext. rewrite !fmap_app, !elem_of_app, fmap_cons, !elem_of_cons. naive_solver.
Qed.
(** Dropping a registration: of an empty key, or of one that is in use. *)
Lemma groups_drop_empty L E m k :
  groups f L (k :: E) m → k ∉ E → group f L k = [] → groups f L E (delete k m).
Proof.
  intros Hg HE Hk%group_nil k'. destruct (decide (k = k')) as [<-|Hne].
  - rewrite lookup_delete_eq, decide_False by tauto. done.
  - rewrite lookup_delete_ne, Hg by done. apply decide_ext. rewrite elem_of_cons. naive_solver.
Qed.
Lemma groups_drop_used L E m k :
  groups f L (k :: E) m → group f L k ≠ [] → groups f L E m.
Proof.
  intros Hg Hk k'. rewrite Hg. apply decide_ext. rewrite elem_of_cons.
  split; [|naive_solver]. intros [?|[->|?]]; [by left| |by right]. left.
  destruct (decide (k ∈ f <$> L)) as [|Hn]; [done|]. by apply group_nil in Hn.
Qed.
End grouping.

Section invariant.
Context {T1 T2 : Type} `{!OrdTree bytes T1, !OrdTreeLaws memcmp}.
Context `{!OrdTree uintptr T2, !OrdTreeLaws ptrcmp}.
Implicit Types (st : xkey T1 T2) (L : list entry) (x o h : loc) (d : bytes).

Abbreviation hashes_ok := (table_ok (cmp:=memcmp) zero_digest list_hashhead).
Abbreviation objects_ok := (table_ok (cmp:=ptrcmp) 0%N list_ochead).
Abbreviation hash_elem st d h := ((d, h) ∈ tree_list (t_tree (hashes st))).

(** [wf st L EO EH X]: the state holds the taggings [L] and no other; the
    objects [EO] and the keys [EH] have a head even without a tagging; the
    xkey_oc's [X] are allocated and linked nowhere.  Every other allocated
    xkey_oc is blank and in the pool, so nothing leaks. *)
Record wf st L (EO : list uintptr) (EH : list bytes) (X : list loc) : Prop := Wf {
  wf_hashes : ∃ m, hashes_ok (hashes st) m ∧ groups e_dig L EH m;
  wf_objects : ∃ m, objects_ok (objects st) m ∧ groups e_obj L EO m;
  wf_nodup : NoDup (L.*1 ++ X ++ q_elems (pool_ocs st));
  wf_entry x o d : (x, (o, d)) ∈ L →
    ∃ h, ocs st !! x = Some (XOc (Some h) (Some o)) ∧ hash_elem st d h;
  wf_loose x : x ∈ X → is_Some (ocs st !! x);
  wf_pool x : x ∈ q_elems (pool_ocs st) → ocs st !! x = Some (XOc None None);
  wf_dom x : is_Some (ocs st !! x) → x ∈ L.*1 ++ X ++ q_elems (pool_ocs st);
  wf_link : linked list_hashhead (pool_ocs st) = true;
  wf_noc : n_oc st = Z.of_nat (length (q_elems (pool_ocs st)));
  wf_noc_max : (n_oc st ≤ POOL_MAX)%Z;
  wf_fresh x : is_Some (ocs st !! x) → (x < next_oc st)%positive;
}.

Lemma wp_in_hashes {A} (m : M (table bytes T1) A) (Q : A → xkey T1 T2 → Prop) st :
  wp (in_hashes m) Q st ↔
  wp m (λ a tb, Q a (Xkey tb (objects st) (ocs st) (pool_ocs st) (n_oc st) (next_oc st)
    (n_init st) (xkey_cb_handle st) (objcores st) (rearmed st))) (hashes st).
Proof. unfold wp, in_hashes. by destruct (m (hashes st)) as [[? ?]| | |]. Qed.
Lemma wp_in_objects {A} (m : M (table uintptr T2) A) (Q : A → xkey T1 T2 → Prop) st :
  wp (in_objects m) Q st ↔
  wp m (λ a tb, Q a (Xkey (hashes st) tb (ocs st) (pool_ocs st) (n_oc st) (next_oc st)
    (n_init st) (xkey_cb_handle st) (objcores st) (rearmed st))) (objects st).
Proof. unfold wp, in_objects. by destruct (m (objects st)) as [[? ?]| | |]. Qed.
Lemma wp_get_oc x (Q : xkey_oc → xkey T1 T2 → Prop) st :
  wp (get_oc x) Q st ↔ ∃ c, ocs st !! x = Some c ∧ Q c st.
Proof. unfold get_oc. rewrite wp_bind, wp_getS. apply wp_derefM. Qed.
Lemma wp_get_objcore o (Q : objcore → xkey T1 T2 → Prop) st :
  wp (get_objcore o) Q st ↔ ∃ c, objcores st !! o = Some c ∧ Q c st.
Proof. unfold get_objcore. rewrite wp_bind, wp_getS. apply wp_derefM. Qed.
Lemma wp_upd_ocs {K T : Type} h op (Q : unit → table K T → Prop) tb :
  wp (upd_ocs h op) Q tb ↔ ∃ c q, t_heap tb !! h = Some c ∧ op (h_ocs c) = Ret q ∧
    Q tt (Table (<[h := Head (h_key c) q]> (t_heap tb)) (t_tree tb) (t_pool tb)
            (t_npool tb) (t_next tb)).
Proof.
  unfold upd_ocs. rewrite wp_bind, wp_get_head. split.
  - intros (o & Ho & (q & Hq & HQ)%wp_bind%wp_liftO). eauto.
  - intros (o & q & Ho & Hq & HQ). exists o. split; [done|].
    apply wp_bind, wp_liftO. eauto.
Qed.

(** What the operations on one component leave alone; the last of the
    xkey_oc's is never freed, because it finds room in the pool. *)
Definition same_rest (st st' : xkey T1 T2) : Prop :=
  n_init st' = n_init st ∧ xkey_cb_handle st' = xkey_cb_handle st ∧
  objcores st' = objcores st ∧ rearmed st' = rearmed st ∧
  (ocs st ≠ ∅ → ocs st' ≠ ∅).

Lemma same_rest_trans st st2 st3 : same_rest st st2 → same_rest st2 st3 → same_rest st st3.
Proof. intros (?&?&?&?&?) (?&?&?&?&?). split_and!; try congruence; auto. Qed.

Lemma wp_octree_insert ptr (Q : loc → xkey T1 T2 → Prop) st L EO EH X :
  ptr ≠ 0%N → wf st L EO EH X →
  (∀ h st', (ptr, h) ∈ tree_list (t_tree (objects st')) → wf st' L (ptr :: EO) EH X →
     same_rest st st' → Q h st') →
  wp (xkey_octree_insert ptr) Q st.
Proof.
  intros Hptr Hwf HQ. unfold xkey_octree_insert. wp_go.
  { by apply negb_true_iff, N.eqb_neq. }
  apply wp_in_objects. destruct (wf_objects _ _ _ _ _ Hwf) as (m & Hok & Hg).
  eapply wp_table_insert; [exact Hok|]. intros h tb Hel Hok' _. apply HQ; [done| |done].
  split; simpl; try apply Hwf. eexists. split; [done|]. by apply groups_touch.
Qed.
Lemma wp_hashtree_insert d (Q : loc → xkey T1 T2 → Prop) st L EO EH X :
  length d = DIGEST_LEN → wf st L EO EH X →
  (∀ h st', hash_elem st' d h → wf st' L EO (d :: EH) X →
     objects st' = objects st → same_rest st st' → Q h st') →
  wp (xkey_hashtree_insert d) Q st.
Proof.
  intros Hd Hwf HQ. unfold xkey_hashtree_insert. wp_go.
  { by apply Nat.eqb_eq. }
  apply wp_in_hashes. destruct (wf_hashes _ _ _ _ _ Hwf) as (m & Hok & Hg).
  eapply wp_table_insert; [exact Hok|]. intros h tb Hel Hok' Hmono. apply HQ; [done| |done|done].
  split; simpl; try apply Hwf.
  - eexists. split; [done|]. by apply groups_touch.
  - intros x o d' Hin. destruct (wf_entry _ _ _ _ _ Hwf _ _ _ Hin) as (h' & ? & ?).
    exists h'. split; [done|]. by apply Hmono.
Qed.

Lemma wp_oc_new (Q : loc → xkey T1 T2 → Prop) st L EO EH X :
  wf st L EO EH X →
  (∀ x st', wf st' L EO EH (x :: X) → hashes st' = hashes st → objects st' = objects st →
     same_rest st st' → Q x st') →
  wp xkey_oc_new Q st.
Proof.
  intros Hwf HQ. pose proof (wf_nodup _ _ _ _ _ Hwf) as Hnd. unfold xkey_oc_new. wp_go.
  destruct (Z.ltb_spec 0 (n_oc st)) as [Hn|Hn].
  - rewrite (wf_noc _ _ _ _ _ Hwf) in Hn. unfold VTAILQ_FIRST.
    destruct (q_elems (pool_ocs st)) as [|x xs] eqn:Hp; [simpl in Hn; lia|]. cbn [head].
    destruct (remove_is list_hashhead (pool_ocs st) (x :: xs) x) as (q & Hq & Hq' & Hl);
      [split; [done|apply (wf_link _ _ _ _ _ Hwf)]|left|].
    assert (x ∉ xs) as Hx.
    { rewrite !NoDup_app, NoDup_cons in Hnd. tauto. }
    rewrite filter_cons_False, filter_all in Hq' by (naive_solver || set_solver).
    wp_go; [exact Hq|]. unfold set_pool_ocs. wp_go. apply HQ; try done.
    assert (L.*1 ++ (x :: X) ++ xs ≡ₚ L.*1 ++ X ++ x :: xs) as Hperm.
    { f_equiv. simpl. apply Permutation_middle. }
    split; simpl; rewrite ?Hq'; try apply Hwf.
    + by rewrite Hperm.
    + intros y [->|Hy]%elem_of_cons; [|by apply (wf_loose _ _ _ _ _ Hwf)].
      eexists. apply (wf_pool _ _ _ _ _ Hwf). rewrite Hp. left.
    + intros y Hy. apply (wf_pool _ _ _ _ _ Hwf). rewrite Hp. by right.
    + intros y Hy%(wf_dom _ _ _ _ _ Hwf). rewrite Hp in Hy. by rewrite Hperm.
    + done.
    + rewrite (wf_noc _ _ _ _ _ Hwf), Hp. simpl. lia.
    + pose proof (wf_noc_max _ _ _ _ _ Hwf). lia.
  - unfold alloc_oc. wp_go.
    assert (ocs st !! next_oc st = None) as Hfresh.
    { apply eq_None_not_Some. intros ?%(wf_fresh _ _ _ _ _ Hwf). lia. }
    assert (∀ y, is_Some (ocs st !! y) → y ≠ next_oc st) as Hne.
    { intros y [? ?] ->. congruence. }
    apply HQ; try done; [|by split_and!; try done; intros _; apply insert_non_empty].
    split; simpl; try apply Hwf.
    + rewrite <-(Permutation_middle (L.*1)). constructor; [|done].
      intros Hin. rewrite !elem_of_app in Hin. destruct Hin as [Hin|[Hin|Hin]].
      * apply list_elem_of_fmap in Hin as ([y [o d]] & Hy & Hin). simpl in Hy. subst y.
        destruct (wf_entry _ _ _ _ _ Hwf _ _ _ Hin) as (? & ? & _). congruence.
      * destruct (wf_loose _ _ _ _ _ Hwf _ Hin). congruence.
      * pose proof (wf_pool _ _ _ _ _ Hwf _ Hin). congruence.
    + intros y o d Hin. destruct (wf_entry _ _ _ _ _ Hwf _ _ _ Hin) as (h & Hh & ?).
      exists h. rewrite lookup_insert_ne; [done|]. symmetry. apply Hne. by eexists.
    + intros y [->|Hy]%elem_of_cons; [rewrite lookup_insert_eq; by eexists|].
      apply lookup_insert_is_Some'. right. by apply (wf_loose _ _ _ _ _ Hwf).
    + intros y Hy%(wf_pool _ _ _ _ _ Hwf). rewrite lookup_insert_ne; [done|].
      symmetry. apply Hne. by eexists.
    + intros y [<-|Hy]%lookup_insert_is_Some'; [set_solver|].
      apply (wf_dom _ _ _ _ _ Hwf) in Hy. set_solver.
    + intros y [<-|Hy]%lookup_insert_is_Some'; [lia|].
      apply (wf_fresh _ _ _ _ _ Hwf) in Hy. lia.
Qed.

Lemma groups_lookup {K} `{Countable K} (f : entry → K) L E m k xs :
  groups f L E m → m !! k = Some xs → xs = group f L k.
Proof. intros Hg. rewrite Hg. case_decide; congruence. Qed.

(** Appending to the queue of a head. *)
Lemma wp_push_object h x o d st L EO (Q : unit → xkey T1 T2 → Prop) m :
  objects_ok (objects st) m → groups e_obj L (N.pos o :: EO) m →
  (N.pos o, h) ∈ tree_list (t_tree (objects st)) →
  (∀ tb m', objects_ok tb m' → groups e_obj (L ++ [(x, (o, d))]) EO m' →
     Q tt (Xkey (hashes st) tb (ocs st) (pool_ocs st) (n_oc st) (next_oc st)
             (n_init st) (xkey_cb_handle st) (objcores st) (rearmed st))) →
  wp (in_objects (upd_ocs h (λ q, VTAILQ_INSERT_TAIL q x list_ochead))) Q st.
Proof.
  intros Hok Hg Hel HQ. apply wp_in_objects, wp_upd_ocs.
  destruct (tk_elem _ _ _ _ Hok _ _ Hel) as (xs & q & Hm & Hh & Hq).
  destruct (insert_tail_is _ _ _ x Hq) as [Hi Hq'].
  eexists _, _. split; [done|]. split; [exact Hi|].
  pose proof (groups_lookup _ _ _ _ _ _ Hg Hm) as ->.
  eapply HQ; [by eapply table_ok_put|].
  by apply (groups_push e_obj L EO m (N.pos o) (x, (o, d))).
Qed.
Lemma wp_push_hash h x o d st L EH (Q : unit → xkey T1 T2 → Prop) m :
  hashes_ok (hashes st) m → groups e_dig L (d :: EH) m → hash_elem st d h →
  (∀ tb m', hashes_ok tb m' → groups e_dig (L ++ [(x, (o, d))]) EH m' →
     t_tree tb = t_tree (hashes st) →
     Q tt (Xkey tb (objects st) (ocs st) (pool_ocs st) (n_oc st) (next_oc st)
             (n_init st) (xkey_cb_handle st) (objcores st) (rearmed st))) →
  wp (in_hashes (upd_ocs h (λ q, VTAILQ_INSERT_TAIL q x list_hashhead))) Q st.
Proof.
  intros Hok Hg Hel HQ. apply wp_in_hashes, wp_upd_ocs.
  destruct (tk_elem _ _ _ _ Hok _ _ Hel) as (xs & q & Hm & Hh & Hq).
  destruct (insert_tail_is _ _ _ x Hq) as [Hi Hq'].
  eexists _, _. split; [done|]. split; [exact Hi|].
  pose proof (groups_lookup _ _ _ _ _ _ Hg Hm) as ->.
  eapply HQ; [by eapply table_ok_put| |done].
  by apply (groups_push e_dig L EH m d (x, (o, d))).
Qed.

Lemma wp_xkey_insert o d (Q : unit → xkey T1 T2 → Prop) st L :
  wf st L [] [] [] → length d = DIGEST_LEN → is_Some (objcores st !! o) →
  (∀ x st', wf st' (L ++ [(x, (o, d))]) [] [] [] → same_rest st st' → Q tt st') →
  wp (xkey_insert o d) Q st.
Proof.
  intros Hwf Hd [c Hc] HQ. unfold xkey_insert. wp_go. apply wp_get_objcore.
  exists c. split; [done|]. wp_go; [by apply Nat.eqb_eq|].
  eapply wp_octree_insert; [done|done|]. intros oh st1 Hoh Hwf1 Hs1. wp_go.
  eapply wp_hashtree_insert; [done|done|]. intros hh st2 Hhh Hwf2 Ho2 Hs2. wp_go.
  eapply wp_oc_new; [done|]. intros x st3 Hwf3 Hh3 Ho3 Hs3. wp_go.
  rewrite <-Ho2, <-Ho3 in Hoh. rewrite <-Hh3 in Hhh.
  destruct (wf_objects _ _ _ _ _ Hwf3) as (mO & HokO & HgO).
  destruct (wf_hashes _ _ _ _ _ Hwf3) as (mH & HokH & HgH).
  eapply (wp_push_object _ x o d); [done..|]. intros tbO mO' HokO' HgO'. wp_go.
  eapply (wp_push_hash _ x o d); [done..|]. intros tbH mH' HokH' HgH' Htree. wp_go.
  apply wp_get_oc. simpl.
  destruct (wf_loose _ _ _ _ _ Hwf3 x) as [c' Hc']; [left|].
  exists c'. split; [done|]. unfold put_oc, set_ocs. wp_go. simpl.
  pose proof (wf_nodup _ _ _ _ _ Hwf3) as Hnd.
  assert ((L ++ [(x, (o, d))]).*1 ++ [] ++ q_elems (pool_ocs st3) ≡ₚ
          L.*1 ++ [x] ++ q_elems (pool_ocs st3)) as Hperm.
  { rewrite fmap_app. simpl. by rewrite <-(assoc_L (++)). }
  assert ((x ∉ L.*1) ∧ x ∉ q_elems (pool_ocs st3)) as [HxL Hxp].
  { cbn [app] in Hnd. rewrite <-Permutation_middle in Hnd.
    apply NoDup_cons in Hnd as [Hn _]. set_solver. }
  apply (HQ x); [|destruct Hs1 as (?&?&?&?&_), Hs2 as (?&?&?&?&_), Hs3 as (?&?&?&?&_);
                  split_and!; simpl; try congruence; intros _; apply insert_non_empty].
  split; simpl.
  - eauto.
  - eauto.
  - by rewrite Hperm.
  - intros y o' d' [Hin|[= -> -> ->]%list_elem_of_singleton]%elem_of_app.
    + destruct (wf_entry _ _ _ _ _ Hwf3 _ _ _ Hin) as (h & Hh & Hel). exists h.
      rewrite Htree. rewrite lookup_insert_ne; [done|]. intros ->. apply HxL.
      by apply (list_elem_of_fmap_2 fst) in Hin.
    + exists hh. rewrite lookup_insert_eq, Htree. done.
  - set_solver.
  - intros y Hy. rewrite lookup_insert_ne by (by intros ->).
    by apply (wf_pool _ _ _ _ _ Hwf3).
  - intros y [<-|Hy]%lookup_insert_is_Some'.
    + rewrite Hperm. set_solver.
    + rewrite Hperm. by apply (wf_dom _ _ _ _ _ Hwf3).
  - apply Hwf3.
  - apply Hwf3.
  - apply Hwf3.
  - intros y [<-|Hy]%lookup_insert_is_Some'; [|by apply (wf_fresh _ _ _ _ _ Hwf3)].
    apply (wf_fresh _ _ _ _ _ Hwf3). by eexists.
Qed.

(** Giving an xkey_oc back. *)
Lemma wp_oc_delete x st L EO EH X (Q : unit → xkey T1 T2 → Prop) :
  wf st L EO EH (x :: X) → ocs st !! x = Some (XOc None None) →
  (∀ st', wf st' L EO EH X → hashes st' = hashes st → objects st' = objects st →
     same_rest st st' → Q tt st') →
  wp (xkey_oc_delete x) Q st.
Proof.
  intros Hwf Hx HQ. pose proof (wf_nodup _ _ _ _ _ Hwf) as Hnd.
  unfold xkey_oc_delete. wp_go. apply wp_get_oc. eexists. split; [done|]. wp_go; [done|].
  destruct (Z.ltb_spec (n_oc st) POOL_MAX) as [Hn|Hn].
  - destruct (insert_head_is list_hashhead (pool_ocs st) (q_elems (pool_ocs st)) x) as [Hi _];
      [split; [done|apply (wf_link _ _ _ _ _ Hwf)]|].
    wp_go; [exact Hi|]. unfold set_pool_ocs. wp_go. apply HQ; try done.
    assert (L.*1 ++ X ++ x :: q_elems (pool_ocs st) ≡ₚ
            L.*1 ++ (x :: X) ++ q_elems (pool_ocs st)) as Hperm.
    { f_equiv. simpl. symmetry. apply Permutation_middle. }
    split; simpl; try apply Hwf.
    + by rewrite Hperm.
    + intros y Hy. apply (wf_loose _ _ _ _ _ Hwf). by right.
    + intros y [->|Hy]%elem_of_cons; [done|]. by apply (wf_pool _ _ _ _ _ Hwf).
    + intros y Hy%(wf_dom _ _ _ _ _ Hwf). by rewrite Hperm.
    + by apply linked_intro.
    + rewrite (wf_noc _ _ _ _ _ Hwf). lia.
    + unfold POOL_MAX in *. lia.
  - unfold free_oc, set_ocs. wp_go. apply HQ; try done.
    2: { split_and!; try done. intros _. rewrite (wf_noc _ _ _ _ _ Hwf) in Hn. unfold POOL_MAX in Hn.
         destruct (q_elems (pool_ocs st)) as [|y l] eqn:Hp; [simpl in Hn; lia|].
         pose proof (wf_pool _ _ _ _ _ Hwf y ltac:(rewrite Hp; left)) as Hy. simpl.
         assert (delete x (ocs st) !! y = Some (XOc None None)) as Hd.
         { rewrite lookup_delete_ne; [done|]. intros <-.
           apply NoDup_app in Hnd as (_ & _ & [Hnd _]%NoDup_cons). set_solver. }
         intros He. rewrite He in Hd. done. }
    cbn [app] in Hnd. rewrite <-Permutation_middle in Hnd. apply NoDup_cons in Hnd as [Hnx Hnd].
    assert (∀ y, y ∈ L.*1 ++ X ++ q_elems (pool_ocs st) → y ≠ x) as Hne by (by intros y ? ->).
    split; simpl; try apply Hwf.
    + done.
    + intros y o d Hin. destruct (wf_entry _ _ _ _ _ Hwf _ _ _ Hin) as (h & Hh & Hel). exists h.
      rewrite lookup_delete_ne; [done|]. symmetry. apply Hne.
      apply (list_elem_of_fmap_2 fst) in Hin. set_solver.
    + intros y Hy. rewrite lookup_delete_ne by (symmetry; apply Hne; set_solver).
      apply (wf_loose _ _ _ _ _ Hwf). by right.
    + intros y Hy. rewrite lookup_delete_ne by (symmetry; apply Hne; set_solver).
      by apply (wf_pool _ _ _ _ _ Hwf).
    + intros y [? [Hyx Hy]%lookup_delete_Some].
      assert (y ∈ L.*1 ++ (x :: X) ++ q_elems (pool_ocs st)) as Hin
        by (apply (wf_dom _ _ _ _ _ Hwf); by eexists).
      set_solver.
    + intros y [? [_ Hy]%lookup_delete_Some]. apply (wf_fresh _ _ _ _ _ Hwf). by eexists.
Qed.

Lemma groups_absorb {K} `{Countable K} (f : entry → K) L E m k :
  groups f L (k :: E) m → k ∈ E → groups f L E m.
Proof.
  intros Hg Hk k'. rewrite Hg. apply decide_ext. rewrite elem_of_cons. naive_solver.
Qed.

(** Leaving the queue of a hashhead, which goes when it was the last. *)
Lemma wp_leave_hashhead h x o d L1 L2 m tb (Q : unit → table bytes T1 → Prop) :
  hashes_ok tb m → groups e_dig (L1 ++ (x, (o, d)) :: L2) [] m →
  NoDup (L1 ++ (x, (o, d)) :: L2).*1 → (d, h) ∈ tree_list (t_tree tb) →
  (∀ tb' m', hashes_ok tb' m' → groups e_dig (L1 ++ L2) [] m' →
     (∀ d' h', (d', h') ∈ tree_list (t_tree tb) → d' ∈ e_dig <$> (L1 ++ L2) →
        (d', h') ∈ tree_list (t_tree tb')) → Q tt tb') →
  wp (leave_hashhead h x) Q tb.
Proof.
  intros Hok Hg Hnd Hel HQ. unfold leave_hashhead. wp_go. apply wp_upd_ocs.
  destruct (tk_elem _ _ _ _ Hok _ _ Hel) as (xs & q & Hm & Hh & Hq).
  pose proof (groups_lookup _ _ _ _ _ _ Hg Hm) as ->.
  destruct (remove_is _ _ _ x Hq) as (q' & Hr & Hq').
  { apply group_elem. exists (x, (o, d)). split; [|done]. set_solver. }
  eexists _, _. split; [done|]. split; [exact Hr|]. simpl. wp_go.
  pose proof (table_ok_put _ _ _ _ _ _ _ _ Hok Hel Hq') as Hok'. set (tb1 := Table _ _ _ _ _) in *.
  pose proof (groups_pop e_dig L1 (x, (o, d)) L2 [] m Hnd Hg) as Hg'.
  cbn [fst e_dig] in Hg'. change (e_dig (x, (o, d))) with d in Hg'.
  assert ((d, h) ∈ tree_list (t_tree tb1)) as Hel1 by done.
  apply wp_get_head. destruct (tk_elem _ _ _ _ Hok' _ _ Hel1) as (ys & q1 & Hys & Hh1 & Hq1 & _).
  pose proof (groups_lookup _ _ _ _ _ _ Hg' Hys) as ->.
  eexists. split; [exact Hh1|]. simpl. unfold VTAILQ_EMPTY. rewrite Hq1. case_bool_decide as He.
  - rewrite He in Hys. eapply wp_table_remove; [exact Hok'|done|done|].
    intros tb2 Hok2 Hmono. eapply HQ; [done|by apply groups_drop_empty; [|set_solver|]|].
    intros d' h' Hin Hd'. apply Hmono; [done|]. simpl. intros ->. by apply group_nil in He.
  - wp_go. eapply HQ; [done|by eapply groups_drop_used|done].
Qed.

(** One turn of the loop of xkey_remove. *)
Lemma wp_remove_oc oh x o d st L1 L2 (Q : unit → xkey T1 T2 → Prop) :
  wf st (L1 ++ (x, (o, d)) :: L2) [N.pos o] [] [] →
  (N.pos o, oh) ∈ tree_list (t_tree (objects st)) →
  (∀ st', wf st' (L1 ++ L2) [N.pos o] [] [] → same_rest st st' →
     (N.pos o, oh) ∈ tree_list (t_tree (objects st')) → Q tt st') →
  wp (remove_oc oh x) Q st.
Proof.
  intros Hwf Hoh HQ. unfold remove_oc. wp_go. apply wp_get_oc.
  set (L := L1 ++ (x, (o, d)) :: L2) in *.
  assert ((x, (o, d)) ∈ L) as Hin by (unfold L; set_solver).
  destruct (wf_entry _ _ _ _ _ Hwf _ _ _ Hin) as (h & Hx & Hel).
  eexists. split; [done|]. wp_go; [done|]. unfold put_oc, set_ocs. wp_go.
  apply wp_in_hashes. simpl.
  destruct (wf_hashes _ _ _ _ _ Hwf) as (mH & HokH & HgH).
  destruct (wf_objects _ _ _ _ _ Hwf) as (mO & HokO & HgO).
  pose proof (wf_nodup _ _ _ _ _ Hwf) as Hnd. pose proof Hnd as HndL.
  apply NoDup_app in HndL as (HndL & _).
  eapply (wp_leave_hashhead h x o d L1 L2); [done..|].
  intros tbH mH' HokH' HgH' HmonoH. wp_go. apply wp_get_oc. simpl.
  eexists. split; [apply lookup_insert_eq|]. wp_go. simpl. rewrite insert_insert_eq.
  apply wp_in_objects, wp_upd_ocs. simpl.
  destruct (tk_elem _ _ _ _ HokO _ _ Hoh) as (xs & q & Hm & Hh & Hq).
  pose proof (groups_lookup _ _ _ _ _ _ HgO Hm) as ->.
  destruct (remove_is _ _ _ x Hq) as (q' & Hr & Hq').
  { apply group_elem. by exists (x, (o, d)). }
  eexists _, _. split; [done|]. split; [exact Hr|]. simpl. wp_go.
  pose proof (table_ok_put _ _ _ _ _ _ _ _ HokO Hoh Hq') as HokO'.
  pose proof (groups_pop e_obj L1 (x, (o, d)) L2 [N.pos o] mO HndL HgO) as HgO'.
  apply groups_absorb in HgO'; [|left].
  assert (L.*1 ++ [] ++ q_elems (pool_ocs st) ≡ₚ
          (L1 ++ L2).*1 ++ [x] ++ q_elems (pool_ocs st)) as Hperm.
  { unfold L. rewrite !fmap_app. cbn [fmap list_fmap fst app].
    rewrite <-!(assoc_L (++)). f_equiv. apply Permutation_middle. }
  rewrite Hperm in Hnd. cbn [app] in Hnd. pose proof Hnd as Hndx.
  rewrite <-Permutation_middle in Hndx. apply NoDup_cons in Hndx as [Hxn _].
  eapply (wp_oc_delete x _ (L1 ++ L2) [N.pos o] [] []); [|simpl; apply lookup_insert_eq|].
  - split; simpl; try apply Hwf; eauto.
    + intros y o' d' Hy. destruct (wf_entry _ _ _ _ _ Hwf y o' d') as (h' & Hh' & Hel').
      { unfold L. set_solver. }
      exists h'. rewrite lookup_insert_ne.
      * split; [done|]. apply HmonoH; [done|]. apply list_elem_of_fmap. by exists (y, (o', d')).
      * intros ->. apply Hxn. apply (list_elem_of_fmap_2 fst) in Hy. set_solver.
    + intros y ->%list_elem_of_singleton. rewrite lookup_insert_eq. by eexists.
    + intros y Hy. rewrite lookup_insert_ne; [by apply (wf_pool _ _ _ _ _ Hwf)|].
      intros ->. set_solver.
    + intros y [<-|Hy]%lookup_insert_is_Some'; [set_solver|].
      apply (wf_dom _ _ _ _ _ Hwf) in Hy. by rewrite Hperm in Hy.
    + intros y [<-|Hy]%lookup_insert_is_Some'; apply (wf_fresh _ _ _ _ _ Hwf); [by eexists|done].
  - intros st' Hwf' _ Ho' (?&?&?&?&Hs). apply HQ; [done| |by rewrite Ho'].
    split_and!; try done. intros _. apply Hs. apply insert_non_empty.
Qed.

Lemma groups_register {K} `{Countable K} (f : entry → K) L E m k :
  groups f L E m → is_Some (m !! k) → groups f L (k :: E) m.
Proof.
  intros Hg Hk k'. rewrite Hg. apply decide_ext. rewrite elem_of_cons.
  split; [naive_solver|]. intros [?|[->|?]]; [by left| |by right].
  rewrite Hg in Hk. case_decide; [done|]. by destruct Hk.
Qed.

(** Removing the taggings of [L] whose xkey_oc is [x] and those of [seen]. *)
Lemma filter_seen L L1 L2 e (seen : list loc) :
  NoDup L.*1 → filter (λ e, e.1 ∉ seen) L = L1 ++ e :: L2 →
  filter (λ e', e'.1 ∉ seen ++ [e.1]) L = L1 ++ L2.
Proof.
  intros Hnd Hf.
  assert (filter (λ e', e'.1 ∉ seen ++ [e.1]) L =
          filter (λ e', e'.1 ≠ e.1) (filter (λ e', e'.1 ∉ seen) L)) as ->.
  { rewrite list_filter_filter. apply list_filter_iff. intros e'. set_solver. }
  assert (NoDup (filter (λ e, e.1 ∉ seen) L).*1) as Hnd' by by apply NoDup_fmap_filter.
  rewrite Hf in Hnd'. rewrite Hf. rewrite fmap_app, fmap_cons in Hnd'.
  apply NoDup_app in Hnd' as (_ & Hdis & [Hnin _]%NoDup_cons).
  rewrite filter_app, filter_cons_False by (intros Hn; by apply Hn).
  f_equal; apply filter_all; intros e' He' Heq.
  - apply (Hdis e'.1); [by apply list_elem_of_fmap_2|]. rewrite Heq. left.
  - apply Hnin. rewrite <-Heq. by apply list_elem_of_fmap_2.
Qed.

Lemma wp_xkey_remove oh o st L (Q : unit → xkey T1 T2 → Prop) :
  wf st L [] [] [] → (N.pos o, oh) ∈ tree_list (t_tree (objects st)) →
  (∀ st', wf st' (filter (λ e, e.2.1 ≠ o) L) [] [] [] → same_rest st st' → Q tt st') →
  wp (xkey_remove oh) Q st.
Proof.
  intros Hwf Hoh HQ. unfold xkey_remove. wp_go. apply wp_in_objects, wp_get_head.
  destruct (wf_objects _ _ _ _ _ Hwf) as (mO & HokO & HgO).
  destruct (tk_elem _ _ _ _ HokO _ _ Hoh) as (xs & q & Hm & Hh & Hq).
  pose proof (groups_lookup _ _ _ _ _ _ HgO Hm) as ->.
  pose proof (wf_nodup _ _ _ _ _ Hwf) as Hnd. apply NoDup_app in Hnd as (Hnd & _).
  eexists. split; [done|]. wp_go; [by apply foreach_is|].
  apply (wp_forM_ (λ seen st', wf st' (filter (λ e, e.1 ∉ seen) L) [N.pos o] [] [] ∧
    (N.pos o, oh) ∈ tree_list (t_tree (objects st')) ∧ same_rest st st')).
  - split; [|by split; [destruct st|]]. rewrite filter_all by set_solver.
    split; try apply Hwf. exists mO. split; [done|]. apply groups_register; [done|by eexists].
  - intros seen x todo st' Hxs (Hwf' & Hoh' & Hs).
    assert (x ∈ group e_obj L (N.pos o) ∧ (x ∉ seen)) as [Hx Hxs'].
    { assert (NoDup (group e_obj L (N.pos o))) as Hg by by apply NoDup_fmap_filter.
      rewrite Hxs in Hg |- *. apply NoDup_app in Hg as (_ & Hdis & _).
      split; [set_solver|]. intros Hin. apply (Hdis _ Hin). left. }
    apply group_elem in Hx as ([y [o' d]] & He & Ho' & Hy).
    unfold e_obj in Ho'. simpl in Ho', Hy. injection Ho' as ->. subst y.
    assert ((x, (o, d)) ∈ filter (λ e, e.1 ∉ seen) L) as Hin
      by by apply list_elem_of_filter.
    apply list_elem_of_split in Hin as (L1 & L2 & Hsplit). rewrite Hsplit in Hwf'.
    eapply wp_remove_oc; [exact Hwf'|done|]. intros st2 Hwf2 Hs2 Hoh2.
    split; [|split; [done|by eapply same_rest_trans]].
    by rewrite (filter_seen L L1 L2 (x, (o, d))).
  - intros st' (Hwf' & Hoh' & Hs). wp_go. apply wp_in_objects, wp_get_head. simpl.
    assert (filter (λ e, e.1 ∉ group e_obj L (N.pos o)) L = filter (λ e, e.2.1 ≠ o) L) as Hf.
    { apply filter_ext_in. intros [y [o' d]] He. simpl. rewrite group_elem. split.
      - intros Hn ->. apply Hn. by exists (y, (o, d)).
      - intros Hn ([y' [o2 d2]] & He2 & Ho2 & Hy). simpl in Hy. subst y'.
        unfold e_obj in Ho2. simpl in Ho2. injection Ho2 as ->.
        assert ((o', d) = (o, d2)) as [= ? ?]; [|done]. by eapply (NoDup_fst_det L). }
    rewrite Hf in Hwf'. destruct (wf_objects _ _ _ _ _ Hwf') as (m' & Hok' & Hg').
    destruct (tk_elem _ _ _ _ Hok' _ _ Hoh') as (ys & q' & Hm' & Hh' & Hq' & _).
    pose proof (groups_lookup _ _ _ _ _ _ Hg' Hm') as ->.
    assert (group e_obj (filter (λ e, e.2.1 ≠ o) L) (N.pos o) = []) as He.
    { apply group_nil. intros ([y [o' d]] & Ho & [Hn _]%list_elem_of_filter)%list_elem_of_fmap.
      unfold e_obj in Ho. simpl in *. congruence. }
    eexists. split; [done|]. wp_go.
    { apply bool_decide_eq_true_2. simpl. by rewrite Hq', He. }
    apply wp_in_objects. rewrite He in Hm'.
    eapply wp_table_remove; [exact Hok'|done|done|]. intros tb Htb _. simpl.
    apply HQ; [|by destruct Hs as (?&?&?&?)].
    split; simpl; try apply Hwf'. eexists. split; [done|].
    by apply groups_drop_empty; [|set_solver|].
Qed.
End invariant.

(** ** Tokens *)
Section tokens.
Implicit Types (s cur : bytes).

Definition emit cur : list bytes := match cur with [] => [] | _ => [cur] end.
(** The blank-separated words of a string, read one character at a time. *)
Fixpoint words_from cur s : list bytes :=
  match s with
  | [] => emit cur
  | c :: s' => if isblank c then emit cur ++ words_from [] s' else words_from (cur ++ [c]) s'
  end.
Definition words s : list bytes := words_from [] s.

Lemma words_skip s : words (skip_while isblank s) = words s.
Proof. unfold words. induction s as [|c s IH]; simpl; [done|].
  destruct (isblank c) eqn:Hc; [done|]. simpl. by rewrite Hc. Qed.
Lemma words_prefix cur s :
  words_from cur s = words_from (cur ++ prefix_while (λ c, negb (isblank c)) s)
                       (skip_while (λ c, negb (isblank c)) s).
Proof.
  revert cur. induction s as [|c s IH]; intros cur; simpl; [by rewrite app_nil_r|].
  destruct (isblank c) eqn:Hc; simpl; [by rewrite Hc, app_nil_r|].
  by rewrite IH, <-(assoc_L (++)).
Qed.
Lemma words_cut cur s : cur ≠ [] → (∀ c, head s = Some c → isblank c = true) →
  words_from cur s = cur :: words s.
Proof.
  intros Hcur Hs. unfold words. destruct cur as [|a cur]; [done|].
  destruct s as [|c s]; simpl; [done|]. by rewrite Hs.
Qed.

(** One turn of the token loop. *)
Lemma xkey_tok_spec t :
  let '(b, e, more) := xkey_tok t in
  if more : bool then words t = strndup b (ptrdiff b e) :: words e ∧ length e < length t
  else words t = [].
Proof.
  unfold xkey_tok. set (b := skip_while isblank t).
  set (nb := λ c, negb (isblank c)). set (e := skip_while nb b).
  pose proof (words_skip t) as Hw. fold b in Hw.
  pose proof (skip_while_length isblank t) as Hlen. fold b in Hlen.
  pose proof (prefix_skip nb b) as Hpre. fold e in Hpre.
  destruct (Nat.ltb_spec (length e) (length b)) as [Hlt|Hge].
  - split; [|lia]. rewrite <-Hw. unfold words at 1. rewrite words_prefix. fold nb. fold e.
    assert (strndup b (ptrdiff b e) = prefix_while nb b) as -> by apply strndup_skip.
    cbn [app]. apply words_cut.
    + intros He. rewrite He in Hpre. simpl in Hpre. rewrite Hpre in Hlt. lia.
    + intros c Hc%skip_while_head. by apply negb_false_iff in Hc.
  - rewrite <-Hw. destruct b as [|c b'] eqn:Hb; [done|]. exfalso.
    assert (isblank c = false) as Hc.
    { apply (skip_while_head isblank t). unfold b in Hb. by rewrite Hb. }
    unfold e in Hge. simpl in Hge. unfold nb at 1 in Hge. rewrite Hc in Hge. simpl in Hge.
    pose proof (skip_while_length nb b'). lia.
Qed.

(** A word has no blank. *)
Definition is_word s : Prop := s ≠ [] ∧ Forall (λ c, isblank c = false) s.
Definition is_blank s : Prop := s ≠ [] ∧ Forall (λ c, isblank c = true) s.

Lemma words_from_word cur w s :
  Forall (λ c, isblank c = false) w → words_from cur (w ++ s) = words_from (cur ++ w) s.
Proof.
  revert cur. induction w as [|c w IH]; intros cur Hw; [by rewrite app_nil_r|].
  apply Forall_cons in Hw as [Hc Hw]. simpl. by rewrite Hc, IH, <-(assoc_L (++)).
Qed.
Lemma words_from_blank cur b s : is_blank b → words_from cur (b ++ s) = emit cur ++ words s.
Proof.
  intros [Hb Hall]. destruct b as [|c b]; [done|]. apply Forall_cons in Hall as [Hc Hall].
  simpl. rewrite Hc. f_equal. clear Hb Hc. induction Hall as [|c' b Hc' Hb IH]; [done|].
  simpl. by rewrite Hc'.
Qed.
Lemma emit_word w : is_word w → emit w = [w].
Proof. by intros [? _]; destruct w. Qed.
Lemma words_word w : is_word w → words w = [w].
Proof.
  intros Hw. unfold words. rewrite <-(app_nil_r w) at 1. rewrite words_from_word by apply Hw.
  by apply emit_word.
Qed.
Lemma words_sep w b s : is_word w → is_blank b → words (w ++ b ++ s) = w :: words s.
Proof.
  intros Hw Hb. unfold words at 1. rewrite words_from_word by apply Hw.
  by rewrite words_from_blank, emit_word.
Qed.
Lemma words_lead b s : is_blank b → words (b ++ s) = words s.
Proof. intros Hb. unfold words at 1. by rewrite words_from_blank. Qed.
(** The words are what is not blank, cut at the blanks. *)
Lemma words_from_sound cur s : Forall (λ c, isblank c = false) cur →
  Forall is_word (words_from cur s) ∧
  concat (words_from cur s) = cur ++ filter (λ c, isblank c = false) s.
Proof.
  assert (∀ cur, Forall (λ c, isblank c = false) cur →
    Forall is_word (emit cur) ∧ concat (emit cur) = cur) as Hemit.
  { intros [|c cur'] Hcur; simpl; [done|]. rewrite app_nil_r. split; [|done].
    apply Forall_singleton. done. }
  revert cur. induction s as [|c s IH]; intros cur Hcur; simpl.
  - destruct (Hemit cur Hcur) as [? ->]. by rewrite app_nil_r.
  - destruct (isblank c) eqn:Hc.
    + destruct (Hemit cur Hcur) as [He1 He2]. destruct (IH []) as [H1 H2]; [done|].
      rewrite filter_cons_False by congruence. split; [by apply Forall_app|].
      by rewrite concat_app, He2, H2.
    + destruct (IH (cur ++ [c])) as [H1 H2]; [by apply Forall_app, conj, Forall_singleton|].
      rewrite filter_cons_True by done. split; [done|]. by rewrite H2, <-(assoc_L (++)).
Qed.

Fixpoint foldM {St A} (l : list bytes) (acc : A) (body : bytes → A → M St A) : M St A :=
  match l with [] => mret acc | t :: l' => acc ← body t acc; foldM l' acc body end.

Lemma tok_loop_words {T1 T2 A} fuel t (acc : A) (body : bytes → A → M (xkey T1 T2) A) st :
  length t < fuel → tok_loop fuel t acc body st = foldM (words t) acc body st.
Proof.
  revert t acc st. induction fuel as [|fuel IH]; intros t acc st Hf; [lia|].
  cbn [tok_loop]. pose proof (xkey_tok_spec t) as Hspec.
  destruct (xkey_tok t) as [[b e] more]. destruct more; [|by rewrite Hspec].
  destruct Hspec as [-> Hlt]. cbn [foldM]. unfold mbind, M_bind.
  destruct (body _ acc st) as [[acc' st']| | |]; try done. apply IH. lia.
Qed.
End tokens.

(** ** The abstract index *)

(** What the module promises to keep: the list of (object, key digest)
    taggings, oldest first. *)
Abbreviation index := (list (loc * bytes)).

Section specification.
Context (SHA256 : bytes → bytes).
Context (exp_rearm : objcore → double → double → double → double → objcore).

(** The keys a header line lists. *)
Definition header_keys (hdr : bytes) : list bytes :=
  if strncaseeq hdr hdr_xkey (length hdr_xkey) || strncaseeq hdr hdr_h2 (length hdr_h2)
  then match strchr hdr ":" with Some r => words (drop 1 r) | None => [] end
  else [].
Definition taggings (o : loc) (hdrs : list bytes) : index :=
  (λ k, (o, SHA256 k)) <$> concat (header_keys <$> hdrs).

(** The objects a purge string names, once per tagging. *)
Definition hits (A : index) (key : bytes) : list loc :=
  concat ((λ k, (filter (λ p, p.2 = SHA256 k) A).*1) <$> words key).

Abbreviation pstate := (gmap loc objcore * list rearm * Z)%type.
Definition purge_one (now : double) (soft : bool) (s : pstate) (o : loc) : pstate :=
  let '(cores, trace, i) := s in
  match cores !! o with
  | None => s
  | Some c =>
      if oc_busy c || soft && dleb (ttl c) (dsub now (t_origin c)) then s
      else
        let r := if soft then Rearm o now dzero (grace c) (keep c)
                 else Rearm o (t_origin c) dzero dzero dzero in
        (<[o := exp_rearm c (r_now r) (r_ttl r) (r_grace r) (r_keep r)]> cores,
         trace ++ [r], i + 1)%Z
  end.
Definition spec_purge now soft (s : pstate) (l : list loc) : pstate :=
  foldl (purge_one now soft) s l.

Lemma elem_of_hits A key o : o ∈ hits A key ↔ ∃ w, w ∈ words key ∧ (o, SHA256 w) ∈ A.
Proof.
  unfold hits. induction (words key) as [|w ws IH]; cbn [fmap list_fmap concat]; [set_solver|].
  rewrite elem_of_app, IH, list_elem_of_fmap. setoid_rewrite list_elem_of_filter. split.
  - intros [([o' d] & -> & Hd & Hin)|(w' & ? & ?)]; [|set_solver].
    simpl in Hd. subst. exists w. set_solver.
  - intros (w' & [->|Hw]%elem_of_cons & Hin); [left; by exists (o, SHA256 w)|right; eauto].
Qed.

Lemma purge_one_dom now soft s o : dom (purge_one now soft s o).1.1 = dom s.1.1.
Proof.
  destruct s as [[cores trace] i]. unfold purge_one. simpl.
  destruct (cores !! o) as [c|] eqn:Hc; [|done]. case_match; [done|]. simpl.
  rewrite dom_insert_L. apply elem_of_dom_2 in Hc. set_solver.
Qed.
Lemma spec_purge_dom now soft l s : dom (spec_purge now soft s l).1.1 = dom s.1.1.
Proof.
  unfold spec_purge. revert s. induction l as [|o l IH]; intros s; simpl; [done|].
  by rewrite IH, purge_one_dom.
Qed.
Lemma spec_purge_app now soft s l1 l2 :
  spec_purge now soft s (l1 ++ l2) = spec_purge now soft (spec_purge now soft s l1) l2.
Proof. apply foldl_app. Qed.
End specification.

Section refinement.
Context {T1 T2 : Type} `{!OrdTree bytes T1, !OrdTreeLaws memcmp}.
Context `{!OrdTree uintptr T2, !OrdTreeLaws ptrcmp}.
Implicit Types (st : xkey T1 T2) (L : list entry) (A : index) (x o h : loc) (d : bytes).

Definition rep st A : Prop := ∃ L, A = L.*2 ∧ wf st L [] [] [].

Lemma rep_remove_list L o :
  (filter (λ e, e.2.1 ≠ o) L).*2 = filter (λ p, p.1 ≠ o) L.*2.
Proof.
  induction L as [|e L IH]; [done|]. rewrite fmap_cons, !filter_cons.
  case_decide; [by rewrite fmap_cons, IH|done].
Qed.

Lemma wp_insert o d (Q : unit → xkey T1 T2 → Prop) st A :
  rep st A → length d = DIGEST_LEN → is_Some (objcores st !! o) →
  (∀ st', rep st' (A ++ [(o, d)]) → same_rest st st' → Q tt st') →
  wp (xkey_insert o d) Q st.
Proof.
  intros (L & -> & Hwf) Hd Ho HQ. eapply wp_xkey_insert; [done..|].
  intros x st' Hwf' Hs. apply HQ; [|done]. eexists. split; [|done]. by rewrite fmap_app.
Qed.

Lemma wp_cb_remove o (Q : unit → xkey T1 T2 → Prop) st A :
  rep st A → is_Some (objcores st !! o) →
  (∀ st', rep st' (filter (λ p, p.1 ≠ o) A) → same_rest st st' → (A = [] → st' = st) → Q tt st') →
  wp (xkey_cb_remove o) Q st.
Proof.
  intros (L & -> & Hwf) [c Hc] HQ. unfold xkey_cb_remove. wp_go. apply wp_get_objcore.
  exists c. split; [done|]. unfold xkey_octree_lookup. wp_go; [done|].
  apply wp_in_objects. destruct (wf_objects _ _ _ _ _ Hwf) as (m & Hok & Hg).
  eapply wp_table_lookup; [exact Hok| |].
  - intros h Hh. wp_go.
    replace (Xkey _ _ _ _ _ _ _ _ _ _) with st by by destruct st.
    eapply wp_xkey_remove; [done|exact Hh|]. intros st' Hwf' Hs. apply HQ; [|done|].
    + eexists. split; [|exact Hwf']. by rewrite rep_remove_list.
    + intros ->%fmap_nil_inv. exfalso. destruct (tk_elem _ _ _ _ Hok _ _ Hh) as (xs & q & Hm & _).
      rewrite Hg, decide_False in Hm by set_solver. done.
  - intros Hm. wp_go. replace (Xkey _ _ _ _ _ _ _ _ _ _) with st by by destruct st.
    apply HQ; [|done|done]. exists L. split; [|done]. rewrite <-rep_remove_list, filter_all; [done|].
    intros [x [o' d]] Hin Heq. simpl in Heq. subst o'.
    rewrite Hg in Hm. rewrite decide_True in Hm; [done|].
    left. apply list_elem_of_fmap. by exists (x, (o, d)).
Qed.

Context (SHA256 : bytes → bytes) (HSHA : ∀ s, length (SHA256 s) = DIGEST_LEN).

Lemma wp_insert_words o ks (Q : unit → xkey T1 T2 → Prop) st A :
  rep st A → is_Some (objcores st !! o) →
  (∀ st', rep st' (A ++ ((λ k, (o, SHA256 k)) <$> ks)) → same_rest st st' → Q tt st') →
  wp (foldM ks tt (λ k _, xkey_insert o (SHA256 k))) Q st.
Proof using HSHA.
  revert st A. induction ks as [|k ks IH]; intros st A Hr Ho HQ; cbn [foldM].
  - wp_go. apply HQ; [|done]. simpl. by rewrite app_nil_r.
  - wp_go. eapply wp_insert; [done|done|done|]. intros st1 Hr1 Hs1.
    eapply IH; [exact Hr1| |].
    + by destruct Hs1 as (_ & _ & -> & _).
    + intros st2 Hr2 Hs2. apply HQ; [|by eapply same_rest_trans].
      by rewrite <-(assoc_L (++)) in Hr2.
Qed.

(** A matching header line has a colon. *)
Lemma strncase_colon name s n :
  strncaseeq s (name ++ [":"%char]) (S n) = true → n = length name →
  ∃ r, strchr s ":" = Some r.
Proof.
  revert s n. induction name as [|a name IH]; intros [|c s] n; cbn [app]; simpl; try done.
  - destruct n; [|done]. case_decide as Hc; [|done]. intros _ _.
    case_decide; [by eexists|]. exfalso. destruct c as [[] [] [] [] [] [] [] []]; vm_compute in Hc; done.
  - case_decide; [|done]. intros Heq Hn. case_decide; [by eexists|].
    destruct n; [done|]. apply (IH s n); [done|lia].
Qed.
Lemma header_colon s :
  strncaseeq s hdr_xkey (length hdr_xkey) || strncaseeq s hdr_h2 (length hdr_h2) = true →
  ∃ r, strchr s ":" = Some r.
Proof.
  intros [H|H]%orb_true_iff.
  - by apply (strncase_colon (str "xkey") s 4).
  - by apply (strncase_colon (str "X-HashTwo") s 9).
Qed.

Lemma wp_cb_insert o hdrs (Q : unit → xkey T1 T2 → Prop) st A :
  rep st A → is_Some (objcores st !! o) →
  (∀ st', rep st' (A ++ taggings SHA256 o hdrs) → same_rest st st' →
     (taggings SHA256 o hdrs = [] → st' = st) → Q tt st') →
  wp (xkey_cb_insert SHA256 o hdrs) Q st.
Proof using HSHA.
  intros Hr Ho HQ. unfold xkey_cb_insert. wp_go. apply wp_get_objcore.
  destruct Ho as [c Hc]. exists c. split; [done|].
  apply (wp_forM_ (λ seen st', rep st' (A ++ taggings SHA256 o seen) ∧ same_rest st st' ∧
    (taggings SHA256 o seen = [] → st' = st))).
  - split; [|done]. unfold taggings. simpl. by rewrite app_nil_r.
  - intros seen hdr todo st' _ (Hr' & Hs' & Hn').
    assert (taggings SHA256 o (seen ++ [hdr]) =
      taggings SHA256 o seen ++ ((λ k, (o, SHA256 k)) <$> header_keys hdr)) as Ht.
    { unfold taggings. by rewrite fmap_app, concat_app, fmap_app; simpl; rewrite app_nil_r. }
    rewrite Ht. unfold header_keys. rewrite <-negb_orb.
    destruct (strncaseeq hdr hdr_xkey _ || _) eqn:Hm; cbn [negb].
    + destruct (header_colon hdr Hm) as [r Hr0]. rewrite Hr0. unfold wp at 1.
      rewrite tok_loop_words by lia. change (wp (foldM (words (drop 1 r)) tt
        (λ k _, xkey_insert o (SHA256 k))) (λ _ st2, rep st2 (A ++ taggings SHA256 o seen ++
        ((λ k, (o, SHA256 k)) <$> words (drop 1 r))) ∧ same_rest st st2 ∧
        (taggings SHA256 o seen ++ ((λ k, (o, SHA256 k)) <$> words (drop 1 r)) = [] → st2 = st)) st').
      destruct (words (drop 1 r)) as [|w ws] eqn:Hws.
      * cbn [foldM]. wp_go. simpl. by rewrite app_nil_r.
      * eapply wp_insert_words; [done| |].
        -- destruct Hs' as (_ & _ & -> & _). by exists c.
        -- intros st2 Hr2 Hs2. rewrite (assoc_L (++)).
           split_and!; [done|by eapply same_rest_trans|]. by intros [_ ?]%app_nil.
    + wp_go. by rewrite app_nil_r.
  - intros st' (Hr' & Hs' & Hn'). by apply HQ.
Qed.
End refinement.

Section purging.
Context {T1 T2 : Type} `{!OrdTree bytes T1, !OrdTreeLaws memcmp}.
Context `{!OrdTree uintptr T2, !OrdTreeLaws ptrcmp}.
Context (SHA256 : bytes → bytes) (HSHA : ∀ s, length (SHA256 s) = DIGEST_LEN).
Context (exp_rearm : objcore → double → double → double → double → objcore).
Implicit Types (st : xkey T1 T2) (L : list entry) (A : index) (x o h : loc) (d : bytes).

Definition with_cores st (s : gmap loc objcore * list rearm * Z) : xkey T1 T2 :=
  Xkey (hashes st) (objects st) (ocs st) (pool_ocs st) (n_oc st) (next_oc st) (n_init st)
    (xkey_cb_handle st) s.1.1 s.1.2.
Lemma wf_with_cores st s L EO EH X : wf st L EO EH X → wf (with_cores st s) L EO EH X.
Proof. intros Hwf. split; apply Hwf. Qed.
(** Every tagged object is allocated. *)
Definition alive st A : Prop := ∀ o d, (o, d) ∈ A → is_Some (objcores st !! o).

Lemma wp_purge_oc now soft x o c i st (Q : Z → xkey T1 T2 → Prop) :
  (∃ head, ocs st !! x = Some (XOc head (Some o))) → objcores st !! o = Some c →
  (let s := purge_one exp_rearm now soft (objcores st, rearmed st, i) o in
   Q s.2 (with_cores st s)) →
  wp (purge_oc exp_rearm now soft x i) Q st.
Proof.
  intros [h Hx] Hc HQ. unfold purge_oc. wp_go. apply wp_get_oc. eexists. split; [done|]. simpl.
  wp_go. apply wp_get_objcore. exists c. split; [done|].
  unfold purge_one in HQ. rewrite Hc in HQ.
  assert (∀ n, Q n (with_cores st (objcores st, rearmed st, n)) → Q n st) as Hsame
    by (intros n; by destruct st).
  destruct (oc_busy c); cbn [orb] in HQ; [wp_go; by apply Hsame|].
  destruct (soft && dleb (ttl c) (dsub now (t_origin c))) eqn:Hs; [wp_go; by apply Hsame|].
  unfold set_objcores. wp_go. by destruct soft.
Qed.

Lemma wp_purge_ocs now soft l os st i (Q : Z → xkey T1 T2 → Prop) :
  Forall2 (λ x o, (∃ head, ocs st !! x = Some (XOc head (Some o))) ∧ is_Some (objcores st !! o)) l os →
  (let s := spec_purge exp_rearm now soft (objcores st, rearmed st, i) os in
   Q s.2 (with_cores st s)) →
  wp (purge_ocs exp_rearm now soft l i) Q st.
Proof.
  revert os st i. induction l as [|x l IH]; intros os st i Hall HQ.
  - apply Forall2_nil_inv_l in Hall as ->. cbn [purge_ocs]. wp_go. simpl in HQ. by destruct st.
  - apply Forall2_cons_inv_l in Hall as (o & os' & [Hx [c Hc]] & Hall & ->).
    cbn [purge_ocs]. wp_go. eapply wp_purge_oc; [done|done|].
    set (s := purge_one _ _ _ _ _). cbv zeta. eapply (IH os').
    + eapply Forall2_impl; [exact Hall|]. intros x' o' [Hx' Ho']. split; [done|].
      simpl. apply elem_of_dom. subst s. rewrite (purge_one_dom exp_rearm).
      simpl. by apply elem_of_dom.
    + revert HQ. unfold spec_purge. cbn [foldl]. fold s. by destruct s as [[cores trace] n].
Qed.

(** One word of the purge string. *)
Lemma wp_purge_word now soft k i st L (Q : Z → xkey T1 T2 → Prop) :
  wf st L [] [] [] → alive st L.*2 →
  (let s := spec_purge exp_rearm now soft (objcores st, rearmed st, i)
              (filter (λ p, p.2 = SHA256 k) L.*2).*1 in
   Q s.2 (with_cores st s)) →
  wp (h ← xkey_hashtree_lookup (SHA256 k);
      match h with
      | None => mret i
      | Some hashhead =>
          hh ← in_hashes (get_head hashhead);
          l ← liftO (VTAILQ_FOREACH (h_ocs hh) list_hashhead);
          purge_ocs exp_rearm now soft l i
      end) Q st.
Proof using HSHA.
  intros Hwf Hal HQ. unfold xkey_hashtree_lookup. wp_go; [by apply Nat.eqb_eq|].
  apply wp_in_hashes. destruct (wf_hashes _ _ _ _ _ Hwf) as (m & Hok & Hg).
  assert ((filter (λ p, p.2 = SHA256 k) L.*2).*1 =
          (λ e : entry, e.2.1) <$> filter (λ e, e_dig e = SHA256 k) L) as Hhits.
  { clear. induction L as [|e L IH]; [done|]. rewrite fmap_cons, !filter_cons.
    change (e_dig e) with e.2.2. case_decide; [rewrite !fmap_cons; by f_equal|exact IH]. }
  rewrite Hhits in HQ. eapply wp_table_lookup; [exact Hok| |].
  - intros h Hel. destruct (tk_elem _ _ _ _ Hok _ _ Hel) as (xs & q & Hm & Hh & Hq).
    pose proof (groups_lookup _ _ _ _ _ _ Hg Hm) as ->. wp_go.
    apply wp_in_hashes, wp_get_head. eexists. split; [exact Hh|]. wp_go; [by apply foreach_is|].
    eapply wp_purge_ocs; [|simpl; by destruct st].
    unfold group. apply Forall2_fmap_l, Forall2_fmap_r, Forall_Forall2_diag, Forall_forall.
    intros [x [o d]] [_ Hin]%list_elem_of_filter. simpl.
    destruct (wf_entry _ _ _ _ _ Hwf _ _ _ Hin) as (h' & Hx & _). split; [by eexists|].
    apply (Hal o d). by apply (list_elem_of_fmap_2 snd) in Hin.
  - intros Hm. wp_go. rewrite Hg in Hm. case_decide as Hk; [done|].
    rewrite filter_none in HQ; [simpl in HQ; by destruct st|].
    intros e He Hd. apply Hk. left. rewrite <-Hd. by apply list_elem_of_fmap_2.
Qed.

Lemma wp_purge now soft key (Q : Z → xkey T1 T2 → Prop) st A :
  rep st A → alive st A →
  (∀ st', let s := spec_purge exp_rearm now soft (objcores st, rearmed st, 0%Z)
                     (hits SHA256 A key) in
     rep st' A → st' = with_cores st s → Q s.2 st') →
  wp (purge SHA256 exp_rearm (Some true) now (Some key) soft) Q st.
Proof using HSHA.
  intros (L & -> & Hwf) Hal HQ.
  assert (∀ ks st i, wf st L [] [] [] → alive st L.*2 →
    wp (foldM ks i (λ tok i,
        h ← xkey_hashtree_lookup (SHA256 tok);
        match h with
        | None => mret i
        | Some hashhead =>
            hh ← in_hashes (get_head hashhead);
            l ← liftO (VTAILQ_FOREACH (h_ocs hh) list_hashhead);
            purge_ocs exp_rearm now soft l i
        end)) (λ n st', let s := spec_purge exp_rearm now soft (objcores st, rearmed st, i)
           (concat ((λ k, (filter (λ p, p.2 = SHA256 k) L.*2).*1) <$> ks)) in
           n = s.2 ∧ st' = with_cores st s) st) as Hloop.
  { intros ks. induction ks as [|k ks IH]; intros st1 i Hwf1 Hal1; cbn [foldM].
    - wp_go. by destruct st1.
    - apply wp_bind. eapply wp_purge_word; [done|done|]. set (s := spec_purge _ _ _ _ _). cbv zeta.
      eapply wp_mono; [apply IH; [by apply wf_with_cores|]|].
      + intros o d Hin. simpl. apply elem_of_dom. subst s. rewrite spec_purge_dom.
        simpl. apply elem_of_dom. by eapply Hal1.
      + intros n st2 [-> ->]. cbv zeta. rewrite fmap_cons. cbn [concat].
        rewrite spec_purge_app. fold s. by destruct s as [[cores trace] n]. }
  unfold purge. wp_go; [done|]. destruct key as [|c key].
  - wp_go. apply HQ; [by exists L|]. simpl. by destruct st.
  - unfold wp. rewrite tok_loop_words by lia.
    pose proof (Hloop (words (c :: key)) st 0%Z Hwf Hal) as Hwp. unfold wp in Hwp.
    destruct (foldM _ _ _ st) as [[n st']| | |]; try done. destruct Hwp as [-> ->].
    apply HQ; [|done]. exists L. split; [done|]. by apply wf_with_cores.
Qed.
End purging.

(** ** Unloading *)
Section unloading.
Context {T1 T2 : Type} `{!OrdTree bytes T1, !OrdTreeLaws memcmp}.
Context `{!OrdTree uintptr T2, !OrdTreeLaws ptrcmp}.
Implicit Types (st : xkey T1 T2).

Lemma wf_ext st st' L EO EH X : wf st L EO EH X →
  hashes st' = hashes st → objects st' = objects st → ocs st' = ocs st →
  pool_ocs st' = pool_ocs st → n_oc st' = n_oc st → next_oc st' = next_oc st →
  wf st' L EO EH X.
Proof. intros Hwf Ha Hb Hc Hd He Hf. destruct Hwf. split; by rewrite ?Ha, ?Hb, ?Hc, ?Hd, ?He, ?Hf. Qed.
Lemma rep_ext st st' A : rep st A →
  hashes st' = hashes st → objects st' = objects st → ocs st' = ocs st →
  pool_ocs st' = pool_ocs st → n_oc st' = n_oc st → next_oc st' = next_oc st → rep st' A.
Proof. intros (L & -> & Hwf) ??????. exists L. split; [done|]. by eapply wf_ext. Qed.

(** [while (!VTAILQ_EMPTY(pool))] frees every head. *)
Lemma wp_drain_heads {K T : Type} n (tb : table K T) (Q : unit → table K T → Prop) :
  n = length (t_pool tb) → NoDup (t_pool tb) →
  (∀ h, is_Some (t_heap tb !! h) ↔ h ∈ t_pool tb) →
  Q tt (Table ∅ (t_tree tb) [] (t_npool tb) (t_next tb)) → wp (drain_heads n) Q tb.
Proof.
  destruct tb as [heap tree pool np nx]. simpl. revert n heap.
  induction pool as [|h pool IH]; intros n heap -> Hnd Hdom HQ; cbn [drain_heads length]; wp_go; simpl.
  - assert (heap = ∅) as ->; [|by wp_go]. apply map_empty. intros h.
    apply eq_None_not_Some. rewrite Hdom. set_solver.
  - apply NoDup_cons in Hnd as [Hh Hnd]. wp_go. apply wp_get_head. simpl.
    destruct (proj2 (Hdom h)) as [o Ho]; [left|]. exists o. split; [done|].
    unfold set_pool, free_head. wp_go. simpl. apply IH; try done.
    intros h'. destruct (decide (h' = h)) as [->|Hne].
    + rewrite lookup_delete_eq. split; [by intros [? ?]|done].
    + rewrite lookup_delete_ne, Hdom, elem_of_cons by done. naive_solver.
Qed.

(** A table without keys: its tree is empty and its heads are in the pool. *)
Lemma table_ok_empty {K T} `{Countable K} {cmp : K → K → comparison} `{!TotalCmp cmp}
    `{!OrdTree K T, !OrdTreeLaws cmp} key0 f (tb : table K T) :
  table_ok (cmp:=cmp) key0 f tb ∅ →
  VRB_MIN (t_tree tb) = None ∧ NoDup (t_pool tb) ∧
  (∀ h, is_Some (t_heap tb !! h) ↔ h ∈ t_pool tb).
Proof.
  intros Hok. assert (tree_list (t_tree tb) = []) as Hl.
  { destruct (tree_list (t_tree tb)) as [|[k h] l] eqn:Hl; [done|].
    destruct (tk_elem _ _ _ _ Hok k h) as (xs & q & Hm & _); [rewrite Hl; left|done]. }
  split_and!.
  - rewrite (tree_min _ (tk_tree _ _ _ _ Hok)). by rewrite Hl.
  - apply (tk_pool_nodup _ _ _ _ Hok).
  - intros h. split.
    + intros [?|[k Hk]]%(tk_heap _ _ _ _ Hok); [done|]. rewrite Hl in Hk. by apply elem_of_nil in Hk.
    + intros (q & ? & _)%(tk_pool _ _ _ _ Hok). by eexists.
Qed.

Lemma groups_nil {K} `{Countable K} (f : entry → K) m : groups f [] [] m → m = ∅.
Proof.
  intros Hg. apply map_empty. intros k. rewrite Hg. rewrite decide_False; [done|]. set_solver.
Qed.

(** The state of the last DISCARD before xkey_cleanup runs. *)
Definition last_discard st : xkey T1 T2 :=
  Xkey (hashes st) (objects st) (ocs st) (pool_ocs st) (n_oc st) (next_oc st) 0 false
    (objcores st) (rearmed st).

Lemma discard_runs_cleanup handle st :
  n_init st = 1%Z → xkey_cb_handle st = true →
  vmod_event VCL_EVENT_DISCARD handle st =
    (xkey_cleanup;;; mret 0%Z) (last_discard st).
Proof.
  intros Hi Hh. destruct st as [? ? ? ? ? ? ni ch ? ?]. simpl in Hi, Hh. subst ni ch. reflexivity.
Qed.
Lemma foreach_None {K T St} `{!OrdTree K T} (tree : St → T) n body :
  foreach tree n None body = mret (M:=M St) tt.
Proof. by destruct n. Qed.

(** With taggings, VTAILQ_CONCAT is applied to a queue of the other link. *)
Lemma cleanup_tagged st L e : wf st (e :: L) [] [] [] → ∃ w, xkey_cleanup st = Undef w.
Proof.
  intros Hwf. destruct (wf_hashes _ _ _ _ _ Hwf) as (m & Hok & Hg).
  destruct (wf_entry _ _ _ _ _ Hwf e.1 e.2.1 e.2.2) as (h0 & _ & Hin);
    [destruct e as [? [? ?]]; left|].
  destruct (tree_list (t_tree (hashes st))) as [|[d h] l] eqn:Hl; [by apply elem_of_nil in Hin|].
  assert ((d, h) ∈ tree_list (t_tree (hashes st))) as Hdh by (rewrite Hl; left).
  destruct (tk_elem _ _ _ _ Hok _ _ Hdh) as (xs & q & Hm & Hh & Hq & Hlink).
  pose proof (groups_lookup _ _ _ _ _ _ Hg Hm) as ->.
  assert (q_elems q ≠ []) as Hne.
  { rewrite Hq. intros Hnil%group_nil. rewrite Hg in Hm. rewrite decide_False in Hm; [done|].
    set_solver. }
  assert (linked list_ochead q = false) as Hbad.
  { apply bool_decide_eq_true_1 in Hlink as [?|Hf]; [done|]. apply bool_decide_eq_false_2.
    rewrite Hf. naive_solver. }
  assert (0 < size (t_heap (hashes st))) as Hsize.
  { apply Nat.neq_0_lt_0. intros Hz%map_size_empty_inv. rewrite Hz in Hh. done. }
  exists "VTAILQ linked through another field"%string.
  unfold xkey_cleanup. unfold mbind at 1, M_bind at 1, getS at 1.
  unfold hashtree at 2. rewrite (tree_min _ (tk_tree _ _ _ _ Hok)), Hl. cbn [head].
  destruct (size _) as [|n]; [lia|]. cbn [foreach].
  unfold in_hashes, get_head. unfold mbind, M_bind, getS, derefM, mret, M_ret.
  cbn [snd]. rewrite Hh. cbn [h_ocs].
  unfold liftO, VTAILQ_CONCAT, VTAILQ_EMPTY. rewrite bool_decide_eq_false_2 by done.
  by rewrite Hbad, andb_false_r.
Qed.
Definition freed {K T} `{!OrdTree K T} (tb : table K T) : table K T :=
  Table ∅ VRB_INIT [] (t_npool tb) (t_next tb).
Lemma drain_freed {K T} `{Countable K} {cmp : K → K → comparison} `{!TotalCmp cmp}
    `{!OrdTree K T, !OrdTreeLaws cmp} key0 f (tb : table K T) :
  table_ok (cmp:=cmp) key0 f tb ∅ →
  drain_heads (length (t_pool tb))
    (Table (t_heap tb) VRB_INIT (t_pool tb) (t_npool tb) (t_next tb)) = Ret (tt, freed tb).
Proof.
  intros (_ & Hnd & Hdom)%table_ok_empty.
  assert (wp (drain_heads (length (t_pool tb))) (λ _ tb', tb' = freed tb)
    (Table (t_heap tb) VRB_INIT (t_pool tb) (t_npool tb) (t_next tb))) as Hwp
    by by apply wp_drain_heads.
  apply wp_run in Hwp as ([] & ? & ? & ->). done.
Qed.
(** Without taggings, the heads are freed and the xkey_oc's come last. *)
Lemma cleanup_untagged st : wf st [] [] [] [] →
  xkey_cleanup st = drain_ocs (length (q_elems (pool_ocs st)))
    (Xkey (freed (hashes st)) (freed (objects st)) (ocs st) (pool_ocs st) (n_oc st)
       (next_oc st) (n_init st) (xkey_cb_handle st) (objcores st) (rearmed st)).
Proof.
  intros Hwf. destruct (wf_hashes _ _ _ _ _ Hwf) as (mH & HokH & ->%groups_nil).
  destruct (wf_objects _ _ _ _ _ Hwf) as (mO & HokO & ->%groups_nil).
  destruct (table_ok_empty _ _ _ HokH) as (HminH & _).
  destruct (table_ok_empty _ _ _ HokO) as (HminO & _).
  pose proof (drain_freed _ _ _ HokH) as HdH. pose proof (drain_freed _ _ _ HokO) as HdO.
  unfold xkey_cleanup. unfold mbind at 1, M_bind at 1, getS at 1.
  unfold hashtree at 2. rewrite HminH, foreach_None.
  unfold in_hashes, in_objects, set_tree, modifyS. unfold mbind, M_bind, mret, M_ret, getS.
  unfold octree. cbn [objects t_heap t_tree]. rewrite HminO, foreach_None. unfold mret, M_ret.
  cbn [hashes objects pool_ocs t_heap t_pool t_tree t_npool t_next].
  rewrite HdH. cbn beta iota. cbn [hashes objects t_heap t_pool t_tree t_npool t_next].
  by rewrite HdO.
Qed.

(** What tells a module that was never used: nothing is allocated or pooled. *)
Definition blank st : Prop :=
  ocs st = ∅ ∧ t_npool (hashes st) = 0%Z ∧ t_npool (objects st) = 0%Z.
Lemma rep_no_ocs st A : rep st A → A = [] ∧ n_oc st = 0%Z → ocs st = ∅.
Proof.
  intros (L & -> & Hwf) [->%fmap_nil_inv Hn]. apply map_empty. intros x. apply eq_None_not_Some.
  intros Hx%(wf_dom _ _ _ _ _ Hwf). rewrite (wf_noc _ _ _ _ _ Hwf) in Hn.
  destruct (q_elems (pool_ocs st)); [set_solver|simpl in Hn; lia].
Qed.
Lemma rep_tagged st A : rep st A → A ≠ [] → ocs st ≠ ∅.
Proof.
  intros (L & -> & Hwf) Hne He. destruct L as [|[x [o d]] L]; [done|].
  destruct (wf_entry _ _ _ _ _ Hwf x o d) as (h & Hx & _); [left|]. by rewrite He in Hx.
Qed.

(** The last DISCARD of a module that was used. *)
Lemma discard_used handle st A :
  rep st A → n_init st = 1%Z → xkey_cb_handle st = true → ¬ (A = [] ∧ n_oc st = 0%Z) →
  ∃ w, vmod_event VCL_EVENT_DISCARD handle st = Undef w.
Proof.
  intros (L & -> & Hwf) Hi Hh Hn. rewrite discard_runs_cleanup by done.
  assert (wf (last_discard st) L [] [] []) as Hwf' by by eapply wf_ext.
  unfold mbind, M_bind. destruct L as [|e L].
  - rewrite cleanup_untagged by done.
    pose proof (wf_noc _ _ _ _ _ Hwf) as Hoc. pose proof (wf_link _ _ _ _ _ Hwf) as Hlk.
    cbn [last_discard pool_ocs]. destruct (pool_ocs st) as [lk [|x xs]]; simpl in Hoc; [by destruct Hn|].
    unfold linked in Hlk. apply bool_decide_eq_true_1 in Hlk as [?|Hlk]; [done|].
    simpl in Hlk. subst lk. eexists. reflexivity.
  - destruct (cleanup_tagged _ _ _ Hwf') as [w Hw]. exists w. by rewrite Hw.
Qed.
(** And of one that was not: everything is freed. *)
Lemma discard_unused handle st :
  rep st [] → n_oc st = 0%Z → n_init st = 1%Z → xkey_cb_handle st = true →
  vmod_event VCL_EVENT_DISCARD handle st =
    Ret (0%Z, Xkey (freed (hashes st)) (freed (objects st)) (ocs st) (pool_ocs st) 0
                (next_oc st) 0 false (objcores st) (rearmed st)).
Proof.
  intros (L & Hnil & Hwf) Hoc Hi Hh. symmetry in Hnil. apply fmap_nil_inv in Hnil as ->.
  rewrite discard_runs_cleanup by done.
  assert (wf (last_discard st) [] [] [] []) as Hwf' by by eapply wf_ext.
  unfold mbind, M_bind. rewrite cleanup_untagged by done.
  pose proof (wf_noc _ _ _ _ _ Hwf) as Hn. rewrite Hoc in Hn.
  cbn [last_discard pool_ocs n_oc]. destruct (pool_ocs st) as [lk [|x xs]]; simpl in Hn; [|lia].
  simpl. by rewrite Hoc.
Qed.
Lemma freed_ok {K T} `{Countable K} {cmp : K → K → comparison} `{!TotalCmp cmp}
    `{!OrdTree K T, !OrdTreeLaws cmp} key0 f (tb : table K T) :
  t_npool tb = 0%Z → table_ok (cmp:=cmp) key0 f (freed tb) ∅.
Proof.
  intros Hn. destruct (tree_init (cmp:=cmp) (T:=T)) as [Hi Hl].
  split; simpl; try done; rewrite ?Hl; try set_solver.
  - constructor.
  - by rewrite Hn.
  - intros h. rewrite lookup_empty. by intros [? ?].
  - intros h. rewrite lookup_empty. by intros [? ?].
Qed.
Lemma groups_empty {K} `{Countable K} (f : entry → K) : groups f [] [] ∅.
Proof. intros k. rewrite lookup_empty. by rewrite decide_False by set_solver. Qed.
Lemma blank_rep st : blank st → hashes st = freed (hashes st) → objects st = freed (objects st) →
  q_elems (pool_ocs st) = [] → n_oc st = 0%Z → rep st [].
Proof.
  intros (Ho & Hh & Hb) Eh Eo Hq Hn. exists []. split; [done|].
  split; rewrite ?Ho, ?Hq, ?Hn; simpl; try done; try set_solver.
  - exists ∅. rewrite Eh. split; [by apply freed_ok|apply groups_empty].
  - exists ∅. rewrite Eo. split; [by apply freed_ok|apply groups_empty].
  - constructor.
  - intros x. rewrite lookup_empty. by intros [? ?].
  - unfold linked. by apply bool_decide_eq_true_2; left.
  - intros x. rewrite lookup_empty. by intros [? ?].
Qed.

(** C35: the DISCARD of the last VCL.  If no object is tagged and the pool
    of xkey_oc's is empty (so nothing was ever tagged), it returns with
    every head freed (and the counters of the pools as they were).  In every other state of the module xkey_cleanup
    breaks the contract of the queues: it passes the field list_ochead to
    VTAILQ_CONCAT and VTAILQ_REMOVE on queues that are linked through
    list_hashhead. *)
Theorem discard_exact handle st A :
  rep st A → n_init st = 1%Z → xkey_cb_handle st = true →
  if bool_decide (A = [] ∧ n_oc st = 0%Z)
  then ∃ st', vmod_event VCL_EVENT_DISCARD handle st = Ret (0%Z, st') ∧
         n_init st' = 0%Z ∧ xkey_cb_handle st' = false ∧
         t_heap (hashes st') = ∅ ∧ t_heap (objects st') = ∅ ∧ ocs st' = ∅ ∧
         t_npool (hashes st') = t_npool (hashes st) ∧
         t_npool (objects st') = t_npool (objects st)
  else ∃ w, vmod_event VCL_EVENT_DISCARD handle st = Undef w.
Proof.
  intros Hr Hi Hh. case_bool_decide as Hd.
  - destruct Hd as [-> Hn]. rewrite discard_unused by done. eexists. split; [done|].
    split_and!; try done. simpl. by eapply rep_no_ocs.
  - by eapply discard_used.
Qed.
End unloading.

(** ** The module as a whole *)

(** What the outside may do to the module: the VCL events, the callbacks of
    the object subscription, the two purges, and Varnish itself creating,
    changing and freeing objects. *)
Inductive xop :=
| Op_event (e : vcl_event) (handle : bool)
| Op_insert (o : loc) (hdrs : list bytes)
| Op_expire (o : loc)
| Op_purge (req : ctx_req) (now : double) (key : option bytes) (soft : bool)
| Op_object (o : loc) (c : objcore)
| Op_free (o : loc).

(** The abstract state: the taggings, Varnish's objects, the calls of
    EXP_Rearm so far, the number of loaded VCLs, the subscription, and whether
    an object was ever tagged. *)
Record xspec := Xspec {
  tags : index;
  s_cores : gmap loc objcore;
  s_trace : list rearm;
  s_init : Z;
  s_handle : bool;
  s_tagged : bool;
}.
Definition spec_boot (cores : gmap loc objcore) : xspec := Xspec [] cores [] 0 false false.

(** What Varnish guarantees: registration succeeds, a VCL is discarded after
    it was loaded, events name live objects, an object is freed after its
    taggings are gone. *)
Definition op_pre (op : xop) (s : xspec) : Prop :=
  match op with
  | Op_event VCL_EVENT_LOAD handle => s_init s = 0%Z → handle = true
  | Op_event VCL_EVENT_DISCARD _ => (0 < s_init s)%Z
  | Op_event _ _ => True
  | Op_insert o _ | Op_expire o => is_Some (s_cores s !! o)
  | Op_purge _ _ _ _ | Op_object _ _ => True
  | Op_free o => o ∉ (tags s).*1
  end.

(** The two operations that do not return although Varnish may issue them:
    a purge without a client request stops in an assertion, and the DISCARD
    of the last VCL, once an object was tagged, runs into undefined
    behaviour (see [discard_exact]). *)
Inductive failure := Assertion | Undefined_behaviour.
Definition op_fails (op : xop) (s : xspec) : option failure :=
  match op with
  | Op_purge req _ _ _ => if has_request req then None else Some Assertion
  | Op_event VCL_EVENT_DISCARD _ =>
      if (s_init s =? 1)%Z && s_tagged s then Some Undefined_behaviour else None
  | _ => None
  end.
Definition fails_with {A} (f : failure) (o : outcome A) : Prop :=
  match f, o with
  | Assertion, Panic _ | Undefined_behaviour, Undef _ => True
  | _, _ => False
  end.

Section system.
Context (SHA256 : bytes → bytes).
Context (exp_rearm : objcore → double → double → double → double → objcore).

(** The result of an operation that returns, and the state after it. *)
Definition spec_step (op : xop) (s : xspec) : Z * xspec :=
  match op with
  | Op_event VCL_EVENT_LOAD handle =>
      (0%Z, Xspec (tags s) (s_cores s) (s_trace s) (s_init s + 1)
              (if (s_init s =? 0)%Z then handle else s_handle s) (s_tagged s))
  | Op_event VCL_EVENT_DISCARD _ =>
      (0%Z, Xspec (tags s) (s_cores s) (s_trace s) (s_init s - 1)
              (if (s_init s =? 1)%Z then false else s_handle s) (s_tagged s))
  | Op_event _ _ => (0%Z, s)
  | Op_insert o hdrs =>
      (0%Z, Xspec (tags s ++ taggings SHA256 o hdrs) (s_cores s) (s_trace s) (s_init s) (s_handle s)
              (s_tagged s || bool_decide (taggings SHA256 o hdrs ≠ [])))
  | Op_expire o =>
      (0%Z, Xspec (filter (λ p, p.1 ≠ o) (tags s)) (s_cores s) (s_trace s) (s_init s) (s_handle s)
              (s_tagged s))
  | Op_purge _ now key soft =>
      let '(cores, trace, n) :=
        spec_purge exp_rearm now soft (s_cores s, s_trace s, 0%Z)
          (hits SHA256 (tags s) (default [] key)) in
      (n, Xspec (tags s) cores trace (s_init s) (s_handle s) (s_tagged s))
  | Op_object o c =>
      (0%Z, Xspec (tags s) (<[o := c]> (s_cores s)) (s_trace s) (s_init s) (s_handle s) (s_tagged s))
  | Op_free o =>
      (0%Z, Xspec (tags s) (delete o (s_cores s)) (s_trace s) (s_init s) (s_handle s) (s_tagged s))
  end.
Fixpoint spec_run (ops : list xop) (s : xspec) : list Z * xspec :=
  match ops with
  | [] => ([], s)
  | op :: ops => let '(r, s) := spec_step op s in
                 let '(rs, s) := spec_run ops s in (r :: rs, s)
  end.
(** Every operation of the sequence is issued when Varnish may. *)
Fixpoint allowed (ops : list xop) (s : xspec) : Prop :=
  match ops with
  | [] => True
  | op :: ops => op_pre op s ∧ allowed ops (spec_step op s).2
  end.
(** How the sequence stops early, if it does. *)
Fixpoint run_fails (ops : list xop) (s : xspec) : option failure :=
  match ops with
  | [] => None
  | op :: ops =>
      match op_fails op s with
      | Some f => Some f
      | None => run_fails ops (spec_step op s).2
      end
  end.
End system.

Section execution.
Context {T1 T2 : Type} `{!OrdTree bytes T1, !OrdTree uintptr T2}.
Context (SHA256 : bytes → bytes).
Context (exp_rearm : objcore → double → double → double → double → objcore).

Definition run_op (op : xop) : M (xkey T1 T2) Z :=
  match op with
  | Op_event e handle => vmod_event e handle
  | Op_insert o hdrs => xkey_cb SHA256 false o hdrs OEV_INSERT;;; mret 0%Z
  | Op_expire o => xkey_cb SHA256 false o [] OEV_EXPIRE;;; mret 0%Z
  | Op_purge req now key soft =>
      if soft then vmod_softpurge SHA256 exp_rearm req now key
      else vmod_purge SHA256 exp_rearm req now key
  | Op_object o c => st ← getS; set_objcores (<[o := c]> (objcores st)) (rearmed st);;; mret 0%Z
  | Op_free o => st ← getS; set_objcores (delete o (objcores st)) (rearmed st);;; mret 0%Z
  end.
Fixpoint run_ops (ops : list xop) : M (xkey T1 T2) (list Z) :=
  match ops with
  | [] => mret []
  | op :: ops => r ← run_op op; rs ← run_ops ops; mret (r :: rs)
  end.
End execution.

Section simulation.
Context {T1 T2 : Type} `{!OrdTree bytes T1, !OrdTreeLaws memcmp}.
Context `{!OrdTree uintptr T2, !OrdTreeLaws ptrcmp}.
Implicit Types (st : xkey T1 T2) (s : xspec).

(** The concrete state implements the abstract one. *)
Record sim st s : Prop := Sim {
  sim_rep : rep st (tags s);
  sim_alive : alive st (tags s);
  sim_cores : objcores st = s_cores s;
  sim_trace : rearmed st = s_trace s;
  sim_init : n_init st = s_init s;
  sim_handle : xkey_cb_handle st = s_handle s;
  sim_loaded : (0 ≤ s_init s)%Z ∧ ((0 < s_init s)%Z → s_handle s = true);
  sim_tagged : if s_tagged s then ocs st ≠ ∅ else tags s = [] ∧ blank st;
}.

Lemma sim_boot cores : sim (xkey_boot cores) (spec_boot cores).
Proof.
  split; simpl; try done; try lia; [|by intros o d ?%elem_of_nil]. by apply blank_rep.
Qed.

Context (SHA256 : bytes → bytes).
Context (exp_rearm : objcore → double → double → double → double → objcore).
Context (HSHA : ∀ k, length (SHA256 k) = DIGEST_LEN).

(** The state's part of the operations that return, kept by those that
    leave the allocated xkey_oc's as they are. *)
Lemma tagged_kept st st' s (A : index) b :
  (if s_tagged s then ocs st ≠ ∅ else tags s = [] ∧ blank st) → b = s_tagged s →
  hashes st' = hashes st → objects st' = objects st → ocs st' = ocs st → A = tags s →
  if b then ocs st' ≠ ∅ else A = [] ∧ blank st'.
Proof. unfold blank. by intros H -> -> -> -> ->. Qed.

Lemma wp_run_event e handle st s :
  sim st s → op_pre (Op_event e handle) s → op_fails (Op_event e handle) s = None →
  wp (vmod_event e handle) (λ r st', let '(r', s') :=
    spec_step SHA256 exp_rearm (Op_event e handle) s in r = r' ∧ sim st' s') st.
Proof using OrdTreeLaws0 OrdTreeLaws1.
  intros [Hr Ha Hc Ht Hi Hh [Hl1 Hl2] Htg] Hpre Hf. destruct e; cbn [spec_step op_pre op_fails] in *.
  - cbn [vmod_event]. wp_go. rewrite Hi. destruct (Z.eqb_spec (s_init s) 0) as [H0|H0]; unfold set_init; wp_go;
      simpl; rewrite ?Hh; try (apply Hl2; lia); try by apply Hpre.
    + split; [done|]. split; simpl; try done; try lia; [by eapply rep_ext|].
      split; [lia|]. intros _. by apply Hpre.
    + split; [done|]. split; simpl; try done; try lia; [by eapply rep_ext|].
      split; [lia|]. intros _. apply Hl2. lia.
  - by wp_go.
  - by wp_go.
  - destruct (Z.eqb_spec (s_init s) 1) as [H1|H1].
    + destruct (s_tagged s) eqn:Hst; [done|]. destruct Htg as [Htags Hb]. pose proof Hb as (Ho & Hp1 & Hp2).
      rewrite Htags in Hr. assert (n_oc st = 0%Z ∧ q_elems (pool_ocs st) = []) as [Hoc Hq].
      { destruct Hr as (L & _ & Hwf). rewrite (wf_noc _ _ _ _ _ Hwf).
        destruct (q_elems (pool_ocs st)) as [|x l] eqn:Hq; [done|].
        pose proof (wf_pool _ _ _ _ _ Hwf x ltac:(rewrite Hq; left)) as Hx. by rewrite Ho in Hx. }
      unfold wp. assert (xkey_cb_handle st = true) as Hcb by (rewrite Hh; apply Hl2; lia).
      rewrite discard_unused by (done || congruence). split; [done|].
      split; simpl; rewrite ?Htags, ?Hst; try done; try lia.
      * by apply blank_rep.
      * by intros o d ?%elem_of_nil.
    + cbn [vmod_event]. wp_go; [apply Z.ltb_lt; lia|]. unfold set_init. wp_go; [rewrite Hh; apply Hl2; lia|].
      rewrite (proj2 (Z.eqb_neq _ _)) by lia. wp_go.
      split; [done|]. split; simpl; try done; try lia; [by eapply rep_ext|].
      split; [lia|]. intros _. apply Hl2. lia.
Qed.

Lemma taggings_obj o hdrs p : p ∈ taggings SHA256 o hdrs → p.1 = o.
Proof. unfold taggings. by intros (k & -> & _)%list_elem_of_fmap. Qed.

Lemma wp_xk_op op st s :
  sim st s → op_pre op s → op_fails op s = None →
  wp (run_op SHA256 exp_rearm op) (λ r st', let '(r', s') := spec_step SHA256 exp_rearm op s in
    r = r' ∧ sim st' s') st.
Proof using HSHA OrdTreeLaws0 OrdTreeLaws1.
  intros Hsim Hpre Hf. destruct op as [e handle|o hdrs|o|req now key soft|o c|o];
    [by apply wp_run_event|..]; destruct Hsim as [Hr Ha Hc Ht Hi Hh Hl Htg];
    cbn [run_op spec_step op_pre] in *.
  - pose proof Hpre as [c Hoc]. rewrite <-Hc in Hoc.
    wp_go. unfold xkey_cb. wp_go. apply wp_get_objcore. exists c. split; [done|]. wp_go; [done|].
    eapply wp_cb_insert; [done|done|by eexists|]. intros st' Hr' (Hi' & Hh' & Hc' & Ht' & Ho') Hn. wp_go.
    split; [done|]. split; simpl; try congruence; try done.
    + intros o' d [Hin|Hin%taggings_obj]%elem_of_app; rewrite Hc'; [by eapply Ha|].
      simpl in Hin. subst. by eexists.
    + case_bool_decide as Htags.
      * rewrite orb_true_r. eapply rep_tagged; [exact Hr'|]. by intros [_ ?]%app_nil.
      * rewrite orb_false_r, Htags, app_nil_r, (Hn Htags). done.
  - pose proof Hpre as [c Hoc]. rewrite <-Hc in Hoc.
    wp_go. unfold xkey_cb. wp_go. apply wp_get_objcore. exists c. split; [done|]. wp_go; [done|].
    eapply wp_cb_remove; [done|by eexists|]. intros st' Hr' (Hi' & Hh' & Hc' & Ht' & Ho') Hn. wp_go.
    split; [done|]. split; simpl; try congruence; try done.
    + intros o' d [_ Hin]%list_elem_of_filter. rewrite Hc'. by eapply Ha.
    + destruct (s_tagged s); [by apply Ho'|]. destruct Htg as [Htags Hb].
      rewrite Htags, (Hn Htags). done.
  - assert (wp (purge SHA256 exp_rearm req now key soft) (λ r st', let '(r', s') :=
      spec_step SHA256 exp_rearm (Op_purge req now key soft) s in r = r' ∧ sim st' s') st)
      as Hp; [|by destruct soft].
    cbn [spec_step]. rewrite <-Hc, <-Ht.
    assert (∀ st', let sp := spec_purge exp_rearm now soft (objcores st, rearmed st, 0%Z)
               (hits SHA256 (tags s) (default [] key)) in
             rep st' (tags s) → st' = with_cores st sp →
             (let '(r', s') := let '(cores, trace, n) := sp in
                (n, Xspec (tags s) cores trace (s_init s) (s_handle s) (s_tagged s)) in
              sp.2 = r' ∧ sim st' s')) as Hend.
    { intros st' sp Hr' ->. pose proof (spec_purge_dom exp_rearm now soft
        (hits SHA256 (tags s) (default [] key)) (objcores st, rearmed st, 0%Z)) as Hdom.
      fold sp in Hdom. destruct sp as [[cores trace] n]. simpl in Hdom.
      split; [done|]. split; simpl; try done.
      intros o d Hin. simpl. apply elem_of_dom. rewrite Hdom. apply elem_of_dom. by eapply Ha. }
    destruct req as [[]|]; try done.
    destruct key as [key|]; [by eapply wp_purge|]. unfold purge. wp_go; [done|].
    apply (Hend st Hr). by destruct st.
  - wp_go. unfold set_objcores. wp_go. split; [done|].
    split; simpl; try done; [by eapply rep_ext| |congruence].
    intros o' d Hin. simpl. apply lookup_insert_is_Some'. right. by eapply Ha.
  - wp_go. unfold set_objcores. wp_go. split; [done|].
    split; simpl; try done; [by eapply rep_ext| |congruence].
    intros o' d Hin. simpl. rewrite lookup_delete_ne; [by eapply Ha|].
    intros ->. apply Hpre. by apply (list_elem_of_fmap_2 fst) in Hin.
Qed.
(** The two operations that fail do. *)
Lemma op_fails_as op st s f :
  sim st s → op_fails op s = Some f → fails_with f (run_op SHA256 exp_rearm op st).
Proof using OrdTreeLaws0 OrdTreeLaws1.
  intros [Hr Ha Hc Ht Hi Hh [Hl1 Hl2] Htg] Hf.
  destruct op as [[]| | |req now key soft| |]; try done; cbn [op_fails run_op] in *.
  - destruct (Z.eqb_spec (s_init s) 1) as [H1|]; [|done].
    destruct (s_tagged s); [|done]. injection Hf as <-.
    destruct (discard_used handle st (tags s)) as [w ->]; [done|congruence| | |done].
    + rewrite Hh. apply Hl2. lia.
    + intros Hn. apply Htg. by eapply rep_no_ocs.
  - destruct req as [[]|]; [done|injection Hf as <-; by destruct soft..].
Qed.

Lemma wp_run_ops ops st s :
  sim st s → allowed SHA256 exp_rearm ops s → run_fails SHA256 exp_rearm ops s = None →
  wp (run_ops SHA256 exp_rearm ops) (λ rs st', let '(rs', s') := spec_run SHA256 exp_rearm ops s in
    rs = rs' ∧ sim st' s') st.
Proof using HSHA OrdTreeLaws0 OrdTreeLaws1.
  revert st s. induction ops as [|op ops IH]; intros st s Hsim Hall Hf; cbn [run_ops spec_run].
  - by wp_go.
  - destruct Hall as [Hpre Hall]. cbn [run_fails] in Hf. destruct (op_fails op s) eqn:Hop; [done|].
    wp_go. eapply wp_mono; [by eapply wp_xk_op|].
    intros r st1 Hr. destruct (spec_step _ _ op s) as [r' s1]. destruct Hr as [-> Hsim1].
    wp_go. eapply wp_mono; [by eapply IH|]. intros rs st2 Hrs.
    destruct (spec_run _ _ ops s1) as [rs' s2]. destruct Hrs as [-> Hsim2]. by wp_go.
Qed.
Lemma run_fails_as ops st s f :
  sim st s → allowed SHA256 exp_rearm ops s → run_fails SHA256 exp_rearm ops s = Some f →
  fails_with f (run_ops SHA256 exp_rearm ops st).
Proof using HSHA OrdTreeLaws0 OrdTreeLaws1.
  revert st s. induction ops as [|op ops IH]; intros st s Hsim Hall Hf; [done|].
  destruct Hall as [Hpre Hall]. cbn [run_fails run_ops] in *. unfold mbind at 1, M_bind at 1.
  destruct (op_fails op s) as [f'|] eqn:Hop.
  - injection Hf as ->. pose proof (op_fails_as _ _ _ _ Hsim Hop) as H.
    by destruct (run_op _ _ _ _) as [[]| | |], f.
  - pose proof (wp_xk_op _ _ _ Hsim Hpre Hop) as Hwp. apply wp_run in Hwp as (r & st1 & -> & Hr).
    destruct (spec_step _ _ op s) as [r' s1]. destruct Hr as [-> Hsim1].
    pose proof (IH _ _ Hsim1 Hall Hf) as H. unfold mbind, M_bind.
    by destruct (run_ops _ _ ops st1) as [[]| | |], f.
Qed.

(** The state after a run. *)
Definition final (ops : list xop) st : xkey T1 T2 :=
  match run_ops SHA256 exp_rearm ops st with Ret (_, st') => st' | _ => st end.
Lemma final_sim ops st s :
  sim st s → allowed SHA256 exp_rearm ops s → run_fails SHA256 exp_rearm ops s = None →
  sim (final ops st) (spec_run SHA256 exp_rearm ops s).2.
Proof using HSHA OrdTreeLaws0 OrdTreeLaws1.
  intros Hsim Hall Hf. pose proof (wp_run_ops ops st s Hsim Hall Hf) as Hwp.
  apply wp_run in Hwp as (rs & st' & Hrun & Hs). unfold final. rewrite Hrun.
  destruct (spec_run _ _ ops s) as [rs' s']. by destruct Hs.
Qed.
End simulation.

(** ** What the abstract purges amount to *)
Section purge_facts.
Context (exp_rearm : objcore → double → double → double → double → objcore).
Implicit Types (cores : gmap loc objcore) (c : objcore) (o : loc) (l : list loc).

(** The objects a hard purge acts on, and those a soft purge acts on. *)
Definition idle cores o : bool :=
  match cores !! o with Some c => negb (oc_busy c) | None => false end.
Definition fresh now cores o : bool :=
  match cores !! o with
  | Some c => negb (oc_busy c || dleb (ttl c) (dsub now (t_origin c)))
  | None => false
  end.
(** The call of EXP_Rearm a purge issues for an object. *)
Definition hard_call cores o (r : rearm) : Prop :=
  ∃ c, cores !! o = Some c ∧ r = Rearm o (t_origin c) dzero dzero dzero.
Definition soft_call now cores o (r : rearm) : Prop :=
  ∃ c, cores !! o = Some c ∧ r = Rearm o now dzero (grace c) (keep c).

Lemma purge_one_hard now cores tr i o :
  if idle cores o then ∃ c, cores !! o = Some c ∧
    purge_one exp_rearm now false (cores, tr, i) o =
      (<[o := exp_rearm c (t_origin c) dzero dzero dzero]> cores,
       tr ++ [Rearm o (t_origin c) dzero dzero dzero], i + 1)%Z
  else purge_one exp_rearm now false (cores, tr, i) o = (cores, tr, i).
Proof.
  unfold idle, purge_one. destruct (cores !! o) as [c|]; [|done]. cbn [andb].
  rewrite orb_false_r. destruct (oc_busy c); [done|]. by exists c.
Qed.
Lemma purge_one_soft now cores tr i o :
  if fresh now cores o then ∃ c, cores !! o = Some c ∧
    purge_one exp_rearm now true (cores, tr, i) o =
      (<[o := exp_rearm c now dzero (grace c) (keep c)]> cores,
       tr ++ [Rearm o now dzero (grace c) (keep c)], i + 1)%Z
  else purge_one exp_rearm now true (cores, tr, i) o = (cores, tr, i).
Proof.
  unfold fresh, purge_one. destruct (cores !! o) as [c|]; [|done]. cbn [andb].
  destruct (_ || _); [done|]. by exists c.
Qed.

(** A hard purge: one call for each hit that is not busy.  A second hit of
    an object sees the object as the first call left it. *)
Lemma hard_purge_trace now l cores tr i :
  (∀ c n t g k, oc_busy (exp_rearm c n t g k) = oc_busy c) →
  (∀ c n t g k, t_origin (exp_rearm c n t g k) = t_origin c) →
  ∃ calls cores', spec_purge exp_rearm now false (cores, tr, i) l =
      (cores', tr ++ calls, i + Z.of_nat (length calls))%Z ∧
    Forall2 (hard_call cores) (filter (λ o, idle cores o = true) l) calls ∧
    (∀ o, ¬ (o ∈ l ∧ idle cores o = true) → cores' !! o = cores !! o).
Proof.
  intros Hbusy Horig. revert cores tr i.
  induction l as [|o l IH]; intros cores tr i; cbn [spec_purge foldl].
  { exists [], cores. rewrite app_nil_r, Z.add_0_r. split; [done|]. by split. }
  pose proof (purge_one_hard now cores tr i o) as H1. rewrite filter_cons.
  destruct (idle cores o) eqn:Hio; cbn beta iota in H1.
  2: { rewrite H1. destruct (IH cores tr i) as (calls & cores' & H2 & H3 & H4).
       exists calls, cores'. split; [done|]. rewrite decide_False by done. split; [done|].
       intros o' Hn. apply H4. intros [? ?]. apply Hn. split; [by right|done]. }
  destruct H1 as (c & Ho & ->). rewrite decide_True by done.
  set (c' := exp_rearm _ _ _ _ _). set (cores1 := <[o:=c']> cores).
  assert (∀ o', o' ≠ o → cores1 !! o' = cores !! o') as Hne1
    by (intros; unfold cores1; by rewrite lookup_insert_ne).
  assert (∀ o', idle cores1 o' = idle cores o') as Hidle.
  { intros o'. unfold idle. destruct (decide (o' = o)) as [->|Hne]; [|by rewrite Hne1].
    unfold cores1, c'. by rewrite lookup_insert_eq, Ho, Hbusy. }
  destruct (IH cores1 (tr ++ [Rearm o (t_origin c) dzero dzero dzero]) (i + 1)%Z)
    as (calls & cores' & H2 & H3 & H4).
  exists (Rearm o (t_origin c) dzero dzero dzero :: calls), cores'. split_and!.
  - etrans; [exact H2|]. rewrite <-(assoc_L (++)). f_equal. cbn [length]. lia.
  - constructor; [by exists c|].
    rewrite (filter_ext_in _ (λ x, idle cores1 x = true)) by (intros x _; by rewrite (Hidle x)).
    eapply Forall2_impl; [exact H3|]. intros o' r (c2 & Hc2 & ->).
    destruct (decide (o' = o)) as [->|Hne]; [|rewrite Hne1 in Hc2 by done; by exists c2].
    unfold cores1 in Hc2. rewrite lookup_insert_eq in Hc2. injection Hc2 as <-.
    exists c. split; [done|]. unfold c'. by rewrite Horig.
  - intros o' Hn. assert (o' ≠ o) as Hne by (intros ->; apply Hn; split; [left|done]).
    rewrite H4, Hne1; [done|done|]. rewrite Hidle. intros [? ?]. apply Hn. split; [by right|done].
Qed.

(** A soft purge whose EXP_Rearm makes the object stale: one call for each
    fresh object, however often it is hit. *)
Lemma soft_purge_trace now l cores tr i :
  (∀ o c g k, cores !! o = Some c → fresh now cores o = true →
     let c' := exp_rearm c now dzero g k in
     dleb (ttl c') (dsub now (t_origin c')) = true) →
  ∃ calls cores', spec_purge exp_rearm now true (cores, tr, i) l =
      (cores', tr ++ calls, i + Z.of_nat (length calls))%Z ∧
    NoDup (r_oc <$> calls) ∧
    (∀ o, o ∈ r_oc <$> calls ↔ o ∈ l ∧ fresh now cores o = true) ∧
    Forall (λ r, soft_call now cores (r_oc r) r) calls ∧
    (∀ o, ¬ (o ∈ l ∧ fresh now cores o = true) → cores' !! o = cores !! o) ∧
    (∀ o, fresh now cores' o = true → o ∉ l).
Proof.
  revert cores tr i. induction l as [|o l IH]; intros cores tr i Hex; cbn [spec_purge foldl].
  { exists [], cores. rewrite app_nil_r, Z.add_0_r. split; [done|].
    split_and!; try done; [constructor|set_solver|set_solver]. }
  pose proof (purge_one_soft now cores tr i o) as H0.
  destruct (fresh now cores o) eqn:Hfo; cbn beta iota in H0.
  2: { rewrite H0. destruct (IH cores tr i Hex) as (calls & cores' & H1 & H2 & H3 & H4 & H5 & H6).
       exists calls, cores'.
       assert (cores' !! o = cores !! o) as Hsame by (apply H5; intros [_ ?]; congruence).
       split_and!; [done|done| |done| |].
       - intros o'. rewrite H3, elem_of_cons. naive_solver congruence.
       - intros o' Hn. apply H5. intros [? ?]. apply Hn. split; [by right|done].
       - intros o' Hf [->|Hin]%elem_of_cons; [|by eapply H6].
         unfold fresh in Hf, Hfo. rewrite Hsame in Hf. congruence. }
  destruct H0 as (c & Ho & ->). set (c' := exp_rearm _ _ _ _ _).
  assert (dleb (ttl c') (dsub now (t_origin c')) = true) as Hc' by by eapply Hex.
  set (cores1 := <[o:=c']> cores).
  assert (fresh now cores1 o = false) as Ho1.
  { unfold fresh, cores1. by rewrite lookup_insert_eq, Hc', orb_true_r. }
  assert (∀ o', o' ≠ o → cores1 !! o' = cores !! o') as Hne1
    by (intros; unfold cores1; by rewrite lookup_insert_ne).
  assert (∀ o', fresh now cores1 o' = true ↔ o' ≠ o ∧ fresh now cores o' = true) as Hnf1.
  { intros o'. destruct (decide (o' = o)) as [->|Hne]; [rewrite Ho1; naive_solver|].
    unfold fresh. rewrite Hne1 by done. tauto. }
  destruct (IH cores1 (tr ++ [Rearm o now dzero (grace c) (keep c)]) (i + 1)%Z)
    as (calls & cores' & H1 & H2 & H3 & H4 & H5 & H6).
  { intros o' d g k Hd [Hne Hf]%Hnf1. rewrite Hne1 in Hd by done. by eapply Hex. }
  exists (Rearm o now dzero (grace c) (keep c) :: calls), cores'. split_and!.
  - etrans; [exact H1|]. rewrite <-(assoc_L (++)). f_equal. cbn [length]. lia.
  - rewrite fmap_cons. constructor; [|done]. simpl. rewrite H3, Hnf1. tauto.
  - intros o'. rewrite fmap_cons, !elem_of_cons, H3, Hnf1. cbn [r_oc].
    destruct (decide (o' = o)) as [->|]; tauto.
  - constructor; [by exists c|]. rewrite Forall_forall in H4 |- *. intros r Hr.
    pose proof (proj1 (H3 (r_oc r)) (list_elem_of_fmap_2 _ _ _ Hr)) as [_ [Hne _]%Hnf1].
    destruct (H4 r Hr) as (d & Hd & Heq). rewrite Hne1 in Hd by done. by exists d.
  - intros o' Hn. assert (o' ≠ o) as Hne by (intros ->; apply Hn; split; [left|done]).
    rewrite H5, Hne1; [done|done|]. rewrite Hnf1. intros (? & _ & ?). apply Hn.
    split; [by right|done].
  - intros o' Hf [->|Hin]%elem_of_cons; [|by eapply H6].
    assert (o ∉ l) as Hnl by by apply H6.
    unfold fresh in Hf. rewrite H5 in Hf by (by intros [? ?]).
    unfold fresh in Ho1. congruence.
Qed.
End purge_facts.

Section properties.
Context {T1 T2 : Type} `{!OrdTree bytes T1, !OrdTreeLaws memcmp}.
Context `{!OrdTree uintptr T2, !OrdTreeLaws ptrcmp}.
Context (SHA256 : bytes → bytes).
Context (exp_rearm : objcore → double → double → double → double → objcore).
Implicit Types (st : xkey T1 T2) (s : xspec) (A : index) (o : loc).

(** C1: every operation Varnish may issue ([op_pre]: registration succeeds,
    no more VCLs are discarded than were loaded, the events of stored objects
    name live objects) implements the abstract index: a stored object is
    tagged with the digests of the words of its xkey and X-HashTwo headers,
    in order, an expired object loses all its taggings, a purge acts on the
    objects tagged with a word of its argument (and leaves the taggings
    alone), and load and discard count the VCLs; the last discard of a module
    that never tagged an object unsubscribes and leaves it empty.  Exactly two
    operations do not return ([op_fails]): a purge from a context without a
    client request (a backend task) stops in CHECK_OBJ_NOTNULL(ctx->req), and
    the discard of the last VCL after any object was tagged is undefined
    behaviour (the cleanup uses the wrong link of the queues). *)
Theorem operations_refine_index op st s :
  (∀ k, length (SHA256 k) = DIGEST_LEN) → sim st s → op_pre op s →
  match op_fails op s with
  | None =>
      wp (run_op SHA256 exp_rearm op)
         (λ r st', let '(r', s') := spec_step SHA256 exp_rearm op s in r = r' ∧ sim st' s') st
  | Some f => fails_with f (run_op SHA256 exp_rearm op st)
  end.
Proof.
  intros HSHA Hsim Hpre. destruct (op_fails op s) eqn:Hf; [by eapply op_fails_as|by apply wp_xk_op].
Qed.

Lemma group_dom {K} `{Countable K} (f : entry → K) L m :
  groups f L [] m → dom m = list_to_set (f <$> L).
Proof.
  intros Hg. apply set_eq. intros k. rewrite elem_of_dom, elem_of_list_to_set, Hg.
  case_decide as Hk; split; intros Hk'; try (by eexists).
  - destruct Hk as [?|[]%elem_of_nil]. done.
  - by destruct Hk'.
  - exfalso. apply Hk. by left.
Qed.

(** What is allocated: one xkey_oc per tagging, one head per tagged object
    and per key in use, and at most POOL_MAX of each in the pools. *)
Lemma rep_sizes st A : rep st A →
  (Z.of_nat (size (ocs st)) ≤ Z.of_nat (length A) + POOL_MAX)%Z ∧
  (Z.of_nat (size (t_heap (hashes st))) ≤
     Z.of_nat (size (list_to_set A.*2 : gset bytes)) + POOL_MAX)%Z ∧
  (Z.of_nat (size (t_heap (objects st))) ≤
     Z.of_nat (size (list_to_set A.*1 : gset loc)) + POOL_MAX)%Z.
Proof.
  intros (L & -> & Hwf).
  destruct (wf_hashes _ _ _ _ _ Hwf) as (mH & HokH & HgH).
  destruct (wf_objects _ _ _ _ _ Hwf) as (mO & HokO & HgO).
  split_and!.
  - pose proof (wf_noc _ _ _ _ _ Hwf). pose proof (wf_noc_max _ _ _ _ _ Hwf).
    enough (size (ocs st) ≤ length (L.*1 ++ q_elems (pool_ocs st))) as Hle.
    { rewrite length_app, !length_fmap in *. lia. }
    rewrite <-size_dom. etrans; [|apply size_list_to_set_le].
    apply subseteq_size. intros x Hx%elem_of_dom%(wf_dom _ _ _ _ _ Hwf).
    by apply elem_of_list_to_set.
  - rewrite (table_ok_size _ _ _ _ HokH). pose proof (tk_npool _ _ _ _ HokH).
    pose proof (tk_pool_max _ _ _ _ HokH). rewrite <-(size_dom mH), (group_dom _ _ _ HgH).
    rewrite <-list_fmap_compose. unfold e_dig. change (snd ∘ snd) with (λ e : entry, e.2.2). lia.
  - rewrite (table_ok_size _ _ _ _ HokO). pose proof (tk_npool _ _ _ _ HokO).
    pose proof (tk_pool_max _ _ _ _ HokO). rewrite <-(size_dom mO), (group_dom _ _ _ HgO).
    rewrite <-list_fmap_compose. unfold e_obj.
    pose proof (size_fmap_le (λ o : loc, N.pos o) ((fst ∘ snd) <$> L)) as Hle.
    rewrite <-list_fmap_compose in Hle.
    change ((λ o, N.pos o) ∘ (fst ∘ snd)) with (λ e : entry, N.pos e.2.1) in Hle. lia.
Qed.

(** C8: however long the module runs and whatever is stored, expired and
    purged, as long as Varnish keeps its side ([allowed]; this admits every
    order of loads and discards with a discard for a loaded VCL only, and
    purges from any task): unless the run comes to one of the two operations
    that fail, no assertion fails, no freed object is touched and every loop
    ends; the results are those of the abstract index; and nothing leaks:
    beyond one xkey_oc per tagging and one head per tagged object and per key
    in use, at most POOL_MAX of each kind are allocated.  A run that comes to
    a purge without a client request stops in that assertion, and one that
    discards the last VCL after an object was tagged is undefined there. *)
Theorem xkey_safe ops cores :
  (∀ k, length (SHA256 k) = DIGEST_LEN) →
  allowed SHA256 exp_rearm ops (spec_boot cores) →
  match run_fails SHA256 exp_rearm ops (spec_boot cores) with
  | Some f => fails_with f (run_ops SHA256 exp_rearm ops (xkey_boot (T1:=T1) (T2:=T2) cores))
  | None =>
      let '(rs, s) := spec_run SHA256 exp_rearm ops (spec_boot cores) in
      ∃ st, run_ops SHA256 exp_rearm ops (xkey_boot (T1:=T1) (T2:=T2) cores) = Ret (rs, st) ∧
        sim st s ∧
        (Z.of_nat (size (ocs st)) ≤ Z.of_nat (length (tags s)) + POOL_MAX)%Z ∧
        (Z.of_nat (size (t_heap (hashes st))) ≤
           Z.of_nat (size (list_to_set (tags s).*2 : gset bytes)) + POOL_MAX)%Z ∧
        (Z.of_nat (size (t_heap (objects st))) ≤
           Z.of_nat (size (list_to_set (tags s).*1 : gset loc)) + POOL_MAX)%Z
  end.
Proof.
  intros HSHA Hall. destruct (run_fails _ _ ops _) eqn:Hf;
    [eapply run_fails_as; [done|apply sim_boot|done|done]|].
  pose proof (wp_run_ops SHA256 exp_rearm HSHA ops _ _ (sim_boot cores) Hall Hf) as Hwp.
  apply wp_run in Hwp as (rs & st & Hrun & Hs).
  destruct (spec_run _ _ ops (spec_boot cores)) as [rs' s]. destruct Hs as [-> Hsim].
  exists st. split; [done|]. split; [done|]. by apply rep_sizes, (sim_rep _ _ Hsim).
Qed.

(** C14: a hard purge from a client request calls EXP_Rearm with ttl, grace and keep 0 at the
    object's own t_origin, once for each hit on an object that is not busy
    (so more than once for an object with several of the named keys), in
    the order of the words and of tagging; it returns the number of these
    calls; it leaves the other objects and the index alone. *)
Theorem hard_purge_exact now key st A :
  (∀ k, length (SHA256 k) = DIGEST_LEN) →
  (∀ c n t g k, oc_busy (exp_rearm c n t g k) = oc_busy c) →
  (∀ c n t g k, t_origin (exp_rearm c n t g k) = t_origin c) →
  rep st A → alive st A →
  wp (vmod_purge SHA256 exp_rearm (Some true) now (Some key)) (λ n st',
    rep st' A ∧ ∃ calls, rearmed st' = rearmed st ++ calls ∧ n = Z.of_nat (length calls) ∧
      Forall2 (hard_call (objcores st))
        (filter (λ o, idle (objcores st) o = true) (hits SHA256 A key)) calls ∧
      (∀ o, (∀ w, w ∈ words key → (o, SHA256 w) ∉ A) → objcores st' !! o = objcores st !! o) ∧
      (∀ o, idle (objcores st) o = false → objcores st' !! o = objcores st !! o)) st.
Proof.
  intros HSHA Hbusy Horig Hr Ha. unfold vmod_purge.
  eapply (wp_purge SHA256 HSHA exp_rearm); [exact Hr|exact Ha|]. intros st' s Hr' ->.
  split; [done|]. unfold s in *. clear s.
  destruct (hard_purge_trace exp_rearm now (hits SHA256 A key) (objcores st) (rearmed st) 0
    Hbusy Horig) as (calls & cores' & -> & Hcalls & Hkept).
  exists calls. simpl. split_and!; [done|done|done| |].
  - intros o Hn. apply Hkept. rewrite elem_of_hits. intros [(w & Hw & Hin) _]. by eapply Hn.
  - intros o Hn. apply Hkept. intros [_ ?]. congruence.
Qed.

(** C15: a soft purge from a client request calls EXP_Rearm with ttl 0 and the object's own grace
    and keep, once for each object that has one of the named keys, is not
    busy and is not stale already (EXP_Rearm at [now] with ttl 0 makes an
    object stale, its documented effect); it returns the number of these
    objects; purging again at the same time does nothing and returns 0. *)
Theorem soft_purge_exact now key st A :
  (∀ k, length (SHA256 k) = DIGEST_LEN) →
  (∀ o c g k, objcores st !! o = Some c → fresh now (objcores st) o = true →
     let c' := exp_rearm c now dzero g k in
     dleb (ttl c') (dsub now (t_origin c')) = true) →
  rep st A → alive st A →
  wp (vmod_softpurge SHA256 exp_rearm (Some true) now (Some key)) (λ n st',
    rep st' A ∧ ∃ calls, rearmed st' = rearmed st ++ calls ∧ n = Z.of_nat (length calls) ∧
      NoDup (r_oc <$> calls) ∧
      (∀ o, o ∈ r_oc <$> calls ↔
         (∃ w, w ∈ words key ∧ (o, SHA256 w) ∈ A) ∧ fresh now (objcores st) o = true) ∧
      Forall (λ r, soft_call now (objcores st) (r_oc r) r) calls ∧
      wp (vmod_softpurge SHA256 exp_rearm (Some true) now (Some key)) (λ n' st'', n' = 0%Z ∧ st'' = st') st') st.
Proof.
  intros HSHA Hex Hr Ha. unfold vmod_softpurge.
  eapply (wp_purge SHA256 HSHA exp_rearm); [exact Hr|exact Ha|]. intros st' s Hr' ->.
  split; [done|]. unfold s in *. clear s.
  pose proof (spec_purge_dom exp_rearm now true (hits SHA256 A key)
    (objcores st, rearmed st, 0%Z)) as Hdom.
  destruct (soft_purge_trace exp_rearm now (hits SHA256 A key) (objcores st) (rearmed st) 0 Hex)
    as (calls & cores' & Heq & Hnd & Hcalls & Hsoft & Hkept & Hstale). rewrite Heq in *.
  exists calls. simpl in *. split_and!; [done|done|done| |done|].
  - intros o. by rewrite Hcalls, elem_of_hits.
  - eapply (wp_purge SHA256 HSHA exp_rearm); [exact Hr'| |].
    + intros o d Hin. simpl. apply elem_of_dom. rewrite Hdom. apply elem_of_dom. by eapply Ha.
    + intros st'' s _ ->. simpl in s.
      enough (s = (cores', rearmed st ++ calls, 0%Z)) as ->; [done|]. unfold s, spec_purge.
      assert (∀ o, o ∈ hits SHA256 A key → fresh now cores' o = false) as Hf.
      { intros o Ho. destruct (fresh now cores' o) eqn:Hf; [|done]. by apply Hstale in Hf. }
      clear -Hf. induction (hits SHA256 A key) as [|o l IH]; [done|]. cbn [foldl].
      pose proof (purge_one_soft exp_rearm now cores' (rearmed st ++ calls) 0 o) as H1.
      rewrite (Hf o) in H1 by left. rewrite H1. apply IH. intros o' Ho'. apply Hf. by right.
Qed.

(** A hard purge counts taggings, not objects: an object stored with a
    header that names the key [w] twice is purged twice, and purge returns
    2 for this one object. *)
Theorem purge_counts_twice now w o c st A :
  (∀ k, length (SHA256 k) = DIGEST_LEN) →
  (∀ c n t g k, oc_busy (exp_rearm c n t g k) = oc_busy c) →
  (∀ c n t g k, t_origin (exp_rearm c n t g k) = t_origin c) →
  rep st A → alive st A → is_word w → (∀ o', (o', SHA256 w) ∉ A) →
  objcores st !! o = Some c → oc_busy c = false →
  wp (xkey_cb SHA256 false o [str "xkey: " ++ w ++ str " " ++ w] OEV_INSERT;;;
      vmod_purge SHA256 exp_rearm (Some true) now (Some w)) (λ n _, n = 2%Z) st.
Proof.
  intros HSHA Hbusy Horig Hr Ha Hw Hnew Hc Hidle. unfold xkey_cb. wp_go.
  apply wp_get_objcore. exists c. split; [done|]. wp_go; [done|].
  eapply wp_cb_insert; [done|exact Hr|by eexists|]. intros st1 Hr1 (_ & _ & Hc1 & Ht1 & _) _.
  assert (taggings SHA256 o [str "xkey: " ++ w ++ str " " ++ w] =
          [(o, SHA256 w); (o, SHA256 w)]) as Htag.
  { assert (header_keys (str "xkey: " ++ w ++ str " " ++ w) = words (str " " ++ w ++ str " " ++ w))
      as Hk by reflexivity.
    assert (is_blank (str " ")) as Hb by (split; [done|by apply Forall_singleton]).
    unfold taggings. cbn [fmap list_fmap concat]. rewrite Hk, app_nil_r.
    by rewrite words_lead, words_sep, words_word. }
  rewrite Htag in Hr1. wp_go.
  eapply (wp_purge SHA256 HSHA exp_rearm); [exact Hr1| |].
  - intros o' d [Hin|Hin]%elem_of_app; rewrite Hc1; [by eapply Ha|].
    assert (o' = o) as -> by set_solver. by eexists.
  - intros st2 s _ _. unfold s. rewrite Hc1, Ht1.
    destruct (hard_purge_trace exp_rearm now
      (hits SHA256 (A ++ [(o, SHA256 w); (o, SHA256 w)]) w) (objcores st) (rearmed st) 0
      Hbusy Horig) as (calls & cores' & -> & Hcalls & _). simpl.
    apply Forall2_length in Hcalls. rewrite <-Hcalls.
    unfold hits. rewrite words_word by done. cbn [fmap list_fmap concat]. rewrite app_nil_r.
    assert ((filter (λ p : loc * bytes, p.2 = SHA256 w)
      (A ++ [(o, SHA256 w); (o, SHA256 w)])).*1 = [o; o]) as ->.
    { rewrite filter_app, (filter_none _ A).
      - by rewrite !filter_cons_True by done.
      - intros [o' d] Hin Hd. simpl in Hd. subst d. by eapply Hnew. }
    rewrite !filter_cons_True by (unfold idle; by rewrite Hc, Hidle). done.
Qed.

(** How a string is laid out: blanks in front, then words, each with the
    blanks behind it, at least one unless the word is the last. *)
Fixpoint laid_out (l : list (bytes * bytes)) : Prop :=
  match l with
  | [] => True
  | (w, b) :: l' =>
      is_word w ∧ Forall (λ c, isblank c = true) b ∧ (l' ≠ [] → b ≠ []) ∧ laid_out l'
  end.
Definition layout (t lead : bytes) (l : list (bytes * bytes)) : Prop :=
  Forall (λ c, isblank c = true) lead ∧ laid_out l ∧
  t = lead ++ concat ((λ p, p.1 ++ p.2) <$> l).
Lemma layout_exists t : ∃ lead l, layout t lead l.
Proof.
  induction t as [|c t (lead & l & Hlead & Hl & ->)]; [by exists [], []|].
  destruct (isblank c) eqn:Hc; [by exists (c :: lead), l; split; [constructor|]|].
  assert (∀ w, Forall (λ c, isblank c = false) w → is_word (c :: w)) as Hword by (by split; [|constructor]).
  destruct lead as [|b lead]; [destruct l as [|[w b] l]|].
  - exists [], [([c], [])]. unfold layout. cbn [laid_out]. split_and!; try done; by apply Hword.
  - exists [], ((c :: w, b) :: l). destruct Hl as ([_ Hw] & ? & ? & ?). unfold layout. cbn [laid_out]. split_and!; try done; by apply Hword.
  - exists [], (([c], b :: lead) :: l). unfold layout. cbn [laid_out]. split_and!; try done; by apply Hword.
Qed.
Lemma words_laid_out l : laid_out l → words (concat ((λ p, p.1 ++ p.2) <$> l)) = l.*1.
Proof.
  induction l as [|[w b] l IH]; [done|]. intros (Hw & Hb & Hne & Hl). rewrite !fmap_cons. cbn [concat fst snd].
  rewrite <-(assoc_L (++)). destruct b as [|c b].
  - destruct l as [|p l]; [|by destruct Hne]. simpl. rewrite app_nil_r. by apply words_word.
  - rewrite words_sep, IH by done. done.
Qed.

Lemma foldM_collect {St} (ws acc : list bytes) (st : St) :
  foldM ws acc (λ tok acc, mret (M:=M St) (acc ++ [tok])) st = Ret (acc ++ ws, st).
Proof.
  revert acc. induction ws as [|w ws IH]; intros acc; cbn [foldM]; [by rewrite app_nil_r|].
  unfold mbind, M_bind, mret at 1, M_ret. rewrite IH. by rewrite <-(assoc_L (++)).
Qed.

(** C36: the token loop cuts a string at its blanks (space and tab) and
    nowhere else.  Every string is laid out as blanks, words and the blanks
    between and after them (a word has no blank, and two words have at least
    one between them), and the tokens are those words, in order. *)
Theorem tokens_exact (t : bytes) st :
  let collect t := tok_loop (S (length t)) t [] (λ tok acc, mret (M:=M (xkey T1 T2)) (acc ++ [tok])) in
  (∃ lead l, layout t lead l) ∧
  ∀ lead l, layout t lead l → collect t st = Ret (l.*1, st).
Proof.
  cbv zeta. split; [apply layout_exists|]. intros lead l (Hlead & Hl & Ht).
  rewrite tok_loop_words by lia. rewrite (foldM_collect (words t) []). do 2 f_equal.
  rewrite Ht. destruct lead as [|c lead]; [by apply words_laid_out|].
  rewrite words_lead by done. by apply words_laid_out.
Qed.
End properties.

(** ** Concrete runs, on the red-black trees of vtree.h *)
From S2P Require Import VTree.

Module Examples.
Definition seconds (n : Z) : double := d_of_Z n.
(** A digest of the right length, and EXP_Rearm as Varnish documents it. *)
Definition sha (s : bytes) : bytes := take DIGEST_LEN (s ++ replicate DIGEST_LEN "0"%char).
Definition exp_rearm (c : objcore) (now t g k : double) : objcore :=
  Objcore (oc_busy c) (t_origin c) (dsub (dadd now t) (t_origin c)) g k.
Lemma sha_length s : length (sha s) = DIGEST_LEN.
Proof. unfold sha. rewrite length_take, length_app, length_replicate. lia. Qed.

(** Object 1 has the keys a and b, object 2 the key b; object 3 is busy. *)
Definition core (n : Z) : objcore := Objcore false (seconds n) (seconds 60) (seconds 5) (seconds 7).
Definition cores : gmap loc objcore :=
  {[ 1%positive := core 10; 2%positive := core 20;
     3%positive := Objcore true (seconds 30) (seconds 60) dzero dzero ]}.
Definition ops : list xop :=
  [Op_event VCL_EVENT_LOAD true; Op_insert 1 [str "xkey: a b"]; Op_insert 2 [str "X-HashTwo: b"];
   Op_insert 3 [str "xkey: b"]].
Definition boot : xkey (rbtree bytes) (rbtree uintptr) := xkey_boot cores.
Definition after : xkey (rbtree bytes) (rbtree uintptr) :=
  final sha exp_rearm ops boot.
Definition spec_after : xspec := (spec_run sha exp_rearm ops (spec_boot cores)).2.

Lemma ops_allowed : allowed sha exp_rearm ops (spec_boot cores).
Proof. split_and!; simpl; try done; by eexists. Qed.
Lemma after_sim : sim after spec_after.
Proof. exact (final_sim sha exp_rearm sha_length ops boot _ (sim_boot cores) ops_allowed eq_refl). Qed.
(** A module that is loaded and discarded, twice, purged from a client
    request and from a backend task. *)
Definition unused_ops : list xop :=
  [Op_event VCL_EVENT_LOAD true; Op_event VCL_EVENT_DISCARD true; Op_event VCL_EVENT_LOAD true;
   Op_purge (Some true) (seconds 50) (Some (str "a")) false; Op_event VCL_EVENT_DISCARD true].
Example unused_ops_return : run_fails sha exp_rearm unused_ops (spec_boot cores) = None.
Proof. vm_compute. reflexivity. Qed.
Example used_ops_fail :
  run_fails sha exp_rearm (ops ++ [Op_event VCL_EVENT_DISCARD true]) (spec_boot cores) =
    Some Undefined_behaviour ∧
  run_fails sha exp_rearm (ops ++ [Op_purge None (seconds 50) (Some (str "a")) true]) (spec_boot cores) =
    Some Assertion.
Proof. vm_compute. done. Qed.
Lemma cores_sane now o c g k : (now = seconds 50) → cores !! o = Some c →
  let c' := exp_rearm c now dzero g k in
  dleb (ttl c') (dsub now (t_origin c')) = true.
Proof.
  intros -> Hc. unfold cores in Hc.
  apply lookup_insert_Some in Hc as [[_ <-]|[_ Hc]]; [vm_compute; reflexivity|].
  apply lookup_insert_Some in Hc as [[_ <-]|[_ Hc]]; [vm_compute; reflexivity|].
  apply lookup_singleton_Some in Hc as [_ <-]. vm_compute. reflexivity.
Qed.
End Examples.
Import Examples.

Lemma operations_refine_index_witness :
  let op := Op_expire 1 in
  match op_fails op spec_after with
  | None =>
      wp (run_op sha exp_rearm op)
         (λ r st', let '(r', s') := spec_step sha exp_rearm op spec_after in r = r' ∧ sim st' s') after
  | Some f => fails_with f (run_op sha exp_rearm op after)
  end.
Proof.
  apply (operations_refine_index sha exp_rearm (Op_expire 1) after spec_after sha_length after_sim).
  vm_compute. by eexists.
Defined.

Lemma xkey_safe_witness :
  match run_fails sha exp_rearm ops (spec_boot cores) with
  | Some f => fails_with f (run_ops sha exp_rearm ops boot)
  | None =>
      let '(rs, s) := spec_run sha exp_rearm ops (spec_boot cores) in
      ∃ st, run_ops sha exp_rearm ops boot = Ret (rs, st) ∧ sim st s ∧
        (Z.of_nat (size (ocs st)) ≤ Z.of_nat (length (tags s)) + POOL_MAX)%Z ∧
        (Z.of_nat (size (t_heap (hashes st))) ≤
           Z.of_nat (size (list_to_set (tags s).*2 : gset bytes)) + POOL_MAX)%Z ∧
        (Z.of_nat (size (t_heap (objects st))) ≤
           Z.of_nat (size (list_to_set (tags s).*1 : gset loc)) + POOL_MAX)%Z
  end.
Proof. exact (xkey_safe sha exp_rearm ops cores sha_length ops_allowed). Defined.

Lemma discard_exact_witness :
  if bool_decide (tags spec_after = [] ∧ n_oc after = 0%Z)
  then ∃ st', vmod_event VCL_EVENT_DISCARD true after = Ret (0%Z, st') ∧
         n_init st' = 0%Z ∧ xkey_cb_handle st' = false ∧
         t_heap (hashes st') = ∅ ∧ t_heap (objects st') = ∅ ∧ ocs st' = ∅ ∧
         t_npool (hashes st') = t_npool (hashes after) ∧
         t_npool (objects st') = t_npool (objects after)
  else ∃ w, vmod_event VCL_EVENT_DISCARD true after = Undef w.
Proof.
  apply (discard_exact true after (tags spec_after)); [apply after_sim|vm_compute; reflexivity..].
Defined.

Lemma hard_purge_exact_witness :
  wp (vmod_purge sha exp_rearm (Some true) (seconds 50) (Some (str "a b"))) (λ n st',
    rep st' (tags spec_after) ∧ ∃ calls, rearmed st' = rearmed after ++ calls ∧
      n = Z.of_nat (length calls) ∧
      Forall2 (hard_call (objcores after))
        (filter (λ o, idle (objcores after) o = true) (hits sha (tags spec_after) (str "a b"))) calls ∧
      (∀ o, (∀ w, w ∈ words (str "a b") → (o, sha w) ∉ tags spec_after) →
         objcores st' !! o = objcores after !! o) ∧
      (∀ o, idle (objcores after) o = false → objcores st' !! o = objcores after !! o)) after.
Proof.
  apply (hard_purge_exact sha exp_rearm (seconds 50) (str "a b") after (tags spec_after));
    [exact sha_length|done|done|apply after_sim|apply after_sim].
Defined.

Lemma soft_purge_exact_witness :
  wp (vmod_softpurge sha exp_rearm (Some true) (seconds 50) (Some (str "a b"))) (λ n st',
    rep st' (tags spec_after) ∧ ∃ calls, rearmed st' = rearmed after ++ calls ∧
      n = Z.of_nat (length calls) ∧ NoDup (r_oc <$> calls) ∧
      (∀ o, o ∈ r_oc <$> calls ↔
         (∃ w, w ∈ words (str "a b") ∧ (o, sha w) ∈ tags spec_after) ∧
         fresh (seconds 50) (objcores after) o = true) ∧
      Forall (λ r, soft_call (seconds 50) (objcores after) (r_oc r) r) calls ∧
      wp (vmod_softpurge sha exp_rearm (Some true) (seconds 50) (Some (str "a b")))
        (λ n' st'', n' = 0%Z ∧ st'' = st') st') after.
Proof.
  apply (soft_purge_exact sha exp_rearm (seconds 50) (str "a b") after (tags spec_after));
    [exact sha_length| |apply after_sim|apply after_sim].
  intros o c g k Hc _. by apply (cores_sane _ o).
Defined.

Lemma purge_counts_twice_witness :
  wp (xkey_cb sha false 1 [str "xkey: " ++ str "k" ++ str " " ++ str "k"] OEV_INSERT;;;
      vmod_purge sha exp_rearm (Some true) (seconds 50) (Some (str "k"))) (λ n _, n = 2%Z) boot.
Proof.
  apply (purge_counts_twice sha exp_rearm (seconds 50) (str "k") 1 (core 10) boot []);
    try done; [exact sha_length|apply sim_boot|by intros o d ?%elem_of_nil|
    by split; [|apply Forall_singleton]|set_solver].
Defined.

Lemma tokens_exact_witness :
  let collect t := tok_loop (S (length t)) t []
    (λ tok acc, mret (M:=M (xkey (rbtree bytes) (rbtree uintptr))) (acc ++ [tok])) in
  ((∃ lead l, layout (str " a  b ") lead l) ∧
   ∀ lead l, layout (str " a  b ") lead l → collect (str " a  b ") boot = Ret (l.*1, boot)) ∧
  collect (str " a  b ") boot = Ret ([str "a"; str "b"], boot).
Proof.
  split; [exact (tokens_exact (str " a  b ") boot)|].
  apply (proj2 (tokens_exact (str " a  b ") boot) (str " ") [(str "a", str "  "); (str "b", str " ")]).
  split_and!; try done; repeat constructor; done.
Defined.
