(* ===== verification/XKeyThreads.v ===== *)
(** * vmod_xkey: the callbacks and purges of many threads

    The module has one mutex.  A purge and the removal of an object hold it
    from start to end, but xkey_cb_insert takes and releases it for every key
    of the object's headers, so that the calls of other threads come in
    between.  Here a call is the list of its locked regions, and the regions
    of the threads are run in any order.  What reading the headers does
    between two regions does not touch the module's data. *)
From S2P Require Import Prelude CStr TreeSpec Double VTree XHeads XKey.

(** ** The callback built on enum exp_event_e

    The other branch of HAVE_ENUM_EXP_EVENT_E: the same two handlers for
    other event numbers. *)
Inductive exp_event := EXP_INSERT | EXP_INJECT | EXP_REMOVE | EXP_OTHER.
Section exp_events.
Context {T1 T2 : Type} `{!OrdTree bytes T1, !OrdTree uintptr T2}.
Context (SHA256 : bytes → bytes).

Definition xkey_cb_exp (priv : bool) (objcore : loc) (hdrs : list bytes) (event : exp_event)
    : M (xkey T1 T2) unit :=
  _ ← get_objcore objcore;
  assertM (negb priv) "AZ(priv)";;;
  match event with
  | EXP_INSERT | EXP_INJECT => xkey_cb_insert SHA256 objcore hdrs
  | EXP_REMOVE => xkey_cb_remove objcore
  | EXP_OTHER => panic "WRONG(enum exp_event_e)"
  end.
Lemma xkey_cb_exp_same objcore hdrs :
  (∀ priv ev, ev = EXP_INSERT ∨ ev = EXP_INJECT →
     xkey_cb_exp priv objcore hdrs ev = xkey_cb SHA256 priv objcore hdrs OEV_INSERT) ∧
  (∀ priv, xkey_cb_exp priv objcore hdrs EXP_REMOVE = xkey_cb SHA256 priv objcore hdrs OEV_EXPIRE).
Proof. split; [by intros priv ev [-> | ->]|done]. Qed.
End exp_events.

(** ** Locked regions *)
Inductive region :=
| Locked_insert (o : loc) (d : bytes)   (* lock; xkey_insert; unlock *)
| Locked (op : xop).                    (* a call that holds the mutex throughout *)

Section regions.
Context (SHA256 : bytes → bytes).
Context (exp_rearm : objcore → double → double → double → double → objcore).

Definition regions_of (op : xop) : list region :=
  match op with
  | Op_insert o hdrs => (λ k, Locked_insert o (SHA256 k)) <$> concat (header_keys <$> hdrs)
  | op => [Locked op]
  end.
Definition spec_region (r : region) (s : xspec) : xspec :=
  match r with
  | Locked_insert o d => Xspec (tags s ++ [(o, d)]) (s_cores s) (s_trace s) (s_init s) (s_handle s) true
  | Locked op => (spec_step SHA256 exp_rearm op s).2
  end.

Section execution.
Context {T1 T2 : Type} `{!OrdTree bytes T1, !OrdTree uintptr T2}.
Definition run_region (r : region) : M (xkey T1 T2) Z :=
  match r with
  | Locked_insert o d => xkey_insert o d;;; mret 0%Z
  | Locked op => run_op SHA256 exp_rearm op
  end.
(** The scheduler picks a thread, which runs its next region; a thread that
    is done is passed over.  The answer is what the threads have left, and
    the regions in the order they ran. *)
Fixpoint run_schedule (schedule : list nat) (threads : list (list region))
    : M (xkey T1 T2) (list (list region) * list region) :=
  match schedule with
  | [] => mret (threads, [])
  | i :: schedule =>
      match threads !! i with
      | Some (r :: rest) =>
          run_region r;;;
          '(rest, ran) ← run_schedule schedule (<[i := rest]> threads);
          mret (rest, r :: ran)
      | _ => run_schedule schedule threads
      end
  end.
End execution.

(** The calls of worker threads, on objects that are live throughout; the
    purges are those of client requests. *)
Definition worker_call (objects : gset loc) (op : xop) : Prop :=
  match op with
  | Op_insert o _ | Op_expire o => o ∈ objects
  | Op_purge req _ _ _ => has_request req = true
  | _ => False
  end.
Definition region_ok (objects : gset loc) (r : region) : Prop :=
  match r with
  | Locked_insert o d => o ∈ objects ∧ length d = DIGEST_LEN
  | Locked (Op_insert _ _) => False
  | Locked op => worker_call objects op
  end.

(** ** One object's taggings *)
Definition of_object (o : loc) (A : index) : index := filter (λ p, p.1 = o) A.
(** What a region does to them. *)
Definition tag_step (o : loc) (A : index) (r : region) : index :=
  match r with
  | Locked_insert o' d => if decide (o' = o) then A ++ [(o', d)] else A
  | Locked (Op_expire o') => if decide (o' = o) then [] else A
  | Locked _ => A
  end.
Definition touches (o : loc) (r : region) : Prop :=
  match r with
  | Locked_insert o' _ | Locked (Op_expire o') => o' = o
  | Locked _ => False
  end.
Definition call_touches (o : loc) (op : xop) : Prop :=
  match op with Op_insert o' _ | Op_expire o' => o' = o | _ => False end.
End regions.

Section proofs.
Context {T1 T2 : Type} `{!OrdTree bytes T1, !OrdTreeLaws memcmp}.
Context `{!OrdTree uintptr T2, !OrdTreeLaws ptrcmp}.
Context (SHA256 : bytes → bytes) (HSHA : ∀ k, length (SHA256 k) = DIGEST_LEN).
Context (exp_rearm : objcore → double → double → double → double → objcore).
Implicit Types (st : xkey T1 T2) (s : xspec) (o : loc) (r : region) (A : index).

Lemma regions_ok objects op : worker_call objects op → Forall (region_ok objects) (regions_of SHA256 op).
Proof using HSHA.
  intros Hop. destruct op as [e h|o hdrs|o|req now key soft|o c|o]; try done; cbn [regions_of].
  - apply Forall_fmap, Forall_forall. intros k _. split; [exact Hop|apply HSHA].
  - by repeat constructor.
  - by repeat constructor.
Qed.
Lemma spec_region_cores objects r s : region_ok objects r → dom (s_cores s) = objects →
  dom (s_cores (spec_region SHA256 exp_rearm r s)) = objects.
Proof.
  intros Hr Hd. destruct r as [o d|[e h|o hdrs|o|req now key soft|o c|o]]; simpl in *; try done.
  pose proof (spec_purge_dom exp_rearm now soft (hits SHA256 (tags s) (default [] key))
    (s_cores s, s_trace s, 0%Z)) as Hp. simpl in Hp.
  destruct (spec_purge _ _ _ _ _) as [[cores trace] n]. simpl in *. congruence.
Qed.
Lemma spec_region_tags objects r s o : region_ok objects r →
  of_object o (tags (spec_region SHA256 exp_rearm r s)) = tag_step o (of_object o (tags s)) r.
Proof.
  intros Hr. destruct r as [o' d|[e h|o' hdrs|o'|req now key soft|o' c|o']]; simpl in *; try done.
  - unfold of_object. rewrite filter_app, filter_cons. simpl. case_decide; [done|]. by rewrite app_nil_r.
  - unfold of_object. rewrite list_filter_filter. case_decide as Ho.
    + apply filter_none. intros p _ [H1 H2]. congruence.
    + apply filter_ext_in. intros p _. split; [tauto|]. intros ->. by split.
  - by destruct (spec_purge _ _ _ _ _) as [[cores trace] n].
Qed.

(** A region implements its step on the index. *)
Lemma wp_region objects r st s :
  sim st s → dom (s_cores s) = objects → region_ok objects r →
  wp (run_region SHA256 exp_rearm r) (λ _ st', sim st' (spec_region SHA256 exp_rearm r s)) st.
Proof using HSHA OrdTreeLaws0 OrdTreeLaws1.
  intros Hsim Hd Hr. destruct r as [o d|op]; cbn [run_region spec_region].
  - destruct Hr as [Ho Hlen]. rewrite <-Hd, elem_of_dom in Ho.
    destruct Hsim as [Hrep Ha Hc Ht Hi Hh Hl Htg]. wp_go.
    eapply wp_insert; [exact Hrep|exact Hlen|by rewrite Hc|]. intros st' Hr' (Hi' & Hh' & Hc' & Ht' & Ho').
    wp_go. split; simpl; try congruence; try done;
      [|by eapply rep_tagged; [exact Hr'|]; intros [_ ?]%app_nil].
    intros o' d' [Hin|Hin]%elem_of_app; rewrite Hc'; [by eapply Ha|].
    apply list_elem_of_singleton in Hin. injection Hin as -> ->. by rewrite Hc.
  - eapply wp_mono; [apply (wp_xk_op SHA256 exp_rearm HSHA op st s Hsim)|].
    + destruct op; simpl in *; try done. by rewrite <-Hd, elem_of_dom in Hr.
    + destruct op; simpl in *; try done. by rewrite Hr.
    + intros v st'. destruct (spec_step _ _ _ _) as [v' s']. by intros [_ ?].
Qed.

Lemma wp_run_schedule objects schedule threads st s :
  sim st s → dom (s_cores s) = objects → Forall (Forall (region_ok objects)) threads →
  wp (run_schedule SHA256 exp_rearm schedule threads) (λ res st',
    sim st' (foldl (flip (spec_region SHA256 exp_rearm)) s res.2) ∧
    Forall (region_ok objects) res.2 ∧
    ∀ o i, (∀ j rs, threads !! j = Some rs → j ≠ i → Forall (λ r, ¬ touches o r) rs) →
      foldl (tag_step o) (of_object o (tags (foldl (flip (spec_region SHA256 exp_rearm)) s res.2)))
        (default [] (res.1 !! i)) =
      foldl (tag_step o) (of_object o (tags s)) (default [] (threads !! i))) st.
Proof using HSHA OrdTreeLaws0 OrdTreeLaws1.
  revert threads st s. induction schedule as [|k schedule IH]; intros threads st s Hsim Hd Hall; cbn [run_schedule].
  { apply wp_ret. by split_and!. }
  destruct (threads !! k) as [[|r rest]|] eqn:Hk; [by apply IH| |by apply IH].
  pose proof (proj1 (Forall_lookup _ _) Hall _ _ Hk) as Hrs. apply Forall_cons in Hrs as [Hr Hrest].
  apply wp_bind. eapply wp_mono; [by eapply wp_region|]. intros v st1 Hsim1. cbn beta in Hsim1.
  apply wp_bind. eapply wp_mono; [eapply (IH (<[k:=rest]> threads)); [exact Hsim1|by apply spec_region_cores|]|].
  { apply Forall_insert; done. }
  intros [rest' ran] st2 (Hsim2 & Hran & Hobj). apply wp_ret. cbn [fst snd] in *.
  split; [exact Hsim2|]. split; [by constructor|]. intros o i Hother. cbn [foldl]. rewrite Hobj.
  - rewrite (spec_region_tags objects) by done. destruct (decide (i = k)) as [->|Hne].
    + rewrite list_lookup_insert_eq by (by eapply lookup_lt_Some). by rewrite Hk.
    + rewrite list_lookup_insert_ne by done. f_equal.
      pose proof (Hother k _ Hk (not_eq_sym Hne)) as Hnt. apply Forall_cons in Hnt as [Hnt _].
      destruct r as [o' d|[]]; simpl in *; try done; by rewrite decide_False.
  - intros j rs Hj Hji. destruct (decide (j = k)) as [->|Hne].
    + rewrite list_lookup_insert_eq in Hj by (by eapply lookup_lt_Some). injection Hj as <-.
      pose proof (Hother k _ Hk Hji) as Hnt. by apply Forall_cons in Hnt as [_ ?].
    + rewrite list_lookup_insert_ne in Hj by done. by eapply Hother.
Qed.

(** The regions of a call, run without interruption, are the call. *)
Lemma spec_regions_of op s :
  foldl (flip (spec_region SHA256 exp_rearm)) s (regions_of SHA256 op) = (spec_step SHA256 exp_rearm op s).2.
Proof.
  destruct op as [e h|o hdrs|o|req now key soft|o c|o]; try done. cbn [regions_of spec_step snd]. unfold taggings.
  revert s. induction (concat (header_keys <$> hdrs)) as [|k ks IH]; intros [A c t i h tg]; simpl.
  - by rewrite app_nil_r, orb_false_r.
  - rewrite IH. simpl. by rewrite <-(assoc_L (++)), orb_true_r.
Qed.
Lemma regions_untouched o op : ¬ call_touches o op → Forall (λ r, ¬ touches o r) (regions_of SHA256 op).
Proof.
  intros Hn. destruct op as [e h|o' hdrs|o'|req now key soft|o' c|o']; cbn [regions_of]; try (by repeat constructor).
  by apply Forall_fmap, Forall_forall.
Qed.
Lemma program_tags objects o (program : list xop) s :
  Forall (worker_call objects) program →
  foldl (tag_step o) (of_object o (tags s)) (concat (regions_of SHA256 <$> program)) =
  of_object o (tags (spec_run SHA256 exp_rearm program s).2).
Proof using HSHA.
  revert s. induction program as [|op program IH]; intros s Hall; [done|].
  apply Forall_cons in Hall as [Hop Hall]. rewrite fmap_cons. cbn [concat spec_run].
  rewrite foldl_app. replace (foldl (tag_step o) (of_object o (tags s)) (regions_of SHA256 op))
    with (of_object o (tags (spec_step SHA256 exp_rearm op s).2)).
  - rewrite IH by done. destruct (spec_step _ _ op s) as [v s1]. cbn [snd].
    by destruct (spec_run _ _ program s1).
  - rewrite <-spec_regions_of. pose proof (regions_ok objects op Hop) as Hrs. revert s Hrs.
    induction (regions_of SHA256 op) as [|r rs IHr]; intros s Hrs; [done|].
    apply Forall_cons in Hrs as [Hr Hrs]. cbn [foldl]. rewrite IHr by done.
    unfold flip. by rewrite (spec_region_tags objects).
Qed.

(** C4: worker threads, each with its own list of insertions and expirations of
    live objects and purges from client requests, run in any order of their locked regions (an
    insertion is one region for each key, so that other calls come in between
    its keys): no region fails, the module implements the abstract index after
    the same regions in the same order, and an object whose insertions and
    expirations all come from one thread ends, when that thread is done, with
    the taggings the thread's calls give it when they run alone. *)
Theorem interleaved_calls_refine (programs : list (list xop)) schedule st s :
  sim st s → Forall (Forall (worker_call (dom (s_cores s)))) programs →
  wp (run_schedule SHA256 exp_rearm schedule ((λ p, concat (regions_of SHA256 <$> p)) <$> programs))
    (λ res st', let after := foldl (flip (spec_region SHA256 exp_rearm)) s res.2 in
       sim st' after ∧
       ∀ o i p, programs !! i = Some p → res.1 !! i = Some [] →
         (∀ j q, programs !! j = Some q → j ≠ i → Forall (λ op, ¬ call_touches o op) q) →
         of_object o (tags after) = of_object o (tags (spec_run SHA256 exp_rearm p s).2)) st.
Proof using HSHA OrdTreeLaws0 OrdTreeLaws1.
  intros Hsim Hall. eapply wp_mono; [eapply (wp_run_schedule (dom (s_cores s)));
    [exact Hsim|done|]|].
  { apply Forall_fmap. eapply Forall_impl; [exact Hall|]. intros p Hp.
    apply Forall_concat, Forall_fmap. eapply Forall_impl; [exact Hp|]. intros op. apply regions_ok. }
  intros [rest ran] st' (Hsim' & _ & Hobj). cbn [fst snd] in *. split; [exact Hsim'|].
  intros o i p Hp Hdone Hother. specialize (Hobj o i). rewrite Hdone in Hobj. refine (eq_trans (Hobj _) _).
  2: { rewrite list_lookup_fmap, Hp. apply (program_tags (dom (s_cores s))).
       by eapply Forall_lookup_1 in Hall. }
  - intros j rs Hj Hji. rewrite list_lookup_fmap in Hj.
    destruct (programs !! j) as [q|] eqn:Hq; [|done]. injection Hj as <-.
    apply Forall_concat, Forall_fmap. eapply Forall_impl; [by eapply Hother|].
    intros op. apply regions_untouched.
Qed.
End proofs.

Import XKey.Examples.
Lemma interleaved_calls_refine_witness :
  let programs := [[Op_insert 1 [str "xkey: a b"; str "Age: 0"]];
                   [Op_insert 2 [str "xkey: b c"]; Op_purge (Some true) (seconds 1) (Some (str "b")) true; Op_expire 2];
                   [Op_insert 3 [str "X-HashTwo: d"]]] in
  let res := match run_schedule (T1:=rbtree bytes) (T2:=rbtree uintptr) sha exp_rearm [0; 1; 2; 1; 0; 1; 1; 2; 0]
      ((λ p, concat (regions_of sha <$> p)) <$> programs) (xkey_boot cores) with
    Ret (res, _) => res | _ => ([], []) end in
  length res.2 = 7 ∧ res.1 = [[]; []; []] ∧
  wp (run_schedule (T1:=rbtree bytes) (T2:=rbtree uintptr) sha exp_rearm [0; 1; 2; 1; 0; 1; 1; 2; 0]
      ((λ p, concat (regions_of sha <$> p)) <$> programs))
    (λ res st', let after := foldl (flip (spec_region sha exp_rearm)) (spec_boot cores) res.2 in
       sim st' after ∧
       ∀ o i p, programs !! i = Some p → res.1 !! i = Some [] →
         (∀ j q, programs !! j = Some q → j ≠ i → Forall (λ op, ¬ call_touches o op) q) →
         of_object o (tags after) = of_object o (tags (spec_run sha exp_rearm p (spec_boot cores)).2))
    (xkey_boot cores).
Proof.
  split; [vm_compute; reflexivity|]. split; [vm_compute; reflexivity|].
  apply (interleaved_calls_refine sha sha_length exp_rearm); [apply sim_boot|].
  assert (dom (s_cores (spec_boot cores)) = dom cores) as -> by reflexivity.
  repeat constructor; apply (bool_decide_unpack _); vm_compute; exact I.
Defined.
