(* ===== verification/Var.v ===== *)
(** * vmod_var: typed variables

    Models vmod_var.c: the variables of a task (a list of tagged unions on
    the request workspace, behind a PRIV_TASK pointer) and the global string
    variables (a list on the heap, shared by all tasks).  malloc and strdup
    are assumed to succeed; the mutex of the global list makes each of its
    two operations one step. *)
From S2P Require Import Prelude CStr Workspace Double TreeSpec.

(** enum VAR_TYPE *)
Inductive VAR_TYPE := T_STRING | T_INT | T_REAL | T_DURATION | T_IP | T_BACKEND.
#[export] Instance VAR_TYPE_eq_dec : EqDecision VAR_TYPE.
Proof. solve_decision. Defined.

(** The type tag and the union of struct var.  A pointer to workspace
    storage is NULL when the workspace was full; [INDETERMINATE] is what
    WS_Alloc leaves in a new var. *)
Inductive var_value :=
| STRING (s : option bytes)
| INT (i : Z)
| REAL (d : double)
| DURATION (d : double)
| IP (ip : option bytes)
| BACKEND (b : option loc)
| INDETERMINATE.
Record var := Var { var_name : bytes; var_val : var_value }.
Record gvar := Gvar { gvar_name : bytes; gvar_string : option bytes }.

Record var_state := VarState {
  var_head : option (list var);   (* priv->priv: NULL or the var_head's list *)
  global_vars : list gvar;
}.
Definition sizeof_var : Z := 48.  (* LP64 *)

(** The conversion of a VCL_INT to int: the low 32 bits, as a signed number. *)
Definition int_of (z : Z) : Z := ((z + 2 ^ 31) mod 2 ^ 32 - 2 ^ 31)%Z.

Section operations.
Context {W : Type} `{Workspace W}.
Context (vsa_suckaddr_len : Z).
Abbreviation vm := (M (task var_state W)).

Definition set_vh (l : list var) : vm unit :=
  s ← getS; set_priv (VarState (Some l) (global_vars (priv s))).
Definition set_globals (l : list gvar) : vm unit :=
  s ← getS; set_priv (VarState (var_head (priv s)) l).
Definition get_vh : vm (list var) :=
  s ← getS;
  match var_head (priv s) with
  | None => set_vh [];;; mret []
  | Some l => mret l
  end.

Definition vh_get_var (l : list var) (name : bytes) : option (nat * var) :=
  list_find (λ v, var_name v = name) l.
(** The place of the variable in the list. *)
Definition vh_get_var_alloc (l : list var) (name : bytes) : vm nat :=
  match vh_get_var l name with
  | Some (i, _) => mret i
  | None =>
      ok ← ws_call (WS_Alloc sizeof_var);
      assertM ok "AN(v)";;;
      ok ← ws_call (WS_Copy name);
      assertM ok "AN(v->name)";;;
      set_vh (Var name INDETERMINATE :: l);;;
      mret 0
  end.
(** [v->type = ...; v->value... = ...] *)
Definition store_var (i : nat) (x : var_value) : vm unit :=
  l ← get_vh; v ← derefM (l !! i) "struct var"; set_vh (<[i := Var (var_name v) x]> l).

Definition vmod_set_string (name value : option bytes) : vm unit :=
  match name with
  | None => mret tt
  | Some name =>
      l ← get_vh; i ← vh_get_var_alloc l name;
      let value := default [] value in
      ok ← ws_call (WS_Copy value);
      store_var i (STRING (if ok : bool then Some value else None))
  end.
(** VMOD_SET_X *)
Definition vmod_set_x (name : option bytes) (x : var_value) : vm unit :=
  match name with
  | None => mret tt
  | Some name => l ← get_vh; i ← vh_get_var_alloc l name; store_var i x
  end.
Definition vmod_set_int name (value : Z) : vm unit := vmod_set_x name (INT (int_of value)).

(** VMOD_GET_X, and the getters of strings and addresses: [sel] tests the
    type and reads the member of the union. *)
Definition vmod_get_x {A} (sel : var_value → option A) (zero : A) (name : option bytes) : vm A :=
  match name with
  | None => mret zero
  | Some name =>
      l ← get_vh;
      match vh_get_var l name with
      | None => mret zero
      | Some (_, Var _ INDETERMINATE) => undef "indeterminate v->type"
      | Some (_, v) => mret (default zero (sel (var_val v)))
      end
  end.
Definition vmod_get_string := vmod_get_x (λ v, match v with STRING s => Some s | _ => None end) None.
Definition vmod_get_int := vmod_get_x (λ v, match v with INT i => Some i | _ => None end) 0%Z.
Definition vmod_set := vmod_set_string.
Definition vmod_get := vmod_get_string.


Definition find_gvar (l : list gvar) (name : bytes) : option (nat * gvar) :=
  list_find (λ v, gvar_name v = name) l.
Definition vmod_global_set (name value : option bytes) : vm unit :=
  match name with
  | None => mret tt
  | Some name =>
      s ← getS;
      let l := global_vars (priv s) in
      match find_gvar l name with
      | Some (i, _) => set_globals (Gvar name value :: delete i l)
      | None => set_globals (Gvar name value :: l)
      end
  end.
Definition vmod_global_get (name : option bytes) : vm (option bytes) :=
  s ← getS;
  match name, global_vars (priv s) with
  | None, [] => mret None
  | None, _ :: _ => undef "strcmp(v->name, NULL)"
  | Some name, l =>
      match find_gvar l name with
      | Some (_, Gvar _ (Some v)) =>
          ok ← ws_call (WS_Copy v);
          assertM ok "AN(r)";;;
          mret (Some v)
      | _ => mret None
      end
  end.
End operations.

(** ** The abstract specification: a map of typed values *)
Inductive setting :=
| Set_string (v : option bytes)
| Set_ip (ip : bytes)
| Set_int (i : Z)
| Set_real (d : double)
| Set_duration (d : double)
| Set_backend (b : option loc).
Inductive vop :=
| VSet (name : option bytes) (x : setting)
| VGet (name : option bytes) (t : VAR_TYPE)
| VClear
| VGlobalSet (name value : option bytes)
| VGlobalGet (name : bytes).
Inductive vanswer :=
| RDone
| RPtr (p : option bytes)
| RInt (z : Z)
| RDouble (d : double)
| RBackend (b : option loc).

Record vspec := Vspec {
  locals : gmap bytes var_value;
  globals : gmap bytes (option bytes);
}.

Definition setting_value (x : setting) : var_value :=
  match x with
  | Set_string v => STRING (Some (default [] v))
  | Set_ip ip => IP (Some ip)
  | Set_int i => INT (int_of i)
  | Set_real d => REAL d
  | Set_duration d => DURATION d
  | Set_backend b => BACKEND b
  end.
(** What a getter of type [t] answers when the variable holds [v]. *)
Definition read_as (t : VAR_TYPE) (v : option var_value) : vanswer :=
  match t, v with
  | T_STRING, Some (STRING s) => RPtr s
  | T_IP, Some (IP p) => RPtr p
  | T_INT, Some (INT i) => RInt i
  | T_REAL, Some (REAL d) => RDouble d
  | T_DURATION, Some (DURATION d) => RDouble d
  | T_BACKEND, Some (BACKEND b) => RBackend b
  | (T_STRING | T_IP), _ => RPtr None
  | T_INT, _ => RInt 0
  | (T_REAL | T_DURATION), _ => RDouble dzero
  | T_BACKEND, _ => RBackend None
  end.

Definition spec_step (o : vop) (m : vspec) : vanswer * vspec :=
  match o with
  | VSet None _ => (RDone, m)
  | VSet (Some n) x => (RDone, Vspec (<[n := setting_value x]> (locals m)) (globals m))
  | VGet n t => (read_as t (n ← n; locals m !! n), m)
  | VClear => (RDone, Vspec ∅ (globals m))
  | VGlobalSet None _ => (RDone, m)
  | VGlobalSet (Some n) v => (RDone, Vspec (locals m) (<[n := v]> (globals m)))
  | VGlobalGet n => (RPtr (globals m !! n ≫= id), m)
  end.
Fixpoint spec_run (os : list vop) (m : vspec) : list vanswer * vspec :=
  match os with
  | [] => ([], m)
  | o :: os => let '(a, m) := spec_step o m in let '(l, m) := spec_run os m in (a :: l, m)
  end.

Section refinement.
Context {W : Type} `{WorkspaceLaws W}.
Context (vsa_suckaddr_len : Z).
Implicit Types (s : task var_state W) (m : vspec) (l : list var).


(** The workspace an operation may need. *)
Definition string_cost (v : bytes) : Z := (Z.of_nat (length v) + 1 + ws_slack)%Z.

(** The state's variables and global variables are those of the maps. *)
Definition vars s : list var := default [] (var_head (priv s)).
Definition holds s m : Prop :=
  (∀ n, var_val <$> find_named var_name (vars s) n = locals m !! n) ∧
  (∀ n, gvar_string <$> find_named gvar_name (global_vars (priv s)) n = globals m !! n) ∧
  (∀ n, locals m !! n ≠ Some INDETERMINATE).

Lemma wp_get_vh (Q : list var → task var_state W → Prop) s :
  Q (vars s) (Task (VarState (Some (vars s)) (global_vars (priv s))) (ws s) (vsl s)) →
  wp get_vh Q s.
Proof.
  destruct s as [[[l|] g] w log]; unfold get_vh, vars; intros HQ; wp_go; simpl in *; [done|].
  unfold set_vh. by wp_go.
Qed.

(** What is known once vh_get_var_alloc has found or made the variable [n]:
    only the value under [n] may have become indeterminate. *)
Definition placed s0 (n : bytes) (i : nat) s : Prop :=
  vh_get_var (vars s) n = Some (i, Var n (default INDETERMINATE (var_val <$> find_named var_name (vars s0) n))) ∧
  (∀ n', n' ≠ n → find_named var_name (vars s) n' = find_named var_name (vars s0) n') ∧
  is_Some (var_head (priv s)) ∧ global_vars (priv s) = global_vars (priv s0).

Lemma wp_get_var_alloc {A} n (f : nat → M (task var_state W) A) (Q : A → task var_state W → Prop) s :
  (sizeof_var + ws_slack + string_cost n ≤ ws_free (ws s))%Z →
  (∀ i s', placed s n i s' →
     (ws_free (ws s) - (sizeof_var + ws_slack + string_cost n) ≤ ws_free (ws s'))%Z →
     wp (f i) Q s') →
  wp (l ← get_vh; i ← vh_get_var_alloc l n; f i) Q s.
Proof.
  intros Hroom HQ. unfold string_cost, sizeof_var, ws_slack in *.
  apply wp_bind, wp_get_vh, wp_bind.
  unfold vh_get_var_alloc. destruct (vh_get_var (vars s) n) as [[i [n' x]]|] eqn:Hf.
  - wp_go. apply find_named_Some in Hf as Hf'. destruct Hf' as (Hn & _ & Hname).
    simpl in Hname. subst n'. apply HQ; [|simpl; lia]. unfold placed. simpl. rewrite Hn. simpl.
    split_and!; [done|done|by eexists|done].
  - wp_go; [done|]. intros ok w Hok. unfold ws_slack in *. destruct Hok as [-> Hw]; [unfold sizeof_var; lia|].
    wp_go; [done|]. intros ok w' Hok. unfold ws_slack, sizeof_var in *. destruct Hok as [-> Hw']; [lia|].
    wp_go; [done|]. unfold set_vh. wp_go. apply HQ; [|simpl; lia].
    apply find_named_None in Hf. unfold placed. rewrite Hf. unfold vars at 1. simpl.
    rewrite decide_True by done. split_and!; [done| |by eexists|done].
    intros n' Hn'. unfold vars at 1. simpl. rewrite find_named_cons. simpl. by rewrite decide_False.
Qed.

(** Storing into the variable. *)
Lemma wp_store_var n i x (Q : unit → task var_state W → Prop) s0 s m :
  placed s0 n i s → holds s0 m → x ≠ INDETERMINATE →
  (∀ s', holds s' (Vspec (<[n := x]> (locals m)) (globals m)) → ws s' = ws s → Q tt s') →
  wp (store_var i x) Q s.
Proof.
  intros (Hf & Hother & [l Hl] & Hg) (Hloc & Hglob & Hdet) Hx HQ. unfold store_var.
  apply wp_bind, wp_get_vh. apply find_named_Some in Hf as Hf'. destruct Hf' as (_ & Hi & _).
  wp_go; [exact Hi|]. unfold set_vh. wp_go. apply HQ; [|done].
  unfold holds, vars. simpl. split_and!.
  - intros n'. erewrite find_named_insert by (exact Hf || done). case_decide as Hn.
    + subst. by rewrite lookup_insert_eq.
    + rewrite lookup_insert_ne by done. rewrite Hother by done. apply Hloc.
  - intros n'. rewrite Hg. apply Hglob.
  - intros n' [[_ ?]|[_ Hn']]%lookup_insert_Some; [done|]. by apply (Hdet n').
Qed.

Lemma wp_set_x n x (Q : unit → task var_state W → Prop) s m :
  holds s m → x ≠ INDETERMINATE →
  (sizeof_var + ws_slack + string_cost n ≤ ws_free (ws s))%Z →
  (∀ s', holds s' (Vspec (<[n := x]> (locals m)) (globals m)) →
     (ws_free (ws s) - (sizeof_var + ws_slack + string_cost n) ≤ ws_free (ws s'))%Z → Q tt s') →
  wp (vmod_set_x (Some n) x) Q s.
Proof.
  intros Hs Hx Hroom HQ. unfold vmod_set_x. apply wp_get_var_alloc; [done|].
  intros i s' Hp Hw. eapply wp_store_var; [done..|]. intros s2 Hs2 Heq. apply HQ; [done|].
  by rewrite Heq.
Qed.

Context (Hlen : (0 ≤ vsa_suckaddr_len)%Z).


Lemma wp_get_x {A} (sel : var_value → option A) zero name (Q : A → task var_state W → Prop) s m :
  holds s m →
  (∀ s', holds s' m → ws s' = ws s →
     Q (default zero ((n ← name; locals m !! n) ≫= sel)) s') →
  wp (vmod_get_x sel zero name) Q s.
Proof.
  intros Hs HQ. unfold vmod_get_x. destruct name as [n|]; [|by wp_go; apply HQ].
  apply wp_bind, wp_get_vh.
  assert (holds (Task (VarState (Some (vars s)) (global_vars (priv s))) (ws s) (vsl s)) m) as Hs'
    by exact Hs.
  destruct Hs as (Hloc & _ & Hdet). specialize (Hloc n). specialize (Hdet n). simpl in HQ.
  unfold vh_get_var. destruct (list_find _ (vars s)) as [[i [n' x]]|] eqn:Hf.
  - apply find_named_Some in Hf as (Hn & _ & _). rewrite Hn in Hloc. simpl in Hloc.
    destruct x; try (wp_go; rewrite <-Hloc in HQ; by apply HQ). congruence.
  - apply find_named_None in Hf. rewrite Hf in Hloc. simpl in Hloc. wp_go.
    rewrite <-Hloc in HQ. by apply HQ.
Qed.


End refinement.

Section properties.
Context {W : Type} `{WorkspaceLaws W}.
Implicit Types (s : task var_state W) (m : vspec).



(** An integer variable keeps the low 32 bits of the VCL_INT: what is
    read back is a signed 32-bit number congruent to what was set, and is
    what was set exactly when that fits an int. *)
Theorem int_truncated n z s m :
  holds s m → (sizeof_var + ws_slack + string_cost n ≤ ws_free (ws s))%Z →
  wp (vmod_set_int (Some n) z;;; vmod_get_int (Some n)) (λ r _,
    (- 2 ^ 31 ≤ r < 2 ^ 31)%Z ∧ (r mod 2 ^ 32 = z mod 2 ^ 32)%Z ∧
    (r = z ↔ (- 2 ^ 31 ≤ z < 2 ^ 31)%Z)) s.
Proof.
  intros Hs Hroom. wp_go. eapply wp_set_x; [done|done|done|]. intros s1 Hs1 _.
  eapply wp_get_x; [done|]. intros s2 _ _. simpl. rewrite lookup_insert_eq. simpl.
  unfold int_of. pose proof (Z.mod_pos_bound (z + 2 ^ 31) (2 ^ 32)).
  split_and!; [lia..| |].
  - rewrite Zminus_mod_idemp_l. f_equal. lia.
  - pose proof (Z.div_mod (z + 2 ^ 31) (2 ^ 32)). nia.
Qed.

(** Setting a string when the workspace is full is not reported: the
    call returns, and the variable (whatever it held before) reads NULL. *)
Theorem set_string_lost n v s m old :
  holds s m → locals m !! n = Some old → (WS_Copy v (ws s)).1 = false →
  wp (vmod_set_string (Some n) (Some v);;; vmod_get_string (Some n)) (λ r _, r = None) s.
Proof.
  intros Hs Hold Hfull. unfold vmod_set_string. wp_go. apply wp_get_vh.
  pose proof Hs as (Hl & _). specialize (Hl n). rewrite Hold in Hl.
  unfold vh_get_var_alloc, vh_get_var. destruct (list_find _ (vars s)) as [[i [n' x]]|] eqn:Hf.
  2: { apply find_named_None in Hf. by rewrite Hf in Hl. }
  apply find_named_Some in Hf as Hf'. destruct Hf' as (Hn & _ & Hname). simpl in Hname. subst n'.
  apply wp_bind, wp_ret, wp_bind, wp_ws_call. cbn [ws]. unfold default, id. rewrite Hfull.
  eapply (wp_store_var n i _ _ s); [|done|done|].
  - unfold placed. rewrite Hn. split_and!; [exact Hf|done|by eexists|done].
  - intros s2 Hs2 _. eapply wp_get_x; [done|]. intros s3 _ _. cbn. by rewrite lookup_insert_eq.
Qed.

(** A [global_get] of a NULL name answers NULL while no global variable
    exists; once there is one, NULL is handed to strcmp. *)
Theorem global_get_null n v s :
  global_vars (priv s) = [] →
  vmod_global_get None s = Ret (None, s) ∧
  ∃ w, (vmod_global_set (Some n) v;;; vmod_global_get None) s = Undef w.
Proof.
  intros Hg. split; [unfold vmod_global_get, mbind, M_bind, getS; by rewrite Hg|].
  unfold vmod_global_set, mbind, M_bind, getS. rewrite Hg. simpl. by eexists.
Qed.
End properties.

(** ** Concrete runs *)
Definition fresh_vars : task var_state Z := Task (VarState None []) 4096%Z [].
Definition no_vars : vspec := Vspec ∅ ∅.
Lemma fresh_holds : holds fresh_vars no_vars.
Proof. split_and!; intros n; cbn; by rewrite ?lookup_empty. Qed.
Definition some_vops : list vop :=
  [VSet (Some (str "a")) (Set_int 7); VGet (Some (str "a")) T_STRING;
   VSet (Some (str "a")) (Set_string (Some (str "x"))); VGet (Some (str "a")) T_STRING;
   VGlobalSet (Some (str "g")) (Some (str "y")); VClear; VGet (Some (str "a")) T_STRING;
   VGlobalGet (str "g")].

Example some_answers : (spec_run some_vops no_vars).1 =
  [RDone; RPtr None; RDone; RPtr (Some (str "x")); RDone; RDone; RPtr None; RPtr (Some (str "y"))].
Proof. reflexivity. Qed.


Lemma int_truncated_witness :
  wp (vmod_set_int (Some (str "n")) (2 ^ 32 + 5);;; vmod_get_int (Some (str "n"))) (λ r _,
    (- 2 ^ 31 ≤ r < 2 ^ 31)%Z ∧ (r mod 2 ^ 32 = (2 ^ 32 + 5) mod 2 ^ 32)%Z ∧
    (r = (2 ^ 32 + 5)%Z ↔ (- 2 ^ 31 ≤ 2 ^ 32 + 5 < 2 ^ 31)%Z)) fresh_vars.
Proof. apply (int_truncated (str "n") (2 ^ 32 + 5) fresh_vars no_vars); [apply fresh_holds|done]. Defined.

Lemma set_string_lost_witness :
  let s := Task (VarState (Some [Var (str "a") (STRING (Some (str "old")))]) []) 2%Z [] in
  wp (vmod_set_string (Some (str "a")) (Some (str "new"));;; vmod_get_string (Some (str "a")))
     (λ r _, r = None) s.
Proof.
  apply (set_string_lost (str "a") (str "new") _
    (Vspec {[ str "a" := STRING (Some (str "old")) ]} ∅) (STRING (Some (str "old"))));
    [|by apply lookup_singleton_eq|reflexivity].
  split_and!; cbn [locals globals priv global_vars vars var_head default].
  - intros n. unfold vars. simpl. rewrite find_named_cons. simpl. case_decide as Hn.
    + subst. by rewrite lookup_singleton_eq.
    + by rewrite lookup_singleton_ne.
  - intros n. by rewrite lookup_empty.
  - by intros n [_ ?]%lookup_singleton_Some.
Defined.

Lemma global_get_null_witness :
  vmod_global_get None fresh_vars = Ret (None, fresh_vars) ∧
  ∃ w, (vmod_global_set (Some (str "g")) None;;; vmod_global_get None) fresh_vars = Undef w.
Proof. apply (global_get_null (str "g") None fresh_vars). reflexivity. Defined.
