(* ===== verification/Header.v ===== *)
(** * vmod_header: header lists and regular expressions

    Models vmod_header.c.  A struct http is its parallel arrays hd (NULL or
    the header line) and hdf (flags) with the fill count nhd; the arrays do
    not change their length.  The HTTP objects of a task are reached through
    VRT_selecthttp, so that the source and the destination of a copy may be
    one and the same object.  A txt is its text; that its b is not NULL is what
    Tcheck asserts of it.  The regular expression engine, http_SetHeader and
    VRT_String belong to Varnish and are parameters, with what Varnish
    documents of the last two as laws; VRT_re_init compiles an expression or,
    when it does not compile, stops in an assertion of Varnish ([re_init]
    answers [None]). *)
From S2P Require Import Prelude CStr Workspace.

Record http := Http {
  hd : list (option bytes);
  hdf : list N;
  nhd : nat;
}.
(** VCL_HEADER: which object, and the name with its length in front. *)
Record gethdr := Gethdr { where_ : N; what : bytes }.

Record hdr_state (R : Type) := HdrState {
  https : gmap N http;        (* VRT_selecthttp *)
  regex : option R;           (* priv->priv of the call site *)
  mutex_init : bool;          (* header_mutex is initialised *)
}.
Arguments HdrState {R} _ _ _.
Arguments https {R} _.
Arguments regex {R} _.
Arguments mutex_init {R} _.

(** What Varnish does for the module. *)
Class HttpApi (W : Type) := {
  http_SetHeader : http → bytes → http;
  VRT_String : bytes → list (option bytes) → W → option bytes * W;
}.
Class HttpLaws (W : Type) `{HttpApi W} := {
  SetHeader_room hp b : nhd hp < length (hd hp) → length (hdf hp) = length (hd hp) →
    http_SetHeader hp b =
      Http (<[nhd hp := Some b]> (hd hp)) (<[nhd hp := 0%N]> (hdf hp)) (S (nhd hp));
  SetHeader_full hp b : length (hd hp) ≤ nhd hp → http_SetHeader hp b = hp;
  VRT_String_text h ss w b w' : VRT_String h ss w = (Some b, w') →
    b = h ++ " "%char :: concat (default [] <$> ss);
}.

Section operations.
Context {R W : Type} `{HttpApi W}.
Context (HTTP_HDR_FIRST : nat).
(** VRT_re_init and VRT_re_match *)
Context (re_init : bytes → option R) (re_match : R → bytes → bool).
Abbreviation hm := (M (task (hdr_state R) W)).

Definition VRT_selecthttp (w : N) : hm http :=
  s ← getS; derefM (https (priv s) !! w) "VRT_selecthttp".
Definition put_http (w : N) (hp : http) : hm unit :=
  s ← getS;
  set_priv (HdrState (<[w := hp]> (https (priv s))) (regex (priv s)) (mutex_init (priv s))).

(** The second test is made with the lock held. *)
Definition header_init_re (t : bytes) : hm unit :=
  s ← getS;
  match regex (priv s) with
  | Some _ => mret tt
  | None =>
      s ← getS;
      match regex (priv s) with
      | Some _ => mret tt
      | None =>
          match re_init t with
          | None => panic "AN(t) in VRT_re_init"
          | Some r => set_priv (HdrState (https (priv s)) (Some r) (mutex_init (priv s)))
          end
      end
  end.

(** [hdr[0]], the length of the name with its colon. *)
Definition hdr_len (hdr : bytes) : nat := N.to_nat (code (default "000"%char (head hdr))).

(** [Tcheck(t)]: AN(t.b) and that t.e does not come before it. *)
Definition Tcheck (t : option bytes) : outcome unit :=
  match t with None => Panic "Tcheck: AN((t).b)" | Some _ => Ret tt end.
Definition header_http_IsHdr (hh : option bytes) (hdr : bytes) : outcome bool :=
  _ ← Tcheck hh;
  let l := hdr_len hdr in
  if negb (l =? length (tail hdr)) then Panic "l == strlen(hdr + 1)"
  else if negb (bool_decide (hdr !! l = Some ":"%char)) then Panic "hdr[l] == ':'"
  else
    match hh with
    | None => Undef "hh->b"
    | Some b => Ret (strncaseeq (tail hdr) b l)
    end.

(** The test for NULL comes after the Tcheck. *)
Definition header_http_match (hp : http) (u : nat) (re : option R) (hdr : bytes) : outcome bool :=
  match hd hp !! u with
  | None => Undef "hp->hd[u]"
  | Some t =>
      _ ← Tcheck t;
      match t with
      | None => Ret false
      | Some b =>
          same ← header_http_IsHdr t hdr;
          if negb same then Ret false
          else
            match re with
            | None => Ret true
            | Some re =>
                match skip_while (λ c, bool_decide (c = " "%char)) (drop (hdr_len hdr) b) with
                | [] => Ret false
                | start => Ret (re_match re start)
                end
            end
      end
  end.

(** [for (u = ...; u < hp->nhd; u++)] with [n] turns to go. *)
Fixpoint findhdr_loop (n u : nat) (hp : http) (hdr : bytes) (re : option R) : outcome nat :=
  match n with
  | O => Ret 0
  | S n =>
      m ← header_http_match hp u re hdr;
      if m : bool then Ret u else findhdr_loop n (S u) hp hdr re
  end.
Definition header_http_findhdr (hp : http) (hdr : bytes) (re : option R) : outcome nat :=
  findhdr_loop (nhd hp - HTTP_HDR_FIRST) HTTP_HDR_FIRST hp hdr re.

(** memcpy of both arrays, from place [u] to place [v]. *)
Definition move_hdr (hp : http) (v u : nat) : outcome http :=
  match hd hp !! u, hdf hp !! u with
  | Some t, Some f => Ret (Http (<[v := t]> (hd hp)) (<[v := f]> (hdf hp)) (nhd hp))
  | _, _ => Undef "hp->hd[u]"
  end.
Fixpoint unset_loop (n u v : nat) (hp : http) (hdr : bytes) (re : option R)
    : outcome (http * nat) :=
  match n with
  | O => Ret (hp, v)
  | S n =>
      match hd hp !! u with
      | None => Undef "hp->hd[u]"
      | Some None => unset_loop n (S u) v hp hdr re
      | Some (Some _) =>
          m ← header_http_match hp u re hdr;
          if m : bool then unset_loop n (S u) v hp hdr re
          else
            hp ← (if v =? u then Ret hp else move_hdr hp v u);
            unset_loop n (S u) (S v) hp hdr re
      end
  end.
Definition header_http_Unset (hp : http) (hdr : bytes) (re : option R) : outcome http :=
  r ← unset_loop (nhd hp - HTTP_HDR_FIRST) HTTP_HDR_FIRST HTTP_HDR_FIRST hp hdr re;
  Ret (Http (hd r.1) (hdf r.1) r.2).

Definition vmod_append (hdr : gethdr) (fmt : list (option bytes)) : hm unit :=
  match head fmt with
  | None | Some None => mret tt      (* fmt == NULL *)
  | Some (Some _) =>
      hp ← VRT_selecthttp (where_ hdr);
      s ← getS;
      let '(b, w) := VRT_String (tail (what hdr)) fmt (ws s) in
      modifyS (λ s, Task (priv s) w (vsl s));;;
      match b with
      | None => VSLb SLT_LostHeader (str "vmod_header: " ++ tail (what hdr))
      | Some b => put_http (where_ hdr) (http_SetHeader hp b)
      end
  end.

Definition blank_after (p : bytes) : bytes := skip_while isblank p.

(** The loop reads hp->nhd anew on every turn: vmod_append may add to [hp]. *)
Fixpoint cphdr_loop (fuel u : nat) (src : N) (hdr : bytes) (dst : gethdr) : hm unit :=
  hp ← VRT_selecthttp src;
  if u <? nhd hp then
    match fuel with
    | O => no_fuel
    | S fuel =>
        m ← liftO (header_http_match hp u None hdr);
        (if m : bool then
           match hd hp !! u with
           | Some (Some b) => vmod_append dst [Some (blank_after (drop (hdr_len hdr) b))]
           | _ => undef "hp->hd[u].b"
           end
         else mret tt);;;
        cphdr_loop fuel (S u) src hdr dst
    end
  else mret tt.
Definition header_http_cphdr (src : N) (hdr : bytes) (dst : gethdr) : hm unit :=
  hp ← VRT_selecthttp src;
  cphdr_loop (length (hd hp)) HTTP_HDR_FIRST src hdr dst.

Definition vmod_get (hdr : gethdr) (t : bytes) : hm (option bytes) :=
  header_init_re t;;;
  hp ← VRT_selecthttp (where_ hdr);
  s ← getS;
  u ← liftO (header_http_findhdr hp (what hdr) (regex (priv s)));
  if u =? 0 then mret None
  else
    match hd hp !! u with
    | Some (Some b) => mret (Some (blank_after (drop (hdr_len (what hdr)) b)))
    | _ => undef "hp->hd[u].b"
    end.
Definition vmod_copy (src dst : gethdr) : hm unit :=
  _ ← VRT_selecthttp (where_ src);
  header_http_cphdr (where_ src) (what src) dst.
Definition vmod_remove (hdr : gethdr) (t : bytes) : hm unit :=
  header_init_re t;;;
  hp ← VRT_selecthttp (where_ hdr);
  s ← getS;
  hp ← liftO (header_http_Unset hp (what hdr) (regex (priv s)));
  put_http (where_ hdr) hp.

(** [load] is e == VCL_EVENT_LOAD.  POSIX leaves the initialisation of a
    mutex that is initialised already undefined. *)
Definition event_function (load : bool) : hm Z :=
  if negb load then mret 0%Z
  else
    s ← getS;
    (if mutex_init (priv s) then undef "pthread_mutex_init of an initialised mutex"
     else set_priv (HdrState (https (priv s)) (regex (priv s)) true));;;
    mret 0%Z.
End operations.

(** ** The abstract specification: a list of headers *)

(** A header name as VCL compiles it: its length, and a colon at the end. *)
Definition name_ok (hdr : bytes) : Prop :=
  ∃ nm, tail hdr = nm ++ [":"%char] ∧ hdr_len hdr = S (length nm).
Definition field : Type := option bytes * N.
(** The fields in use, with their flags. *)
Definition fields (hp : http) : list field := zip (take (nhd hp) (hd hp)) (take (nhd hp) (hdf hp)).
Definition http_arrays (first : nat) (hp : http) : Prop :=
  first ≤ nhd hp ≤ length (hd hp) ∧ length (hdf hp) = length (hd hp).
(** The header lines of the object are set. *)
Definition lines_set (first : nat) (hp : http) : Prop :=
  ∀ j t, first ≤ j < nhd hp → hd hp !! j = Some t → t ≠ None.
Definition http_ok (first : nat) (hp : http) : Prop := http_arrays first hp ∧ lines_set first hp.

(** The text after the name of a line, as the matcher sees it. *)
Definition match_text (hdr b : bytes) : bytes :=
  skip_while (λ c, bool_decide (c = " "%char)) (drop (hdr_len hdr) b).
Section spec.
Context {R : Type} (re_match : R → bytes → bool).
(** A line is the header [hdr] with a text that [re] matches. *)
Definition matches (re : option R) (hdr : bytes) (t : option bytes) : bool :=
  match t with
  | None => false
  | Some b => strncaseeq (tail hdr) b (hdr_len hdr) &&
      match re with
      | None => true
      | Some re => negb (bool_decide (match_text hdr b = [])) && re_match re (match_text hdr b)
      end
  end.
Definition kept (re : option R) (hdr : bytes) (f : field) : Prop :=
  f.1 ≠ None ∧ matches re hdr f.1 = false.
#[export] Instance kept_dec re hdr f : Decision (kept re hdr f).
Proof. unfold kept. destruct f as [[b|] n]; [destruct (matches re hdr _) eqn:E|];
  [right|left|right]; simpl; rewrite ?E; naive_solver. Defined.

Lemma header_match_ok hp u re hdr t :
  name_ok hdr → hd hp !! u = Some t → t ≠ None →
  header_http_match re_match hp u re hdr = Ret (matches re hdr t).
Proof.
  intros (nm & Hn & Hl) Hu Ht. unfold header_http_match. rewrite Hu. destruct t as [b|]; [|done].
  unfold header_http_IsHdr. rewrite Hn, length_app, Hl. cbn [length]. rewrite Nat.add_1_r, Nat.eqb_refl.
  cbn [negb Tcheck mbind outcome_bind]. rewrite bool_decide_eq_true_2.
  2: { destruct hdr as [|c hdr]; [by destruct nm|]. simpl in Hn. subst hdr. simpl.
       rewrite lookup_app_r, Nat.sub_diag by lia. done. }
  simpl. unfold matches. rewrite Hn, Hl. destruct (strncaseeq _ b _); [|done]. simpl.
  destruct re as [re|]; [|done]. unfold match_text. rewrite Hl.
  by destruct (skip_while _ _).
Qed.
(** A NULL line is not passed over: the matcher stops in Tcheck. *)
Lemma null_line_panics hp u re hdr :
  hd hp !! u = Some None → header_http_match re_match hp u re hdr = Panic "Tcheck: AN((t).b)".
Proof. intros Hu. unfold header_http_match. by rewrite Hu. Qed.
End spec.

Section loops.
Context {R : Type} (re_match : R → bytes → bool).
Context (hdr : bytes) (Hhdr : name_ok hdr) (re : option R).
Implicit Types (hp : http) (u v n : nat).

(** The fields from place [u] on, [n] of them. *)
Definition segment (u n : nat) (hp : http) : list field :=
  zip (take n (drop u (hd hp))) (take n (drop u (hdf hp))).

Lemma segment_S u n hp t f :
  hd hp !! u = Some t → hdf hp !! u = Some f →
  segment u (S n) hp = (t, f) :: segment (S u) n hp.
Proof. intros Ht Hf. unfold segment. by rewrite (drop_S _ _ _ Ht), (drop_S _ _ _ Hf). Qed.
Lemma segment_snoc v hp t f :
  hd hp !! v = Some t → hdf hp !! v = Some f →
  segment 0 (S v) hp = segment 0 v hp ++ [(t, f)].
Proof.
  intros Ht Hf. unfold segment. rewrite !drop_0, (take_S_r _ _ _ Ht), (take_S_r _ _ _ Hf).
  rewrite zip_with_app; [done|]. rewrite !length_take.
  apply lookup_lt_Some in Ht, Hf. lia.
Qed.
Lemma segment_split u n hp : length (hdf hp) = length (hd hp) → u ≤ n ≤ length (hd hp) →
  segment 0 n hp = segment 0 u hp ++ segment u (n - u) hp.
Proof.
  intros Hl Hn. unfold segment. rewrite !drop_0, <-zip_with_app by (rewrite !length_take; lia).
  rewrite !take_take_drop. by replace (u + (n - u)) with n by lia.
Qed.
Lemma fields_segment hp : fields hp = segment 0 (nhd hp) hp.
Proof. unfold fields, segment. by rewrite !drop_0. Qed.

Lemma move_hdr_ok hp u v t f :
  hd hp !! u = Some t → hdf hp !! u = Some f → v ≤ u → length (hdf hp) = length (hd hp) →
  ∃ hp', (if v =? u then Ret hp else move_hdr hp v u) = Ret hp' ∧
    nhd hp' = nhd hp ∧ length (hd hp') = length (hd hp) ∧ length (hdf hp') = length (hdf hp) ∧
    segment 0 (S v) hp' = segment 0 v hp ++ [(t, f)] ∧
    (∀ n, segment (S u) n hp' = segment (S u) n hp) ∧
    drop (S u) (hd hp') = drop (S u) (hd hp) ∧ drop (S u) (hdf hp') = drop (S u) (hdf hp).
Proof.
  intros Ht Hf Hv Hlen. destruct (Nat.eqb_spec v u) as [->|Hne].
  - exists hp. do 4 (split; [done|]). split; [by apply segment_snoc|done].
  - unfold move_hdr. rewrite Ht, Hf. eexists. split; [done|]. simpl.
    pose proof (lookup_lt_Some _ _ _ Ht) as Hu.
    rewrite !length_insert. do 3 (split; [done|]). split; [|split].
    + erewrite segment_snoc by (simpl; apply list_lookup_insert_eq; lia).
      unfold segment. simpl. by rewrite !drop_0, !take_insert_ge by lia.
    + intros n. unfold segment. simpl. by rewrite !drop_insert_lt by lia.
    + by rewrite !drop_insert_lt by lia.
Qed.

Lemma unset_loop_ok n u v hp :
  u + n = nhd hp → v ≤ u → nhd hp ≤ length (hd hp) → length (hdf hp) = length (hd hp) →
  ∃ hp' v', unset_loop re_match n u v hp hdr re = Ret (hp', v') ∧ v ≤ v' ≤ nhd hp ∧
    length (hd hp') = length (hd hp) ∧ length (hdf hp') = length (hdf hp) ∧
    segment 0 v' hp' = segment 0 v hp ++ filter (kept re_match re hdr) (segment u n hp).
Proof using Hhdr.
  revert u v hp. induction n as [|n IH]; intros u v hp Hn Hv Hcap Hlen; cbn [unset_loop].
  { exists hp, v. split; [done|]. split; [lia|]. do 2 (split; [done|]).
    unfold segment at 3. simpl. by rewrite app_nil_r. }
  destruct (lookup_lt_is_Some_2 (hd hp) u) as [t Ht]; [lia|].
  destruct (lookup_lt_is_Some_2 (hdf hp) u) as [f Hf]; [lia|].
  rewrite Ht, (segment_S _ _ _ _ _ Ht Hf), filter_cons.
  assert (¬ kept re_match re hdr (t, f) → ∃ hp' v', unset_loop re_match n (S u) v hp hdr re = Ret (hp', v') ∧
    v ≤ v' ≤ nhd hp ∧ length (hd hp') = length (hd hp) ∧ length (hdf hp') = length (hdf hp) ∧
    segment 0 v' hp' = segment 0 v hp ++
      (if decide (kept re_match re hdr (t, f)) then (t, f) :: filter (kept re_match re hdr) (segment (S u) n hp)
       else filter (kept re_match re hdr) (segment (S u) n hp))) as Hskip.
  { intros Hk. rewrite decide_False by done. apply IH; lia. }
  destruct t as [b|]; [|apply Hskip; intros [Hb _]; by apply Hb].
  rewrite (header_match_ok re_match hp u re hdr _ Hhdr Ht) by done. cbn [mbind outcome_bind].
  destruct (matches re_match re hdr (Some b)) eqn:Hm; [apply Hskip; intros [_ Hb]; cbn [fst] in Hb; congruence|].
  destruct (move_hdr_ok hp u v _ _ Ht Hf Hv Hlen) as (hp1 & -> & Hnhd & Hl1 & Hl2 & Hseg & Hrest & _).
  cbn [mbind outcome_bind].
  destruct (IH (S u) (S v) hp1) as (hp2 & v' & Hrun & Hv' & Hl1' & Hl2' & Hseg'); [lia..|].
  exists hp2, v'. split; [done|]. split; [lia|]. split; [lia|]. split; [lia|].
  rewrite Hseg', Hseg, Hrest, decide_True by done. by rewrite <-(assoc_L (++)).
Qed.

(** The first field from place [u] on that matches. *)
Lemma findhdr_loop_ok n u hp :
  u + n = nhd hp → nhd hp ≤ length (hd hp) → lines_set u hp →
  (∃ i b, findhdr_loop re_match n u hp hdr re = Ret i ∧ u ≤ i < nhd hp ∧ hd hp !! i = Some (Some b) ∧
     matches re_match re hdr (Some b) = true ∧
     ∀ j t, u ≤ j < i → hd hp !! j = Some t → matches re_match re hdr t = false) ∨
  (findhdr_loop re_match n u hp hdr re = Ret 0 ∧
     ∀ j t, u ≤ j < nhd hp → hd hp !! j = Some t → matches re_match re hdr t = false).
Proof using Hhdr.
  revert u. induction n as [|n IH]; intros u Hn Hcap Hset; cbn [findhdr_loop].
  { right. split; [done|]. intros j t Hj. lia. }
  destruct (lookup_lt_is_Some_2 (hd hp) u) as [t Ht]; [lia|].
  rewrite (header_match_ok re_match hp u re hdr _ Hhdr Ht) by (eapply Hset; [|done]; lia).
  cbn [mbind outcome_bind]. destruct (matches re_match re hdr t) eqn:Hm.
  - left. destruct t as [b|]; [|done]. exists u, b. split_and!; try done; try lia.
  - destruct (IH (S u)) as [(i & b & Hi & Hlt & Hb & Hmi & Hbefore)|[Hi Hnone]]; [lia..| |left|right].
    { intros j t' Hj. apply Hset. lia. }
    + exists i, b. split_and!; try done; try lia. intros j t' Hj Hj'.
      destruct (decide (j = u)) as [->|]; [congruence|]. eapply Hbefore; [|done]. lia.
    + split; [done|]. intros j t' Hj Hj'.
      destruct (decide (j = u)) as [->|]; [congruence|]. eapply Hnone; [|done]. lia.
Qed.

(** The lines Unset leaves are set. *)
Lemma kept_lines_set first v hp hp' l :
  first ≤ nhd hp ≤ length (hd hp) → length (hdf hp) = length (hd hp) →
  v ≤ length (hd hp') → length (hdf hp') = length (hd hp') →
  segment 0 v hp' = segment 0 first hp ++ filter (kept re_match re hdr) l →
  lines_set first (Http (hd hp') (hdf hp') v).
Proof.
  intros Hn Hlen Hv Hlen' Hseg j t [Hj Hjv] Ht. simpl in *.
  destruct (lookup_lt_is_Some_2 (hdf hp') j) as [f Hf]; [lia|].
  assert (segment 0 v hp' !! j = Some (t, f)) as Hl.
  { unfold segment. rewrite !drop_0. apply lookup_zip_with_Some. exists t, f.
    by rewrite !lookup_take_lt by done. }
  rewrite Hseg, lookup_app_r in Hl.
  - apply list_elem_of_lookup_2, list_elem_of_filter in Hl as [[Hk _] _]. done.
  - unfold segment. rewrite length_zip_with, !length_take, !drop_0. lia.
Qed.
End loops.

Section properties.
Context {R W : Type} `{HttpLaws W}.
Context (first : nat) (re_init : bytes → option R) (re_match : R → bytes → bool).
Abbreviation st := (task (hdr_state R) W).
Implicit Types (s : st) (hp : http) (hdr src dst : gethdr).

(** The expression a call site uses: the first one it was called with, if
    that one compiled. *)
Definition site_re s (t : bytes) : option R :=
  match regex (priv s) with Some r => Some r | None => re_init t end.

Lemma wp_init_re t re (Q : unit → st → Prop) s :
  site_re s t = Some re →
  Q tt (Task (HdrState (https (priv s)) (Some re) (mutex_init (priv s))) (ws s) (vsl s)) →
  wp (header_init_re re_init t) Q s.
Proof.
  intros Hre HQ. unfold header_init_re, site_re in *. wp_go.
  destruct s as [[hs r mi] w log]. simpl in *. destruct r as [r|]; simpl in *; wp_go.
  - by injection Hre as ->.
  - rewrite Hre. by wp_go.
Qed.
Lemma init_re_panics {A} t (f : unit → M st A) s :
  site_re s t = None → ∃ w, (header_init_re re_init t ≫= f) s = Panic w.
Proof.
  intros Hre. unfold header_init_re, site_re, mbind, M_bind, getS in *.
  destruct (regex (priv s)) eqn:Hr; [done|]. cbn. rewrite Hr, Hre. by eexists.
Qed.

(** C19: remove() drops, from the header fields of its object, the NULL fields
    and those of the given name whose text the call site's expression
    matches; all others stay in order with their flags, the request or status
    line is untouched, and no other object changes.  (A first call whose
    expression does not compile stops in the assertion of VRT_re_init.) *)
Theorem remove_exact hdr t s hp :
  https (priv s) !! where_ hdr = Some hp → http_arrays first hp → name_ok (what hdr) →
  match site_re s t with
  | None => ∃ w, vmod_remove first re_init re_match hdr t s = Panic w
  | Some re =>
      wp (vmod_remove first re_init re_match hdr t) (λ _ s', ∃ hp',
        https (priv s') = <[where_ hdr := hp']> (https (priv s)) ∧ http_ok first hp' ∧
        fields hp' = take first (fields hp) ++
          filter (kept re_match (Some re) (what hdr)) (drop first (fields hp)) ∧
        regex (priv s') = Some re) s
  end.
Proof.
  intros Hhp [Hn Hlen] Hname. destruct (site_re s t) as [re|] eqn:Hre; [|by apply init_re_panics].
  destruct (unset_loop_ok re_match (what hdr) Hname (Some re) (nhd hp - first)
    first first hp) as (hp' & v & Hrun & Hv & Hl1 & Hl2 & Hseg); [lia..|].
  assert (header_http_Unset first re_match hp (what hdr) (Some re) =
    Ret (Http (hd hp') (hdf hp') v)) as Hunset.
  { unfold header_http_Unset, mbind, outcome_bind. by rewrite Hrun. }
  unfold vmod_remove, VRT_selecthttp. wp_go. apply (wp_init_re t re); [done|].
  wp_go; [exact Hhp|exact Hunset|].
  unfold put_http. wp_go. eexists. split; [done|]. split; [split|split; [|done]].
  - unfold http_arrays. simpl. lia.
  - eapply (kept_lines_set re_match (what hdr) (Some re)); [exact Hn|exact Hlen|lia|lia|exact Hseg].
  - rewrite fields_segment. change (segment 0 v hp' = take first (fields hp) ++
      filter (kept re_match (Some re) (what hdr)) (drop first (fields hp))).
    rewrite Hseg, !fields_segment. rewrite (segment_split first (nhd hp)) by lia.
    assert (length (segment 0 first hp) = first) as Hf.
    { unfold segment. rewrite length_zip_with, !length_take, !drop_0. lia. }
    by rewrite take_app_length', drop_app_length'.
Qed.

(** C39: get() answers the text (without leading blanks) of the first header
    field of the given name whose text the call site's expression matches,
    and NULL when there is none; it changes no object.  (The header lines of
    the object are set, and a first call whose expression does not compile
    stops in the assertion of VRT_re_init.) *)
Theorem get_exact hdr t s hp :
  0 < first → https (priv s) !! where_ hdr = Some hp → http_ok first hp → name_ok (what hdr) →
  match site_re s t with
  | None => ∃ w, vmod_get first re_init re_match hdr t s = Panic w
  | Some re0 =>
      let re := Some re0 in
      wp (vmod_get first re_init re_match hdr t) (λ r s',
        https (priv s') = https (priv s) ∧ regex (priv s') = re ∧
        ((∃ i b, first ≤ i < nhd hp ∧ hd hp !! i = Some (Some b) ∧
            matches re_match re (what hdr) (Some b) = true ∧
            (∀ j t', first ≤ j < i → hd hp !! j = Some t' → matches re_match re (what hdr) t' = false) ∧
            r = Some (blank_after (drop (hdr_len (what hdr)) b))) ∨
         ((∀ j t', first ≤ j < nhd hp → hd hp !! j = Some t' →
             matches re_match re (what hdr) t' = false) ∧ r = None))) s
  end.
Proof.
  intros Hfirst Hhp [[Hn Hlen] Hset] Hname. destruct (site_re s t) as [re0|] eqn:Hre; [|by apply init_re_panics].
  intros re.
  destruct (findhdr_loop_ok re_match (what hdr) Hname re (nhd hp - first) first hp)
    as [(i & b & Hi & Hlt & Hb & Hm & Hbefore)|[Hi Hnone]]; [lia..|done| |];
    unfold vmod_get, VRT_selecthttp; wp_go; (apply (wp_init_re t re0); [done|]); wp_go;
    [exact Hhp|exact Hi| |exact Hhp|exact Hi|].
  - rewrite (proj2 (Nat.eqb_neq _ _)) by lia.
    rewrite Hb. wp_go. do 2 (split; [done|]). left. by exists i, b.
  - simpl. wp_go. do 2 (split; [done|]). by right.
Qed.

(** The texts header.copy finds in a list of fields. *)
Definition text_of (name : bytes) (t : option bytes) : option bytes :=
  match t with
  | Some b => if matches re_match None name t
              then Some (blank_after (drop (hdr_len name) b)) else None
  | None => None
  end.
Definition arrays_ok hp : Prop := nhd hp ≤ length (hd hp) ∧ length (hdf hp) = length (hd hp).
(** [name] does not occur in the lines header.append makes for [dst]. *)
Definition unlike (name dst : bytes) : Prop :=
  ∀ x, strncaseeq (tail name) (tail dst ++ " "%char :: x) (hdr_len name) = false.

Lemma set_header_ok hp b : arrays_ok hp →
  arrays_ok (http_SetHeader hp b) ∧
  length (hd (http_SetHeader hp b)) = length (hd hp) ∧ nhd hp ≤ nhd (http_SetHeader hp b) ∧
  (∀ i t, hd (http_SetHeader hp b) !! i = Some t → i < nhd (http_SetHeader hp b) →
     (i < nhd hp ∧ hd hp !! i = Some t) ∨ (i = nhd hp ∧ t = Some b)).
Proof.
  intros [Hn Hl]. destruct (decide (nhd hp < length (hd hp))) as [Hlt|Hge].
  - rewrite SetHeader_room by done. unfold arrays_ok. simpl. rewrite !length_insert.
    split; [lia|]. do 2 (split; [lia|]). intros i t Hi Hi'.
    apply list_lookup_insert_Some in Hi as [(<- & <- & _)|[Hne Hi]]; [by right|].
    left. split; [lia|done].
  - rewrite SetHeader_full by lia. split; [done|]. do 2 (split; [done|]). intros i t Hi Hi'. by left.
Qed.

Lemma lines_set_le u v hp : u ≤ v → lines_set u hp → lines_set v hp.
Proof. intros Hu Hs j t Hj. apply Hs. lia. Qed.
Lemma lines_set_header u hp b : arrays_ok hp → lines_set u hp → lines_set u (http_SetHeader hp b).
Proof.
  intros Hok Hs j t [Hj Hjn] Ht. destruct (set_header_ok hp b Hok) as (_ & _ & _ & Hnew).
  destruct (Hnew j t Ht Hjn) as [[Hlt Ht0]|[_ ->]]; [by eapply Hs|done].
Qed.

(** The state of a copy: the first [N] fields of the source are those of
    [l], later ones are set and not called [name]. *)
Definition copying src dst (N : nat) (l : list (option bytes)) s : Prop :=
  (∃ hp, https (priv s) !! where_ src = Some hp ∧ arrays_ok hp ∧ length (hd hp) = length l ∧
     N ≤ nhd hp ∧ (∀ j, j < N → hd hp !! j = l !! j) ∧
     (∀ j t, N ≤ j < nhd hp → hd hp !! j = Some t →
        t ≠ None ∧ matches re_match None (what src) t = false)) ∧
  (∀ hp, https (priv s) !! where_ dst = Some hp → arrays_ok hp).

Lemma copying_append src dst N l p s s' :
  where_ src ≠ where_ dst ∨ unlike (what src) (what dst) →
  copying src dst N l s → vmod_append dst [Some p] s = Ret (tt, s') → copying src dst N l s'.
Proof.
  intros Hdiff [(hp & Hhp & Hok & Hcap & Hge & Hsame & Hlater) Hdst] Hrun.
  unfold vmod_append in Hrun. cbn [head] in Hrun.
  unfold VRT_selecthttp, mbind, M_bind, getS, derefM, modifyS, VSLb, put_http, set_priv in Hrun.
  destruct (https (priv s) !! where_ dst) as [hpd|] eqn:Hd; [|done].
  specialize (Hdst hpd eq_refl). cbn in Hrun.
  destruct (VRT_String (tail (what dst)) [Some p] (ws s)) as [[b|] w] eqn:Hb;
    cbn in Hrun; injection Hrun as <-.
  2: { split; [by exists hp|]. simpl. intros hp' Hhp'. congruence. }
  apply VRT_String_text in Hb. destruct (set_header_ok hpd b Hdst) as (Hok' & Hcap' & Hnhd & Hnew).
  split; simpl.
  - destruct (decide (where_ src = where_ dst)) as [Heq|Hne].
    2: { exists hp. rewrite lookup_insert_ne by done. done. }
    rewrite Heq, lookup_insert_eq. rewrite Heq, Hd in Hhp. injection Hhp as ->.
    eexists. split; [done|]. split; [done|]. split; [lia|]. split; [lia|]. split.
    + intros j Hj. destruct (lookup_lt_is_Some_2 (hd (http_SetHeader hp b)) j) as [t Ht].
      { destruct Hok. lia. }
      rewrite Ht. destruct (Hnew _ _ Ht) as [[_ Hj']|[-> _]]; [lia| |lia].
      rewrite <-Hj'. by apply Hsame.
    + intros j t Hj Ht. destruct (Hnew _ _ Ht) as [[Hlt Hj']|[-> ->]]; [lia|apply (Hlater j); [lia|done]|].
      destruct Hdiff as [?|Hun]; [done|]. split; [done|]. unfold matches. by rewrite Hb, Hun.
  - intros hp' [[_ <-]|[Hne Hhp']]%lookup_insert_Some; [done|]. by rewrite Hd in Hhp'.
Qed.

Lemma cphdr_loop_forM src dst N l fuel u s :
  name_ok (what src) → where_ src ≠ where_ dst ∨ unlike (what src) (what dst) →
  copying src dst N l s → (∀ j t, u ≤ j < N → l !! j = Some t → t ≠ None) → length l ≤ fuel + u →
  cphdr_loop re_match fuel u (where_ src) (what src) dst s =
  forM_ (omap (text_of (what src)) (drop u (take N l))) (λ p, vmod_append dst [Some p]) s.
Proof.
  intros Hname Hdiff. revert u s. induction fuel as [|fuel IH]; intros u s Hc Hl0 Hfuel;
    pose proof Hc as [(hp & Hhp & Hok & Hcap & Hge & Hsame & Hlater) Hdst]; pose proof Hok as [Hn Hlen];
    cbn [cphdr_loop]; unfold VRT_selecthttp, mbind, M_bind, getS, derefM; rewrite Hhp;
    unfold mret, M_ret; cbn beta iota.
  - rewrite (proj2 (Nat.ltb_ge _ _)) by lia. rewrite drop_ge by (rewrite length_take; lia). done.
  - destruct (Nat.ltb_spec u (nhd hp)) as [Hu|Hu].
    2: { rewrite drop_ge by (rewrite length_take; lia). done. }
    destruct (lookup_lt_is_Some_2 (hd hp) u) as [t Ht]; [lia|].
    assert (∀ j t, S u ≤ j < N → l !! j = Some t → t ≠ None) as Hl1 by (intros j t' Hj; apply Hl0; lia).
    assert (t ≠ None) as Htn.
    { destruct (decide (u < N)) as [HuN|HuN]; [|apply (Hlater u t); [lia|done]].
      apply (Hl0 u t); [lia|]. by rewrite <-Hsame. }
    unfold liftO. rewrite (header_match_ok re_match hp u None (what src) t Hname Ht Htn).
    destruct (decide (u < N)) as [HuN|HuN].
    + assert (take N l !! u = Some t) as Hl by (rewrite lookup_take_lt, <-Hsame by done; done).
      rewrite (drop_S _ _ _ Hl). cbn [omap list_omap].
      destruct t as [b|]; [|done]. unfold text_of at 1.
      destruct (matches re_match None (what src) (Some b)) eqn:Hm; [|by apply IH; [| |lia]].
      rewrite Ht. cbn [forM_]. unfold mbind, M_bind.
      destruct (vmod_append dst _ s) as [[[] s']| | |] eqn:Happ; try done.
      apply IH; [by eapply copying_append|done|lia].
    + rewrite (proj2 (Hlater u t ltac:(lia) Ht)).
      unfold mret, M_ret. rewrite IH by (done || lia).
      by rewrite !drop_ge by (rewrite length_take; lia).
Qed.

(** C28: copy() is one append() for each header field of the source's name, in
    order, with the field's text after leading blanks, also when source and
    destination are in one object whose field list grows during the loop (as
    long as the destination's name is not the source's); the header lines of the
    source are set. *)
Theorem copy_exact src dst s hp :
  https (priv s) !! where_ src = Some hp → http_ok first hp →
  (∀ hpd, https (priv s) !! where_ dst = Some hpd → arrays_ok hpd) →
  name_ok (what src) → where_ src ≠ where_ dst ∨ unlike (what src) (what dst) →
  vmod_copy first re_match src dst s =
  forM_ (omap (text_of (what src)) (drop first (take (nhd hp) (hd hp))))
    (λ p, vmod_append dst [Some p]) s.
Proof.
  intros Hhp [[Hn Hlen] Hset] Hdst Hname Hdiff. unfold vmod_copy, header_http_cphdr.
  unfold VRT_selecthttp, mbind, M_bind, getS, derefM. rewrite Hhp. cbn. rewrite Hhp. cbn.
  apply cphdr_loop_forM; [done|done| |exact Hset|lia]. split; [|done]. exists hp.
  split_and!; try done; try lia. split; lia.
Qed.

(** A copy of a header onto itself finds every line it appends. *)
Definition self_copying (hdr : gethdr) (cap u : nat) s : Prop :=
  ∃ hp, https (priv s) !! where_ hdr = Some hp ∧ arrays_ok hp ∧ length (hd hp) = cap ∧
    lines_set u hp ∧ (nhd hp = cap ∨ ∃ j t, u ≤ j < nhd hp ∧ hd hp !! j = Some t ∧
       matches re_match None (what hdr) t = true).

Lemma strncaseeq_app a x : strncaseeq a (a ++ x) (length a) = true.
Proof. induction a as [|c a IH]; simpl; [done|]. by rewrite decide_True. Qed.
Lemma own_line_matches hdr x : name_ok (what hdr) →
  matches re_match None (what hdr) (Some (tail (what hdr) ++ x)) = true.
Proof.
  intros (nm & Hn & Hl). unfold matches. rewrite andb_true_r.
  replace (hdr_len (what hdr)) with (length (tail (what hdr))); [apply strncaseeq_app|].
  rewrite Hn, Hl, length_app. simpl. lia.
Qed.

Lemma wp_self_append hdr cap u p s :
  (∀ h ss w, (VRT_String h ss w).1 ≠ None) → name_ok (what hdr) →
  (∃ hp, https (priv s) !! where_ hdr = Some hp ∧ arrays_ok hp ∧ length (hd hp) = cap ∧
     lines_set u hp ∧ u < nhd hp) →
  wp (vmod_append hdr [Some p]) (λ _, self_copying hdr cap (S u)) s.
Proof.
  intros Hstr Hname (hp & Hhp & Hok & Hcap & Hset & Hu). unfold vmod_append. cbn [head]. wp_go.
  unfold VRT_selecthttp. wp_go; [exact Hhp|].
  destruct (VRT_String _ _ _) as [[b|] w] eqn:Hb; [|exfalso; by eapply Hstr; rewrite Hb].
  unfold put_http. wp_go. simpl. apply VRT_String_text in Hb.
  pose proof (set_header_ok hp b Hok) as (Hok' & Hcap' & _).
  eexists. simpl. rewrite lookup_insert_eq. split; [done|]. split; [done|]. split; [lia|].
  split; [apply lines_set_header; [done|]; eapply lines_set_le; [|exact Hset]; lia|].
  destruct (decide (nhd hp < length (hd hp))) as [Hlt|Hge].
  - right. exists (nhd hp), (Some b). destruct Hok. rewrite SetHeader_room by done. simpl.
    split; [lia|]. split; [apply list_lookup_insert_eq; lia|]. rewrite Hb. by apply own_line_matches.
  - left. rewrite SetHeader_full by lia. destruct Hok. lia.
Qed.

Lemma wp_self_cphdr hdr cap fuel u s :
  (∀ h ss w, (VRT_String h ss w).1 ≠ None) → name_ok (what hdr) →
  self_copying hdr cap u s → cap ≤ fuel + u →
  wp (cphdr_loop re_match fuel u (where_ hdr) (what hdr) hdr) (λ _ s', ∃ hp',
    https (priv s') !! where_ hdr = Some hp' ∧ length (hd hp') = cap ∧ nhd hp' = cap) s.
Proof.
  intros Hstr Hname. revert u s. induction fuel as [|fuel IH];
    intros u s (hp & Hhp & Hok & Hcap & Hset & Hfull) Hfuel; pose proof Hok as [Hn Hlen];
    (assert (nhd hp ≤ u → nhd hp = cap) as Hend by
       (intros Hu; destruct Hfull as [?|(j & t & ? & _)]; [done|lia]));
    cbn [cphdr_loop]; apply wp_bind; unfold VRT_selecthttp at 1;
    (wp_go; [exact Hhp|]); (destruct (Nat.ltb_spec u (nhd hp)) as [Hu|Hu];
      [|wp_go; exists hp; split_and!; auto]); [lia|].
  destruct (lookup_lt_is_Some_2 (hd hp) u) as [t Ht]; [lia|].
  apply wp_bind, wp_liftO. eexists.
  split; [apply (header_match_ok re_match hp u None); [done|done|by eapply Hset]|].
  apply wp_bind. destruct (matches re_match None (what hdr) t) eqn:Hm.
  - rewrite Ht. destruct t as [b|]; [|done]. eapply wp_mono.
    + eapply (wp_self_append hdr cap u); [done|done|by exists hp].
    + intros [] s' Hs'. apply IH; [done|lia].
  - apply wp_ret. apply IH; [|lia]. exists hp. split; [done|]. split; [done|]. split; [done|].
    split; [eapply lines_set_le; [|exact Hset]; lia|].
    destruct Hfull as [?|(j & t' & Hj & Hj' & Hmj)]; [by left|]. right. exists j, t'.
    split; [|done]. destruct (decide (j = u)) as [->|]; [congruence|lia].
Qed.

(** Copying a header onto itself visits the lines it has appended, so it
    ends only when the object is full: if the object has a line of that name
    and the workspace never runs out, every free place is filled. *)
Theorem copy_self_fills hdr s hp i b :
  (∀ h ss w, (VRT_String h ss w).1 ≠ None) → name_ok (what hdr) →
  https (priv s) !! where_ hdr = Some hp → http_ok first hp →
  first ≤ i < nhd hp → hd hp !! i = Some (Some b) →
  matches re_match None (what hdr) (Some b) = true →
  wp (vmod_copy first re_match hdr hdr) (λ _ s', ∃ hp',
    https (priv s') !! where_ hdr = Some hp' ∧ length (hd hp') = length (hd hp) ∧
    nhd hp' = length (hd hp')) s.
Proof.
  intros Hstr Hname Hhp [[Hn Hlen] Hset] Hi Hb Hm. unfold vmod_copy, header_http_cphdr.
  apply wp_bind. unfold VRT_selecthttp at 1. wp_go; [exact Hhp|].
  unfold VRT_selecthttp at 1. wp_go; [exact Hhp|].
  eapply wp_mono; [apply (wp_self_cphdr hdr (length (hd hp))); [done|done| |lia]|].
  - exists hp. split; [done|]. split; [split; lia|]. split; [done|]. split; [done|]. right. by exists i, (Some b).
  - intros [] s' (hp' & H1 & H2 & H3). exists hp'. split_and!; congruence.
Qed.

(** The second VCL that loads the module initialises the one static
    mutex again while it is in use, which POSIX leaves undefined. *)
Theorem second_load_undefined s :
  mutex_init (priv s) = false →
  ∃ s', event_function (R:=R) (W:=W) true s = Ret (0%Z, s') ∧ ∃ w, event_function true s' = Undef w.
Proof.
  intros Hm. unfold event_function, mbind, M_bind, getS. simpl. rewrite Hm. simpl.
  eexists. split; [done|]. by eexists.
Qed.
End properties.

(** ** Concrete runs *)
Module Examples.
(** Enough of Varnish to run the examples. *)
Definition set_header (hp : http) (b : bytes) : http :=
  if nhd hp <? length (hd hp)
  then Http (<[nhd hp := Some b]> (hd hp)) (<[nhd hp := 0%N]> (hdf hp)) (S (nhd hp)) else hp.
#[export] Instance simple_api : HttpApi Z := {
  http_SetHeader := set_header;
  VRT_String h ss w := (Some (h ++ " "%char :: concat (default [] <$> ss)), w);
}.
#[export] Instance simple_laws : HttpLaws Z.
Proof.
  split; simpl.
  - intros hp b Hlt _. unfold set_header. by rewrite (proj2 (Nat.ltb_lt _ _)).
  - intros hp b Hge. unfold set_header. by rewrite (proj2 (Nat.ltb_ge _ _)).
  - by intros h ss w b w' [= <- _].
Qed.
(** A regular expression is a string to be found at the start; the empty one
    does not compile. *)
Definition re_init (t : bytes) : option bytes := if t is [] then None else Some t.
Definition re_match (re t : bytes) : bool := strncaseeq t re (length re).
Definition hdr_of (o : N) (nm : string) : gethdr :=
  Gethdr o (ascii_of_nat (S (String.length nm)) :: str nm ++ [":"%char]).
Definition set_cookie : gethdr := hdr_of 0 "Set-Cookie".
Definition old_cookie : gethdr := hdr_of 0 "X-Old".
Definition resp : http :=
  Http ((Some <$> [str "HTTP/1.1 200"; str "Set-Cookie: a=1"; str "Age: 0"; str "set-cookie: b=2"])
          ++ [None; None]) [0; 1; 2; 3; 0; 0]%N 4.
Definition s0 : task (hdr_state bytes) Z := Task (HdrState {[ 0%N := resp ]} None false) 100%Z [].
Lemma name_set_cookie : name_ok (what set_cookie).
Proof. by exists (str "Set-Cookie"). Qed.
Lemma resp_ok : http_ok 1 resp.
Proof.
  split; [split; simpl; lia|]. intros j t [Hj Hlt] Ht. simpl in *.
  do 4 (destruct j as [|j]; [by injection Ht as <-|]). lia.
Qed.
End Examples.
Import Examples.

Lemma remove_exact_witness :
  match site_re re_init s0 (str "b") with
  | None => ∃ w, vmod_remove 1 re_init re_match set_cookie (str "b") s0 = Panic w
  | Some re =>
      wp (vmod_remove 1 re_init re_match set_cookie (str "b")) (λ _ s', ∃ hp',
        https (priv s') = <[0%N := hp']> (https (priv s0)) ∧ http_ok 1 hp' ∧
        fields hp' = take 1 (fields resp) ++
          filter (kept re_match (Some re) (what set_cookie)) (drop 1 (fields resp)) ∧
        regex (priv s') = Some re) s0
  end.
Proof.
  apply (remove_exact 1 re_init re_match set_cookie (str "b") s0 resp);
    [reflexivity|apply resp_ok|apply name_set_cookie].
Defined.

Lemma get_exact_witness :
  match site_re re_init s0 (str "b") with
  | None => ∃ w, vmod_get 1 re_init re_match set_cookie (str "b") s0 = Panic w
  | Some re0 =>
      let re := Some re0 in
      wp (vmod_get 1 re_init re_match set_cookie (str "b")) (λ r s',
        https (priv s') = https (priv s0) ∧ regex (priv s') = re ∧
        ((∃ i b, 1 ≤ i < nhd resp ∧ hd resp !! i = Some (Some b) ∧
            matches re_match re (what set_cookie) (Some b) = true ∧
            (∀ j t', 1 ≤ j < i → hd resp !! j = Some t' → matches re_match re (what set_cookie) t' = false) ∧
            r = Some (blank_after (drop (hdr_len (what set_cookie)) b))) ∨
         ((∀ j t', 1 ≤ j < nhd resp → hd resp !! j = Some t' →
             matches re_match re (what set_cookie) t' = false) ∧ r = None))) s0
  end.
Proof.
  apply (get_exact 1 re_init re_match set_cookie (str "b") s0 resp);
    [lia|reflexivity|apply resp_ok|apply name_set_cookie].
Defined.

Lemma copy_exact_witness :
  vmod_copy 1 re_match set_cookie old_cookie s0 =
  forM_ (omap (text_of re_match (what set_cookie)) (drop 1 (take (nhd resp) (hd resp))))
    (λ p, vmod_append old_cookie [Some p]) s0.
Proof.
  apply (copy_exact 1 re_match set_cookie old_cookie s0 resp);
    [reflexivity|apply resp_ok| |apply name_set_cookie|right; intros x; reflexivity].
  intros hp Hhp. vm_compute in Hhp. injection Hhp as <-. split; simpl; lia.
Defined.

Lemma copy_self_fills_witness :
  wp (vmod_copy 1 re_match set_cookie set_cookie) (λ _ s', ∃ hp',
    https (priv s') !! 0%N = Some hp' ∧ length (hd hp') = length (hd resp) ∧
    nhd hp' = length (hd hp')) s0.
Proof.
  apply (copy_self_fills 1 re_match set_cookie s0 resp 1 (str "Set-Cookie: a=1"));
    [done|apply name_set_cookie|reflexivity|apply resp_ok|simpl; lia|reflexivity|reflexivity].
Defined.

Lemma second_load_undefined_witness :
  ∃ s', event_function true s0 = Ret (0%Z, s') ∧ ∃ w, event_function true s' = Undef w.
Proof. apply (second_load_undefined s0). reflexivity. Defined.
