(* ===== verification/HeaderLock.v ===== *)
(** * vmod_header: initialising a regular expression from many threads

    header_init_re tests priv->priv, takes the one mutex of the module, tests
    again and compiles.  Header.v runs it to the end in one step; here every
    access to shared memory is a step of its own, the threads of a Varnish
    worker pool run in any order, and any number of call sites share the
    mutex.  An expression that does not compile stops the process in an
    assertion of VRT_re_init ([aborted]), and with it all threads.  Memory is
    sequentially consistent: the first test is made without
    the lock, and what a compiler or a CPU may do with that race is not
    modelled. *)
From S2P Require Import Prelude CStr Workspace Header.

(** Where a thread stands in header_init_re. *)
Inductive pc :=
| AtCheck        (* [if (priv->priv == NULL)], without the lock *)
| AtLock         (* [pthread_mutex_lock(&header_mutex)] *)
| AtRecheck      (* the second [if (priv->priv == NULL)] *)
| AtCompile      (* [VRT_re_init(&priv->priv, s)] *)
| AtFree         (* [priv->free = VRT_re_fini] *)
| AtUnlock       (* [pthread_mutex_unlock(&header_mutex)] *)
| Returned.
#[export] Instance pc_eq_dec : EqDecision pc.
Proof. solve_decision. Defined.
(** A call: its call site (the struct vmod_priv) and the text [s]. *)
Record thread := Thread { site : nat; text : bytes; at_ : pc }.

Record shared (R : Type) := Shared {
  privs : gmap nat R;          (* priv->priv of each call site; absent is NULL *)
  frees : gset nat;            (* the sites whose priv->free is set *)
  header_mutex : option nat;   (* the thread that holds it *)
  compiled : list nat;         (* the sites of the VRT_re_init calls so far *)
  threads : list thread;
  aborted : bool;              (* AN(t) in VRT_re_init has failed *)
}.
Arguments Shared {R} _ _ _ _ _ _.
Arguments privs {R} _.
Arguments frees {R} _.
Arguments header_mutex {R} _.
Arguments compiled {R} _.
Arguments threads {R} _.
Arguments aborted {R} _.

Section steps.
Context {R : Type} (re_init : bytes → option R).
Implicit Types (s : shared R) (i : nat).

Definition set_pc i (th : thread) (c : pc) s : shared R :=
  Shared (privs s) (frees s) (header_mutex s) (compiled s)
    (<[i := Thread (site th) (text th) c]> (threads s)) (aborted s).
Definition set_mutex (o : option nat) s : shared R :=
  Shared (privs s) (frees s) o (compiled s) (threads s) (aborted s).
Definition abort s : shared R :=
  Shared (privs s) (frees s) (header_mutex s) (compiled s) (threads s) true.
(** VRT_re_init has set priv->priv to [r]. *)
Definition set_priv_re x (r : R) s : shared R :=
  Shared (<[x := r]> (privs s)) (frees s) (header_mutex s) (x :: compiled s) (threads s) (aborted s).
Definition set_free x s : shared R :=
  Shared (privs s) ({[x]} ∪ frees s) (header_mutex s) (compiled s) (threads s) (aborted s).

(** One step of thread [i]; [None] when it has returned or waits for the
    mutex, or the process is gone. *)
Definition thread_step i s : option (shared R) :=
  if aborted s then None else
  th ← threads s !! i;
  match at_ th with
  | AtCheck =>
      Some (set_pc i th (match privs s !! site th with None => AtLock | Some _ => Returned end) s)
  | AtLock =>
      match header_mutex s with
      | None => Some (set_pc i th AtRecheck (set_mutex (Some i) s))
      | Some _ => None
      end
  | AtRecheck =>
      Some (set_pc i th (match privs s !! site th with None => AtCompile | Some _ => AtUnlock end) s)
  | AtCompile =>
      match re_init (text th) with
      | Some r => Some (set_pc i th AtFree (set_priv_re (site th) r s))
      | None => Some (abort s)
      end
  | AtFree =>
      Some (set_pc i th AtUnlock (set_free (site th) s))
  | AtUnlock => Some (set_pc i th Returned (set_mutex None s))
  | Returned => None
  end.
Inductive step : relation (shared R) :=
| step_thread i s s' : thread_step i s = Some s' → step s s'.

(** The calls [calls] are made while the sites in [ps] are initialised. *)
Definition start (ps : gmap nat R) (calls : list (nat * bytes)) : shared R :=
  Shared ps ∅ None [] ((λ c, Thread c.1 c.2 AtCheck) <$> calls) false.

(** A thread is between taking the mutex and releasing it. *)
Definition critical (c : pc) : bool :=
  match c with AtRecheck | AtCompile | AtFree | AtUnlock => true | _ => false end.
(** Running the threads in the order of a schedule; a thread that cannot
    move is passed over. *)
Fixpoint run (schedule : list nat) s : shared R :=
  match schedule with
  | [] => s
  | i :: schedule => run schedule (default s (thread_step i s))
  end.

(** ** The invariant *)
Record inv (ps : gmap nat R) (calls : list (nat * bytes)) s : Prop := Inv {
  inv_threads : (λ th, (site th, text th)) <$> threads s = calls;
  inv_mutex i th : threads s !! i = Some th → critical (at_ th) = true ↔ header_mutex s = Some i;
  inv_holder i : header_mutex s = Some i → i < length (threads s);
  inv_compile i th : threads s !! i = Some th → at_ th = AtCompile → privs s !! site th = None;
  inv_after i th : threads s !! i = Some th → at_ th ∈ [AtFree; AtUnlock; Returned] →
    is_Some (privs s !! site th);
  inv_dom : dom (privs s) = dom ps ∪ list_to_set (compiled s);
  inv_once : NoDup (compiled s) ∧ ∀ x, x ∈ compiled s → ps !! x = None;
  inv_kept : ps ⊆ privs s;
  inv_origin x r : privs s !! x = Some r →
    ps !! x = Some r ∨ ∃ t, (x, t) ∈ calls ∧ re_init t = Some r;
  inv_free x : x ∈ compiled s →
    x ∈ frees s ∨ ∃ i th, threads s !! i = Some th ∧ site th = x ∧ at_ th = AtFree;
  inv_abort : aborted s = true → ∃ x t, (x, t) ∈ calls ∧ re_init t = None;
}.

Lemma lookup_set_pc i th c (l : list thread) j th' :
  l !! i = Some th → <[i := Thread (site th) (text th) c]> l !! j = Some th' →
  (j = i ∧ th' = Thread (site th) (text th) c) ∨ (j ≠ i ∧ l !! j = Some th').
Proof.
  intros Hi Hj. destruct (decide (j = i)) as [->|Hne].
  - rewrite list_lookup_insert_eq in Hj by (by eapply lookup_lt_Some).
    injection Hj as <-. by left.
  - rewrite list_lookup_insert_ne in Hj by done. by right.
Qed.
Lemma threads_set_pc i th c (l : list thread) : l !! i = Some th →
  (λ th, (site th, text th)) <$> <[i := Thread (site th) (text th) c]> l =
  (λ th, (site th, text th)) <$> l.
Proof.
  intros Hi. rewrite list_fmap_insert. apply list_insert_id. by rewrite list_lookup_fmap, Hi.
Qed.

(** A step within or outside the critical section that leaves the memory
    alone. *)
Lemma inv_quiet ps calls s i th c :
  inv ps calls s → threads s !! i = Some th → critical c = critical (at_ th) →
  at_ th ≠ AtFree → (c = AtCompile → privs s !! site th = None) →
  (c ∈ [AtFree; AtUnlock; Returned] → is_Some (privs s !! site th)) →
  inv ps calls (set_pc i th c s).
Proof.
  intros [I1 I2 I3 I4 I5 I6 I7 I8 I9 I10 I11] Hi Hcrit Hnf Hc Ha. split; simpl; try done.
  - by rewrite threads_set_pc.
  - intros j th' [[-> ->]|[Hne Hj]]%lookup_set_pc; [|by apply I2|done]. simpl. rewrite Hcrit. by apply I2.
  - intros j Hj. rewrite length_insert. by apply I3.
  - intros j th' [[-> ->]|[Hne Hj]]%lookup_set_pc; [done|by eapply I4|done].
  - intros j th' [[-> ->]|[Hne Hj]]%lookup_set_pc; [done|by eapply I5|done].
  - intros x [Hx|(j & th' & Hj & Hx & Hat)]%I10; [by left|right].
    exists j, th'. split; [|done]. rewrite list_lookup_insert_ne; [done|]. intros ->. congruence.
Qed.
Lemma inv_lock ps calls s i th :
  inv ps calls s → threads s !! i = Some th → at_ th = AtLock → header_mutex s = None →
  inv ps calls (set_pc i th AtRecheck (set_mutex (Some i) s)).
Proof.
  intros [I1 I2 I3 I4 I5 I6 I7 I8 I9 I10 I11] Hi Hat Hm. split; simpl; try done.
  - by rewrite threads_set_pc.
  - intros j th' [[-> ->]|[Hne Hj]]%lookup_set_pc; [done| |done].
    rewrite (I2 _ _ Hj), Hm. split; [done|]. by intros [= ->].
  - intros j [= <-]. rewrite length_insert. by eapply lookup_lt_Some.
  - intros j th' [[-> ->]|[Hne Hj]]%lookup_set_pc; [done|by eapply I4|done].
  - intros j th' [[-> ->]|[Hne Hj]]%lookup_set_pc; [|by eapply I5|done]. simpl. set_solver.
  - intros x [Hx|(j & th' & Hj & Hx & Hat')]%I10; [by left|right].
    exists j, th'. split; [|done]. rewrite list_lookup_insert_ne; [done|]. intros ->. congruence.
Qed.
Lemma inv_unlock ps calls s i th :
  inv ps calls s → threads s !! i = Some th → at_ th = AtUnlock →
  inv ps calls (set_pc i th Returned (set_mutex None s)).
Proof.
  intros [I1 I2 I3 I4 I5 I6 I7 I8 I9 I10 I11] Hi Hat. split; simpl; try done.
  - by rewrite threads_set_pc.
  - assert (header_mutex s = Some i) as Hm by (apply (I2 _ _ Hi); by rewrite Hat).
    intros j th' [[-> ->]|[Hne Hj]]%lookup_set_pc; [done| |done].
    rewrite (I2 _ _ Hj), Hm. split; [|done]. by intros [= ->].
  - intros j th' [[-> ->]|[Hne Hj]]%lookup_set_pc; [done|by eapply I4|done].
  - intros j th' [[-> ->]|[Hne Hj]]%lookup_set_pc; [|by eapply I5|done]. intros _. simpl.
    eapply I5; [exact Hi|]. rewrite Hat. set_solver.
  - intros x [Hx|(j & th' & Hj & Hx & Hat')]%I10; [by left|right].
    exists j, th'. split; [|done]. rewrite list_lookup_insert_ne; [done|]. intros ->. congruence.
Qed.
(** The holder of the mutex is the only thread in the critical section. *)
Lemma inv_alone ps calls s i j th th' : inv ps calls s →
  threads s !! i = Some th → threads s !! j = Some th' →
  critical (at_ th) = true → critical (at_ th') = true → i = j.
Proof. intros I Hi Hj Ht Ht'. apply (inv_mutex _ _ _ I _ _ Hi) in Ht. apply (inv_mutex _ _ _ I _ _ Hj) in Ht'. congruence. Qed.
Lemma inv_call ps calls s i th :
  inv ps calls s → threads s !! i = Some th → (site th, text th) ∈ calls.
Proof.
  intros I Hi. rewrite <-(inv_threads _ _ _ I).
  apply (list_elem_of_fmap_2 (λ th, (site th, text th)) _ th). by eapply list_elem_of_lookup_2.
Qed.
Lemma inv_aborts ps calls s i th :
  inv ps calls s → threads s !! i = Some th → re_init (text th) = None → inv ps calls (abort s).
Proof.
  intros I Hi Hre. pose proof (inv_call _ _ _ _ _ I Hi).
  destruct I as [I1 I2 I3 I4 I5 I6 I7 I8 I9 I10 I11]. split; try done. by eauto.
Qed.
Lemma inv_compiles ps calls s i th r :
  inv ps calls s → threads s !! i = Some th → at_ th = AtCompile → re_init (text th) = Some r →
  inv ps calls (set_pc i th AtFree (set_priv_re (site th) r s)).
Proof.
  intros Hinv Hi Hat Hre. pose proof Hinv as [I1 I2 I3 I4 I5 I6 I7 I8 I9 I10 I11].
  pose proof (I4 _ _ Hi Hat) as Hnone. split; simpl.
  - by rewrite threads_set_pc.
  - intros j th' [[-> ->]|[Hne Hj]]%lookup_set_pc; [|by apply I2|done].
    rewrite <-(I2 _ _ Hi). simpl. by rewrite Hat.
  - intros j Hj. rewrite length_insert. by apply I3.
  - intros j th' [[-> ->]|[Hne Hj]]%lookup_set_pc; [done| |done]. intros Hc. exfalso. apply Hne.
    eapply inv_alone; [exact Hinv|exact Hj|exact Hi|by rewrite Hc|by rewrite Hat].
  - intros j th' [[-> ->]|[Hne Hj]]%lookup_set_pc; [|intros Ha|done]; simpl.
    { rewrite lookup_insert_eq. eauto. }
    apply lookup_insert_is_Some'. right. by eapply I5.
  - rewrite dom_insert_L, I6. set_solver.
  - destruct I7 as [Hn Hx]. split.
    + constructor; [|done]. intros Hin. apply not_elem_of_dom in Hnone. rewrite I6 in Hnone. set_solver.
    + intros x [->|?]%elem_of_cons; [|by apply Hx]. apply not_elem_of_dom in Hnone. rewrite I6 in Hnone.
      apply not_elem_of_dom. set_solver.
  - etrans; [exact I8|]. by apply insert_subseteq.
  - intros x r0. rewrite lookup_insert_Some. intros [[<- <-]|[_ Hx]]; [|by apply I9].
    right. exists (text th). split; [by eapply inv_call|done].
  - intros x Hx. destruct (decide (x = site th)) as [->|Hne].
    + right. exists i, (Thread (site th) (text th) AtFree). split; [|done].
      by rewrite list_lookup_insert_eq by (by eapply lookup_lt_Some).
    + apply elem_of_cons in Hx as [?|Hx]; [done|]. apply I10 in Hx as [?|(j & th' & Hj & Hs & Ha)]; [by left|].
      right. exists j, th'. split; [|done]. rewrite list_lookup_insert_ne; [done|]. intros ->. congruence.
  - exact I11.
Qed.
Lemma inv_frees ps calls s i th :
  inv ps calls s → threads s !! i = Some th → at_ th = AtFree →
  inv ps calls (set_pc i th AtUnlock
    (set_free (site th) s)).
Proof.
  intros [I1 I2 I3 I4 I5 I6 I7 I8 I9 I10 I11] Hi Hat. split; simpl; try done.
  - by rewrite threads_set_pc.
  - intros j th' [[-> ->]|[Hne Hj]]%lookup_set_pc; [|by apply I2|done].
    rewrite <-(I2 _ _ Hi). simpl. by rewrite Hat.
  - intros j Hj. rewrite length_insert. by apply I3.
  - intros j th' [[-> ->]|[Hne Hj]]%lookup_set_pc; [done|by eapply I4|done].
  - intros j th' [[-> ->]|[Hne Hj]]%lookup_set_pc; [|by eapply I5|done]. intros _. simpl.
    eapply I5; [exact Hi|]. rewrite Hat. set_solver.
  - intros x [Hx|(j & th' & Hj & Hx & Hat')]%I10; [left; set_solver|].
    destruct (decide (j = i)) as [->|Hne]; [left; set_solver by congruence|right].
    exists j, th'. split; [|done]. by rewrite list_lookup_insert_ne.
Qed.

Lemma thread_step_inv ps calls s s' i :
  inv ps calls s → thread_step i s = Some s' → inv ps calls s'.
Proof.
  intros Hinv Hs. unfold thread_step in Hs.
  assert (aborted s = false) as Hab by (by destruct (aborted s)). rewrite Hab in Hs.
  destruct (threads s !! i) as [th|] eqn:Hi; [|done]. cbn in Hs. destruct (at_ th) eqn:Hat; try discriminate Hs.
  - injection Hs as <-. destruct (privs s !! site th) eqn:Hp;
      (apply inv_quiet; [done|done|by rewrite Hat|by rewrite Hat|done|]); [by rewrite Hp|set_solver].
  - destruct (header_mutex s) eqn:Hm; [done|]. injection Hs as <-. by apply inv_lock.
  - injection Hs as <-. destruct (privs s !! site th) eqn:Hp;
      (apply inv_quiet; [done|done|by rewrite Hat|by rewrite Hat|done|]); [by rewrite Hp|set_solver].
  - destruct (re_init (text th)) as [r|] eqn:Hre; injection Hs as <-;
      [by apply inv_compiles|by eapply inv_aborts].
  - injection Hs as <-. by apply inv_frees.
  - injection Hs as <-. by apply inv_unlock.
Qed.
Lemma start_inv ps calls : inv ps calls (start ps calls).
Proof.
  assert (∀ i th, threads (start ps calls) !! i = Some th → at_ th = AtCheck) as Hat.
  { intros i th. simpl. rewrite list_lookup_fmap. intros (c & _ & ->)%fmap_Some. done. }
  split; simpl.
  - rewrite <-list_fmap_compose. rewrite <-(list_fmap_id calls) at 2. by apply list_fmap_ext; intros ? [].
  - intros i th Hi. by rewrite (Hat i th Hi).
  - done.
  - intros i th Hi. by rewrite (Hat i th Hi).
  - intros i th Hi. rewrite (Hat i th Hi). set_solver.
  - set_solver.
  - split; [constructor|set_solver].
  - done.
  - by left.
  - set_solver.
  - done.
Qed.
Lemma steps_inv ps calls s s' : inv ps calls s → rtc step s s' → inv ps calls s'.
Proof. intros Hi Hr. induction Hr as [|s s1 s' [i ? ? Hs] _ IH]; [done|]. by eapply IH, thread_step_inv. Qed.

(** ** Progress *)
(** The steps a thread may still take. *)
Definition left_to_do (c : pc) : nat :=
  match c with
  | AtCheck => 6 | AtLock => 5 | AtRecheck => 4 | AtCompile => 3 | AtFree => 2 | AtUnlock => 1
  | Returned => 0
  end.
Definition thread_work s : nat := sum_list ((λ th, left_to_do (at_ th)) <$> threads s).
Definition work s : nat := if aborted s then 0 else thread_work s.

Lemma sum_list_insert (l : list nat) i n m : l !! i = Some n → m < n → sum_list (<[i := m]> l) < sum_list l.
Proof.
  revert i. induction l as [|x l IH]; intros [|i]; simpl; [done..| |].
  - intros [= ->]. lia.
  - intros Hi Hm. specialize (IH i Hi Hm). lia.
Qed.
Lemma work_set_pc s s1 i th c : aborted s = false → aborted s1 = false →
  threads s1 = threads s → threads s !! i = Some th →
  left_to_do c < left_to_do (at_ th) → work (set_pc i th c s1) < work s.
Proof.
  intros Ha Ha1 Ht Hi Hc. unfold work, thread_work. simpl. rewrite Ha, Ha1, Ht, list_fmap_insert.
  eapply sum_list_insert; [|exact Hc]. by rewrite list_lookup_fmap, Hi.
Qed.
Lemma thread_step_work s s' i : thread_step i s = Some s' → work s' < work s.
Proof.
  unfold thread_step. destruct (aborted s) eqn:Ha; [done|].
  destruct (threads s !! i) as [th|] eqn:Hi; [|done]. cbn.
  destruct (at_ th) eqn:Hat; try done;
    [|destruct (header_mutex s); [done|]| |destruct (re_init (text th))|..]; intros [= <-];
    try (eapply work_set_pc; [done|done|done|exact Hi|rewrite Hat]); simpl; try destruct (privs s !! _); simpl; try lia.
  unfold work. simpl. rewrite Ha. unfold thread_work.
  assert (((λ th, left_to_do (at_ th)) <$> threads s) !! i = Some 3) as Hl
    by (by rewrite list_lookup_fmap, Hi; simpl; rewrite Hat).
  pose proof (sum_list_insert _ _ _ 0 Hl). lia.
Qed.
(** While a thread has not returned, some thread can move. *)
Lemma progress ps calls s i th :
  inv ps calls s → aborted s = false → threads s !! i = Some th → at_ th ≠ Returned → ∃ s', step s s'.
Proof.
  intros Hinv Ha Hi Hat. destruct (header_mutex s) as [j|] eqn:Hm.
  - pose proof (inv_holder _ _ _ Hinv j Hm) as Hj. apply lookup_lt_is_Some in Hj as [th' Hj].
    pose proof (proj2 (inv_mutex _ _ _ Hinv j th' Hj) Hm) as Hc.
    destruct (thread_step j s) as [s'|] eqn:Hs; [exists s'; by econstructor|]. exfalso.
    unfold thread_step in Hs. rewrite Ha, Hj in Hs. cbn in Hs.
    destruct (at_ th'); try done. by destruct (re_init _).
  - destruct (thread_step i s) as [s'|] eqn:Hs; [exists s'; by econstructor|]. exfalso.
    unfold thread_step in Hs. rewrite Ha, Hi in Hs. cbn in Hs. rewrite Hm in Hs.
    destruct (at_ th); try done. by destruct (re_init _).
Qed.
End steps.

Section properties.
Context {R : Type} (re_init : bytes → option R).
Implicit Types (s : shared R) (ps : gmap nat R).

Lemma run_steps schedule s : rtc (step re_init) s (run re_init schedule s).
Proof.
  revert s. induction schedule as [|i sched IH]; intros s; simpl; [done|].
  destruct (thread_step re_init i s) as [s'|] eqn:Hs; simpl; [|apply IH].
  eapply rtc_l; [by econstructor|apply IH].
Qed.
Lemma steps_kept ps calls s s' :
  inv re_init ps calls s → rtc (step re_init) s s' → privs s ⊆ privs s'.
Proof.
  intros Hi Hr. induction Hr as [|s s1 s' Hst _ IH]; [done|]. destruct Hst as [i s s1 Hs].
  etrans; [|by eapply IH, thread_step_inv].
  unfold thread_step in Hs.
  assert (aborted s = false) as Hab by (by destruct (aborted s)). rewrite Hab in Hs.
  destruct (threads s !! i) as [th|] eqn:Hth; [|done]. cbn in Hs.
  destruct (at_ th) eqn:Hat; try discriminate Hs;
    [|destruct (header_mutex s); [done|]| |destruct (re_init (text th))|..]; injection Hs as <-; try done.
  apply insert_subseteq. by eapply inv_compile.
Qed.
Lemma nsteps_work n s s' : nsteps (step re_init) n s s' → n + work s' ≤ work s.
Proof.
  induction 1 as [|n s s1 s' [i ? ? Hs] _ IH]; [done|]. apply thread_step_work in Hs. lia.
Qed.

(** C21: header_init_re, called by any number of threads at any number of call
    sites, in any interleaving of their memory accesses: a regular expression
    is compiled at most once for each call site, never for one that had one
    already; at most one thread is between taking the mutex and releasing it;
    a thread that returned finds an expression at its site, the one that was
    there at the start or the one made from the text of one of the calls for
    the site; and an expression is never replaced. *)
Theorem init_re_once ps calls s :
  rtc (step re_init) (start ps calls) s →
  NoDup (compiled s) ∧ (∀ x, x ∈ compiled s → ps !! x = None) ∧
  (∀ i j th th', threads s !! i = Some th → threads s !! j = Some th' →
     critical (at_ th) = true → critical (at_ th') = true → i = j) ∧
  (∀ i th, threads s !! i = Some th → at_ th = Returned →
     ∃ r, privs s !! site th = Some r ∧
       (ps !! site th = Some r ∨ ∃ t, (site th, t) ∈ calls ∧ re_init t = Some r)) ∧
  (∀ s', rtc (step re_init) s s' → privs s ⊆ privs s').
Proof.
  intros Hr. pose proof (steps_inv _ _ _ _ _ (start_inv re_init ps calls) Hr) as Hinv.
  split_and!; [apply Hinv|apply Hinv|intros; by eapply inv_alone| |intros; by eapply steps_kept].
  intros i th Hi Hat. destruct (inv_after _ _ _ _ Hinv i th Hi) as [r Hp]; [rewrite Hat; set_solver|].
  exists r. split; [done|]. by apply (inv_origin _ _ _ _ Hinv).
Qed.

(** C22: the calls of header_init_re always come to an end: no interleaving
    has more than six steps for each call, and when no thread can move, either
    the process was stopped by an expression of one of the calls that does not
    compile (the assertion in VRT_re_init), or every call has returned (there
    is no deadlock), the mutex is free, every call site has an expression, and
    priv->free is set for each one that was compiled. *)
Theorem init_re_ends ps calls n s :
  nsteps (step re_init) n (start ps calls) s →
  n ≤ 6 * length calls ∧
  (aborted s = true → ∃ x t, (x, t) ∈ calls ∧ re_init t = None) ∧
  ((∀ s', ¬ step re_init s s') → aborted s = false →
     (∀ th, th ∈ threads s → at_ th = Returned) ∧ header_mutex s = None ∧
     (∀ x t, (x, t) ∈ calls → is_Some (privs s !! x)) ∧
     (∀ x, x ∈ compiled s → x ∈ frees s)).
Proof.
  intros Hn. split.
  { apply nsteps_work in Hn. assert (work (start ps calls) = 6 * length calls) as Hw.
    { unfold work, thread_work. simpl. clear. induction calls as [|c l IH]; [done|]. cbn. cbn in IH. rewrite IH. lia. }
    lia. }
  apply rtc_nsteps_2 in Hn.
  pose proof (steps_inv _ _ _ _ _ (start_inv re_init ps calls) Hn) as Hinv.
  split; [by eapply inv_abort|]. intros Hstuck Hab.
  assert (∀ i th, threads s !! i = Some th → at_ th = Returned) as Hret.
  { intros i th Hi. destruct (decide (at_ th = Returned)) as [|Hne]; [done|].
    destruct (progress _ _ _ _ _ _ Hinv Hab Hi Hne) as [s' Hs']. by destruct (Hstuck s'). }
  split_and!.
  - intros th [i Hi]%list_elem_of_lookup. by eapply Hret.
  - destruct (header_mutex s) as [i|] eqn:Hm; [|done]. exfalso.
    pose proof (inv_holder _ _ _ _ Hinv i Hm) as Hi. apply lookup_lt_is_Some in Hi as [th Hi].
    apply (inv_mutex _ _ _ _ Hinv i th Hi) in Hm. by rewrite (Hret _ _ Hi) in Hm.
  - intros x t Hin. rewrite <-(inv_threads _ _ _ _ Hinv) in Hin.
    apply list_elem_of_fmap in Hin as (th & [= -> ->] & [i Hi]%list_elem_of_lookup).
    eapply inv_after; [exact Hinv|exact Hi|]. rewrite (Hret _ _ Hi). set_solver.
  - intros x Hx. destruct (inv_free _ _ _ _ Hinv x Hx) as [|(i & th & Hi & _ & Hat)]; [done|].
    by rewrite (Hret _ _ Hi) in Hat.
Qed.

(** A thread alone does what header_init_re of Header.v does. *)
Lemma alone_is_header_init_re {W} t (k : task (hdr_state R) W) x :
  let ps : gmap nat R := match regex (priv k) with Some r => {[ x := r ]} | None => ∅ end in
  let s := run re_init (replicate 6 0) (start ps [(x, t)]) in
  match header_init_re re_init t k with
  | Ret (_, k') => aborted s = false ∧ regex (priv k') = privs s !! x
  | _ => aborted s = true
  end.
Proof.
  intros ps s. unfold header_init_re, mbind, M_bind, getS. subst ps s.
  destruct (regex (priv k)) as [r|] eqn:Hr; cbn.
  - rewrite lookup_singleton_eq. cbn. by rewrite lookup_singleton_eq.
  - rewrite Hr, lookup_empty. cbn. rewrite lookup_empty. cbn. destruct (re_init t) as [r|]; cbn; [|done].
    by rewrite lookup_insert_eq.
Qed.
End properties.

(** Three threads, two of them at one site, all past the first test before
    any holds the mutex. *)
Definition race : shared bytes :=
  run Some [0; 1; 2; 1; 0; 1; 1; 2; 1; 1; 0; 0; 0; 2; 2; 2; 2; 2]
    (start {[ 7 := str "old" ]} [(3, str "a"); (3, str "b"); (4, str "c")]).
Lemma init_re_once_witness :
  at_ <$> threads race = [Returned; Returned; Returned] ∧
  compiled race = [4; 3] ∧ privs race !! 3 = Some (str "b") ∧
  NoDup (compiled race) ∧ (∀ x, x ∈ compiled race → ({[ 7 := str "old" ]} : gmap nat bytes) !! x = None) ∧
  (∀ i j th th', threads race !! i = Some th → threads race !! j = Some th' →
     critical (at_ th) = true → critical (at_ th') = true → i = j) ∧
  (∀ i th, threads race !! i = Some th → at_ th = Returned →
     ∃ r, privs race !! site th = Some r ∧
       (({[ 7 := str "old" ]} : gmap nat bytes) !! site th = Some r ∨
        ∃ t, (site th, t) ∈ [(3, str "a"); (3, str "b"); (4, str "c")] ∧ Some t = Some r)) ∧
  (∀ s', rtc (step Some) race s' → privs race ⊆ privs s').
Proof.
  split; [vm_compute; reflexivity|]. split; [vm_compute; reflexivity|]. split; [vm_compute; reflexivity|].
  apply (init_re_once Some {[ 7 := str "old" ]} [(3, str "a"); (3, str "b"); (4, str "c")] race).
  apply run_steps.
Defined.
(** Two calls, the second with an expression that does not compile: it
    fails, or finds the expression of the first. *)
Definition picky (t : bytes) : option bytes := if t is [] then None else Some t.
Example one_order_aborts :
  aborted (run picky [1; 1; 1; 1; 0; 0] (start ∅ [(3, str "a"); (3, [])])) = true ∧
  aborted (run picky [0; 0; 0; 0; 0; 0; 1] (start ∅ [(3, str "a"); (3, [])])) = false.
Proof. vm_compute. done. Qed.
Lemma init_re_ends_witness :
  let s := run Some [0; 0; 0; 0; 0; 0] (start ∅ [(3, str "a")]) in
  6 ≤ 6 * 1 ∧ (aborted s = true → ∃ x t, (x, t) ∈ [(3, str "a")] ∧ Some t = None) ∧
  ((∀ s', ¬ step Some s s') → aborted s = false →
     (∀ th, th ∈ threads s → at_ th = Returned) ∧ header_mutex s = None ∧
     (∀ x t, (x, t) ∈ [(3, str "a")] → is_Some (privs s !! x)) ∧
     (∀ x, x ∈ compiled s → x ∈ frees s)).
Proof.
  apply (init_re_ends Some ∅ [(3, str "a")] 6).
  do 6 (eapply nsteps_l; [apply (step_thread _ 0); reflexivity|]). apply nsteps_O.
Defined.
