(* ===== verification/HeaderCalls.v ===== *)
(** * vmod_header: the calls of a VCL program

    A VCL program calls append(), get(), copy() and remove() in any order on
    the HTTP objects of a task; the regular expression belongs to the call
    site (PRIV_CALL), the objects to the task.  Here is what every such
    program preserves: the type invariant of the objects, that is, the fill
    count of a struct http lies between the request line and the capacity of
    its two parallel arrays, which keep their length, and its header lines are
    set. *)
From S2P Require Import Prelude CStr Workspace Header.

Inductive hdr_call :=
| Call_append (hdr : gethdr) (fmt : list (option bytes))
| Call_get (hdr : gethdr) (re : bytes)
| Call_copy (src dst : gethdr)
| Call_remove (hdr : gethdr) (re : bytes).

Section calls.
Context {R W : Type} `{HttpApi W}.
Context (first : nat) (re_init : bytes → option R) (re_match : R → bytes → bool).
Abbreviation hm := (M (task (hdr_state R) W)).

Definition call (c : hdr_call) : hm (option bytes) :=
  match c with
  | Call_append hdr fmt => vmod_append hdr fmt;;; mret None
  | Call_get hdr re => vmod_get first re_init re_match hdr re
  | Call_copy src dst => vmod_copy first re_match src dst;;; mret None
  | Call_remove hdr re => vmod_remove first re_init re_match hdr re;;; mret None
  end.

(** The expressions of all call sites, and the task. *)
Abbreviation program_state := (gmap nat R * task (hdr_state R) W)%type.
(** A call made from site [i]: priv->priv is that site's. *)
Definition at_site {A} (i : nat) (m : hm A) : M program_state A := λ s,
  let '(sites, k) := s in
  match m (Task (HdrState (https (priv k)) (sites !! i) (mutex_init (priv k))) (ws k) (vsl k)) with
  | Ret (a, k') =>
      Ret (a, (match regex (priv k') with Some r => <[i := r]> sites | None => sites end, k'))
  | Panic w => Panic w
  | Undef w => Undef w
  | NoFuel => NoFuel
  end.
Fixpoint run_calls (program : list (nat * hdr_call)) : M program_state (list (option bytes)) :=
  match program with
  | [] => mret []
  | (i, c) :: program => a ← at_site i (call c); rest ← run_calls program; mret (a :: rest)
  end.

(** Types: the objects of a task, and a call on objects that exist with
    names as VCL compiles them and an expression that compiles. *)
Definition http_typed (s : task (hdr_state R) W) : Prop :=
  ∀ o hp, https (priv s) !! o = Some hp → http_ok first hp.
Definition call_typed (objects : gset N) (c : hdr_call) : Prop :=
  match c with
  | Call_append hdr _ => where_ hdr ∈ objects
  | Call_get hdr t | Call_remove hdr t =>
      where_ hdr ∈ objects ∧ name_ok (what hdr) ∧ is_Some (re_init t)
  | Call_copy src dst => where_ src ∈ objects ∧ name_ok (what src) ∧ where_ dst ∈ objects
  end.
(** The capacities of the objects. *)
Definition caps (s : task (hdr_state R) W) : gmap N nat := (λ hp, length (hd hp)) <$> https (priv s).
End calls.

Section preservation.
Context {R W : Type} `{HttpLaws W}.
Context (first : nat) (re_init : bytes → option R) (re_match : R → bytes → bool).
Abbreviation st := (task (hdr_state R) W).
Implicit Types (s : st) (hp : http) (hdr src dst : gethdr).

(** What a call may do to the state. *)
Definition preserved s s' : Prop :=
  http_typed first s' ∧ caps s' = caps s ∧
  (∀ r, regex (priv s) = Some r → regex (priv s') = Some r).

Lemma preserved_refl s : http_typed first s → preserved s s.
Proof. by intros. Qed.
Lemma preserved_trans s s1 s' : preserved s s1 → preserved s1 s' → preserved s s'.
Proof. intros (_ & H1 & H2) (H3 & H4 & H5). split; [done|]. split; [congruence|auto]. Qed.
Lemma caps_object s o hp s' : caps s' = caps s → https (priv s) !! o = Some hp →
  ∃ hp', https (priv s') !! o = Some hp' ∧ length (hd hp') = length (hd hp).
Proof.
  intros Hc Ho. assert (caps s !! o = Some (length (hd hp))) as Hl by (unfold caps; by rewrite lookup_fmap, Ho).
  rewrite <-Hc in Hl. unfold caps in Hl. rewrite lookup_fmap in Hl.
  destruct (https (priv s') !! o) as [hp'|]; [|done]. injection Hl as Hl. by exists hp'.
Qed.
Lemma caps_dom s o : o ∈ dom (caps s) ↔ is_Some (https (priv s) !! o).
Proof. unfold caps. by rewrite dom_fmap_L, elem_of_dom. Qed.

(** Replacing an object by one of the same capacity. *)
Lemma preserved_put s o hp hp' re mi w log :
  http_typed first s → https (priv s) !! o = Some hp → http_ok first hp' →
  length (hd hp') = length (hd hp) →
  (∀ r, regex (priv s) = Some r → re = Some r) →
  preserved s (Task (HdrState (<[o := hp']> (https (priv s))) re mi) w log).
Proof.
  intros Hs Ho Hok Hl Hre. split; [|split; [|done]].
  - intros o' hp1. simpl. rewrite lookup_insert_Some. intros [[_ <-]|[_ Hp]]; [done|by eapply Hs].
  - unfold caps. simpl. rewrite fmap_insert, Hl. apply insert_id. by rewrite lookup_fmap, Ho.
Qed.

Lemma append_preserves hdr fmt s :
  http_typed first s → is_Some (https (priv s) !! where_ hdr) →
  wp (vmod_append hdr fmt) (λ _, preserved s) s.
Proof.
  intros Hs [hp Hhp]. unfold vmod_append. destruct (head fmt) as [[b|]|]; [|by apply wp_ret..].
  unfold VRT_selecthttp, put_http. wp_go; [exact Hhp|].
  destruct (VRT_String _ _ _) as [[line|] w]; wp_go; [|done].
  destruct (Hs _ _ Hhp) as [[Hn Hlen] Hset].
  destruct (set_header_ok hp line) as ([Hok1 Hok2] & Hcap & Hge & _); [split; lia|].
  apply preserved_put with hp; [done|done| |done|done].
  split; [split; [lia|done]|]. apply lines_set_header; [split; lia|done].
Qed.

Lemma cphdr_preserves fuel u src dst s hp :
  http_typed first s → https (priv s) !! where_ src = Some hp → is_Some (https (priv s) !! where_ dst) →
  name_ok (what src) → first ≤ u → length (hd hp) ≤ fuel + u →
  wp (cphdr_loop re_match fuel u (where_ src) (what src) dst) (λ _, preserved s) s.
Proof.
  revert u s hp. induction fuel as [|fuel IH]; intros u s hp Hs Hhp Hdst Hname Hu0 Hfuel;
    destruct (Hs _ _ Hhp) as [[Hn Hlen] Hset]; cbn [cphdr_loop]; apply wp_bind; unfold VRT_selecthttp at 1;
    (wp_go; [exact Hhp|]); (destruct (Nat.ltb_spec u (nhd hp)) as [Hu|Hu];
      [|by apply wp_ret]); [lia|].
  destruct (lookup_lt_is_Some_2 (hd hp) u) as [t Ht]; [lia|].
  apply wp_bind, wp_liftO. eexists.
  split; [apply (header_match_ok re_match hp u None); [done|done|eapply Hset; [|done]; lia]|].
  apply wp_bind. destruct (matches re_match None (what src) t) eqn:Hm.
  - rewrite Ht. destruct t as [b|]; [|done]. eapply wp_mono; [by apply append_preserves|].
    intros [] s1 H1. pose proof H1 as (Hs1 & Hc1 & _).
    destruct (caps_object s _ hp s1 Hc1 Hhp) as (hp1 & Hhp1 & Hl1).
    eapply wp_mono; [eapply (IH (S u) s1 hp1); [done|done| |done|lia|lia]|].
    + apply caps_dom. rewrite Hc1. by apply caps_dom.
    + intros [] s2. by apply preserved_trans.
  - apply wp_ret. apply (IH (S u) s hp); [done..|lia|lia].
Qed.

Lemma site_re_some s t : is_Some (re_init t) →
  ∃ re, site_re re_init s t = Some re ∧ ∀ r, regex (priv s) = Some r → Some re = Some r.
Proof.
  intros [r Hr]. unfold site_re. destruct (regex (priv s)) as [re|]; eexists; (split; [done|]); [|done].
  by intros r' [= ->].
Qed.
Lemma call_preserves c s :
  http_typed first s → call_typed re_init (dom (caps s)) c →
  wp (call first re_init re_match c) (λ _, preserved s) s.
Proof.
  intros Hs. destruct c as [hdr fmt|hdr t|src dst|hdr t]; cbn [call_typed call]; rewrite ?caps_dom.
  - intros Ho. apply wp_bind. eapply wp_mono; [by apply append_preserves|]. by intros [] s1 H1; apply wp_ret.
  - intros ([hp Hhp] & Hname & Hc). destruct (Hs _ _ Hhp) as [[Hn Hlen] Hset].
    destruct (site_re_some s t Hc) as (re & Hre & Hkeep).
    assert (∀ k, preserved s (Task (HdrState (https (priv s)) (Some re) k) (ws s) (vsl s))) as Hk by done.
    destruct (findhdr_loop_ok re_match (what hdr) Hname (Some re) (nhd hp - first) first hp)
      as [(i & b & Hi & _ & Hb & _)|[Hi _]]; [lia..|done| |];
      unfold vmod_get, VRT_selecthttp; wp_go; (apply (wp_init_re re_init t re); [done|]);
      (wp_go; [exact Hhp|exact Hi|]).
    + destruct (i =? 0); [|rewrite Hb]; by apply wp_ret.
    + by apply wp_ret.
  - intros ([hp Hhp] & Hname & Hdst). apply wp_bind. unfold vmod_copy, header_http_cphdr.
    apply wp_bind. unfold VRT_selecthttp at 1. wp_go; [exact Hhp|].
    unfold VRT_selecthttp at 1. wp_go; [exact Hhp|].
    eapply wp_mono; [apply (cphdr_preserves _ _ src dst s hp); [done..|lia|lia]|]. by intros [] s1 H1; apply wp_ret.
  - intros ([hp Hhp] & Hname & Hc). destruct (Hs _ _ Hhp) as [[Hn Hlen] Hset].
    destruct (site_re_some s t Hc) as (re & Hre & Hkeep).
    destruct (unset_loop_ok re_match (what hdr) Hname (Some re) (nhd hp - first)
      first first hp) as (hp' & v & Hrun & Hv & Hl1 & Hl2 & Hseg); [lia..|].
    assert (header_http_Unset first re_match hp (what hdr) (Some re) = Ret (Http (hd hp') (hdf hp') v)) as Hunset.
    { unfold header_http_Unset, mbind, outcome_bind. by rewrite Hrun. }
    unfold vmod_remove, VRT_selecthttp. wp_go. apply (wp_init_re re_init t re); [done|].
    wp_go; [exact Hhp|exact Hunset|].
    unfold put_http. wp_go. apply preserved_put with hp; simpl; [done|done| |done|done].
    split; [split; simpl; [lia|congruence]|].
    eapply (kept_lines_set re_match (what hdr) (Some re)); [exact Hn|exact Hlen|lia|lia|exact Hseg].
Qed.

Lemma at_site_preserves {A} i (m : M st A) (sites : gmap nat R) k (Q : A → gmap nat R * st → Prop) :
  http_typed first k →
  (∀ k0, https (priv k0) = https (priv k) → wp m (λ _, preserved k0) k0) →
  (∀ a sites' k', http_typed first k' → caps k' = caps k → sites ⊆ sites' → Q a (sites', k')) →
  wp (at_site i m) Q (sites, k).
Proof.
  intros Hs Hm HQ. unfold wp, at_site.
  specialize (Hm (Task (HdrState (https (priv k)) (sites !! i) (mutex_init (priv k))) (ws k) (vsl k)) eq_refl).
  unfold wp in Hm. destruct (m _) as [[a k']| | |]; try done. destruct Hm as (Hs' & Hc & Hre).
  apply HQ; [done|done|]. simpl in Hre. destruct (regex (priv k')) as [r|] eqn:Hr; [|done].
  destruct (sites !! i) as [r0|] eqn:Hi; [|by apply insert_subseteq].
  specialize (Hre r0 eq_refl). injection Hre as ->. by rewrite insert_id.
Qed.

(** C20: the types of vmod_header are preserved by every program: any sequence
    of append(), get(), copy() and remove() calls, from any call sites, on
    objects that exist and whose header lines are set, with names as VCL
    compiles them and expressions that compile, returns (no assertion fails,
    neither the Tchecks of the lines nor that of VRT_re_init, no array is read
    or written out of bounds, copy() ends even onto itself) and leaves every object with its fill count between the
    first header and its unchanged capacity, with its two arrays of that
    length and all its header lines set; and a call site never loses or changes its expression. *)
Theorem header_types_preserved (program : list (nat * hdr_call)) (sites : gmap nat R) (k : st) :
  http_typed first k → Forall (call_typed re_init (dom (caps k))) program.*2 →
  wp (run_calls first re_init re_match program) (λ answers q,
    length answers = length program ∧ http_typed first q.2 ∧ caps q.2 = caps k ∧
    sites ⊆ q.1) (sites, k).
Proof.
  revert sites k. induction program as [|[i c] program IH]; intros sites k Hs Hty; cbn [run_calls].
  { by apply wp_ret. }
  rewrite fmap_cons in Hty. apply Forall_cons in Hty as [Hc Hty]. apply wp_bind.
  apply at_site_preserves; [done| |].
  { intros k0 Hk0. apply call_preserves.
    - intros o hp. rewrite Hk0. apply Hs.
    - replace (caps k0) with (caps k) by (unfold caps; by rewrite Hk0). done. }
  intros a sites' k' Hs' Hcaps Hsub. apply wp_bind. eapply wp_mono; [apply IH; [done|by rewrite Hcaps]|].
  intros rest [sites2 k2]. cbn [fst snd]. intros (Hl & H2 & H3 & H4). apply wp_ret.
  simpl. split; [lia|]. split; [done|]. split; [congruence|]. by etrans.
Qed.
End preservation.

Import Header.Examples.
Lemma header_types_preserved_witness :
  let program := [(1, Call_get set_cookie (str "b")); (2, Call_append old_cookie [Some (str "x")]);
    (3, Call_copy set_cookie set_cookie); (4, Call_remove set_cookie (str "a"))] in
  (match run_calls 1 re_init re_match program (∅, s0) with Ret (a, _) => a | _ => [] end)
    = [Some (str "b=2"); None; None; None] ∧
  wp (run_calls 1 re_init re_match program) (λ answers s',
    length answers = length program ∧ http_typed 1 s'.2 ∧ caps s'.2 = caps s0 ∧
    ∅ ⊆ s'.1) (∅, s0).
Proof.
  split; [vm_compute; reflexivity|].
  apply (header_types_preserved 1 re_init re_match
    [(1, Call_get set_cookie (str "b")); (2, Call_append old_cookie [Some (str "x")]);
     (3, Call_copy set_cookie set_cookie); (4, Call_remove set_cookie (str "a"))] ∅ s0).
  - intros o hp Ho. vm_compute in Ho. destruct o; [|destruct p; discriminate Ho].
    injection Ho as <-. apply resp_ok.
  - assert (0%N ∈ dom (caps s0)) as H0 by (vm_compute; reflexivity).
    repeat constructor; solve [exact H0|apply name_set_cookie|by eexists].
Defined.
