(* ===== verification/BodyAccess.v ===== *)
(** * vmod_bodyaccess: the request body

    Models vmod_bodyaccess.c.  The body is stored by Varnish and handed to a
    callback piece by piece (VRB_Iterate, a parameter); a string buffer (VSB)
    is the bytes written to it; the hash context is the bytes fed to it.
    size_t arithmetic wraps at 2^64, and the buffer of bodyaccess_log keeps
    its allocated size, so that a write behind its end shows.  The interface of request bodies is the one of
    ObjIterate (HAVE_OBJITERATE_F). *)
From S2P Require Import Prelude CStr Workspace.

Inductive vcl_method := VCL_MET_RECV | VCL_MET_HASH | VCL_MET_OTHER.
Record request := Request {
  body_cached : bool;         (* req_body_status == REQ_BODY_CACHED *)
  req_bodybytes : Z;
}.
Record vrt_ctx := VrtCtx { method : vcl_method; ctx_req : request }.

Record body_state (R : Type) := BodyState {
  hashed : bytes;             (* what ctx->specific was fed *)
  regex : option R;           (* priv_call->priv *)
  vsb : option bytes;         (* the string buffer of the running call *)
}.
Arguments BodyState {R} _ _ _.
Arguments hashed {R} _.
Arguments regex {R} _.
Arguments vsb {R} _.

Definition size_t (z : Z) : Z := (z mod 2 ^ 64)%Z.
Definition blen (s : bytes) : Z := Z.of_nat (length s).
Definition VRE_ERROR_NOMATCH : Z := -1.

Section operations.
Context {R W : Type}.
Abbreviation bm := (M (task (body_state R) W)).
(** Does malloc(n) return a buffer? *)
Context (malloc : Z → bool).
(** VRB_Iterate(req, func, priv) for the callback [func]. *)
Context (VRB_Iterate : (bytes → bm Z) → bm Z).
Context (VRE_compile : bytes → option R) (VRE_exec : R → bytes → Z).

(** [memcpy(buf + at, src, n)] for a buffer of [size] bytes. *)
Definition memcpy_check (size at_ n : Z) : bm unit :=
  if (at_ + n <=? size)%Z then mret tt else undef "heap buffer overflow".

(** The while loop of bodyaccess_log; [str] are the [len] bytes to go. *)
Fixpoint log_loop (fuel : nat) (bufsize : Z) (pfx : bytes) (clen : Z) (s : bytes) : bm unit :=
  match s, fuel with
  | [], _ => mret tt
  | _ :: _, O => no_fuel
  | _ :: _, S fuel =>
      let size := if ((clen <? blen s) && (0 <? clen))%Z then clen else blen s in
      memcpy_check bufsize 0 (blen pfx);;;
      memcpy_check bufsize (blen pfx) size;;;
      VSLb SLT_Debug (pfx ++ take (Z.to_nat size) s);;;
      log_loop fuel bufsize pfx clen (drop (Z.to_nat size) s)
  end.
(** [clen] is ctx->len. *)
Definition bodyaccess_log (pfx : bytes) (clen : Z) (s : bytes) : bm Z :=
  let size := if (0 <? clen)%Z then clen else blen s in
  let size := size_t (size + blen pfx) in
  assertM (malloc size) "AN(buf)";;;
  log_loop (length s) size pfx clen s;;;
  mret 0%Z.

Definition VSB_new_auto : bm unit :=
  s ← getS; set_priv (BodyState (hashed (priv s)) (regex (priv s)) (Some [])).
Definition VSB_data : bm bytes := s ← getS; derefM (vsb (priv s)) "struct vsb".
Definition VSB_bcat (chunk : bytes) : bm Z :=
  data ← VSB_data;
  s ← getS;
  set_priv (BodyState (hashed (priv s)) (regex (priv s)) (Some (data ++ chunk)));;;
  mret 0%Z.
Definition VSB_delete : bm unit :=
  s ← getS; set_priv (BodyState (hashed (priv s)) (regex (priv s)) None).

Definition bodyaccess_bcat : bm unit :=
  l ← VRB_Iterate VSB_bcat;
  if (l <? 0)%Z then VSLb SLT_VCL_Error (str "Iteration on req.body didn't succeed.")
  else mret tt.

Definition vmod_hash_req_body (ctx : vrt_ctx) : bm unit :=
  if negb (body_cached (ctx_req ctx)) then VSLb SLT_VCL_Error (str "Unbuffered req.body")
  else
    match method ctx with
    | VCL_MET_HASH =>
        VSB_new_auto;;;
        bodyaccess_bcat;;;
        data ← VSB_data;
        s ← getS;
        set_priv (BodyState (hashed (priv s) ++ data) (regex (priv s)) (vsb (priv s)));;;
        VSLb SLT_Hash data;;;
        VSB_delete
    | _ => VSLb SLT_VCL_Error (str "hash_req_body can only be used in vcl_hash{}")
    end.

Definition vmod_len_req_body (ctx : vrt_ctx) : bm Z :=
  if negb (body_cached (ctx_req ctx)) then
    VSLb SLT_VCL_Error (str "Unbuffered req.body");;; mret (-1)%Z
  else
    match method ctx with
    | VCL_MET_RECV => mret (req_bodybytes (ctx_req ctx))
    | _ => VSLb SLT_VCL_Error (str "len_req_body can only be used in vcl_recv{}");;; mret (-1)%Z
    end.

(** The search itself, once the expression is compiled. *)
Definition run_regex (t : R) : bm Z :=
  VSB_new_auto;;;
  bodyaccess_bcat;;;
  data ← VSB_data;
  let i := VRE_exec t data in
  VSB_delete;;;
  if (0 <? i)%Z then mret 1%Z
  else if (i =? VRE_ERROR_NOMATCH)%Z then mret 0%Z
  else
    VSLb SLT_VCL_Error (str "Regexp matching returned " ++ print_Z i);;;
    mret (-1)%Z.
Definition vmod_rematch_req_body (ctx : vrt_ctx) (re : option bytes) : bm Z :=
  if negb (body_cached (ctx_req ctx)) then
    VSLb SLT_VCL_Error (str "Unbuffered req.body");;; mret (-1)%Z
  else
    match method ctx with
    | VCL_MET_RECV =>
        match re with
        | None => panic "AN(re)"
        | Some re =>
            s ← getS;
            match regex (priv s) with
            | Some t => run_regex t
            | None =>
                match VRE_compile re with
                | None =>
                    VSLb SLT_VCL_Error (str "Regular expression not valid");;; mret (-1)%Z
                | Some t =>
                    set_priv (BodyState (hashed (priv s)) (Some t) (vsb (priv s)));;;
                    run_regex t
                end
            end
        end
    | _ =>
        VSLb SLT_VCL_Error (str "rematch_req_body can be used only in vcl_recv{}");;; mret (-1)%Z
    end.

(** [length] is a VCL_INT, a signed 64-bit number. *)
Definition vmod_log_req_body (ctx : vrt_ctx) (prefix : option bytes) (length : Z) : bm unit :=
  let prefix := default [] prefix in
  let clen := size_t length in
  if negb (body_cached (ctx_req ctx)) then VSLb SLT_VCL_Error (str "Unbuffered req.body")
  else
    ret ← VRB_Iterate (bodyaccess_log prefix clen);
    if (ret <? 0)%Z then VSLb SLT_VCL_Error (str "Iteration on req.body didn't succeed.")
    else mret tt.
End operations.

(** ** What Varnish promises of VRB_Iterate

    The callback is called on the stored pieces in order; a callback that
    does not answer 0 stops the iteration with its answer, otherwise the
    answer is Varnish's own, negative when the body could not be read to
    its end. *)
Section iterate.
Context {St : Type}.
Fixpoint deliver (chunks : list bytes) (l : Z) (f : bytes → M St Z) : M St Z :=
  match chunks with
  | [] => mret l
  | c :: chunks => r ← f c; if (r =? 0)%Z then deliver chunks l f else mret r
  end.
End iterate.

(** The pieces of at most [k] bytes of a string ([k = 0]: one piece). *)
Fixpoint pieces (fuel k : nat) (s : bytes) : list bytes :=
  match s, fuel with
  | [], _ | _, O => []
  | _, S fuel =>
      let n := if ((k <? length s) && (0 <? k))%nat then k else length s in
      take n s :: pieces fuel k (drop n s)
  end.
Definition split_body (k : nat) (s : bytes) : list bytes := pieces (length s) k s.

Lemma pieces_spec fuel k s : length s ≤ fuel →
  concat (pieces fuel k s) = s ∧
  Forall (λ p, p ≠ [] ∧ (0 < k → length p ≤ k)) (pieces fuel k s).
Proof.
  revert s. induction fuel as [|fuel IH]; intros [|c s] Hf; simpl in Hf; try (by split); [lia|].
  cbn [pieces]. set (n := if _ : bool then k else _).
  assert (0 < n ≤ length (c :: s) ∧ (0 < k → n ≤ k)) as (Hn & Hk).
  { unfold n. destruct (Nat.ltb_spec k (length (c :: s))), (Nat.ltb_spec 0 k); simpl in *; lia. }
  destruct (IH (drop n (c :: s))) as [H1 H2]; [rewrite length_drop; simpl in *; lia|].
  cbn [concat]. rewrite H1, take_drop. split; [done|]. constructor; [|done].
  destruct n as [|n]; [lia|]. split; [done|]. intros Hk'. specialize (Hk Hk').
  rewrite length_take. lia.
Qed.

Section properties.
Context {R W : Type}.
Context (malloc : Z → bool).
Abbreviation st := (task (body_state R) W).
Context (VRB_Iterate : (bytes → M st Z) → M st Z).
Context (VRE_compile : bytes → option R) (VRE_exec : R → bytes → Z).
(** The stored pieces of the body and Varnish's own answer. *)
Context (chunks : list bytes) (l : Z) (HVRB : ∀ f, VRB_Iterate f = deliver chunks l f).
Implicit Types (s : st) (ctx : vrt_ctx).

Definition read_error : vsl_log :=
  if (l <? 0)%Z then [(SLT_VCL_Error, str "Iteration on req.body didn't succeed.")] else [].

Lemma wp_bcat data (Q : unit → st → Prop) s :
  vsb (priv s) = Some data →
  Q tt (Task (BodyState (hashed (priv s)) (regex (priv s)) (Some (data ++ concat chunks)))
          (ws s) (vsl s ++ read_error)) →
  wp (bodyaccess_bcat VRB_Iterate) Q s.
Proof using HVRB.
  unfold bodyaccess_bcat, read_error. rewrite HVRB. clear HVRB. intros Hv HQ. apply wp_bind.
  assert (∀ (Q' : Z → st → Prop),
    Q' l (Task (BodyState (hashed (priv s)) (regex (priv s)) (Some (data ++ concat chunks)))
            (ws s) (vsl s)) → wp (deliver chunks l VSB_bcat) Q' s) as Hd.
  { clear HQ. revert data s Hv. induction chunks as [|c cs IH]; intros data s Hv Q' HQ'; cbn [deliver].
    - wp_go. simpl in HQ'. rewrite app_nil_r, <-Hv in HQ'. by destruct s as [[] ? ?].
    - wp_go. unfold VSB_bcat at 1, VSB_data. wp_go; [exact Hv|]. cbn [Z.eqb]. apply (IH (data ++ c)); [done|].
      simpl in *. by rewrite <-(assoc_L (++)). }
  apply Hd. destruct (l <? 0)%Z; wp_go; [done|]. by rewrite app_nil_r in HQ.
Qed.

(** hash_req_body adds the whole stored body to the hash key, in one
    update with the pieces in order, and logs it; when Varnish reports that
    the body could not be read to its end, this is logged, but what was read
    is hashed all the same. *)
Theorem hash_exact ctx s :
  body_cached (ctx_req ctx) = true → method ctx = VCL_MET_HASH →
  wp (vmod_hash_req_body VRB_Iterate ctx) (λ _ s',
    hashed (priv s') = hashed (priv s) ++ concat chunks ∧ regex (priv s') = regex (priv s) ∧
    vsl s' = vsl s ++ read_error ++ [(SLT_Hash, concat chunks)]) s.
Proof using HVRB.
  intros Hc Hm. unfold vmod_hash_req_body. rewrite Hc, Hm. cbn [negb]. unfold VSB_new_auto. wp_go.
  eapply wp_bcat; [done|]. unfold VSB_data, VSB_delete. wp_go; [done|]. simpl.
  by rewrite <-(assoc_L (++)).
Qed.

(** C29: rematch_req_body searches what the iteration over the stored body
    delivers with the call site's expression: 1 for a positive answer of the
    search, 0 for no match, and -1 with a log record for everything else, an
    expression that does not compile included. In two cases this is not what
    the documentation says: an iteration that fails adds its log record
    ([read_error]) but the part it delivered is searched and 1 or 0 returned,
    not -1; and the expression is the one of the first call that compiled at
    the call site, whatever a later call passes. *)
Theorem rematch_exact ctx re s :
  body_cached (ctx_req ctx) = true → method ctx = VCL_MET_RECV →
  wp (vmod_rematch_req_body VRB_Iterate VRE_compile VRE_exec ctx (Some re)) (λ r s',
    hashed (priv s') = hashed (priv s) ∧
    match (match regex (priv s) with Some t => Some t | None => VRE_compile re end) with
    | None => r = (-1)%Z ∧ regex (priv s') = None ∧
        vsl s' = vsl s ++ [(SLT_VCL_Error, str "Regular expression not valid")]
    | Some t => regex (priv s') = Some t ∧
        let i := VRE_exec t (concat chunks) in
        ((0 < i)%Z ∧ r = 1%Z ∧ vsl s' = vsl s ++ read_error) ∨
        (i = VRE_ERROR_NOMATCH ∧ r = 0%Z ∧ vsl s' = vsl s ++ read_error) ∨
        ((i ≤ 0)%Z ∧ i ≠ VRE_ERROR_NOMATCH ∧ r = (-1)%Z ∧
           vsl s' = vsl s ++ read_error ++
             [(SLT_VCL_Error, str "Regexp matching returned " ++ print_Z i)])
    end) s.
Proof using HVRB.
  intros Hc Hm. unfold vmod_rematch_req_body. rewrite Hc, Hm. cbn [negb]. wp_go.
  assert (∀ t (Q : Z → st → Prop) s0, (∀ r s', hashed (priv s') = hashed (priv s0) →
    regex (priv s') = regex (priv s0) →
    let i := VRE_exec t (concat chunks) in
    ((0 < i)%Z ∧ r = 1%Z ∧ vsl s' = vsl s0 ++ read_error) ∨
    (i = VRE_ERROR_NOMATCH ∧ r = 0%Z ∧ vsl s' = vsl s0 ++ read_error) ∨
    ((i ≤ 0)%Z ∧ i ≠ VRE_ERROR_NOMATCH ∧ r = (-1)%Z ∧
       vsl s' = vsl s0 ++ read_error ++
         [(SLT_VCL_Error, str "Regexp matching returned " ++ print_Z i)]) → Q r s') →
    wp (run_regex VRB_Iterate VRE_exec t) Q s0) as Hrun.
  { intros t Q s0 HQ. unfold run_regex, VSB_new_auto. wp_go. eapply wp_bcat; [done|].
    unfold VSB_data, VSB_delete. wp_go; [done|]. simpl.
    destruct (Z.ltb_spec 0 (VRE_exec t (concat chunks))); [wp_go; apply HQ; simpl; auto|].
    destruct (Z.eqb_spec (VRE_exec t (concat chunks)) VRE_ERROR_NOMATCH); wp_go; apply HQ; simpl; auto.
    right. right. by rewrite <-(assoc_L (++)). }
  destruct (regex (priv s)) as [t|] eqn:Hre.
  - apply Hrun. intros r s' H1 H2 H3. rewrite H2, Hre. done.
  - destruct (VRE_compile re) as [t|]; wp_go; [|done].
    apply Hrun. intros r s' H1 H2 H3. done.
Qed.

Definition log_pieces (pfx : bytes) (ps : list bytes) : vsl_log := (λ p, (SLT_Debug, pfx ++ p)) <$> ps.

(** The loop stays inside a buffer that has room for the prefix and a piece. *)
Lemma wp_log_loop fuel bufsize pfx k t (Q : unit → st → Prop) s :
  length t ≤ fuel →
  (blen pfx + (if (0 <? Z.of_nat k)%Z then Z.of_nat k else blen t) ≤ bufsize)%Z →
  Q tt (Task (priv s) (ws s) (vsl s ++ log_pieces pfx (pieces fuel k t))) →
  wp (log_loop fuel bufsize pfx (Z.of_nat k) t) Q s.
Proof.
  revert t s. induction fuel as [|fuel IH]; intros [|c t] s Hf Hbuf HQ; cbn [log_loop pieces] in *;
    simpl in Hf; try (unfold log_pieces in HQ; simpl in HQ; rewrite app_nil_r in HQ;
      by wp_go; destruct s); [lia|].
  set (n := if ((k <? length (c :: t)) && (0 <? k))%nat then k else length (c :: t)) in *.
  assert ((if ((Z.of_nat k <? blen (c :: t)) && (0 <? Z.of_nat k))%Z then Z.of_nat k
           else blen (c :: t)) = Z.of_nat n) as ->.
  { unfold n, blen. destruct (Nat.ltb_spec k (length (c :: t))), (Nat.ltb_spec 0 k),
      (Z.ltb_spec (Z.of_nat k) (Z.of_nat (length (c :: t)))), (Z.ltb_spec 0 (Z.of_nat k));
      simpl in *; lia. }
  assert (0 < n ≤ length (c :: t) ∧ (0 < k → n ≤ k)) as (Hn & Hk).
  { unfold n. destruct (Nat.ltb_spec k (length (c :: t))), (Nat.ltb_spec 0 k); simpl in *; lia. }
  assert (blen pfx + Z.of_nat n ≤ bufsize)%Z as Hroom.
  { unfold blen in *. destruct (Z.ltb_spec 0 (Z.of_nat k)); lia. }
  rewrite Nat2Z.id. unfold memcpy_check, blen in *.
  rewrite (proj2 (Z.leb_le (0 + _) _)) by lia. rewrite (proj2 (Z.leb_le (_ + Z.of_nat n) _)) by lia.
  wp_go. apply IH.
  - rewrite length_drop. simpl in *. lia.
  - rewrite length_drop. destruct (Z.ltb_spec 0 (Z.of_nat k)); lia.
  - simpl. rewrite <-(assoc_L (++)). exact HQ.
Qed.

Lemma wp_bodyaccess_log pfx k c (Q : Z → st → Prop) s :
  let n := ((if 0 <? Z.of_nat k then Z.of_nat k else blen c) + blen pfx)%Z in
  (n < 2 ^ 64)%Z → malloc n = true →
  Q 0%Z (Task (priv s) (ws s) (vsl s ++ log_pieces pfx (split_body k c))) →
  wp (bodyaccess_log malloc pfx (Z.of_nat k) c) Q s.
Proof.
  intros n Hn Hm HQ. unfold bodyaccess_log.
  assert (size_t ((if (0 <? Z.of_nat k)%Z then Z.of_nat k else blen c) + blen pfx) = n) as ->.
  { apply Z.mod_small. unfold n, blen in *. destruct (Z.ltb_spec 0 (Z.of_nat k)); lia. }
  rewrite Hm. wp_go; [done|]. apply wp_log_loop; [done|unfold n; lia|]. by wp_go.
Qed.

(** C27: log_req_body with a length that is not negative logs the whole stored
    body, cut into pieces that are not empty and at most [length] bytes long
    (length 0: uncut), each behind the prefix; the buffer is never left. *)
Theorem log_exact ctx prefix length s :
  let pfx := default [] prefix in
  body_cached (ctx_req ctx) = true → (0 ≤ length)%Z →
  (∀ c, c ∈ chunks → let n := ((if 0 <? length then length else blen c) + blen pfx)%Z in
     (n < 2 ^ 64)%Z ∧ malloc n = true) →
  (length < 2 ^ 64)%Z →
  wp (vmod_log_req_body malloc VRB_Iterate ctx prefix length) (λ _ s', ∃ ps,
    vsl s' = vsl s ++ log_pieces pfx ps ++ read_error ∧ concat ps = concat chunks ∧
    Forall (λ p, p ≠ [] ∧ ((0 < length)%Z → (blen p ≤ length)%Z)) ps ∧ priv s' = priv s) s.
Proof using HVRB.
  intros pfx Hc Hlen Hroom Hmax. unfold vmod_log_req_body. rewrite Hc, HVRB. cbn [negb]. clear HVRB.
  destruct (Z_of_nat_complete _ Hlen) as [k ->]. fold pfx.
  assert (size_t (Z.of_nat k) = Z.of_nat k) as -> by (apply Z.mod_small; lia). apply wp_bind.
  assert (∀ (Q : Z → st → Prop) s0, (∀ ps, concat ps = concat chunks →
      Forall (λ p, p ≠ [] ∧ ((0 < Z.of_nat k)%Z → (blen p ≤ Z.of_nat k)%Z)) ps →
      Q l (Task (priv s0) (ws s0) (vsl s0 ++ log_pieces pfx ps))) →
    wp (deliver chunks l (bodyaccess_log malloc pfx (Z.of_nat k))) Q s0) as Hd.
  { revert Hroom. generalize chunks as cs. clear s.
    induction cs as [|c cs IH]; intros Hroom Q s0 HQ; cbn [deliver].
    - wp_go. specialize (HQ [] eq_refl (Forall_nil_2 _)). unfold log_pieces in HQ.
      simpl in HQ. rewrite app_nil_r in HQ. by destruct s0.
    - destruct (Hroom c) as [Hn Hm]; [left|]. apply wp_bind, wp_bodyaccess_log; [done|done|].
      cbn [Z.eqb]. apply IH; [intros c' Hc'; apply Hroom; by right|].
      intros ps Hps Hall. simpl. rewrite <-(assoc_L (++)). unfold log_pieces.
      rewrite <-fmap_app. destruct (pieces_spec (List.length c) k c) as [H1 H2]; [done|].
      apply HQ; [by rewrite concat_app, Hps; unfold split_body; rewrite H1|].
      apply Forall_app. split; [|done].
      eapply Forall_impl; [exact H2|]. intros p [Hp1 Hp2]. split; [done|]. unfold blen. lia. }
  apply Hd. intros ps Hps Hall. unfold read_error. destruct (l <? 0)%Z; wp_go; exists ps; simpl;
    (split; [by rewrite <-?(assoc_L (++)), ?app_nil_r|done]).
Qed.

(** C40: log_req_body with length -1 writes behind its buffer: as a size_t the
    length is the largest one, adding the prefix wraps around, and the buffer
    is one byte too short for the prefix alone. *)
Theorem log_negative_overflows ctx pfx c cs s :
  body_cached (ctx_req ctx) = true → chunks = c :: cs → c ≠ [] →
  (0 < blen pfx < 2 ^ 64)%Z → malloc (blen pfx - 1) = true →
  vmod_log_req_body malloc VRB_Iterate ctx (Some pfx) (-1) s = Undef "heap buffer overflow".
Proof using HVRB.
  intros Hcached Hcs Hc Hp Hm. unfold vmod_log_req_body. rewrite Hcached, HVRB, Hcs.
  change (default [] (Some pfx)) with pfx.
  cbn [negb deliver]. unfold mbind, M_bind. unfold bodyaccess_log at 1.
  replace (size_t (-1)) with (2 ^ 64 - 1)%Z by done.
  rewrite (proj2 (Z.ltb_lt 0 (2 ^ 64 - 1))) by lia.
  assert (size_t (2 ^ 64 - 1 + blen pfx) = blen pfx - 1)%Z as ->.
  { unfold size_t. symmetry. apply Z.mod_unique with 1%Z; lia. }
  unfold mbind, M_bind. rewrite Hm. cbn [assertM]. unfold mret, M_ret.
  destruct c as [|a c]; [done|]. cbn [length log_loop]. unfold mbind, M_bind.
  unfold memcpy_check at 1. by rewrite (proj2 (Z.leb_gt (0 + _) _)) by lia.
Qed.

(** The guards: without a buffered body, or from another VCL method, the
    functions change nothing but the log, which gets one SLT_VCL_Error record,
    and those with a result answer -1; len_req_body otherwise answers the
    number of body bytes. *)
Theorem guards_refuse ctx re s :
  let log m := Task (priv s) (ws s) (vsl s ++ [(SLT_VCL_Error, str m)]) in
  (body_cached (ctx_req ctx) = false →
     vmod_hash_req_body VRB_Iterate ctx s = Ret (tt, log "Unbuffered req.body") ∧
     vmod_len_req_body ctx s = Ret ((-1)%Z, log "Unbuffered req.body") ∧
     vmod_rematch_req_body VRB_Iterate VRE_compile VRE_exec ctx re s =
       Ret ((-1)%Z, log "Unbuffered req.body") ∧
     ∀ prefix n, vmod_log_req_body malloc VRB_Iterate ctx prefix n s =
       Ret (tt, log "Unbuffered req.body")) ∧
  (body_cached (ctx_req ctx) = true →
     (method ctx ≠ VCL_MET_HASH → vmod_hash_req_body VRB_Iterate ctx s =
        Ret (tt, log "hash_req_body can only be used in vcl_hash{}")) ∧
     (method ctx ≠ VCL_MET_RECV →
        vmod_len_req_body ctx s =
          Ret ((-1)%Z, log "len_req_body can only be used in vcl_recv{}") ∧
        vmod_rematch_req_body VRB_Iterate VRE_compile VRE_exec ctx re s =
          Ret ((-1)%Z, log "rematch_req_body can be used only in vcl_recv{}")) ∧
     (method ctx = VCL_MET_RECV →
        vmod_len_req_body ctx s = Ret (req_bodybytes (ctx_req ctx), s))).
Proof using Type.
  clear HVRB l chunks. intros log. unfold vmod_hash_req_body, vmod_len_req_body, vmod_rematch_req_body, vmod_log_req_body.
  split; intros ->; [by split_and!|].
  destruct (method ctx); split_and!; naive_solver.
Qed.
End properties.

(** ** Concrete runs *)
Module Examples.
Definition cached : request := Request true 5.
Definition in_method (m : vcl_method) : vrt_ctx := VrtCtx m cached.
Definition body : list bytes := [str "abc"; str "de"].
Definition iterate {St} : (bytes → M St Z) → M St Z := deliver body 0.
Definition s0 : task (body_state bytes) Z := Task (BodyState (str "key") None None) 100%Z [].
(** An expression is a prefix. *)
Definition compile (re : bytes) : option bytes := if bool_decide (re = []) then None else Some re.
Definition exec (re t : bytes) : Z := if strncaseeq t re (length re) then 1 else VRE_ERROR_NOMATCH.
Definition small_malloc (n : Z) : bool := (n <? 1000)%Z.
End Examples.
Import Examples.

Lemma hash_exact_witness :
  wp (vmod_hash_req_body iterate (in_method VCL_MET_HASH)) (λ _ s',
    hashed (priv s') = hashed (priv s0) ++ concat body ∧ regex (priv s') = regex (priv s0) ∧
    vsl s' = vsl s0 ++ read_error 0 ++ [(SLT_Hash, concat body)]) s0.
Proof. apply (hash_exact iterate body 0 (λ _, eq_refl)); reflexivity. Defined.

Lemma rematch_exact_witness :
  wp (vmod_rematch_req_body iterate compile exec (in_method VCL_MET_RECV) (Some (str "ab"))) (λ r s',
    hashed (priv s') = hashed (priv s0) ∧
    match (match regex (priv s0) with Some t => Some t | None => compile (str "ab") end) with
    | None => r = (-1)%Z ∧ regex (priv s') = None ∧
        vsl s' = vsl s0 ++ [(SLT_VCL_Error, str "Regular expression not valid")]
    | Some t => regex (priv s') = Some t ∧
        let i := exec t (concat body) in
        ((0 < i)%Z ∧ r = 1%Z ∧ vsl s' = vsl s0 ++ read_error 0) ∨
        (i = VRE_ERROR_NOMATCH ∧ r = 0%Z ∧ vsl s' = vsl s0 ++ read_error 0) ∨
        ((i ≤ 0)%Z ∧ i ≠ VRE_ERROR_NOMATCH ∧ r = (-1)%Z ∧
           vsl s' = vsl s0 ++ read_error 0 ++
             [(SLT_VCL_Error, str "Regexp matching returned " ++ print_Z i)])
    end) s0.
Proof. apply (rematch_exact iterate compile exec body 0 (λ _, eq_refl)); reflexivity. Defined.

Lemma log_exact_witness :
  wp (vmod_log_req_body small_malloc iterate (in_method VCL_MET_OTHER) (Some (str ">")) 2) (λ _ s', ∃ ps,
    vsl s' = vsl s0 ++ log_pieces (str ">") ps ++ read_error 0 ∧ concat ps = concat body ∧
    Forall (λ p, p ≠ [] ∧ ((0 < 2)%Z → (blen p ≤ 2)%Z)) ps ∧ priv s' = priv s0) s0.
Proof.
  apply (log_exact small_malloc iterate body 0 (λ _, eq_refl) (in_method VCL_MET_OTHER)
           (Some (str ">")) 2 s0); [reflexivity|lia| |lia].
  intros c _. split; reflexivity.
Defined.

Lemma log_negative_overflows_witness :
  vmod_log_req_body small_malloc iterate (in_method VCL_MET_OTHER) (Some (str ">")) (-1) s0 =
  Undef "heap buffer overflow".
Proof.
  apply (log_negative_overflows small_malloc iterate body 0 (λ _, eq_refl) (in_method VCL_MET_OTHER)
           (str ">") (str "abc") [str "de"] s0); done.
Defined.

Lemma guards_refuse_witness :
  vmod_len_req_body (in_method VCL_MET_RECV) s0 = Ret (5%Z, s0).
Proof.
  apply (guards_refuse small_malloc iterate compile exec (in_method VCL_MET_RECV) None s0); reflexivity.
Defined.
