(* ===== verification/Splay.v ===== *)
(** * vtree.h: the splay tree macros

    The functions VSPLAY_GENERATE and VSPLAY_PROTOTYPE define.  A node is
    [Node left elm right].  The top-down splay keeps the part of the tree it
    has passed in two chains that hang from the stack variable [__node]: the
    chain ending in [__left] through right fields, the chain ending in
    [__right] through left fields.  In a [cursor] the chains are lists with
    the end the pointers stand at first, so that LINKLEFT and LINKRIGHT are a
    cons and ASSEMBLE fills the two open ends.  The functions that look an
    element up also restructure the tree, so every operation returns the new
    root.  Every access to a field of a NULL pointer is [Undef]. *)
From S2P Require Import Prelude CStr TreeSpec.

Section splay.
Context {K : Type} (cmp : K → K → comparison).
Abbreviation elm := (K * loc)%type.

Inductive splay_tree :=
| Null
| Node (left : splay_tree) (x : elm) (right : splay_tree).

Record cursor := Cursor {
  root : splay_tree;                  (* (head)->sph_root *)
  smaller : list (splay_tree * elm);  (* from __left up to &__node *)
  greater : list (elm * splay_tree);  (* from __right up to &__node *)
}.

(** ** The pointer macros *)
Definition VSPLAY_INIT : splay_tree := Null.
Definition VSPLAY_EMPTY (t : splay_tree) : bool := match t with Null => true | _ => false end.
Definition VSPLAY_LEFT (t : splay_tree) : outcome splay_tree :=
  match t with Null => Undef "VSPLAY_LEFT(NULL)" | Node l _ _ => Ret l end.
Definition VSPLAY_RIGHT (t : splay_tree) : outcome splay_tree :=
  match t with Null => Undef "VSPLAY_RIGHT(NULL)" | Node _ _ r => Ret r end.

Definition VSPLAY_ROTATE_RIGHT (t : splay_tree) : outcome splay_tree :=
  match t with
  | Node (Node a y b) x c => Ret (Node a y (Node b x c))
  | _ => Undef "VSPLAY_ROTATE_RIGHT"
  end.
Definition VSPLAY_ROTATE_LEFT (t : splay_tree) : outcome splay_tree :=
  match t with
  | Node a x (Node b y c) => Ret (Node (Node a x b) y c)
  | _ => Undef "VSPLAY_ROTATE_LEFT"
  end.
Definition VSPLAY_LINKLEFT (c : cursor) : outcome cursor :=
  match root c with
  | Null => Undef "VSPLAY_LINKLEFT"
  | Node l x r => Ret (Cursor l (smaller c) ((x, r) :: greater c))
  end.
Definition VSPLAY_LINKRIGHT (c : cursor) : outcome cursor :=
  match root c with
  | Null => Undef "VSPLAY_LINKRIGHT"
  | Node l x r => Ret (Cursor r ((l, x) :: smaller c) (greater c))
  end.
(** The chains as trees, with the open end filled. *)
Fixpoint fill_smaller (hole : splay_tree) (c : list (splay_tree * elm)) : splay_tree :=
  match c with [] => hole | (l, x) :: c' => fill_smaller (Node l x hole) c' end.
Fixpoint fill_greater (hole : splay_tree) (c : list (elm * splay_tree)) : splay_tree :=
  match c with [] => hole | (x, r) :: c' => fill_greater (Node hole x r) c' end.
Definition VSPLAY_ASSEMBLE (c : cursor) : outcome splay_tree :=
  match root c with
  | Null => Undef "VSPLAY_ASSEMBLE"
  | Node l x r => Ret (Node (fill_smaller l (smaller c)) x (fill_greater r (greater c)))
  end.

(** ** name##_VSPLAY *)
(** The bodies of the two branches; the boolean says that the loop breaks.
    [zig] is the test for a rotation. *)
Definition step_left (zig : elm → bool) (c : cursor) : outcome (bool * cursor) :=
  tmp ← VSPLAY_LEFT (root c);
  match tmp with
  | Null => Ret (true, c)
  | Node _ y _ =>
      if zig y then
        t ← VSPLAY_ROTATE_RIGHT (root c);
        let c := Cursor t (smaller c) (greater c) in
        l ← VSPLAY_LEFT t;
        if VSPLAY_EMPTY l then Ret (true, c) else c' ← VSPLAY_LINKLEFT c; Ret (false, c')
      else c' ← VSPLAY_LINKLEFT c; Ret (false, c')
  end.
Definition step_right (zig : elm → bool) (c : cursor) : outcome (bool * cursor) :=
  tmp ← VSPLAY_RIGHT (root c);
  match tmp with
  | Null => Ret (true, c)
  | Node _ y _ =>
      if zig y then
        t ← VSPLAY_ROTATE_LEFT (root c);
        let c := Cursor t (smaller c) (greater c) in
        r ← VSPLAY_RIGHT t;
        if VSPLAY_EMPTY r then Ret (true, c) else c' ← VSPLAY_LINKRIGHT c; Ret (false, c')
      else c' ← VSPLAY_LINKRIGHT c; Ret (false, c')
  end.

Fixpoint splay_loop (fuel : nat) (k : K) (c : cursor) : outcome cursor :=
  match fuel with
  | O => NoFuel
  | S fuel =>
      match root c with
      | Null => Undef "cmp(elm, NULL)"
      | Node _ x _ =>
          match cmp k x.1 with
          | Eq => Ret c
          | Lt =>
              '(stop, c') ← step_left (λ y, bool_decide (cmp k y.1 = Lt)) c;
              if stop : bool then Ret c' else splay_loop fuel k c'
          | Gt =>
              '(stop, c') ← step_right (λ y, bool_decide (cmp k y.1 = Gt)) c;
              if stop : bool then Ret c' else splay_loop fuel k c'
          end
      end
  end.
(** A bound on the iterations: each one goes down a level. *)
Fixpoint depth (t : splay_tree) : nat :=
  match t with Null => 0 | Node l _ r => S (Nat.max (depth l) (depth r)) end.
Definition VSPLAY (t : splay_tree) (k : K) : outcome splay_tree :=
  c ← splay_loop (S (depth t)) k (Cursor t [] []); VSPLAY_ASSEMBLE c.

(** ** name##_VSPLAY_MINMAX: [comp] never changes, so with 0 it never ends. *)
Fixpoint minmax_loop (fuel : nat) (comp : Z) (c : cursor) : outcome cursor :=
  match fuel with
  | O => NoFuel
  | S fuel =>
      '(stop, c') ←
        (if (comp <? 0)%Z then step_left (λ _, (comp <? 0)%Z) c
         else if (0 <? comp)%Z then step_right (λ _, (0 <? comp)%Z) c
         else Ret (false, c));
      if stop : bool then Ret c' else minmax_loop fuel comp c'
  end.
Definition VSPLAY_MINMAX (t : splay_tree) (comp : Z) : outcome splay_tree :=
  c ← minmax_loop (S (depth t)) comp (Cursor t [] []); VSPLAY_ASSEMBLE c.

Definition root_elm (t : splay_tree) : option elm :=
  match t with Null => None | Node _ x _ => Some x end.

(** VSPLAY_MIN and VSPLAY_MAX: MIN_MAX with -1 or 1 on a tree that is not empty. *)
Definition VSPLAY_MIN_MAX (t : splay_tree) (val : Z) : outcome (option elm * splay_tree) :=
  t' ← VSPLAY_MINMAX t val; Ret (root_elm t', t').
Definition VSPLAY_MIN (t : splay_tree) : outcome (option elm * splay_tree) :=
  if VSPLAY_EMPTY t then Ret (None, t) else VSPLAY_MIN_MAX t (-1).
Definition VSPLAY_MAX (t : splay_tree) : outcome (option elm * splay_tree) :=
  if VSPLAY_EMPTY t then Ret (None, t) else VSPLAY_MIN_MAX t 1.

(** ** The dictionary operations *)
Definition VSPLAY_FIND (t : splay_tree) (k : K) : outcome (option elm * splay_tree) :=
  if VSPLAY_EMPTY t then Ret (None, t)
  else
    t' ← VSPLAY t k;
    match t' with
    | Null => Undef "cmp(elm, NULL)"
    | Node _ x _ =>
        match cmp k x.1 with Eq => Ret (Some x, t') | _ => Ret (None, t') end
    end.

Definition VSPLAY_INSERT (t : splay_tree) (e : elm) : outcome (option elm * splay_tree) :=
  if VSPLAY_EMPTY t then Ret (None, Node Null e Null)
  else
    t' ← VSPLAY t e.1;
    match t' with
    | Null => Undef "cmp(elm, NULL)"
    | Node l x r =>
        match cmp e.1 x.1 with
        | Lt => Ret (None, Node l e (Node Null x r))
        | Gt => Ret (None, Node (Node l x Null) e r)
        | Eq => Ret (Some x, t')
        end
    end.

(** The answer is the pointer it was called with, not the one in the tree. *)
Definition VSPLAY_REMOVE (t : splay_tree) (e : elm) : outcome (option elm * splay_tree) :=
  if VSPLAY_EMPTY t then Ret (None, t)
  else
    t' ← VSPLAY t e.1;
    match t' with
    | Null => Undef "cmp(elm, NULL)"
    | Node l x r =>
        match cmp e.1 x.1 with
        | Eq =>
            if VSPLAY_EMPTY l then Ret (Some e, r)
            else
              l' ← VSPLAY l e.1;
              match l' with
              | Null => Undef "VSPLAY_RIGHT(NULL)"
              | Node l1 y _ => Ret (Some e, Node l1 y r)
              end
        | _ => Ret (None, t')
        end
    end.

(** The element is dereferenced after the splay, which puts it at the root
    if it is in the tree; the fields of another struct mean nothing. *)
Fixpoint leftmost (t : splay_tree) : option elm :=
  match t with
  | Null => None
  | Node Null x _ => Some x
  | Node l _ _ => leftmost l
  end.
Definition VSPLAY_NEXT (t : splay_tree) (k : K) : outcome (option elm * splay_tree) :=
  t' ← VSPLAY t k;
  match t' with
  | Null => Undef "VSPLAY_RIGHT(NULL)"
  | Node _ x r =>
      match cmp k x.1 with
      | Eq => Ret (leftmost r, t')
      | _ => Undef "VSPLAY_NEXT of an element that is not in the tree"
      end
  end.

(** VSPLAY_FOREACH with a body that does not touch the tree. *)
Fixpoint foreach_from {St} (fuel : nat) (x : option elm) (t : splay_tree)
    (body : elm → M St unit) : M St splay_tree :=
  match x with
  | None => mret t
  | Some x =>
      match fuel with
      | O => no_fuel
      | S fuel =>
          body x;;;
          '(y, t') ← liftO (VSPLAY_NEXT t x.1);
          foreach_from fuel y t' body
      end
  end.
Definition VSPLAY_FOREACH {St} (fuel : nat) (t : splay_tree) (body : elm → M St unit)
    : M St splay_tree :=
  '(x, t') ← liftO (VSPLAY_MIN t); foreach_from fuel x t' body.
End splay.
Arguments splay_tree K : clear implicits.
Arguments cursor K : clear implicits.

(** ** The abstract dictionary: a sorted list of elements *)
Section dictionary.
Context {K : Type} (cmp : K → K → comparison).
Abbreviation elm := (K * loc)%type.

Inductive splay_op :=
| Splay_find (k : K) | Splay_insert (e : elm) | Splay_remove (e : elm)
| Splay_next (k : K) | Splay_min | Splay_max.

Definition splay_step (t : splay_tree K) (op : splay_op) : outcome (option elm * splay_tree K) :=
  match op with
  | Splay_find k => VSPLAY_FIND cmp t k
  | Splay_insert e => VSPLAY_INSERT cmp t e
  | Splay_remove e => VSPLAY_REMOVE cmp t e
  | Splay_next k => VSPLAY_NEXT cmp t k
  | Splay_min => VSPLAY_MIN t
  | Splay_max => VSPLAY_MAX t
  end.
(** What the operation answers for the sorted list [xs], and the new list. *)
Definition dict_step (xs : list elm) (op : splay_op) : option elm * list elm :=
  match op with
  | Splay_find k => (head (at_key cmp k xs), xs)
  | Splay_insert e =>
      match head (at_key cmp e.1 xs) with
      | Some x => (Some x, xs)
      | None => (None, below cmp e.1 xs ++ e :: above cmp e.1 xs)
      end
  | Splay_remove e =>
      match head (at_key cmp e.1 xs) with
      | Some _ => (Some e, below cmp e.1 xs ++ above cmp e.1 xs)
      | None => (None, xs)
      end
  | Splay_next k => (head (above cmp k xs), xs)
  | Splay_min => (head xs, xs)
  | Splay_max => (last xs, xs)
  end.
(** VSPLAY_NEXT is for elements of the tree. *)
Definition op_allowed (xs : list elm) (op : splay_op) : Prop :=
  match op with Splay_next k => at_key cmp k xs ≠ [] | _ => True end.

Fixpoint splay_run (t : splay_tree K) (ops : list splay_op)
    : outcome (list (option elm) * splay_tree K) :=
  match ops with
  | [] => Ret ([], t)
  | op :: ops => '(o, t) ← splay_step t op; '(os, t) ← splay_run t ops; Ret (o :: os, t)
  end.
Fixpoint dict_run (xs : list elm) (ops : list splay_op) : list (option elm) * list elm :=
  match ops with
  | [] => ([], xs)
  | op :: ops =>
      let '(o, xs) := dict_step xs op in let '(os, xs) := dict_run xs ops in (o :: os, xs)
  end.
Fixpoint ops_allowed (xs : list elm) (ops : list splay_op) : Prop :=
  match ops with
  | [] => True
  | op :: ops => op_allowed xs op ∧ ops_allowed (dict_step xs op).2 ops
  end.
End dictionary.
Arguments splay_op K : clear implicits.

(** ** The elements in order, and what a step of the splay does to them *)
Section elements.
Context {K : Type}.
Abbreviation elm := (K * loc)%type.
Implicit Types (t : splay_tree K) (c : cursor K) (x y : elm).

Fixpoint elems t : list elm :=
  match t with Null => [] | Node l x r => elems l ++ x :: elems r end.
Fixpoint smaller_elems (ch : list (splay_tree K * elm)) : list elm :=
  match ch with [] => [] | (l, x) :: ch' => smaller_elems ch' ++ elems l ++ [x] end.
Fixpoint greater_elems (ch : list (elm * splay_tree K)) : list elm :=
  match ch with [] => [] | (x, r) :: ch' => x :: elems r ++ greater_elems ch' end.
Definition in_order c : list elm :=
  smaller_elems (smaller c) ++ elems (root c) ++ greater_elems (greater c).

Lemma elems_fill_smaller t ch : elems (fill_smaller t ch) = smaller_elems ch ++ elems t.
Proof.
  revert t. induction ch as [|[l x] ch IH]; intros t; [done|]. simpl. rewrite IH. simpl.
  by rewrite <-!(assoc_L (++)).
Qed.
Lemma elems_fill_greater t ch : elems (fill_greater t ch) = elems t ++ greater_elems ch.
Proof.
  revert t. induction ch as [|[x r] ch IH]; intros t; simpl; [by rewrite app_nil_r|].
  rewrite IH. simpl. by rewrite <-!(assoc_L (++)).
Qed.

(** Two ways to read off a cursor, up to associativity; or a depth bound. *)
Ltac in_order :=
  unfold in_order; simpl; repeat (rewrite <-?(assoc_L (++)); simpl); solve [done | lia].

(** One iteration to the left: it either stops at an element without a left
    child, or cuts the tree at an element, the first of the new greater ones.
    The element is the old root or passed the test for a rotation. *)
Lemma step_left_spec zig c l x r : root c = Node l x r →
  ∃ stop c' y l' r', step_left zig c = Ret (stop, c') ∧ in_order c' = in_order c ∧
    smaller c' = smaller c ∧ (y = x ∨ zig y = true) ∧
    if stop : bool then root c' = Node Null y r' ∧ greater c' = greater c
    else root c' = l' ∧ l' ≠ Null ∧ greater c' = (y, r') :: greater c ∧ depth l' < depth (root c).
Proof.
  destruct c as [t s g]. simpl. intros ->. unfold step_left. simpl.
  destruct l as [|a y b]; simpl.
  { by exists true, (Cursor (Node Null x r) s g), x, Null, r; split_and!; auto. }
  destruct (zig y) eqn:Hz; simpl.
  - destruct a as [|a1 z a2]; simpl.
    + eexists true, (Cursor (Node Null y (Node b x r)) s g), y, Null, (Node b x r).
      split_and!; auto; in_order.
    + eexists false, (Cursor (Node a1 z a2) s ((y, Node b x r) :: g)), y, _, (Node b x r).
      split_and!; auto; in_order.
  - eexists false, (Cursor (Node a y b) s ((x, r) :: g)), x, _, r.
    split_and!; auto; in_order.
Qed.
Lemma step_right_spec zig c l x r : root c = Node l x r →
  ∃ stop c' y l' r', step_right zig c = Ret (stop, c') ∧ in_order c' = in_order c ∧
    greater c' = greater c ∧ (y = x ∨ zig y = true) ∧
    if stop : bool then root c' = Node l' y Null ∧ smaller c' = smaller c
    else root c' = r' ∧ r' ≠ Null ∧ smaller c' = (l', y) :: smaller c ∧ depth r' < depth (root c).
Proof.
  destruct c as [t s g]. simpl. intros ->. unfold step_right. simpl.
  destruct r as [|a y b]; simpl.
  { by exists true, (Cursor (Node l x Null) s g), x, l, Null; split_and!; auto. }
  destruct (zig y) eqn:Hz; simpl.
  - destruct b as [|b1 z b2]; simpl.
    + eexists true, (Cursor (Node (Node l x a) y Null) s g), y, (Node l x a), Null.
      split_and!; auto; in_order.
    + eexists false, (Cursor (Node b1 z b2) ((Node l x a, y) :: s) g), y, (Node l x a), _.
      split_and!; auto; in_order.
  - eexists false, (Cursor (Node a y b) ((l, x) :: s) g), x, l, _.
    split_and!; auto; in_order.
Qed.

Lemma assemble_spec c l x r : root c = Node l x r →
  ∃ l' r', VSPLAY_ASSEMBLE c = Ret (Node l' x r') ∧
    elems l' = smaller_elems (smaller c) ++ elems l ∧
    elems r' = elems r ++ greater_elems (greater c).
Proof.
  intros H. unfold VSPLAY_ASSEMBLE. rewrite H. eexists _, _. split; [done|].
  by rewrite elems_fill_smaller, elems_fill_greater.
Qed.

(** MINMAX ends at an element nothing is smaller (greater) than. *)
Lemma VSPLAY_MIN_spec t : t ≠ Null →
  ∃ x r, VSPLAY_MINMAX t (-1) = Ret (Node Null x r) ∧ x :: elems r = elems t.
Proof.
  intros Ht. unfold VSPLAY_MINMAX.
  assert (∀ fuel c, depth (root c) < fuel → root c ≠ Null → smaller c = [] →
    ∃ c' x r, minmax_loop fuel (-1) c = Ret c' ∧ in_order c' = in_order c ∧
      smaller c' = [] ∧ root c' = Node Null x r) as H.
  { induction fuel as [|fuel IH]; intros c Hf Hr Hs; [lia|]. cbn [minmax_loop].
    destruct (root c) as [|l x r] eqn:Hroot; [done|]. cbn.
    destruct (step_left_spec (λ _, true) c l x r Hroot) as
      ([|] & c' & y & l' & r' & Hstep & Hin & Hsm & _ & Hc); unfold step_left in *.
    all: simpl in *; rewrite Hstep; simpl.
    - destruct Hc as [Hc _]. exists c', y, r'. by rewrite Hsm.
    - destruct Hc as (Hc & Hl & _ & Hd). rewrite <-Hin. rewrite Hroot in Hd. apply IH; [rewrite Hc; simpl in *; lia|congruence|congruence]. }
  destruct (H (S (depth t)) (Cursor t [] [])) as (c & x & r & -> & Hin & Hsm & Hc); [simpl; lia|done|done|].
  destruct (assemble_spec _ _ _ _ Hc) as (l' & r' & Has & Hl & Hr).
  rewrite Hsm in Hl. destruct l'; [|by simpl in Hl; destruct (elems l'1)]. exists x, r'. split; [done|].
  unfold in_order in Hin. rewrite Hsm, Hc in Hin. simpl in Hin. rewrite app_nil_r in Hin. by rewrite Hr.
Qed.
Lemma VSPLAY_MAX_spec t : t ≠ Null →
  ∃ l x, VSPLAY_MINMAX t 1 = Ret (Node l x Null) ∧ elems l ++ [x] = elems t.
Proof.
  intros Ht. unfold VSPLAY_MINMAX.
  assert (∀ fuel c, depth (root c) < fuel → root c ≠ Null → greater c = [] →
    ∃ c' l x, minmax_loop fuel 1 c = Ret c' ∧ in_order c' = in_order c ∧
      greater c' = [] ∧ root c' = Node l x Null) as H.
  { induction fuel as [|fuel IH]; intros c Hf Hr Hs; [lia|]. cbn [minmax_loop].
    destruct (root c) as [|l x r] eqn:Hroot; [done|]. cbn.
    destruct (step_right_spec (λ _, true) c l x r Hroot) as
      ([|] & c' & y & l' & r' & Hstep & Hin & Hsm & _ & Hc); unfold step_right in *.
    all: simpl in *; rewrite Hstep; simpl.
    - destruct Hc as [Hc _]. exists c', l', y. by rewrite Hsm.
    - destruct Hc as (Hc & Hl & _ & Hd). rewrite <-Hin. rewrite Hroot in Hd. apply IH; [rewrite Hc; simpl in *; lia|congruence|congruence]. }
  destruct (H (S (depth t)) (Cursor t [] [])) as (c & l & x & -> & Hin & Hsm & Hc); [simpl; lia|done|done|].
  destruct (assemble_spec _ _ _ _ Hc) as (l' & r' & Has & Hl & Hr).
  rewrite Hsm in Hr. destruct r'; [|by simpl in Hr; destruct (elems r'1)]. exists l', x. split; [done|].
  unfold in_order in Hin. rewrite Hsm, Hc in Hin. simpl in Hin. rewrite app_nil_r in Hin.
  rewrite Hl, <-(assoc_L (++)). by rewrite ?app_nil_r in Hin.
Qed.
Lemma splay_leftmost_spec t : leftmost t = head (elems t).
Proof.
  induction t as [|l IH x r]; [done|]. destruct l as [|l1 y l2]; [done|].
  cbn [leftmost elems]. etrans; [exact IH|]. simpl. by destruct (elems l1).
Qed.
End elements.

(** ** The splay itself, for ordered trees *)
Section ordered.
Context {K : Type} {cmp : K → K → comparison} `{!TotalCmp cmp}.
Abbreviation elm := (K * loc)%type.
Abbreviation sorted := (StronglySorted (key_lt cmp)).
Implicit Types (t : splay_tree K) (c : cursor K) (x y e : elm) (xs ys : list elm).

(** The answer of a splay: a tree with the same elements whose root is the
    element with key [k], or next to the place where it would be. *)
Definition splayed k xs (t : splay_tree K) : Prop :=
  ∃ l x r, t = Node l x r ∧ elems t = xs ∧
    match cmp k x.1 with
    | Eq => all_below cmp k (elems l) ∧ all_above cmp k (elems r)
    | Lt => all_below cmp k (elems l) ∧ all_above cmp k (x :: elems r)
    | Gt => all_below cmp k (elems l ++ [x]) ∧ all_above cmp k (elems r)
    end.

(** What holds between iterations. *)
Record splaying k xs c : Prop := {
  splaying_order : in_order c = xs;
  splaying_root : root c ≠ Null;
  splaying_smaller : all_below cmp k (smaller_elems (smaller c));
  splaying_greater : all_above cmp k (greater_elems (greater c));
}.

Lemma cut_above k xs ys y : sorted (xs ++ y :: ys) → cmp k y.1 = Lt → all_above cmp k (y :: ys).
Proof.
  destruct y as [ky ly]. intros Hs H e. apply sorted_mid in Hs as (_ & _ & _ & Ha).
  intros [->|He]%elem_of_cons; [done|].
  by eapply cmp_trans, Ha.
Qed.
Lemma cut_below k xs ys y : sorted (xs ++ y :: ys) → cmp k y.1 = Gt → all_below cmp k (xs ++ [y]).
Proof.
  destruct y as [ky ly]. intros Hs H e. apply (cmp_gt_lt (cmp:=cmp)) in H. apply sorted_mid in Hs as (_ & _ & Hb & _).
  intros [He|He]%elem_of_app; [|apply list_elem_of_singleton in He as ->; done].
  by eapply cmp_trans; [apply Hb|].
Qed.

Lemma splay_loop_spec k xs fuel c : sorted xs → depth (root c) < fuel → splaying k xs c →
  ∃ c', splay_loop cmp fuel k c = Ret c' ∧ splaying k xs c' ∧
    match root c' with
    | Node l x r => match cmp k x.1 with Eq => True | Lt => l = Null | Gt => r = Null end
    | Null => False
    end.
Proof.
  intros Hs. revert c. induction fuel as [|fuel IH]; intros c Hf [Ho Hr Hsm Hgr]; [lia|].
  cbn [splay_loop]. destruct (root c) as [|l x r] eqn:Hroot; [done|].
  destruct (cmp k x.1) eqn:Hx.
  - exists c. rewrite Hroot, Hx. split_and!; [done|by split; rewrite ?Hroot|done].
  - destruct (step_left_spec (λ y, bool_decide (cmp k y.1 = Lt)) c l x r Hroot) as
      (stop & c' & y & l' & r' & Hstep & Hin & Hsm' & Hy & Hc). rewrite Hstep. simpl.
    assert (cmp k y.1 = Lt) as Hky by (destruct Hy as [->|Hy%bool_decide_eq_true]; done).
    destruct stop.
    + destruct Hc as [Hc Hg]. exists c'. rewrite Hc, Hky. split_and!; [done| |done].
      split; [congruence|by rewrite Hc|by rewrite Hsm'|by rewrite Hg].
    + destruct Hc as (Hc & Hl & Hg & Hd). apply IH; [rewrite Hc; rewrite Hroot in Hd; lia|].
      split; [congruence|by rewrite Hc|by rewrite Hsm'|]. rewrite Hg. simpl.
      eapply (cut_above k (smaller_elems (smaller c') ++ elems l') _ y); [|done].
      rewrite <-Ho, <-Hin in Hs. unfold in_order in Hs. rewrite Hg, Hc in Hs. simpl in Hs.
      by rewrite <-(assoc_L (++)).
  - destruct (step_right_spec (λ y, bool_decide (cmp k y.1 = Gt)) c l x r Hroot) as
      (stop & c' & y & l' & r' & Hstep & Hin & Hgr' & Hy & Hc). rewrite Hstep. simpl.
    assert (cmp k y.1 = Gt) as Hky by (destruct Hy as [->|Hy%bool_decide_eq_true]; done).
    destruct stop.
    + destruct Hc as [Hc Hg]. exists c'. rewrite Hc, Hky. split_and!; [done| |done].
      split; [congruence|by rewrite Hc|by rewrite Hg|by rewrite Hgr'].
    + destruct Hc as (Hc & Hl & Hg & Hd). apply IH; [rewrite Hc; rewrite Hroot in Hd; lia|].
      split; [congruence|by rewrite Hc| |by rewrite Hgr']. rewrite Hg. simpl.
      rewrite (assoc_L (++)). eapply (cut_below k _ (elems r' ++ greater_elems (greater c')) y); [|done].
      rewrite <-Ho, <-Hin in Hs. unfold in_order in Hs. rewrite Hg, Hc in Hs. simpl in Hs.
      by rewrite <-!(assoc_L (++)) in *.
Qed.

Lemma VSPLAY_spec t k : sorted (elems t) → t ≠ Null →
  ∃ t', VSPLAY cmp t k = Ret t' ∧ splayed k (elems t) t'.
Proof.
  intros Hs Ht. unfold VSPLAY.
  destruct (splay_loop_spec k (elems t) (S (depth t)) (Cursor t [] [])) as
    (c & -> & [Ho _ Hsm Hgr] & Hc); [done|simpl; lia| |].
  { split; [by unfold in_order; simpl; rewrite app_nil_r|done| |]; intros e He; by apply elem_of_nil in He. }
  destruct (root c) as [|l x r] eqn:Hroot; [done|]. simpl.
  destruct (assemble_spec c l x r Hroot) as (l' & r' & -> & Hl & Hr).
  assert (elems (Node l' x r') = elems t) as He.
  { rewrite <-Ho. unfold in_order. rewrite Hroot. simpl. rewrite Hl, Hr. by rewrite <-!(assoc_L (++)). }
  eexists. split; [done|]. exists l', x, r'. split_and!; [done|done|].
  assert (sorted (elems l' ++ x :: elems r')) as Hs' by by rewrite <-He in Hs.
  destruct (cmp k x.1) eqn:Hx.
  - apply (cmp_eq (cmp:=cmp)) in Hx as ->. destruct x as [kx lx].
    apply sorted_mid in Hs' as (_ & _ & H1 & H2). done.
  - split; [by rewrite Hl, Hc, app_nil_r|by eapply cut_above].
  - split; [by eapply cut_below|by rewrite Hr, Hc].
Qed.

(** The three filters of the dictionary, read off the root. *)
Lemma splayed_split k xs t : splayed k xs t →
  ∃ l x r, t = Node l x r ∧ xs = elems l ++ x :: elems r ∧
    match cmp k x.1 with
    | Eq => k = x.1 ∧ below cmp k xs = elems l ∧ at_key cmp k xs = [x] ∧ above cmp k xs = elems r
    | Lt => below cmp k xs = elems l ∧ at_key cmp k xs = [] ∧ above cmp k xs = x :: elems r
    | Gt => below cmp k xs = elems l ++ [x] ∧ at_key cmp k xs = [] ∧ above cmp k xs = elems r
    end.
Proof.
  intros (l & x & r & -> & <- & H). exists l, x, r. split_and!; [done|done|]. simpl.
  destruct (cmp k x.1) eqn:Hx; destruct H as [H1 H2].
  - apply (cmp_eq (cmp:=cmp)) in Hx as ->. split; [done|]. by apply split_at.
  - by apply split_below.
  - replace (elems l ++ x :: elems r) with ((elems l ++ [x]) ++ elems r) by by rewrite <-(assoc_L (++)).
    by apply split_below.
Qed.

Lemma dict_step_sorted xs op : sorted xs → sorted (dict_step cmp xs op).2.
Proof.
  intros Hs. destruct op as [k|e|e|k| |]; simpl; try done; destruct (head _); simpl;
    auto using sorted_insert, sorted_around.
Qed.

(** ** One operation *)
Lemma VSPLAY_EMPTY_spec t : VSPLAY_EMPTY t = bool_decide (elems t = []).
Proof. destruct t as [|l x r]; [done|]. symmetry. apply bool_decide_eq_false. simpl. by destruct (elems l). Qed.
Lemma VSPLAY_cases t k : sorted (elems t) → elems t ≠ [] →
  VSPLAY_EMPTY t = false ∧
  ∃ l x r, VSPLAY cmp t k = Ret (Node l x r) ∧ elems t = elems l ++ x :: elems r ∧
    splayed k (elems t) (Node l x r).
Proof.
  intros Hs Ht. assert (t ≠ Null) as Ht' by by intros ->.
  split; [by destruct t|]. destruct (VSPLAY_spec t k Hs Ht') as (t' & Hv & Hsp).
  destruct (splayed_split _ _ _ Hsp) as (l & x & r & -> & He & _). by exists l, x, r.
Qed.

Lemma remove_left l k : sorted (elems l) → elems l ≠ [] → all_below cmp k (elems l) →
  ∃ l1 y r, VSPLAY cmp l k = Ret (Node l1 y r) ∧ elems l1 ++ [y] = elems l.
Proof.
  intros Hs Hne Hb. destruct (VSPLAY_cases l k Hs Hne) as (_ & l1 & y & r & Hv & He & Hsp).
  exists l1, y, r. split; [done|].
  assert (above cmp k (elems l) = [] ∧ at_key cmp k (elems l) = []) as [Ha Hat].
  { destruct (split_below k (elems l) []) as (_ & H2 & H3); [done| |by rewrite app_nil_r in *].
    intros e He'. by apply elem_of_nil in He'. }
  destruct (splayed_split _ _ _ Hsp) as (l1' & y' & r' & [= <- <- <-] & _ & H).
  destruct (cmp k y.1); [by rewrite Hat in H; naive_solver|by rewrite Ha in H; naive_solver|].
  destruct H as (_ & _ & H). rewrite Ha in H. by rewrite He, <-H.
Qed.

(** The root of the splayed tree splits the list at the key. *)
Lemma splay_root t k : sorted (elems t) → elems t ≠ [] →
  VSPLAY_EMPTY t = false ∧ ∃ l x r, VSPLAY cmp t k = Ret (Node l x r) ∧
    elems t = elems (Node l x r) ∧
    match cmp k x.1 with
    | Eq => k = x.1 ∧ below cmp k (elems t) = elems l ∧ at_key cmp k (elems t) = [x] ∧
        above cmp k (elems t) = elems r
    | Lt => below cmp k (elems t) = elems l ∧ at_key cmp k (elems t) = [] ∧
        above cmp k (elems t) = x :: elems r
    | Gt => below cmp k (elems t) = elems l ++ [x] ∧ at_key cmp k (elems t) = [] ∧
        above cmp k (elems t) = elems r
    end.
Proof.
  intros Hs He. destruct (VSPLAY_cases t k Hs He) as (Hemp & l & x & r & Hv & Hel & Hsp).
  split; [done|]. destruct (splayed_split _ _ _ Hsp) as (? & ? & ? & [= <- <- <-] & _ & H).
  by exists l, x, r.
Qed.

Lemma splay_step_spec t op : sorted (elems t) → op_allowed cmp (elems t) op →
  ∃ t', splay_step cmp t op = Ret ((dict_step cmp (elems t) op).1, t') ∧
    elems t' = (dict_step cmp (elems t) op).2.
Proof.
  intros Hs Hop. destruct (decide (elems t = [])) as [He|He].
  { destruct t as [|l x r]; [|simpl in He; by destruct (elems l)].
    destruct op; first [by destruct Hop|by eexists]. }
  assert (t ≠ Null) as Ht by by intros ->.
  pose proof (λ k, splay_root t k Hs He) as Hsplay.
  destruct op as [k|e|e|k| |]; simpl;
    unfold VSPLAY_FIND, VSPLAY_INSERT, VSPLAY_REMOVE, VSPLAY_NEXT, VSPLAY_MIN, VSPLAY_MAX.
  - destruct (Hsplay k) as (-> & l & x & r & -> & Hel & H). simpl. exists (Node l x r).
    by destruct (cmp k x.1); [destruct H as (_ & _ & -> & _)|destruct H as (_ & -> & _)..].
  - destruct (Hsplay e.1) as (-> & l & x & r & -> & Hel & H). simpl.
    destruct (cmp e.1 x.1); [destruct H as (_ & _ & -> & _)|destruct H as (-> & -> & ->)..]; simpl.
    + by eexists.
    + by eexists.
    + eexists. split; [done|]. simpl. by rewrite <-(assoc_L (++)).
  - destruct (Hsplay e.1) as (-> & l & x & r & -> & Hel & H). simpl.
    destruct (cmp e.1 x.1); [destruct H as (Hk & Hb & -> & ->)|destruct H as (_ & -> & _)..]; simpl.
    + rewrite VSPLAY_EMPTY_spec. case_bool_decide as Hl; [exists r; by rewrite Hb, Hl|].
      assert (sorted (elems l)) as Hsl by (rewrite <-Hb; by apply sorted_filter).
      destruct (remove_left l e.1) as (l1 & y & r1 & -> & Hl1); [done|done| |].
      { rewrite <-Hb. by intros e' [? _]%list_elem_of_filter. }
      eexists. split; [done|]. simpl. by rewrite Hb, <-Hl1, <-(assoc_L (++)).
    + by eexists.
    + by eexists.
  - destruct (Hsplay k) as (_ & l & x & r & -> & Hel & H). simpl. exists (Node l x r).
    simpl in Hop. destruct (cmp k x.1); [|by destruct H as (_ & ? & _)..].
    destruct H as (_ & _ & _ & ->). by rewrite splay_leftmost_spec.
  - rewrite VSPLAY_EMPTY_spec, bool_decide_eq_false_2 by done. unfold VSPLAY_MIN_MAX.
    destruct (VSPLAY_MIN_spec t Ht) as (x & r & -> & Hel). exists (Node Null x r).
    simpl. by rewrite <-Hel.
  - rewrite VSPLAY_EMPTY_spec, bool_decide_eq_false_2 by done. unfold VSPLAY_MIN_MAX.
    destruct (VSPLAY_MAX_spec t Ht) as (l & x & -> & Hel). exists (Node l x Null).
    simpl. by rewrite <-Hel, last_snoc.
Qed.

(** C17: the splay tree macros implement a dictionary.  For every sequence of
    finds, insertions, removals, successor, minimum and maximum queries on an
    empty tree, every operation returns (no NULL is followed and every loop
    ends) with the answer a sorted list of elements gives, and the tree holds
    that list in order, whatever shape the splays gave it. *)
Theorem splay_refines_dictionary (ops : list (splay_op K)) :
  ops_allowed cmp [] ops →
  ∃ t, splay_run cmp Null ops = Ret ((dict_run cmp [] ops).1, t) ∧
    elems t = (dict_run cmp [] ops).2 ∧ sorted (elems t).
Proof.
  change (@nil elm) with (elems (K:=K) Null).
  assert (sorted (elems (K:=K) Null)) as Hs by constructor. revert Hs. generalize (@Null K) as t.
  induction ops as [|op ops IH]; intros t Hs Hops; simpl; [by exists t|].
  destruct Hops as [Hop Hops]. destruct (splay_step_spec t op Hs Hop) as (t' & -> & He). simpl.
  assert (sorted (elems t')) as Hs' by (rewrite He; by apply dict_step_sorted).
  rewrite <-He in Hops. destruct (IH t' Hs' Hops) as (t2 & H1 & H2 & H3). rewrite He in H1, H2.
  destruct (dict_step cmp (elems t) op) as [o xs] eqn:Hd. simpl in *. rewrite H1. simpl.
  exists t2. destruct (dict_run cmp xs ops) as [os xs']. done.
Qed.

(** C38: VSPLAY_FOREACH is the loop over the sorted list of the elements: the
    body runs once on each of them, in order, although every step to the next
    element restructures the tree; only the shape of the tree changes. *)
Theorem splay_foreach_exact {St} (t : splay_tree K) fuel (body : elm → M St unit) :
  sorted (elems t) → length (elems t) ≤ fuel →
  ∃ t', elems t' = elems t ∧
    ∀ s, VSPLAY_FOREACH cmp fuel t body s = (forM_ (elems t) body;;; mret t') s.
Proof.
  intros Hs Hf. unfold VSPLAY_FOREACH.
  destruct (splay_step_spec t Splay_min Hs I) as (t1 & Hmin & He1). cbn [splay_step] in Hmin.
  simpl in He1. cbn [dict_step fst] in Hmin.
  assert (∀ todo seen fuel t1, elems t1 = elems t → elems t = seen ++ todo → length todo ≤ fuel →
    ∃ t', elems t' = elems t ∧
      ∀ s, foreach_from cmp fuel (head todo) t1 body s = (forM_ todo body;;; mret t') s) as H.
  { clear fuel Hf t1 Hmin He1. induction todo as [|x todo IH]; intros seen fuel t1 He1 He Hf.
    { exists t1. split; [done|]. intros s. by destruct fuel. }
    destruct fuel as [|fuel]; simpl in Hf; [lia|]. destruct x as [k l].
    assert (at_key cmp k (elems t) = [(k, l)] ∧ above cmp k (elems t) = todo) as [Hat Hab].
    { rewrite He in Hs |- *. apply sorted_mid in Hs as (_ & _ & H1 & H2).
      by destruct (split_at seen (k, l) todo H1 H2) as (_ & ? & ?). }
    destruct (splay_step_spec t1 (Splay_next k)) as (t2 & Hnext & He2);
      [by rewrite He1|by simpl; rewrite He1, Hat|].
    simpl in Hnext, He2. rewrite He1, Hab in Hnext.
    destruct (IH (seen ++ [(k, l)]) fuel t2) as (t' & Ht' & Hrun);
      [by rewrite He2|by rewrite <-(assoc_L (++))|lia|].
    exists t'. split; [done|]. intros s. cbn [head foreach_from forM_].
    unfold mbind, M_bind. destruct (body (k, l) s) as [[[] s']| | |]; [|done..].
    unfold liftO. cbn [fst]. rewrite Hnext. simpl. exact (Hrun s'). }
  destruct (H (elems t) [] fuel t1) as (t' & Ht' & Hrun); [done|done|done|].
  exists t'. split; [done|]. intros s. unfold mbind at 1, M_bind at 1, liftO. rewrite Hmin. simpl.
  rewrite Hrun. unfold mbind, M_bind. by destruct (forM_ _ _ s) as [[[] ?]| | |].
Qed.
End ordered.

(** ** Concrete runs *)
Module Examples.
Definition e (n : N) : N * loc := (n, N.succ_pos n).
Definition ops : list (splay_op uintptr) :=
  [Splay_insert (e 3); Splay_insert (e 1); Splay_insert (e 2); Splay_insert (2%N, 9%positive);
   Splay_min; Splay_next 1%N; Splay_remove (3%N, 7%positive); Splay_find 3%N; Splay_max].
Definition tree : splay_tree uintptr := Node (Node Null (e 1) Null) (e 2) (Node Null (e 3) Null).
Definition note (x : uintptr * loc) : M (list (uintptr * loc)) unit := modifyS (λ s, s ++ [x]).
End Examples.
Import Examples.

Lemma splay_refines_dictionary_witness :
  ∃ t, splay_run ptrcmp Null ops =
      Ret ([None; None; None; Some (e 2); Some (e 1); Some (e 2); Some (3%N, 7%positive);
            None; Some (e 2)], t) ∧
    elems t = [e 1; e 2] ∧ StronglySorted (key_lt ptrcmp) (elems t).
Proof.
  apply (splay_refines_dictionary (cmp:=ptrcmp) ops). cbv [ops ops_allowed op_allowed]. by split_and!.
Defined.

Lemma splay_foreach_exact_witness :
  ∃ t', elems t' = elems tree ∧
    ∀ s, VSPLAY_FOREACH ptrcmp 3 tree note s = (forM_ (elems tree) note;;; mret t') s.
Proof.
  apply (splay_foreach_exact (cmp:=ptrcmp) tree 3 note); [|simpl; lia].
  repeat constructor.
Defined.
