(* ===== verification/SplayCost.v ===== *)
(** * vtree.h: the amortized cost of the splay trees

    The header's comment says that the amortized cost of an access to a splay
    tree is O(lg n), which is why its users may let every lookup restructure
    the tree.  Here the iterations of all loops of the operations are counted,
    and the bound is proved for the simple top-down splay of the code, the one
    that treats a zig-zag as two single steps.  VSPLAY_NEXT goes down a path
    without splaying it; what it adds is counted apart, and
    [repeated_next_linear] shows that the bound fails with it.

    [walk] is the loop as a recursive function that rebuilds the tree on the
    way back; [loop_walk] shows that the loop of Splay.v computes it and in
    how many iterations.  The potential of a tree is the sum of the binary
    logarithms of the sizes of its subtrees. *)
From S2P Require Import Prelude CStr TreeSpec Splay.

(** ** Counting iterations *)
Section counting.
Context {K : Type} (cmp : K → K → comparison).
Abbreviation elm := (K * loc)%type.
Abbreviation splay_tree := (splay_tree K).
Abbreviation cursor := (cursor K).

(** One iteration of VSPLAY and of VSPLAY_MINMAX; true: the loop ends. *)
Definition splay_body (k : K) (c : cursor) : outcome (bool * cursor) :=
  match root c with
  | Null => Undef "cmp(elm, NULL)"
  | Node _ x _ =>
      match cmp k x.1 with
      | Eq => Ret (true, c)
      | Lt => step_left (λ y, bool_decide (cmp k y.1 = Lt)) c
      | Gt => step_right (λ y, bool_decide (cmp k y.1 = Gt)) c
      end
  end.
Definition minmax_body (comp : Z) (c : cursor) : outcome (bool * cursor) :=
  if (comp <? 0)%Z then step_left (λ _, (comp <? 0)%Z) c
  else if (0 <? comp)%Z then step_right (λ _, (0 <? comp)%Z) c
  else Ret (false, c).

Fixpoint loop (body : cursor → outcome (bool * cursor)) (fuel : nat) (c : cursor) : outcome cursor :=
  match fuel with
  | O => NoFuel
  | S fuel => '(stop, c') ← body c; if stop : bool then Ret c' else loop body fuel c'
  end.
(** How often the body runs. *)
Fixpoint iterations (body : cursor → outcome (bool * cursor)) (fuel : nat) (c : cursor) : nat :=
  match fuel with
  | O => 0
  | S fuel => S (match body c with Ret (false, c') => iterations body fuel c' | _ => 0 end)
  end.

Lemma splay_loop_is_loop fuel k c : splay_loop cmp fuel k c = loop (splay_body k) fuel c.
Proof.
  revert c. induction fuel as [|fuel IH]; intros c; [done|]. cbn [splay_loop loop]. unfold splay_body.
  destruct (root c) as [|l x r]; [done|]. destruct (cmp k x.1); [done|..].
  - destruct (step_left _ c) as [[[] c']| | |]; simpl; auto.
  - destruct (step_right _ c) as [[[] c']| | |]; simpl; auto.
Qed.
Lemma minmax_loop_is_loop fuel comp c : minmax_loop fuel comp c = loop (minmax_body comp) fuel c.
Proof.
  revert c. induction fuel as [|fuel IH]; intros c; [done|]. cbn [minmax_loop loop]. fold (minmax_body comp c).
  destruct (minmax_body comp c) as [[[] c']| | |]; simpl; auto.
Qed.

Definition splay_cost (t : splay_tree) (k : K) : nat :=
  iterations (splay_body k) (S (depth t)) (Cursor t [] []).
Definition minmax_cost (t : splay_tree) (comp : Z) : nat :=
  iterations (minmax_body comp) (S (depth t)) (Cursor t [] []).

(** The iterations of the splays of an operation. *)
Definition splays_cost (t : splay_tree) (op : splay_op K) : nat :=
  if VSPLAY_EMPTY t then 0
  else
    match op with
    | Splay_find k | Splay_next k => splay_cost t k
    | Splay_insert e => splay_cost t e.1
    | Splay_remove e =>
        splay_cost t e.1 +
        match VSPLAY cmp t e.1 with
        | Ret (Node l x _) =>
            if bool_decide (cmp e.1 x.1 = Eq) && negb (VSPLAY_EMPTY l) then splay_cost l e.1 else 0
        | _ => 0
        end
    | Splay_min => minmax_cost t (-1)
    | Splay_max => minmax_cost t 1
    end.
(** The elements VSPLAY_NEXT passes after its splay, from the right child of
    the root down to the leftmost one. *)
Fixpoint spine (t : splay_tree) : nat := match t with Null => 0 | Node l _ _ => S (spine l) end.
Definition walk_cost (t : splay_tree) (op : splay_op K) : nat :=
  match op with
  | Splay_next k => match VSPLAY cmp t k with Ret (Node _ _ r) => spine r | _ => 0 end
  | _ => 0
  end.
Definition op_cost (t : splay_tree) (op : splay_op K) : nat := splays_cost t op + walk_cost t op.
(** The sum of a cost over a sequence of operations. *)
Fixpoint run_sum (cost : splay_tree → splay_op K → nat) (t : splay_tree) (ops : list (splay_op K))
    : outcome nat :=
  match ops with
  | [] => Ret 0
  | op :: ops => '(_, t') ← splay_step cmp t op; n ← run_sum cost t' ops; Ret (cost t op + n)
  end.
Definition run_cost : splay_tree → list (splay_op K) → outcome nat := run_sum op_cost.
Definition run_walks : splay_tree → list (splay_op K) → outcome nat := run_sum walk_cost.
Definition nexts (ops : list (splay_op K)) : nat :=
  length (filter (λ op, match op with Splay_next _ => true | _ => false end = true) ops).
Definition inserts (ops : list (splay_op K)) : nat :=
  length (filter (λ op, match op with Splay_insert _ => true | _ => false end = true) ops).
End counting.

(** ** The walk *)
Section walk.
Context {K : Type}.
Abbreviation elm := (K * loc)%type.
Abbreviation splay_tree := (splay_tree K).
Abbreviation cursor := (cursor K).
Implicit Types (t l r a b : splay_tree) (x y z : elm) (c : cursor).
(** Where the loop goes from an element: to its left, its right, or nowhere. *)
Context (dir : elm → comparison).

Definition hang_greater x r (w : nat * splay_tree) : nat * splay_tree :=
  match w with (n, Node l' z r') => (S n, Node l' z (Node r' x r)) | (n, Null) => (S n, Null) end.
Definition hang_smaller l x (w : nat * splay_tree) : nat * splay_tree :=
  match w with (n, Node l' z r') => (S n, Node (Node l x l') z r') | (n, Null) => (S n, Null) end.

(** The iterations, and the tree they leave. *)
Fixpoint walk t : nat * splay_tree :=
  match t with
  | Null => (0, Null)
  | Node l x r =>
      match dir x with
      | Eq => (1, t)
      | Lt =>
          match l with
          | Null => (1, t)
          | Node a y b =>
              match dir y with
              | Lt => if VSPLAY_EMPTY a then (1, Node a y (Node b x r)) else hang_greater y (Node b x r) (walk a)
              | _ => hang_greater x r (walk l)
              end
          end
      | Gt =>
          match r with
          | Null => (1, t)
          | Node a y b =>
              match dir y with
              | Gt => if VSPLAY_EMPTY b then (1, Node (Node l x a) y b) else hang_smaller (Node l x a) y (walk b)
              | _ => hang_smaller l x (walk r)
              end
          end
      end
  end.
Lemma walk_eq l x r : walk (Node l x r) =
  match dir x with
  | Eq => (1, Node l x r)
  | Lt =>
      match l with
      | Null => (1, Node l x r)
      | Node a y b =>
          match dir y with
          | Lt => if VSPLAY_EMPTY a then (1, Node a y (Node b x r)) else hang_greater y (Node b x r) (walk a)
          | _ => hang_greater x r (walk l)
          end
      end
  | Gt =>
      match r with
      | Null => (1, Node l x r)
      | Node a y b =>
          match dir y with
          | Gt => if VSPLAY_EMPTY b then (1, Node (Node l x a) y b) else hang_smaller (Node l x a) y (walk b)
          | _ => hang_smaller l x (walk r)
          end
      end
  end.
Proof. by destruct l, r. Qed.

Definition dir_body c : outcome (bool * cursor) :=
  match root c with
  | Null => Undef "cmp(elm, NULL)"
  | Node _ x _ =>
      match dir x with
      | Eq => Ret (true, c)
      | Lt => step_left (λ y, bool_decide (dir y = Lt)) c
      | Gt => step_right (λ y, bool_decide (dir y = Gt)) c
      end
  end.

(** The loop from [t], with the chains [s] and [g] behind it. *)
Definition walked body t (w : nat * splay_tree) : Prop :=
  w.1 ≤ depth t ∧ ∃ l' z r', w.2 = Node l' z r' ∧
  ∀ s g fuel, w.1 ≤ fuel →
    iterations body fuel (Cursor t s g) = w.1 ∧
    ∃ c, loop body fuel (Cursor t s g) = Ret c ∧
      VSPLAY_ASSEMBLE c = Ret (Node (fill_smaller l' s) z (fill_greater r' g)).

(** The last iteration, and one before it. *)
Lemma walked_stop body t l' z r' : 1 ≤ depth t →
  (∀ s g, body (Cursor t s g) = Ret (true, Cursor (Node l' z r') s g)) → walked body t (1, Node l' z r').
Proof.
  intros Hd Hb. split; [done|]. exists l', z, r'. split; [done|]. intros s g [|fuel] Hf; [simpl in Hf; lia|].
  cbn [iterations loop]. rewrite Hb. simpl. by eauto.
Qed.
Lemma walked_greater body t t' x r w : depth t' < depth t →
  (∀ s g, body (Cursor t s g) = Ret (false, Cursor t' s ((x, r) :: g))) →
  walked body t' w → walked body t (hang_greater x r w).
Proof.
  destruct w as [n tw]. intros Hd Hb (Hn & l' & z & r' & Heq & Hw). simpl in *. subst tw. split; [simpl; lia|].
  exists l', z, (Node r' x r). split; [done|]. intros s g [|fuel] Hf; [simpl in Hf; lia|]. simpl in Hf.
  cbn [iterations loop]. rewrite Hb. destruct (Hw s ((x, r) :: g) fuel ltac:(lia)) as (Hi & c & Hl & Ha).
  simpl. rewrite Hi. split; [done|]. by exists c.
Qed.
Lemma walked_smaller body t t' l x w : depth t' < depth t →
  (∀ s g, body (Cursor t s g) = Ret (false, Cursor t' ((l, x) :: s) g)) →
  walked body t' w → walked body t (hang_smaller l x w).
Proof.
  destruct w as [n tw]. intros Hd Hb (Hn & l' & z & r' & Heq & Hw). simpl in *. subst tw. split; [simpl; lia|].
  exists (Node l x l'), z, r'. split; [done|]. intros s g [|fuel] Hf; [simpl in Hf; lia|]. simpl in Hf.
  cbn [iterations loop]. rewrite Hb. destruct (Hw ((l, x) :: s) g fuel ltac:(lia)) as (Hi & c & Hl & Ha).
  simpl. rewrite Hi. split; [done|]. by exists c.
Qed.

Lemma loop_walk body t : (∀ c, root c ≠ Null → body c = dir_body c) → t ≠ Null → walked body t (walk t).
Proof.
  intros Hbody. remember (depth t) as n eqn:Hn. revert t Hn.
  induction (lt_wf n) as [n _ IH]. intros t -> Ht. destruct t as [|l x r]; [done|]. rewrite walk_eq.
  assert (∀ s g, body (Cursor (Node l x r) s g) = dir_body (Cursor (Node l x r) s g)) as Hb by (intros; by apply Hbody).
  unfold dir_body in Hb. simpl in Hb. destruct (dir x) eqn:Hx.
  - apply walked_stop; [simpl; lia|done].
  - destruct l as [|a y b]; [apply walked_stop; [simpl; lia|done]|].
    unfold step_left in Hb. simpl in Hb. destruct (dir y) eqn:Hy.
    + eapply walked_greater; [|exact Hb|]; [simpl; lia|]. eapply IH; [|done|done]. simpl. lia.
    + destruct a as [|a1 z a2]; [apply walked_stop; [simpl; lia|done]|].
      eapply walked_greater; [|exact Hb|]; [simpl; lia|]. eapply IH; [|done|done]. simpl. lia.
    + eapply walked_greater; [|exact Hb|]; [simpl; lia|]. eapply IH; [|done|done]. simpl. lia.
  - destruct r as [|a y b]; [apply walked_stop; [simpl; lia|done]|].
    unfold step_right in Hb. simpl in Hb. destruct (dir y) eqn:Hy.
    + eapply walked_smaller; [|exact Hb|]; [simpl; lia|]. eapply IH; [|done|done]. simpl. lia.
    + eapply walked_smaller; [|exact Hb|]; [simpl; lia|]. eapply IH; [|done|done]. simpl. lia.
    + destruct b as [|b1 z b2]; [apply walked_stop; [simpl; lia|done]|].
      eapply walked_smaller; [|exact Hb|]; [simpl; lia|]. eapply IH; [|done|done]. simpl. lia.
Qed.
End walk.

(** ** The potential *)
Section potential.
Context {K : Type}.
Abbreviation elm := (K * loc)%type.
Abbreviation splay_tree := (splay_tree K).
Implicit Types (t l r a b : splay_tree) (x y z : elm).

Fixpoint nodes t : nat := match t with Null => 0 | Node l _ r => S (nodes l + nodes r) end.
Definition rank t : nat := Nat.log2 (nodes t).
Fixpoint potential t : nat :=
  match t with Null => 0 | Node l _ r => potential l + potential r + rank t end.

Lemma nodes_elems t : nodes t = length (elems t).
Proof. induction t as [|l IHl x r IHr]; simpl; [done|]. rewrite length_app. simpl. lia. Qed.
Lemma rank_mono a b : nodes a ≤ nodes b → rank a ≤ rank b.
Proof. apply Nat.log2_le_mono. Qed.
(** Of two disjoint subtrees one has at most half of the nodes. *)
Lemma rank_disjoint a b t : 1 ≤ nodes a → 1 ≤ nodes b → nodes a + nodes b ≤ nodes t →
  rank a + rank b + 1 ≤ 2 * rank t.
Proof.
  unfold rank. intros Ha Hb Ht.
  pose proof (Nat.log2_spec (nodes a) ltac:(lia)) as [Ha1 _]. pose proof (Nat.log2_spec (nodes b) ltac:(lia)) as [Hb1 _].
  pose proof (Nat.log2_le_mono (nodes a) (nodes t) ltac:(lia)). pose proof (Nat.log2_le_mono (nodes b) (nodes t) ltac:(lia)).
  destruct (decide (Nat.log2 (nodes a) = Nat.log2 (nodes b))) as [Heq|]; [|lia].
  assert (Nat.log2 (2 ^ S (Nat.log2 (nodes a))) ≤ Nat.log2 (nodes t)) as Hle.
  { apply Nat.log2_le_mono. rewrite Heq in Ha1 |- *. cbn [Nat.pow] in *. lia. }
  rewrite Nat.log2_pow2 in Hle by lia. lia.
Qed.

Context (dir : elm → comparison).
(** What the walk does to a tree that is not empty: [n] iterations, and the
    tree is rebuilt around [z]. *)
Definition amortized t (w : nat * splay_tree) : Prop :=
  ∃ n l' z r', w = (n, Node l' z r') ∧ nodes (Node l' z r') = nodes t ∧
    n + 2 * (potential l' + potential r') ≤ 2 * potential t + 4 * rank t + 2.

(** The side conditions are about sums of sizes. *)
Ltac ranks := cbn [nodes] in *; lia.

Lemma amortized_stop l x r : amortized (Node l x r) (1, Node l x r).
Proof. exists 1, l, x, r. split; [done|]. split; [done|]. cbn [potential]. lia. Qed.
(** A zig-zig: a rotation, one link, and on with the grandchild. *)
Lemma amortized_zigzig_greater a y b x r : a ≠ Null → amortized a (walk dir a) →
  amortized (Node (Node a y b) x r) (hang_greater y (Node b x r) (walk dir a)).
Proof.
  intros Ha (n & l' & z & r' & -> & Hs & Hn). assert (1 ≤ nodes a) by (destruct a; [done|simpl; lia]).
  eexists _, _, _, _. split; [done|]. split; [ranks|]. cbn [potential].
  set (t := Node (Node a y b) x r). set (ly := Node a y b). set (gx := Node b x r). set (gy := Node r' y gx).
  pose proof (rank_mono gy t ltac:(subst gy gx t; ranks)). pose proof (rank_mono a ly ltac:(subst ly; ranks)).
  pose proof (rank_disjoint gx a t ltac:(subst gx; ranks) ltac:(lia) ltac:(subst gx t; ranks)).
  fold gx ly t gy. lia.
Qed.
(** A single link to the greater side: the next iteration links to the
    smaller side or ends, which pays for both. *)
Lemma amortized_zig_greater a y b x r : dir y ≠ Lt →
  (∀ t, depth t < depth (Node a y b) → t ≠ Null → amortized t (walk dir t)) →
  amortized (Node (Node a y b) x r) (hang_greater x r (walk dir (Node a y b))).
Proof.
  intros Hy IH. set (t := Node (Node a y b) x r). set (ly := Node a y b).
  assert (∀ r', nodes r' + nodes r + 2 ≤ nodes t → rank (Node r' x r) ≤ rank t) as Hgr.
  { intros r' Hr'. apply rank_mono. etrans; [|exact Hr']. simpl. lia. }
  assert (∀ n, n ≤ 2 → amortized t (n, Node a y (Node b x r))) as Hend.
  { intros n Hn. eexists _, _, _, _. split; [done|]. split; [subst t; ranks|]. unfold t at 1. cbn [potential].
    fold t ly. pose proof (Hgr b ltac:(subst t; ranks)). lia. }
  unfold ly at 1. rewrite walk_eq. destruct (dir y) eqn:Hd; [by apply Hend|done|].
  destruct b as [|a1 z b1]; [by apply Hend|].
  assert (∀ u, u ≠ Null → nodes u ≤ nodes (Node a1 z b1) → rank u ≤ rank ly ∧ 1 ≤ nodes u) as Hu.
  { intros u Hu Hle. split; [apply rank_mono; subst ly; ranks|]. destruct u; [done|]. simpl. lia. }
  set (rz := Node a1 z b1) in *.
  assert (amortized t (hang_greater x r (hang_smaller a y (walk dir rz)))) as Hzigzag.
  { destruct (IH rz) as (n & l' & w & r' & -> & Hs & Hn); [subst rz; simpl; lia|done|].
    eexists _, _, _, _. split; [done|]. split; [subst t rz; ranks|].
    destruct (Hu rz) as [Hrz _]; [done|done|]. assert (rank ly ≤ rank t) by (apply rank_mono; subst ly t; ranks).
    pose proof (rank_disjoint (Node a y l') (Node r' x r) t ltac:(ranks) ltac:(ranks) ltac:(subst t rz; ranks)).
    unfold t at 1. cbn [potential]. fold t ly. lia. }
  destruct (dir z) eqn:Hz; [exact Hzigzag..|]. destruct (VSPLAY_EMPTY b1) eqn:Hb1.
  - destruct b1; [|done]. eexists _, _, _, _. split; [done|]. split; [subst t rz; ranks|].
    pose proof (Hgr Null ltac:(subst t rz; ranks)). pose proof (rank_mono (Node a y a1) ly ltac:(subst ly rz; ranks)).
    unfold t at 1. cbn [potential]. unfold rz. cbn [potential]. fold rz. fold t ly. lia.
  - destruct (IH b1) as (n & l' & w & r' & -> & Hs & Hn); [subst rz; simpl; lia|by destruct b1|].
    eexists _, _, _, _. split; [done|]. split; [subst t rz; ranks|].
    assert (b1 ≠ Null) as Hne by by destruct b1.
    pose proof (rank_mono b1 rz ltac:(subst rz; ranks)). pose proof (rank_mono (Node a y a1) ly ltac:(subst ly rz; ranks)).
    destruct (Hu b1) as [_ H1]; [done|subst rz; ranks|].
    pose proof (rank_disjoint (Node (Node a y a1) z l') (Node r' x r) t ltac:(ranks) ltac:(ranks) ltac:(subst t rz; ranks)).
    assert (rank b1 ≤ rank t) by (apply rank_mono; subst t rz; ranks).
    unfold t at 1. cbn [potential]. unfold rz. cbn [potential]. fold rz. fold t ly. lia.
Qed.
(** An iteration that goes to the left, in all its cases. *)
Lemma amortized_left l x r : dir x = Lt →
  (∀ t, depth t < depth (Node l x r) → t ≠ Null → amortized t (walk dir t)) →
  amortized (Node l x r) (walk dir (Node l x r)).
Proof.
  intros Hx IH. rewrite walk_eq, Hx. destruct l as [|a y b]; [apply amortized_stop|].
  assert (∀ t, depth t < depth (Node a y b) → t ≠ Null → amortized t (walk dir t)) as IH'.
  { intros t Ht. apply IH. simpl in *. lia. }
  destruct (dir y) eqn:Hy.
  - apply amortized_zig_greater; [by rewrite Hy|done].
  - destruct (VSPLAY_EMPTY a) eqn:Ha.
    + destruct a; [|done]. exists 1, Null, y, (Node b x r). split; [done|]. split; [ranks|].
      pose proof (rank_mono (Node b x r) (Node (Node Null y b) x r) ltac:(ranks)). cbn [potential]. lia.
    + assert (a ≠ Null) by by destruct a. apply amortized_zigzig_greater; [done|].
      apply IH'; [simpl; lia|done].
  - apply amortized_zig_greater; [by rewrite Hy|done].
Qed.
End potential.

(** *** The right is the left of the mirror image *)
Section mirror.
Context {K : Type}.
Abbreviation elm := (K * loc)%type.
Abbreviation splay_tree := (splay_tree K).
Implicit Types (t l r a b : splay_tree) (x y z : elm).

Fixpoint mirror t : splay_tree := match t with Null => Null | Node l x r => Node (mirror r) x (mirror l) end.
Definition flip (dir : elm → comparison) x : comparison := CompOpp (dir x).

Lemma nodes_mirror t : nodes (mirror t) = nodes t.
Proof. induction t as [|l IHl x r IHr]; simpl; lia. Qed.
Lemma rank_mirror t : rank (mirror t) = rank t.
Proof. unfold rank. by rewrite nodes_mirror. Qed.
Lemma potential_mirror t : potential (mirror t) = potential t.
Proof.
  induction t as [|l IHl x r IHr]; [done|]. pose proof (rank_mirror (Node l x r)) as Hr.
  cbn [mirror potential] in *. lia.
Qed.
Lemma depth_mirror t : depth (mirror t) = depth t.
Proof. induction t as [|l IHl x r IHr]; simpl; lia. Qed.
Lemma empty_mirror t : VSPLAY_EMPTY (mirror t) = VSPLAY_EMPTY t.
Proof. by destruct t. Qed.
Lemma hang_mirror x r w :
  hang_smaller (mirror r) x (w.1, mirror w.2) = ((hang_greater x r w).1, mirror (hang_greater x r w).2) ∧
  hang_greater x (mirror r) (w.1, mirror w.2) = ((hang_smaller r x w).1, mirror (hang_smaller r x w).2).
Proof. by destruct w as [n []]. Qed.

Lemma walk_mirror dir t : walk (flip dir) (mirror t) = ((walk dir t).1, mirror (walk dir t).2).
Proof.
  remember (depth t) as n eqn:Hn. revert t Hn. induction (lt_wf n) as [n _ IH]. intros t ->.
  assert (∀ u, depth u < depth t → walk (flip dir) (mirror u) = ((walk dir u).1, mirror (walk dir u).2)) as Hw
    by (intros u Hu; by eapply IH).
  destruct t as [|l x r]; [done|]. change (mirror (Node l x r)) with (Node (mirror r) x (mirror l)).
  rewrite !walk_eq. unfold flip at 1. destruct (dir x); simpl CompOpp; cbv iota; [done|..].
  - destruct l as [|a y b]; [done|]. pose proof (Hw (Node a y b) ltac:(simpl; lia)) as Hl.
    pose proof (Hw a ltac:(simpl; lia)) as Ha. cbn [mirror] in *. unfold flip at 1.
    destruct (dir y); simpl CompOpp; cbv iota; [rewrite Hl; apply hang_mirror| |rewrite Hl; apply hang_mirror].
    rewrite empty_mirror. destruct (VSPLAY_EMPTY a); [done|]. rewrite Ha.
    apply (hang_mirror y (Node b x r) (walk dir a)).
  - destruct r as [|a y b]; [done|]. pose proof (Hw (Node a y b) ltac:(simpl; lia)) as Hr.
    pose proof (Hw b ltac:(simpl; lia)) as Hb. cbn [mirror] in *. unfold flip at 1.
    destruct (dir y); simpl CompOpp; cbv iota; [rewrite Hr; apply hang_mirror|rewrite Hr; apply hang_mirror|].
    rewrite empty_mirror. destruct (VSPLAY_EMPTY b); [done|]. rewrite Hb.
    apply (hang_mirror y (Node l x a) (walk dir b)).
Qed.

Lemma amortized_mirror t w : amortized (mirror t) (w.1, mirror w.2) → amortized t w.
Proof.
  destruct w as [n [|l z r]]; intros (n' & l' & z' & r' & [= <- <- <- <-] & Hs & Hn).
  exists n, l, z, r. split; [done|]. rewrite !potential_mirror, rank_mirror in Hn. cbn [nodes] in *. rewrite !nodes_mirror in Hs.
  split; lia.
Qed.

(** An iteration of a splay costs what it lowers the potential by, up to
    [6 rank + 2] for all of them. *)
Lemma walk_amortized dir t : t ≠ Null → amortized t (walk dir t).
Proof.
  remember (depth t) as n eqn:Hn. revert dir t Hn. induction (lt_wf n) as [n _ IH]. intros dir t -> Ht.
  destruct t as [|l x r]; [done|]. destruct (dir x) eqn:Hx.
  - rewrite walk_eq, Hx. apply amortized_stop.
  - apply amortized_left; [done|]. intros u Hu Hne. by eapply IH.
  - apply amortized_mirror. rewrite <-walk_mirror. cbn [mirror]. apply amortized_left.
    + unfold flip. by rewrite Hx.
    + intros u Hu Hne. eapply IH; [|done|done]. cbn [depth] in *. rewrite !depth_mirror in Hu. lia.
Qed.
End mirror.

(** ** The operations *)
Section bound.
Context {K : Type} {cmp : K → K → comparison} `{!TotalCmp cmp}.
Abbreviation elm := (K * loc)%type.
Abbreviation splay_tree := (splay_tree K).
Implicit Types (t l r : splay_tree) (x : elm) (op : splay_op K).

(** Whatever loop goes where [dir] says. *)
Lemma loop_amortized dir body t :
  (∀ c, root c ≠ Null → body c = dir_body dir c) → t ≠ Null →
  ∃ c l x r, loop body (S (depth t)) (Cursor t [] []) = Ret c ∧ VSPLAY_ASSEMBLE c = Ret (Node l x r) ∧
    nodes (Node l x r) = nodes t ∧
    iterations body (S (depth t)) (Cursor t [] []) + 2 * (potential l + potential r) ≤
      2 * potential t + 4 * rank t + 2.
Proof.
  intros Hbody Ht. destruct (walk_amortized dir t Ht) as (n & l & x & r & Hw & Hs & Hn).
  destruct (loop_walk dir body t Hbody Ht) as (Hd & l' & z & r' & Heq & Hl). rewrite Hw in *.
  injection Heq as <- <- <-. destruct (Hl [] [] (S (depth t))) as (Hi & c & Hc & Ha); [lia|].
  exists c, l, x, r. rewrite Hi. by split_and!.
Qed.
Lemma splay_amortized t k : t ≠ Null →
  ∃ l x r, VSPLAY cmp t k = Ret (Node l x r) ∧ nodes (Node l x r) = nodes t ∧
    splay_cost cmp t k + 2 * (potential l + potential r) ≤ 2 * potential t + 4 * rank t + 2.
Proof.
  intros Ht. destruct (loop_amortized (λ x, cmp k x.1) (splay_body cmp k) t) as (c & l & x & r & Hl & Ha & H); [done..|].
  exists l, x, r. unfold VSPLAY. by rewrite splay_loop_is_loop, Hl.
Qed.
Lemma minmax_amortized t comp : t ≠ Null → comp ≠ 0%Z →
  ∃ l x r, VSPLAY_MINMAX t comp = Ret (Node l x r) ∧ nodes (Node l x r) = nodes t ∧
    minmax_cost t comp + 2 * (potential l + potential r) ≤ 2 * potential t + 4 * rank t + 2.
Proof.
  intros Ht Hcomp.
  destruct (loop_amortized (λ _, if (comp <? 0)%Z then Lt else Gt) (minmax_body comp) t)
    as (c & l & x & r & Hl & Ha & H); [|done|].
  { intros c Hc. unfold minmax_body, dir_body. destruct (root c) eqn:Hr; [done|].
    destruct (Z.ltb_spec comp 0); [done|]. by rewrite (proj2 (Z.ltb_lt 0 comp)) by lia. }
  exists l, x, r. unfold VSPLAY_MINMAX. by rewrite minmax_loop_is_loop, Hl.
Qed.

(** The bound of one operation. *)
Definition op_bound (n : nat) : nat := 12 * Nat.log2 (S n) + 4.
Definition grows op : nat := match op with Splay_insert _ => 1 | _ => 0 end.

Lemma rank_le t n : nodes t ≤ n → rank t ≤ Nat.log2 n.
Proof. apply Nat.log2_le_mono. Qed.
Lemma op_amortized t op o t' : splay_step cmp t op = Ret (o, t') →
  splays_cost cmp t op + 2 * potential t' ≤ 2 * potential t + op_bound (nodes t) ∧
  nodes t' ≤ nodes t + grows op.
Proof.
  unfold splays_cost, op_bound. destruct (VSPLAY_EMPTY t) eqn:He.
  { destruct t; [|done]. intros Hstep.
    destruct op; cbn in Hstep; simplify_eq; cbn; (split; lia). }
  assert (t ≠ Null) as Ht by by destruct t.
  pose proof (rank_le t (S (nodes t)) ltac:(lia)) as Hrank.
  assert (∀ l x r, nodes (Node l x r) = nodes t → rank (Node l x r) = rank t) as Hsame.
  { intros l x r Hs. unfold rank. by rewrite Hs. }
  destruct op as [k|e|e|k| |]; cbn [splay_step grows]; intros Hstep;
    unfold VSPLAY_FIND, VSPLAY_INSERT, VSPLAY_REMOVE, VSPLAY_NEXT, VSPLAY_MIN, VSPLAY_MAX, VSPLAY_MIN_MAX in Hstep;
    rewrite ?He in Hstep; cbn [Nat.add] in *.
  - destruct (splay_amortized t k Ht) as (l & x & r & Hv & Hs & Hn). rewrite Hv in Hstep.
    specialize (Hsame l x r Hs). assert (t' = Node l x r) as -> by (cbn in Hstep; destruct (cmp k x.1); by simplify_eq).
    cbn [potential]. lia.
  - destruct (splay_amortized t e.1 Ht) as (l & x & r & Hv & Hs & Hn). rewrite Hv in Hstep.
    specialize (Hsame l x r Hs). cbn [mbind outcome_bind] in Hstep. cbn [nodes] in Hs.
    destruct (cmp e.1 x.1); simplify_eq; cbn [potential].
    + cbn [nodes]. lia.
    + pose proof (rank_le (Node l e (Node Null x r)) (S (nodes t)) ltac:(cbn [nodes]; lia)).
      pose proof (rank_le (Node Null x r) (S (nodes t)) ltac:(cbn [nodes]; lia)). cbn [nodes]. lia.
    + pose proof (rank_le (Node (Node l x Null) e r) (S (nodes t)) ltac:(cbn [nodes]; lia)).
      pose proof (rank_le (Node l x Null) (S (nodes t)) ltac:(cbn [nodes]; lia)). cbn [nodes]. lia.
  - destruct (splay_amortized t e.1 Ht) as (l & x & r & Hv & Hs & Hn). rewrite Hv in Hstep |- *.
    specialize (Hsame l x r Hs). cbn [mbind outcome_bind] in Hstep. cbn [nodes] in Hs.
    destruct (cmp e.1 x.1);
      [|rewrite bool_decide_eq_false_2 by done; simplify_eq; cbn [andb potential nodes] in *; lia..].
    destruct (VSPLAY_EMPTY l) eqn:Hl.
    { simplify_eq. rewrite andb_false_r. lia. }
    destruct (splay_amortized l e.1) as (l1 & y & r1 & Hv1 & Hs1 & Hn1); [by destruct l|].
    rewrite Hv1 in Hstep. cbn in Hstep. simplify_eq. cbn [nodes] in Hs1.
    pose proof (rank_le l (S (nodes t)) ltac:(lia)).
    pose proof (rank_le (Node l1 y r) (S (nodes t)) ltac:(cbn [nodes]; lia)).
    rewrite bool_decide_eq_true_2 by done. cbn [andb negb potential nodes]. lia.
  - destruct (splay_amortized t k Ht) as (l & x & r & Hv & Hs & Hn). rewrite Hv in Hstep.
    specialize (Hsame l x r Hs). cbn [mbind outcome_bind] in Hstep.
    destruct (cmp k x.1); simplify_eq. cbn [potential]. lia.
  - destruct (minmax_amortized t (-1) Ht) as (l & x & r & Hv & Hs & Hn); [done|]. rewrite Hv in Hstep.
    cbn [mbind outcome_bind] in Hstep. simplify_eq. specialize (Hsame l x r Hs). cbn [potential]. lia.
  - destruct (minmax_amortized t 1 Ht) as (l & x & r & Hv & Hs & Hn); [done|]. rewrite Hv in Hstep.
    cbn [mbind outcome_bind] in Hstep. simplify_eq. specialize (Hsame l x r Hs). cbn [potential]. lia.
Qed.

Definition is_next op : nat := match op with Splay_next _ => 1 | _ => 0 end.
Lemma inserts_cons op ops : inserts (op :: ops) = grows op + inserts ops.
Proof. by destruct op. Qed.
Lemma nexts_cons op ops : nexts (op :: ops) = is_next op + nexts ops.
Proof. by destruct op. Qed.
Lemma spine_nodes t : spine t ≤ nodes t.
Proof. induction t as [|l IHl x r _]; simpl; lia. Qed.
(** The walk of a successor query passes fewer elements than the tree has. *)
Lemma walk_cost_le t op : walk_cost cmp t op ≤ is_next op * nodes t.
Proof.
  destruct op as [k|e|e|k| |]; simpl; try lia. destruct t as [|l0 x0 r0]; [cbn; lia|].
  destruct (splay_amortized (Node l0 x0 r0) k) as (l & x & r & -> & Hs & _); [done|].
  pose proof (spine_nodes r). cbn [nodes] in *. lia.
Qed.
Lemma run_amortized ops t n :
  StronglySorted (key_lt cmp) (elems t) → ops_allowed cmp (elems t) ops → nodes t + inserts ops ≤ n →
  ∃ m w, run_cost cmp t ops = Ret m ∧ run_walks cmp t ops = Ret w ∧
    m ≤ 2 * potential t + length ops * op_bound n + w ∧ w ≤ nexts ops * n.
Proof.
  revert t. induction ops as [|op ops IH]; intros t Hs Hops Hn.
  { exists 0, 0. split; [done|]. split; [done|]. lia. }
  destruct Hops as [Hop Hops]. destruct (splay_step_spec t op Hs Hop) as (t' & Hstep & He).
  destruct (op_amortized _ _ _ _ Hstep) as [Hcost Hnodes]. rewrite inserts_cons in Hn.
  rewrite <-He in Hops. destruct (IH t') as (m & w & Hm & Hw & Hle & Hwle); [|done|lia|].
  { rewrite He. by apply dict_step_sorted. }
  exists (op_cost cmp t op + m), (walk_cost cmp t op + w).
  unfold run_cost, run_walks in *. cbn [run_sum]. rewrite Hstep. cbn [mbind outcome_bind]. rewrite Hm, Hw.
  split; [done|]. split; [done|]. assert (op_bound (nodes t) ≤ op_bound n) as Hb.
  { unfold op_bound. pose proof (Nat.log2_le_mono (S (nodes t)) (S n) ltac:(lia)). lia. }
  pose proof (walk_cost_le t op). assert (is_next op * nodes t ≤ is_next op * n) by (apply Nat.mul_le_mono_l; lia).
  rewrite nexts_cons. unfold op_cost. cbn [length]. lia.
Qed.

(** C10: the cost of the splay trees.  In any sequence of [m] finds,
    insertions, removals, successor, minimum and maximum queries on an empty
    tree, [n] of them insertions, the loops run at most
    [m * (12 * log2 (n + 1) + 4)] times, not counting the walk to the leftmost
    element that VSPLAY_NEXT makes after its splay, and at most [n] times more
    for each VSPLAY_NEXT.  So a sequence without VSPLAY_NEXT has the amortized
    cost O(lg n) that the comment of vtree.h claims for every operation,
    although one of them may go through the whole tree; with VSPLAY_NEXT it
    may not have it (see [repeated_next_linear]). *)
Theorem splay_amortized_cost (ops : list (splay_op K)) :
  ops_allowed cmp [] ops →
  ∃ m w, run_cost cmp Null ops = Ret m ∧ run_walks cmp Null ops = Ret w ∧
    m ≤ length ops * (12 * Nat.log2 (S (inserts ops)) + 4) + w ∧
    w ≤ nexts ops * inserts ops.
Proof.
  intros Hops.
  destruct (run_amortized ops Null (inserts ops)) as (m & w & Hm & Hw & Hle & Hwle); [constructor|done|simpl; lia|].
  exists m, w. split; [done|]. split; [done|]. cbn [potential] in Hle. unfold op_bound in Hle. lia.
Qed.
End bound.

(** ** The walk of VSPLAY_NEXT is not amortized

    Elements inserted in ascending order make a tree whose root is the last
    one, and a VSPLAY_MIN then leaves the first at the root with a left spine
    of half the elements in its right subtree.  VSPLAY_NEXT of the root does
    not change the tree, and goes down this spine each time it is called. *)
Section linear.
Abbreviation splay_tree := (splay_tree uintptr).
Implicit Types (xs : list (uintptr * loc)) (n k : nat).

Definition ascending (i n : nat) : list (splay_op uintptr) :=
  (λ j, Splay_insert (N.of_nat j, 1%positive)) <$> seq i n.
Definition next_again n k : list (splay_op uintptr) :=
  ascending 1 n ++ Splay_min :: replicate k (Splay_next 1%N).
Fixpoint left_spine xs : splay_tree :=
  match xs with [] => Null | x :: xs => Node (left_spine xs) x Null end.
(** The elements with the keys [n] down to 1. *)
Fixpoint descending n : list (uintptr * loc) :=
  match n with O => [] | S n' => (N.of_nat n, 1%positive) :: descending n' end.

Definition costs t ops (b : nat) : Prop := ∃ m, run_cost ptrcmp t ops = Ret m ∧ b ≤ m.
Lemma costs_step t op o t' ops b :
  splay_step ptrcmp t op = Ret (o, t') → costs t' ops b → costs t (op :: ops) (op_cost ptrcmp t op + b).
Proof.
  intros Hs (m & Hm & Hle). exists (op_cost ptrcmp t op + m). unfold run_cost in *. cbn [run_sum].
  rewrite Hs. cbn [mbind outcome_bind]. rewrite Hm. split; [done|lia].
Qed.
Lemma costs_less t ops b b' : costs t ops b → b' ≤ b → costs t ops b'.
Proof. intros (m & Hm & Hle) Hb. exists m. split; [done|lia]. Qed.

Lemma insert_ascending i :
  splay_step ptrcmp (left_spine (descending i)) (Splay_insert (N.of_nat (S i), 1%positive)) =
    Ret (None, left_spine (descending (S i))).
Proof.
  destruct i as [|i]; [done|].
  assert (ptrcmp (N.of_nat (S (S i))) (N.of_nat (S i)) = Gt) as Hgt.
  { unfold ptrcmp. apply N.compare_gt_iff. lia. }
  cbn [splay_step]. unfold VSPLAY_INSERT, VSPLAY. cbn [descending left_spine VSPLAY_EMPTY splay_loop root fst].
  rewrite Hgt. cbn. by rewrite Hgt.
Qed.
Lemma costs_ascending n i ops b :
  costs (left_spine (descending (i + n))) ops b →
  costs (left_spine (descending i)) (ascending (S i) n ++ ops) b.
Proof.
  revert i. induction n as [|n IH]; intros i Hc; [by rewrite Nat.add_0_r in Hc|].
  unfold ascending. rewrite <-cons_seq. cbn [fmap list_fmap app].
  eapply costs_less; [eapply costs_step; [apply insert_ascending|]|].
  - apply IH. by rewrite Nat.add_succ_comm.
  - lia.
Qed.

(** The walk to the minimum rotates every other element to the right. *)
Lemma walk_left_spine xs : xs ≠ [] →
  ∃ m x r, walk (λ _, Lt) (left_spine xs) = (m, Node Null x r) ∧ last xs = Some x ∧
    length xs ≤ 2 * spine r + 1.
Proof.
  remember (length xs) as n eqn:Hn. revert xs Hn. induction (lt_wf n) as [n _ IH]. intros xs -> Hne.
  destruct xs as [|x [|y [|z xs]]]; [done| | |].
  - by eexists _, _, _.
  - eexists _, _, _. split; [done|]. split; [done|]. simpl. lia.
  - destruct (IH (length (z :: xs)) ltac:(simpl; lia) (z :: xs)) as (m & w & r & Hw & Hl & Hle); [done|done|].
    change (left_spine (x :: y :: z :: xs)) with (Node (Node (left_spine (z :: xs)) y Null) x Null).
    rewrite walk_eq. cbn [VSPLAY_EMPTY left_spine] in Hw |- *. rewrite Hw. cbn [hang_greater].
    eexists _, _, _. split; [done|]. split; [by rewrite <-Hl|]. cbn [length spine] in *. lia.
Qed.
Lemma last_descending n : last (descending (S n)) = Some (1%N, 1%positive).
Proof. induction n as [|n IH]; [done|]. exact IH. Qed.
Lemma min_left_spine n : ∃ r,
  splay_step ptrcmp (left_spine (descending (S n))) Splay_min =
    Ret (Some (1%N, 1%positive), Node Null (1%N, 1%positive) r) ∧ n ≤ 2 * spine r.
Proof.
  destruct (walk_left_spine (descending (S n))) as (m & x & r & Hw & Hl & Hle); [done|].
  rewrite last_descending in Hl. injection Hl as <-.
  assert (length (descending (S n)) = S n) as Hlen.
  { generalize (S n). intros k. induction k as [|k IH]; [done|]. simpl. by rewrite IH. }
  set (t := left_spine (descending (S n))) in *. assert (t ≠ Null) as Ht by done.
  destruct (loop_walk (λ _, Lt) (minmax_body (-1)) t) as (Hd & l' & z & r' & Heq & Hloop); [|done|].
  { intros c Hc. unfold minmax_body, dir_body. by destruct (root c). }
  rewrite Hw in Hd, Heq, Hloop. injection Heq as <- <- <-.
  destruct (Hloop [] [] (S (depth t))) as (_ & c & Hc & Ha); [simpl in *; lia|].
  exists r. split; [|lia]. cbn [splay_step]. unfold VSPLAY_MIN, VSPLAY_MIN_MAX, VSPLAY_MINMAX.
  rewrite minmax_loop_is_loop. change (VSPLAY_EMPTY t) with false. rewrite Hc.
  cbn [mbind outcome_bind]. rewrite Ha. done.
Qed.

Lemma costs_next x r k : costs (Node Null x r) (replicate k (Splay_next x.1)) (k * spine r).
Proof.
  assert (ptrcmp x.1 x.1 = Eq) as Hx by apply N.compare_refl.
  assert (VSPLAY ptrcmp (Node Null x r) x.1 = Ret (Node Null x r)) as Hv.
  { unfold VSPLAY. cbn [splay_loop root]. by rewrite Hx. }
  induction k as [|k IH]; cbn [replicate]; [by exists 0|].
  eapply costs_less; [eapply (costs_step _ _ (leftmost r)); [|exact IH]|].
  - cbn [splay_step]. unfold VSPLAY_NEXT. rewrite Hv. cbn [mbind outcome_bind]. by rewrite Hx.
  - unfold op_cost, walk_cost. rewrite Hv. lia.
Qed.

(** With VSPLAY_NEXT the amortized cost is not O(lg n), whatever the comment
    of vtree.h says of every operation: after [n] insertions in ascending
    order and a VSPLAY_MIN, each VSPLAY_NEXT of the minimum goes down half of
    the elements again. *)
Theorem repeated_next_linear n k :
  ∃ m, run_cost ptrcmp Null (next_again (S n) k) = Ret m ∧ k * n ≤ 2 * m.
Proof.
  destruct (min_left_spine n) as (r & Hmin & Hr).
  destruct (costs_ascending (S n) 0 (Splay_min :: replicate k (Splay_next 1%N)) (k * spine r))
    as (m & Hm & Hle).
  - eapply costs_less; [eapply costs_step; [exact Hmin|apply (costs_next (1%N, 1%positive))]|]. lia.
  - exists m. split; [exact Hm|]. nia.
Qed.
End linear.

(** ** A concrete run *)
Import Splay.Examples.
Lemma splay_amortized_cost_witness :
  ∃ m w, run_cost ptrcmp Null ops = Ret m ∧ run_walks ptrcmp Null ops = Ret w ∧
    m ≤ length ops * (12 * Nat.log2 (S (inserts ops)) + 4) + w ∧ w ≤ nexts ops * inserts ops.
Proof.
  apply (splay_amortized_cost (cmp:=ptrcmp) ops). cbv [ops ops_allowed op_allowed]. by split_and!.
Defined.
