(* ===== verification/SoftPurge.v ===== *)
(** * vmod_softpurge: purging the objects of one hash

    Models vmod_softpurge.c.  The objects with the hash of the request hang
    on an objhead; they are objcores of Varnish, reduced to the fields the
    code reads and writes and known by their addresses.  EXP_Rearm and
    HSH_DerefObjCore belong to Varnish and are parameters on the objcores; the
    calls and their arguments are kept in [trace].  The first loop runs with the objhead locked, the
    second does not: before each of its rounds the other threads ([others])
    may change every objcore they like.  The space WS_Reserve hands out is an
    array of pointers of 8 bytes, and a write behind its end is [Undef].  The
    two layouts of struct objcore the code is written for differ in field names
    only. *)
From S2P Require Import Prelude CStr Workspace Double TreeSpec.

Inductive vcl_method := VCL_MET_HIT | VCL_MET_MISS | VCL_MET_OTHER.

Record objcore := Objcore {
  oc_busy : bool;      (* OC_F_BUSY *)
  oc_dying : bool;     (* OC_EF_DYING, or OC_F_DYING *)
  refcnt : Z;
  oc_objhead : loc;
  grace : double;
  keep : double;
}.
Record objhead := Objhead { oh_refcnt : Z; objcs : list loc }.
Record vrt_ctx := VrtCtx { method : vcl_method; req_objhead : loc; t_prev : double }.

Inductive event :=
| EXP_Rearm_call (o : loc) (now ttl grace keep : double)
| HSH_DerefObjCore_call (o : loc).

Abbreviation store := (gmap loc objcore).
Record purge_state := PurgeState {
  objheads : gmap loc objhead;
  cores : store;
  trace : list event;
}.

Definition sizeof_ptr : Z := 8.
Definition INT_MAX : Z := 2 ^ 31 - 1.

Section operations.
Context {W : Type}.
(** WS_Reserve(ws, 0), with the number of bytes reserved, and WS_Release(ws, 0). *)
Context (WS_Reserve : W → Z * W) (WS_Release : W → W).
Context (EXP_Rearm : loc → double → double → double → double → store → store).
Context (HSH_DerefObjCore : loc → store → store).
(** What the other threads do; the addresses are those still to be visited. *)
Context (others : list loc → store → store).
Abbreviation pm := (M (task purge_state W)).

Definition get_core (o : loc) : pm objcore :=
  s ← getS; derefM (cores (priv s) !! o) "struct objcore".
Definition change_cores (f : store → store) : pm unit :=
  s ← getS; set_priv (PurgeState (objheads (priv s)) (f (cores (priv s))) (trace (priv s))).
Definition call (e : event) (f : store → store) : pm unit :=
  s ← getS; set_priv (PurgeState (objheads (priv s)) (f (cores (priv s))) (trace (priv s) ++ [e])).

(** oc->refcnt++, an int. *)
Definition ref_core (o : loc) : pm unit :=
  c ← get_core o;
  (if (refcnt c <? INT_MAX)%Z then mret tt else undef "signed overflow");;;
  change_cores <[o := Objcore (oc_busy c) (oc_dying c) (refcnt c + 1) (oc_objhead c) (grace c) (keep c)]>.

(** The first loop; [ocp] are the nobj pointers written so far. *)
Fixpoint collect (oh : loc) (reserved : Z) (l : list loc) (spc : Z) (ocp : list loc) : pm (list loc) :=
  match l with
  | [] => mret ocp
  | o :: l =>
      c ← get_core o;
      assertM (bool_decide (oc_objhead c = oh)) "oc->objhead == oh";;;
      if oc_busy c then collect oh reserved l spc ocp
      else if oc_dying c then collect oh reserved l spc ocp
      else if (spc <? sizeof_ptr)%Z then mret ocp
      else
        ref_core o;;;
        (if (sizeof_ptr * (Z.of_nat (length ocp) + 1) <=? reserved)%Z then mret tt
         else undef "write behind the reserved workspace");;;
        collect oh reserved l (spc - sizeof_ptr) (ocp ++ [o])
  end.

(** The second loop, over the [ocp] from [n] on. *)
Fixpoint rearm_loop (now : double) (ocp : list loc) : pm unit :=
  match ocp with
  | [] => mret tt
  | o :: ocp =>
      change_cores (others (o :: ocp));;;
      c ← get_core o;
      call (EXP_Rearm_call o now dzero (grace c) (keep c))
           (EXP_Rearm o now dzero (grace c) (keep c));;;
      call (HSH_DerefObjCore_call o) (HSH_DerefObjCore o);;;
      rearm_loop now ocp
  end.

Definition vmod_softpurge (ctx : vrt_ctx) : pm unit :=
  if negb (match method ctx with VCL_MET_HIT | VCL_MET_MISS => true | _ => false end) then
    VSLb SLT_VCL_Error (str "softpurge() is only available in vcl_hit{} and vcl_miss{}")
  else
    s ← getS;
    oh ← derefM (objheads (priv s) !! req_objhead ctx) "struct objhead";
    let '(spc, w) := WS_Reserve (ws s) in
    modifyS (λ s, Task (priv s) w (vsl s));;;
    assertM (sizeof_ptr <=? spc)%Z "spc >= sizeof *ocp";;;
    assertM (0 <? oh_refcnt oh)%Z "oh->refcnt > 0";;;
    ocp ← collect (req_objhead ctx) spc (objcs oh) spc [];
    rearm_loop (t_prev ctx) ocp;;;
    modifyS (λ s, Task (priv s) (WS_Release (ws s)) (vsl s)).
End operations.

(** ** What a soft purge of an objhead has to do *)
Section properties.
Context {W : Type} (WS_Reserve : W → Z * W) (WS_Release : W → W).
Context (EXP_Rearm : loc → double → double → double → double → store → store).
Context (HSH_DerefObjCore : loc → store → store).
Context (others : list loc → store → store).
Implicit Types (m : store) (o : loc) (l : list loc).

Definition eligible m o : Prop :=
  match m !! o with Some c => oc_busy c = false ∧ oc_dying c = false | None => False end.
#[local] Instance eligible_dec m o : Decision (eligible m o).
Proof. unfold eligible. destruct (m !! o); apply _. Defined.
(** The objects a call purges: those the reserved space has room for. *)
Definition targets m l (spc : Z) : list loc :=
  take (Z.to_nat (spc `div` sizeof_ptr)) (filter (eligible m) l).

(** A referenced objcore, which nobody may free. *)
Definition held m o : Prop := ∃ c, m !! o = Some c ∧ (0 < refcnt c)%Z.
(** The objcores of an objhead's list. *)
Definition listed m oh l : Prop :=
  NoDup l ∧ ∀ o, o ∈ l →
    ∃ c, m !! o = Some c ∧ oc_objhead c = oh ∧ (0 < refcnt c < INT_MAX)%Z.
Definition with_refs (n : Z) (c : objcore) : objcore :=
  Objcore (oc_busy c) (oc_dying c) (refcnt c + n) (oc_objhead c) (grace c) (keep c).
(** One more reference for each of [l]. *)
Definition referenced m l : store := foldl (λ m o, alter (with_refs 1) o m) m l.

(** What the calls for the objects [l] must be, and the store they leave: each
    object is re-armed at [now] with no TTL and the grace and keep of its own
    objcore at that moment, after whatever the other threads did, and then
    dereferenced. *)
Inductive purge_calls (now : double) : list loc → store → list event → store → Prop :=
| calls_none m : purge_calls now [] m [] m
| calls_one o l m c es m' :
    others (o :: l) m !! o = Some c →
    purge_calls now l
      (HSH_DerefObjCore o (EXP_Rearm o now dzero (grace c) (keep c) (others (o :: l) m)))
      es m' →
    purge_calls now (o :: l) m
      (EXP_Rearm_call o now dzero (grace c) (keep c) :: HSH_DerefObjCore_call o :: es) m'.

(** The same calls with the grace and keep the object has in [m]. *)
Definition timers m o : option (double * double) := (λ c, (grace c, keep c)) <$> m !! o.
Definition own_calls (now : double) m o : list event :=
  match timers m o with
  | Some (g, k) => [EXP_Rearm_call o now dzero g k; HSH_DerefObjCore_call o]
  | None => []
  end.
(** Nobody else touches the grace and keep of an object: not the other
    threads, and not the re-arming of a different object. *)
Definition timers_left_alone : Prop :=
  (∀ l m o, timers (others l m) o = timers m o) ∧
  (∀ o now t g k m o', o' ≠ o → timers (EXP_Rearm o now t g k m) o' = timers m o').

Class RuntimeLaws : Prop := {
  others_held l m : (∀ o, o ∈ l → held m o) → ∀ o, o ∈ l → held (others l m) o;
  rearm_held o now t g k m o' : held m o' → held (EXP_Rearm o now t g k m) o';
  deref_other o m o' : o' ≠ o → HSH_DerefObjCore o m !! o' = m !! o';
}.

Lemma wp_get_core o Q (s : task purge_state W) c :
  cores (priv s) !! o = Some c → Q c s → wp (get_core o) Q s.
Proof. intros Hc HQ. unfold get_core. wp_go; [exact Hc|done]. Qed.

Lemma referenced_lookup m l o : NoDup l →
  referenced m l !! o = if decide (o ∈ l) then with_refs 1 <$> m !! o else m !! o.
Proof.
  unfold referenced. revert m. induction l as [|x l IH]; intros m Hl; [done|]. simpl.
  apply NoDup_cons in Hl as [Hx Hl]. rewrite IH by done.
  destruct (decide (x = o)) as [->|Hne].
  - rewrite decide_False, decide_True by (done || left). apply lookup_alter_eq.
  - rewrite lookup_alter_ne by done. repeat case_decide; set_solver.
Qed.

(** The first loop with [todo] still to visit and room for [spc] bytes. *)
Lemma wp_collect oh reserved todo spc ocp (Q : list loc → task purge_state W → Prop) s :
  listed (cores (priv s)) oh todo →
  (0 ≤ spc)%Z → (sizeof_ptr * Z.of_nat (length ocp) + spc ≤ reserved)%Z →
  (let l := targets (cores (priv s)) todo spc in
   Q (ocp ++ l) (Task (PurgeState (objheads (priv s)) (referenced (cores (priv s)) l) (trace (priv s)))
                      (ws s) (vsl s))) →
  wp (collect oh reserved todo spc ocp) Q s.
Proof.
  revert spc ocp s. induction todo as [|o todo IH]; intros spc ocp s [Hnd Hin] Hspc Hres HQ; cbn [collect].
  { apply wp_ret. unfold targets in HQ. rewrite filter_nil, take_nil, app_nil_r in HQ.
    by destruct s as [[] ? ?]. }
  apply NoDup_cons in Hnd as [Ho Hnd].
  destruct (Hin o ltac:(left)) as (c & Hc & Hoh & Href).
  assert (listed (cores (priv s)) oh todo) as Hl by (split; [done|]; intros; apply Hin; by right).
  apply wp_bind. eapply wp_get_core; [exact Hc|].
  apply wp_bind, wp_assertM. split; [by apply bool_decide_eq_true|].
  unfold targets in HQ. rewrite filter_cons in HQ.
  destruct (oc_busy c) eqn:Hb; [|destruct (oc_dying c) eqn:Hd].
  1, 2: rewrite decide_False in HQ by (unfold eligible; rewrite Hc; intros [? ?]; congruence); by apply IH.
  rewrite decide_True in HQ by (unfold eligible; by rewrite Hc).
  destruct (Z.ltb_spec spc sizeof_ptr) as [Hlt|Hge].
  { unfold sizeof_ptr in Hlt, HQ. rewrite Z.div_small, app_nil_r in HQ by lia. simpl in HQ.
    apply wp_ret. by destruct s as [[] ? ?]. }
  unfold ref_core. apply wp_bind, wp_bind, (wp_get_core o _ _ c Hc).
  rewrite (proj2 (Z.ltb_lt (refcnt c) INT_MAX)) by lia. unfold change_cores. wp_go.
  cbn [priv ws vsl cores objheads trace].
  rewrite (proj2 (Z.leb_le _ _)) by (unfold sizeof_ptr in *; lia). wp_go.
  assert (Z.to_nat (spc `div` sizeof_ptr) = S (Z.to_nat ((spc - sizeof_ptr) `div` sizeof_ptr))) as Hdiv.
  { unfold sizeof_ptr in *. replace spc with ((spc - 8) + 1 * 8)%Z at 1 by lia.
    rewrite Z.div_add by lia. pose proof (Z.div_pos (spc - 8) 8). lia. }
  set (m := cores (priv s)) in *.
  assert (<[o := Objcore (oc_busy c) (oc_dying c) (refcnt c + 1) (oc_objhead c) (grace c) (keep c)]> m
          = alter (with_refs 1) o m) as Hm.
  { apply map_eq. intros i. destruct (decide (i = o)) as [->|].
    - by rewrite lookup_insert_eq, lookup_alter_eq, Hc.
    - by rewrite lookup_insert_ne, lookup_alter_ne. }
  rewrite Hm. apply IH; cbn [priv cores objheads trace ws vsl].
  - split; [done|]. intros o' Ho'. destruct (Hin o') as (c' & ? & ? & ?); [by right|].
    exists c'. rewrite lookup_alter_ne by set_solver. done.
  - lia.
  - rewrite length_app. simpl. unfold sizeof_ptr in *. lia.
  - rewrite Hdiv in HQ. cbn [take] in HQ. unfold targets.
    replace (filter (eligible (alter (with_refs 1) o m)) todo) with (filter (eligible m) todo).
    { rewrite <-(assoc_L (++)). exact HQ. }
    apply filter_ext_in. intros o' Ho'. unfold eligible. rewrite lookup_alter_ne; [done|set_solver].
Qed.

(** The second loop visits every pointer, whatever the others do. *)
Lemma wp_rearm_loop `{!RuntimeLaws} now l Q (s : task purge_state W) :
  NoDup l → (∀ o, o ∈ l → held (cores (priv s)) o) →
  (∀ m es, purge_calls now l (cores (priv s)) es m →
     Q tt (Task (PurgeState (objheads (priv s)) m (trace (priv s) ++ es)) (ws s) (vsl s))) →
  wp (rearm_loop EXP_Rearm HSH_DerefObjCore others now l) Q s.
Proof.
  revert s. induction l as [|o l IH]; intros s Hnd Hheld HQ; cbn [rearm_loop].
  { apply wp_ret. specialize (HQ (cores (priv s)) [] (calls_none _ _)).
    rewrite app_nil_r in HQ. by destruct s as [[] ? ?]. }
  apply NoDup_cons in Hnd as [Ho Hnd].
  assert (∀ o', o' ∈ o :: l → held (others (o :: l) (cores (priv s))) o') as Hh by by apply others_held.
  destruct (Hh o ltac:(left)) as (c & Hc & Href).
  unfold change_cores, call. apply wp_bind, wp_bind, wp_getS, wp_set_priv. cbn [priv ws vsl].
  apply wp_bind. eapply wp_get_core; [exact Hc|]. wp_go.
  cbn [priv ws vsl cores objheads trace]. apply IH; cbn [priv ws vsl cores objheads trace]; [done| |].
  - intros o' Ho'. destruct (rearm_held o now dzero (grace c) (keep c) _ o' (Hh o' ltac:(by right)))
      as (c' & Hc' & Href'). exists c'. rewrite deref_other; [done|]. by intros ->.
  - intros m es Hes. rewrite <-!(assoc_L (++)). apply HQ. by apply calls_one.
Qed.

Lemma purge_calls_own `{!RuntimeLaws} now l m es m' :
  timers_left_alone → NoDup l → purge_calls now l m es m' →
  es = concat (own_calls now m <$> l).
Proof.
  intros [Hothers Hrearm] Hnd Hc. induction Hc as [m|o l m c es m' Ho Hc IH]; [done|].
  apply NoDup_cons in Hnd as [Hin Hnd]. rewrite IH by done. rewrite fmap_cons. cbn [concat].
  assert (timers m o = Some (grace c, keep c)) as Ht.
  { rewrite <-(Hothers (o :: l)). unfold timers. by rewrite Ho. }
  unfold own_calls at 2. rewrite Ht. cbn [app]. do 3 f_equal.
  apply list_fmap_ext. intros i o' Ho'. unfold own_calls, timers at 1.
  rewrite deref_other by (intros ->; by apply Hin, list_elem_of_lookup; exists i).
  change (_ <$> _) with
    (timers (EXP_Rearm o now dzero (grace c) (keep c) (others (o :: l) m)) o').
  rewrite Hrearm, Hothers; [done|]. intros ->. by apply Hin, list_elem_of_lookup; exists i.
Qed.

Lemma targets_sub m l spc : targets m l spc ⊆ l.
Proof.
  intros o Ho. unfold targets in Ho. apply (subseteq_take _ _) in Ho.
  by apply list_elem_of_filter in Ho as [_ ?].
Qed.
Lemma targets_NoDup m l spc : NoDup l → NoDup (targets m l spc).
Proof. intros Hl. unfold targets. eapply sublist_NoDup; [|by apply sublist_take]. by apply NoDup_filter. Qed.

(** The call up to the second loop. *)
Lemma wp_softpurge ctx oh (Q : unit → task purge_state W → Prop) s :
  method ctx = VCL_MET_HIT ∨ method ctx = VCL_MET_MISS →
  objheads (priv s) !! req_objhead ctx = Some oh → (0 < oh_refcnt oh)%Z →
  listed (cores (priv s)) (req_objhead ctx) (objcs oh) →
  (sizeof_ptr ≤ (WS_Reserve (ws s)).1)%Z →
  (∀ l s', cores (priv s') = referenced (cores (priv s)) l →
     s' = Task (PurgeState (objheads (priv s)) (cores (priv s')) (trace (priv s)))
            (WS_Reserve (ws s)).2 (vsl s) ∧ l = targets (cores (priv s)) (objcs oh) (WS_Reserve (ws s)).1 →
     NoDup l →
     (∀ o, o ∈ l → ∃ c, cores (priv s) !! o = Some c ∧ oc_objhead c = req_objhead ctx ∧ (0 < refcnt c)%Z) →
     wp (rearm_loop EXP_Rearm HSH_DerefObjCore others (t_prev ctx) l;;;
         modifyS (λ s, Task (priv s) (WS_Release (ws s)) (vsl s))) Q s') →
  wp (vmod_softpurge WS_Reserve WS_Release EXP_Rearm HSH_DerefObjCore others ctx) Q s.
Proof.
  intros Hm Hoh Href Hl Hspc HQ. destruct (WS_Reserve (ws s)) as [spc w] eqn:Hws. simpl in Hspc, HQ.
  unfold vmod_softpurge. replace (negb _) with false by by destruct Hm as [-> | ->].
  apply wp_bind, wp_getS, wp_bind, wp_derefM. exists oh. split; [done|]. rewrite Hws.
  apply wp_bind, wp_modifyS. apply wp_bind, wp_assertM. split; [by apply Z.leb_le|].
  apply wp_bind, wp_assertM. split; [by apply Z.ltb_lt|].
  apply wp_bind, wp_collect; cbn [priv ws vsl]; [done|unfold sizeof_ptr in *; simpl; lia..|].
  cbn [app]. destruct Hl as [Hnd Hl]. apply HQ; [done|done|by apply targets_NoDup|].
  intros o Ho. destruct (Hl o) as (c & Hc & Ho' & Hc' & _); [by eapply targets_sub|]. by exists c.
Qed.

(** Too little workspace for one pointer stops the worker. *)
Lemma softpurge_no_space ctx oh (s : task purge_state W) :
  method ctx = VCL_MET_HIT ∨ method ctx = VCL_MET_MISS →
  objheads (priv s) !! req_objhead ctx = Some oh →
  ((WS_Reserve (ws s)).1 < sizeof_ptr)%Z →
  vmod_softpurge WS_Reserve WS_Release EXP_Rearm HSH_DerefObjCore others ctx s
  = Panic "spc >= sizeof *ocp".
Proof.
  intros Hm Hoh Hlt. unfold vmod_softpurge.
  replace (negb _) with false by by destruct Hm as [-> | ->].
  unfold mbind, M_bind, getS, derefM. rewrite Hoh. cbn [mret M_ret].
  destruct (WS_Reserve (ws s)) as [spc w]. simpl in Hlt. unfold modifyS, assertM.
  by rewrite (proj2 (Z.leb_gt _ _) Hlt).
Qed.

(** C25: from vcl_hit or vcl_miss a soft purge returns the workspace and
    re-arms, in the order of the list, each object of the hash that is neither
    busy nor dying, once, at the time of the request, with no TTL and the
    grace and keep that very object has at that moment, and drops the
    reference it took on it; this holds whatever the other threads do to the
    objects between the calls, short of freeing a referenced one.  When nobody
    else touches grace and keep the arguments are those of the objects as they
    were when the call began.  The space left in the workspace bounds the
    number of objects: those beyond it are skipped, without a record in the
    log, and less space than one pointer stops the worker at the assertion
    spc >= sizeof *ocp. *)
Theorem softpurge_exact `{!RuntimeLaws} ctx oh (s : task purge_state W) :
  method ctx = VCL_MET_HIT ∨ method ctx = VCL_MET_MISS →
  objheads (priv s) !! req_objhead ctx = Some oh → (0 < oh_refcnt oh)%Z →
  listed (cores (priv s)) (req_objhead ctx) (objcs oh) →
  let '(spc, w) := WS_Reserve (ws s) in
  let purge := vmod_softpurge WS_Reserve WS_Release EXP_Rearm HSH_DerefObjCore others ctx in
  let l := targets (cores (priv s)) (objcs oh) spc in
  if (spc <? sizeof_ptr)%Z then purge s = Panic "spc >= sizeof *ocp"
  else wp purge (λ _ s',
    ws s' = WS_Release w ∧ vsl s' = vsl s ∧ objheads (priv s') = objheads (priv s) ∧
    ∃ es, trace (priv s') = trace (priv s) ++ es ∧
      purge_calls (t_prev ctx) l (referenced (cores (priv s)) l) es (cores (priv s')) ∧
      (timers_left_alone → es = concat (own_calls (t_prev ctx) (cores (priv s)) <$> l))) s.
Proof.
  intros Hm Hoh Href Hl. destruct (WS_Reserve (ws s)) as [spc w] eqn:Hws. cbv zeta.
  destruct (Z.ltb_spec spc sizeof_ptr) as [Hlt|Hspc].
  { apply (softpurge_no_space ctx oh); [done..|by rewrite Hws]. }
  apply (wp_softpurge ctx oh); [done..|by rewrite Hws|].
  intros l s' Hm' [Hs' Hll] Hnd Hin. apply wp_bind, wp_rearm_loop; [done| |].
  - intros o Ho. unfold held. rewrite Hm', referenced_lookup, decide_True by done.
    destruct (Hin o Ho) as (c & -> & _ & Hc). eexists. split; [done|]. simpl. lia.
  - intros m es Hes. apply wp_modifyS. rewrite Hs' in *. rewrite Hws in *.
    cbn [priv ws vsl objheads trace cores fst snd] in *. rewrite Hm' in Hes. subst l.
    split_and!; [done..|]. exists es. split; [done|split; [done|]].
    intros Hlaws. rewrite (purge_calls_own _ _ _ _ _ Hlaws Hnd Hes). f_equal.
    apply list_fmap_ext. intros i o Ho. unfold own_calls, timers at 1.
    rewrite referenced_lookup by done. case_decide; [|done].
    unfold timers. by destruct (cores (priv s) !! o).
Qed.

(** The number of references to an object; calls that keep it. *)
Definition refs m o : option Z := refcnt <$> m !! o.
Class ReferenceLaws : Prop := {
  others_refs l m o : refs (others l m) o = refs m o;
  rearm_refs o now t g k m o' : refs (EXP_Rearm o now t g k m) o' = refs m o';
  deref_refs_other o m o' : o' ≠ o → refs (HSH_DerefObjCore o m) o' = refs m o';
  deref_refs o m n : refs m o = Some (n + 1)%Z → (0 < n)%Z → refs (HSH_DerefObjCore o m) o = Some n;
}.

Lemma wp_rearm_refs `{!ReferenceLaws} now l Q (s : task purge_state W) :
  NoDup l → (∀ o, o ∈ l → ∃ n, refs (cores (priv s)) o = Some (n + 1)%Z ∧ (0 < n)%Z) →
  (∀ s', (∀ o, refs (cores (priv s')) o =
       if decide (o ∈ l) then (λ n, n - 1)%Z <$> refs (cores (priv s)) o else refs (cores (priv s)) o) →
     Q tt s') →
  wp (rearm_loop EXP_Rearm HSH_DerefObjCore others now l) Q s.
Proof.
  revert s. induction l as [|o l IH]; intros s Hnd Hrefs HQ; cbn [rearm_loop].
  { apply wp_ret, HQ. done. }
  apply NoDup_cons in Hnd as [Ho Hnd]. destruct (Hrefs o ltac:(left)) as (n & Hn & Hpos).
  unfold change_cores, call. apply wp_bind, wp_bind, wp_getS, wp_set_priv. cbn [priv ws vsl].
  set (m := cores (priv s)) in *. set (m1 := others (o :: l) m).
  assert (refs m1 o = Some (n + 1)%Z) as Hn1 by (unfold m1; by rewrite others_refs).
  destruct (fmap_Some_1 _ _ _ Hn1) as (c & Hc & _).
  apply wp_bind. eapply wp_get_core; [exact Hc|]. wp_go. cbn [priv ws vsl cores objheads trace].
  set (m2 := EXP_Rearm _ _ _ _ _ m1).
  assert (∀ o', refs m2 o' = refs m o') as Hm2.
  { intros o'. unfold m2, m1. by rewrite rearm_refs, others_refs. }
  assert (∀ o', o' ≠ o → refs (HSH_DerefObjCore o m2) o' = refs m o') as Hm3.
  { intros o' Hne. by rewrite deref_refs_other. }
  apply IH; cbn [priv cores]; [done| |].
  - intros o' Ho'. rewrite Hm3 by by intros ->. apply Hrefs. by right.
  - intros s' Hs'. apply HQ. intros o'. rewrite Hs'. destruct (decide (o' = o)) as [->|Hne].
    + rewrite decide_False, decide_True by (first [done|left]).
      rewrite (deref_refs o m2 n), Hn; [|by rewrite Hm2|done]. simpl. f_equal. lia.
    + rewrite Hm3 by done. repeat case_decide; set_solver.
Qed.

(** C26: no reference leaks and none is dropped twice: if the other threads
    and EXP_Rearm leave the reference counts alone, every object has as many
    references after the call as before. *)
Theorem softpurge_keeps_references `{!ReferenceLaws} ctx oh (s : task purge_state W) :
  method ctx = VCL_MET_HIT ∨ method ctx = VCL_MET_MISS →
  objheads (priv s) !! req_objhead ctx = Some oh → (0 < oh_refcnt oh)%Z →
  listed (cores (priv s)) (req_objhead ctx) (objcs oh) →
  (sizeof_ptr ≤ (WS_Reserve (ws s)).1)%Z →
  wp (vmod_softpurge WS_Reserve WS_Release EXP_Rearm HSH_DerefObjCore others ctx) (λ _ s',
    ∀ o, refs (cores (priv s')) o = refs (cores (priv s)) o) s.
Proof.
  intros Hm Hoh Href Hl Hspc. apply (wp_softpurge ctx oh); [done..|].
  intros l s' Hs' Hll Hnd Hin. apply wp_bind, wp_rearm_refs; [done| |].
  - intros o Ho. destruct (Hin o Ho) as (c & Hc & _ & Hpos). exists (refcnt c).
    unfold refs. rewrite Hs', referenced_lookup, decide_True, Hc by done. by split.
  - intros s2 Hs2. apply wp_modifyS. cbn [priv]. intros o. rewrite Hs2. unfold refs.
    rewrite Hs', referenced_lookup by done. case_decide as Ho; [|done].
    destruct (Hin o Ho) as (c & -> & _ & _). simpl. f_equal. lia.
Qed.
End properties.

(** ** Concrete runs *)
Module Examples.
Definition reserve (w : Z) : Z * Z := (w, 0%Z).
Definition release (w : Z) : Z := 100%Z.
Definition rearm (o : loc) (now ttl g k : double) (m : store) : store := m.
Definition deref (o : loc) (m : store) : store := alter (with_refs (-1)) o m.
(** Meanwhile every object starts to die. *)
Definition kill_all (l : list loc) (m : store) : store :=
  (λ c, Objcore (oc_busy c) true (refcnt c) (oc_objhead c) (grace c) (keep c)) <$> m.
Definition core (busy : bool) (n : Z) : objcore := Objcore busy false n 9 (d_of_Z 10) (d_of_Z n).
Definition ctx : vrt_ctx := VrtCtx VCL_MET_HIT 9 (d_of_Z 5).
Definition head9 : objhead := Objhead 1 [1; 2; 3; 4]%positive.
(** Four objects, one of them busy, and room for two pointers. *)
Definition s0 : task purge_state Z :=
  Task (PurgeState {[9%positive := head9]}
          (list_to_map [(1%positive, core false 1); (2%positive, core true 1);
                        (3%positive, core false 2); (4%positive, core false 1)]) []) 20%Z [].

#[export] Instance example_runtime : RuntimeLaws rearm deref kill_all.
Proof.
  split.
  - intros l m H o Ho. destruct (H o Ho) as (c & Hc & Hr). unfold kill_all.
    eexists. rewrite lookup_fmap, Hc. by split.
  - done.
  - intros o m o' Hne. unfold deref. by rewrite lookup_alter_ne.
Qed.
#[export] Instance example_references : ReferenceLaws rearm deref kill_all.
Proof.
  split; unfold deref, kill_all, refs.
  - intros l m o. rewrite lookup_fmap. by destruct (m !! o).
  - done.
  - intros o m o' Hne. by rewrite lookup_alter_ne.
  - intros o m n Hn _. rewrite lookup_alter_eq. destruct (m !! o) as [c|]; [|done].
    simpl in *. injection Hn as Hn. f_equal. lia.
Qed.
Lemma s0_listed : listed (cores (priv s0)) (req_objhead ctx) (objcs head9).
Proof.
  split; [apply (bool_decide_unpack _); vm_compute; exact I|]. intros o Ho.
  repeat (apply elem_of_cons in Ho as [->|Ho]; [by eexists; split_and!; [reflexivity|reflexivity|..]|]).
  by apply elem_of_nil in Ho.
Qed.
Lemma example_timers : timers_left_alone rearm kill_all.
Proof.
  split; [|done]. intros l m o. unfold timers, kill_all. rewrite lookup_fmap.
  by destruct (m !! o).
Qed.
End Examples.
Import Examples.

Lemma softpurge_exact_witness :
  wp (vmod_softpurge reserve release rearm deref kill_all ctx) (λ _ s',
    ws s' = 100%Z ∧ vsl s' = [] ∧ objheads (priv s') = objheads (priv s0) ∧
    ∃ es, trace (priv s') = trace (priv s0) ++ es ∧
      purge_calls rearm deref kill_all (d_of_Z 5) [1; 3]%positive
        (referenced (cores (priv s0)) [1; 3]%positive) es (cores (priv s')) ∧
      es = [EXP_Rearm_call 1 (d_of_Z 5) dzero (d_of_Z 10) (d_of_Z 1); HSH_DerefObjCore_call 1;
            EXP_Rearm_call 3 (d_of_Z 5) dzero (d_of_Z 10) (d_of_Z 2); HSH_DerefObjCore_call 3]) s0.
Proof.
  eapply wp_mono.
  - apply (softpurge_exact reserve release rearm deref kill_all ctx head9 s0);
      [by left|done|done|apply s0_listed].
  - intros [] s' (Hws & Hvsl & Hheads & es & Htr & Hcalls & Hown).
    split_and!; [done..|]. exists es. split_and!; [done|done|apply Hown, example_timers].
Defined.

Lemma softpurge_keeps_references_witness :
  wp (vmod_softpurge reserve release rearm deref kill_all ctx) (λ _ s',
    ∀ o, refs (cores (priv s')) o = refs (cores (priv s0)) o) s0.
Proof.
  apply (softpurge_keeps_references reserve release rearm deref kill_all ctx head9 s0);
    [by left|done|done|apply s0_listed|done].
Defined.
