(* ===== verification/Tcp.v ===== *)
(** * vmod_tcp: options of the client socket

    Models vmod_tcp.c as it is compiled on Linux (HAVE_TCP_INFO) without
    NDEBUG.  The kernel's side of the socket is the state [K], and the socket
    options it knows are parameters: getsockopt and setsockopt answer NULL
    ([None]) where they return a negative number.  VCL_INT is a long, and the
    integers are kept at their widths: [s32] is what an assignment to an int
    keeps.  The buffer the name of the congestion control algorithm goes
    through is its 17 bytes. *)
From S2P Require Import Prelude CStr Workspace Double.

(** The fields of struct tcp_info the code reads, all __u32. *)
Record tcp_info := TcpInfo {
  tcpi_snd_mss : Z; tcpi_rcv_mss : Z; tcpi_lost : Z; tcpi_retrans : Z;
  tcpi_pmtu : Z; tcpi_rtt : Z; tcpi_rttvar : Z; tcpi_snd_cwnd : Z;
  tcpi_advmss : Z; tcpi_reordering : Z;
}.
(** ctx->req, or NULL, by its sp->fd. *)
Record vrt_ctx := VrtCtx { req_fd : option Z }.

Definition TCP_CA_NAME_MAX : nat := 16.
Definition NUL : ascii := "000"%char.

(** strncpy(dst, src, n): the bytes written. *)
Definition strncpy (src : bytes) (n : nat) : bytes := take n src ++ replicate (n - length src) NUL.
(** The string at the start of a buffer; strlen is its length. *)
Definition cstring (buf : bytes) : bytes := prefix_while (λ c, negb (bool_decide (c = NUL))) buf.
(** A call that fills in the first bytes of a buffer. *)
Definition overwrite (buf bs : bytes) : bytes := bs ++ drop (length bs) buf.
(** An argument of [%i] and of [%lu]. *)
Definition fmt_i (z : Z) : bytes := print_Z (s32 z).
Definition fmt_lu (z : Z) : bytes := print_Z (z mod 2 ^ 64).

Section operations.
Context {K W : Type}.
Context (getsockopt_info : K → option tcp_info).
(** The option value has at most the given length. *)
Context (setsockopt_congestion : bytes → K → option K).
Context (getsockopt_congestion : nat → K → option bytes).
(** SO_MAX_PACING_RATE, an int; the getter answers its return value too. *)
Context (setsockopt_pace : Z → K → option K) (getsockopt_pace : K → Z * Z).
Abbreviation tm := (M (task K W)).

(** CHECK_OBJ_NOTNULL(ctx->req->sp), AN(ctx->req->sp->fd). *)
Definition check_fd (fd : Z) : tm unit := assertM (negb (fd =? 0)%Z) "AN(ctx->req->sp->fd)".

Definition vmod_dump_info (ctx : vrt_ctx) : tm unit :=
  match req_fd ctx with
  | None => mret tt
  | Some fd =>
      check_fd fd;;;
      s ← getS;
      match getsockopt_info (priv s) with
      | None => VSLb SLT_VCL_Error (str "getsockopt() failed")
      | Some i =>
          VSLb SLT_VCL_Log (str "tcpi: snd_mss=" ++ fmt_i (tcpi_snd_mss i) ++
            str " rcv_mss=" ++ fmt_i (tcpi_rcv_mss i) ++ str " lost=" ++ fmt_i (tcpi_lost i) ++
            str " retrans=" ++ fmt_i (tcpi_retrans i));;;
          VSLb SLT_VCL_Log (str "tcpi2: pmtu=" ++ fmt_i (tcpi_pmtu i) ++
            str " rtt=" ++ fmt_i (tcpi_rtt i) ++ str " rttvar=" ++ fmt_i (tcpi_rttvar i) ++
            str " snd_cwnd=" ++ fmt_i (tcpi_snd_cwnd i) ++ str " advmss=" ++ fmt_i (tcpi_advmss i) ++
            str " reordering=" ++ fmt_i (tcpi_reordering i))
      end
  end.

(** The division is one of unsigned integers. *)
Definition vmod_get_estimated_rtt (ctx : vrt_ctx) : tm double :=
  match req_fd ctx with
  | None => mret dzero
  | Some fd =>
      check_fd fd;;;
      s ← getS;
      match getsockopt_info (priv s) with
      | None => VSLb SLT_VCL_Error (str "getsockopt() failed");;; mret dzero
      | Some i => mret (d_of_Z (tcpi_rtt i `div` 1000))
      end
  end.

Definition vmod_congestion_algorithm (ctx : vrt_ctx) (new : option bytes) : tm Z :=
  match req_fd ctx with
  | None => mret (-1)%Z
  | Some fd =>
      check_fd fd;;;
      new ← derefM new "strncpy from NULL";
      let strategy := strncpy new TCP_CA_NAME_MAX ++ [NUL] in
      s ← getS;
      match setsockopt_congestion (cstring strategy) (priv s) with
      | None =>
          VSLb SLT_VCL_Error (str "TCP_CONGESTION setsockopt() for " ++ ["034"%char] ++
            cstring strategy ++ ["034"%char] ++ str " failed.");;;
          mret (-1)%Z
      | Some k =>
          set_priv k;;;
          match getsockopt_congestion TCP_CA_NAME_MAX k with
          | None => VSLb SLT_VCL_Error (str "getsockopt() failed.")
          | Some bs =>
              VSLb SLT_VCL_Log (str "getsockopt() returned: " ++ cstring (overwrite strategy bs))
          end;;;
          mret 0%Z
      end
  end.

(** There is no test for ctx->req here. *)
Definition vmod_set_socket_pace (ctx : vrt_ctx) (rate : Z) : tm unit :=
  (if in_long (rate * 1024) then mret tt else undef "signed overflow");;;
  let pacerate := s32 (rate * 1024) in
  derefM (req_fd ctx) "ctx->req";;;
  s ← getS;
  match setsockopt_pace pacerate (priv s) with
  | None => VSLb SLT_VCL_Error (str "set_socket_pace(): Error setting pace rate.")
  | Some k =>
      set_priv k;;;
      VSLb SLT_VCL_Log (str "vmod-tcp: Socket paced to " ++ fmt_lu rate ++ str " KB/s.")
  end;;;
  s ← getS;
  let '(retval, current_rate) := getsockopt_pace (priv s) in
  VSLb SLT_VCL_Log (str "getsockopt() " ++ fmt_i retval ++ str " " ++ fmt_i current_rate).
End operations.

(** ** Strings in the buffer *)
Definition no_nul (s : bytes) : Prop := NUL ∉ s.

Lemma cstring_end s r : no_nul s → cstring (s ++ NUL :: r) = s.
Proof.
  unfold no_nul, cstring. induction s as [|c s IH]; intros Hs; cbn [app prefix_while].
  - by rewrite bool_decide_true.
  - apply not_elem_of_cons in Hs as [Hc Hs]. rewrite bool_decide_false by done. cbn [negb]. by rewrite IH.
Qed.
Lemma cstring_strncpy s n : no_nul s → cstring (strncpy s n ++ [NUL]) = take n s.
Proof.
  intros Hs. unfold strncpy. rewrite <-(assoc_L (++)).
  destruct (n - length s) as [|m] eqn:Hm; simpl; apply cstring_end; intros Hin;
    apply Hs; by apply (subseteq_take n).
Qed.
Lemma length_strncpy s n : length (strncpy s n) = n.
Proof. unfold strncpy. rewrite length_app, length_take, length_replicate. lia. Qed.
Lemma cstring_overwrite buf s : no_nul s →
  cstring (overwrite buf (s ++ [NUL])) = s.
Proof. intros Hs. unfold overwrite. rewrite <-(assoc_L (++)). by apply cstring_end. Qed.

Section properties.
Context {K W : Type}.
Context (getsockopt_info : K → option tcp_info).
Context (setsockopt_congestion : bytes → K → option K).
Context (getsockopt_congestion : nat → K → option bytes).
Context (setsockopt_pace : Z → K → option K) (getsockopt_pace : K → Z * Z).

(** congestion_algorithm asks the kernel for the name it is given, cut to
    16 characters (so a name of up to 16 arrives as it is), answers 0 if the
    kernel accepts it and otherwise -1 with a log record and the socket as it
    was; whatever name of up to 15 characters the kernel reports back is
    logged as it is. *)
Theorem congestion_exact ctx fd new name (s : task K W) :
  req_fd ctx = Some fd → fd ≠ 0%Z → no_nul new → no_nul name → length name < TCP_CA_NAME_MAX →
  (∀ k, getsockopt_congestion TCP_CA_NAME_MAX k = Some (name ++ [NUL])) →
  wp (vmod_congestion_algorithm setsockopt_congestion getsockopt_congestion ctx (Some new)) (λ r s',
    let asked := take TCP_CA_NAME_MAX new in
    (length new ≤ TCP_CA_NAME_MAX → asked = new) ∧ ws s' = ws s ∧
    match setsockopt_congestion asked (priv s) with
    | Some k => r = 0%Z ∧ priv s' = k ∧
        vsl s' = vsl s ++ [(SLT_VCL_Log, str "getsockopt() returned: " ++ name)]
    | None => r = (-1)%Z ∧ priv s' = priv s ∧
        vsl s' = vsl s ++ [(SLT_VCL_Error, str "TCP_CONGESTION setsockopt() for " ++
          ["034"%char] ++ asked ++ ["034"%char] ++ str " failed.")]
    end) s.
Proof using Type.
  clear getsockopt_info setsockopt_pace getsockopt_pace.
  intros Hfd Hne Hnew Hname Hlen Hget. unfold vmod_congestion_algorithm, check_fd. rewrite Hfd.
  apply wp_bind, wp_assertM. split; [by apply negb_true_iff, Z.eqb_neq|]. cbn [derefM].
  apply wp_bind, wp_ret. cbv zeta. rewrite cstring_strncpy by done. apply wp_bind, wp_getS.
  assert (length new ≤ TCP_CA_NAME_MAX → take TCP_CA_NAME_MAX new = new) as Htake by apply take_ge.
  destruct (setsockopt_congestion _ _) as [k|]; apply wp_bind.
  - apply wp_set_priv. rewrite Hget. apply wp_bind, wp_VSLb, wp_ret. cbn [priv ws vsl].
    rewrite cstring_overwrite by done. by split_and!.
  - apply wp_VSLb, wp_ret. by split_and!.
Qed.

(** C37: set_socket_pace hands the kernel the low 32 bits of the rate in bytes
    per second, as a signed int.  For rates below 2^21 KB/s this is the rate
    itself; from there on it is not, and every multiple of 2^22 KB/s arrives
    as 0 although the log shows the rate that was asked for.  A rate whose
    product with 1024 does not fit a long is undefined behaviour, and so is
    any call without a request. *)
Theorem pace_bounds ctx rate (s : task K W) :
  let run := vmod_set_socket_pace (W:=W) setsockopt_pace getsockopt_pace ctx rate in
  (req_fd ctx = None ∨ in_long (rate * 1024) = false → ∃ why, run s = Undef why) ∧
  (is_Some (req_fd ctx) → in_long (rate * 1024) = true →
   ∃ sent, (sent `mod` 2 ^ 32 = (rate * 1024) `mod` 2 ^ 32)%Z ∧ (- 2 ^ 31 ≤ sent < 2 ^ 31)%Z ∧
     ((0 ≤ rate < 2 ^ 21)%Z → sent = (rate * 1024)%Z) ∧ ((2 ^ 22 | rate)%Z → sent = 0%Z) ∧
     wp run (λ _ s', ws s' = ws s ∧
       match setsockopt_pace sent (priv s) with
       | Some k => priv s' = k ∧ (SLT_VCL_Log, str "vmod-tcp: Socket paced to " ++ fmt_lu rate ++
                                   str " KB/s.") ∈ vsl s'
       | None => priv s' = priv s ∧
           (SLT_VCL_Error, str "set_socket_pace(): Error setting pace rate.") ∈ vsl s'
       end) s).
Proof using Type.
  clear getsockopt_info setsockopt_congestion getsockopt_congestion.
  intros run. unfold run, vmod_set_socket_pace. split.
  - intros H. unfold mbind, M_bind. destruct (in_long (rate * 1024)); [|by eexists].
    destruct H as [->|?]; [|done]. by eexists.
  - intros [fd Hfd] Hlong. exists (s32 (rate * 1024)).
    assert (s32 (rate * 1024) `mod` 2 ^ 32 = (rate * 1024) `mod` 2 ^ 32)%Z as Hmod.
    { unfold s32. rewrite Zminus_mod_idemp_l. f_equal. lia. }
    split_and!; [exact Hmod| | | | |].
    1, 2: unfold s32; pose proof (Z.mod_pos_bound (rate * 1024 + 2 ^ 31) (2 ^ 32)); lia.
    + intros Hr. unfold s32. rewrite Z.mod_small; lia.
    + intros [q ->]. unfold s32. replace (q * 2 ^ 22 * 1024 + 2 ^ 31)%Z with (2 ^ 31 + q * 2 ^ 32)%Z by lia.
      rewrite Z.mod_add by lia. done.
    + rewrite Hlong, Hfd. apply wp_bind, wp_ret. cbv zeta. cbn [derefM]. apply wp_bind, wp_ret, wp_bind, wp_getS.
      apply wp_bind. destruct (setsockopt_pace _ _) as [k|];
        [apply wp_bind, wp_set_priv|]; apply wp_VSLb, wp_bind, wp_getS; cbn [priv ws vsl];
        destruct (getsockopt_pace _) as [rv cur]; apply wp_VSLb; cbn [priv ws vsl];
        (split_and!; [done|done|]); set_solver.
Qed.

(** The readers: get_estimated_rtt answers whole milliseconds. *)
Lemma estimated_rtt ctx fd (s : task K W) : req_fd ctx = Some fd → fd ≠ 0%Z →
  vmod_get_estimated_rtt getsockopt_info ctx s =
    match getsockopt_info (priv s) with
    | Some i => Ret (d_of_Z (tcpi_rtt i `div` 1000), s)
    | None => Ret (dzero, Task (priv s) (ws s) (vsl s ++ [(SLT_VCL_Error, str "getsockopt() failed")]))
    end.
Proof.
  intros Hfd Hne. unfold vmod_get_estimated_rtt, check_fd. rewrite Hfd.
  rewrite (proj2 (Z.eqb_neq fd 0)) by done. unfold mbind, M_bind. simpl.
  by destruct (getsockopt_info _).
Qed.
End properties.

(** ** Concrete runs *)
Module Examples.
Definition set_name (n : bytes) (k : bytes) : option bytes :=
  if bool_decide (n = str "cubic") then Some n else None.
Definition get_name (n : nat) (k : bytes) : option bytes := Some (str "cubic" ++ [NUL]).
Definition set_pace (z : Z) (k : Z) : option Z := Some z.
Definition get_pace (k : Z) : Z * Z := (0%Z, k).
Definition ctx : vrt_ctx := VrtCtx (Some 7%Z).
End Examples.
Import Examples.

Lemma congestion_exact_witness :
  wp (vmod_congestion_algorithm set_name get_name ctx (Some (str "cubic"))) (λ r s',
    let asked := take TCP_CA_NAME_MAX (str "cubic") in
    (length (str "cubic") ≤ TCP_CA_NAME_MAX → asked = str "cubic") ∧ ws s' = tt ∧
    r = 0%Z ∧ priv s' = str "cubic" ∧
    vsl s' = [(SLT_VCL_Log, str "getsockopt() returned: " ++ str "cubic")])
  (Task (str "reno") tt []).
Proof.
  apply (congestion_exact set_name get_name ctx 7 (str "cubic") (str "cubic") (Task (str "reno") tt []));
    try reflexivity; try lia; try (apply (bool_decide_unpack _); vm_compute; exact I).
Defined.

Lemma pace_bounds_witness :
  ∃ sent, (sent `mod` 2 ^ 32 = (4194304 * 1024) `mod` 2 ^ 32)%Z ∧ (- 2 ^ 31 ≤ sent < 2 ^ 31)%Z ∧
    ((0 ≤ 4194304 < 2 ^ 21)%Z → sent = (4194304 * 1024)%Z) ∧ ((2 ^ 22 | 4194304)%Z → sent = 0%Z) ∧
    wp (vmod_set_socket_pace set_pace get_pace ctx 4194304) (λ _ s', ws s' = tt ∧
      priv s' = sent ∧ (SLT_VCL_Log, str "vmod-tcp: Socket paced to " ++ fmt_lu 4194304 ++
                          str " KB/s.") ∈ vsl s') (Task 5%Z tt []).
Proof.
  apply (pace_bounds (W:=unit) set_pace get_pace ctx 4194304 (Task 5%Z tt [])); [by eexists|reflexivity].
Defined.
